(* ===== verification/_CoqProject ===== *)
-Q . S2P
Prelude.v
Strconv.v
Float64.v
Requirement.v
Kube.v
Conditions.v
Taints.v
HostPorts.v
Volumes.v
PodUtils.v
Preferences.v
Parallel.v
Requirements.v
Resources.v
Scheduler.v
StateNode.v
Budgets.v
InstanceTypes.v
ReservationManager.v
TopologyGroup.v
Limits.v
Topology.v
NodeClaim.v
ExistingNode.v
Packing.v
Placing.v
Pass.v
Solution.v
Replacements.v
Consolidation.v
Cost.v
NodePoolState.v
Health.v
Balanced.v
Matching.v
Validation.v
MultiNode.v
Cluster.v
ClusterInv.v
DisruptionQueue.v
NegativeCache.v
SingleNode.v
Pdb.v
Candidates.v
Simulate.v
Drift.v
Controller.v
Termination.v
Lifecycle.v
TopologyBuild.v
Upkeep.v
