(* ===== verification/Prelude.v ===== *)
(** * Verification of Karpenter's scheduling and disruption core

    Karpenter watches pods that no node can take and opens NodeClaims for them,
    and disrupts nodes that are no longer worth keeping.  This development models
    the part of the program that decides: the requirement algebra, resource
    arithmetic, the scheduling simulation and the bookkeeping of cluster state
    and disruption it rests on (Go packages under [src/pkg]).

    ** The program and its model

    A scheduling pass ([scheduling/scheduler.go], [Solve]) tries pods from a queue,
    largest first.  Each is added to an existing node, to a NodeClaim already
    in flight, or to a new NodeClaim from a template; when that fails its soft
    constraints are relaxed one by one.  Nodes and NodeClaims share a topology
    tracker, the reservations of capacity, the remaining limits of the node
    pools and a device allocator.

    - [Prelude.v] shared lemmas, tactics, Go maps ([GoRange]), sorting ([GoSort])
      and the type [outcome] of calls that can fail or panic;
    - [Strconv.v], [Float64.v] the parts of Go's standard library the code relies
      on: decimal integers, and float64 as IEEE binary64;
    - [Requirement.v], [Requirements.v] [pkg/scheduling/requirement(s).go]: sets of
      label values and their intersection;
    - [Kube.v] the fields of Kubernetes objects that are read;
    - [Taints.v], [HostPorts.v], [Volumes.v] [pkg/scheduling/taints.go],
      [hostportusage.go], [volumeusage.go];
    - [PodUtils.v] [pkg/utils/pod/scheduling.go], [pkg/utils/disruption];
    - [Resources.v] [pkg/utils/resources/resources.go];
    - [Preferences.v] [scheduling/preferences.go]: relaxing soft constraints;
    - [Parallel.v] the parallel search of [scheduler.go] as a step relation over
      all interleavings of its workers;
    - [Scheduler.v] [scheduling/queue.go] and the loop of [scheduler.go], against an
      interface ([SchedulerOps]) of placing one pod;
    - [StateNode.v] [pkg/controllers/state/statenode.go];
    - [Budgets.v] budgets of [pkg/apis/v1/nodepool.go] and [disruption/helpers.go];
    - [InstanceTypes.v] [pkg/cloudprovider/types.go];
    - [ReservationManager.v] [scheduling/reservationmanager.go];
    - [TopologyGroup.v], [Topology.v] [scheduling/topologygroup.go],
      [topologydomaingroup.go], [topologynodefilter.go], [topology.go] once it is
      built;
    - [TopologyBuild.v] the rest of [topology.go] and [inverseaffinitycache.go]:
      which groups there are, and counting the pods of the cluster;
    - [Limits.v] node pool limits of [scheduler.go];
    - [NodeClaim.v] [scheduling/nodeclaim.go]: NodeClaims in flight;
    - [ExistingNode.v] [scheduling/existingnode.go];
    - [Packing.v] [scheduling/packing.go]: prices;
    - [Placing.v] [add] of [scheduler.go] and all it calls, and the claims of
      [scheduling/dra.go]: the implementation of [SchedulerOps];
    - [Pass.v] the invariant of a pass and that each operation keeps it;
    - [Solution.v] the specification of a pass and its proof.

    Disruption ([pkg/controllers/disruption]) looks for nodes that can be removed,
    or replaced by cheaper ones, by simulating a scheduling pass without them.  A
    method proposes commands within the budgets, a validator checks them again
    after a delay, and a queue launches the replacements and removes the nodes.
    All of it reads and marks the cached state of the cluster.

    - [Replacements.v] what the replacements of consolidated nodes cost and launch
      as ([consolidation.go], [spottospot.go]);
    - [Consolidation.v] the command for some candidates ([consolidation.go],
      [spottospot.go], [splitconsolidation.go]), against an interface of the
      simulation;
    - [Balanced.v] [balanced.go]: scores of moves in balanced pools;
    - [Matching.v], [Validation.v] [validation.go];
    - [MultiNode.v] [emptiness.go], [multinodeconsolidation.go];
    - [NegativeCache.v], [SingleNode.v] [negativeresultcache.go],
      [singlenodeconsolidation.go];
    - [DisruptionQueue.v] [queue.go], on the model of the cluster;
    - [Pdb.v] [pkg/utils/pdb]: pod disruption budgets;
    - [Candidates.v] which nodes are candidates ([types.go], [helpers.go]);
    - [Simulate.v] [SimulateScheduling] of [helpers.go] around a pass;
    - [Drift.v] [drift.go], [staticdrift.go];
    - [Controller.v] [controller.go]: one reconcile over the methods, whose
      contract is the class [MethodOk];
    - [Cluster.v], [ClusterInv.v] [pkg/controllers/state/cluster.go] and the
      invariant of its reachable states;
    - [NodePoolState.v] [state/statenodepool.go] and how many NodeClaims the
      controllers of static pools open;
    - [Cost.v], [Health.v] [pkg/state/cost], [pkg/state/nodepoolhealth] with
      [pkg/utils/ringbuffer].

    Other controllers look after the objects behind it.

    - [Conditions.v] the status conditions they share, an interface;
    - [Lifecycle.v] [pkg/controllers/nodeclaim/lifecycle]: a NodeClaim from its
      launch to its finalizer;
    - [Termination.v] [pkg/controllers/node/termination]: draining a node and its
      finalizer;
    - [Upkeep.v] [pkg/controllers/node/health],
      [pkg/controllers/nodeclaim/garbagecollection], [.../expiration]: NodeClaims
      that went wrong.

    ** What the theorems show

    - The whole pass: [Solution.Solve_places_validly] proves that [Solve], run with
      the real placement, returns without panicking and ends with every
      scheduled pod placed exactly once, on a node or NodeClaim that tolerates,
      matches and holds it, within reservations and limits.
    - Each component against what its name promises: the requirement algebra is
      exact with respect to the sets of labels it denotes; topology spread keeps
      its skew and anti-affinity its exclusions across placements; reservations
      are conserved; limits are never exceeded; nodes and NodeClaims are never
      overcommitted; the cached usage of a node refines the pods bound to it;
      budgets bound what is disrupted.
    - Control: [Solve] and relaxation terminate; the parallel search always
      returns what a sequential scan returns and cannot deadlock; placing by
      price is binpacking when nothing is priced; the binary search for a batch
      ends; a command past its time ends.
    - Disruption: a command is backed by a simulation and launches cheaper than
      what it removes ([Consolidation.consolidation_saves]); the methods stay
      within the budgets and call a cluster consolidated only for a reason; what
      passes validation still holds; a node is in one command, and NodeClaims
      are deleted only after all replacements of their command were initialised.
      The candidates are exactly the nodes that may be disrupted; a simulation has
      a place for every pod that leaves; a reconcile disrupts only candidates of
      the one method that acts, however its commands interleave; drift of static
      pools stays within their limits.
    - The life of a NodeClaim: its conditions follow its stages, at most one
      instance is created for it, it is given up only on a timeout, and it is
      finalized only after its instance; a node is finalized only after it is
      drained.  Repair, garbage collection and expiration delete exactly the
      NodeClaims they should.
    - Cached state: the counts of a topology are those of the pods of the cluster
      when a pass starts; the resources of pools, the usage of nodes, offering counts,
      reservations of static capacity and health are those of the objects
      behind them after every sequence of events, and no event makes it panic.

    ** Conventions

    - A nil pointer is [None] of an option.  A panic is [None] or [Panic] where the
      Go code can panic; theorems say when it does not.
    - int, int64 and int32 are [Z] with wrap-around written out ([wrap64],
      [wrap32]).  The counter of placeholder names is unbounded.
    - [resource.Quantity], IP addresses, cron schedules, tolerations, API reads,
      CSI translation and the device allocator are classes; what is assumed of
      them are the laws of those classes, satisfied by the witnesses' instances.
    - The order of a [range] over a map is that of [GoRange], and of an unstable
      sort that of [GoSort], so theorems hold for every order.
    - Loops run on fuel that is proved enough: [Solve] for n pods takes at most
      n*n+n+1 rounds, relaxing one pod as many as it has soft constraints and
      one.  What the interleaving of a parallel search over templates decides
      beyond its result is the argument [schedule] of [Placing.v].

    ** Not modelled

    The device allocator of [pkg/scheduling/dynamicresources], which evaluates
    expressions of a library and is an interface here; the provisioner around a
    pass, whose batching is timers and channels, and building the templates,
    daemon overhead and volume requirements a pass starts from; the caches of a
    pass, which only save work; the controllers that set the conditions candidates
    and drift take as given ([nodeclaim/disruption], [podevents], [consistency]),
    that add labels of older versions, or copy what is modelled into the status
    of node pools; informers, node overlays, capacity buffers, admission rules,
    options, events, metrics, and the texts of errors and logs. *)

From stdpp Require Export base tactics numbers list gmap strings sets sorting.
From Stdlib Require Export ZArith Lia.

Set Default Goal Selector "!".

(** ** Scope and automation *)

Declare Scope go_scope.
Delimit Scope go_scope with go.
Open Scope Z_scope.
Open Scope go_scope.

Create HintDb go.
Create Rewrite HintDb go.

(** Boolean case analysis: split conjunctions and disjunctions of boolean
    tests into facts about their parts. *)
Ltac destruct_bools :=
  repeat match goal with
  | H : _ && _ = true |- _ => apply andb_true_iff in H as [? ?]
  | H : _ || _ = false |- _ => apply orb_false_iff in H as [? ?]
  | H : negb _ = true |- _ => apply negb_true_iff in H
  | H : negb _ = false |- _ => apply negb_false_iff in H
  | H : bool_decide _ = true |- _ => apply bool_decide_eq_true in H
  | H : bool_decide _ = false |- _ => apply bool_decide_eq_false in H
  | H : (_ <? _)%Z = true |- _ => apply Z.ltb_lt in H
  | H : (_ <? _)%Z = false |- _ => apply Z.ltb_ge in H
  | H : (_ <=? _)%Z = true |- _ => apply Z.leb_le in H
  | H : (_ <=? _)%Z = false |- _ => apply Z.leb_gt in H
  | H : (_ =? _)%Z = true |- _ => apply Z.eqb_eq in H
  | H : (_ =? _)%Z = false |- _ => apply Z.eqb_neq in H
  end.

(** Case on the scrutinee of the first [if] or [match] of the goal. *)
Ltac case_goal :=
  match goal with
  | |- context [if ?b then _ else _] => destruct b eqn:?
  | |- context [match ?o with Some _ => _ | None => _ end] => destruct o eqn:?
  end.

(** ** Machine integers

    Go's [int] is 64 bits wide on the platforms Karpenter is built for, and
    [int32] is used for topology counts.  Values are [Z]; the operations that
    can leave the range are followed by an explicit wrap-around. *)

Definition MaxInt64 : Z := 9223372036854775807.
Definition MinInt64 : Z := -9223372036854775808.
Definition MaxUint64 : Z := 18446744073709551615.
Definition MaxInt32 : Z := 2147483647.
Definition MinInt32 : Z := -2147483648.

Definition in_int64 (z : Z) : Prop := MinInt64 <= z <= MaxInt64.
Definition in_int32 (z : Z) : Prop := MinInt32 <= z <= MaxInt32.

Definition wrap64 (z : Z) : Z := (z - MinInt64) mod (MaxUint64 + 1) + MinInt64.
Definition wrap32 (z : Z) : Z := (z - MinInt32) mod 4294967296 + MinInt32.

Lemma wrap64_id z : in_int64 z → wrap64 z = z.
Proof.
  unfold in_int64, wrap64, MinInt64, MaxInt64, MaxUint64. intros.
  rewrite Z.mod_small; lia.
Qed.

Lemma wrap64_in z : in_int64 (wrap64 z).
Proof.
  unfold in_int64, wrap64, MinInt64, MaxInt64, MaxUint64.
  pose proof (Z.mod_pos_bound (z - -9223372036854775808) (18446744073709551615 + 1)).
  lia.
Qed.

Lemma wrap32_id z : in_int32 z → wrap32 z = z.
Proof.
  unfold in_int32, wrap32, MinInt32, MaxInt32. intros.
  rewrite Z.mod_small; lia.
Qed.

#[export] Hint Resolve wrap64_in : go.

(** [lia] after unfolding the machine-integer constants. *)
Ltac int_lia :=
  unfold in_int64, in_int32, MaxInt64, MinInt64, MaxUint64, MaxInt32, MinInt32 in *;
  lia.

(** ** Ranging over a Go set or map with an early return *)

(** [for v := range s { if f v { return true } }; return false] *)
Definition set_existsb {A} `{Countable A} (f : A → bool) (s : gset A) : bool :=
  existsb f (elements s).

(** [for v := range s { if !(f v) { return false } }; return true] *)
Definition set_forallb {A} `{Countable A} (f : A → bool) (s : gset A) : bool :=
  forallb f (elements s).

Section set_tests.
Context {A : Type} `{Countable A}.
Implicit Types (f : A → bool) (s : gset A).

Lemma set_existsb_true f s :
  set_existsb f s = true ↔ ∃ v, v ∈ s ∧ f v = true.
Proof.
  unfold set_existsb. rewrite existsb_exists.
  split; intros (v & Hv & Hf); exists v; split; try done.
  - by apply elem_of_elements, list_elem_of_In.
  - by apply list_elem_of_In, elem_of_elements.
Qed.

Lemma set_forallb_true f s :
  set_forallb f s = true ↔ ∀ v, v ∈ s → f v = true.
Proof.
  unfold set_forallb. rewrite forallb_forall.
  split; intros Hf v Hv; apply Hf.
  - by apply list_elem_of_In, elem_of_elements.
  - by apply elem_of_elements, list_elem_of_In.
Qed.

Lemma set_existsb_false f s :
  set_existsb f s = false ↔ ∀ v, v ∈ s → f v = false.
Proof.
  rewrite <- not_true_iff_false, set_existsb_true. split.
  - intros Hn v Hv. apply not_true_iff_false. intros Hf. apply Hn. eauto.
  - intros Hall (v & Hv & Hf). rewrite (Hall v Hv) in Hf. done.
Qed.
End set_tests.

(** Two booleans are equal when they are true together. *)
Lemma bool_eq_iff (a b : bool) : (a = true ↔ b = true) → a = b.
Proof. destruct a, b; intuition congruence. Qed.

(** ** Ranging over a map and updating another

    [for k, x := range src { dest[k] = f(dest[k], x) }]: the source map is
    enumerated once and each key is visited once, so the result has a
    point-wise description. *)
Definition range_update {K A B} `{Countable K} (f : option B → A → B)
    (src : gmap K A) (dest : gmap K B) : gmap K B :=
  foldl (λ acc kx, <[kx.1 := f (acc !! kx.1) kx.2]> acc) dest (map_to_list src).

Lemma foldl_update_lookup {K A B} `{Countable K} (f : option B → A → B)
    (l : list (K * A)) (dest : gmap K B) (k : K) :
  NoDup l.*1 →
  foldl (λ acc kx, <[kx.1 := f (acc !! kx.1) kx.2]> acc) dest l !! k =
  match (list_to_map l : gmap K A) !! k with
  | Some x => Some (f (dest !! k) x)
  | None => dest !! k
  end.
Proof.
  revert dest. induction l as [|[k' x] l IH]; intros dest Hnd; [done|].
  change (((k', x) :: l).*1) with (k' :: l.*1) in Hnd.
  apply NoDup_cons in Hnd as [Hnin Hnd].
  cbn [foldl fst snd]. rewrite IH, list_to_map_cons by done. rewrite lookup_insert.
  case_decide as Hk; [subst k'|by rewrite lookup_insert_ne].
  rewrite (not_elem_of_list_to_map_1 (M := gmap K) l k Hnin), lookup_insert_eq. done.
Qed.

Lemma range_update_lookup {K A B} `{Countable K} (f : option B → A → B)
    (src : gmap K A) (dest : gmap K B) (k : K) :
  range_update f src dest !! k =
  match src !! k with Some x => Some (f (dest !! k) x) | None => dest !! k end.
Proof.
  unfold range_update. rewrite foldl_update_lookup by apply NoDup_fst_map_to_list.
  by rewrite list_to_map_to_list.
Qed.

(** The general case: an entry may also be removed or left alone. *)
Definition range_alter {K A B} `{Countable K} (f : K → A → option B → option B)
    (src : gmap K A) (dest : gmap K B) : gmap K B :=
  foldl (λ acc kx, partial_alter (f kx.1 kx.2) kx.1 acc) dest (map_to_list src).

Lemma foldl_alter_lookup {K A B} `{Countable K} (f : K → A → option B → option B)
    (l : list (K * A)) (dest : gmap K B) (k : K) :
  NoDup l.*1 →
  foldl (λ acc kx, partial_alter (f kx.1 kx.2) kx.1 acc) dest l !! k =
  match (list_to_map l : gmap K A) !! k with
  | Some x => f k x (dest !! k)
  | None => dest !! k
  end.
Proof.
  revert dest. induction l as [|[k' x] l IH]; intros dest Hnd; [done|].
  change (((k', x) :: l).*1) with (k' :: l.*1) in Hnd.
  apply NoDup_cons in Hnd as [Hnin Hnd].
  cbn [foldl fst snd]. rewrite IH, list_to_map_cons by done. rewrite lookup_insert.
  case_decide as Hk; [subst k'|by rewrite lookup_partial_alter_ne].
  rewrite (not_elem_of_list_to_map_1 (M := gmap K) l k Hnin), lookup_partial_alter_eq. done.
Qed.

Lemma range_alter_lookup {K A B} `{Countable K} (f : K → A → option B → option B)
    (src : gmap K A) (dest : gmap K B) (k : K) :
  range_alter f src dest !! k =
  match src !! k with Some x => f k x (dest !! k) | None => dest !! k end.
Proof.
  unfold range_alter. rewrite foldl_alter_lookup by apply NoDup_fst_map_to_list.
  by rewrite list_to_map_to_list.
Qed.

(** Recognising a loop as a [range_alter]: the bodies agree on the entries. *)
Lemma foldl_range_alter {K A B} `{Countable K} (body : gmap K B → K * A → gmap K B)
    (f : K → A → option B → option B) (src : gmap K A) (dest : gmap K B) :
  (∀ acc k x, src !! k = Some x → body acc (k, x) = partial_alter (f k x) k acc) →
  foldl body dest (map_to_list src) = range_alter f src dest.
Proof.
  intros Hb. unfold range_alter.
  assert (∀ kx, kx ∈ map_to_list src → src !! kx.1 = Some kx.2) as Hin
    by (intros [k x]; apply elem_of_map_to_list).
  revert dest. induction (map_to_list src) as [|[k x] l IH]; intros dest; [done|].
  cbn [foldl fst snd]. rewrite Hb by apply (Hin (k, x)), list_elem_of_here.
  apply IH. intros kx Hkx. by apply Hin, list_elem_of_further.
Qed.

(** A test over all entries of a map. *)
Definition map_forallb {K A} `{Countable K} (f : K → A → bool) (m : gmap K A) : bool :=
  forallb (λ kx, f kx.1 kx.2) (map_to_list m).

Lemma map_forallb_true {K A} `{Countable K} (f : K → A → bool) (m : gmap K A) :
  map_forallb f m = true ↔ ∀ k x, m !! k = Some x → f k x = true.
Proof.
  unfold map_forallb. rewrite forallb_forall. split.
  - intros Hf k x Hk. apply (Hf (k, x)). by apply list_elem_of_In, elem_of_map_to_list.
  - intros Hf [k x] Hin. apply Hf. by apply elem_of_map_to_list, list_elem_of_In.
Qed.

(** The order in which Go ranges over a map is unspecified.  A loop whose result
    depends on it takes the order from this class, and its theorems hold for
    every order. *)
Class GoRange := {
  gorange : ∀ {K : Type} {Keq : EqDecision K} {Kcount : Countable K} {A : Type}, gmap K A → list (K * A);
  gorange_perm : ∀ {K : Type} {Keq : EqDecision K} {Kcount : Countable K} {A : Type} (m : gmap K A),
    gorange m ≡ₚ map_to_list m;
}.

Definition map_to_list_GoRange : GoRange := {|
  gorange K Keq Kcount A m := map_to_list m;
  gorange_perm K Keq Kcount A m := Permutation_refl _;
|}.

Lemma elem_of_gorange `{GoRange} {K A} `{Countable K} (m : gmap K A) k x : (k, x) ∈ gorange m ↔ m !! k = Some x.
Proof. rewrite gorange_perm. apply elem_of_map_to_list. Qed.

(** ** Go functions that may fail or panic *)

Inductive outcome (E A : Type) :=
  | Panic
  | Fail (e : E)
  | Done (a : A).
Arguments Panic {E A}.
Arguments Fail {E A}.
Arguments Done {E A}.

#[export] Instance outcome_ret {E} : MRet (outcome E) := λ A a, Done a.
#[export] Instance outcome_bind {E} : MBind (outcome E) := λ A B f m,
  match m with Panic => Panic | Fail e => Fail e | Done a => f a end.

(** A value that is missing only when the Go code panics. *)
Definition orPanic {E A} (m : option A) : outcome E A := match m with Some a => Done a | None => Panic end.

Lemma outcome_bind_Done {E A B} (f : A → outcome E B) m b :
  (m ≫= f) = Done b ↔ ∃ a, m = Done a ∧ f a = Done b.
Proof.
  destruct m; simpl; split.
  - done.
  - by intros (? & ? & ?).
  - done.
  - by intros (? & ? & ?).
  - eauto.
  - by intros (? & [= <-] & ?).
Qed.

Lemma outcome_bind_no_panic {E A B} (f : A → outcome E B) m :
  m ≠ Panic → (∀ a, m = Done a → f a ≠ Panic) → (m ≫= f) ≠ Panic.
Proof. destruct m; simpl; naive_solver. Qed.

Lemma orPanic_Done {E A} (m : option A) a : orPanic (E := E) m = Done a ↔ m = Some a.
Proof. destruct m; simpl; split; congruence. Qed.

(** ** Grouping a list by a key *)
Section group_by.
Context {A K : Type} `{EqDecision K} (f : A → K).

Definition with_key (l : list A) (k : K) : list A := List.filter (λ x, bool_decide (f x = k)) l.

Lemma concat_with_key_cons x l ks :
  NoDup ks → f x ∈ ks →
  concat (with_key (x :: l) <$> ks) ≡ₚ x :: concat (with_key l <$> ks).
Proof.
  induction 1 as [|k ks Hk Hnd IH]; [by intros ?%not_elem_of_nil|].
  intros Hin. rewrite !fmap_cons. cbn [concat].
  unfold with_key at 1. cbn [List.filter]. fold (with_key l k).
  case_bool_decide as Hx.
  - subst k. cbn [app]. apply Permutation_skip.
    enough (with_key (x :: l) <$> ks = with_key l <$> ks) as -> by done.
    apply list_fmap_ext. intros i k Hi. unfold with_key. cbn [List.filter].
    rewrite bool_decide_false; [done|]. intros Hfx. apply Hk. rewrite Hfx. by apply (list_elem_of_lookup_2 ks i).
  - rewrite IH by set_solver. by rewrite Permutation_middle.
Qed.

(** The groups of all occurring keys partition the list. *)
Lemma concat_with_key l ks :
  NoDup ks → (∀ x, x ∈ l → f x ∈ ks) → concat (with_key l <$> ks) ≡ₚ l.
Proof.
  intros Hnd. induction l as [|x l IH]; intros Hin.
  - clear. induction ks as [|k ks IH]; [done|]. by rewrite fmap_cons.
  - rewrite concat_with_key_cons by (auto; set_solver). rewrite IH; [done|set_solver].
Qed.

Lemma elem_of_with_key x l k : x ∈ with_key l k ↔ x ∈ l ∧ f x = k.
Proof. unfold with_key. rewrite !list_elem_of_In, filter_In, bool_decide_eq_true. done. Qed.

Lemma with_key_app l l' k : with_key (l ++ l') k = with_key l k ++ with_key l' k.
Proof. apply List.filter_app. Qed.
End group_by.

Lemma filter_perm {A} (f : A → bool) (l l' : list A) : l ≡ₚ l' → List.filter f l ≡ₚ List.filter f l'.
Proof.
  induction 1 as [|x l l' _ IH|x y l|l1 l2 l3 _ IH1 _ IH2]; simpl.
  - done.
  - case_goal; [by constructor|done].
  - repeat case_goal; try done. constructor.
  - by transitivity (List.filter f l2).
Qed.

(** ** Sorting and picking extremes

    [sort.Sort] and [sort.Slice] promise a permutation in which no later
    element is less than an earlier one, and nothing about ties.  Code that
    sorts takes the sorting function from this class, so its theorems hold for
    every tie-breaking. *)
Class GoSort := {
  gosort : ∀ {A : Type}, (A → A → bool) → list A → list A;
  gosort_perm : ∀ {A : Type} (less : A → A → bool) (l : list A), gosort less l ≡ₚ l;
  (** for a strict weak order on the elements of the list *)
  gosort_sorted : ∀ {A : Type} (less : A → A → bool) (l : list A),
    (∀ x y, x ∈ l → y ∈ l → less x y = true → less y x = false) →
    (∀ x y z, x ∈ l → y ∈ l → z ∈ l → less y x = false → less z y = false → less z x = false) →
    StronglySorted (λ x y, less y x = false) (gosort less l);
}.

(** Insertion sort, stable, is one such function; it is also the model of
    [sort.SliceStable]. *)
Fixpoint insert_by {A} (less : A → A → bool) (x : A) (l : list A) : list A :=
  match l with
  | [] => [x]
  | y :: ys => if less y x then y :: insert_by less x ys else x :: l
  end.

Definition sort_stable {A} (less : A → A → bool) (l : list A) : list A :=
  foldr (insert_by less) [] l.

Lemma insert_by_perm {A} (less : A → A → bool) x l : insert_by less x l ≡ₚ x :: l.
Proof.
  induction l as [|y l IH]; simpl; [done|]. case_goal; [|done].
  rewrite IH. apply Permutation_swap.
Qed.

Lemma sort_stable_perm {A} (less : A → A → bool) l : sort_stable less l ≡ₚ l.
Proof. induction l as [|x l IH]; simpl; [done|]. by rewrite insert_by_perm, IH. Qed.

Lemma insert_by_sorted {A} (less : A → A → bool) x l :
  (∀ u v, u ∈ x :: l → v ∈ x :: l → less u v = true → less v u = false) →
  (∀ u v w, u ∈ x :: l → v ∈ x :: l → w ∈ x :: l →
     less v u = false → less w v = false → less w u = false) →
  StronglySorted (λ u v, less v u = false) l →
  StronglySorted (λ u v, less v u = false) (insert_by less x l).
Proof.
  intros Has Htr Hs. induction Hs as [|y l Hs IH Hall]; simpl; [repeat constructor|].
  case_goal.
  - constructor.
    + apply IH; intros; [apply Has|eapply Htr; [..|done|done]]; try done; set_solver.
    + apply Forall_forall. intros z Hz. rewrite insert_by_perm in Hz.
      apply elem_of_cons in Hz as [->|Hz]; [apply Has; [set_solver..|done]|].
      rewrite Forall_forall in Hall. by apply Hall.
  - constructor; [by constructor|]. apply Forall_cons. split; [done|].
    rewrite Forall_forall in Hall |- *. intros z Hz.
    apply (Htr x y z); [set_solver..|done|by apply Hall].
Qed.

Lemma sort_stable_sorted {A} (less : A → A → bool) l :
  (∀ x y, x ∈ l → y ∈ l → less x y = true → less y x = false) →
  (∀ x y z, x ∈ l → y ∈ l → z ∈ l → less y x = false → less z y = false → less z x = false) →
  StronglySorted (λ x y, less y x = false) (sort_stable less l).
Proof.
  induction l as [|x l IH]; intros Has Htr; [constructor|].
  change (sort_stable less (x :: l)) with (insert_by less x (sort_stable less l)).
  apply insert_by_sorted.
  - intros u v. rewrite !elem_of_cons, !(sort_stable_perm less l). rewrite <- !elem_of_cons. apply Has.
  - intros u v w. rewrite !elem_of_cons, !(sort_stable_perm less l). rewrite <- !elem_of_cons. apply Htr.
  - apply IH; intros; [apply Has|eapply Htr; [..|done|done]]; try done; set_solver.
Qed.

Definition stable_GoSort : GoSort := {|
  gosort := @sort_stable;
  gosort_perm := @sort_stable_perm;
  gosort_sorted := @sort_stable_sorted;
|}.

Lemma StronglySorted_fmap {A B} (f : A → B) (R : B → B → Prop) (l : list A) :
  StronglySorted (λ x y, R (f x) (f y)) l → StronglySorted R (f <$> l).
Proof.
  induction 1 as [|x l Hs IH Hall]; [constructor|]. rewrite fmap_cons. constructor; [done|].
  by apply Forall_fmap.
Qed.

Lemma StronglySorted_lookup_lt {A} (R : A → A → Prop) (l : list A) i j x y :
  StronglySorted R l → l !! i = Some x → l !! j = Some y → (i < j)%nat → R x y.
Proof.
  intros Hs. revert i j. induction Hs as [|z l Hs IH Hall]; intros i j Hi Hj Hij; [done|].
  destruct j as [|j]; [lia|]. destruct i as [|i].
  - injection Hi as ->. rewrite Forall_forall in Hall. by apply Hall, (list_elem_of_lookup_2 l j).
  - apply (IH i j); [done..|lia].
Qed.

(** [lo.MinBy]/[lo.MaxBy]: the first element no other element beats. *)
Definition best_by {A} (better : A → A → bool) (l : list A) : option A :=
  match l with
  | [] => None
  | x :: xs => Some (foldl (λ acc item, if better item acc then item else acc) x xs)
  end.

Section best_by.
Context {A : Type} (better : A → A → bool) (D : A → Prop).
Hypothesis better_asym : ∀ x y, D x → D y → better x y = true → better y x = false.
Hypothesis better_weak : ∀ x y z, D x → D y → D z →
  better y x = false → better z y = false → better z x = false.

Lemma better_irrefl x : D x → better x x = false.
Proof.
  intros Hx. apply not_true_iff_false. intros Hb. pose proof (better_asym x x Hx Hx Hb). congruence.
Qed.

Lemma best_foldl xs x :
  D x → Forall D xs →
  let b := foldl (λ acc item, if better item acc then item else acc) x xs in
  (b = x ∨ b ∈ xs) ∧ D b ∧ better x b = false ∧ ∀ y, y ∈ xs → better y b = false.
Proof.
  intros Hx Hxs. revert x Hx. induction Hxs as [|y xs Hy Hxs IH]; intros x Hx; simpl.
  { split_and!; [by left|done|by apply better_irrefl|]. by intros y ?%not_elem_of_nil. }
  destruct (better y x) eqn:Hyx.
  - destruct (IH y Hy) as (Hin & Hb & Hyb & Hall). split_and!; [|done| |].
    + right. apply elem_of_cons. naive_solver.
    + apply (better_weak _ y x); auto.
    + intros z [->|Hz]%elem_of_cons; auto.
  - destruct (IH x Hx) as (Hin & Hb & Hxb & Hall). split_and!; [|done|done|].
    + destruct Hin; [by left|right; by apply list_elem_of_further].
    + intros z [->|Hz]%elem_of_cons; [|auto]. apply (better_weak _ x y); auto.
Qed.

Lemma best_by_spec l b :
  Forall D l → best_by better l = Some b → b ∈ l ∧ ∀ y, y ∈ l → better y b = false.
Proof.
  destruct l as [|x xs]; [done|]. intros [Hx Hxs]%Forall_cons [= <-].
  destruct (best_foldl xs x Hx Hxs) as (Hin & _ & Hxb & Hall). split.
  - apply elem_of_cons. naive_solver.
  - intros y [->|Hy]%elem_of_cons; auto.
Qed.
End best_by.

Lemma best_by_None {A} (better : A → A → bool) l : best_by better l = None ↔ l = [].
Proof. by destruct l. Qed.

(** A running minimum over the elements that pass a test. *)
Lemma foldl_min_spec {A} (p : A → bool) (c : A → Z) (l : list A) acc :
  let r := foldl (λ acc o, if p o then Some (match acc with Some x => Z.min x (c o) | None => c o end) else acc) acc l in
  (∀ o, o ∈ l → p o = true → ∃ m, r = Some m ∧ m <= c o) ∧
  (∀ x, acc = Some x → ∃ m, r = Some m ∧ m <= x) ∧
  (∀ m, r = Some m → acc = Some m ∨ ∃ o, o ∈ l ∧ p o = true ∧ c o = m).
Proof.
  revert acc. induction l as [|o l IH]; intros acc; cbn [foldl].
  { split_and!; [by intros o ?%not_elem_of_nil|eauto with lia|by left]. }
  destruct (p o) eqn:Hp.
  - destruct (IH (Some (match acc with Some x => Z.min x (c o) | None => c o end))) as (H1 & H2 & H3).
    destruct (H2 _ eq_refl) as (m & Hm & Hle). split_and!.
    + intros o' [->|Ho']%elem_of_cons Hp'; [|by apply H1]. exists m. split; [done|]. destruct acc; lia.
    + intros x ->. exists m. split; [done|lia].
    + intros m' Hm'. destruct (H3 m' Hm') as [[= Hacc]|(o' & ? & ? & ?)].
      * destruct acc as [x|]; [|right; exists o; rewrite elem_of_cons; auto].
        destruct (Z.min_spec x (c o)) as [[_ ?]|[_ ?]];
          [left; congruence|right; exists o; rewrite elem_of_cons; split_and!; auto; congruence].
      * right. exists o'. rewrite elem_of_cons. auto.
  - destruct (IH acc) as (H1 & H2 & H3). split_and!; [|done|].
    + intros o' [->|Ho']%elem_of_cons Hp'; [congruence|by apply H1].
    + intros m Hm. destruct (H3 m Hm) as [?|(o' & ? & ?)]; [by left|right]. exists o'. rewrite elem_of_cons. auto.
Qed.
