(* ===== verification/Strconv.v ===== *)
(** * Go's [strconv.Atoi] and [strconv.FormatInt] in base 10

    The part of package [strconv] that Karpenter uses to read the operands of
    the [Gt]/[Lt]/[Gte]/[Lte] selector operators and to print them back.
    Strings are byte strings.  [Atoi] accepts one optional sign and any number
    of leading zeros, so every integer has unboundedly many spellings; the
    lemma [fresh_spelling] below rests on this. *)

From S2P Require Import Prelude.
From Stdlib Require Import Ascii.

Inductive NumError := ErrSyntax | ErrRange.

Definition digit (c : ascii) : option Z :=
  let n := Z.of_nat (nat_of_ascii c) in
  if (48 <=? n) && (n <=? 57) then Some (n - 48) else None.

(** The loop of [ParseUint(s, 10, 64)]: a non-digit is a syntax error and the
    first digit that takes the value past [MaxUint64] is a range error. *)
Fixpoint parse_digits (n : Z) (s : string) : Z * option NumError :=
  match s with
  | EmptyString => (n, None)
  | String c s' =>
      match digit c with
      | None => (0, Some ErrSyntax)
      | Some d =>
          if MaxUint64 <? 10 * n + d then (MaxUint64, Some ErrRange)
          else parse_digits (10 * n + d) s'
      end
  end.

Definition ParseUint (s : string) : Z * option NumError :=
  match s with
  | EmptyString => (0, Some ErrSyntax)
  | _ => parse_digits 0 s
  end.

(** [ParseInt(s, 10, 64)], which [Atoi] agrees with on every input. *)
Definition split_sign (s : string) : bool * string :=
  match s with
  | String "+" s' => (false, s')
  | String "-" s' => (true, s')
  | _ => (false, s)
  end.

Definition Atoi (s : string) : Z * option NumError :=
  let '(neg, s') := split_sign s in
  match ParseUint s' with
  | (_, Some ErrSyntax) => (0, Some ErrSyntax)
  | (un, _) =>
      if negb neg && (MaxInt64 + 1 <=? un) then (MaxInt64, Some ErrRange)
      else if neg && (MaxInt64 + 1 <? un) then (MinInt64, Some ErrRange)
      else (if neg then - un else un, None)
  end.

(** The value of [Atoi] when it succeeds. *)
Definition atoi (s : string) : option Z :=
  match Atoi s with (v, None) => Some v | _ => None end.

(** [strconv.FormatInt(n, 10)]; twenty digits hold every 64-bit magnitude. *)
Definition digit_char (d : Z) : ascii := ascii_of_nat (Z.to_nat (d + 48)).

Fixpoint format_digits (fuel : nat) (n : Z) (acc : string) : string :=
  match fuel with
  | O => acc
  | S fuel' =>
      let acc' := String (digit_char (n mod 10)) acc in
      if n <? 10 then acc' else format_digits fuel' (n / 10) acc'
  end.

Definition FormatInt (n : Z) : string :=
  if n <? 0 then String "-" (format_digits 20 (- n) "")
  else format_digits 20 n "".

Example Atoi_examples :
  Atoi "42" = (42, None) ∧ Atoi "-7" = (-7, None) ∧ Atoi "+5" = (5, None) ∧
  Atoi "007" = (7, None) ∧ Atoi "" = (0, Some ErrSyntax) ∧
  Atoi "1x" = (0, Some ErrSyntax) ∧
  Atoi "9223372036854775808" = (MaxInt64, Some ErrRange) ∧
  Atoi "-9223372036854775808" = (MinInt64, None) ∧
  FormatInt (-120) = "-120" ∧ FormatInt MaxInt64 = "9223372036854775807".
Proof. vm_compute. tauto. Qed.

(** ** Digits *)

Lemma digit_digit_char d : 0 <= d <= 9 → digit (digit_char d) = Some d.
Proof.
  intros. unfold digit, digit_char.
  rewrite nat_ascii_embedding by lia. rewrite Z2Nat.id by lia.
  destruct (48 <=? d + 48) eqn:?, (d + 48 <=? 57) eqn:?; simpl; f_equal; lia.
Qed.

Lemma digit_range c d : digit c = Some d → 0 <= d <= 9.
Proof. unfold digit. case_goal; [|done]. intros [= <-]. destruct_bools. lia. Qed.

Lemma parse_digits_range n s v e :
  0 <= n <= MaxUint64 → parse_digits n s = (v, e) → 0 <= v <= MaxUint64.
Proof.
  revert n. induction s as [|c s IH]; simpl; intros n Hn.
  { intros [= <- <-]. done. }
  destruct (digit c) as [d|] eqn:Hd.
  - apply digit_range in Hd. case_goal; [intros [= <- <-]; int_lia|].
    apply IH. int_lia.
  - intros [= <- <-]. int_lia.
Qed.

Lemma Atoi_range s v e : Atoi s = (v, e) → in_int64 v.
Proof.
  unfold Atoi. destruct (split_sign s) as [neg s'].
  destruct (ParseUint s') as [un oe] eqn:Hp.
  assert (0 <= un <= MaxUint64) as Hun.
  { unfold ParseUint in Hp. destruct s'; [injection Hp as <- <-; int_lia|].
    eapply parse_digits_range; [|done]. int_lia. }
  destruct oe as [[]|], neg; simpl; repeat case_goal; intros [= <- <-];
    destruct_bools; int_lia.
Qed.

Lemma atoi_range s v : atoi s = Some v → in_int64 v.
Proof.
  unfold atoi. destruct (Atoi s) as [v' []] eqn:Ha; [done|].
  intros [= <-]. by eapply Atoi_range.
Qed.
#[export] Hint Resolve Atoi_range atoi_range : go.

(** ** Printing then parsing *)

Lemma format_digits_parse fuel n acc :
  0 <= n <= MaxUint64 → n < 10 ^ Z.of_nat fuel → (0 < fuel)%nat →
  parse_digits 0 (format_digits fuel n acc) = parse_digits n acc.
Proof.
  revert n acc. induction fuel as [|fuel IH]; intros n acc Hn Hlt Hf; [lia|].
  simpl. pose proof (Z.mod_pos_bound n 10). pose proof (Z.div_mod n 10).
  case_goal; destruct_bools.
  - rewrite (Z.mod_small n 10) by lia. simpl.
    rewrite digit_digit_char by lia.
    destruct (MaxUint64 <? _) eqn:?; destruct_bools; [int_lia|]. f_equal; lia.
  - rewrite Nat2Z.inj_succ, Z.pow_succ_r in Hlt by lia.
    destruct fuel as [|fuel]; [simpl in Hlt; lia|].
    rewrite IH; [|int_lia| |lia].
    + simpl. rewrite digit_digit_char by lia.
      destruct (MaxUint64 <? _) eqn:?; destruct_bools; [int_lia|]. f_equal; lia.
    + apply Z.div_lt_upper_bound; lia.
Qed.

Lemma format_digits_head fuel n acc :
  (0 < fuel)%nat → 0 <= n →
  ∃ c s, format_digits fuel n acc = String c s ∧ digit c ≠ None.
Proof.
  revert n acc. induction fuel as [|fuel IH]; intros n acc Hf Hn; [lia|].
  simpl. pose proof (Z.mod_pos_bound n 10). case_goal.
  - eexists _, _. split; [done|]. rewrite digit_digit_char by lia. done.
  - destruct fuel as [|fuel].
    + simpl. eexists _, _. split; [done|]. rewrite digit_digit_char by lia. done.
    + apply IH; [lia|]. apply Z.div_pos; lia.
Qed.

Lemma split_sign_digit c s : digit c ≠ None → split_sign (String c s) = (false, String c s).
Proof. destruct c as [[] [] [] [] [] [] [] []]; try reflexivity; intros H; by contradict H. Qed.

Lemma split_sign_minus s : split_sign (String "-" s) = (true, s).
Proof. reflexivity. Qed.

(** A signed decimal numeral: an optional minus sign, [k] zeros, then the
    digits of the magnitude. *)
Fixpoint zeros (k : nat) (s : string) : string :=
  match k with O => s | S k' => String "0" (zeros k' s) end.

Definition spelling (k : nat) (v : Z) : string :=
  if v <? 0 then String "-" (zeros k (format_digits 20 (- v) ""))
  else zeros k (format_digits 20 v "").

Lemma parse_zeros k s : parse_digits 0 (zeros k s) = parse_digits 0 s.
Proof. induction k; simpl; [done|]. done. Qed.

Lemma zeros_head k s c t :
  s = String c t → digit c ≠ None → ∃ c' t', zeros k s = String c' t' ∧ digit c' ≠ None.
Proof. intros -> Hc. destruct k; simpl; eauto. Qed.

Lemma zeros_length k s : String.length (zeros k s) = (k + String.length s)%nat.
Proof. induction k; simpl; congruence. Qed.

Lemma parse_magnitude k n :
  0 <= n <= MaxUint64 →
  ParseUint (zeros k (format_digits 20 n "")) = (n, None) ∧
  ∃ c t, zeros k (format_digits 20 n "") = String c t ∧ digit c ≠ None.
Proof.
  intros Hn. destruct (format_digits_head 20 n "") as (c & t & Hs & Hc); [lia..|].
  destruct (zeros_head k _ c t Hs Hc) as (c' & t' & Hz & Hc'). split; [|eauto].
  unfold ParseUint. rewrite Hz, <- Hz, parse_zeros, format_digits_parse; [done|done| |lia].
  change (10 ^ Z.of_nat 20) with 100000000000000000000. int_lia.
Qed.

Lemma Atoi_spelling k v : in_int64 v → Atoi (spelling k v) = (v, None).
Proof.
  intros Hv. unfold spelling. destruct (v <? 0) eqn:Hneg; destruct_bools.
  - destruct (parse_magnitude k (- v)) as [Hp _]; [int_lia|].
    unfold Atoi. rewrite split_sign_minus. cbv beta iota. rewrite Hp. simpl.
    destruct (MaxInt64 + 1 <? - v) eqn:?; destruct_bools; [int_lia|]. f_equal; lia.
  - destruct (parse_magnitude k v) as [Hp (c & t & Hz & Hc)]; [int_lia|].
    unfold Atoi. rewrite Hz, split_sign_digit by done. cbv beta iota.
    rewrite <- Hz, Hp. simpl.
    destruct (MaxInt64 + 1 <=? v) eqn:?; destruct_bools; [int_lia|]. done.
Qed.

Lemma Atoi_FormatInt v : in_int64 v → Atoi (FormatInt v) = (v, None).
Proof. apply (Atoi_spelling 0). Qed.

Lemma atoi_spelling k v : in_int64 v → atoi (spelling k v) = Some v.
Proof. intros. unfold atoi. by rewrite Atoi_spelling. Qed.

(** Every 64-bit integer has a spelling outside any given finite set. *)
Definition max_length (s : gset string) : nat :=
  foldr (λ v n, Nat.max (String.length v) n) 0%nat (elements s).

Lemma max_length_spec s v : v ∈ s → (String.length v ≤ max_length s)%nat.
Proof.
  rewrite <- elem_of_elements. unfold max_length.
  induction (elements s) as [|w l IH]; [by intros ?%not_elem_of_nil|].
  rewrite elem_of_cons. simpl. intros [->|Hv]; [lia|]. apply IH in Hv. lia.
Qed.

Lemma spelling_length k v : (k ≤ String.length (spelling k v))%nat.
Proof.
  unfold spelling. case_goal; cbn [String.length]; rewrite zeros_length; lia.
Qed.

Lemma fresh_spelling (s : gset string) v :
  in_int64 v → ∃ w, (w ∉ s) ∧ atoi w = Some v.
Proof.
  intros Hv. exists (spelling (S (max_length s)) v). split; [|by apply atoi_spelling].
  intros Hin%max_length_spec. pose proof (spelling_length (S (max_length s)) v). lia.
Qed.

(** Any finite set of strings misses some string. *)
Lemma fresh_string (s : gset string) : ∃ w, w ∉ s.
Proof. destruct (fresh_spelling s 0) as (w & Hw & _); [int_lia|]. eauto. Qed.
