(* ===== verification/Float64.v ===== *)
(** * Go's [float64]

    Prices and scores are IEEE 754 binary64 numbers.  The model uses the
    standard library's reference semantics of that format ([SpecFloat] with 53
    bits of precision and maximal exponent 1024).  Only [NaN] is unordered; the
    lemmas below give the strict order on the other values. *)

From Stdlib Require Import SpecFloat.
From S2P Require Import Prelude.

Definition float64 : Type := spec_float.

Definition fltb : float64 → float64 → bool := SFltb.
Definition fleb : float64 → float64 → bool := SFleb.
Definition fadd : float64 → float64 → float64 := SFadd 53 1024.
Definition fsub : float64 → float64 → float64 := SFsub 53 1024.
Definition fmul : float64 → float64 → float64 := SFmul 53 1024.
Definition fdiv : float64 → float64 → float64 := SFdiv 53 1024.
(** [float64(n)]: round to nearest even. *)
Definition fofint (n : Z) : float64 := binary_normalize 53 1024 n 0 false.
(** [math.MaxFloat64] *)
Definition MaxFloat64 : float64 := S754_finite false 9007199254740991 971.
Definition fhalf : float64 := S754_finite false 4503599627370496 (-53).

Declare Scope float_scope.
Delimit Scope float_scope with float.
Infix "<" := fltb : float_scope.
Infix "<=" := fleb : float_scope.

#[export] Instance float64_eq_dec : EqDecision float64.
Proof. solve_decision. Defined.

Definition is_nan (f : float64) : bool := match f with S754_nan => true | _ => false end.

(** Position in the order: the sign class, then exponent and mantissa. *)
Definition rank (f : float64) : Z * Z * Z :=
  match f with
  | S754_infinity true => (-2, 0, 0)
  | S754_finite true m e => (-1, - e, - Z.pos m)
  | S754_zero _ | S754_nan => (0, 0, 0)
  | S754_finite false m e => (1, e, Z.pos m)
  | S754_infinity false => (2, 0, 0)
  end.

Definition rank_lt (a b : Z * Z * Z) : Prop :=
  let '(a1, a2, a3) := a in
  let '(b1, b2, b3) := b in
  a1 < b1 ∨ a1 = b1 ∧ (a2 < b2 ∨ a2 = b2 ∧ a3 < b3).

Lemma fltb_spec f g :
  fltb f g = true ↔ is_nan f = false ∧ is_nan g = false ∧ rank_lt (rank f) (rank g).
Proof.
  unfold fltb, SFltb, rank_lt.
  destruct f as [[]|[]| |[] m e], g as [[]|[]| |[] m' e']; simpl;
    try (split; [done|]; intros (? & ? & ?); done || lia);
    try (split; [intros _; split_and!; try done; lia|done]).
  all: change (PosDef.Pos.compare_cont Eq) with (Pos.compare_cont Eq);
    change (Pos.compare_cont Eq m m') with (m ?= m')%positive;
    destruct (Z.compare_spec e e'), (Pos.compare_spec m m'); simpl; split; try done;
    try (intros _; split_and!; try done; lia); intros (_ & _ & ?); lia.
Qed.

Lemma fleb_spec f g :
  fleb f g = true ↔ is_nan f = false ∧ is_nan g = false ∧ ¬ rank_lt (rank g) (rank f).
Proof.
  unfold fleb, SFleb, rank_lt.
  destruct f as [[]|[]| |[] m e], g as [[]|[]| |[] m' e']; simpl;
    try (split; [done|]; intros (? & ? & ?); done || lia);
    try (split; [intros _; split_and!; try done; lia|done]).
  all: change (PosDef.Pos.compare_cont Eq) with (Pos.compare_cont Eq);
    change (Pos.compare_cont Eq m m') with (m ?= m')%positive;
    destruct (Z.compare_spec e e'), (Pos.compare_spec m m'); simpl; split; try done;
    try (intros _; split_and!; try done; lia); intros (_ & _ & ?); lia.
Qed.

Ltac rank_lia :=
  unfold rank_lt in *;
  repeat match goal with |- context [rank ?f] => destruct (rank f) as [[? ?] ?]
                    | H : context [rank ?f] |- _ => destruct (rank f) as [[? ?] ?] end;
  lia.

Lemma fltb_irrefl f : fltb f f = false.
Proof. apply not_true_iff_false. intros (_ & _ & H)%fltb_spec. rank_lia. Qed.

Lemma fltb_trans f g h : fltb f g = true → fltb g h = true → fltb f h = true.
Proof. rewrite !fltb_spec. intros (? & ? & ?) (? & ? & ?). split_and!; [done..|]. rank_lia. Qed.

(** On ordinary values "not less" is transitive and total: a weak order. *)
Lemma fltb_weak f g h :
  is_nan f = false → is_nan g = false → is_nan h = false →
  fltb g f = false → fltb h g = false → fltb h f = false.
Proof.
  intros Hf Hg Hh H1 H2. apply not_true_iff_false. intros (_ & _ & H3)%fltb_spec.
  apply not_true_iff_false in H1, H2. rewrite fltb_spec in H1, H2.
  assert (¬ rank_lt (rank g) (rank f)) by tauto. assert (¬ rank_lt (rank h) (rank g)) by tauto.
  clear H1 H2. rank_lia.
Qed.

Lemma fltb_total f g : fltb f g = true → fltb g f = false.
Proof.
  intros H1. apply not_true_iff_false. intros H2.
  pose proof (fltb_trans _ _ _ H1 H2) as H3. by rewrite fltb_irrefl in H3.
Qed.

Lemma fleb_not_fltb f g :
  is_nan f = false → is_nan g = false → fleb f g = negb (fltb g f).
Proof.
  intros Hf Hg. apply bool_eq_iff. rewrite negb_true_iff, <- not_true_iff_false, fltb_spec, fleb_spec.
  tauto.
Qed.

(** [max] on floats: NaN wins, and the positive zero over the negative. *)
Definition gomax (x y : float64) : float64 :=
  match x, y with
  | S754_nan, _ | _, S754_nan => S754_nan
  | S754_zero sx, S754_zero _ => if sx then y else x
  | _, _ => if fltb y x then x else y
  end.

Lemma gomax_cases x y :
  gomax x y = S754_nan ∨
  (is_nan x = false ∧ is_nan y = false ∧ fltb (gomax x y) x = false ∧ fltb (gomax x y) y = false ∧ (gomax x y = x ∨ gomax x y = y)).
Proof.
  assert (∀ a b, is_nan a = false → is_nan b = false → let m := if fltb b a then a else b in
    is_nan a = false ∧ is_nan b = false ∧ fltb m a = false ∧ fltb m b = false ∧ (m = a ∨ m = b)) as Hgen.
  { intros a b Ha Hb. cbv zeta. destruct (fltb b a) eqn:Hlt.
    - split_and!; [done|done|apply fltb_irrefl|by apply fltb_total|by left].
    - split_and!; [done|done|done|apply fltb_irrefl|by right]. }
  destruct x as [sx|sx| |sx mx ex], y as [sy|sy| |sy my ey]; try (by left);
    first [by right; apply Hgen|right; destruct sx, sy; split_and!; auto].
Qed.

(** The larger of two is below nothing that either is not below. *)
Lemma gomax_floor_l x y f : fltb x f = false → fltb (gomax x y) f = false.
Proof.
  intros Hx. destruct (gomax_cases x y) as [->|(Hnx & Hny & Hmx & _ & Hc)]; [by destruct f|].
  destruct (is_nan f) eqn:Hf; [destruct f; try done; by destruct (gomax x y)|].
  apply (fltb_weak f x); [done|done| |done|done]. by destruct Hc as [->| ->].
Qed.

Lemma gomax_floor_r x y f : fltb y f = false → fltb (gomax x y) f = false.
Proof.
  intros Hy. destruct (gomax_cases x y) as [->|(Hnx & Hny & _ & Hmy & Hc)]; [by destruct f|].
  destruct (is_nan f) eqn:Hf; [destruct f; try done; by destruct (gomax x y)|].
  apply (fltb_weak f y); [done|done| |done|done]. by destruct Hc as [->| ->].
Qed.
