(* ===== verification/Requirement.v ===== *)
(** * Requirement: the label-selector algebra

    Model of [pkg/scheduling/requirement.go]: a requirement on one node label,
    stored as a finite set of values or the complement of one, with optional
    inclusive integer bounds.  The meaning of a requirement is the set of label
    values it allows ([Has]); the theorems relate every operation to it.

    A Go pointer-to-int is an [option Z]; [nil] is [None].  The label
    normalisation tables of [pkg/apis/v1/labels.go] are variables a cloud
    provider may extend, so they are an argument ([LabelTables]). *)

From S2P Require Import Prelude Strconv.

(** ** Operators and label tables *)

(** [corev1.NodeSelectorOperator] is a string type; the two extra operators
    [Gte] and [Lte] are Karpenter's own. *)
Inductive NodeSelectorOperator :=
| OpIn | OpNotIn | OpExists | OpDoesNotExist
| OpGt | OpLt | OpGte | OpLte
| OpOther (name : string).

#[export] Instance NodeSelectorOperator_eq_dec : EqDecision NodeSelectorOperator.
Proof. solve_decision. Defined.

Class LabelTables := {
  NormalizedLabels : gmap string string;
  NormalizedLabelValues : gmap string (gmap string string);
}.

Record Requirement := mkRequirement {
  Key : string;
  complement : bool;
  values : gset string;
  gte : option Z;
  lte : option Z;
  MinValues : option Z;
}.

#[export] Instance Requirement_eq_dec : EqDecision Requirement.
Proof. solve_decision. Defined.

(** [v1.NodeSelectorRequirementWithMinValues]. *)
Record NodeSelectorRequirementWithMinValues := mkNSR {
  nsr_key : string;
  nsr_operator : NodeSelectorOperator;
  nsr_values : list string;
  nsr_minValues : option Z;
}.

(** ** Helpers *)

Definition minIntPtr (a b : option Z) : option Z :=
  match a, b with
  | None, _ => b
  | _, None => a
  | Some x, Some y => if x <? y then a else b
  end.

Definition maxIntPtr (a b : option Z) : option Z :=
  match a, b with
  | None, _ => b
  | _, None => a
  | Some x, Some y => if y <? x then a else b
  end.

Definition withinBounds (valueAsString : string) (gte lte : option Z) : bool :=
  match gte, lte with
  | None, None => true
  | _, _ =>
      match atoi valueAsString with
      | None => false
      | Some val =>
          negb (match gte with Some g => val <? g | None => false end) &&
          negb (match lte with Some l => l <? val | None => false end)
      end
  end.

(** The test [gte != nil && lte != nil && *gte > *lte]. *)
Definition boundsCross (gte lte : option Z) : bool :=
  match gte, lte with Some g, Some l => l <? g | _, _ => false end.

(** ** Construction *)

Section construction.
Context {LT : LabelTables}.

Definition normalizeKey (key : string) : string :=
  default key (NormalizedLabels !! key).

(** The loop [for i, val := range values { values[i] = mapped }].  The Go code
    writes the mapped values into the caller's slice; [normalizeValues key vals]
    is that slice afterwards. *)
Definition normalizeValues (key : string) (vals : list string) : list string :=
  match NormalizedLabelValues !! key with
  | Some valueMap => (λ v, default v (valueMap !! v)) <$> vals
  | None => vals
  end.

(** [values[0]] of a slice the caller has validated; the empty slice makes
    the Go code panic, which [NewRequirementWithFlexibility_panics] records. *)
Definition value0 (vals : list string) : string := default ""%string (head vals).

Definition NewRequirementWithFlexibility_panics
    (operator : NodeSelectorOperator) (vals : list string) : bool :=
  match operator, vals with
  | (OpGt | OpLt | OpGte | OpLte), [] => true
  | _, _ => false
  end.

Definition NewRequirementWithFlexibility
    (key0 : string) (operator : NodeSelectorOperator) (minValues : option Z)
    (vals0 : list string) : Requirement :=
  let key := normalizeKey key0 in
  let vals := normalizeValues key vals0 in
  match operator with
  | OpIn => mkRequirement key false (list_to_set vals) None None minValues
  | OpDoesNotExist => mkRequirement key false ∅ None None minValues
  | OpNotIn => mkRequirement key true (list_to_set vals) None None minValues
  | OpGt =>
      let value := fst (Atoi (value0 vals)) in
      if value =? MaxInt64 then
        (* NewRequirement(key, DoesNotExist): the key is normalised again *)
        mkRequirement (normalizeKey key) false ∅ None None None
      else mkRequirement key true ∅ (Some (wrap64 (value + 1))) None minValues
  | OpLt =>
      let value := fst (Atoi (value0 vals)) in
      mkRequirement key true ∅ None (Some (wrap64 (value - 1))) minValues
  | OpGte => mkRequirement key true ∅ (Some (fst (Atoi (value0 vals)))) None minValues
  | OpLte => mkRequirement key true ∅ None (Some (fst (Atoi (value0 vals)))) minValues
  | OpExists | OpOther _ => mkRequirement key true ∅ None None minValues
  end.

Definition NewRequirement (key : string) (operator : NodeSelectorOperator)
    (vals : list string) : Requirement :=
  NewRequirementWithFlexibility key operator None vals.
End construction.

(** ** Queries *)

Definition Len (r : Requirement) : Z :=
  if complement r then MaxInt64 - Z.of_nat (size (values r))
  else Z.of_nat (size (values r)).

Definition Operator (r : Requirement) : NodeSelectorOperator :=
  if complement r then
    if Len r <? MaxInt64 then OpNotIn else OpExists
  else if 0 <? Len r then OpIn else OpDoesNotExist.

Definition Has (r : Requirement) (value : string) : bool :=
  if complement r then
    negb (bool_decide (value ∈ values r)) && withinBounds value (gte r) (lte r)
  else bool_decide (value ∈ values r) && withinBounds value (gte r) (lte r).

Definition Values (r : Requirement) : list string := elements (values r).

Definition Insert (r : Requirement) (items : list string) : Requirement :=
  mkRequirement (Key r) (complement r) (values r ∪ list_to_set items)
    (gte r) (lte r) (MinValues r).

(** ** Intersection *)

Section intersection.
Context {LT : LabelTables}.

(** The four-way choice of the value set. *)
Definition intersectValues (r q : Requirement) : gset string :=
  match complement r, complement q with
  | true, true => values r ∪ values q
  | true, false => values q ∖ values r
  | false, true => values r ∖ values q
  | false, false => values r ∩ values q
  end.

Definition Intersection (r requirement : Requirement) : Requirement :=
  let compl := complement r && complement requirement in
  let g := maxIntPtr (gte r) (gte requirement) in
  let l := minIntPtr (lte r) (lte requirement) in
  let minValues := maxIntPtr (MinValues r) (MinValues requirement) in
  if boundsCross g l then
    NewRequirementWithFlexibility (Key r) OpDoesNotExist minValues []
  else
    let vals := filter (λ v, withinBounds v g l = true) (intersectValues r requirement) in
    mkRequirement (Key r) compl vals
      (if compl then g else None) (if compl then l else None) minValues.
End intersection.

Definition HasIntersection (r requirement : Requirement) : bool :=
  let g := maxIntPtr (gte r) (gte requirement) in
  let l := minIntPtr (lte r) (lte requirement) in
  if boundsCross g l then false
  else match complement r, complement requirement with
  | true, true => true
  | true, false =>
      set_existsb (λ v, negb (bool_decide (v ∈ values r)) && withinBounds v g l)
        (values requirement)
  | false, true =>
      set_existsb (λ v, negb (bool_decide (v ∈ values requirement)) && withinBounds v g l)
        (values r)
  | false, false =>
      set_existsb (λ v, bool_decide (v ∈ values requirement) && withinBounds v g l)
        (values r)
  end.

(** ** Containment *)

Definition boundsAreContained (inner outer : Requirement) : bool :=
  negb (match gte outer with
        | None => false
        | Some og => match gte inner with None => true | Some ig => ig <? og end
        end) &&
  negb (match lte outer with
        | None => false
        | Some ol => match lte inner with None => true | Some il => ol <? il end
        end).

Definition SubsetOf (r requirement : Requirement) : bool :=
  if bool_decide (Operator r = OpDoesNotExist)
  then bool_decide (Operator requirement = OpDoesNotExist)
  else if negb (complement r) then set_forallb (Has requirement) (values r)
  else if negb (complement requirement) then false
  else if negb (boundsAreContained r requirement) then false
  else set_forallb (λ v, negb (Has r v)) (values requirement).

(** ** Serialisation to node-selector requirements *)

(** [sets.List]: the elements in increasing (bytewise) order. *)
Definition sets_List (s : gset string) : list string := merge_sort String.le (elements s).

Definition BoundedNodeSelectorRequirements (r : Requirement) : list NodeSelectorRequirementWithMinValues :=
  [ mkNSR (Key r) OpGte [FormatInt (default 0 (gte r))] (MinValues r);
    mkNSR (Key r) OpLte [FormatInt (default 0 (lte r))] (MinValues r) ].

Definition NodeSelectorRequirement (r : Requirement) : NodeSelectorRequirementWithMinValues :=
  match gte r, lte r with
  | Some g, _ => mkNSR (Key r) OpGte [FormatInt g] (MinValues r)
  | None, Some l => mkNSR (Key r) OpLte [FormatInt l] (MinValues r)
  | None, None =>
      if complement r then
        if bool_decide (values r = ∅) then mkNSR (Key r) OpExists [] (MinValues r)
        else mkNSR (Key r) OpNotIn (sets_List (values r)) (MinValues r)
      else
        if bool_decide (values r = ∅) then mkNSR (Key r) OpDoesNotExist [] (MinValues r)
        else mkNSR (Key r) OpIn (sets_List (values r)) (MinValues r)
  end.

(** ** Picking a value *)

(** [Any] draws from [rand.Intn(max-min)], which panics on a non-positive
    argument; [None] is that panic.  [rand] stands for the random source. *)
Definition Any (rand : Z → Z) (r : Requirement) : option string :=
  match Operator r with
  | OpIn => Some (default ""%string (head (Values r)))
  | OpNotIn | OpExists =>
      let min := default 0 (gte r) in
      let max := match lte r with Some l => wrap64 (l + 1) | None => MaxInt64 end in
      let n := wrap64 (max - min) in
      if n <=? 0 then None else Some (FormatInt (wrap64 (rand n + min)))
  | _ => Some ""%string
  end.

(** * Theory *)

(** ** Bounds *)

Definition above (g : option Z) (x : Z) : Prop := ∀ a, g = Some a → a <= x.
Definition below (l : option Z) (x : Z) : Prop := ∀ b, l = Some b → x <= b.

Lemma above_Some a x : above (Some a) x ↔ a <= x.
Proof. unfold above. naive_solver. Qed.
Lemma above_None x : above None x ↔ True.
Proof. unfold above. naive_solver. Qed.
Lemma below_Some b x : below (Some b) x ↔ x <= b.
Proof. unfold below. naive_solver. Qed.
Lemma below_None x : below None x ↔ True.
Proof. unfold below. naive_solver. Qed.
#[export] Hint Rewrite above_Some above_None below_Some below_None : go.

Lemma withinBounds_spec v g l :
  withinBounds v g l = true ↔
  (g = None ∧ l = None) ∨ ∃ x, atoi v = Some x ∧ above g x ∧ below l x.
Proof.
  unfold withinBounds, above, below.
  destruct g as [g|], l as [l|], (atoi v) as [x|]; simpl;
    rewrite ?andb_true_iff, ?negb_true_iff, ?Z.ltb_ge; naive_solver lia.
Qed.

Lemma above_max a b x : above (maxIntPtr a b) x ↔ above a x ∧ above b x.
Proof.
  destruct a as [a|], b as [b|]; simpl; try destruct (b <? a) eqn:?;
    autorewrite with go; destruct_bools; lia.
Qed.

Lemma below_min a b x : below (minIntPtr a b) x ↔ below a x ∧ below b x.
Proof.
  destruct a as [a|], b as [b|]; simpl; try destruct (a <? b) eqn:?;
    autorewrite with go; destruct_bools; lia.
Qed.

Lemma maxIntPtr_None a b : maxIntPtr a b = None ↔ a = None ∧ b = None.
Proof. destruct a, b; simpl; try case_goal; naive_solver. Qed.

Lemma minIntPtr_None a b : minIntPtr a b = None ↔ a = None ∧ b = None.
Proof. destruct a, b; simpl; try case_goal; naive_solver. Qed.

Lemma withinBounds_combine v g1 g2 l1 l2 :
  withinBounds v (maxIntPtr g1 g2) (minIntPtr l1 l2) =
  withinBounds v g1 l1 && withinBounds v g2 l2.
Proof.
  apply bool_eq_iff. rewrite andb_true_iff, !withinBounds_spec.
  setoid_rewrite above_max. setoid_rewrite below_min.
  rewrite maxIntPtr_None, minIntPtr_None. unfold above, below. naive_solver.
Qed.

Lemma boundsCross_false g l :
  boundsCross g l = false ↔ ∀ a b, g = Some a → l = Some b → a <= b.
Proof.
  destruct g as [g|], l as [l|]; simpl; rewrite ?Z.ltb_ge; naive_solver lia.
Qed.

Lemma boundsCross_empty v g l : boundsCross g l = true → withinBounds v g l = false.
Proof.
  destruct g as [g|], l as [l|]; simpl; try done. intros ?; destruct_bools.
  unfold withinBounds. destruct (atoi v) as [x|]; [|done].
  destruct (x <? g) eqn:?; simpl; [done|]. destruct_bools.
  apply negb_false_iff, Z.ltb_lt. lia.
Qed.

(** ** Well-formedness *)

(** Bounds are machine integers, do not cross, and only a complement carries
    them.  Every constructor establishes this and every operation keeps it. *)
Record wf (r : Requirement) : Prop := {
  wf_gte : ∀ a, gte r = Some a → in_int64 a;
  wf_lte : ∀ b, lte r = Some b → in_int64 b;
  wf_cross : boundsCross (gte r) (lte r) = false;
  wf_concrete : complement r = false → gte r = None ∧ lte r = None;
}.
#[export] Hint Resolve wf_gte wf_lte wf_cross wf_concrete : go.

Lemma maxIntPtr_cases a b : maxIntPtr a b = a ∨ maxIntPtr a b = b.
Proof. destruct a, b; simpl; try case_goal; auto. Qed.

Lemma minIntPtr_cases a b : minIntPtr a b = a ∨ minIntPtr a b = b.
Proof. destruct a, b; simpl; try case_goal; auto. Qed.

(** ** Membership *)

Lemma Has_spec r v :
  Has r v = true ↔
  (if complement r then v ∉ values r else v ∈ values r) ∧
  withinBounds v (gte r) (lte r) = true.
Proof.
  unfold Has. destruct (complement r);
    rewrite andb_true_iff, ?negb_true_iff, ?bool_decide_eq_true, ?bool_decide_eq_false;
    done.
Qed.

(** Two requirements are equivalent when they allow the same values. *)
#[export] Instance Requirement_equiv : Equiv Requirement := λ r q, ∀ v, Has r v = Has q v.

#[export] Instance Requirement_equivalence : Equivalence (≡@{Requirement}).
Proof.
  split; [by intros r v|by intros r q H v|intros r q s H1 H2 v; by rewrite H1].
Qed.

#[export] Instance Has_proper : Proper ((≡) ==> (=) ==> (=)) Has.
Proof. intros r q H v _ <-. apply H. Qed.

(** ** Intersection denotes intersection *)

Section intersection_theory.
Context {LT : LabelTables}.
Implicit Types r q : Requirement.

Lemma intersectValues_spec r q v :
  (if complement r && complement q then v ∉ intersectValues r q
   else v ∈ intersectValues r q) ↔
  (if complement r then v ∉ values r else v ∈ values r) ∧
  (if complement q then v ∉ values q else v ∈ values q).
Proof. unfold intersectValues. destruct (complement r), (complement q); set_solver. Qed.

Lemma Has_Intersection r q v : Has (Intersection r q) v = Has r v && Has q v.
Proof.
  apply bool_eq_iff. rewrite andb_true_iff, !Has_spec. unfold Intersection.
  set (g := maxIntPtr _ _). set (l := minIntPtr _ _).
  assert (withinBounds v g l = true ↔
    withinBounds v (gte r) (lte r) = true ∧ withinBounds v (gte q) (lte q) = true) as Hw.
  { unfold g, l. by rewrite withinBounds_combine, andb_true_iff. }
  destruct (boundsCross g l) eqn:Hc; simpl.
  { apply (boundsCross_empty v) in Hc. rewrite Hc in Hw. set_solver. }
  pose proof (intersectValues_spec r q v) as Hv.
  destruct (complement r && complement q); rewrite elem_of_filter.
  - rewrite Hw. tauto.
  - rewrite Hw. unfold withinBounds at 1. tauto.
Qed.

#[export] Instance Intersection_proper : Proper ((≡) ==> (≡) ==> (≡)) Intersection.
Proof. intros r r' Hr q q' Hq v. by rewrite !Has_Intersection, Hr, Hq. Qed.

(** [Intersection] is a meet: commutative, associative and idempotent up to
    the values allowed, although the two arguments play different roles in
    the code. *)
Lemma Intersection_comm r q : Intersection r q ≡ Intersection q r.
Proof. intros v. by rewrite !Has_Intersection, andb_comm. Qed.

Lemma Intersection_assoc r q s :
  Intersection r (Intersection q s) ≡ Intersection (Intersection r q) s.
Proof. intros v. by rewrite !Has_Intersection, andb_assoc. Qed.

Lemma Intersection_idemp r : Intersection r r ≡ r.
Proof. intros v. by rewrite Has_Intersection, andb_diag. Qed.

Lemma Intersection_wf r q : wf r → wf q → wf (Intersection r q).
Proof.
  intros Hr Hq. unfold Intersection.
  set (g := maxIntPtr _ _). set (l := minIntPtr _ _).
  destruct (boundsCross g l) eqn:Hc; [by split|].
  assert (∀ a, g = Some a → in_int64 a).
  { intros a. unfold g. destruct (maxIntPtr_cases (gte r) (gte q)) as [-> | ->]; eauto with go. }
  assert (∀ b, l = Some b → in_int64 b).
  { intros b. unfold l. destruct (minIntPtr_cases (lte r) (lte q)) as [-> | ->]; eauto with go. }
  split; simpl; destruct (complement r && complement q); naive_solver.
Qed.
End intersection_theory.
#[export] Hint Resolve Intersection_wf : go.

(** ** [HasIntersection] decides whether a common value exists *)

(** A pair of machine-integer bounds that do not cross admits a value outside
    any finite set of strings. *)
Lemma bounds_inhabited (s : gset string) g l :
  (∀ a, g = Some a → in_int64 a) → (∀ b, l = Some b → in_int64 b) →
  boundsCross g l = false → ∃ v, (v ∉ s) ∧ withinBounds v g l = true.
Proof.
  intros Hg Hl Hc. rewrite boundsCross_false in Hc.
  assert (∃ x, in_int64 x ∧ above g x ∧ below l x) as (x & Hx & Ha & Hb).
  { destruct g as [a|], l as [b|].
    - exists a. autorewrite with go. naive_solver lia.
    - exists a. autorewrite with go. naive_solver lia.
    - exists b. autorewrite with go. naive_solver lia.
    - exists 0. autorewrite with go. split_and!; [int_lia|done|done]. }
  destruct (fresh_spelling s x Hx) as (w & Hw & Hat). exists w. split; [done|].
  apply withinBounds_spec. right. eauto.
Qed.

Lemma HasIntersection_sound r q :
  HasIntersection r q = true → (complement r && complement q = false) →
  ∃ v, Has r v = true ∧ Has q v = true.
Proof.
  unfold HasIntersection. set (g := maxIntPtr _ _). set (l := minIntPtr _ _).
  destruct (boundsCross g l); [done|]. intros Hi Hc.
  assert (∃ v, withinBounds v g l = true ∧
    (if complement r then v ∉ values r else v ∈ values r) ∧
    (if complement q then v ∉ values q else v ∈ values q)) as (v & Hw & Hr & Hq).
  { destruct (complement r), (complement q); try done;
      apply set_existsb_true in Hi as (v & Hv & Hi); destruct_bools; eauto. }
  exists v. unfold g, l in Hw. rewrite withinBounds_combine, andb_true_iff in Hw.
  rewrite !Has_spec. tauto.
Qed.

Lemma HasIntersection_complete r q v :
  Has r v = true → Has q v = true → HasIntersection r q = true.
Proof.
  rewrite !Has_spec. intros [Hr Hwr] [Hq Hwq]. unfold HasIntersection.
  set (g := maxIntPtr _ _). set (l := minIntPtr _ _).
  assert (withinBounds v g l = true) as Hw.
  { unfold g, l. by rewrite withinBounds_combine, Hwr, Hwq. }
  destruct (boundsCross g l) eqn:Hc.
  { apply (boundsCross_empty v) in Hc. congruence. }
  destruct (complement r), (complement q); [done|..];
    apply set_existsb_true; exists v; rewrite Hw; split; auto;
    rewrite ?bool_decide_eq_true_2, ?bool_decide_eq_false_2 by done; done.
Qed.

Lemma HasIntersection_iff r q :
  wf r → wf q →
  HasIntersection r q = true ↔ ∃ v, Has r v = true ∧ Has q v = true.
Proof.
  intros Hr Hq. split.
  2: { intros (v & ? & ?). by eapply HasIntersection_complete. }
  intros Hi. destruct (complement r && complement q) eqn:Hc;
    [|by apply HasIntersection_sound].
  unfold HasIntersection in Hi. revert Hi.
  set (g := maxIntPtr _ _). set (l := minIntPtr _ _).
  destruct (boundsCross g l) eqn:Hx; [done|]. intros _. destruct_bools.
  destruct (bounds_inhabited (values r ∪ values q) g l) as (v & Hv & Hw); [| |done|].
  - intros a. unfold g. destruct (maxIntPtr_cases (gte r) (gte q)) as [-> | ->]; eauto with go.
  - intros b. unfold l. destruct (minIntPtr_cases (lte r) (lte q)) as [-> | ->]; eauto with go.
  - exists v. unfold g, l in Hw. rewrite withinBounds_combine, andb_true_iff in Hw.
    rewrite !Has_spec. replace (complement r) with true. replace (complement q) with true.
    set_solver.
Qed.

(** C37. [HasIntersection] is exact: it returns true precisely when some label
    value satisfies both requirements, and precisely when the requirement built
    by [Intersection] allows some value.  In the both-complement case the code
    answers [true] without looking at the excluded values; this is right
    because an integer has unboundedly many spellings, so finitely many
    exclusions never empty a range. *)
Theorem HasIntersection_exact {LT : LabelTables} r q :
  wf r → wf q →
  (HasIntersection r q = true ↔ ∃ v, Has r v = true ∧ Has q v = true) ∧
  (HasIntersection r q = true ↔ ∃ v, Has (Intersection r q) v = true).
Proof.
  intros Hr Hq. pose proof (HasIntersection_iff r q Hr Hq) as Hi. split; [done|].
  setoid_rewrite Has_Intersection. setoid_rewrite andb_true_iff. done.
Qed.

(** ** Labels: a value or absence *)

(** What [Requirements.Compatible] and [Requirements.Intersects] take a
    requirement to say of a node's label: a present label must be allowed, and
    an absent one is accepted by the operators [NotIn] and [DoesNotExist]. *)
Definition satisfies (r : Requirement) (label : option string) : bool :=
  match label with
  | Some v => Has r v
  | None => match Operator r with OpNotIn | OpDoesNotExist => true | _ => false end
  end.

Lemma Operator_spec r :
  Operator r =
  if complement r then if bool_decide (values r = ∅) then OpExists else OpNotIn
  else if bool_decide (values r = ∅) then OpDoesNotExist else OpIn.
Proof.
  unfold Operator, Len. pose proof (size_empty_iff (values r)) as He.
  rewrite leibniz_equiv_iff in He.
  destruct (complement r), (bool_decide_reflect (values r = ∅)) as [Hv|Hv].
  - rewrite (proj2 He Hv). by destruct (_ <? _) eqn:?; destruct_bools; [int_lia|].
  - destruct (_ <? _) eqn:?; destruct_bools; [done|]. contradict Hv. apply He. int_lia.
  - by rewrite (proj2 He Hv).
  - destruct (0 <? _) eqn:?; destruct_bools; [done|]. contradict Hv. apply He. lia.
Qed.

(** Every well-formed requirement can be met by some label. *)
Lemma satisfiable r : wf r → ∃ label, satisfies r label = true.
Proof.
  intros Hr. destruct (complement r) eqn:Hc.
  - destruct (bounds_inhabited (values r) (gte r) (lte r)) as (v & Hv & Hw); eauto with go.
    exists (Some v). simpl. apply Has_spec. by rewrite Hc.
  - destruct (wf_concrete r Hr Hc) as [Hg Hl].
    destruct (decide (values r = ∅)) as [He|(v & Hv)%set_choose_L].
    + exists None. simpl. rewrite Operator_spec, Hc, bool_decide_eq_true_2; done.
    + exists (Some v). simpl. apply Has_spec. rewrite Hc, Hg, Hl. done.
Qed.

(** ** Construction implements the Kubernetes selector semantics *)

(** The documented meaning of a node-selector term for a label that may be
    absent: [NotIn] and [DoesNotExist] accept absence, the others need the label. *)
Definition selects (op : NodeSelectorOperator) (vals : list string)
    (label : option string) : Prop :=
  match op, label with
  | OpIn, Some v => v ∈ vals
  | OpNotIn, Some v => v ∉ vals
  | (OpExists | OpOther _), Some _ => True
  | OpGt, Some v => ∃ x n, atoi v = Some x ∧ atoi (value0 vals) = Some n ∧ n < x
  | OpLt, Some v => ∃ x n, atoi v = Some x ∧ atoi (value0 vals) = Some n ∧ x < n
  | OpGte, Some v => ∃ x n, atoi v = Some x ∧ atoi (value0 vals) = Some n ∧ n <= x
  | OpLte, Some v => ∃ x n, atoi v = Some x ∧ atoi (value0 vals) = Some n ∧ x <= n
  | (OpNotIn | OpDoesNotExist), None => True
  | _, _ => False
  end.

(** Terms the API validation admits, less the two integer extremes treated
    below: set operators have values and the comparisons an integer operand. *)
Definition valid_term (op : NodeSelectorOperator) (vals : list string) : Prop :=
  match op with
  | OpIn | OpNotIn => vals ≠ []
  | OpGt => ∃ n, atoi (value0 vals) = Some n ∧ n ≠ MaxInt64
  | OpLt => ∃ n, atoi (value0 vals) = Some n ∧ n ≠ MinInt64
  | OpGte | OpLte => ∃ n, atoi (value0 vals) = Some n
  | _ => True
  end.

Section construction_theory.
Context {LT : LabelTables}.

Lemma NewRequirementWithFlexibility_wf key op mv vals :
  wf (NewRequirementWithFlexibility key op mv vals).
Proof.
  set (v := value0 (normalizeValues (normalizeKey key) vals)).
  assert (in_int64 (fst (Atoi v))).
  { destruct (Atoi v) as [x e] eqn:Ha. eauto with go. }
  destruct op; simpl; try case_goal; split; simpl; try naive_solver;
    intros ? [= <-]; first [done | apply wrap64_in].
Qed.

Lemma Has_bounded key v g l mv :
  Has (mkRequirement key true ∅ g l mv) v = withinBounds v g l.
Proof. unfold Has. simpl. rewrite bool_decide_eq_false_2 by set_solver. done. Qed.

Lemma atoi_Atoi s n : atoi s = Some n → Atoi s = (n, None) ∧ in_int64 n.
Proof.
  intros Ha. split; [|eauto with go]. revert Ha. unfold atoi.
  destruct (Atoi s) as [? []]; naive_solver.
Qed.

Lemma list_to_set_nonempty (vals : list string) :
  vals ≠ [] → (list_to_set vals : gset string) ≠ ∅.
Proof. destruct vals; [done|]. set_solver. Qed.

Lemma construction_refines key op mv vals label :
  valid_term op (normalizeValues (normalizeKey key) vals) →
  satisfies (NewRequirementWithFlexibility key op mv vals) label = true ↔
  selects op (normalizeValues (normalizeKey key) vals) label.
Proof.
  set (vs := normalizeValues _ _). intros Hv.
  destruct label as [v|]; unfold satisfies.
  - destruct op; simpl in *; fold vs;
      try (destruct Hv as (n & Hn & Hne) || destruct Hv as (n & Hn));
      try (destruct (atoi_Atoi _ _ Hn) as [Hat Hin]; rewrite Hat, ?Hn; simpl);
      rewrite ?(proj2 (Z.eqb_neq _ _)) by done;
      rewrite ?wrap64_id by int_lia;
      rewrite ?Has_bounded, ?withinBounds_spec; autorewrite with go;
      try (rewrite Has_spec; simpl; set_solver).
    all: setoid_rewrite above_Some || setoid_rewrite above_None || idtac.
    all: setoid_rewrite below_Some || setoid_rewrite below_None || idtac.
    all: naive_solver lia.
  - rewrite Operator_spec. destruct op; simpl in *; fold vs;
      try (destruct Hv as (n & Hn & Hne) || destruct Hv as (n & Hn));
      try (destruct (atoi_Atoi _ _ Hn) as [Hat _]; rewrite Hat; simpl);
      rewrite ?(proj2 (Z.eqb_neq _ _)) by done; simpl;
      rewrite ?bool_decide_eq_true_2 by done;
      rewrite ?bool_decide_eq_false_2 by (by apply list_to_set_nonempty); naive_solver.
Qed.
End construction_theory.

(** [NewRequirementWithFlexibility] implements the documented meaning of
    each node-selector operator: for every validated term, the requirement it
    builds is satisfied by a label (a value, or absence) exactly when the term
    selects that label.  [Gt]/[Lt] are stored as inclusive bounds and no
    64-bit wrap-around is observable. *)
Theorem NewRequirementWithFlexibility_refines {LT : LabelTables} key op mv vals label :
  valid_term op (normalizeValues (normalizeKey key) vals) →
  wf (NewRequirementWithFlexibility key op mv vals) ∧
  (satisfies (NewRequirementWithFlexibility key op mv vals) label = true ↔
   selects op (normalizeValues (normalizeKey key) vals) label).
Proof.
  split; [apply NewRequirementWithFlexibility_wf | by apply construction_refines].
Qed.

#[local] Instance no_tables : LabelTables :=
  {| NormalizedLabels := ∅; NormalizedLabelValues := ∅ |}.

Lemma NewRequirementWithFlexibility_refines_witness :
  satisfies (NewRequirementWithFlexibility "cores" OpGt None ["4"%string]) (Some "16"%string) = true ∧
  satisfies (NewRequirementWithFlexibility "cores" OpGt None ["4"%string]) None ≠ true.
Proof.
  assert (valid_term OpGt (normalizeValues (normalizeKey "cores") ["4"%string])) as Hv.
  { exists 4. split; [reflexivity|discriminate]. }
  split.
  - apply (NewRequirementWithFlexibility_refines "cores" OpGt None ["4"%string] _ Hv).
    exists 16, 4. split_and!; [reflexivity..|lia].
  - intros H. by apply (NewRequirementWithFlexibility_refines "cores" OpGt None ["4"%string] _ Hv) in H.
Defined.

Lemma HasIntersection_exact_witness :
  HasIntersection (NewRequirement "cores" OpGt ["4"%string])
    (NewRequirement "cores" OpNotIn ["5"%string]) = true ∧
  ∃ v, Has (NewRequirement "cores" OpGt ["4"%string]) v = true ∧
       Has (NewRequirement "cores" OpNotIn ["5"%string]) v = true.
Proof.
  assert (HasIntersection (NewRequirement "cores" OpGt ["4"%string])
    (NewRequirement "cores" OpNotIn ["5"%string]) = true) as Hi by reflexivity.
  split; [exact Hi|].
  apply (HasIntersection_exact _ _ (NewRequirementWithFlexibility_wf _ _ _ _)
    (NewRequirementWithFlexibility_wf _ _ _ _)). exact Hi.
Defined.

Lemma NewRequirement_Lt {LT : LabelTables} key vals n e :
  NormalizedLabelValues !! normalizeKey key = None → Atoi (value0 vals) = (n, e) →
  NewRequirement key OpLt vals =
    mkRequirement (normalizeKey key) true ∅ None (Some (wrap64 (n - 1))) None.
Proof.
  intros Hn Ha. unfold NewRequirement, NewRequirementWithFlexibility, normalizeValues.
  rewrite Hn, Ha. reflexivity.
Qed.

(** The two integer extremes fall outside the selector semantics, whatever
    the label tables do to other keys.  [Lt MinInt64] decrements past the range
    and becomes "every integer label" instead of "no label"; [Gt MaxInt64]
    becomes [DoesNotExist], which an unlabelled node satisfies although no
    label value is greater than [MaxInt64]. *)
Theorem NewRequirement_extremes {LT : LabelTables} key :
  NormalizedLabelValues !! normalizeKey key = None →
  (∀ v x, atoi v = Some x →
     Has (NewRequirement key OpLt ["-9223372036854775808"%string]) v = true) ∧
  (∀ v, ¬ selects OpLt ["-9223372036854775808"%string] (Some v)) ∧
  satisfies (NewRequirement key OpGt ["9223372036854775807"%string]) None = true ∧
  ¬ selects OpGt ["9223372036854775807"%string] None.
Proof.
  intros Hn. split_and!.
  - intros v x Hx. rewrite (NewRequirement_Lt key _ MinInt64 None Hn)
      by (vm_compute; reflexivity).
    rewrite Has_bounded. apply withinBounds_spec. right. exists x. split; [done|].
    apply atoi_range in Hx. autorewrite with go. split; [done|].
    change (wrap64 (MinInt64 - 1)) with MaxInt64. int_lia.
  - intros v (x & n & Hx & Hm & Hlt). apply atoi_range in Hx.
    assert (atoi (value0 ["-9223372036854775808"%string]) = Some MinInt64) as Hmin
      by (vm_compute; reflexivity).
    rewrite Hmin in Hm. injection Hm as <-. int_lia.
  - unfold NewRequirement, NewRequirementWithFlexibility, normalizeValues.
    rewrite Hn. vm_compute. reflexivity.
  - by intros [].
Qed.

Lemma NewRequirement_extremes_witness :
  Has (NewRequirement "cores" OpLt ["-9223372036854775808"%string]) "7" = true.
Proof. apply (NewRequirement_extremes (LT := no_tables) "cores" eq_refl) with 7. reflexivity. Defined.

(** ** Containment *)

Lemma boundsAreContained_spec inner outer :
  boundsAreContained inner outer = true ↔
  (∀ og, gte outer = Some og → ∃ ig, gte inner = Some ig ∧ og <= ig) ∧
  (∀ ol, lte outer = Some ol → ∃ il, lte inner = Some il ∧ il <= ol).
Proof.
  unfold boundsAreContained. rewrite andb_true_iff, !negb_true_iff.
  destruct (gte outer), (gte inner), (lte outer), (lte inner); simpl;
    rewrite ?Z.ltb_ge; naive_solver.
Qed.

Lemma contained_within inner outer v :
  boundsAreContained inner outer = true →
  withinBounds v (gte inner) (lte inner) = true →
  withinBounds v (gte outer) (lte outer) = true.
Proof.
  rewrite boundsAreContained_spec, !withinBounds_spec. intros [Hg Hl].
  destruct (gte outer) as [og|] eqn:Hog, (lte outer) as [ol|] eqn:Hol; [..|by left].
  - destruct (Hg _ eq_refl) as (ig & -> & ?), (Hl _ eq_refl) as (il & -> & ?).
    intros [[? ?]|(x & Hx & Ha & Hb)]; [done|]. right. exists x.
    rewrite above_Some in *. rewrite below_Some in *. split_and!; [done|lia..].
  - destruct (Hg _ eq_refl) as (ig & -> & ?).
    intros [[? ?]|(x & Hx & Ha & Hb)]; [done|]. right. exists x.
    rewrite above_Some in *. split_and!; [done|lia|done].
  - destruct (Hl _ eq_refl) as (il & -> & ?).
    intros [[? ?]|(x & Hx & Ha & Hb)]; [done|]. right. exists x.
    rewrite below_Some in *. split_and!; [done|done|lia].
Qed.

Lemma SubsetOf_sound r q :
  wf r → SubsetOf r q = true → ∀ v, Has r v = true → Has q v = true.
Proof.
  intros Hr. unfold SubsetOf.
  destruct (bool_decide_reflect (Operator r = OpDoesNotExist)) as [Ho|Ho].
  { intros _ v. rewrite Has_spec. rewrite Operator_spec in Ho.
    destruct (complement r); destruct (bool_decide_reflect (values r = ∅)); set_solver. }
  destruct (complement r) eqn:Hc; simpl.
  - destruct (complement q) eqn:Hq; simpl; [|done].
    destruct (boundsAreContained r q) eqn:Hb; simpl; [|done].
    rewrite set_forallb_true. intros Hall v Hv.
    pose proof Hv as [_ Hw]%Has_spec. apply Has_spec. rewrite Hq. split.
    + intros Hin%Hall. by rewrite Hv in Hin.
    + by eapply contained_within.
  - rewrite set_forallb_true. intros Hall v [Hv _]%Has_spec. rewrite Hc in Hv. auto.
Qed.

(** A bounded complement escapes tighter bounds, unless those sit at the edge
    of the integer range and exclude nothing. *)
Lemma escape_bounds r q :
  wf r → wf q → gte q ≠ Some MinInt64 → lte q ≠ Some MaxInt64 →
  boundsAreContained r q = false →
  ∃ x, in_int64 x ∧ above (gte r) x ∧ below (lte r) x ∧
       ¬ (above (gte q) x ∧ below (lte q) x).
Proof.
  intros Hr Hq Hmin Hmax Hb.
  pose proof (wf_gte r Hr) as Hg. pose proof (wf_lte r Hr) as Hl.
  pose proof (wf_gte q Hq) as Hg'. pose proof (wf_lte q Hq) as Hl'.
  pose proof (proj1 (boundsCross_false _ _) (wf_cross r Hr)) as Hx.
  unfold boundsAreContained in Hb.
  apply andb_false_iff in Hb as [Hb|Hb]; apply negb_false_iff in Hb.
  - destruct (gte q) as [og|]; [|done]. specialize (Hg' _ eq_refl).
    exists (match gte r, lte r with
            | Some ig, _ => ig | None, Some il => Z.min il (og - 1) | _, _ => og - 1 end).
    destruct (gte r) as [ig|], (lte r) as [il|]; destruct_bools; autorewrite with go;
      try specialize (Hg _ eq_refl); try specialize (Hl _ eq_refl);
      try specialize (Hx _ _ eq_refl eq_refl);
      assert (og ≠ MinInt64) by congruence; int_lia.
  - destruct (lte q) as [ol|]; [|done]. specialize (Hl' _ eq_refl).
    exists (match lte r, gte r with
            | Some il, _ => il | None, Some ig => Z.max ig (ol + 1) | _, _ => ol + 1 end).
    destruct (gte r) as [ig|], (lte r) as [il|]; destruct_bools; autorewrite with go;
      try specialize (Hg _ eq_refl); try specialize (Hl _ eq_refl);
      try specialize (Hx _ _ eq_refl eq_refl);
      assert (ol ≠ MaxInt64) by congruence; int_lia.
Qed.

Lemma SubsetOf_complete r q :
  wf r → wf q → Operator r ≠ OpDoesNotExist →
  gte q ≠ Some MinInt64 → lte q ≠ Some MaxInt64 →
  (∀ v, Has r v = true → Has q v = true) → SubsetOf r q = true.
Proof.
  intros Hr Hq Ho Hmin Hmax Hsub. unfold SubsetOf.
  rewrite bool_decide_eq_false_2 by done. destruct (complement r) eqn:Hc; simpl.
  - destruct (complement q) eqn:Hcq; simpl.
    + destruct (boundsAreContained r q) eqn:Hb; simpl.
      * apply set_forallb_true. intros v Hv. apply negb_true_iff, not_true_iff_false.
        intros [Hn _]%Hsub%Has_spec. by rewrite Hcq in Hn.
      * destruct (escape_bounds r q) as (x & Hx & Ha & Hb' & Hn); try done.
        destruct (fresh_spelling (values r) x Hx) as (w & Hw & Hat).
        assert (Has r w = true) as [_ Hwq]%Hsub%Has_spec.
        { apply Has_spec. rewrite Hc. split; [done|]. apply withinBounds_spec. eauto. }
        apply withinBounds_spec in Hwq as [[Hg Hl]|(y & Hy & ?)]; contradict Hn.
        -- rewrite Hg, Hl. autorewrite with go. done.
        -- naive_solver.
    + destruct (bounds_inhabited (values r ∪ values q) (gte r) (lte r)) as (v & Hv & Hw);
        eauto with go.
      assert (Has r v = true) as [Hn _]%Hsub%Has_spec; [|rewrite Hcq in Hn; set_solver].
      apply Has_spec. rewrite Hc. set_solver.
  - apply set_forallb_true. intros v Hv. apply Hsub, Has_spec. rewrite Hc.
    destruct (wf_concrete r Hr Hc) as [-> ->]. done.
Qed.

(** [SubsetOf] decides containment of the allowed values: a [true] answer
    is always right, and for a requirement that is not [DoesNotExist], against
    one whose bounds are not the two integer extremes, it answers [true]
    exactly when every value the first allows is allowed by the second. *)
Theorem SubsetOf_exact r q :
  wf r → wf q →
  (SubsetOf r q = true → ∀ v, Has r v = true → Has q v = true) ∧
  (Operator r ≠ OpDoesNotExist → gte q ≠ Some MinInt64 → lte q ≠ Some MaxInt64 →
   (SubsetOf r q = true ↔ ∀ v, Has r v = true → Has q v = true)).
Proof.
  intros Hr Hq. split; [by apply SubsetOf_sound|].
  intros. split; [by apply SubsetOf_sound | by apply SubsetOf_complete].
Qed.

Lemma SubsetOf_exact_witness :
  Has (NewRequirement "cores" OpGte ["3"%string]) "9" = true.
Proof.
  refine (proj1 (SubsetOf_exact (NewRequirement "cores" OpGt ["4"%string])
    (NewRequirement "cores" OpGte ["3"%string])
    (NewRequirementWithFlexibility_wf _ _ _ _) (NewRequirementWithFlexibility_wf _ _ _ _))
    _ "9"%string _); reflexivity.
Defined.

Lemma satisfies_NotIn_None {LT : LabelTables} key v :
  satisfies (NewRequirement key OpNotIn [v]) None = true.
Proof.
  unfold satisfies. rewrite Operator_spec. simpl.
  rewrite bool_decide_eq_false_2; [done|]. apply list_to_set_nonempty.
  unfold normalizeValues. by destruct (_ !! _).
Qed.

Lemma satisfies_Exists_None {LT : LabelTables} key :
  satisfies (NewRequirement key OpExists []) None = false.
Proof. unfold satisfies. rewrite Operator_spec. reflexivity. Qed.

(** Containment of values is not containment of nodes: [NotIn] is reported
    to be a subset of [Exists], yet a node without the label satisfies the
    former and not the latter, so the documented guarantee "any node satisfying
    r satisfies requirement" fails for absent labels. *)
Theorem SubsetOf_ignores_absence {LT : LabelTables} key v :
  SubsetOf (NewRequirement key OpNotIn [v]) (NewRequirement key OpExists []) = true ∧
  satisfies (NewRequirement key OpNotIn [v]) None = true ∧
  satisfies (NewRequirement key OpExists []) None = false.
Proof.
  split_and!; [|apply satisfies_NotIn_None|apply satisfies_Exists_None].
  apply SubsetOf_complete; [apply NewRequirementWithFlexibility_wf..|by rewrite Operator_spec; simpl; case_bool_decide|done|done|].
  intros w _. apply Has_spec. split; [apply not_elem_of_empty|done].
Qed.

(** Intersecting [Exists] with [NotIn] forgets that the label must be present:
    the result is satisfied by an unlabelled node, although [Exists] is not. *)
Lemma Intersection_forgets_presence {LT : LabelTables} key v :
  satisfies (Intersection (NewRequirement key OpNotIn [v]) (NewRequirement key OpExists [])) None
    = true.
Proof.
  unfold satisfies. rewrite Operator_spec. unfold Intersection. simpl. rewrite bool_decide_eq_false_2; [done|].
  assert (normalizeValues (normalizeKey key) [v] ≠ []) as Hn.
  { unfold normalizeValues. by destruct (_ !! _). }
  destruct (normalizeValues _ _) as [|w l]; [done|]. simpl.
  intros He. assert (w ∈ (∅ : gset string)); [rewrite <- He|set_solver].
  apply elem_of_filter. split; [done|]. unfold intersectValues. simpl. set_solver.
Qed.

(** ** [Any] *)

(** With a random source that honours its contract ([0 <= Intn n < n]) and
    non-negative bounds below [MaxInt64], which the NodePool validation
    enforces, [Any] does not panic: it returns an allowed value for [In], a
    value within the bounds for a complement, and the empty string for
    [DoesNotExist]. *)
Theorem Any_no_panic (rand : Z → Z) r :
  (∀ n, 0 < n → 0 <= rand n < n) → wf r →
  (∀ a, gte r = Some a → 0 <= a < MaxInt64) → (∀ b, lte r = Some b → 0 <= b < MaxInt64) →
  ∃ v, Any rand r = Some v ∧
    match Operator r with
    | OpIn => Has r v = true
    | OpDoesNotExist => v = ""%string
    | _ => withinBounds v (gte r) (lte r) = true
    end.
Proof.
  intros Hrand Hr Hg Hl. unfold Any.
  pose proof (proj1 (boundsCross_false _ _) (wf_cross r Hr)) as Hx.
  destruct (complement r) eqn:Hc.
  - assert (Operator r = OpExists ∨ Operator r = OpNotIn) as Ho.
    { rewrite Operator_spec, Hc. case_goal; auto. }
    set (min := default 0 (gte r)). set (max := match lte r with Some l => _ | None => _ end).
    assert (0 <= min < max ∧ max <= MaxInt64 ∧ above (gte r) min ∧ below (lte r) (max - 1))
      as (Hm & Hmx & Ha & Hb).
    { unfold min, max. destruct (gte r) as [g|], (lte r) as [l|]; simpl;
        try specialize (Hg _ eq_refl); try specialize (Hl _ eq_refl);
        try specialize (Hx _ _ eq_refl eq_refl);
        rewrite ?wrap64_id by int_lia; autorewrite with go; int_lia. }
    rewrite (wrap64_id (max - min)) by int_lia.
    destruct (max - min <=? 0) eqn:?; destruct_bools; [lia|].
    pose proof (Hrand (max - min)) as Hrn.
    rewrite (wrap64_id (rand _ + min)) by int_lia.
    exists (FormatInt (rand (max - min) + min)).
    assert (withinBounds (FormatInt (rand (max - min) + min)) (gte r) (lte r) = true).
    { apply withinBounds_spec. right. exists (rand (max - min) + min). split_and!.
      - unfold atoi. rewrite Atoi_FormatInt; [done|int_lia].
      - intros a Hga. specialize (Ha a Hga). lia.
      - intros b Hlb. specialize (Hb b Hlb). lia. }
    destruct Ho as [-> | ->]; done.
  - destruct (wf_concrete r Hr Hc) as [Hgn Hln]. rewrite Operator_spec, Hc.
    destruct (bool_decide_reflect (values r = ∅)) as [He|He]; [eauto|].
    unfold Values. destruct (elements (values r)) as [|w l] eqn:Hel.
    { apply elements_empty_inv in Hel. unfold_leibniz. done. }
    exists w. split; [done|]. apply Has_spec. rewrite Hc, Hgn, Hln. split; [|done].
    apply elem_of_elements. rewrite Hel. apply list_elem_of_here.
Qed.

Lemma Any_no_panic_witness :
  ∃ v, Any (λ _, 0) (NewRequirement "cores" OpGt ["4"%string]) = Some v ∧
    withinBounds v (gte (NewRequirement "cores" OpGt ["4"%string]))
      (lte (NewRequirement "cores" OpGt ["4"%string])) = true.
Proof.
  destruct (Any_no_panic (λ _, 0) (NewRequirement "cores" OpGt ["4"%string])) as (v & Hv & Hw).
  - lia.
  - apply NewRequirementWithFlexibility_wf.
  - intros a [= <-]. vm_compute. split; discriminate || reflexivity.
  - discriminate.
  - exists v. split; [exact Hv|exact Hw].
Defined.
