(* ===== verification/Kube.v ===== *)
(** * Kubernetes API data read by Karpenter

    The fields of the Kubernetes API objects that the modelled code reads or
    writes, under the API's names with a short prefix per type.  These are data
    declarations only; behaviour of the Kubernetes libraries is never defined
    here but enters the components as parameters. *)

From S2P Require Import Prelude Requirement.

(** [corev1.NodeSelectorRequirement] *)
Record NodeSelectorExpr := mkExpr {
  ex_Key : string;
  ex_Operator : NodeSelectorOperator;
  ex_Values : list string;
}.

Record NodeSelectorTerm := mkTerm { nt_MatchExpressions : list NodeSelectorExpr }.

Record PreferredSchedulingTerm := mkPreferred {
  pt_Weight : Z;
  pt_Preference : NodeSelectorTerm;
}.

(** [required] is the pointer [RequiredDuringSchedulingIgnoredDuringExecution]
    and its [NodeSelectorTerms]. *)
Record NodeAffinity := mkNodeAffinity {
  na_Required : option (list NodeSelectorTerm);
  na_Preferred : list PreferredSchedulingTerm;
}.

(** [metav1.LabelSelectorRequirement] *)
Record LabelSelectorRequirement := mkLabelSelectorRequirement {
  lr_Key : string;
  lr_Operator : string;
  lr_Values : list string;
}.

(** [metav1.LabelSelector]; an optional one is a pointer. *)
Record LabelSelector := mkLabelSelector {
  ls_MatchLabels : gmap string string;
  ls_MatchExpressions : list LabelSelectorRequirement;
}.

Record PodAffinityTerm := mkPodAffinityTerm {
  pa_TopologyKey : string;
  pa_LabelSelector : option LabelSelector;
  pa_Namespaces : list string;
  pa_NamespaceSelector : option LabelSelector;
}.

Record WeightedPodAffinityTerm := mkWeighted {
  wp_Weight : Z;
  wp_Term : PodAffinityTerm;
}.

Record PodAffinity := mkPodAffinity {
  paff_Required : list PodAffinityTerm;
  paff_Preferred : list WeightedPodAffinityTerm;
}.

Record Affinity := mkAffinity {
  af_NodeAffinity : option NodeAffinity;
  af_PodAffinity : option PodAffinity;
  af_PodAntiAffinity : option PodAffinity;
}.

Inductive TaintEffect := NoSchedule | PreferNoSchedule | NoExecute | EffectAny.

Record Taint := mkTaint { tn_Key : string; tn_Value : string; tn_Effect : TaintEffect }.

Inductive TolerationOperator := TolExists | TolEqual | TolDefault.

Record Toleration := mkToleration {
  tl_Key : string;
  tl_Operator : TolerationOperator;
  tl_Value : string;
  tl_Effect : TaintEffect;
}.

Inductive UnsatisfiableConstraintAction := DoNotSchedule | ScheduleAnyway.

(** [corev1.NodeInclusionPolicy]; [PolicyUnset] is the empty string. *)
Inductive NodeInclusionPolicy := PolicyUnset | PolicyIgnore | PolicyHonor.

#[export] Instance NodeInclusionPolicy_eq_dec : EqDecision NodeInclusionPolicy.
Proof. solve_decision. Defined.

Record TopologySpreadConstraint := mkTSC {
  ts_MaxSkew : Z;
  ts_TopologyKey : string;
  ts_WhenUnsatisfiable : UnsatisfiableConstraintAction;
  ts_LabelSelector : option LabelSelector;
  ts_MatchLabelKeys : list string;
  ts_MinDomains : option Z;
  ts_NodeTaintsPolicy : option NodeInclusionPolicy;
  ts_NodeAffinityPolicy : option NodeInclusionPolicy;
}.

Record ContainerPort := mkPort {
  cp_HostPort : Z;
  cp_HostIP : string;
  cp_Protocol : string;
}.

(** [types.NamespacedName] *)
Definition NamespacedName : Type := string * string.

(** [corev1.Volume]: the name of a claim, or a claim generated for the pod. *)
Record PodVolume := mkPodVolume {
  vl_Name : string;
  vl_ClaimName : option string;
  vl_Ephemeral : bool;
}.

(** [metav1.OwnerReference] *)
Record OwnerReference := mkOwner { ow_APIVersion : string; ow_Kind : string }.

(** [corev1.PodCondition] *)
Record PodCondition := mkPodCondition { pc_Type : string; pc_Reason : string; pc_Status : string }.

(** [corev1.PodResourceClaim]: the name the pod gives a claim, and the claim it
    names, if it names one directly. *)
Record PodResourceClaim := mkPodClaim { prc_Name : string; prc_ResourceClaimName : option string }.

(** [corev1.PodResourceClaimStatus] *)
Record PodResourceClaimStatus := mkPodClaimStatus { prs_Name : string; prs_ResourceClaimName : option string }.

(** Times are nanoseconds since a fixed origin; an optional time is a pointer. *)
Record Pod := mkPod {
  pod_Namespace : string;
  pod_Name : string;
  pod_UID : string;
  pod_CreationTimestamp : Z;
  pod_DeletionTimestamp : option Z;
  pod_Labels : gmap string string;
  pod_Annotations : gmap string string;
  pod_OwnerReferences : list OwnerReference;
  pod_NodeSelector : gmap string string;
  pod_Affinity : option Affinity;
  pod_Tolerations : list Toleration;
  pod_TopologySpreadConstraints : list TopologySpreadConstraint;
  pod_Containers : list (list ContainerPort);
  pod_Volumes : list PodVolume;
  pod_NodeName : string;
  pod_SchedulerName : string;
  pod_Priority : option Z;
  pod_Phase : string;
  pod_Conditions : list PodCondition;
  pod_NominatedNodeName : string;
  pod_StartTime : option Z;
  pod_ResourceClaims : list PodResourceClaim;
  pod_InitContainerClaims : list (list string);   (* [Resources.Claims] per init container *)
  pod_ContainerClaims : list (list string);
  pod_ResourceClaimStatuses : list PodResourceClaimStatus;
  pod_PriorityClassName : string;
  pod_TerminationGracePeriodSeconds : option Z;
}.

(** [client.ObjectKeyFromObject] *)
Definition ObjectKeyFromObject (p : Pod) : NamespacedName := (pod_Namespace p, pod_Name p).

#[export] Instance TaintEffect_eq_dec : EqDecision TaintEffect.
Proof. solve_decision. Defined.
#[export] Instance Taint_eq_dec : EqDecision Taint.
Proof. solve_decision. Defined.
#[export] Instance TolerationOperator_eq_dec : EqDecision TolerationOperator.
Proof. solve_decision. Defined.
#[export] Instance Toleration_eq_dec : EqDecision Toleration.
Proof. solve_decision. Defined.
#[export] Instance WhenUnsatisfiable_eq_dec : EqDecision UnsatisfiableConstraintAction.
Proof. solve_decision. Defined.
#[export] Instance NodeSelectorExpr_eq_dec : EqDecision NodeSelectorExpr.
Proof. solve_decision. Defined.

(** A pod with nothing but an identity. *)
Definition barePod (ns name uid : string) : Pod := {|
  pod_Namespace := ns; pod_Name := name; pod_UID := uid;
  pod_CreationTimestamp := 0; pod_DeletionTimestamp := None;
  pod_Labels := ∅; pod_Annotations := ∅; pod_OwnerReferences := [];
  pod_NodeSelector := ∅; pod_Affinity := None; pod_Tolerations := [];
  pod_TopologySpreadConstraints := []; pod_Containers := []; pod_Volumes := [];
  pod_NodeName := ""; pod_SchedulerName := ""; pod_Priority := None;
  pod_Phase := ""; pod_Conditions := []; pod_NominatedNodeName := ""; pod_StartTime := None;
  pod_ResourceClaims := []; pod_InitContainerClaims := []; pod_ContainerClaims := []; pod_ResourceClaimStatuses := [];
  pod_PriorityClassName := ""; pod_TerminationGracePeriodSeconds := Some 30;
|}.

(** The parts of a pod's spec that scheduling preferences live in. *)
Definition with_scheduling (p : Pod) (affinity : option Affinity) (tolerations : list Toleration)
    (spread : list TopologySpreadConstraint) : Pod := {|
  pod_Namespace := pod_Namespace p; pod_Name := pod_Name p; pod_UID := pod_UID p;
  pod_CreationTimestamp := pod_CreationTimestamp p; pod_DeletionTimestamp := pod_DeletionTimestamp p;
  pod_Labels := pod_Labels p; pod_Annotations := pod_Annotations p; pod_OwnerReferences := pod_OwnerReferences p;
  pod_NodeSelector := pod_NodeSelector p; pod_Affinity := affinity; pod_Tolerations := tolerations;
  pod_TopologySpreadConstraints := spread; pod_Containers := pod_Containers p; pod_Volumes := pod_Volumes p;
  pod_NodeName := pod_NodeName p; pod_SchedulerName := pod_SchedulerName p; pod_Priority := pod_Priority p;
  pod_Phase := pod_Phase p; pod_Conditions := pod_Conditions p;
  pod_NominatedNodeName := pod_NominatedNodeName p; pod_StartTime := pod_StartTime p;
  pod_ResourceClaims := pod_ResourceClaims p; pod_InitContainerClaims := pod_InitContainerClaims p;
  pod_ContainerClaims := pod_ContainerClaims p; pod_ResourceClaimStatuses := pod_ResourceClaimStatuses p;
  pod_PriorityClassName := pod_PriorityClassName p; pod_TerminationGracePeriodSeconds := pod_TerminationGracePeriodSeconds p;
|}.

(** The result of reading an object from the API server. *)
Inductive GetResult (A : Type) := Found (a : A) | NotFound | GetError.
Arguments Found {A}.
Arguments NotFound {A}.
Arguments GetError {A}.

(** ** Nodes and node claims, over a type of quantities *)

(** The status of a condition and when it last changed. *)
Record Condition := mkCondition { cd_Status : string; cd_Reason : string; cd_LastTransitionTime : Z }.

Record Node (Q : Type) := mkNode {
  n_Name : string;
  n_ProviderID : string;
  n_Labels : gmap string string;
  n_Annotations : gmap string string;
  n_Taints : list Taint;
  n_DeletionTimestamp : option Z;
  n_Capacity : gmap string Q;
  n_Allocatable : gmap string Q;
  n_Conditions : gmap string Condition;
}.
Arguments mkNode {Q}.
Arguments n_Name {Q}.
Arguments n_ProviderID {Q}.
Arguments n_Labels {Q}.
Arguments n_Annotations {Q}.
Arguments n_Taints {Q}.
Arguments n_DeletionTimestamp {Q}.
Arguments n_Capacity {Q}.
Arguments n_Allocatable {Q}.
Arguments n_Conditions {Q}.

Record NodeClaim (Q : Type) := mkNodeClaim {
  nc_Name : string;
  nc_ProviderID : string;
  nc_Labels : gmap string string;
  nc_Annotations : gmap string string;
  nc_Taints : list Taint;
  nc_StartupTaints : list Taint;
  nc_ExpireAfter : option Z;
  nc_CreationTimestamp : Z;
  nc_DeletionTimestamp : option Z;
  nc_Capacity : gmap string Q;
  nc_Allocatable : gmap string Q;
  nc_Conditions : gmap string Condition;
  nc_LastPodEventTime : option Z;
  nc_TerminationGracePeriod : option Z;
}.
Arguments mkNodeClaim {Q}.
Arguments nc_Name {Q}.
Arguments nc_ProviderID {Q}.
Arguments nc_Labels {Q}.
Arguments nc_Annotations {Q}.
Arguments nc_Taints {Q}.
Arguments nc_StartupTaints {Q}.
Arguments nc_ExpireAfter {Q}.
Arguments nc_CreationTimestamp {Q}.
Arguments nc_DeletionTimestamp {Q}.
Arguments nc_Capacity {Q}.
Arguments nc_Allocatable {Q}.
Arguments nc_Conditions {Q}.
Arguments nc_LastPodEventTime {Q}.
Arguments nc_TerminationGracePeriod {Q}.

(** A condition is true when it is present with status "True". *)
Definition conditionTrue (cs : gmap string Condition) (type : string) : bool :=
  match cs !! type with Some c => String.eqb (cd_Status c) "True" | None => false end.

(** ** Time

    [time.Duration] is an int64 number of nanoseconds; [Time.Sub] saturates. *)
Definition Second : Z := 1000000000.
Definition Minute : Z := 60 * Second.
Definition timeSub (a b : Z) : Z := Z.max MinInt64 (Z.min MaxInt64 (a - b)).
