(* ===== verification/Conditions.v ===== *)
(** * Status conditions

    The status package of operatorpkg, which is not part of the repository: its
    operation that sets a condition is a class, its documented effect on the
    conditions a second one.  [Ready] is derived from the conditions it depends
    on, so nothing is promised of it. *)

From S2P Require Import Prelude Kube.

Definition ConditionTypeLaunched : string := "Launched".
Definition ConditionTypeRegistered : string := "Registered".
Definition ConditionTypeInitialized : string := "Initialized".
Definition ConditionTypeDrained : string := "Drained".
Definition ConditionTypeVolumesDetached : string := "VolumesDetached".
Definition ConditionReady : string := "Ready".

Definition ConditionTrue : string := "True".
Definition ConditionFalse : string := "False".
Definition ConditionUnknown : string := "Unknown".

(** The conditions [Ready] depends on. *)
Definition readyDependents : list string := [ConditionTypeLaunched; ConditionTypeRegistered; ConditionTypeInitialized].

#[export] Instance Condition_eq_dec : EqDecision Condition.
Proof. solve_decision. Defined.

Implicit Types (conds : gmap string Condition) (now : Z).

Class ConditionLib := {
  setCondition : gmap string Condition → string → string → string → Z → gmap string Condition;    (* type, status, reason, time *)
}.

(** The time of the last change of status. *)
Definition transitionTime conds (type status : string) now : Z :=
  match conds !! type with
  | Some old => if String.eqb (cd_Status old) status then cd_LastTransitionTime old else now
  | None => now
  end.

(** When a condition [Ready] depends on is set for the first time its time is that
    of the creation of the object, so of those only the status is promised. *)
Class ConditionLaws `{ConditionLib} : Prop := {
  set_status : ∀ conds type status reason now, type ≠ ConditionReady →
    ∃ c, setCondition conds type status reason now !! type = Some c ∧ cd_Status c = status ∧ cd_Reason c = reason;
  set_time : ∀ conds type status reason now, type ∉ ConditionReady :: readyDependents →
    setCondition conds type status reason now !! type = Some (mkCondition status reason (transitionTime conds type status now));
  set_other : ∀ conds type status reason now type', type' ≠ type → type' ≠ ConditionReady →
    setCondition conds type status reason now !! type' = conds !! type';
}.

Section setters.
Context `{ConditionLib}.

Definition SetTrue conds (type : string) now : gmap string Condition := setCondition conds type ConditionTrue type now.
Definition SetTrueWithReason conds (type reason : string) now : gmap string Condition := setCondition conds type ConditionTrue reason now.
Definition SetFalse conds (type reason : string) now : gmap string Condition := setCondition conds type ConditionFalse reason now.
Definition SetUnknownWithReason conds (type reason : string) now : gmap string Condition := setCondition conds type ConditionUnknown reason now.
Definition conditionUnknown conds (type : string) : bool :=
  match conds !! type with Some c => String.eqb (cd_Status c) ConditionUnknown | None => true end.
End setters.

(** Conditions are set as documented, and [Ready] is left alone. *)
Definition plainConditions : ConditionLib := {|
  setCondition conds type status reason now := <[type := mkCondition status reason (transitionTime conds type status now)]> conds;
|}.

Lemma plainConditions_laws : @ConditionLaws plainConditions.
Proof.
  split; cbn [setCondition plainConditions].
  - intros conds type status reason now _. rewrite lookup_insert_eq. by eexists.
  - intros. by rewrite lookup_insert_eq.
  - intros. by rewrite lookup_insert_ne.
Qed.
