(* ===== verification/Taints.v ===== *)
(** * Taints

    Model of [pkg/scheduling/taints.go].  The two tests of the Kubernetes API
    package, [Taint.MatchTaint] and [Toleration.ToleratesTaint], are parameters;
    of the first the theorems use its documented meaning (taints are unique by
    key and effect, and two taints match when both are equal). *)

From S2P Require Import Prelude Kube.

Class TaintLib := {
  MatchTaint : Taint → Taint → bool;
  (** [t.ToleratesTaint(logger, &taint, true)] *)
  ToleratesTaint : Toleration → Taint → bool;
}.

Class TaintLaws `{TaintLib} := {
  MatchTaint_spec a b : MatchTaint a b = bool_decide ((tn_Key a, tn_Effect a) = (tn_Key b, tn_Effect b));
}.

Definition TaintNodeNotReady : string := "node.kubernetes.io/not-ready".
Definition TaintNodeUnreachable : string := "node.kubernetes.io/unreachable".
Definition TaintExternalCloudProvider : string := "node.cloudprovider.kubernetes.io/uninitialized".
Definition UnregisteredNoExecuteTaint : Taint := mkTaint "karpenter.sh/unregistered" "" NoExecute.
Definition DisruptedNoScheduleTaint : Taint := mkTaint "karpenter.sh/disrupted" "" NoSchedule.

Definition KnownEphemeralTaints : list Taint :=
  [mkTaint TaintNodeNotReady "" NoSchedule;
   mkTaint TaintNodeNotReady "" NoExecute;
   mkTaint TaintNodeUnreachable "" NoSchedule;
   mkTaint TaintExternalCloudProvider "true" NoSchedule;
   UnregisteredNoExecuteTaint].

Definition KnownEphemeralTaintKeyPrefixes : list string := ["readiness.k8s.io/"%string].

Section operations.
Context `{TaintLib}.

(** [None] is the nil pointer. *)
Definition IsKnownEphemeralTaint (taint : option Taint) : bool :=
  match taint with
  | None => false
  | Some taint =>
      existsb (λ known, MatchTaint known taint) KnownEphemeralTaints ||
      existsb (λ prefix, String.prefix prefix (tn_Key taint)) KnownEphemeralTaintKeyPrefixes
  end.

(** The errors, one per taint that is not tolerated; the empty list is nil. *)
Definition Tolerates (ts : list Taint) (tolerations : list Toleration) : list Taint :=
  List.filter (λ taint, negb (foldl (λ tolerates t, tolerates || ToleratesTaint t taint) false tolerations)) ts.

Definition ToleratesPod (ts : list Taint) (pod : Pod) : list Taint := Tolerates ts (pod_Tolerations pod).

Definition MergeTaints (ts with_ : list Taint) : list Taint :=
  foldl (λ res taint,
    match List.find (λ t, MatchTaint taint t) res with
    | Some _ => res
    | None => res ++ [taint]
    end) ts with_.
End operations.

(** * Theory *)

Section theory.
Context `{TaintLaws}.
Implicit Types (ts : list Taint) (t : Taint).

Lemma foldl_orb {A} (f : A → bool) l b : foldl (λ acc x, acc || f x) b l = b || existsb f l.
Proof.
  revert b. induction l as [|x l IH]; intros b; simpl; [by rewrite orb_false_r|].
  rewrite IH. by rewrite orb_assoc.
Qed.

(** All taints are tolerated exactly when no error is returned. *)
Lemma Tolerates_nil ts tols :
  Tolerates ts tols = [] ↔ ∀ t, t ∈ ts → ∃ tol, tol ∈ tols ∧ ToleratesTaint tol t = true.
Proof.
  assert (∀ t, foldl (λ tolerates tol, tolerates || ToleratesTaint tol t) false tols = true ↔
    ∃ tol, tol ∈ tols ∧ ToleratesTaint tol t = true) as Hf.
  { intros t. rewrite foldl_orb. simpl. rewrite existsb_exists. by setoid_rewrite list_elem_of_In. }
  unfold Tolerates. induction ts as [|t ts IH]; simpl.
  { split; [|done]. by intros _ t ?%not_elem_of_nil. }
  destruct (foldl _ _ _) eqn:Ht; simpl.
  - rewrite IH. apply Hf in Ht. split; [|set_solver]. intros Hall t' [->|?]%elem_of_cons; auto.
  - split; [done|]. intros Hall. exfalso. apply not_true_iff_false in Ht. apply Ht, Hf, Hall, list_elem_of_here.
Qed.

Definition taintID t : string * TaintEffect := (tn_Key t, tn_Effect t).

Lemma MergeTaints_spec ts with_ :
  ∃ added, MergeTaints ts with_ = ts ++ added ∧ sublist added with_ ∧
    (NoDup (taintID <$> ts) → NoDup (taintID <$> ts ++ added)) ∧
    (∀ t, t ∈ with_ → taintID t ∈ taintID <$> ts ++ added) ∧
    (∀ t, t ∈ added → taintID t ∉ taintID <$> ts).
Proof.
  unfold MergeTaints. revert ts. induction with_ as [|t l IH]; intros ts; simpl.
  { exists []. rewrite app_nil_r. split_and!; [done..| |]; by intros t ?%not_elem_of_nil. }
  destruct (List.find (λ x, MatchTaint t x) ts) as [x|] eqn:Hf.
  - destruct (IH ts) as (added & -> & Hsub & Hnd & Hin & Hnew). exists added.
    split_and!; [done|by constructor|done| |done].
    apply find_some in Hf as [Hx Hm]. rewrite MatchTaint_spec, bool_decide_eq_true in Hm.
    intros t' [->|?]%elem_of_cons; [|auto]. rewrite fmap_app. apply elem_of_app. left.
    apply list_elem_of_fmap. exists x. by rewrite list_elem_of_In.
  - destruct (IH (ts ++ [t])) as (added & -> & Hsub & Hnd & Hin & Hnew). exists (t :: added).
    assert (taintID t ∉ taintID <$> ts) as Hfresh.
    { intros (x & Hx & Hxin)%list_elem_of_fmap. apply list_elem_of_In in Hxin.
      pose proof (find_none _ _ Hf x Hxin) as Hm. by rewrite MatchTaint_spec, bool_decide_eq_false in Hm. }
    rewrite (cons_middle t ts added), (assoc_L (++)). split_and!.
    + done.
    + by constructor.
    + intros Hts. apply Hnd. rewrite fmap_app, NoDup_app. split_and!; [done| |apply NoDup_singleton].
      intros id Hid ->%list_elem_of_singleton. done.
    + intros t' [->|?]%elem_of_cons; [|auto]. rewrite !fmap_app, !elem_of_app. left; right; apply list_elem_of_here.
    + intros t' [->|Ht']%elem_of_cons; [done|]. specialize (Hnew t' Ht').
      rewrite fmap_app, not_elem_of_app in Hnew. tauto.
Qed.

(** Merging taints keeps the receiver's taints in front and unchanged, appends
    (in order) only taints whose key and effect the receiver does not have,
    never gives the node two taints of one key and effect when the receiver had
    none, and covers every key and effect of the argument. *)
Theorem MergeTaints_unique ts with_ (Hts : NoDup (taintID <$> ts)) :
  NoDup (taintID <$> MergeTaints ts with_) ∧
  (∀ id, id ∈ taintID <$> MergeTaints ts with_ ↔ id ∈ taintID <$> ts ∨ id ∈ taintID <$> with_) ∧
  ∃ added, MergeTaints ts with_ = ts ++ added ∧ sublist added with_ ∧
    ∀ t, t ∈ added → taintID t ∉ taintID <$> ts.
Proof.
  destruct (MergeTaints_spec ts with_) as (added & -> & Hsub & Hnd & Hin & Hnew).
  split_and!; [by apply Hnd| |eauto].
  intros id. split.
  - rewrite fmap_app, elem_of_app. intros [?|(t & -> & Ht)%list_elem_of_fmap]; [by left|right].
    apply list_elem_of_fmap. exists t. split; [done|]. by eapply elem_of_sublist.
  - intros [?|(t & -> & Ht)%list_elem_of_fmap]; [rewrite fmap_app, elem_of_app; auto|auto].
Qed.

(** The ephemeral-taint test looks at key and effect only: a taint with the
    key and effect of a known ephemeral taint is ephemeral whatever its value. *)
Theorem IsKnownEphemeralTaint_any_value known value (Hk : known ∈ KnownEphemeralTaints) :
  IsKnownEphemeralTaint (Some (mkTaint (tn_Key known) value (tn_Effect known))) = true.
Proof.
  unfold IsKnownEphemeralTaint. apply orb_true_iff. left. apply existsb_exists.
  exists known. rewrite <- list_elem_of_In. split; [done|].
  rewrite MatchTaint_spec. by apply bool_decide_eq_true.
Qed.
End theory.

(** * Witnesses *)

(** The documented test on keys and effects, and a toleration by key. *)
Definition keyTaintLib : TaintLib := {|
  MatchTaint a b := bool_decide ((tn_Key a, tn_Effect a) = (tn_Key b, tn_Effect b));
  ToleratesTaint tol t := bool_decide (tl_Key tol = tn_Key t);
|}.

Definition keyTaintLaws : @TaintLaws keyTaintLib.
Proof. constructor. intros a b. reflexivity. Defined.

Lemma MergeTaints_unique_witness :
  NoDup (taintID <$> @MergeTaints keyTaintLib [DisruptedNoScheduleTaint]
    [mkTaint "karpenter.sh/disrupted" "x" NoSchedule; UnregisteredNoExecuteTaint]).
Proof.
  refine (proj1 (@MergeTaints_unique keyTaintLib keyTaintLaws [DisruptedNoScheduleTaint]
    [mkTaint "karpenter.sh/disrupted" "x" NoSchedule; UnregisteredNoExecuteTaint] _)).
  apply NoDup_singleton.
Defined.

Lemma IsKnownEphemeralTaint_any_value_witness :
  @IsKnownEphemeralTaint keyTaintLib (Some (mkTaint TaintExternalCloudProvider "false" NoSchedule)) = true.
Proof.
  apply (@IsKnownEphemeralTaint_any_value keyTaintLib keyTaintLaws
    (mkTaint TaintExternalCloudProvider "true" NoSchedule) "false").
  vm_compute. repeat constructor.
Defined.
