(* ===== verification/HostPorts.v ===== *)
(** * Host ports

    Model of [pkg/scheduling/hostportusage.go].  IP addresses ([net.IP]) are a
    parameter; the theorems use that equality of addresses is symmetric and that
    [0.0.0.0] parses to an unspecified address. *)

From S2P Require Import Prelude Kube.

Class NetIP := {
  IP : Type;
  ParseIP : string → IP;
  IPEqual : IP → IP → bool;
  IsUnspecified : IP → bool;
}.

Class NetIPLaws `{NetIP} := {
  IPEqual_sym a b : IPEqual a b = IPEqual b a;
  ParseIP_zero : IsUnspecified (ParseIP "0.0.0.0") = true;
}.

Record HostPort `{NetIP} := mkHostPort {
  hp_IP : IP;
  hp_Port : Z;
  hp_Protocol : string;
}.

(** [HostPortUsage.reserved] *)
Abbreviation HostPortUsage := (gmap NamespacedName (list HostPort)).

Section operations.
Context `{NetIP}.
Implicit Types (p rhs : HostPort) (u : HostPortUsage).

Definition HostPortMatches p rhs : bool :=
  if negb (String.eqb (hp_Protocol p) (hp_Protocol rhs)) then false
  else if negb (hp_Port p =? hp_Port rhs) then false
  else if negb (IPEqual (hp_IP p) (hp_IP rhs)) && negb (IsUnspecified (hp_IP p)) && negb (IsUnspecified (hp_IP rhs))
  then false else true.

Definition NewHostPortUsage : HostPortUsage := ∅.

Definition AddHostPorts u (usedBy : Pod) (ports : list HostPort) : HostPortUsage :=
  <[ObjectKeyFromObject usedBy := ports]> u.

(** [None] is the nil error; otherwise the first conflicting pair found. *)
Definition HostPortConflicts u (usedBy : Pod) (ports : list HostPort) : option (HostPort * HostPort) :=
  head (
    newEntry ← ports;
    entries ← map_to_list u;
    omap (λ existing,
      if HostPortMatches newEntry existing && negb (bool_decide (entries.1 = ObjectKeyFromObject usedBy))
      then Some (newEntry, existing) else None) entries.2).

Definition DeletePodPorts u (key : NamespacedName) : HostPortUsage := delete key u.

Definition GetHostPorts (pod : Pod) : list HostPort :=
  containerPorts ← pod_Containers pod;
  omap (λ c,
    if cp_HostPort c =? 0 then None
    else
      let hostIP := if String.eqb (cp_HostIP c) "" then "0.0.0.0"%string else cp_HostIP c in
      Some (mkHostPort _ (ParseIP hostIP) (cp_HostPort c) (cp_Protocol c))) containerPorts.
End operations.

(** * Theory *)

Section theory.
Context `{NetIPLaws}.
Implicit Types (p rhs : HostPort) (u : HostPortUsage).

Lemma HostPortMatches_sym p rhs : HostPortMatches p rhs = HostPortMatches rhs p.
Proof.
  unfold HostPortMatches. rewrite (String.eqb_sym (hp_Protocol p)), (Z.eqb_sym (hp_Port p)), (IPEqual_sym (hp_IP p)).
  repeat case_goal; try done; rewrite <- !andb_assoc in *;
    rewrite (andb_comm (negb (IsUnspecified (hp_IP p)))) in *; congruence.
Qed.

Lemma HostPortConflicts_None u usedBy ports :
  HostPortConflicts u usedBy ports = None ↔
  ∀ key entries new existing, new ∈ ports → u !! key = Some entries → existing ∈ entries →
    key ≠ ObjectKeyFromObject usedBy → HostPortMatches new existing = false.
Proof.
  unfold HostPortConflicts.
  match goal with |- head ?l = None ↔ _ => assert (head l = None ↔ ∀ x, x ∉ l) as -> end.
  { match goal with |- head ?l = None ↔ _ => destruct l as [|x l'] end; simpl.
    - split; [intros _ x; apply not_elem_of_nil|done].
    - split; [done|]. intros Hno. destruct (Hno x). apply list_elem_of_here. }
  split.
  - intros Hno key entries new existing Hnew Hkey Hex Hne. apply not_true_iff_false. intros Hm.
    apply (Hno (new, existing)). apply list_elem_of_bind. exists new. split; [|done].
    apply list_elem_of_bind. exists (key, entries). split; [|exact (proj2 (elem_of_map_to_list (M := gmap NamespacedName) u key entries) Hkey)].
    apply list_elem_of_omap. exists existing. split; [done|]. simpl.
    by rewrite Hm, bool_decide_eq_false_2.
  - intros Hall x (new & ([key entries] & (existing & Hex & Hx)%list_elem_of_omap & Hkey)%list_elem_of_bind & Hnew)%list_elem_of_bind.
    simpl in *. destruct (HostPortMatches new existing && _) eqn:Hm; [|done]. destruct_bools.
    apply (elem_of_map_to_list (M := gmap NamespacedName)) in Hkey.
    by rewrite (Hall key entries new existing) in *.
Qed.

(** No two pods on the node use host ports that match. *)
Definition ports_disjoint u : Prop :=
  ∀ k1 k2 e1 e2 p1 p2, u !! k1 = Some e1 → u !! k2 = Some e2 → k1 ≠ k2 → p1 ∈ e1 → p2 ∈ e2 →
    HostPortMatches p1 p2 = false.

(** How a node's ports change while pods are scheduled: a pod is added only
    after [Conflicts] returned nil for its ports. *)
Inductive ports_step : HostPortUsage → HostPortUsage → Prop :=
  | ports_add u pod :
      HostPortConflicts u pod (GetHostPorts pod) = None →
      ports_step u (AddHostPorts u pod (GetHostPorts pod))
  | ports_delete u key : ports_step u (DeletePodPorts u key).

Lemma ports_step_disjoint u u' : ports_disjoint u → ports_step u u' → ports_disjoint u'.
Proof.
  intros Hd Hs. destruct Hs as [u pod Hc|u key].
  - rewrite HostPortConflicts_None in Hc. unfold AddHostPorts.
    intros k1 k2 e1 e2 p1 p2. rewrite !lookup_insert.
    destruct (decide (ObjectKeyFromObject pod = k1)) as [<-|H1], (decide (ObjectKeyFromObject pod = k2)) as [<-|H2];
      intros He1 He2 Hne Hp1 Hp2.
    + done.
    + injection He1 as <-. by apply (Hc k2 e2).
    + injection He2 as <-. rewrite HostPortMatches_sym. by apply (Hc k1 e1).
    + by apply (Hd k1 k2 e1 e2).
  - intros k1 k2 e1 e2 p1 p2. unfold DeletePodPorts. rewrite !lookup_delete_Some.
    intros [_ ?] [_ ?]. by apply Hd.
Qed.

(** Host ports never clash.  In every state reached from an empty node by
    adding pods whose ports passed [Conflicts] and deleting pods, no two
    different pods hold host ports that match. *)
Theorem host_ports_never_clash u k1 k2 e1 e2 p1 p2
    (Hreach : rtc ports_step NewHostPortUsage u)
    (H1 : u !! k1 = Some e1) (H2 : u !! k2 = Some e2) (Hne : k1 ≠ k2) (Hp1 : p1 ∈ e1) (Hp2 : p2 ∈ e2) :
  HostPortMatches p1 p2 = false.
Proof.
  assert (ports_disjoint u) as Hd; [|by apply (Hd k1 k2 e1 e2)].
  assert (ports_disjoint NewHostPortUsage) as Hinit.
  { intros a b ea eb pa pb Ha. unfold NewHostPortUsage in Ha. by rewrite lookup_empty in Ha. }
  revert Hinit. generalize dependent NewHostPortUsage. intros u0 Hreach.
  induction Hreach as [|u0 u1 u2 Hs _ IH]; [done|]. intros Hu0. apply IH; try done.
  by apply (ports_step_disjoint u0).
Qed.

(** A container that names a host port without a host address conflicts with
    every other pod that already uses the port with the same protocol, whatever
    address that pod uses. *)
Theorem default_host_ip_conflicts u pod other ports cp existing entries
    (Hports : ports ∈ pod_Containers pod) (Hcp : cp ∈ ports) (Hip : cp_HostIP cp = ""%string)
    (Hport : cp_HostPort cp ≠ 0) (Hother : u !! other = Some entries) (Hne : other ≠ ObjectKeyFromObject pod)
    (Hex : existing ∈ entries) (Hsame : hp_Port existing = cp_HostPort cp ∧ hp_Protocol existing = cp_Protocol cp) :
  HostPortConflicts u pod (GetHostPorts pod) ≠ None.
Proof.
  rewrite HostPortConflicts_None. intros Hall.
  assert (mkHostPort _ (ParseIP "0.0.0.0") (cp_HostPort cp) (cp_Protocol cp) ∈ GetHostPorts pod) as Hin.
  { unfold GetHostPorts. apply list_elem_of_bind. exists ports. split; [|done].
    apply list_elem_of_omap. exists cp. split; [done|].
    rewrite (proj2 (Z.eqb_neq _ 0) Hport), Hip. done. }
  specialize (Hall other entries _ existing Hin Hother Hex Hne). destruct Hsame as [Hp Hproto].
  unfold HostPortMatches in Hall. simpl in Hall.
  rewrite Hp, Hproto, String.eqb_refl, Z.eqb_refl, ParseIP_zero, andb_false_r in Hall. done.
Qed.
End theory.

(** * Witnesses *)

(** Addresses as their text; the two unspecified addresses. *)
Definition textIP : NetIP := {|
  IP := string; ParseIP s := s; IPEqual := String.eqb;
  IsUnspecified s := bool_decide (s = "0.0.0.0"%string ∨ s = "::"%string);
|}.

Definition textIPLaws : @NetIPLaws textIP.
Proof. constructor; [intros a b; apply String.eqb_sym|reflexivity]. Defined.

Definition portPod (name ip : string) : Pod :=
  let b := barePod "default" name name in
  mkPod (pod_Namespace b) (pod_Name b) (pod_UID b) 0 None ∅ ∅ [] ∅ None [] [] [[mkPort 80 ip "TCP"]] [] "" "" None "" [] "" None [] [] [] [] "" None.

Section witnesses.
#[local] Existing Instance textIP.

Lemma host_ports_never_clash_witness :
  HostPortMatches (mkHostPort textIP (ParseIP "10.0.0.1") 80 "TCP") (mkHostPort textIP (ParseIP "10.0.0.2") 80 "TCP") = false.
Proof.
  apply (@host_ports_never_clash textIP textIPLaws
    (AddHostPorts (AddHostPorts NewHostPortUsage (portPod "a" "10.0.0.1") (GetHostPorts (portPod "a" "10.0.0.1")))
       (portPod "b" "10.0.0.2") (GetHostPorts (portPod "b" "10.0.0.2")))
    ("default", "a")%string ("default", "b")%string
    [mkHostPort textIP (ParseIP "10.0.0.1") 80 "TCP"] [mkHostPort textIP (ParseIP "10.0.0.2") 80 "TCP"]).
  - eapply rtc_l; [|apply rtc_once].
    + apply (ports_add NewHostPortUsage (portPod "a" "10.0.0.1")). vm_compute. reflexivity.
    + apply ports_add. vm_compute. reflexivity.
  - vm_compute. reflexivity.
  - vm_compute. reflexivity.
  - discriminate.
  - apply list_elem_of_here.
  - apply list_elem_of_here.
Defined.

Lemma default_host_ip_conflicts_witness :
  HostPortConflicts {[("default", "a")%string := [mkHostPort textIP (ParseIP "10.0.0.1") 80 "TCP"]]} (portPod "b" "")
    (GetHostPorts (portPod "b" "")) ≠ None.
Proof.
  apply (@default_host_ip_conflicts textIP textIPLaws {[("default", "a")%string := [mkHostPort textIP (ParseIP "10.0.0.1") 80 "TCP"]]}
    (portPod "b" "") ("default", "a")%string [mkPort 80 "" "TCP"] (mkPort 80 "" "TCP")
    (mkHostPort textIP (ParseIP "10.0.0.1") 80 "TCP") [mkHostPort textIP (ParseIP "10.0.0.1") 80 "TCP"]).
  - apply list_elem_of_here.
  - apply list_elem_of_here.
  - reflexivity.
  - discriminate.
  - vm_compute. reflexivity.
  - discriminate.
  - apply list_elem_of_here.
  - split; reflexivity.
Defined.
End witnesses.
