(* ===== verification/Volumes.v ===== *)
(** * Volume limits

    Model of [pkg/scheduling/volumeusage.go] and [pkg/utils/volume/volume.go].
    Objects read from the API server and the in-tree plugin translation of the
    CSI library are parameters. *)

From S2P Require Import Prelude Kube.

(** driver -> claims *)
Abbreviation Volumes := (gmap string (gset string)).

Record PersistentVolumeClaim := mkPVC {
  pvc_Namespace : string;
  pvc_Name : string;
  pvc_VolumeName : string;
  pvc_StorageClassName : option string;
}.

(** The driver of the CSI source, and whether there is an EBS source. *)
Record PersistentVolume := mkPV {
  pv_CSIDriver : option string;
  pv_AWSElasticBlockStore : bool;
}.

Record VolumeUsage := mkVolumeUsage {
  volumes : Volumes;
  podVolumes : gmap NamespacedName Volumes;
  limits : gmap string Z;
}.

Definition AWSEBSDriverName : string := "ebs.csi.aws.com".

(** ** Sets of volumes *)

Definition AddVolume (u : Volumes) (provisioner pvcID : string) : Volumes :=
  <[provisioner := default ∅ (u !! provisioner) ∪ {[pvcID]}]> u.

(** [Volumes.Insert]: the receiver with the other volumes added. *)
Definition InsertVolumes (u vols : Volumes) : Volumes :=
  range_update (λ existing v, default ∅ existing ∪ v) vols u.

(** [Volumes.Union] copies the receiver and inserts into the copy. *)
Definition UnionVolumes (u vol : Volumes) : Volumes :=
  let cp := range_update (λ _ v, v) u ∅ in
  range_update (λ existing v, default ∅ existing ∪ v) vol cp.

(** ** Drivers of a pod's volumes *)

Class StorageAPI := {
  getPVC : NamespacedName → GetResult PersistentVolumeClaim;
  getPV : string → GetResult PersistentVolume;
  (** the provisioner of a storage class *)
  getStorageClass : string → GetResult string;
  (** [translator.GetCSINameFromInTreeName] *)
  GetCSINameFromInTreeName : string → option string;
}.

Section drivers.
Context `{StorageAPI}.

(** [Found None] is the nil claim of a volume that has none. *)
Definition GetPersistentVolumeClaim (pod : Pod) (volume : PodVolume) : GetResult (option PersistentVolumeClaim) :=
  let lookup_ pvcName :=
    match getPVC (pod_Namespace pod, pvcName) with
    | Found pvc => Found (Some pvc)
    | NotFound => NotFound
    | GetError => GetError
    end in
  match vl_ClaimName volume with
  | Some name => lookup_ name
  | None => if vl_Ephemeral volume then lookup_ (pod_Name pod +:+ "-" +:+ vl_Name volume) else Found None
  end.

Definition driverFromSC (storageClassName : string) : GetResult string :=
  match getStorageClass storageClassName with
  | Found provisioner =>
      match GetCSINameFromInTreeName provisioner with
      | Some csiName => Found csiName
      | None => Found provisioner
      end
  | NotFound => NotFound
  | GetError => GetError
  end.

Definition driverFromVolume (volumeName : string) : GetResult string :=
  match getPV volumeName with
  | Found pv =>
      match pv_CSIDriver pv with
      | Some driver => Found driver
      | None => if pv_AWSElasticBlockStore pv then Found AWSEBSDriverName else Found ""%string
      end
  | NotFound => NotFound
  | GetError => GetError
  end.

(** [None] is an error; the empty name is a volume that is not tracked. *)
Definition ResolveDriver (pvc : PersistentVolumeClaim) (storageClassName : string) : option string :=
  if negb (String.eqb (pvc_VolumeName pvc) "") then
    match driverFromVolume (pvc_VolumeName pvc) with
    | Found driverName => if negb (String.eqb driverName "") then Some driverName else Some ""%string
    | NotFound | GetError => None
    end
  else if String.eqb storageClassName "" then Some ""%string
  else
    match driverFromSC storageClassName with
    | Found driverName => Some driverName
    | NotFound => Some ""%string
    | GetError => None
    end.

(** [types.NamespacedName.String] *)
Definition claimID (pvc : PersistentVolumeClaim) : string := pvc_Namespace pvc +:+ "/" +:+ pvc_Name pvc.

Fixpoint GetVolumes_loop (pod : Pod) (vols : list PodVolume) (podPVCs : Volumes) : option Volumes :=
  match vols with
  | [] => Some podPVCs
  | volume :: rest =>
      match GetPersistentVolumeClaim pod volume with
      | NotFound => GetVolumes_loop pod rest podPVCs
      | GetError => None
      | Found None => GetVolumes_loop pod rest podPVCs
      | Found (Some pvc) =>
          driverName ← ResolveDriver pvc (default ""%string (pvc_StorageClassName pvc));
          GetVolumes_loop pod rest
            (if negb (String.eqb driverName "") then AddVolume podPVCs driverName (claimID pvc) else podPVCs)
      end
  end.

Definition GetVolumes (pod : Pod) : option Volumes := GetVolumes_loop pod (pod_Volumes pod) ∅.
End drivers.

(** ** Usage of a node *)

Definition NewVolumeUsage : VolumeUsage := mkVolumeUsage ∅ ∅ ∅.

(** [None] is nil; otherwise a driver that would be over its limit. *)
Definition ExceedsLimits (v : VolumeUsage) (vols : Volumes) : option string :=
  fst <$> List.find (λ kv,
    match limits v !! kv.1 with
    | Some limit => limit <? Z.of_nat (size kv.2)
    | None => false
    end) (map_to_list (UnionVolumes (volumes v) vols)).

Definition AddLimit (v : VolumeUsage) (storageDriver : string) (value : Z) : VolumeUsage :=
  mkVolumeUsage (volumes v) (podVolumes v) (<[storageDriver := value]> (limits v)).

Definition AddPodVolumes (v : VolumeUsage) (pod : Pod) (vols : Volumes) : VolumeUsage :=
  mkVolumeUsage (UnionVolumes (volumes v) vols) (<[ObjectKeyFromObject pod := vols]> (podVolumes v)) (limits v).

Definition DeletePodVolumes (v : VolumeUsage) (key : NamespacedName) : VolumeUsage :=
  let podVolumes' := delete key (podVolumes v) in
  mkVolumeUsage (foldl InsertVolumes ∅ (map_to_list podVolumes').*2) podVolumes' (limits v).

(** * Theory *)

Section theory.
Implicit Types (u vols : Volumes) (v : VolumeUsage) (driver id : string).

(** The claims of a driver. *)
Definition claims u driver : gset string := default ∅ (u !! driver).

Lemma claims_InsertVolumes u vols driver :
  claims (InsertVolumes u vols) driver = claims u driver ∪ claims vols driver.
Proof.
  unfold claims, InsertVolumes. rewrite range_update_lookup. destruct (vols !! driver); simpl; set_solver.
Qed.

Lemma UnionVolumes_Insert u vols : UnionVolumes u vols = InsertVolumes u vols.
Proof.
  unfold UnionVolumes, InsertVolumes. f_equal. apply map_eq. intros k.
  rewrite range_update_lookup, lookup_empty. by destruct (u !! k).
Qed.

Lemma lookup_UnionVolumes u vols driver s :
  UnionVolumes u vols !! driver = Some s → s = claims u driver ∪ claims vols driver.
Proof.
  rewrite UnionVolumes_Insert, <- claims_InsertVolumes. unfold claims. by intros ->.
Qed.

(** What the pods on the node mount. *)
Definition mounted v driver id : Prop :=
  ∃ key vols, podVolumes v !! key = Some vols ∧ id ∈ claims vols driver.

(** Nothing a pod mounts is missing from the totals. *)
Definition covers v : Prop := ∀ driver id, mounted v driver id → id ∈ claims (volumes v) driver.
Definition exact v : Prop := ∀ driver id, id ∈ claims (volumes v) driver ↔ mounted v driver id.

Lemma claims_foldl l acc driver id :
  id ∈ claims (foldl InsertVolumes acc l) driver ↔
  id ∈ claims acc driver ∨ ∃ vols, vols ∈ l ∧ id ∈ claims vols driver.
Proof.
  revert acc. induction l as [|w l IH]; intros acc; cbn [foldl]; [set_solver|].
  rewrite IH, claims_InsertVolumes, elem_of_union. setoid_rewrite elem_of_cons. naive_solver.
Qed.

Lemma DeletePodVolumes_exact v key : exact (DeletePodVolumes v key).
Proof.
  intros driver id. unfold DeletePodVolumes, mounted. cbn [volumes podVolumes]. rewrite claims_foldl.
  assert (id ∈ claims (∅ : Volumes) driver ↔ False) as -> by (unfold claims; rewrite lookup_empty; set_solver).
  setoid_rewrite list_elem_of_fmap. split.
  - intros [[]|(vols & ([k x] & -> & Hk) & Hid)]. exists k, x. split; [|done]. by apply elem_of_map_to_list.
  - intros (k & x & Hk & Hid). right. exists x. split; [|done]. exists (k, x). split; [done|].
    by apply elem_of_map_to_list.
Qed.

Lemma AddPodVolumes_covers v pod vols : covers v → covers (AddPodVolumes v pod vols).
Proof.
  intros Hc driver id (k & x & Hk & Hid). simpl in *.
  rewrite UnionVolumes_Insert, claims_InsertVolumes, elem_of_union.
  rewrite lookup_insert in Hk. destruct (decide (ObjectKeyFromObject pod = k)) as [<-|Hne].
  - injection Hk as <-. by right.
  - left. apply Hc. by exists k, x.
Qed.

Lemma AddPodVolumes_exact v pod vols :
  (∀ old, podVolumes v !! ObjectKeyFromObject pod = Some old → ∀ driver, claims old driver ⊆ claims vols driver) →
  exact v → exact (AddPodVolumes v pod vols).
Proof.
  intros Hold He driver id. unfold mounted. simpl.
  rewrite UnionVolumes_Insert, claims_InsertVolumes, elem_of_union, (He driver id). split.
  - intros [(k & x & Hk & Hid)|Hid].
    + destruct (decide (ObjectKeyFromObject pod = k)) as [<-|Hne].
      * exists (ObjectKeyFromObject pod), vols. rewrite lookup_insert_eq. split; [done|]. by apply (Hold x Hk).
      * exists k, x. by rewrite lookup_insert_ne.
    + exists (ObjectKeyFromObject pod), vols. by rewrite lookup_insert_eq.
  - intros (k & x & Hk & Hid). rewrite lookup_insert in Hk.
    destruct (decide (ObjectKeyFromObject pod = k)) as [<-|Hne].
    + injection Hk as <-. by right.
    + left. by exists k, x.
Qed.

(** The calls made for a node. *)
Inductive volume_step : VolumeUsage → VolumeUsage → Prop :=
  | volume_add v pod vols : volume_step v (AddPodVolumes v pod vols)
  | volume_delete v key : volume_step v (DeletePodVolumes v key)
  | volume_limit v driver n : volume_step v (AddLimit v driver n).

Lemma volume_step_covers v v' : covers v → volume_step v v' → covers v'.
Proof.
  intros Hc Hs. destruct Hs as [v pod vols|v key|v d n].
  - by apply AddPodVolumes_covers.
  - intros driver id. by apply DeletePodVolumes_exact.
  - done.
Qed.

(** Volume totals never miss a mounted volume.  After any sequence of adding
    pods (again, too), deleting pods and setting limits on an empty tracker,
    every claim some tracked pod mounts is in the totals of its driver; and
    right after a pod is deleted the totals are exactly what the remaining pods
    mount, so nothing of the deleted pod lingers unless another pod uses it. *)
Theorem volumes_cover_pods v key driver id (Hreach : rtc volume_step NewVolumeUsage v) :
  (mounted v driver id → id ∈ claims (volumes v) driver) ∧
  (id ∈ claims (volumes (DeletePodVolumes v key)) driver ↔ mounted (DeletePodVolumes v key) driver id) ∧
  podVolumes (DeletePodVolumes v key) = delete key (podVolumes v).
Proof.
  assert (covers NewVolumeUsage) as Hinit.
  { intros d i (k & x & Hk & _). simpl in Hk. by rewrite lookup_empty in Hk. }
  assert (covers v) as Hc.
  { revert Hinit. induction Hreach as [|v0 v1 v2 Hs _ IH]; [done|]. intros H0. by apply IH, (volume_step_covers v0). }
  split_and!; [apply Hc|apply DeletePodVolumes_exact|done].
Qed.

Lemma ExceedsLimits_None v vols :
  ExceedsLimits v vols = None ↔
  ∀ driver s limit, UnionVolumes (volumes v) vols !! driver = Some s → limits v !! driver = Some limit →
    Z.of_nat (size s) <= limit.
Proof.
  unfold ExceedsLimits. rewrite fmap_None. split.
  - intros Hf driver s limit Hs Hl.
    pose proof (find_none _ _ Hf (driver, s)) as Hn. simpl in Hn. rewrite Hl in Hn.
    apply Z.ltb_ge, Hn, list_elem_of_In. by apply elem_of_map_to_list.
  - intros Hall. destruct (List.find _ _) as [[driver s]|] eqn:Hf; [|done].
    apply find_some in Hf as [Hin Ht]. apply list_elem_of_In, elem_of_map_to_list in Hin. simpl in Ht.
    destruct (limits v !! driver) as [limit|] eqn:Hl; [|done]. apply Z.ltb_lt in Ht.
    specialize (Hall driver s limit Hin Hl). lia.
Qed.

(** Adding a pod that passed [ExceedsLimits] respects every limit: afterwards
    no driver with a limit has more distinct claims than the limit allows,
    counting a claim shared by several pods once.  Limits must not be
    negative. *)
Theorem ExceedsLimits_respected v pod vols driver limit
    (Hok : ExceedsLimits v vols = None) (Hl : limits v !! driver = Some limit) (Hpos : 0 <= limit) :
  Z.of_nat (size (claims (volumes (AddPodVolumes v pod vols)) driver)) <= limit ∧
  claims (volumes (AddPodVolumes v pod vols)) driver = claims (volumes v) driver ∪ claims vols driver.
Proof.
  simpl. split; [|by rewrite UnionVolumes_Insert, claims_InsertVolumes].
  rewrite ExceedsLimits_None in Hok. unfold claims.
  destruct (UnionVolumes (volumes v) vols !! driver) as [s|] eqn:Hs; simpl; [by apply (Hok driver)|].
  done.
Qed.
End theory.

Section driver_theory.
Context `{StorageAPI}.

(** The driver a volume of the pod is counted for, if any. *)
Definition trackedAs (pod : Pod) (volume : PodVolume) (driver id : string) : Prop :=
  ∃ pvc, GetPersistentVolumeClaim pod volume = Found (Some pvc) ∧ id = claimID pvc ∧ driver ≠ ""%string ∧
    ResolveDriver pvc (default ""%string (pvc_StorageClassName pvc)) = Some driver.

Lemma claims_AddVolume u d c driver :
  claims (AddVolume u d c) driver = claims u driver ∪ (if decide (driver = d) then {[c]} else ∅).
Proof.
  unfold claims, AddVolume. rewrite lookup_insert. repeat case_decide; subst; simpl; set_solver.
Qed.

Lemma exists_cons {A} (P : A → Prop) x l : (∃ y, y ∈ x :: l ∧ P y) ↔ P x ∨ ∃ y, y ∈ l ∧ P y.
Proof. setoid_rewrite elem_of_cons. naive_solver. Qed.

Lemma GetVolumes_loop_spec pod vols acc out driver id :
  GetVolumes_loop pod vols acc = Some out →
  id ∈ claims out driver ↔ id ∈ claims acc driver ∨ ∃ v, v ∈ vols ∧ trackedAs pod v driver id.
Proof.
  revert acc. induction vols as [|w vols IH]; intros acc Hrun; cbn [GetVolumes_loop] in Hrun.
  { injection Hrun as <-. set_solver. }
  rewrite exists_cons. destruct (GetPersistentVolumeClaim pod w) as [[pvc|]| |] eqn:Hw; [| | |done].
  2,3: rewrite (IH _ Hrun); enough (¬ trackedAs pod w driver id) by tauto;
    intros (pvc & Hpvc & _); congruence.
  destruct (ResolveDriver pvc (default ""%string (pvc_StorageClassName pvc))) as [d|] eqn:Hd; simpl in Hrun; [|done].
  assert (trackedAs pod w driver id ↔ id = claimID pvc ∧ driver ≠ ""%string ∧ d = driver) as ->.
  { unfold trackedAs. split.
    - intros (pvc' & Hpvc & -> & Hne & Hres). rewrite Hw in Hpvc. injection Hpvc as <-.
      rewrite Hd in Hres. by injection Hres as <-.
    - intros (-> & Hne & ->). by exists pvc. }
  rewrite (IH _ Hrun). destruct (String.eqb d "") eqn:Hempty; simpl.
  - apply String.eqb_eq in Hempty as ->. intuition congruence.
  - apply String.eqb_neq in Hempty. rewrite claims_AddVolume, elem_of_union.
    case_decide as Hdd; [subst d; rewrite elem_of_singleton; tauto|]. rewrite elem_of_empty. intuition congruence.
Qed.

(** [GetVolumes] finds exactly the volumes to count: when it succeeds, a claim
    is counted for a driver exactly when some volume of the pod resolves to that
    claim and the claim to that (non-empty) driver.  It fails exactly when some
    claim cannot be read for a reason other than not being found, or the driver
    of a claim cannot be resolved. *)
Theorem GetVolumes_exact pod :
  (∀ out, GetVolumes pod = Some out → ∀ driver id,
     id ∈ claims out driver ↔ ∃ v, v ∈ pod_Volumes pod ∧ trackedAs pod v driver id) ∧
  (GetVolumes pod = None ↔ ∃ v, v ∈ pod_Volumes pod ∧
     (GetPersistentVolumeClaim pod v = GetError ∨
      ∃ pvc, GetPersistentVolumeClaim pod v = Found (Some pvc) ∧
             ResolveDriver pvc (default ""%string (pvc_StorageClassName pvc)) = None)).
Proof.
  unfold GetVolumes. split.
  - intros out Hout driver id. rewrite (GetVolumes_loop_spec _ _ _ _ driver id Hout).
    assert (id ∈ claims (∅ : Volumes) driver ↔ False) as -> by (unfold claims; rewrite lookup_empty; set_solver).
    naive_solver.
  - generalize (∅ : Volumes). induction (pod_Volumes pod) as [|w vols IH]; intros acc; cbn [GetVolumes_loop].
    { split; [done|]. by intros (v & ?%not_elem_of_nil & _). }
    rewrite exists_cons.
    destruct (GetPersistentVolumeClaim pod w) as [[pvc|]| |] eqn:Hw; [|rewrite IH; naive_solver..|naive_solver].
    destruct (ResolveDriver pvc (default ""%string (pvc_StorageClassName pvc))) as [d|] eqn:Hd; simpl;
      [rewrite IH; naive_solver|naive_solver].
Qed.
End driver_theory.

(** * Witnesses *)

Definition dataVolumes : Volumes := {["ebs.csi.aws.com"%string := {["default/data"%string]}]}.
Definition oneVolume : VolumeUsage := AddPodVolumes (AddLimit NewVolumeUsage "ebs.csi.aws.com" 1) (barePod "default" "a" "a") dataVolumes.

Lemma volumes_cover_pods_witness :
  (mounted oneVolume "ebs.csi.aws.com" "default/data" → "default/data"%string ∈ claims (volumes oneVolume) "ebs.csi.aws.com") ∧
  ("default/data"%string ∈ claims (volumes (DeletePodVolumes oneVolume ("default", "a")%string)) "ebs.csi.aws.com" ↔
   mounted (DeletePodVolumes oneVolume ("default", "a")%string) "ebs.csi.aws.com" "default/data") ∧
  podVolumes (DeletePodVolumes oneVolume ("default", "a")%string) = delete ("default", "a")%string (podVolumes oneVolume).
Proof.
  apply (volumes_cover_pods oneVolume ("default", "a")%string "ebs.csi.aws.com" "default/data").
  eapply rtc_l; [apply (volume_limit NewVolumeUsage "ebs.csi.aws.com" 1)|]. apply rtc_once, volume_add.
Defined.

Lemma ExceedsLimits_respected_witness :
  Z.of_nat (size (claims (volumes (AddPodVolumes oneVolume (barePod "default" "b" "b") dataVolumes)) "ebs.csi.aws.com")) <= 1.
Proof.
  refine (proj1 (ExceedsLimits_respected oneVolume (barePod "default" "b" "b") dataVolumes "ebs.csi.aws.com" 1 _ _ _)).
  - vm_compute. reflexivity.
  - vm_compute. reflexivity.
  - discriminate.
Defined.
