(* ===== verification/PodUtils.v ===== *)
(** * Pod predicates and eviction costs

    Model of [pkg/utils/pod/scheduling.go] and [pkg/utils/disruption/disruption.go]:
    which pods Karpenter provisions for, drains and evicts, how long the
    do-not-disrupt annotation protects a pod, and what evicting a pod costs.
    [now] is the clock.  The parsers [time.ParseDuration] and
    [strconv.ParseFloat] are parameters; events sent to a recorder are not
    modelled. *)

From S2P Require Import Prelude Float64 Kube Taints.
From Stdlib Require Import SpecFloat.

Class Parsers := {
  ParseDuration : string → option Z;
  ParseFloat : string → option float64;
}.

Definition DoNotDisruptAnnotationKey : string := "karpenter.sh/do-not-disrupt".
Definition PodDeletionCost : string := "controller.kubernetes.io/pod-deletion-cost".
Definition VolcanoSchedulerName : string := "volcano".

Section predicates.
Context {TL : TaintLib} {PS : Parsers}.
Implicit Types (pod : Pod) (now : Z).

Definition IsTerminal pod : bool := String.eqb (pod_Phase pod) "Failed" || String.eqb (pod_Phase pod) "Succeeded".
Definition IsTerminating pod : bool := match pod_DeletionTimestamp pod with Some _ => true | None => false end.
Definition IsActive pod : bool := negb (IsTerminal pod) && negb (IsTerminating pod).
Definition IsPending pod : bool := String.eqb (pod_Phase pod) "Pending".
Definition IsScheduled pod : bool := negb (String.eqb (pod_NodeName pod) "").

Definition IsPreempting pod : bool :=
  negb (String.eqb (pod_NominatedNodeName pod) "") && negb (String.eqb (pod_SchedulerName pod) VolcanoSchedulerName).

Definition FailedToSchedule pod : bool :=
  existsb (λ condition, String.eqb (pc_Type condition) "PodScheduled" && String.eqb (pc_Reason condition) "Unschedulable")
    (pod_Conditions pod).

Definition IsStuckTerminating pod now : bool :=
  match pod_DeletionTimestamp pod with
  | Some t => Minute <? timeSub now t
  | None => false
  end.

(** The kinds are given as pairs of API version and kind. *)
Definition IsOwnedBy pod (gvks : list (string * string)) : bool :=
  existsb (λ ignoredOwner,
    existsb (λ owner, String.eqb (ow_APIVersion owner) ignoredOwner.1 && String.eqb (ow_Kind owner) ignoredOwner.2)
      (pod_OwnerReferences pod)) gvks.

Definition IsOwnedByStatefulSet pod : bool := IsOwnedBy pod [("apps/v1", "StatefulSet")%string].
Definition IsOwnedByDaemonSet pod : bool := IsOwnedBy pod [("apps/v1", "DaemonSet")%string].
Definition IsOwnedByNode pod : bool := IsOwnedBy pod [("v1", "Node")%string].

Definition ToleratesDisruptedNoScheduleTaint pod : bool :=
  bool_decide (ToleratesPod [DisruptedNoScheduleTaint] pod = []).

Definition parseDoNotDisrupt (value : string) : option Z :=
  d ← ParseDuration value;
  if d <=? 0 then None else Some d.

Definition IsDoNotDisruptActive pod now : bool :=
  match pod_Annotations pod !! DoNotDisruptAnnotationKey with
  | None => false
  | Some value =>
      if String.eqb value "true" then true
      else
        match parseDoNotDisrupt value with
        | None => false
        | Some duration =>
            match pod_StartTime pod with
            | None => true
            | Some startTime => timeSub now startTime <? duration
            end
        end
  end.

Definition IsReschedulable pod : bool :=
  (IsActive pod || (IsOwnedByStatefulSet pod && IsTerminating pod)) &&
  negb (IsOwnedByDaemonSet pod) && negb (IsOwnedByNode pod).

Definition IsEvictable pod now : bool :=
  IsActive pod && negb (ToleratesDisruptedNoScheduleTaint pod) && negb (IsOwnedByNode pod) &&
  negb (IsDoNotDisruptActive pod now).

Definition IsDrainable pod now : bool :=
  negb (ToleratesDisruptedNoScheduleTaint pod) && negb (IsStuckTerminating pod now) && negb (IsOwnedByNode pod).

Definition IsWaitingEviction pod now : bool := negb (IsTerminal pod) && IsDrainable pod now.

Definition IsPodEligibleForForcedEviction pod (nodeGracePeriodExpirationTime : option Z) : bool :=
  match nodeGracePeriodExpirationTime, pod_DeletionTimestamp pod with
  | Some expiration, Some deletion => expiration <? deletion
  | _, _ => false
  end.

Definition IsProvisionable pod : bool :=
  FailedToSchedule pod && negb (IsScheduled pod) && negb (IsPreempting pod) &&
  negb (IsOwnedByDaemonSet pod) && negb (IsOwnedByNode pod).

Definition IsDisruptable pod now : bool := negb (IsActive pod) || negb (IsDoNotDisruptActive pod now).

Definition HasPodAntiAffinity pod : bool :=
  match pod_Affinity pod with
  | Some affinity =>
      match af_PodAntiAffinity affinity with
      | Some anti => negb (bool_decide (paff_Required anti = [])) || negb (bool_decide (paff_Preferred anti = []))
      | None => false
      end
  | None => false
  end.

Definition HasRequiredPodAntiAffinity pod : bool :=
  HasPodAntiAffinity pod &&
  match pod_Affinity pod ≫= af_PodAntiAffinity with
  | Some anti => negb (bool_decide (paff_Required anti = []))
  | None => false
  end.

(** ** Costs *)

Definition HasDRARequirements pod : bool :=
  negb (bool_decide (length (pod_ResourceClaims pod) = 0%nat)) ||
  existsb (λ claims, negb (bool_decide (length claims = 0%nat))) (pod_InitContainerClaims pod) ||
  existsb (λ claims, negb (bool_decide (length claims = 0%nat))) (pod_ContainerClaims pod).

(** [lo.Clamp] *)
Definition clamp (value lo hi : float64) : float64 :=
  if fltb value lo then lo else if fltb hi value then hi else value.

Definition fone : float64 := fofint 1.
Definition ften : float64 := fofint 10.
Definition fminusten : float64 := fofint (-10).

Definition EvictionCost pod : float64 :=
  let cost :=
    match pod_Annotations pod !! PodDeletionCost with
    | Some str =>
        match ParseFloat str with
        | Some podDeletionCost => fadd fone (fdiv podDeletionCost (fofint (2 ^ 27)))
        | None => fone
        end
    | None => fone
    end in
  let cost :=
    match pod_Priority pod with
    | Some priority => fadd cost (fdiv (fofint priority) (fofint (2 ^ 25)))
    | None => cost
    end in
  clamp cost fminusten ften.

Definition ReschedulingCost (pods : list Pod) : float64 :=
  foldl (λ cost p, fadd cost (EvictionCost p)) (fofint 0) pods.

(** [Duration.Seconds] *)
Definition Seconds (d : Z) : float64 := fadd (fofint (Z.quot d Second)) (fdiv (fofint (Z.rem d Second)) (fofint 1000000000)).

Definition LifetimeRemaining {Q} now (nodeClaim : NodeClaim Q) : float64 :=
  match nc_ExpireAfter nodeClaim with
  | None => fone
  | Some expireAfter =>
      let ageInSeconds := Seconds (timeSub now (nc_CreationTimestamp nodeClaim)) in
      let totalLifetimeSeconds := Seconds expireAfter in
      clamp (fdiv (fsub totalLifetimeSeconds ageInSeconds) totalLifetimeSeconds) (fofint 0) fone
  end.

(** [consolidateAfter] is the pool's setting; [None] is a missing pool, claim or
    setting. *)
Definition IsUnderConsolidateAfter {Q} (consolidateAfter : option Z) (nodeClaim : option (NodeClaim Q)) now : bool :=
  match consolidateAfter, nodeClaim with
  | Some after, Some nc =>
      if after =? 0 then false
      else
        match nc_Conditions nc !! "Initialized"%string with
        | Some initialized =>
            if String.eqb (cd_Status initialized) "True" then
              let timeToCheck := default (cd_LastTransitionTime initialized) (nc_LastPodEventTime nc) in
              timeSub now timeToCheck <? after
            else false
        | None => false
        end
  | _, _ => false
  end.
End predicates.

(** * Theory *)

Section theory.
Context {TL : TaintLib} {PS : Parsers}.
Implicit Types (pod : Pod) (now : Z).

Lemma timeSub_mono a a' b : a <= a' → timeSub a b <= timeSub a' b.
Proof. unfold timeSub. lia. Qed.

(** Draining waits for the right pods.  Every pod Karpenter would evict is one
    the drain waits for; and a pod the drain waits for without evicting it is
    already terminating or protected by do-not-disrupt.  In particular a drain
    never waits for a mirror pod, a pod that tolerates the disruption taint, or
    a pod stuck terminating for over a minute. *)
Theorem waiting_eviction_covers_evictable pod now :
  (IsEvictable pod now = true → IsWaitingEviction pod now = true) ∧
  (IsWaitingEviction pod now = true → IsEvictable pod now = false →
     IsTerminating pod = true ∨ IsDoNotDisruptActive pod now = true) ∧
  (IsWaitingEviction pod now = true →
     IsOwnedByNode pod = false ∧ ToleratesDisruptedNoScheduleTaint pod = false ∧ IsStuckTerminating pod now = false).
Proof.
  unfold IsEvictable, IsWaitingEviction, IsDrainable, IsActive, IsStuckTerminating, IsTerminating.
  destruct (IsTerminal pod), (ToleratesDisruptedNoScheduleTaint pod), (IsOwnedByNode pod),
    (IsDoNotDisruptActive pod now), (pod_DeletionTimestamp pod) as [t|]; simpl;
    try destruct (Minute <? timeSub now t); simpl; intuition congruence.
Qed.

(** Do-not-disrupt protection ends and does not come back.  Once a pod with a
    given start time is no longer protected it is unprotected at every later
    time; a pod annotated with a positive duration is protected exactly while
    its age is below the duration (unless its start is unknown); and an invalid
    value protects nothing. *)
Theorem do_not_disrupt_window pod now :
  (∀ later, now <= later → IsDoNotDisruptActive pod now = false → IsDoNotDisruptActive pod later = false) ∧
  (∀ value d start, pod_Annotations pod !! DoNotDisruptAnnotationKey = Some value → value ≠ "true"%string →
     ParseDuration value = Some d → 0 < d <= MaxInt64 → pod_StartTime pod = Some start → start <= now →
     IsDoNotDisruptActive pod now = true ↔ now < start + d) ∧
  (∀ value, pod_Annotations pod !! DoNotDisruptAnnotationKey = Some value → value ≠ "true"%string →
     (ParseDuration value = None ∨ ∃ d, ParseDuration value = Some d ∧ d <= 0) → IsDoNotDisruptActive pod now = false).
Proof.
  unfold IsDoNotDisruptActive, parseDoNotDisrupt. split_and!.
  - intros later Hle. destruct (pod_Annotations pod !! _) as [value|]; [|done].
    destruct (String.eqb value "true"); [done|]. destruct (_ ≫= _) as [d|]; [|done].
    destruct (pod_StartTime pod) as [s|]; [|done]. rewrite !Z.ltb_ge.
    pose proof (timeSub_mono now later s Hle). lia.
  - intros value d start -> Hv%String.eqb_neq Hd Hpos -> Hs. rewrite Hv, Hd. simpl.
    rewrite (proj2 (Z.leb_gt d 0)) by lia. rewrite Z.ltb_lt. unfold timeSub. int_lia.
  - intros value -> Hv%String.eqb_neq Hbad. rewrite Hv. destruct Hbad as [->|(d & -> & Hd)]; simpl; [done|].
    by rewrite (proj2 (Z.leb_le d 0)).
Qed.

Lemma clamp_bounds v lo hi :
  fltb hi lo = false → fltb (clamp v lo hi) lo = false ∧ fltb hi (clamp v lo hi) = false.
Proof.
  intros Hlh. unfold clamp. destruct (fltb v lo) eqn:H1; [by rewrite fltb_irrefl|].
  destruct (fltb hi v) eqn:H2; [|done]. by rewrite fltb_irrefl.
Qed.

(** The cost of evicting a pod is within [-10, 10] whatever its deletion-cost
    annotation and priority are, and the remaining lifetime fraction of a node
    claim is within [0, 1]. *)
Theorem costs_bounded {Q} pod now (nc : NodeClaim Q) :
  (fltb (EvictionCost pod) fminusten = false ∧ fltb ften (EvictionCost pod) = false) ∧
  (fltb (LifetimeRemaining now nc) (fofint 0) = false ∧ fltb fone (LifetimeRemaining now nc) = false).
Proof.
  split; [apply clamp_bounds; reflexivity|]. unfold LifetimeRemaining.
  destruct (nc_ExpireAfter nc); [apply clamp_bounds; reflexivity|]. split; reflexivity.
Qed.
End theory.
