(* ===== verification/Preferences.v ===== *)
(** * Relaxing soft constraints

    Model of [pkg/controllers/provisioning/scheduling/preferences.go].  When a
    pod does not schedule, [Relax] removes one soft constraint, or adds a
    toleration.  [MatchToleration] of the Kubernetes API package is a parameter,
    of which the theorems use that a toleration matches itself. *)

From S2P Require Import Prelude Kube.

Class TolerationLib := { MatchToleration : Toleration → Toleration → bool }.

Class TolerationLaws `{TolerationLib} := { MatchToleration_refl t : MatchToleration t t = true }.

Section preferences.
Context `{TolerationLib}.
Implicit Types (pod : Pod) (a : Affinity).

(** Rewrite the affinity of a pod, keeping the rest. *)
Definition with_affinity pod (a : Affinity) : Pod :=
  with_scheduling pod (Some a) (pod_Tolerations pod) (pod_TopologySpreadConstraints pod).

Definition removeRequiredNodeAffinityTerm pod : option Pod :=
  a ← pod_Affinity pod;
  na ← af_NodeAffinity a;
  terms ← na_Required na;
  match terms with
  | _ :: _ :: _ =>
      Some (with_affinity pod (mkAffinity (Some (mkNodeAffinity (Some (tail terms)) (na_Preferred na)))
        (af_PodAffinity a) (af_PodAntiAffinity a)))
  | _ => None
  end.

(** [sort.SliceStable] by descending weight. *)
Definition heaviestFirst {A} (weight : A → Z) (terms : list A) : list A :=
  sort_stable (λ x y, weight y <? weight x) terms.

Definition removePreferredPodAffinityTerm pod : option Pod :=
  a ← pod_Affinity pod;
  pa ← af_PodAffinity a;
  match paff_Preferred pa with
  | [] => None
  | terms =>
      Some (with_affinity pod (mkAffinity (af_NodeAffinity a)
        (Some (mkPodAffinity (paff_Required pa) (tail (heaviestFirst wp_Weight terms)))) (af_PodAntiAffinity a)))
  end.

Definition removePreferredPodAntiAffinityTerm pod : option Pod :=
  a ← pod_Affinity pod;
  pa ← af_PodAntiAffinity a;
  match paff_Preferred pa with
  | [] => None
  | terms =>
      Some (with_affinity pod (mkAffinity (af_NodeAffinity a) (af_PodAffinity a)
        (Some (mkPodAffinity (paff_Required pa) (tail (heaviestFirst wp_Weight terms))))))
  end.

Definition removePreferredNodeAffinityTerm pod : option Pod :=
  a ← pod_Affinity pod;
  na ← af_NodeAffinity a;
  match na_Preferred na with
  | [] => None
  | terms =>
      Some (with_affinity pod (mkAffinity
        (Some (mkNodeAffinity (na_Required na) (tail (heaviestFirst pt_Weight terms))))
        (af_PodAffinity a) (af_PodAntiAffinity a)))
  end.

(** [l[i] = l[len(l)-1]; l = l[:len(l)-1]] *)
Definition swapRemove {A} (i : nat) (l : list A) : list A :=
  match last l with
  | Some x => take (length l - 1) (<[i := x]> l)
  | None => l
  end.

Fixpoint findIndex {A} (test : A → bool) (l : list A) : option nat :=
  match l with
  | [] => None
  | x :: rest => if test x then Some 0%nat else S <$> findIndex test rest
  end.

Definition removeTopologySpreadScheduleAnyway pod : option Pod :=
  i ← findIndex (λ tsc, bool_decide (ts_WhenUnsatisfiable tsc = ScheduleAnyway)) (pod_TopologySpreadConstraints pod);
  Some (with_scheduling pod (pod_Affinity pod) (pod_Tolerations pod)
    (swapRemove i (pod_TopologySpreadConstraints pod))).

Definition preferNoScheduleToleration : Toleration := mkToleration "" TolExists "" PreferNoSchedule.

Definition toleratePreferNoScheduleTaints pod : option Pod :=
  if existsb (λ t, MatchToleration t preferNoScheduleToleration) (pod_Tolerations pod) then None
  else Some (with_scheduling pod (pod_Affinity pod) (pod_Tolerations pod ++ [preferNoScheduleToleration])
         (pod_TopologySpreadConstraints pod)).

Definition relaxations (ToleratePreferNoSchedule : bool) : list (Pod → option Pod) :=
  [removeRequiredNodeAffinityTerm; removePreferredPodAffinityTerm; removePreferredPodAntiAffinityTerm;
   removePreferredNodeAffinityTerm; removeTopologySpreadScheduleAnyway] ++
  (if ToleratePreferNoSchedule then [toleratePreferNoScheduleTaints] else []).

(** The pod after the first relaxation that applies; [None] when none does. *)
Definition Relax (ToleratePreferNoSchedule : bool) pod : option Pod :=
  foldr (λ relaxFunc rest, match relaxFunc pod with Some p => Some p | None => rest end) None
    (relaxations ToleratePreferNoSchedule).
End preferences.

Arguments heaviestFirst : simpl never.

(** * Theory *)

Section theory.
Context `{TolerationLaws}.
Implicit Types (pod : Pod).

Definition requiredTerms pod : list NodeSelectorTerm :=
  default [] ((pod_Affinity pod ≫= af_NodeAffinity) ≫= na_Required).
Definition preferredNodeTerms pod : list PreferredSchedulingTerm :=
  default [] (na_Preferred <$> (pod_Affinity pod ≫= af_NodeAffinity)).
Definition podAffinityOf pod : option PodAffinity := pod_Affinity pod ≫= af_PodAffinity.
Definition podAntiAffinityOf pod : option PodAffinity := pod_Affinity pod ≫= af_PodAntiAffinity.
Definition preferredOf (pa : option PodAffinity) : list WeightedPodAffinityTerm := default [] (paff_Preferred <$> pa).
Definition requiredOf (pa : option PodAffinity) : list PodAffinityTerm := default [] (paff_Required <$> pa).
Definition tolerated pod : bool := existsb (λ t, MatchToleration t preferNoScheduleToleration) (pod_Tolerations pod).
Definition hardSpread pod : list TopologySpreadConstraint :=
  List.filter (λ tsc, negb (bool_decide (ts_WhenUnsatisfiable tsc = ScheduleAnyway))) (pod_TopologySpreadConstraints pod).

(** How many relaxations can be left. *)
Definition softness pod : nat :=
  length (requiredTerms pod) + length (preferredOf (podAffinityOf pod)) + length (preferredOf (podAntiAffinityOf pod)) +
  length (preferredNodeTerms pod) + length (pod_TopologySpreadConstraints pod) + (if tolerated pod then 0 else 1).

Lemma length_heaviestFirst {A} (w : A → Z) l : length (heaviestFirst w l) = length l.
Proof. unfold heaviestFirst. by rewrite sort_stable_perm. Qed.

Lemma findIndex_Some {A} (test : A → bool) l i :
  findIndex test l = Some i → ∃ x before after, l = before ++ x :: after ∧ length before = i ∧ test x = true.
Proof.
  revert i. induction l as [|y l IH]; intros i; simpl; [done|]. destruct (test y) eqn:Hy.
  - intros [= <-]. by exists y, [], l.
  - intros (j & Hj & ->)%fmap_Some. destruct (IH j Hj) as (x & b & a & -> & <- & Hx). by exists x, (y :: b), a.
Qed.

Lemma findIndex_None {A} (test : A → bool) l : findIndex test l = None ↔ ∀ x, x ∈ l → test x = false.
Proof.
  induction l as [|y l IH]; simpl; [split; [by intros _ x ?%not_elem_of_nil|done]|].
  setoid_rewrite elem_of_cons. destruct (test y) eqn:Hy.
  - split; [done|]. intros Hall. rewrite (Hall y (or_introl eq_refl)) in Hy. done.
  - rewrite fmap_None, IH. split; [|by auto]. intros Hall x [->|Hx]; auto.
Qed.

(** Removing by swapping drops the one element. *)
Lemma swapRemove_perm {A} (before after : list A) x :
  x :: swapRemove (length before) (before ++ x :: after) ≡ₚ before ++ x :: after.
Proof.
  unfold swapRemove. rewrite last_app_cons.
  destruct (last (x :: after)) as [z|] eqn:Hz; [|by apply last_None in Hz].
  rewrite insert_app_r_alt, Nat.sub_diag by lia. cbn [insert list_insert].
  destruct after as [|y after].
  - rewrite length_app. simpl. rewrite Nat.add_sub, take_app_length. by rewrite Permutation_app_comm.
  - rewrite last_cons_cons in Hz. apply last_Some in Hz as [l Hl]. rewrite Hl.
    rewrite length_app. cbn [length]. rewrite length_app. cbn [length].
    replace (length before + S (length l + 1) - 1)%nat with (length (before ++ z :: l)) by (rewrite length_app; simpl; lia).
    rewrite (app_comm_cons l [z] z), (assoc_L (++)), take_app_length.
    rewrite <- !Permutation_middle. by rewrite app_nil_r.
Qed.

Lemma swapRemove_length {A} (before after : list A) x :
  S (length (swapRemove (length before) (before ++ x :: after))) = length (before ++ x :: after).
Proof. exact (Permutation_length (swapRemove_perm before after x)). Qed.

(** What every relaxation leaves alone: the pod's identity and everything a
    scheduler must not give up. *)
Definition hard_kept pod pod' : Prop :=
  (pod_Namespace pod', pod_Name pod', pod_UID pod') = (pod_Namespace pod, pod_Name pod, pod_UID pod) ∧
  pod_NodeSelector pod' = pod_NodeSelector pod ∧ pod_Labels pod' = pod_Labels pod ∧
  requiredOf (podAffinityOf pod') = requiredOf (podAffinityOf pod) ∧
  requiredOf (podAntiAffinityOf pod') = requiredOf (podAntiAffinityOf pod) ∧
  hardSpread pod' ≡ₚ hardSpread pod ∧
  suffix (requiredTerms pod') (requiredTerms pod) ∧
  (requiredTerms pod ≠ [] → requiredTerms pod' ≠ []) ∧
  (pod_Tolerations pod' = pod_Tolerations pod ∨
   pod_Tolerations pod' = pod_Tolerations pod ++ [preferNoScheduleToleration]).

(** One relaxation step: it shrinks what is soft and keeps what is hard. *)
Definition step_ok pod pod' : Prop := (softness pod' < softness pod)%nat ∧ hard_kept pod pod'.

Lemma length_tail_heaviest {A} (w : A → Z) x l : length (tail (heaviestFirst w (x :: l))) = length l.
Proof. pose proof (length_heaviestFirst w (x :: l)). destruct (heaviestFirst w (x :: l)); simpl in *; lia. Qed.

(** A pod with nothing of an optional part has none of its terms. *)
Ltac relax_step := unfold step_ok, hard_kept, softness, hardSpread, requiredTerms, preferredNodeTerms, preferredOf, requiredOf,
  podAffinityOf, podAntiAffinityOf, tolerated; simpl.

Lemma removeRequired_ok pod pod' : removeRequiredNodeAffinityTerm pod = Some pod' → step_ok pod pod'.
Proof.
  unfold removeRequiredNodeAffinityTerm. intros Hr.
  destruct (pod_Affinity pod) as [a|] eqn:Ha; [|done]. simpl in Hr.
  destruct (af_NodeAffinity a) as [na|] eqn:Hna; [|done]. simpl in Hr.
  destruct (na_Required na) as [[|t1 [|t2 terms]]|] eqn:Hreq; try done. simpl in Hr. injection Hr as <-.
  relax_step. rewrite Ha. simpl. rewrite Hna. simpl. rewrite Hreq. simpl. split; [lia|].
  split_and!; try done; [by exists [t1]|by left].
Qed.

Lemma removePodAffinity_ok pod pod' : removePreferredPodAffinityTerm pod = Some pod' → step_ok pod pod'.
Proof.
  unfold removePreferredPodAffinityTerm. intros Hr.
  destruct (pod_Affinity pod) as [a|] eqn:Ha; [|done]. simpl in Hr.
  destruct (af_PodAffinity a) as [pa|] eqn:Hpa; [|done]. simpl in Hr.
  destruct (paff_Preferred pa) as [|w ws] eqn:Hp; [done|]. injection Hr as <-.
  relax_step. rewrite Ha. simpl. rewrite Hpa. simpl. rewrite Hp, length_tail_heaviest. simpl. split; [lia|].
  split_and!; try done. by left.
Qed.

Lemma removePodAntiAffinity_ok pod pod' : removePreferredPodAntiAffinityTerm pod = Some pod' → step_ok pod pod'.
Proof.
  unfold removePreferredPodAntiAffinityTerm. intros Hr.
  destruct (pod_Affinity pod) as [a|] eqn:Ha; [|done]. simpl in Hr.
  destruct (af_PodAntiAffinity a) as [pa|] eqn:Hpa; [|done]. simpl in Hr.
  destruct (paff_Preferred pa) as [|w ws] eqn:Hp; [done|]. injection Hr as <-.
  relax_step. rewrite Ha. simpl. rewrite Hpa. simpl. rewrite Hp, length_tail_heaviest. simpl. split; [lia|].
  split_and!; try done. by left.
Qed.

Lemma removeNodeAffinity_ok pod pod' : removePreferredNodeAffinityTerm pod = Some pod' → step_ok pod pod'.
Proof.
  unfold removePreferredNodeAffinityTerm. intros Hr.
  destruct (pod_Affinity pod) as [a|] eqn:Ha; [|done]. simpl in Hr.
  destruct (af_NodeAffinity a) as [na|] eqn:Hna; [|done]. simpl in Hr.
  destruct (na_Preferred na) as [|w ws] eqn:Hp; [done|]. injection Hr as <-.
  relax_step. rewrite Ha. simpl. rewrite Hna. simpl. rewrite Hp, length_tail_heaviest. simpl. split; [lia|].
  split_and!; try done. by left.
Qed.

Lemma removeSpread_ok pod pod' : removeTopologySpreadScheduleAnyway pod = Some pod' → step_ok pod pod'.
Proof.
  unfold removeTopologySpreadScheduleAnyway. intros Hr.
  destruct (findIndex _ _) as [i|] eqn:Hi; [|done]. simpl in Hr. injection Hr as <-.
  apply findIndex_Some in Hi as (x & b & a & Hl & <- & Hx). apply bool_decide_eq_true in Hx.
  relax_step. rewrite Hl. pose proof (swapRemove_length b a x). split; [lia|].
  split_and!; try done; [|by left].
  rewrite <- (filter_perm _ _ _ (swapRemove_perm b a x)). cbn [List.filter].
  by rewrite bool_decide_eq_true_2.
Qed.

Lemma tolerate_ok pod pod' : toleratePreferNoScheduleTaints pod = Some pod' → step_ok pod pod'.
Proof.
  unfold toleratePreferNoScheduleTaints. intros Hr. destruct (existsb _ _) eqn:He; [done|]. injection Hr as <-.
  relax_step. rewrite He, existsb_app. simpl. rewrite MatchToleration_refl, orb_true_r. split; [lia|].
  split_and!; try done. by right.
Qed.

Lemma Relax_step tol pod pod' : Relax tol pod = Some pod' → step_ok pod pod'.
Proof.
  unfold Relax, relaxations. rewrite foldr_app. cbn [foldr]. repeat case_goal; try (intros [= <-]);
    eauto using removeRequired_ok, removePodAffinity_ok, removePodAntiAffinity_ok, removeNodeAffinity_ok, removeSpread_ok.
  destruct tol; cbn [foldr]; [|done]. destruct (toleratePreferNoScheduleTaints pod) eqn:Ht; [|done].
  intros [= <-]. by apply tolerate_ok.
Qed.

(** Relaxing invents no node affinity term. *)
Lemma Relax_terms tol pod pod' :
  Relax tol pod = Some pod' →
  (∀ t, t ∈ requiredTerms pod' → t ∈ requiredTerms pod) ∧ (∀ t, t ∈ preferredNodeTerms pod' → t ∈ preferredNodeTerms pod).
Proof.
  assert (∀ (X : Type) (l : list X) x, x ∈ tail l → x ∈ l) as Htail.
  { intros X [|y l] x Hx; simpl in *; [done|]. by apply list_elem_of_further. }
  assert (∀ f, f ∈ relaxations tol → f pod = Some pod' →
    (∀ t, t ∈ requiredTerms pod' → t ∈ requiredTerms pod) ∧ (∀ t, t ∈ preferredNodeTerms pod' → t ∈ preferredNodeTerms pod)) as Hf.
  { intros f Hin Hrun. unfold relaxations in Hin.
    assert (f = removeRequiredNodeAffinityTerm ∨ f = removePreferredPodAffinityTerm ∨ f = removePreferredPodAntiAffinityTerm ∨
      f = removePreferredNodeAffinityTerm ∨ f = removeTopologySpreadScheduleAnyway ∨ f = toleratePreferNoScheduleTaints) as Hcase.
    { rewrite elem_of_app, !elem_of_cons, elem_of_nil in Hin. destruct tol; rewrite ?elem_of_cons, ?elem_of_nil in Hin; tauto. }
    unfold requiredTerms, preferredNodeTerms. destruct Hcase as [->|[->|[->|[->|[->| ->]]]]].
    - unfold removeRequiredNodeAffinityTerm in Hrun. destruct (pod_Affinity pod) as [a|]; [|done]. simpl in *.
      destruct (af_NodeAffinity a) as [na|]; [|done]. simpl in *. destruct (na_Required na) as [[|t1 [|t2 ts]]|]; try done.
      injection Hrun as <-. simpl. split; [|done]. intros t Ht. by apply list_elem_of_further.
    - unfold removePreferredPodAffinityTerm in Hrun. destruct (pod_Affinity pod) as [a|]; [|done]. simpl in *.
      destruct (af_PodAffinity a) as [pa|]; [|done]. simpl in *. destruct (paff_Preferred pa); [done|]. by injection Hrun as <-.
    - unfold removePreferredPodAntiAffinityTerm in Hrun. destruct (pod_Affinity pod) as [a|]; [|done]. simpl in *.
      destruct (af_PodAntiAffinity a) as [pa|]; [|done]. simpl in *. destruct (paff_Preferred pa); [done|]. by injection Hrun as <-.
    - unfold removePreferredNodeAffinityTerm in Hrun. destruct (pod_Affinity pod) as [a|]; [|done]. simpl in *.
      destruct (af_NodeAffinity a) as [na|]; [|done]. simpl in *.
      destruct (na_Preferred na) as [|t1 ts] eqn:Hp; [done|]. injection Hrun as <-. simpl. split; [done|].
      intros t Ht%Htail. unfold heaviestFirst in Ht. by rewrite sort_stable_perm in Ht.
    - unfold removeTopologySpreadScheduleAnyway in Hrun. destruct (findIndex _ _); [|done]. by injection Hrun as <-.
    - unfold toleratePreferNoScheduleTaints in Hrun. destruct (existsb _ _); [done|]. by injection Hrun as <-. }
  unfold Relax. revert Hf. induction (relaxations tol) as [|f fs IH]; intros Hf; cbn [foldr]; [done|].
  destruct (f pod) as [p1|] eqn:Hfp.
  - intros [= ->]. apply (Hf f); [apply list_elem_of_here|done].
  - intros Hrun. apply IH; [|done]. intros g Hg. by apply Hf, list_elem_of_further.
Qed.

(** Each relaxation makes progress and gives up nothing required: it strictly
    lowers the number of soft constraints left, and keeps the pod's identity,
    labels and node selector, its required pod affinity and anti-affinity, its
    DoNotSchedule spread constraints, and at least one of its required node
    affinity terms; tolerations are only added to, by the one for
    PreferNoSchedule taints. *)
Theorem Relax_sound tol pod pod' (Hr : Relax tol pod = Some pod') :
  (softness pod' < softness pod)%nat ∧ hard_kept pod pod'.
Proof. by apply (Relax_step tol). Qed.

(** [Relax] gives up only when nothing is left to relax: it returns no pod
    exactly when the pod has at most one required node affinity term, no
    preferred terms, no ScheduleAnyway spread constraint and, if tolerations may
    be added, already tolerates PreferNoSchedule taints. *)
Theorem Relax_exhausted tol pod :
  Relax tol pod = None ↔
  (length (requiredTerms pod) <= 1)%nat ∧ preferredOf (podAffinityOf pod) = [] ∧
  preferredOf (podAntiAffinityOf pod) = [] ∧ preferredNodeTerms pod = [] ∧
  (∀ tsc, tsc ∈ pod_TopologySpreadConstraints pod → ts_WhenUnsatisfiable tsc = DoNotSchedule) ∧
  (tol = true → tolerated pod = true).
Proof.
  assert (removeRequiredNodeAffinityTerm pod = None ↔ (length (requiredTerms pod) <= 1)%nat) as H1.
  { unfold removeRequiredNodeAffinityTerm, requiredTerms. destruct (pod_Affinity pod) as [a|]; simpl; [|split; [lia|done]].
    destruct (af_NodeAffinity a) as [na|]; simpl; [|split; [lia|done]].
    destruct (na_Required na) as [[|t1 [|t2 ts]]|]; simpl; split; done || lia. }
  assert (removePreferredPodAffinityTerm pod = None ↔ preferredOf (podAffinityOf pod) = []) as H2.
  { unfold removePreferredPodAffinityTerm, preferredOf, podAffinityOf. destruct (pod_Affinity pod) as [a|]; simpl; [|done].
    destruct (af_PodAffinity a) as [pa|]; simpl; [|done]. by destruct (paff_Preferred pa). }
  assert (removePreferredPodAntiAffinityTerm pod = None ↔ preferredOf (podAntiAffinityOf pod) = []) as H3.
  { unfold removePreferredPodAntiAffinityTerm, preferredOf, podAntiAffinityOf.
    destruct (pod_Affinity pod) as [a|]; simpl; [|done].
    destruct (af_PodAntiAffinity a) as [pa|]; simpl; [|done]. by destruct (paff_Preferred pa). }
  assert (removePreferredNodeAffinityTerm pod = None ↔ preferredNodeTerms pod = []) as H4.
  { unfold removePreferredNodeAffinityTerm, preferredNodeTerms. destruct (pod_Affinity pod) as [a|]; simpl; [|done].
    destruct (af_NodeAffinity a) as [na|]; simpl; [|done]. by destruct (na_Preferred na). }
  assert (removeTopologySpreadScheduleAnyway pod = None ↔
    ∀ tsc, tsc ∈ pod_TopologySpreadConstraints pod → ts_WhenUnsatisfiable tsc = DoNotSchedule) as H5.
  { unfold removeTopologySpreadScheduleAnyway. destruct (findIndex _ _) as [i|] eqn:Hi; simpl.
    - split; [done|]. intros Hall. apply findIndex_Some in Hi as (x & b & a & Hl & _ & Hx).
      apply bool_decide_eq_true in Hx. rewrite (Hall x) in Hx; [done|]. rewrite Hl. set_solver.
    - split; [|done]. intros _ tsc Ht. rewrite findIndex_None in Hi. specialize (Hi tsc Ht).
      apply bool_decide_eq_false in Hi. by destruct (ts_WhenUnsatisfiable tsc). }
  assert (toleratePreferNoScheduleTaints pod = None ↔ tolerated pod = true) as H6.
  { unfold toleratePreferNoScheduleTaints, tolerated. by destruct (existsb _ _). }
  rewrite <- H1, <- H2, <- H3, <- H4, <- H5, <- H6. unfold Relax, relaxations. rewrite foldr_app. cbn [foldr].
  destruct (removeRequiredNodeAffinityTerm pod), (removePreferredPodAffinityTerm pod),
    (removePreferredPodAntiAffinityTerm pod), (removePreferredNodeAffinityTerm pod),
    (removeTopologySpreadScheduleAnyway pod), tol; cbn [foldr];
    destruct (toleratePreferNoScheduleTaints pod); intuition congruence.
Qed.
End theory.

(** * Witnesses *)

(** Tolerations match when they are equal. *)
Definition eqTolerationLib : TolerationLib := {| MatchToleration a b := bool_decide (a = b) |}.

Definition eqTolerationLaws : @TolerationLaws eqTolerationLib.
Proof. constructor. intros t. by apply bool_decide_eq_true. Defined.

Definition spreadPod : Pod :=
  with_scheduling (barePod "default" "a" "a") None []
    [mkTSC 1 "topology.kubernetes.io/zone" ScheduleAnyway None [] None None None; mkTSC 1 "kubernetes.io/hostname" DoNotSchedule None [] None None None].

Definition relaxedPod : Pod :=
  with_scheduling (barePod "default" "a" "a") None [] [mkTSC 1 "kubernetes.io/hostname" DoNotSchedule None [] None None None].

Lemma Relax_sound_witness :
  (@softness eqTolerationLib relaxedPod < @softness eqTolerationLib spreadPod)%nat ∧ hard_kept spreadPod relaxedPod.
Proof.
  apply (@Relax_sound eqTolerationLib eqTolerationLaws true spreadPod relaxedPod). vm_compute. reflexivity.
Defined.
