(* ===== verification/Parallel.v ===== *)
(** * Evaluating candidates in parallel

    Model of [parallelizeUntil] of
    [pkg/controllers/provisioning/scheduling/scheduler.go] and of the two loops
    that use it to find a node for a pod ([addToExistingNode] and
    [addToInflightNode]).  Workers take indices from a channel in order; a
    worker whose work succeeds stops.  The state is the position in the channel,
    what each worker does, and the variables shared under the mutex; a step is
    one action of one worker, so a run is any interleaving. *)

From S2P Require Import Prelude.

(** What a worker is doing: waiting for an index, working on one, returned. *)
Inductive Worker := Idle | Working (i : nat) | Returned.

Record ParState (A : Type) := mkPar {
  nextPiece : nat;          (* the first index still in the channel *)
  workers_ : list Worker;
  shared : A;
}.
Arguments mkPar {A}.
Arguments nextPiece {A}.
Arguments workers_ {A}.
Arguments shared {A}.

Section parallelize.
Context {A : Type} (pieces : nat).
(** [doWorkPiece]: its effect on the shared variables, and whether to go on.
    The shared variables are only touched under the mutex, once per call. *)
Context (doWorkPiece : A → nat → A * bool).

Inductive par_step : ParState A → ParState A → Prop :=
  | par_take n ws a w :
      ws !! w = Some Idle → (n < pieces)%nat →
      par_step (mkPar n ws a) (mkPar (S n) (<[w := Working n]> ws) a)
  | par_drained n ws a w :
      ws !! w = Some Idle → n = pieces →
      par_step (mkPar n ws a) (mkPar n (<[w := Returned]> ws) a)
  | par_finish n ws a w i a' continue :
      ws !! w = Some (Working i) → doWorkPiece a i = (a', continue) →
      par_step (mkPar n ws a) (mkPar n (<[w := if (continue : bool) then Idle else Returned]> ws) a').

(** [if pieces < workers { workers = pieces }], then start the workers. *)
Definition parallelizeUntil (workers : nat) (a : A) : ParState A :=
  mkPar 0 (replicate (if decide (pieces < workers)%nat then pieces else workers) Idle) a.

(** [wg.Wait] returns. *)
Definition par_done (s : ParState A) : Prop := ∀ w, w ∈ workers_ s → w = Returned.
End parallelize.

(** The work of [addToExistingNode] and [addToInflightNode] on candidate [i]:
    [CanAdd] on it returns the updated requirements and the like, or fails.  The
    shared variables are the index chosen so far ([None] for the initial
    [math.MaxInt]) and what [CanAdd] returned for it. *)
Definition tryCandidate {R : Type} (canAdd : nat → option R) (best : option (nat * R)) (i : nat)
    : option (nat * R) * bool :=
  match canAdd i with
  | Some r =>
      match best with
      | Some (idx, _) => if decide (idx <= i)%nat then (best, false) else (Some (i, r), false)
      | None => (Some (i, r), false)
      end
  | None => (best, true)
  end.

(** Existing nodes that are not to be consolidated yet take only pods that are
    pending or leave a node that is being deleted. *)
Definition existingCandidate {R : Type} (isUnderConsolidateAfter : nat → bool) (pending onDeletingNode : bool)
    (canAdd : nat → option R) (i : nat) : option R :=
  if isUnderConsolidateAfter i && (negb pending && negb onDeletingNode) then None else canAdd i.

(** A sequential scan. *)
Definition firstFit {R : Type} (canAdd : nat → option R) (pieces : nat) : option (nat * R) :=
  i ← List.find (λ i, bool_decide (is_Some (canAdd i))) (seq 0 pieces); r ← canAdd i; Some (i, r).

(** * Theory *)

Section theory.
Context {R : Type} (pieces : nat) (canAdd : nat → option R).
Implicit Types (s : ParState (option (nat * R))).

Abbreviation step := (par_step pieces (tryCandidate canAdd)).

(** The outcome of candidate [i] is reflected in the chosen index. *)
Definition settled (best : option (nat * R)) (i : nat) : Prop :=
  canAdd i = None ∨ ∃ b, best = Some b ∧ (b.1 <= i)%nat.

Record par_inv s : Prop := {
  pi_bound : (nextPiece s <= pieces)%nat;
  pi_taken : ∀ i, (i < nextPiece s)%nat → (∃ w, workers_ s !! w = Some (Working i)) ∨ settled (shared s) i;
  pi_best : ∀ b r, shared s = Some (b, r) → (b < nextPiece s)%nat ∧ canAdd b = Some r;
  pi_working : ∀ w i, workers_ s !! w = Some (Working i) → (i < nextPiece s)%nat;
  pi_returned : ∀ w, workers_ s !! w = Some Returned → nextPiece s = pieces ∨ is_Some (shared s);
}.

Lemma settled_try best i j : settled best j → settled (tryCandidate canAdd best i).1 j.
Proof.
  intros [Hf|([b r] & -> & Hb)]; [by left|]. right. unfold tryCandidate. simpl in Hb.
  destruct (canAdd i) as [r'|]; [|by exists (b, r)].
  case_decide; simpl; [by exists (b, r)|exists (i, r')]. simpl. split; [done|lia].
Qed.

Lemma settled_self best i : settled (tryCandidate canAdd best i).1 i.
Proof.
  unfold tryCandidate, settled. destruct (canAdd i) as [r'|] eqn:Hf; [right|by left].
  destruct best as [[b r]|]; [case_decide|]; simpl; eauto.
Qed.

Lemma try_best best i b r :
  (tryCandidate canAdd best i).1 = Some (b, r) → best = Some (b, r) ∨ b = i ∧ canAdd i = Some r.
Proof.
  unfold tryCandidate. destruct (canAdd i) as [r'|]; [|by left].
  destruct best as [[b' r0]|]; [case_decide|]; simpl; intros; simplify_eq; auto.
Qed.

Lemma try_stop best i :
  (tryCandidate canAdd best i).2 = false → is_Some (tryCandidate canAdd best i).1.
Proof.
  unfold tryCandidate. destruct (canAdd i); [|done]. destruct best as [[b r0]|]; [case_decide|]; simpl; eauto.
Qed.

Lemma try_some best i : is_Some best → is_Some (tryCandidate canAdd best i).1.
Proof.
  intros [[b r0] ->]. unfold tryCandidate. destruct (canAdd i); [case_decide|]; simpl; eauto.
Qed.

Lemma par_step_inv s s' : par_inv s → step s s' → par_inv s'.
Proof.
  intros [Hb Ht Hbest Hwork Hret] Hs.
  destruct Hs as [n ws a w Hw Hn|n ws a w Hw Hn|n ws a w i a' continue Hw Hrun]; simpl in *.
  - split; simpl.
    + lia.
    + intros i Hi. destruct (decide (i = n)) as [->|Hne].
      * left. exists w. apply list_lookup_insert_eq. by eapply lookup_lt_Some.
      * destruct (Ht i) as [(w' & Hw')|?]; [lia| |by right]. left. exists w'.
        rewrite list_lookup_insert_ne; [done|]. intros ->. congruence.
    + intros b r Hbb. destruct (Hbest b r Hbb). split; [lia|done].
    + intros w' i Hi. apply list_lookup_insert_Some in Hi as [(_ & [= ->] & _)|(_ & Hi)]; [lia|].
      specialize (Hwork w' i Hi). lia.
    + intros w' Hi. apply list_lookup_insert_Some in Hi as [(_ & ? & _)|(_ & Hi)]; [done|].
      destruct (Hret w' Hi); [lia|by right].
  - split; simpl; try done.
    + intros i Hi. destruct (Ht i Hi) as [(w' & Hw')|?]; [|by right]. left. exists w'.
      rewrite list_lookup_insert_ne; [done|]. intros ->. congruence.
    + intros w' i Hi. apply list_lookup_insert_Some in Hi as [(_ & ? & _)|(_ & Hi)]; [done|by eapply Hwork].
    + intros w' Hi. by left.
  - assert (a' = (tryCandidate canAdd a i).1) as -> by (by rewrite Hrun).
    assert (continue = (tryCandidate canAdd a i).2) as -> by (by rewrite Hrun). clear Hrun.
    split; simpl.
    + done.
    + intros j Hj. destruct (Ht j Hj) as [(w' & Hw')|Hset]; [|right; by apply settled_try].
      destruct (decide (w' = w)) as [->|Hne].
      * right. rewrite Hw in Hw'. injection Hw' as <-. apply settled_self.
      * left. exists w'. by rewrite list_lookup_insert_ne.
    + intros b r Hbb. apply try_best in Hbb as [Ha|[-> Hf]]; [by apply Hbest|]. split; [by eapply Hwork|done].
    + intros w' j Hj. apply list_lookup_insert_Some in Hj as [(_ & Hj & _)|(_ & Hj)]; [|by eapply Hwork].
      by destruct (tryCandidate canAdd a i).2.
    + intros w' Hj. apply list_lookup_insert_Some in Hj as [(_ & Hj & _)|(_ & Hj)].
      * right. apply try_stop. by destruct (tryCandidate canAdd a i).2.
      * destruct (Hret w' Hj) as [?|?]; [by left|right; by apply try_some].
Qed.

Lemma par_init_inv workers : par_inv (parallelizeUntil pieces workers None).
Proof.
  split; simpl; try done; try lia.
  - intros w i Hi. apply lookup_replicate in Hi as [? _]. done.
  - intros w Hi. apply lookup_replicate in Hi as [? _]. done.
Qed.

Lemma find_least n k (p : nat → bool) :
  (∀ b, p b = true → (n <= b < n + k)%nat → (∀ i, (n <= i < b)%nat → p i = false) → List.find p (seq n k) = Some b) ∧
  ((∀ i, (n <= i < n + k)%nat → p i = false) → List.find p (seq n k) = None).
Proof.
  revert n. induction k as [|k IH]; intros n; simpl; [split; [intros; lia|done]|].
  destruct (IH (S n)) as [IH1 IH2]. split.
  - intros b Hb Hr Hleast. destruct (decide (b = n)) as [->|Hne]; [by rewrite Hb|].
    rewrite (Hleast n) by lia. apply IH1; [done|lia|]. intros i Hi. apply Hleast. lia.
  - intros Hall. rewrite (Hall n) by lia. apply IH2. intros i Hi. apply Hall. lia.
Qed.

Lemma firstFit_some b r :
  canAdd b = Some r → (b < pieces)%nat → (∀ i, (i < b)%nat → canAdd i = None) → firstFit canAdd pieces = Some (b, r).
Proof.
  intros Hb Hr Hleast. unfold firstFit.
  destruct (find_least 0 pieces (λ i, bool_decide (is_Some (canAdd i)))) as [Hl _]. rewrite (Hl b).
  - simpl. by rewrite Hb.
  - apply bool_decide_eq_true. by exists r.
  - lia.
  - intros i Hi. apply bool_decide_eq_false. rewrite Hleast by lia. by intros [? ?].
Qed.

Lemma firstFit_none : (∀ i, (i < pieces)%nat → canAdd i = None) → firstFit canAdd pieces = None.
Proof.
  intros Hall. unfold firstFit.
  destruct (find_least 0 pieces (λ i, bool_decide (is_Some (canAdd i)))) as [_ Hl]. rewrite Hl; [done|].
  intros i Hi. apply bool_decide_eq_false. rewrite Hall by lia. by intros [? ?].
Qed.

Lemma firstFit_found b r :
  firstFit canAdd pieces = Some (b, r) →
  (b < pieces)%nat ∧ canAdd b = Some r ∧ ∀ i, (i < b)%nat → canAdd i = None.
Proof.
  unfold firstFit. intros (i & Hf & (r' & Hr & [= <- <-])%bind_Some)%bind_Some.
  assert (∀ n k, List.find (λ i, bool_decide (is_Some (canAdd i))) (seq k n) = Some i →
    (k <= i < k + n)%nat ∧ ∀ j, (k <= j < i)%nat → canAdd j = None) as Hfind.
  { clear. induction n as [|n IH]; intros k; cbn [seq List.find]; [done|]. case_bool_decide as Hk.
    - intros [= ->]. split; [lia|]. intros j Hj. lia.
    - intros [Hb Hn]%IH. split; [lia|]. intros j Hj. destruct (decide (j = k)) as [->|]; [|apply Hn; lia].
      by apply eq_None_not_Some. }
  destruct (Hfind pieces 0%nat Hf) as [Hb Hn]. split_and!; [lia|done|]. intros j Hj. apply Hn. lia.
Qed.

Lemma par_run_inv workers s :
  rtc step (parallelizeUntil pieces workers None) s →
  par_inv s ∧ length (workers_ s) = (if decide (pieces < workers)%nat then pieces else workers).
Proof.
  intros Hrun. assert (par_inv (parallelizeUntil pieces workers None) ∧
    length (workers_ (parallelizeUntil pieces workers (None : option (nat * R)))) = (if decide (pieces < workers)%nat then pieces else workers))
    as Hinit. { split; [apply par_init_inv|]. simpl. by rewrite length_replicate. }
  revert Hinit. induction Hrun as [|s0 s1 s2 Hs _ IH]; [done|]. intros [Hinv Hlen]. apply IH.
  split; [by eapply par_step_inv|]. rewrite <- Hlen. destruct Hs; simpl; by rewrite length_insert.
Qed.

(** C36. The parallel search is deterministic.  Whatever the number of workers (at
    least one) and however they interleave, when all of them have returned the
    chosen candidate is the first one the pod can be added to, together with
    what [CanAdd] returned for that very candidate: exactly the outcome of a
    sequential scan in order, and none if no candidate fits. *)
Theorem parallel_first_fit workers s
    (Hw : (0 < workers)%nat) (Hrun : rtc step (parallelizeUntil pieces workers None) s) (Hdone : par_done s) :
  shared s = firstFit canAdd pieces.
Proof.
  apply par_run_inv in Hrun as [[Hb Ht Hbest Hwork Hret] Hlen].
  assert (∀ i, (i < nextPiece s)%nat → settled (shared s) i) as Hset.
  { intros i Hi. destruct (Ht i Hi) as [(w & Hwi)|?]; [|done].
    assert (Working i = Returned) by (by apply Hdone, (list_elem_of_lookup_2 _ w)). done. }
  destruct (shared s) as [[b r]|] eqn:Hsh.
  - destruct (Hbest b r eq_refl) as [Hbn Hbf]. symmetry. apply firstFit_some; [done|lia|]. intros i Hi.
    destruct (Hset i) as [?|([b' r'] & [= <- <-] & ?)]; [lia|done|simpl in *; lia].
  - symmetry. apply firstFit_none. intros i Hi.
    assert (nextPiece s = pieces) as Hn.
    { destruct (workers_ s) as [|w ws] eqn:Hws.
      - simpl in Hlen. case_decide; lia.
      - destruct (Hret 0%nat) as [?|[? ?]]; [|done|done].
        simpl. f_equal. apply Hdone. rewrite Hws. apply list_elem_of_here. }
    destruct (Hset i) as [?|(b & ? & _)]; [lia|done|done].
Qed.

(** ** The search ends *)

Definition workerWeight (w : Worker) : nat := match w with Idle => 1 | Working _ => 2 | Returned => 0 end.
Definition weight s : nat := 2 * (pieces - nextPiece s) + sum_list_with workerWeight (workers_ s).

Lemma sum_insert (ws : list Worker) w x y :
  ws !! w = Some x →
  (sum_list_with workerWeight (<[w := y]> ws) + workerWeight x = sum_list_with workerWeight ws + workerWeight y)%nat.
Proof.
  revert w. induction ws as [|z ws IH]; intros w Hw; [done|]. destruct w as [|w]; simpl in *.
  - injection Hw as ->. lia.
  - specialize (IH w Hw). lia.
Qed.

(** The parallel search ends and does not deadlock: every action of a worker
    lowers a bound that only depends on the candidates and workers left, and as
    long as some worker has not returned, one can act. *)
Theorem parallel_terminates s :
  (∀ s', step s s' → (weight s' < weight s)%nat) ∧
  ((nextPiece s <= pieces)%nat → ¬ par_done s → ∃ s', step s s').
Proof.
  split.
  - intros s' Hs. unfold weight. destruct Hs as [n ws a w Hw Hn|n ws a w Hw Hn|n ws a w i a' continue Hw _]; simpl.
    + pose proof (sum_insert ws w Idle (Working n) Hw) as Hsum. simpl in Hsum. lia.
    + pose proof (sum_insert ws w Idle Returned Hw) as Hsum. simpl in Hsum. lia.
    + pose proof (sum_insert ws w (Working i) (if continue then Idle else Returned) Hw) as Hsum.
      destruct continue; simpl in Hsum; lia.
  - intros Hb Hnd. destruct s as [n ws a]. simpl in *.
    assert (∃ w x, ws !! w = Some x ∧ x ≠ Returned) as (w & x & Hw & Hx).
    { unfold par_done in Hnd. simpl in Hnd. clear Hb. induction ws as [|y ws IH].
      - destruct Hnd. by intros w ?%not_elem_of_nil.
      - destruct y as [|i|]; [by exists 0%nat, Idle|by exists 0%nat, (Working i)|].
        destruct IH as (w & x & Hw & Hx); [|by exists (S w), x].
        intros Hall. apply Hnd. by intros w [->|?]%elem_of_cons; [|apply Hall]. }
    destruct x as [|i|]; [| |done].
    + destruct (decide (n = pieces)) as [->|Hne]; eexists; [by eapply par_drained|eapply par_take; [done|lia]].
    + destruct (tryCandidate canAdd a i) as [a' c] eqn:Hrun. eexists. by eapply par_finish.
Qed.
End theory.

(** * Witnesses *)

Lemma parallel_first_fit_witness :
  Some (1%nat, "a") = firstFit (λ i, if decide (i = 1%nat) then Some "a" else None) 2.
Proof.
  set (canAdd := λ i, if decide (i = 1%nat) then Some "a" else None).
  refine (parallel_first_fit 2 canAdd 1 (mkPar 2 [Returned] (Some (1%nat, "a"))) _ _ _).
  - lia.
  - eapply rtc_l; [exact (par_take 2 _ 0 [Idle] None 0 eq_refl ltac:(lia))|].
    eapply rtc_l; [exact (par_finish 2 (tryCandidate canAdd) 1 [Working 0] None 0 0 None true eq_refl eq_refl)|].
    eapply rtc_l; [exact (par_take 2 _ 1 [Idle] None 0 eq_refl ltac:(lia))|].
    eapply rtc_l; [exact (par_finish 2 (tryCandidate canAdd) 2 [Working 1] None 0 1 (Some (1%nat, "a")) false eq_refl eq_refl)|].
    apply rtc_refl.
  - intros w Hw. apply list_elem_of_singleton in Hw. exact Hw.
Defined.
