(* ===== verification/Requirements.v ===== *)
(** * Requirements: one requirement per label key

    Model of [pkg/scheduling/requirements.go].  The Go type is a map from label
    key to requirement; adding intersects with what is there.  A Go [range] over
    a map is modelled in the enumeration order of the finite map; whether an
    error is returned does not depend on that order, only which one is. *)

From S2P Require Import Prelude Strconv Requirement Kube.

Abbreviation Requirements := (gmap string Requirement).

(** The tables map every alias to a key that is not itself an alias. *)
Class LabelTablesOk {LT : LabelTables} : Prop :=
  normalizeKey_idemp : ∀ k, normalizeKey (normalizeKey k) = normalizeKey k.

Inductive podRequirementType := podRequirementTypeAll | podRequirementTypeRequiredOnly.

(** [badKeyError]: the key, the incoming and the existing requirement. *)
Record badKeyError := mkBadKey {
  bk_key : string;
  bk_incoming : Requirement;
  bk_existing : Requirement;
}.

(** The errors of [Compatible]: a label the receiver does not define, or the
    keys whose requirements do not overlap. *)
Inductive CompatError :=
| UndefinedLabel (key : string)
| BadKeys (errs : list badKeyError).

Section requirements.
Context {LT : LabelTables}.
Implicit Types (r q : Requirement) (m n : Requirements).

(** ** Building *)

Definition Add1 m (requirement : Requirement) : Requirements :=
  let requirement' :=
    match m !! Key requirement with
    | Some existing => Intersection requirement existing
    | None => requirement
    end in
  <[Key requirement' := requirement']> m.

Definition Add m (requirements : list Requirement) : Requirements :=
  foldl Add1 m requirements.

Definition NewRequirements (requirements : list Requirement) : Requirements :=
  Add ∅ requirements.

(** [Requirements.Values], in the map's enumeration order. *)
Definition ReqValues m : list Requirement := (map_to_list m).*2.

Definition NewLabelRequirements (labels : gmap string string) : Requirements :=
  foldl (λ m kv, Add1 m (NewRequirement kv.1 OpIn [kv.2])) ∅ (map_to_list labels).

(** The loop shared by the two constructors from selector terms; [None] is the
    panic of a comparison without an operand. *)
Fixpoint addSelectors m (requirements : list NodeSelectorRequirementWithMinValues)
    : option Requirements :=
  match requirements with
  | [] => Some m
  | x :: rest =>
      if NewRequirementWithFlexibility_panics (nsr_operator x) (nsr_values x) then None
      else addSelectors
        (Add1 m (NewRequirementWithFlexibility (nsr_key x) (nsr_operator x)
           (nsr_minValues x) (nsr_values x))) rest
  end.

Definition NewNodeSelectorRequirementsWithMinValues
    (requirements : list NodeSelectorRequirementWithMinValues) : option Requirements :=
  addSelectors ∅ requirements.

Definition NewNodeSelectorRequirements (requirements : list NodeSelectorExpr)
    : option Requirements :=
  addSelectors ∅
    ((λ e, mkNSR (ex_Key e) (ex_Operator e) (ex_Values e) None) <$> requirements).

(** [sort.Slice] with the heaviest preference first is not stable; [sortDesc]
    is whatever order it leaves. *)
Definition newPodRequirements
    (sortDesc : list PreferredSchedulingTerm → list PreferredSchedulingTerm)
    (pod : Pod) (typ : podRequirementType) : option Requirements :=
  let requirements := NewLabelRequirements (pod_NodeSelector pod) in
  match pod_Affinity pod ≫= af_NodeAffinity with
  | None => Some requirements
  | Some na =>
      requirements ←
        match typ, na_Preferred na with
        | podRequirementTypeAll, _ :: _ =>
            heaviest ← head (sortDesc (na_Preferred na));
            pref ← NewNodeSelectorRequirements (nt_MatchExpressions (pt_Preference heaviest));
            Some (Add requirements (ReqValues pref))
        | _, _ => Some requirements
        end;
      match na_Required na with
      | Some (term :: _) =>
          req ← NewNodeSelectorRequirements (nt_MatchExpressions term);
          Some (Add requirements (ReqValues req))
      | _ => Some requirements
      end
  end.

Definition NewPodRequirements sortDesc pod := newPodRequirements sortDesc pod podRequirementTypeAll.
Definition NewStrictPodRequirements sortDesc pod :=
  newPodRequirements sortDesc pod podRequirementTypeRequiredOnly.

Definition HasPreferredNodeAffinity (p : option Pod) : bool :=
  match (p ≫= pod_Affinity) ≫= af_NodeAffinity with
  | Some na => negb (bool_decide (length (na_Preferred na) = 0%nat))
  | None => false
  end.

(** ** Reading *)

Definition Keys m : gset string := dom m.

Definition HasKey m (key : string) : bool :=
  match m !! key with Some _ => true | None => false end.

Definition Get m (key : string) : Requirement :=
  match m !! key with
  | None => NewRequirement key OpExists []
  | Some r => r
  end.

Definition HasMinValues m : bool :=
  existsb (λ r, bool_decide (MinValues r ≠ None)) (ReqValues m).

Definition NodeSelectorRequirements m : list NodeSelectorRequirementWithMinValues :=
  flat_map (λ req,
    match gte req, lte req with
    | Some _, Some _ => BoundedNodeSelectorRequirements req
    | _, _ => [NodeSelectorRequirement req]
    end) (ReqValues m).

(** ** Compatibility *)

(** Scans the smaller map and probes the larger. *)
Definition intersectKeys m (rhs : Requirements) : gset string :=
  let '(smallest, largest) :=
    if bool_decide (size rhs < size m)%nat then (rhs, m) else (m, rhs) in
  list_to_set (filter (λ key, is_Some (largest !! key)) (map_to_list smallest).*1).

Definition excludesPresence (op : NodeSelectorOperator) : bool :=
  match op with OpNotIn | OpDoesNotExist => true | _ => false end.

(** One iteration of [Intersects]: [Some] is the error appended for the key. *)
Definition intersectsKey m (requirements : Requirements) (key : string) : option badKeyError :=
  let existing := Get m key in
  let incoming := Get requirements key in
  if HasIntersection existing incoming then None
  else if excludesPresence (Operator incoming) && excludesPresence (Operator existing)
  then None
  else Some (mkBadKey key incoming existing).

Definition Intersects m (requirements : Requirements) : option CompatError :=
  match omap (intersectsKey m requirements) (elements (intersectKeys m requirements)) with
  | [] => None
  | errs => Some (BadKeys errs)
  end.

Definition undefinedKey m (requirements : Requirements) (allowUndefined : gset string)
    (key : string) : bool :=
  negb (bool_decide (key ∈ allowUndefined)) &&
  negb (HasKey m key || excludesPresence (Operator (Get requirements key))).

Definition Compatible m (requirements : Requirements) (allowUndefined : gset string)
    : option CompatError :=
  match List.find (undefinedKey m requirements allowUndefined) (map_to_list requirements).*1 with
  | Some key => Some (UndefinedLabel key)
  | None => Intersects m requirements
  end.

Definition IsCompatible m (requirements : Requirements) (allowUndefined : gset string) : bool :=
  match Compatible m requirements allowUndefined with None => true | Some _ => false end.
End requirements.

(** * Theory *)

Section theory.
Context {LT : LabelTables} {LTok : LabelTablesOk}.
Implicit Types (r q : Requirement) (m n : Requirements) (k v : string).

(** ** Invariant: each entry sits under its own normalised key *)

Definition entry_ok k r : Prop := Key r = k ∧ normalizeKey k = k ∧ wf r.
Definition Requirements_wf m : Prop := map_Forall entry_ok m.

Lemma Requirements_wf_lookup m k r :
  Requirements_wf m → m !! k = Some r → Key r = k ∧ normalizeKey k = k ∧ wf r.
Proof. intros Hm Hk. exact (Hm k r Hk). Qed.

Lemma Key_Intersection r q : normalizeKey (Key r) = Key r → Key (Intersection r q) = Key r.
Proof. intros Hn. unfold Intersection. by destruct (boundsCross _ _). Qed.

(** A requirement that may be added: well formed, under a normalised key. *)
Definition addable r : Prop := normalizeKey (Key r) = Key r ∧ wf r.

Lemma Add1_lookup m r k :
  addable r →
  Add1 m r !! k =
  if decide (k = Key r) then
    Some (match m !! k with Some e => Intersection r e | None => r end)
  else m !! k.
Proof.
  intros [Hn _]. unfold Add1. destruct (m !! Key r) as [e|] eqn:He.
  - rewrite Key_Intersection by done. rewrite lookup_insert.
    repeat case_decide; simplify_eq; try done. by rewrite He.
  - rewrite lookup_insert. repeat case_decide; simplify_eq; try done. by rewrite He.
Qed.

Lemma Add1_wf m r : Requirements_wf m → addable r → Requirements_wf (Add1 m r).
Proof.
  intros Hm Hr k q. rewrite Add1_lookup by done. destruct Hr as [Hn Hr].
  case_decide as Hk; [subst k|by apply Hm]. intros [= <-].
  destruct (m !! Key r) as [e|] eqn:He; [|done].
  split_and!; [by apply Key_Intersection|done|].
  apply Intersection_wf; [done|]. by apply (Requirements_wf_lookup m (Key r)).
Qed.

Lemma Add_wf m l : Requirements_wf m → Forall addable l → Requirements_wf (Add m l).
Proof.
  intros Hm Hl. revert m Hm. induction Hl as [|r l Hr Hl IH]; intros m Hm; [done|].
  apply IH, Add1_wf; done.
Qed.

Lemma NewRequirementWithFlexibility_addable key op mv vals :
  addable (NewRequirementWithFlexibility key op mv vals).
Proof.
  split; [|apply NewRequirementWithFlexibility_wf].
  destruct op; simpl; try case_goal; simpl; by rewrite ?normalizeKey_idemp.
Qed.

Lemma ReqValues_addable m : Requirements_wf m → Forall addable (ReqValues m).
Proof.
  intros Hm. apply Forall_forall. intros r ([k r'] & -> & Hin)%list_elem_of_fmap.
  apply elem_of_map_to_list in Hin.
  destruct (Requirements_wf_lookup m k r' Hm Hin) as (<- & ? & ?). done.
Qed.

Lemma NewLabelRequirements_wf labels : Requirements_wf (NewLabelRequirements labels).
Proof.
  unfold NewLabelRequirements. assert (Requirements_wf ∅) as H by apply map_Forall_empty.
  revert H. generalize (∅ : Requirements).
  induction (map_to_list labels) as [|kv l IH]; intros m Hm; [done|].
  cbn [foldl]. apply IH, Add1_wf; [done|apply NewRequirementWithFlexibility_addable].
Qed.

Lemma addSelectors_wf l m m' :
  Requirements_wf m → addSelectors m l = Some m' → Requirements_wf m'.
Proof.
  revert m. induction l as [|x l IH]; simpl; intros m Hm; [by intros [= <-]|].
  case_goal; [done|]. apply IH, Add1_wf; [done|].
  apply NewRequirementWithFlexibility_addable.
Qed.

Lemma newPodRequirements_wf sortDesc pod typ m :
  newPodRequirements sortDesc pod typ = Some m → Requirements_wf m.
Proof.
  unfold newPodRequirements. set (base := NewLabelRequirements _).
  assert (Requirements_wf base) as Hb by apply NewLabelRequirements_wf.
  destruct (pod_Affinity pod ≫= af_NodeAffinity) as [na|]; [|by intros [= <-]].
  assert (∀ exprs n n', Requirements_wf n →
    (req ← NewNodeSelectorRequirements exprs; Some (Add n (ReqValues req))) = Some n' →
    Requirements_wf n') as Hstep.
  { intros exprs n n' Hn (req & Hreq & [= <-])%bind_Some.
    apply Add_wf, ReqValues_addable; [done|].
    eapply addSelectors_wf; [apply map_Forall_empty|done]. }
  intros (n & Hn & Hm)%bind_Some.
  assert (Requirements_wf n) as Hnw.
  { destruct typ, (na_Preferred na); simplify_eq; try done.
    apply bind_Some in Hn as (t & _ & Hn). eauto. }
  destruct (na_Required na) as [[|t ts]|]; simplify_eq; eauto.
Qed.

(** ** What a set of requirements allows for one key *)

Definition allows m k v : bool :=
  match m !! k with Some r => Has r v | None => true end.

Lemma Add1_allows m r k v :
  addable r →
  allows (Add1 m r) k v = allows m k v && (negb (bool_decide (Key r = k)) || Has r v).
Proof.
  intros Hr. unfold allows. rewrite Add1_lookup by done. case_decide as Hk.
  - subst k. rewrite bool_decide_eq_true_2 by done. simpl.
    destruct (m !! Key r); [by rewrite Has_Intersection, andb_comm | done].
  - rewrite bool_decide_eq_false_2 by congruence. by rewrite andb_true_r.
Qed.

Lemma Add_allows m l k v :
  Forall addable l →
  allows (Add m l) k v =
  allows m k v && forallb (λ r, negb (bool_decide (Key r = k)) || Has r v) l.
Proof.
  intros Hl. revert m. induction Hl as [|r l Hr Hl IH]; intros m; simpl.
  - by rewrite andb_true_r.
  - unfold Add in *. simpl. rewrite IH, Add1_allows by done. by rewrite andb_assoc.
Qed.

(** ** Labels of a node *)

Definition node_satisfies (labels : gmap string string) m : Prop :=
  ∀ k r, m !! k = Some r → satisfies r (labels !! k) = true.

Lemma Get_lookup m k r : m !! k = Some r → Get m k = r.
Proof. intros Hk. unfold Get. by rewrite Hk. Qed.

Lemma satisfies_None r : satisfies r None = excludesPresence (Operator r).
Proof. reflexivity. Qed.

Lemma elem_of_intersectKeys m n k :
  k ∈ intersectKeys m n ↔ is_Some (m !! k) ∧ is_Some (n !! k).
Proof.
  unfold intersectKeys. case_bool_decide;
    rewrite elem_of_list_to_set, list_elem_of_filter, list_elem_of_fmap;
    (split; [intros (? & [k' r] & -> & Hin%elem_of_map_to_list); eauto|]).
  - intros [? [r Hr]]. split; [done|]. exists (k, r). split; [done|].
    by apply elem_of_map_to_list.
  - intros [[r Hr] ?]. split; [done|]. exists (k, r). split; [done|].
    by apply elem_of_map_to_list.
Qed.

(** The scan reports an error for a key exactly when no label, present or
    absent, satisfies both requirements. *)
Lemma intersectsKey_None m n k r q :
  m !! k = Some r → n !! k = Some q → wf r → wf q →
  intersectsKey m n k = None ↔
  ∃ label, satisfies r label = true ∧ satisfies q label = true.
Proof.
  intros Hr Hq Hwr Hwq. unfold intersectsKey.
  rewrite (Get_lookup m k r), (Get_lookup n k q) by done.
  pose proof (HasIntersection_iff r q Hwr Hwq) as Hi.
  destruct (HasIntersection r q).
  { split; [|done]. intros _. destruct Hi as [[v Hv] _]; [done|]. by exists (Some v). }
  destruct (excludesPresence (Operator q)) eqn:Hoq,
    (excludesPresence (Operator r)) eqn:Hor; simpl.
  { split; [|done]. intros _. exists None. by rewrite !satisfies_None. }
  all: split; [done|]; intros ([v|] & Hsr & Hsq);
    [destruct Hi as [_ Hi]; exfalso; eapply diff_false_true, Hi; eauto
    | rewrite satisfies_None in *; congruence].
Qed.

Lemma Intersects_None m n :
  Requirements_wf m → Requirements_wf n →
  Intersects m n = None ↔
  ∀ k r q, m !! k = Some r → n !! k = Some q →
    ∃ label, satisfies r label = true ∧ satisfies q label = true.
Proof.
  intros Hm Hn. unfold Intersects. split.
  - intros Hi k r q Hr Hq.
    destruct (Requirements_wf_lookup m k r Hm Hr) as (_ & _ & ?).
    destruct (Requirements_wf_lookup n k q Hn Hq) as (_ & _ & ?).
    apply (intersectsKey_None m n k r q); try done.
    destruct (intersectsKey m n k) as [e|] eqn:He; [exfalso|done].
    assert (e ∈ omap (intersectsKey m n) (elements (intersectKeys m n))) as Hin.
    { apply list_elem_of_omap. exists k. split; [|done].
      apply elem_of_elements, elem_of_intersectKeys. eauto. }
    destruct (omap _ _); [by apply not_elem_of_nil in Hin|done].
  - intros Hall. destruct (omap _ _) as [|e l] eqn:Ho; [done|exfalso].
    assert (e ∈ omap (intersectsKey m n) (elements (intersectKeys m n))) as Hin
      by (rewrite Ho; apply list_elem_of_here).
    apply list_elem_of_omap in Hin as (k & Hk & He).
    apply elem_of_elements, elem_of_intersectKeys in Hk as [[r Hr] [q Hq]].
    destruct (Requirements_wf_lookup m k r Hm Hr) as (_ & _ & ?).
    destruct (Requirements_wf_lookup n k q Hn Hq) as (_ & _ & ?).
    rewrite (proj2 (intersectsKey_None m n k r q Hr Hq ltac:(done) ltac:(done))) in He; eauto.
    done.
Qed.

Lemma undefinedKey_false m n allow k q :
  n !! k = Some q →
  undefinedKey m n allow k = false ↔
  (m !! k = None → k ∉ allow → satisfies q None = true).
Proof.
  intros Hq. unfold undefinedKey, HasKey. rewrite (Get_lookup n k q), satisfies_None by done.
  case_bool_decide; simpl; [by split|].
  destruct (m !! k), (excludesPresence (Operator q)); simpl; split; try done;
    intros Hf; try done; by rewrite Hf.
Qed.

Lemma find_None {A} (f : A → bool) (l : list A) :
  List.find f l = None ↔ ∀ x, x ∈ l → f x = false.
Proof.
  split; [intros Hf x Hx; eapply List.find_none; [done|by apply list_elem_of_In]|].
  intros Hall. destruct (List.find f l) as [x|] eqn:Hf; [|done].
  apply List.find_some in Hf as [Hin Hfx]. rewrite Hall in Hfx; [done|].
  by apply list_elem_of_In.
Qed.

Lemma Compatible_None m n allow :
  Requirements_wf m → Requirements_wf n →
  Compatible m n allow = None ↔
  (∀ k q, n !! k = Some q → m !! k = None → k ∉ allow → satisfies q None = true) ∧
  (∀ k r q, m !! k = Some r → n !! k = Some q →
    ∃ label, satisfies r label = true ∧ satisfies q label = true).
Proof.
  intros Hm Hn. rewrite <- Intersects_None by done. unfold Compatible.
  assert ((∀ k q, n !! k = Some q → m !! k = None → k ∉ allow → satisfies q None = true) ↔
    List.find (undefinedKey m n allow) (map_to_list n).*1 = None) as ->.
  { rewrite find_None. split.
    - intros Hall k ([k' q] & -> & Hin%elem_of_map_to_list)%list_elem_of_fmap.
      by apply (undefinedKey_false m n allow _ q), Hall.
    - intros Hall k q Hk. apply (undefinedKey_false m n allow k q); [done|].
      apply Hall, list_elem_of_fmap. exists (k, q). by rewrite elem_of_map_to_list. }
  destruct (List.find _ _); naive_solver.
Qed.

(** Choosing a label for every key of a finite set. *)
Lemma choose_labels (s : gset string) (P : string → option string → Prop) :
  (∀ k, k ∈ s → ∃ o, P k o) →
  ∃ labels : gmap string string,
    dom labels ⊆ s ∧ ∀ k, k ∈ s → P k (labels !! k).
Proof.
  induction s as [|k s Hk IH] using set_ind_L; intros Hall.
  { exists ∅. split; set_solver. }
  destruct IH as (labels & Hd & HP); [set_solver|].
  destruct (Hall k) as ([v|] & Ho); [set_solver|..].
  - exists (<[k:=v]> labels). split; [set_solver|]. intros k' Hk'. rewrite lookup_insert.
    case_decide; [by subst|]. apply HP. set_solver.
  - exists labels. split; [set_solver|]. intros k' [->%elem_of_singleton|?]%elem_of_union; [|auto].
    replace (labels !! k) with (None : option string); [done|].
    symmetry. apply not_elem_of_dom. set_solver.
Qed.

(** C38. [Compatible] answers exactly the question it is asked: it returns no
    error if and only if there are node labels that satisfy the receiver's
    requirements and the argument's, and that carry no label outside the
    receiver's keys other than the allowed-undefined (well-known) ones. *)
Theorem Compatible_exact m n allow :
  Requirements_wf m → Requirements_wf n →
  Compatible m n allow = None ↔
  ∃ labels : gmap string string,
    node_satisfies labels m ∧ node_satisfies labels n ∧
    ∀ k, m !! k = None → k ∉ allow → labels !! k = None.
Proof.
  intros Hm Hn. rewrite Compatible_None by done. split.
  - intros [Hund Hint].
    destruct (choose_labels (dom m ∪ dom n) (λ k o,
      (∀ r, m !! k = Some r → satisfies r o = true) ∧
      (∀ q, n !! k = Some q → satisfies q o = true) ∧
      (m !! k = None → k ∉ allow → o = None))) as (labels & Hd & HP).
    { intros k _. destruct (m !! k) as [r|] eqn:Hr, (n !! k) as [q|] eqn:Hq.
      - destruct (Hint k r q) as (o & ? & ?); [done..|]. exists o. naive_solver.
      - destruct (satisfiable r) as [o Ho]; [by apply (Requirements_wf_lookup m k)|].
        exists o. naive_solver.
      - destruct (decide (k ∈ allow)).
        + destruct (satisfiable q) as [o Ho]; [by apply (Requirements_wf_lookup n k)|].
          exists o. naive_solver.
        + exists None. naive_solver.
      - exists None. naive_solver. }
    exists labels. split_and!.
    + intros k r Hr. destruct (HP k) as (Hs & _ & _); [|by apply Hs].
      apply elem_of_dom_2 in Hr. set_solver.
    + intros k q Hq. destruct (HP k) as (_ & Hs & _); [|by apply Hs].
      apply elem_of_dom_2 in Hq. set_solver.
    + intros k Hk Ha. destruct (decide (k ∈ dom m ∪ dom n)) as [Hin|Hin].
      { destruct (HP k Hin) as (_ & _ & Hs). by apply Hs. }
      apply not_elem_of_dom. set_solver.
  - intros (labels & Hsm & Hsn & Habs). split.
    + intros k q Hq Hk Ha. rewrite <- (Habs k Hk Ha). by apply Hsn.
    + intros k r q Hr Hq. exists (labels !! k). split; [by apply Hsm|by apply Hsn].
Qed.

(** [Add] narrows exactly: after adding requirements to a set, a value is
    allowed for a key precisely when it was allowed before and every added
    requirement on that key allows it; the per-key invariant is kept. *)
Theorem Add_narrows m l k v :
  Requirements_wf m → Forall addable l →
  Requirements_wf (Add m l) ∧
  (allows (Add m l) k v = true ↔
   allows m k v = true ∧ ∀ r, r ∈ l → Key r = k → Has r v = true).
Proof.
  intros Hm Hl. split; [by apply Add_wf|].
  rewrite Add_allows, andb_true_iff, forallb_forall by done.
  setoid_rewrite <- list_elem_of_In. setoid_rewrite orb_true_iff.
  setoid_rewrite negb_true_iff. setoid_rewrite bool_decide_eq_false. split.
  - intros [? Hall]. split; [done|]. intros r Hr Hk. destruct (Hall r Hr); done.
  - intros [? Hall]. split; [done|]. intros r Hr.
    destruct (decide (Key r = k)); [right; by apply Hall|by left].
Qed.
End theory.

(** ** Serialising to node-selector requirements and back *)

Section serialisation.
Context {LT : LabelTables} {LTok : LabelTablesOk}.
Implicit Types (r q : Requirement) (m n : Requirements) (k v : string).

(** Entries the serialised form can express: excluded values and bounds are
    not combined, and no value-normalisation table rewrites the operands. *)
Definition expressible k r : Prop :=
  (gte r ≠ None ∨ lte r ≠ None → values r = ∅) ∧ NormalizedLabelValues !! k = None.

Definition serialise1 r : list NodeSelectorRequirementWithMinValues :=
  match gte r, lte r with
  | Some _, Some _ => BoundedNodeSelectorRequirements r
  | _, _ => [NodeSelectorRequirement r]
  end.

Lemma addSelectors_app m l1 l2 :
  addSelectors m (l1 ++ l2) = addSelectors m l1 ≫= λ m', addSelectors m' l2.
Proof.
  revert m. induction l1 as [|x l1 IH]; intros m; [done|]. simpl.
  case_goal; [done|]. apply IH.
Qed.

Lemma list_to_set_sets_List (s : gset string) : list_to_set (sets_List s) = s.
Proof.
  apply set_eq. intros v. unfold sets_List.
  rewrite elem_of_list_to_set, merge_sort_Permutation. apply elem_of_elements.
Qed.

Lemma sets_List_nil (s : gset string) : sets_List s = [] → s = ∅.
Proof. intros Hs. rewrite <- (list_to_set_sets_List s), Hs. done. Qed.

Lemma Add1_fresh m r : m !! Key r = None → Add1 m r = <[Key r := r]> m.
Proof. intros Hk. unfold Add1. by rewrite Hk. Qed.

Lemma NewRequirement_term k op mv vals :
  normalizeKey k = k → NormalizedLabelValues !! k = None →
  NewRequirementWithFlexibility k op mv vals =
  match op with
  | OpIn => mkRequirement k false (list_to_set vals) None None mv
  | OpDoesNotExist => mkRequirement k false ∅ None None mv
  | OpNotIn => mkRequirement k true (list_to_set vals) None None mv
  | OpGte => mkRequirement k true ∅ (Some (fst (Atoi (value0 vals)))) None mv
  | OpLte => mkRequirement k true ∅ None (Some (fst (Atoi (value0 vals)))) mv
  | OpExists | OpOther _ => mkRequirement k true ∅ None None mv
  | _ => NewRequirementWithFlexibility k op mv vals
  end.
Proof.
  intros Hk Hn. destruct op; try done; unfold NewRequirementWithFlexibility, normalizeValues;
    by rewrite Hk, ?Hn.
Qed.

Ltac step_selectors :=
  cbn [addSelectors nsr_key nsr_operator nsr_values nsr_minValues
       NewRequirementWithFlexibility_panics gte lte Key complement values MinValues
       default from_option id];
  repeat (rewrite NewRequirement_term by auto; cbv match).

Lemma operand_roundtrip z : in_int64 z → fst (Atoi (value0 [FormatInt z])) = z.
Proof. intros Hz. change (value0 [FormatInt z]) with (FormatInt z). by rewrite Atoi_FormatInt. Qed.

(** Both bounds: the second term is intersected into the first. *)
Lemma bounded_roundtrip m k g l mv :
  m !! k = None → normalizeKey k = k → NormalizedLabelValues !! k = None →
  wf (mkRequirement k true ∅ (Some g) (Some l) mv) →
  addSelectors m (BoundedNodeSelectorRequirements (mkRequirement k true ∅ (Some g) (Some l) mv)) =
  Some (<[k := mkRequirement k true ∅ (Some g) (Some l) mv]> m).
Proof.
  intros Hm Hn Ht Hr. unfold BoundedNodeSelectorRequirements. step_selectors.
  rewrite (operand_roundtrip g) by (by apply (wf_gte _ Hr)).
  rewrite (operand_roundtrip l) by (by apply (wf_lte _ Hr)).
  rewrite (Add1_fresh m) by done. unfold Add1. cbn [Key]. rewrite lookup_insert_eq.
  unfold Intersection, intersectValues.
  cbn [gte lte Key complement values MinValues maxIntPtr minIntPtr andb].
  pose proof (wf_cross _ Hr) as Hc. cbn [gte lte] in Hc. rewrite Hc. cbn [Key].
  rewrite insert_insert_eq, union_empty_l_L, filter_empty_L by apply _.
  replace (maxIntPtr mv mv) with mv; [done|].
  destruct mv as [z|]; simpl; [by rewrite Z.ltb_irrefl|done].
Qed.

Lemma serialise1_roundtrip m k r :
  m !! k = None → entry_ok k r → expressible k r →
  addSelectors m (serialise1 r) = Some (<[k:=r]> m).
Proof.
  intros Hm (Hk & Hn & Hr) (Hv & Ht). unfold serialise1, NodeSelectorRequirement.
  destruct r as [key c vs [g|] [l|] mv]; simpl in Hk, Hv; subst key;
    try rewrite Hv in * by auto; cbn [gte lte];
    try (destruct c; [|by destruct (wf_concrete _ Hr eq_refl)]).
  - by apply bounded_roundtrip.
  - step_selectors. rewrite operand_roundtrip by (by apply (wf_gte _ Hr)). by rewrite Add1_fresh.
  - step_selectors. rewrite operand_roundtrip by (by apply (wf_lte _ Hr)). by rewrite Add1_fresh.
  - cbn [complement values]. destruct c, (bool_decide_reflect (vs = ∅)) as [->|Hne];
      step_selectors; rewrite ?list_to_set_sets_List; by rewrite Add1_fresh.
Qed.

(** A lower bound alone is what is left of a lower-bounded entry. *)
Lemma lower_bound_roundtrip k vs g mv :
  normalizeKey k = k → NormalizedLabelValues !! k = None → in_int64 g →
  addSelectors ∅ (serialise1 (mkRequirement k true vs (Some g) None mv)) =
  Some {[k := mkRequirement k true ∅ (Some g) None mv]}.
Proof.
  intros Hn Ht Hg. unfold serialise1, NodeSelectorRequirement. cbn [gte lte].
  step_selectors. rewrite operand_roundtrip by done. by rewrite Add1_fresh.
Qed.

Lemma serialise_roundtrip (l : list (string * Requirement)) m :
  NoDup l.*1 →
  (∀ k r, (k, r) ∈ l → m !! k = None ∧ entry_ok k r ∧ expressible k r) →
  addSelectors m (flat_map serialise1 l.*2) = Some (list_to_map l ∪ m).
Proof.
  revert m. induction l as [|[k r] l IH]; intros m Hnd Hl.
  { simpl. by rewrite map_empty_union. }
  change (((k, r) :: l).*1) with (k :: l.*1) in Hnd.
  change (((k, r) :: l).*2) with (r :: l.*2). cbn [flat_map]. rewrite addSelectors_app.
  destruct (Hl k r) as (Hk & Hok & Hex); [apply list_elem_of_here|].
  rewrite (serialise1_roundtrip m k) by done. cbn [mbind option_bind].
  apply NoDup_cons in Hnd as [Hnin Hnd]. rewrite IH; [|done|].
  - rewrite list_to_map_cons, <- insert_union_l, insert_union_r; [done|].
    by apply not_elem_of_list_to_map_1.
  - intros k' r' Hin. destruct (Hl k' r') as (? & ? & ?); [by apply list_elem_of_further|].
    split_and!; try done. rewrite lookup_insert_ne; [done|]. intros <-.
    apply Hnin, list_elem_of_fmap. by exists (k, r').
Qed.

(** C39. Printing requirements as node-selector terms and parsing them back
    is the identity, bounds and minValues included, for every set whose
    entries do not combine excluded values with bounds. *)
Theorem NodeSelectorRequirements_roundtrip m :
  Requirements_wf m → map_Forall expressible m →
  NewNodeSelectorRequirementsWithMinValues (NodeSelectorRequirements m) = Some m.
Proof.
  intros Hm He. unfold NewNodeSelectorRequirementsWithMinValues.
  change (NodeSelectorRequirements m) with (flat_map serialise1 (map_to_list m).*2).
  rewrite serialise_roundtrip.
  - by rewrite list_to_map_to_list, map_union_empty.
  - apply NoDup_fst_map_to_list.
  - intros k r Hin%elem_of_map_to_list. split_and!; [apply lookup_empty|by apply Hm|by apply He].
Qed.

(** The serialised form drops excluded values next to a bound: a value the
    requirement excludes, within its lower bound, is allowed again after a
    round trip. *)
Theorem NodeSelectorRequirements_drops_exclusions k vs g mv v :
  normalizeKey k = k → NormalizedLabelValues !! k = None → in_int64 g →
  v ∈ vs → withinBounds v (Some g) None = true →
  let r := mkRequirement k true vs (Some g) None mv in
  Has r v = false ∧
  ∃ m', NewNodeSelectorRequirementsWithMinValues (NodeSelectorRequirements {[k := r]}) = Some m' ∧
        allows m' k v = true.
Proof.
  intros Hn Ht Hg Hv Hw r. split.
  { apply not_true_iff_false. by intros [? _]%Has_spec. }
  exists {[k := mkRequirement k true ∅ (Some g) None mv]}. split.
  - unfold NewNodeSelectorRequirementsWithMinValues, NodeSelectorRequirements, ReqValues.
    rewrite map_to_list_singleton. by apply lower_bound_roundtrip.
  - unfold allows. rewrite lookup_singleton_eq, Has_bounded. done.
Qed.

(** A pod that requires a label to exist and not to have a given value is
    reported compatible with a node that lacks the label, for either order of
    the two terms: [Exists] and [NotIn] on one key collapse to [NotIn]. *)
Theorem Compatible_accepts_unlabelled m k v :
  m !! normalizeKey k = None →
  let exists_ := mkExpr k OpExists [] in
  let notIn := mkExpr k OpNotIn [v] in
  (∀ vals, ¬ selects OpExists vals None) ∧
  ∃ n, NewNodeSelectorRequirements [exists_; notIn] = Some n ∧ Compatible m n ∅ = None.
Proof.
  intros Hm exists_ notIn. split; [by intros ? []|].
  set (r := Intersection (NewRequirement k OpNotIn [v]) (NewRequirement k OpExists [])).
  assert (Key r = normalizeKey k) as Hkey.
  { unfold r. rewrite Key_Intersection; simpl; by rewrite ?normalizeKey_idemp. }
  exists {[normalizeKey k := r]}. split.
  - unfold NewNodeSelectorRequirements. cbn [fmap list_fmap exists_ notIn ex_Key ex_Operator
      ex_Values addSelectors nsr_key nsr_operator nsr_values nsr_minValues
      NewRequirementWithFlexibility_panics].
    rewrite (Add1_fresh ∅) by done. unfold Add1.
    change (Key (NewRequirementWithFlexibility k OpNotIn None [v])) with (normalizeKey k).
    rewrite lookup_insert_eq. fold (NewRequirement k OpNotIn [v]) (NewRequirement k OpExists []).
    fold r. rewrite Hkey. cbn [Key NewRequirement NewRequirementWithFlexibility].
    by rewrite insert_insert_eq, insert_empty.
  - unfold Compatible, Intersects. rewrite map_to_list_singleton. cbn [fmap list_fmap fst List.find].
    rewrite (proj2 (undefinedKey_false m {[normalizeKey k := r]} ∅ (normalizeKey k) r
      (lookup_singleton_eq _ _))) by (intros _ _; apply Intersection_forgets_presence).
    replace (intersectKeys m {[normalizeKey k := r]}) with (∅ : gset string); [done|].
    symmetry. apply elem_of_equiv_empty_L. intros k' [[q Hq] [q' Hq']]%elem_of_intersectKeys.
    apply lookup_singleton_Some in Hq' as [<- _]. congruence.
Qed.
End serialisation.

(** ** Concrete tables for the witnesses: [NormalizedLabels] of labels.go *)

Definition karpenterLabels : LabelTables := {|
  NormalizedLabels := list_to_map
    [("failure-domain.beta.kubernetes.io/zone", "topology.kubernetes.io/zone");
     ("beta.kubernetes.io/arch", "kubernetes.io/arch");
     ("beta.kubernetes.io/os", "kubernetes.io/os");
     ("beta.kubernetes.io/instance-type", "node.kubernetes.io/instance-type");
     ("failure-domain.beta.kubernetes.io/region", "topology.kubernetes.io/region")]%string;
  NormalizedLabelValues := ∅;
|}.

Lemma karpenterLabels_ok : @LabelTablesOk karpenterLabels.
Proof.
  intros k. unfold normalizeKey.
  destruct (@NormalizedLabels karpenterLabels !! k) as [k'|] eqn:Hk.
  - change (default k (Some k')) with k'.
    assert (Forall (λ kv, @NormalizedLabels karpenterLabels !! kv.2 = None)
      (map_to_list (@NormalizedLabels karpenterLabels))) as Hall
      by (vm_compute; repeat constructor).
    rewrite Forall_forall in Hall. specialize (Hall (k, k')).
    change ((k, k').2) with k' in Hall. rewrite Hall; [done|].
    by apply elem_of_map_to_list.
  - change (default k None) with k. by rewrite Hk.
Qed.

(** Constructed requirements may be added. *)
Ltac addable_list :=
  repeat first [ apply Forall_nil; exact I
               | apply Forall_cons; split; [apply NewRequirementWithFlexibility_addable|] ].

Section witnesses.
#[local] Existing Instance karpenterLabels.
#[local] Existing Instance karpenterLabels_ok.

Definition zoneOnly : Requirements :=
  NewLabelRequirements {["failure-domain.beta.kubernetes.io/zone"%string := "zone-a"%string]}.

Lemma zoneOnly_wf : Requirements_wf zoneOnly.
Proof. apply NewLabelRequirements_wf. Qed.

Definition podWantsGpu : Requirements :=
  NewRequirements [NewRequirement "topology.kubernetes.io/zone" OpIn ["zone-a"%string; "zone-b"%string];
                   NewRequirement "gpu" OpNotIn ["none"%string]].

Lemma podWantsGpu_wf : Requirements_wf podWantsGpu.
Proof.
  apply Add_wf; [apply map_Forall_empty|]. addable_list.
Qed.

Lemma Compatible_exact_witness :
  ∃ labels : gmap string string,
    node_satisfies labels zoneOnly ∧ node_satisfies labels podWantsGpu ∧
    ∀ k, zoneOnly !! k = None → k ∉ (∅ : gset string) → labels !! k = None.
Proof.
  apply (Compatible_exact zoneOnly podWantsGpu ∅ zoneOnly_wf podWantsGpu_wf).
  vm_compute. reflexivity.
Defined.

Lemma Add_narrows_witness :
  allows (Add zoneOnly [NewRequirement "topology.kubernetes.io/zone" OpIn ["zone-a"%string; "zone-b"%string]])
    "topology.kubernetes.io/zone" "zone-a" = true.
Proof.
  refine (proj2 (proj2 (Add_narrows zoneOnly _ "topology.kubernetes.io/zone" "zone-a"
    zoneOnly_wf _)) _); [addable_list|].
  split; [vm_compute; reflexivity|].
  intros r ->%list_elem_of_singleton _. vm_compute. reflexivity.
Defined.

Definition sized : Requirements :=
  NewRequirements [NewRequirement "cores" OpGt ["3"%string]; NewRequirement "cores" OpLte ["64"%string]].

Lemma sized_wf : Requirements_wf sized.
Proof.
  apply Add_wf; [apply map_Forall_empty|]. addable_list.
Qed.

Lemma NodeSelectorRequirements_roundtrip_witness :
  NewNodeSelectorRequirementsWithMinValues (NodeSelectorRequirements sized) = Some sized.
Proof.
  apply (NodeSelectorRequirements_roundtrip sized sized_wf).
  change sized with ({["cores"%string := mkRequirement "cores" true ∅ (Some 4) (Some 64) None]}
    : Requirements).
  apply map_Forall_singleton. split; reflexivity.
Defined.

Lemma NodeSelectorRequirements_drops_exclusions_witness :
  Has (mkRequirement "cores" true {["7"%string]} (Some 6) None None) "7" = false ∧
  ∃ m', NewNodeSelectorRequirementsWithMinValues (NodeSelectorRequirements
          {["cores"%string := mkRequirement "cores" true {["7"%string]} (Some 6) None None]})
        = Some m' ∧ allows m' "cores" "7" = true.
Proof.
  apply (NodeSelectorRequirements_drops_exclusions "cores" {["7"%string]} 6 None "7").
  - reflexivity.
  - reflexivity.
  - int_lia.
  - set_solver.
  - reflexivity.
Defined.

Lemma Compatible_accepts_unlabelled_witness :
  ∃ n, NewNodeSelectorRequirements [mkExpr "gpu" OpExists []; mkExpr "gpu" OpNotIn ["none"%string]]
         = Some n ∧ Compatible zoneOnly n ∅ = None.
Proof.
  apply (Compatible_accepts_unlabelled zoneOnly "gpu" "none"). vm_compute. reflexivity.
Defined.
End witnesses.
