(* ===== verification/Resources.v ===== *)
(** * Resource lists

    Model of [pkg/utils/resources/resources.go] and of [Limits.ExceededBy] in
    [pkg/apis/v1/nodepool.go].  [resource.Quantity] is Kubernetes code: it is the
    type parameter [Q] with the operations of class [Quantity], and what the
    code relies on (a quantity denotes a number, in the smallest unit, that the
    operations add, subtract and compare) is class [QuantityLaws]. *)

From S2P Require Import Prelude.

(** ** The interface of [resource.Quantity] *)

Class Quantity (Q : Type) := {
  qzero : Q;
  qadd : Q → Q → Q;
  qsub : Q → Q → Q;
  qcmp : Q → Q → comparison;
  (** [resource.NewQuantity(n, _)] *)
  qofint : Z → Q;
}.

Class QuantityLaws (Q : Type) `{Quantity Q} := {
  qval : Q → Z;
  qunit : Z;
  qunit_pos : 0 < qunit;
  qval_zero : qval qzero = 0;
  qval_add a b : qval (qadd a b) = qval a + qval b;
  qval_sub a b : qval (qsub a b) = qval a - qval b;
  qval_ofint n : qval (qofint n) = n * qunit;
  qcmp_val a b : qcmp a b = (qval a ?= qval b);
}.
#[export] Hint Rewrite @qval_zero @qval_add @qval_sub @qval_ofint @qcmp_val
  using typeclasses eauto : go.

(** Integers are a model of the interface; the witnesses use it. *)
#[export] Instance Z_Quantity : Quantity Z :=
  {| qzero := 0; qadd := Z.add; qsub := Z.sub; qcmp := Z.compare; qofint := id |}.
#[export] Instance Z_QuantityLaws : QuantityLaws Z.
Proof.
  refine {| qval := id; qunit := 1 |}; intros; cbv [id qofint Z_Quantity]; try reflexivity; lia.
Defined.

Section resources.
Context {Q : Type} `{Quantity Q}.

Abbreviation ResourceList := (gmap string Q).

Definition ResourcePods : string := "pods".

(** [list[name]], which is the zero quantity for a missing name. *)
Definition rget (rl : ResourceList) (name : string) : Q := default qzero (rl !! name).

(** [current := dest[name]; current.Add(quantity); dest[name] = current] for
    every entry of [src]. *)
Definition sumInto (dest src : ResourceList) : ResourceList :=
  range_update (λ current quantity, qadd (default qzero current) quantity) src dest.

Definition Merge (resources : list ResourceList) : ResourceList :=
  match resources with
  | [] => ∅
  | _ => foldl sumInto ∅ resources
  end.

(** A Go map may be nil; [MergeInto] allocates one then. *)
Definition MergeInto (dest : option ResourceList) (src : ResourceList) : ResourceList :=
  sumInto (default ∅ dest) src.

Definition Subtract (lhs rhs : ResourceList) : ResourceList :=
  map_imap (λ resourceName current,
    Some (match rhs !! resourceName with
          | Some rhsValue => qsub current rhsValue
          | None => current
          end)) lhs.

(** The caller's map after [SubtractFrom]: a nil [dest] is replaced by a fresh
    map that only the callee sees. *)
Definition SubtractFrom (dest : option ResourceList) (src : ResourceList) : option ResourceList :=
  match dest with
  | None => None
  | Some d => Some (range_update (λ current quantity, qsub (default qzero current) quantity) src d)
  end.

Definition MaxResources (resources : list ResourceList) : ResourceList :=
  foldl (λ acc rl,
    range_update (λ current quantity,
      match current with
      | None => quantity
      | Some value => match qcmp quantity value with Gt => quantity | _ => value end
      end) rl acc) ∅ resources.

(** One round of [MinResources]: keep the names that [rl] has, with the smaller
    of the two quantities. *)
Definition minWith (acc rl : ResourceList) : ResourceList :=
  map_imap (λ resourceName quantity,
    match rl !! resourceName with
    | Some rlQuantity => Some (match qcmp rlQuantity quantity with Lt => rlQuantity | _ => quantity end)
    | None => None
    end) acc.

Definition MinResources (resources : list ResourceList) : ResourceList :=
  match resources with
  | [] => ∅
  | first :: rest => foldl minWith first rest
  end.

Definition Fits (candidate total : ResourceList) : bool :=
  map_forallb (λ _ quantity, match qcmp (qofint 0) quantity with Gt => false | _ => true end) total &&
  map_forallb (λ resourceName quantity,
    match qcmp quantity (rget total resourceName) with Gt => false | _ => true end) candidate.

(** [podRequests] is [resourcehelper.PodRequests], which [Ceiling] wraps. *)
Definition RequestsForPods {Pod} (podRequests : Pod → ResourceList) (pods : list Pod) : ResourceList :=
  <[ResourcePods := qofint (Z.of_nat (length pods))]> (Merge (podRequests <$> pods)).

(** The same for limits; [podLimits] is [resourcehelper.PodLimits]. *)
Definition LimitsForPods {Pod} (podLimits : Pod → ResourceList) (pods : list Pod) : ResourceList :=
  <[ResourcePods := qofint (Z.of_nat (length pods))]> (Merge (podLimits <$> pods)).

(** [Quantity.IsZero] *)
Definition IsZero (r : Q) : bool := match qcmp r qzero with Eq => true | _ => false end.

(** [Limits.ExceededBy]: the first resource over its limit, if any. *)
Definition ExceededBy (l : option ResourceList) (resources : ResourceList) : option string :=
  match l with
  | None => None
  | Some limits =>
      fst <$> List.find (λ kx,
        match limits !! kx.1 with
        | Some limit => match qcmp kx.2 limit with Gt => true | _ => false end
        | None => false
        end) (map_to_list resources)
  end.
End resources.

Abbreviation ResourceList Q := (gmap string Q).

(** * Theory *)

Section theory.
Context {Q : Type} `{QuantityLaws Q}.
Implicit Types (rl a b t : ResourceList Q) (k : string).

(** The amount of a resource; a missing entry counts as zero. *)
Definition amount rl k : Z := qval (rget rl k).

(** Resource lists that agree on every amount are interchangeable. *)
#[export] Instance ResourceList_equiv : Equiv (ResourceList Q) := λ a b, ∀ k, amount a k = amount b k.
#[export] Instance ResourceList_equivalence : Equivalence (≡@{ResourceList Q}).
Proof. split; [by intros a k|by intros a b Hab k|intros a b c H1 H2 k; by rewrite H1]. Qed.

Lemma amount_empty k : amount ∅ k = 0.
Proof. unfold amount, rget. rewrite lookup_empty. apply qval_zero. Qed.

Lemma amount_sumInto a b k : amount (sumInto a b) k = amount a k + amount b k.
Proof.
  unfold amount, rget, sumInto. rewrite range_update_lookup.
  destruct (b !! k); simpl; autorewrite with go; lia.
Qed.

Definition total_amount (rls : list (ResourceList Q)) k : Z := foldr (λ rl n, amount rl k + n) 0 rls.

Lemma amount_foldl_sumInto rls a k :
  amount (foldl sumInto a rls) k = amount a k + total_amount rls k.
Proof.
  revert a. induction rls as [|rl rls IH]; intros a; simpl; [lia|].
  rewrite IH, amount_sumInto. lia.
Qed.

Lemma amount_Merge rls k : amount (Merge rls) k = total_amount rls k.
Proof.
  destruct rls as [|rl rls]; [apply amount_empty|]. unfold Merge.
  rewrite amount_foldl_sumInto, amount_empty. lia.
Qed.

#[export] Instance sumInto_proper : Proper ((≡) ==> (≡) ==> (≡)) (sumInto (Q := Q)).
Proof. intros a a' Ha b b' Hb k. by rewrite !amount_sumInto, Ha, Hb. Qed.

Lemma lookup_Subtract a b k :
  Subtract a b !! k = (λ x, match b !! k with Some y => qsub x y | None => x end) <$> a !! k.
Proof. unfold Subtract. rewrite map_lookup_imap. by destruct (a !! k). Qed.

Lemma amount_Subtract a b k :
  amount (Subtract a b) k = if decide (is_Some (a !! k)) then amount a k - amount b k else 0.
Proof.
  unfold amount, rget. rewrite lookup_Subtract. case_decide as Hk.
  - destruct Hk as [x ->]. simpl. destruct (b !! k); simpl; autorewrite with go; lia.
  - apply eq_None_not_Some in Hk as ->. simpl. apply qval_zero.
Qed.

Lemma Fits_spec a t :
  Fits a t = true ↔
  (∀ k x, t !! k = Some x → 0 <= qval x) ∧ (∀ k x, a !! k = Some x → qval x <= amount t k).
Proof.
  unfold Fits. rewrite andb_true_iff, !map_forallb_true.
  setoid_rewrite qcmp_val. setoid_rewrite qval_ofint. unfold amount.
  split; intros [H1 H2]; split; intros k x Hx; specialize (H1 k x); specialize (H2 k x).
  - specialize (H1 Hx). destruct (Z.compare_spec (0 * qunit) (qval x)); lia || done.
  - specialize (H2 Hx). destruct (Z.compare_spec (qval x) (qval (rget t k))); lia || done.
  - specialize (H1 Hx). destruct (Z.compare_spec (0 * qunit) (qval x)); lia || done.
  - specialize (H2 Hx). destruct (Z.compare_spec (qval x) (qval (rget t k))); lia || done.
Qed.

(** Requests are never negative. *)
Definition nonneg rl : Prop := ∀ k x, rl !! k = Some x → 0 <= qval x.

Lemma nonneg_amount rl k : nonneg rl → 0 <= amount rl k.
Proof.
  intros Hn. unfold amount, rget. destruct (rl !! k) as [x|] eqn:Hk; simpl; [by eapply Hn|].
  rewrite qval_zero. lia.
Qed.

(** For non-negative requests, fitting is a statement about amounts alone. *)
Lemma Fits_amount a t :
  nonneg a → Fits a t = true ↔ nonneg t ∧ ∀ k, amount a k <= amount t k.
Proof.
  intros Ha. rewrite Fits_spec. split; intros [Ht Hle]; (split; [done|]).
  - intros k. destruct (a !! k) as [x|] eqn:Hk.
    + unfold amount at 1, rget. rewrite Hk. by apply (Hle k).
    + unfold amount at 1, rget. rewrite Hk. simpl. rewrite qval_zero. by apply nonneg_amount.
  - intros k x Hk. specialize (Hle k). revert Hle. unfold amount at 1, rget. by rewrite Hk.
Qed.

Lemma nonneg_sumInto a b : nonneg a → nonneg b → nonneg (sumInto a b).
Proof.
  intros Ha Hb k x. unfold sumInto. rewrite range_update_lookup.
  pose proof (nonneg_amount a k Ha) as Hak. unfold amount, rget in Hak.
  destruct (b !! k) as [y|] eqn:Hy; [|apply Ha]. intros [= <-].
  rewrite qval_add. specialize (Hb k y Hy). lia.
Qed.

Lemma nonneg_empty : nonneg ∅.
Proof. intros k x. by rewrite lookup_empty. Qed.

Lemma nonneg_Merge rls : Forall nonneg rls → nonneg (Merge rls).
Proof.
  intros Hall. destruct rls as [|r rls]; [apply nonneg_empty|]. unfold Merge.
  generalize nonneg_empty. generalize (∅ : ResourceList Q).
  induction Hall as [|rl l Hrl Hl IH]; intros a Ha; simpl; [done|].
  apply IH, nonneg_sumInto; done.
Qed.

Lemma nonneg_Subtract t a : nonneg (Subtract t a) ↔ ∀ k x, t !! k = Some x → amount a k <= qval x.
Proof.
  unfold nonneg. setoid_rewrite lookup_Subtract. split.
  - intros Hn k x Hx. specialize (Hn k). rewrite Hx in Hn. unfold amount, rget.
    destruct (a !! k); specialize (Hn _ eq_refl); simpl; autorewrite with go in *; lia.
  - intros Hle k y. destruct (t !! k) as [x|] eqn:Hx; [|done]. intros [= <-].
    specialize (Hle k x Hx). unfold amount, rget in Hle.
    destruct (a !! k); simpl in *; autorewrite with go in *; lia.
Qed.

(** ** Accounting of placed pods *)

Definition subtracted t a : ResourceList Q := default ∅ (SubtractFrom (Some t) a).

Lemma lookup_subtracted t a k :
  subtracted t a !! k =
  match a !! k with Some y => Some (qsub (default qzero (t !! k)) y) | None => t !! k end.
Proof. unfold subtracted. simpl. by rewrite range_update_lookup. Qed.

Lemma amount_subtracted t a k : amount (subtracted t a) k = amount t k - amount a k.
Proof.
  unfold amount, rget. rewrite lookup_subtracted.
  destruct (a !! k); simpl; autorewrite with go; lia.
Qed.

Lemma nonneg_subtracted t a :
  nonneg t → (∀ k, amount a k <= amount t k) → nonneg (subtracted t a).
Proof.
  intros Ht Hle k x. rewrite lookup_subtracted. specialize (Hle k).
  unfold amount, rget in Hle. destruct (a !! k); [|by apply Ht].
  intros [= <-]. simpl in Hle. rewrite qval_sub. lia.
Qed.

(** How an existing node takes pods: each must fit what is left, and its
    requests are then subtracted in place ([ExistingNode.CanAdd] and [Add]). *)
Fixpoint admit_all (remaining : ResourceList Q) (requests : list (ResourceList Q)) : bool :=
  match requests with
  | [] => true
  | r :: rs => Fits r remaining && admit_all (subtracted remaining r) rs
  end.

Lemma admit_all_spec rs t :
  nonneg t → Forall nonneg rs →
  admit_all t rs = true ↔ ∀ k, total_amount rs k <= amount t k.
Proof.
  intros Ht Hrs. revert t Ht. induction Hrs as [|r rs Hr Hrs IH]; intros t Ht; simpl.
  { split; [|done]. intros _ k. by apply nonneg_amount. }
  rewrite andb_true_iff, Fits_amount by done. split.
  - intros [[_ Hle] Hadm] k. apply IH with (k := k) in Hadm; [|by apply nonneg_subtracted].
    rewrite amount_subtracted in Hadm. lia.
  - intros Hle.
    assert (∀ k, 0 <= total_amount rs k) as Hpos.
    { intros k. rewrite <- amount_Merge. by apply nonneg_amount, nonneg_Merge. }
    assert (∀ k, amount r k <= amount t k) as Hr'.
    { intros k. specialize (Hle k). specialize (Hpos k). lia. }
    split; [done|]. apply IH; [by apply nonneg_subtracted|].
    intros k. specialize (Hle k). rewrite amount_subtracted. lia.
Qed.

(** [Merge] adds: the amount of every resource in the merged list is the sum
    of its amounts in the inputs, and a name is present exactly when some input
    has it. *)
Theorem Merge_sums rls k :
  amount (Merge rls) k = total_amount rls k ∧
  (is_Some (Merge rls !! k) ↔ Exists (λ rl, is_Some (rl !! k)) rls).
Proof.
  split; [apply amount_Merge|].
  destruct rls as [|r rls]; [split; [by intros []|by intros ?%Exists_nil]|].
  unfold Merge. generalize (r :: rls). clear r rls. intros rls.
  assert (∀ a, is_Some (foldl sumInto a rls !! k) ↔
    is_Some (a !! k) ∨ Exists (λ rl, is_Some (rl !! k)) rls) as ->.
  { induction rls as [|rl rls IH]; intros a; simpl; [rewrite Exists_nil; tauto|].
    rewrite IH, Exists_cons. unfold sumInto. rewrite range_update_lookup.
    destruct (rl !! k), (a !! k); naive_solver eauto. }
  rewrite lookup_empty. split; [intros [[]|]; done|auto].
Qed.

(** The two accountings agree: pods taken one at a time by an existing node,
    subtracting each one's requests from what remains, are all admitted exactly
    when the merged requests of all of them fit, which is what a new NodeClaim
    checks. *)
Theorem admit_all_iff_merged_fits t rs :
  nonneg t → Forall nonneg rs →
  admit_all t rs = Fits (Merge rs) t.
Proof.
  intros Ht Hrs. apply bool_eq_iff. rewrite admit_all_spec by done.
  rewrite Fits_amount by (by apply nonneg_Merge). setoid_rewrite amount_Merge. tauto.
Qed.

(** [Fits] never admits into an over-committed node: a negative amount in
    the total rejects every candidate, even the empty one. *)
Theorem Fits_rejects_overcommitted a t k x :
  t !! k = Some x → qval x < 0 → Fits a t = false.
Proof.
  intros Hk Hx. apply not_true_iff_false. intros [Hn _]%Fits_spec.
  specialize (Hn k x Hk). lia.
Qed.

(** [MinResources] keeps exactly the names every list has, each with an
    amount that is a lower bound of all of them and is attained. *)
Theorem MinResources_meet first rest k :
  match MinResources (first :: rest) !! k with
  | Some x => (∀ rl, rl ∈ first :: rest → ∃ y, rl !! k = Some y ∧ qval x <= qval y) ∧
              (∃ rl, rl ∈ first :: rest ∧ rl !! k = Some x)
  | None => ∃ rl, rl ∈ first :: rest ∧ rl !! k = None
  end.
Proof.
  simpl. revert first. induction rest as [|rl rest IH]; intros first; simpl.
  { destruct (first !! k) eqn:Hk; [|set_solver].
    split; [|set_solver]. intros rl ->%list_elem_of_singleton. eauto with lia. }
  specialize (IH (minWith first rl)).
  assert (minWith first rl !! k =
    match first !! k, rl !! k with
    | Some x, Some y => Some (match qcmp y x with Lt => y | _ => x end)
    | _, _ => None
    end) as Hmin.
  { unfold minWith. rewrite map_lookup_imap. by destruct (first !! k), (rl !! k). }
  destruct (foldl minWith _ rest !! k) as [x|].
  - destruct IH as [Hall (rl' & Hin & Hx)].
    destruct (Hall (minWith first rl)) as (y & Hy & Hle); [set_solver|].
    rewrite Hmin in Hy. destruct (first !! k) as [x1|] eqn:H1; [|done].
    destruct (rl !! k) as [x2|] eqn:H2; [|done]. injection Hy as <-.
    rewrite qcmp_val in *. split.
    + intros r [->|[->|Hr]%elem_of_cons]%elem_of_cons.
      * exists x1. split; [done|]. destruct (Z.compare_spec (qval x2) (qval x1)); lia.
      * exists x2. split; [done|]. destruct (Z.compare_spec (qval x2) (qval x1)); lia.
      * apply Hall. set_solver.
    + apply elem_of_cons in Hin as [->|Hin]; [|set_solver].
      rewrite Hmin in Hx. injection Hx as <-.
      destruct (qval x2 ?= qval x1); [exists first|exists rl|exists first]; set_solver.
  - destruct IH as (rl' & [->|Hin]%elem_of_cons & Hn); [|set_solver].
    rewrite Hmin in Hn. destruct (first !! k) eqn:?; [|exists first; set_solver].
    destruct (rl !! k) eqn:?; [done|]. exists rl. set_solver.
Qed.

(** [ExceededBy] reports an error exactly when some resource is over a limit
    that is set for it, and the resource it names is such a one. *)
Theorem ExceededBy_spec limits usage :
  match ExceededBy (Some limits) usage with
  | Some k => ∃ u l, usage !! k = Some u ∧ limits !! k = Some l ∧ qval l < qval u
  | None => ∀ k u l, usage !! k = Some u → limits !! k = Some l → qval u <= qval l
  end.
Proof.
  unfold ExceededBy. destruct (List.find _ _) as [[k u]|] eqn:Hf; simpl.
  - apply List.find_some in Hf as [Hin Hb]. apply list_elem_of_In, elem_of_map_to_list in Hin.
    simpl in Hb. destruct (limits !! k) as [l|]; [|done]. rewrite qcmp_val in Hb.
    exists u, l. split_and!; [done..|]. destruct (Z.compare_spec (qval u) (qval l)); lia || done.
  - intros k u l Hu Hl. pose proof (List.find_none _ _ Hf (k, u)) as Hn.
    rewrite <- list_elem_of_In, elem_of_map_to_list in Hn. specialize (Hn Hu).
    simpl in Hn. rewrite Hl, qcmp_val in Hn.
    destruct (Z.compare_spec (qval u) (qval l)); lia || done.
Qed.
End theory.

Lemma admit_all_iff_merged_fits_witness :
  admit_all (Q := Z) {["cpu"%string := 10]} [{["cpu"%string := 4]}; {["cpu"%string := 6]}] =
  Fits (Merge [{["cpu"%string := 4]}; {["cpu"%string := 6]}]) {["cpu"%string := 10]}.
Proof.
  assert (∀ z : Z, 0 <= z → nonneg {["cpu"%string := z]}) as Hn.
  { intros z Hz k x [_ <-]%lookup_singleton_Some. exact Hz. }
  apply (admit_all_iff_merged_fits (Q := Z)).
  - apply Hn. lia.
  - apply Forall_cons; split; [apply Hn; lia|]. apply Forall_cons; split; [apply Hn; lia|].
    apply Forall_nil. exact I.
Defined.

Lemma Fits_rejects_overcommitted_witness :
  Fits (Q := Z) ∅ {["memory"%string := -1]} = false.
Proof. apply (Fits_rejects_overcommitted (Q := Z) ∅ _ "memory" (-1)); reflexivity. Defined.
