(* ===== verification/Scheduler.v ===== *)
(** * The scheduling loop

    Model of [queue.go] and of the control flow of [scheduler.go] in
    [pkg/controllers/provisioning/scheduling]: the order in which pods are tried,
    how a pod is relaxed until it schedules, and when the loop stops.  Placing
    one pod ([Scheduler.add]) and refreshing what is cached about a pod are the
    operations of an interface, so the theorems hold for every placement. *)

From S2P Require Import Prelude Kube Resources Preferences.

(** ** Queue *)

Record Queue := mkQueue {
  q_pods : list Pod;
  q_lastLen : gmap string Z;
}.

Section queue.
Context {Q : Type} `{Quantity Q} {GS : GoSort}.
(** [podData[uid].Requests] *)
Context (podData : string → ResourceList Q).

(** Go's order on strings. *)
Definition strlt (a b : string) : bool := negb (String.leb b a).

Definition ResourceCPU : string := "cpu".
Definition ResourceMemory : string := "memory".

Definition byCPUAndMemoryDescending (lhsPod rhsPod : Pod) : bool :=
  let lhs := podData (pod_UID lhsPod) in
  let rhs := podData (pod_UID rhsPod) in
  match qcmp (rget lhs ResourceCPU) (rget rhs ResourceCPU) with
  | Lt => false
  | Gt => true
  | Eq =>
      match qcmp (rget lhs ResourceMemory) (rget rhs ResourceMemory) with
      | Lt => false
      | Gt => true
      | Eq =>
          if negb (pod_CreationTimestamp lhsPod =? pod_CreationTimestamp rhsPod)
          then pod_CreationTimestamp lhsPod <? pod_CreationTimestamp rhsPod
          else strlt (pod_UID lhsPod) (pod_UID rhsPod)
      end
  end.

Definition NewQueue (pods : list Pod) : Queue := mkQueue (gosort byCPUAndMemoryDescending pods) ∅.
End queue.

Definition Pop (q : Queue) : option (Pod * Queue) :=
  match q_pods q with
  | [] => None
  | p :: rest =>
      if default 0 (q_lastLen q !! pod_UID p) =? Z.of_nat (length (q_pods q)) then None
      else Some (p, mkQueue rest (q_lastLen q))
  end.

Definition Push (q : Queue) (pod : Pod) : Queue :=
  let pods := q_pods q ++ [pod] in
  mkQueue pods (<[pod_UID pod := Z.of_nat (length pods)]> (q_lastLen q)).

(** ** Trying one pod *)

(** How an attempt to add a pod failed. *)
Inductive AddError := ReservedOffering | DRA | Deadline | Canceled | IncompatibleWithAllNodePools | Unschedulable.

#[export] Instance AddError_eq_dec : EqDecision AddError.
Proof. solve_decision. Defined.

(** The operations of the rest of the scheduler, over its state. *)
Class SchedulerOps (S Q : Type) := {
  (** [s.add]: [None] is success *)
  add : S → Pod → S * option AddError;
  (** [s.topology.Update]; its error is only logged *)
  topologyUpdate : S → Pod → S;
  updateCachedPodData : S → Pod → S;
  (** [s.cachedPodData[uid].Requests] *)
  cachedRequests : S → string → ResourceList Q;
  (** [FinalizeScheduling] of every new NodeClaim *)
  finalize : S → S;
  (** [ctx.Err()]: [Deadline] or [Canceled] once the context is done *)
  ctxErr : S → option AddError;
}.

Section scheduler.
Context {S Q : Type} `{SchedulerOps S Q} `{TolerationLib} (ToleratePreferNoSchedule : bool).
Implicit Types (s : S) (p : Pod).

(** After a pod was relaxed or put back. *)
Definition refresh s p : S := updateCachedPodData (topologyUpdate s p) p.

(** [None] is running out of fuel. *)
Fixpoint trySchedule (fuel : nat) s p : option (S * option AddError) :=
  match fuel with
  | O => None
  | Datatypes.S fuel =>
      match ctxErr s with
      | Some err => Some (s, Some err)
      | None =>
          match add s p with
          | (s, None) => Some (s, None)
          | (s, Some err) =>
              match err with
              | ReservedOffering | DRA => Some (s, Some err)
              | _ =>
                  match Relax ToleratePreferNoSchedule p with
                  | None => Some (s, Some err)
                  | Some p' => trySchedule fuel (refresh s p') p'
                  end
              end
          end
      end
  end.

(** Why the loop of [Solve] ended. *)
Inductive StopReason := NoProgress | TimedOut.

(** The attempts made so far, oldest first, are recorded with their outcome. *)
Record SolveState := mkSolve {
  sv_state : S;
  sv_queue : Queue;
  sv_podErrors : gmap string AddError;
  sv_attempts : list (Pod * bool);
}.

(** One iteration: stop, or the next state. *)
Definition solveStep (st : SolveState) : option (StopReason * SolveState + SolveState) :=
  match Pop (sv_queue st) with
  | None => Some (inl (NoProgress, st))
  | Some (pod, q) =>
      '(s, err) ← trySchedule (Datatypes.S (softness pod)) (sv_state st) pod;
      match err with
      | None =>
          Some (inr (mkSolve s q (delete (pod_UID pod) (sv_podErrors st)) (sv_attempts st ++ [(pod, true)])))
      | Some Deadline =>
          Some (inl (TimedOut, mkSolve s q (sv_podErrors st) (sv_attempts st ++ [(pod, false)])))
      | Some e =>
          Some (inr (mkSolve (refresh s pod) (Push q pod) (<[pod_UID pod := e]> (sv_podErrors st))
            (sv_attempts st ++ [(pod, false)])))
      end
  end.

Fixpoint solveLoop (fuel : nat) (st : SolveState) : option (StopReason * SolveState) :=
  match fuel with
  | O => None
  | Datatypes.S fuel =>
      match solveStep st with
      | None => None
      | Some (inl stop) => Some stop
      | Some (inr st) => solveLoop fuel st
      end
  end.

(** The fuel that is always enough for [n] pods. *)
Definition solveFuel (n : nat) : nat := n * n + n + 1.

(** The second component of the result is [ctx.Err()] at the end. *)
Definition Solve `{Quantity Q} {GS : GoSort} s (pods : list Pod)
    : option (StopReason * SolveState * option AddError) :=
  let s := foldl updateCachedPodData s pods in
  '(reason, st) ← solveLoop (solveFuel (length pods)) (mkSolve s (NewQueue (cachedRequests s) pods) ∅ []);
  let st := mkSolve (finalize (sv_state st)) (sv_queue st) (sv_podErrors st) (sv_attempts st) in
  Some (reason, st, ctxErr (sv_state st)).
End scheduler.

(** * Theory *)

(** ** One pod *)

Section try_theory.
Context {S Q : Type} `{SchedulerOps S Q} `{TolerationLaws} (tol : bool).
Implicit Types (s : S) (p : Pod).

(** The versions of a pod that relaxing goes through. *)
Definition relaxes_to p p' : Prop := rtc (λ a b, Relax tol a = Some b) p p'.

Lemma trySchedule_total fuel s p : (softness p < fuel)%nat → is_Some (trySchedule tol fuel s p).
Proof.
  revert s p. induction fuel as [|fuel IH]; intros s p Hf; [lia|]. cbn [trySchedule].
  destruct (ctxErr s); [eauto|]. destruct (add s p) as [s' [err|]]; [|eauto].
  assert (is_Some (match Relax tol p with None => Some (s', Some err) | Some p' => trySchedule tol fuel (refresh s' p') p' end)) as Hr.
  { destruct (Relax tol p) as [p'|] eqn:Hp; [|eauto]. apply Relax_step in Hp as [Hlt _]. apply IH. lia. }
  destruct err; eauto.
Qed.

Lemma trySchedule_outcome fuel s p s' r :
  trySchedule tol fuel s p = Some (s', r) →
  ∃ p' s1, relaxes_to p p' ∧
    match r with
    | None => add s1 p' = (s', None)
    | Some err =>
        ctxErr s1 = Some err ∧ s' = s1 ∨
        add s1 p' = (s', Some err) ∧ (err = ReservedOffering ∨ err = DRA ∨ Relax tol p' = None)
    end.
Proof.
  revert s p. induction fuel as [|fuel IH]; intros s p Hrun; [done|]. cbn [trySchedule] in Hrun.
  destruct (ctxErr s) as [e|] eqn:Hc.
  { injection Hrun as <- <-. exists p, s. split; [apply rtc_refl|]. by left. }
  destruct (add s p) as [s1 [err|]] eqn:Ha.
  2:{ injection Hrun as <- <-. exists p, s. split; [apply rtc_refl|done]. }
  assert (err = ReservedOffering ∨ err = DRA → s1 = s' ∧ r = Some err) as Hstop.
  { intros [->| ->]; by injection Hrun as <- <-. }
  destruct (decide (err = ReservedOffering ∨ err = DRA)) as [He|He].
  { destruct (Hstop He) as [-> ->]. exists p, s. split; [apply rtc_refl|]. right. split; [done|]. tauto. }
  assert (match Relax tol p with None => Some (s1, Some err) | Some p' => trySchedule tol fuel (refresh s1 p') p' end
    = Some (s', r)) as Hrun' by (destruct err; tauto).
  destruct (Relax tol p) as [p1|] eqn:Hp.
  - destruct (IH _ _ Hrun') as (p' & s2 & Hrel & Hres). exists p', s2. split; [|done].
    by apply (rtc_l _ p p1).
  - injection Hrun' as <- <-. exists p, s. split; [apply rtc_refl|]. right. tauto.
Qed.

(** A pod is never given up early.  [trySchedule] terminates, within as many
    rounds as the pod has soft constraints and one; it succeeds by adding some
    relaxation of the pod; and when it fails, either the context is done, or the
    failure must not be relaxed (a reserved offering or a device claim), or the
    last version tried had nothing left to relax. *)
Theorem trySchedule_terminates s p :
  ∃ s' r, trySchedule tol (Datatypes.S (softness p)) s p = Some (s', r) ∧
  ∃ p' s1, relaxes_to p p' ∧
    match r with
    | None => add s1 p' = (s', None)
    | Some err =>
        ctxErr s1 = Some err ∧ s' = s1 ∨
        add s1 p' = (s', Some err) ∧ (err = ReservedOffering ∨ err = DRA ∨ Relax tol p' = None)
    end.
Proof.
  destruct (trySchedule_total (Datatypes.S (softness p)) s p) as [[s' r] Hrun]; [lia|].
  exists s', r. split; [done|]. by apply trySchedule_outcome in Hrun.
Qed.

(** ** The loop *)

Definition lastLenOf (q : Queue) p : Z := default 0 (q_lastLen q !! pod_UID p).

(** The pods whose attempts succeeded, in order. *)
Definition succeeded (st : SolveState (S := S)) : list Pod := (List.filter snd (sv_attempts st)).*1.

Lemma succeeded_snoc (a : list (Pod * bool)) p b :
  (List.filter snd (a ++ [(p, b)])).*1 = (List.filter snd a).*1 ++ (if b : bool then [p] else []).
Proof. rewrite List.filter_app, fmap_app. by destruct b. Qed.

(** The queue is a part not tried since the last success followed by a part of
    pods that all failed since then, in the order they failed. *)
Record loop_inv (all : list Pod) (st : SolveState (S := S)) (fresh failed : list Pod) : Prop := {
  li_queue : q_pods (sv_queue st) = fresh ++ failed;
  li_unique : NoDup (pod_UID <$> fresh ++ failed);
  li_failed : ∀ p, p ∈ failed → lastLenOf (sv_queue st) p = Z.of_nat (length (fresh ++ failed));
  li_fresh : ∀ p, p ∈ fresh → lastLenOf (sv_queue st) p = 0 ∨
                              Z.of_nat (length (fresh ++ failed)) < lastLenOf (sv_queue st) p;
  li_trace : ∃ earlier, sv_attempts st = earlier ++ ((λ p, (p, false)) <$> failed);
  li_errors : ∀ p, p ∈ failed → is_Some (sv_podErrors st !! pod_UID p);
  li_count : succeeded st ++ fresh ++ failed ≡ₚ all;
}.

Lemma solveStep_total (st : SolveState (S := S)) : is_Some (solveStep tol st).
Proof.
  unfold solveStep. destruct (Pop (sv_queue st)) as [[pod q]|]; [|eauto].
  destruct (trySchedule_total (Datatypes.S (softness pod)) (sv_state st) pod) as [[s r] ->]; [lia|].
  simpl. destruct r as [[]|]; eauto.
Qed.

Lemma lastLenOf_Push q p p' :
  lastLenOf (Push q p) p' =
  if decide (pod_UID p' = pod_UID p) then Z.of_nat (length (q_pods q ++ [p])) else lastLenOf q p'.
Proof. unfold lastLenOf, Push. simpl. rewrite lookup_insert. repeat case_decide; congruence || done. Qed.

(** An iteration that goes on keeps the invariant and makes progress. *)
Lemma solveStep_inv all st fresh failed st' :
  loop_inv all st fresh failed → solveStep tol st = Some (inr st') →
  ∃ a fresh0, fresh = a :: fresh0 ∧
    (loop_inv all st' (fresh0 ++ failed) [] ∨ loop_inv all st' fresh0 (failed ++ [a])).
Proof.
  intros [Hq Hu Hfail Hfresh [earlier Htr] Herr Hperm] Hs. unfold succeeded in Hperm. unfold solveStep, Pop in Hs.
  rewrite Hq in Hs. destruct (fresh ++ failed) as [|a rest] eqn:Hsplit; [done|].
  fold (lastLenOf (sv_queue st) a) in Hs.
  destruct (_ =? _) eqn:Hlast in Hs; [done|]. apply Z.eqb_neq in Hlast.
  destruct fresh as [|a' fresh0].
  { simpl in Hsplit. subst failed. exfalso. apply Hlast, Hfail, list_elem_of_here. }
  simpl in Hsplit. injection Hsplit as -> <-. exists a, fresh0. split; [done|].
  destruct (trySchedule_total (Datatypes.S (softness a)) (sv_state st) a) as [[s r] Htry]; [lia|].
  rewrite Htry in Hs. simpl in Hs. rewrite fmap_cons in Hu. apply NoDup_cons in Hu as [Hnew Hu].
  assert (∀ p, p ∈ fresh0 ++ failed → pod_UID p ≠ pod_UID a) as Hdiff.
  { intros p Hp Heq. apply Hnew. rewrite <- Heq. by apply list_elem_of_fmap_2. }
  assert (∀ p, p ∈ fresh0 ++ failed → lastLenOf (sv_queue st) p = 0 ∨
            Z.of_nat (length (fresh0 ++ failed)) < lastLenOf (sv_queue st) p) as Hold.
  { intros p [Hp|Hp]%elem_of_app.
    - destruct (Hfresh p) as [?|Hlt]; [by apply list_elem_of_further|by left|right]. simpl in Hlt. lia.
    - right. rewrite (Hfail p Hp). simpl. lia. }
  destruct r as [err|].
  2:{ injection Hs as <-. left. split; simpl; rewrite ?app_nil_r; try done.
      - by intros p ?%not_elem_of_nil.
      - by exists (sv_attempts st ++ [(a, true)]); rewrite app_nil_r.
      - by intros p ?%not_elem_of_nil.
      - unfold succeeded. cbn [sv_attempts]. rewrite succeeded_snoc, <- app_assoc. done. }
  assert (st' = mkSolve (refresh s a) (Push (mkQueue (fresh0 ++ failed) (q_lastLen (sv_queue st))) a)
    (<[pod_UID a := err]> (sv_podErrors st)) (sv_attempts st ++ [(a, false)])) as ->.
  { destruct err; try discriminate Hs; by injection Hs as <-. }
  right. set (q1 := mkQueue (fresh0 ++ failed) (q_lastLen (sv_queue st))).
  assert (length (fresh0 ++ failed ++ [a]) = length ((a :: fresh0) ++ failed)) as Hlen.
  { simpl. rewrite !length_app. simpl. lia. }
  split; cbn [sv_queue sv_attempts sv_podErrors].
  - simpl. by rewrite (assoc_L (++)).
  - rewrite (assoc_L (++)), fmap_app, NoDup_app. split_and!; [done| |apply NoDup_singleton].
    intros u Hu1 ->%list_elem_of_singleton. done.
  - intros p Hp. rewrite lastLenOf_Push. case_decide as Heq.
    + simpl. by rewrite <- (assoc_L (++)).
    + apply elem_of_app in Hp as [Hp| ->%list_elem_of_singleton]; [|done].
      change (lastLenOf q1 p) with (lastLenOf (sv_queue st) p). rewrite (Hfail p Hp), Hlen. done.
  - intros p Hp. rewrite lastLenOf_Push. rewrite decide_False by (apply Hdiff, elem_of_app; by left).
    change (lastLenOf q1 p) with (lastLenOf (sv_queue st) p). rewrite Hlen.
    apply (Hfresh p). by apply list_elem_of_further.
  - exists earlier. rewrite Htr, fmap_app, (assoc_L (++)). done.
  - intros p Hp. rewrite lookup_insert. case_decide; [eauto|].
    apply elem_of_app in Hp as [Hp| ->%list_elem_of_singleton]; [by apply Herr|done].
  - unfold succeeded. cbn [sv_attempts]. rewrite succeeded_snoc, app_nil_r, <- Hperm.
    apply Permutation_app; [done|]. simpl. rewrite (assoc_L (++)). by rewrite Permutation_app_comm.
Qed.

Lemma solveStep_stop all st fresh failed reason st' :
  loop_inv all st fresh failed → solveStep tol st = Some (inl (reason, st')) →
  succeeded st' = succeeded st ∧ (reason = TimedOut ∨ reason = NoProgress ∧ st' = st ∧ fresh = []).
Proof.
  intros [Hq Hu Hfail Hfresh _ _ _] Hs. unfold solveStep, Pop in Hs. rewrite Hq in Hs.
  destruct fresh as [|a fresh0].
  - simpl in Hs. destruct failed as [|b failed]; [injection Hs as <- <-; auto|].
    simpl in Hfail. fold (lastLenOf (sv_queue st) b) in Hs. rewrite (Hfail b (list_elem_of_here _ _)), Z.eqb_refl in Hs.
    injection Hs as <- <-. auto.
  - cbn [app] in Hs. fold (lastLenOf (sv_queue st) a) in Hs.
    rewrite (proj2 (Z.eqb_neq _ _)) in Hs.
    + destruct (trySchedule_total (Datatypes.S (softness a)) (sv_state st) a) as [[s r] Htry]; [lia|].
      rewrite Htry in Hs. simpl in Hs. destruct r as [[]|]; try done. injection Hs as <- <-.
      split; [|by left]. unfold succeeded. cbn [sv_attempts]. by rewrite succeeded_snoc, app_nil_r.
    + destruct (Hfresh a (list_elem_of_here _ _)) as [->|?]; simpl in *; lia.
Qed.

Lemma solveLoop_spec all fuel st fresh failed :
  loop_inv all st fresh failed →
  (length (fresh ++ failed) * length (fresh ++ failed) + length fresh < fuel)%nat →
  ∃ reason st', solveLoop tol fuel st = Some (reason, st') ∧ succeeded st' ⊆+ all ∧
    (reason = TimedOut ∨ reason = NoProgress ∧ ∃ failed', loop_inv all st' [] failed').
Proof.
  revert st fresh failed. induction fuel as [|fuel IH]; intros st fresh failed Hinv Hf; [lia|]. cbn [solveLoop].
  destruct (solveStep_total st) as [[[reason st']|st'] Hs]; rewrite Hs.
  - exists reason, st'. split; [done|].
    destruct (solveStep_stop all st fresh failed reason st' Hinv Hs) as [Hsame Hcase]. split.
    { rewrite Hsame, <- (li_count _ _ _ _ Hinv). by apply submseteq_inserts_r. }
    destruct Hcase as [?|(-> & -> & ->)]; [by left|right]. eauto.
  - destruct (solveStep_inv all st fresh failed st' Hinv Hs) as (a & fresh0 & -> & [Hinv'|Hinv']);
      (eapply IH; [exact Hinv'|]); cbn [length app] in Hf; repeat rewrite length_app in Hf; repeat rewrite length_app; cbn [length] in *;
      generalize dependent (length fresh0); generalize dependent (length failed); intros g f Hf.
    + replace (f + g + 0)%nat with (f + g)%nat by lia.
      replace (Datatypes.S (f + g) * Datatypes.S (f + g))%nat with ((f + g) * (f + g) + 2 * (f + g) + 1)%nat in Hf by nia.
      lia.
    + replace (f + (g + 1))%nat with (Datatypes.S (f + g)) by lia. lia.
Qed.
End try_theory.

(** ** All pods *)

Section solve_theory.
Context {S Q : Type} `{SchedulerOps S Q} `{TolerationLaws} (tol : bool).
Context `{Quantity Q} {GS : GoSort}.

(** [Solve] returns; see the theorem below. *)
Lemma Solve_returns (s : S) (pods : list Pod) :
  NoDup (pod_UID <$> pods) →
  ∃ reason st err, Solve tol s pods = Some (reason, st, err) ∧ succeeded st ⊆+ pods ∧
  (reason = TimedOut ∨
   reason = NoProgress ∧
   (∃ earlier, sv_attempts st = earlier ++ ((λ p, (p, false)) <$> q_pods (sv_queue st))) ∧
   (∀ p, p ∈ q_pods (sv_queue st) → is_Some (sv_podErrors st !! pod_UID p)) ∧
   succeeded st ++ q_pods (sv_queue st) ≡ₚ pods).
Proof.
  intros Hu. unfold Solve. set (st0 := mkSolve _ _ _ _).
  assert (q_pods (sv_queue st0) ≡ₚ pods) as Hp by apply gosort_perm.
  assert (loop_inv pods st0 (q_pods (sv_queue st0)) []) as Hinv.
  { split; rewrite ?app_nil_r; try done.
    - by rewrite Hp.
    - by intros p ?%not_elem_of_nil.
    - intros p _. left. unfold lastLenOf. subst st0. simpl. by rewrite lookup_empty.
    - by exists [].
    - by intros p ?%not_elem_of_nil. }
  destruct (solveLoop_spec tol pods (solveFuel (length pods)) st0 _ _ Hinv) as (reason & st & Hrun & Hsub & Hend).
  { rewrite app_nil_r, (Permutation_length Hp). unfold solveFuel. lia. }
  rewrite Hrun. simpl. eexists _, _, _. split; [done|]. split; [done|]. simpl.
  destruct Hend as [?|(-> & failed & Hfin)]; [by left|right].
  destruct Hfin as [Hq _ _ _ Htr Herr Hcnt]. simpl in Hq, Hcnt. rewrite Hq. done.
Qed.

(** C35. [Solve] terminates, and stops only when no further attempt can help.  For
    pods with distinct UIDs the loop ends after at most n² + n + 1 rounds; no pod
    is scheduled twice; and unless the loop ran into the deadline, its last
    attempts are one failed attempt at every pod still queued, with no success in
    between, and the pods are exactly those scheduled and those still queued, the
    latter each with an error. *)
Theorem Solve_terminates (s : S) (pods : list Pod) (Hu : NoDup (pod_UID <$> pods)) :
  ∃ reason st err, Solve tol s pods = Some (reason, st, err) ∧ succeeded st ⊆+ pods ∧
  (reason = TimedOut ∨
   reason = NoProgress ∧
   (∃ earlier, sv_attempts st = earlier ++ ((λ p, (p, false)) <$> q_pods (sv_queue st))) ∧
   (∀ p, p ∈ q_pods (sv_queue st) → is_Some (sv_podErrors st !! pod_UID p)) ∧
   succeeded st ++ q_pods (sv_queue st) ≡ₚ pods).
Proof. by apply Solve_returns. Qed.
End solve_theory.

(** ** What a pass preserves *)

(** A predicate on the state of the scheduler and the pods placed so far that
    every operation keeps, holds after [Solve].  [ready] says that a pod's data
    is cached; [ok] is a condition on pods that relaxing keeps. *)
Section preserve_theory.
Context {S Q : Type} `{SchedulerOps S Q} `{TolerationLib} (tol : bool).
Context (ok : Pod → Prop) (I : S → list Pod → Prop) (ready : S → Pod → Prop).
Hypothesis Relax_ok : ∀ p p', ok p → Relax tol p = Some p' → ok p' ∧ pod_UID p' = pod_UID p.
Hypothesis add_keeps : ∀ s l p s' r, I s l → ready s p → add s p = (s', r) →
  I s' (match r with None => l ++ [p] | Some _ => l end) ∧ ∀ q, ready s q → ready s' q.
Hypothesis topologyUpdate_keeps : ∀ s l p, I s l → I (topologyUpdate s p) l ∧ ∀ q, ready s q → ready (topologyUpdate s p) q.
Hypothesis updateCachedPodData_keeps : ∀ s l p, I s l → ok p →
  I (updateCachedPodData s p) l ∧ ready (updateCachedPodData s p) p ∧
  ∀ q, pod_UID q ≠ pod_UID p → ready s q → ready (updateCachedPodData s p) q.

Lemma refresh_keeps s l p :
  I s l → ok p → I (refresh s p) l ∧ ready (refresh s p) p ∧ ∀ q, pod_UID q ≠ pod_UID p → ready s q → ready (refresh s p) q.
Proof using topologyUpdate_keeps updateCachedPodData_keeps.
  intros HI Hok. destruct (topologyUpdate_keeps s l p HI) as [HI1 Hr1].
  destruct (updateCachedPodData_keeps _ l p HI1 Hok) as (HI2 & Hp & Hr2). unfold refresh. auto.
Qed.

Lemma trySchedule_keeps fuel s l p s' r :
  I s l → ready s p → ok p → trySchedule tol fuel s p = Some (s', r) →
  match r with None => ∃ p', relaxes_to tol p p' ∧ I s' (l ++ [p']) | Some _ => I s' l end ∧
  ∀ q, pod_UID q ≠ pod_UID p → ready s q → ready s' q.
Proof using Relax_ok add_keeps topologyUpdate_keeps updateCachedPodData_keeps.
  revert s p. induction fuel as [|fuel IH]; intros s p HI Hr Hok; cbn [trySchedule]; [done|].
  destruct (ctxErr s); [by intros [= <- <-]|]. destruct (add s p) as [s1 r1] eqn:Ha.
  destruct (add_keeps s l p s1 r1 HI Hr Ha) as [HI1 Hr1]. destruct r1 as [err|].
  2:{ intros [= <- <-]. split; [|auto]. exists p. split; [apply rtc_refl|done]. }
  assert (match Relax tol p with None => Some (s1, Some err) | Some p' => trySchedule tol fuel (refresh s1 p') p' end = Some (s', r) →
    match r with None => ∃ p', relaxes_to tol p p' ∧ I s' (l ++ [p']) | Some _ => I s' l end ∧
    ∀ q, pod_UID q ≠ pod_UID p → ready s q → ready s' q) as Hgo.
  { destruct (Relax tol p) as [p1|] eqn:Hp; [|intros [= <- <-]; auto]. intros Hrun.
    destruct (Relax_ok p p1 Hok Hp) as [Hok1 Huid]. destruct (refresh_keeps s1 l p1 HI1 Hok1) as (HI2 & Hp1 & Hr2).
    destruct (IH _ _ HI2 Hp1 Hok1 Hrun) as [Hres Hr3]. split; [|intros q Hq ?; rewrite <- Huid in Hq; auto].
    destruct r; [done|]. destruct Hres as (p' & Hrel & HI'). exists p'. split; [by eapply rtc_l|done]. }
  destruct err; try apply Hgo; intros [= <- <-]; auto.
Qed.

Definition pass_inv (st : SolveState (S := S)) : Prop :=
  (∃ l, I (sv_state st) l ∧ Forall2 (relaxes_to tol) (succeeded st) l) ∧
  NoDup (pod_UID <$> q_pods (sv_queue st)) ∧
  ∀ p, p ∈ q_pods (sv_queue st) → ok p ∧ ready (sv_state st) p.

Lemma solveStep_keeps st out :
  pass_inv st → solveStep tol st = Some out →
  match out with
  | inr st' => pass_inv st'
  | inl (_, st') => ∃ l, I (sv_state st') l ∧ Forall2 (relaxes_to tol) (succeeded st') l
  end.
Proof using Relax_ok add_keeps topologyUpdate_keeps updateCachedPodData_keeps.
  intros [(l & HI & Hl) [Hu Hq]] Hs. unfold solveStep, Pop in Hs.
  destruct (q_pods (sv_queue st)) as [|p rest] eqn:Hpods; [injection Hs as <-; eauto|].
  rewrite fmap_cons in Hu. apply NoDup_cons in Hu as [Hnew Hu].
  destruct (_ =? _); [injection Hs as <-; eauto|].
  destruct (Hq p (list_elem_of_here _ _)) as [Hok Hready].
  destruct (trySchedule tol _ (sv_state st) p) as [[s r]|] eqn:Htry; [|done].
  destruct (trySchedule_keeps _ _ l p s r HI Hready Hok Htry) as [Hres Hkeep]. cbn [mbind option_bind] in Hs.
  assert (∀ q, q ∈ rest → pod_UID q ≠ pod_UID p) as Hdiff.
  { intros q Hin Heq. apply Hnew. rewrite <- Heq. by apply list_elem_of_fmap_2. }
  assert (∀ q, q ∈ rest → ok q ∧ ready s q) as Hrest.
  { intros q Hin. destruct (Hq q (list_elem_of_further _ _ _ Hin)). auto. }
  destruct r as [err|].
  2:{ injection Hs as <-. destruct Hres as (p' & Hrel & HI'). split; [|done]. exists (l ++ [p']). split; [done|].
      unfold succeeded. cbn [sv_attempts]. rewrite succeeded_snoc. apply Forall2_app; [done|by constructor]. }
  assert (∀ e' q' s1, I s1 l → ∃ l0, I s1 l0 ∧ Forall2 (relaxes_to tol)
    (succeeded (mkSolve s1 q' e' (sv_attempts st ++ [(p, false)]))) l0) as Hsame.
  { intros e' q' s1 HI1. exists l. split; [done|]. unfold succeeded. cbn [sv_attempts]. by rewrite succeeded_snoc, app_nil_r. }
  assert (pass_inv (mkSolve (refresh s p) (Push (mkQueue rest (q_lastLen (sv_queue st))) p) (<[pod_UID p := err]> (sv_podErrors st))
    (sv_attempts st ++ [(p, false)]))) as Hpush.
  { destruct (refresh_keeps s l p Hres Hok) as (HI2 & Hp2 & Hr2). split; [by apply Hsame|].
    cbn [sv_queue sv_state Push q_pods]. split.
    { rewrite fmap_app. apply NoDup_app. split_and!; [done| |apply NoDup_singleton]. by intros u Hin ->%list_elem_of_singleton. }
    intros q [Hin| ->%list_elem_of_singleton]%elem_of_app; [|done].
    destruct (Hrest q Hin). auto. }
  destruct err; injection Hs as <-; try exact Hpush. by apply Hsame.
Qed.

Lemma solveLoop_keeps fuel st reason st' :
  pass_inv st → solveLoop tol fuel st = Some (reason, st') →
  ∃ l, I (sv_state st') l ∧ Forall2 (relaxes_to tol) (succeeded st') l.
Proof using Relax_ok add_keeps topologyUpdate_keeps updateCachedPodData_keeps.
  revert st. induction fuel as [|fuel IH]; intros st Hinv; cbn [solveLoop]; [done|].
  destruct (solveStep tol st) as [out|] eqn:Hs; [|done]. apply solveStep_keeps in Hs; [|done].
  destruct out as [[reason' st1]|st1]; [by intros [= <- <-]|by apply IH].
Qed.

Lemma Solve_keeps `{Quantity Q} {GS : GoSort} s pods reason st err :
  I s [] → (∀ p, p ∈ pods → ok p) → NoDup (pod_UID <$> pods) → Solve tol s pods = Some (reason, st, err) →
  ∃ s' l, I s' l ∧ sv_state st = finalize s' ∧ Forall2 (relaxes_to tol) (succeeded st) l.
Proof using Relax_ok add_keeps topologyUpdate_keeps updateCachedPodData_keeps.
  intros HI Hok Hu Hrun. unfold Solve in Hrun.
  assert (∀ qs s0, I s0 [] → (∀ p, p ∈ qs → ok p) → NoDup (pod_UID <$> qs) →
    I (foldl updateCachedPodData s0 qs) [] ∧ (∀ q, q ∈ qs → ready (foldl updateCachedPodData s0 qs) q) ∧
    ∀ q, (pod_UID q ∉ pod_UID <$> qs) → ready s0 q → ready (foldl updateCachedPodData s0 qs) q) as Hcache.
  { clear -updateCachedPodData_keeps. induction qs as [|p qs IH]; intros s0 HI Hok Hu; cbn [foldl].
    { split_and!; [done|by intros q ?%not_elem_of_nil|done]. }
    rewrite fmap_cons in Hu. apply NoDup_cons in Hu as [Hnew Hu].
    destruct (updateCachedPodData_keeps s0 [] p HI) as (HI1 & Hp & Hr); [apply Hok, list_elem_of_here|].
    destruct (IH _ HI1) as (HI2 & Hqs & Hr2); [by intros; apply Hok, list_elem_of_further|done|].
    split_and!; [done| |].
    - intros q [->|Hin]%elem_of_cons; auto.
    - intros q Hq ?. rewrite fmap_cons, not_elem_of_cons in Hq. destruct Hq. auto. }
  destruct (Hcache pods s HI Hok Hu) as (HI0 & Hready & _). set (s0 := foldl updateCachedPodData s pods) in *.
  destruct (solveLoop _ _ _) as [[reason' st1]|] eqn:Hloop; [|done]. cbn [mbind option_bind] in Hrun.
  injection Hrun as <- <- <-. apply solveLoop_keeps in Hloop as (l & HI1 & Hl).
  - exists (sv_state st1), l. done.
  - split; [exists []; split; [done|constructor]|]. cbn [sv_queue sv_state].
    split; [unfold NewQueue; cbn [q_pods]; by rewrite gosort_perm|]. intros p Hp.
    assert (p ∈ pods) as Hin by (unfold NewQueue in Hp; cbn [q_pods] in Hp; by rewrite gosort_perm in Hp). auto.
Qed.
End preserve_theory.

(** ** The order of the queue *)

Section order_theory.
Context {Q : Type} `{QuantityLaws Q} {GS : GoSort} (podData : string → ResourceList Q).
Implicit Types (a b c p : Pod).

(** What a pod requests. *)
Definition cpuOf p : Z := amount (podData (pod_UID p)) ResourceCPU.
Definition memoryOf p : Z := amount (podData (pod_UID p)) ResourceMemory.

Lemma strlt_asym x y : strlt x y = true → strlt y x = false.
Proof.
  unfold strlt. rewrite negb_true_iff, negb_false_iff. intros Hn.
  destruct (String.leb_total x y) as [|Hle]; [done|congruence].
Qed.

Lemma strlt_weak x y z : strlt y x = false → strlt z y = false → strlt z x = false.
Proof.
  unfold strlt. rewrite !negb_false_iff. intros H1 H2.
  assert (String.le x z) as Hle; [|by apply Is_true_true].
  transitivity y; by apply Is_true_true.
Qed.

Lemma less_spec a b :
  byCPUAndMemoryDescending podData a b = true ↔
  cpuOf b < cpuOf a ∨ cpuOf a = cpuOf b ∧ (memoryOf b < memoryOf a ∨ memoryOf a = memoryOf b ∧
    (pod_CreationTimestamp a < pod_CreationTimestamp b ∨
     pod_CreationTimestamp a = pod_CreationTimestamp b ∧ strlt (pod_UID a) (pod_UID b) = true)).
Proof.
  unfold byCPUAndMemoryDescending. rewrite !qcmp_val.
  fold (amount (podData (pod_UID a)) ResourceCPU) (amount (podData (pod_UID b)) ResourceCPU)
       (amount (podData (pod_UID a)) ResourceMemory) (amount (podData (pod_UID b)) ResourceMemory).
  fold (cpuOf a) (cpuOf b) (memoryOf a) (memoryOf b).
  destruct (Z.compare_spec (cpuOf a) (cpuOf b)) as [Hc|Hc|Hc]; [|split; [done|lia]|split; [lia|done]].
  destruct (Z.compare_spec (memoryOf a) (memoryOf b)) as [Hm|Hm|Hm]; [|split; [done|lia]|split; [lia|done]].
  destruct (pod_CreationTimestamp a =? pod_CreationTimestamp b) eqn:Ht; destruct_bools; simpl.
  - split; [intros ?; right; split; [done|]; right; split; [done|]; by right|].
    intros [?|[_ [?|[_ [?|[_ ?]]]]]]; done || lia.
  - rewrite Z.ltb_lt. lia.
Qed.

Lemma less_false a b :
  byCPUAndMemoryDescending podData a b = false ↔
  cpuOf a < cpuOf b ∨ cpuOf a = cpuOf b ∧ (memoryOf a < memoryOf b ∨ memoryOf a = memoryOf b ∧
    (pod_CreationTimestamp b < pod_CreationTimestamp a ∨
     pod_CreationTimestamp a = pod_CreationTimestamp b ∧ strlt (pod_UID a) (pod_UID b) = false)).
Proof.
  rewrite <- not_true_iff_false, less_spec. destruct (strlt (pod_UID a) (pod_UID b)); lia.
Qed.

Lemma NewQueue_sorted pods :
  StronglySorted (λ a b, byCPUAndMemoryDescending podData b a = false) (q_pods (NewQueue podData pods)).
Proof.
  apply gosort_sorted.
  - intros a b _ _. rewrite less_spec, less_false. pose proof (strlt_asym (pod_UID a) (pod_UID b)).
    destruct (strlt (pod_UID a) (pod_UID b)), (strlt (pod_UID b) (pod_UID a)); intuition (lia || congruence).
  - intros a b c _ _ _. rewrite !less_false. pose proof (strlt_weak (pod_UID a) (pod_UID b) (pod_UID c)).
    destruct (strlt (pod_UID b) (pod_UID a)), (strlt (pod_UID c) (pod_UID b)), (strlt (pod_UID c) (pod_UID a));
      try lia; exfalso; by assert (true = false) by auto.
Qed.

(** Pods are tried largest first: the queue is a permutation of the pods in
    which every pod has at least the cpu request of each later pod, and at least
    its memory request when the cpu requests are equal; further ties go to the
    older pod. *)
Theorem NewQueue_largest_first pods i j a b
    (Hij : (i < j)%nat) (Ha : q_pods (NewQueue podData pods) !! i = Some a)
    (Hb : q_pods (NewQueue podData pods) !! j = Some b) :
  q_pods (NewQueue podData pods) ≡ₚ pods ∧
  cpuOf b <= cpuOf a ∧ (cpuOf b = cpuOf a → memoryOf b <= memoryOf a ∧
    (memoryOf b = memoryOf a → pod_CreationTimestamp a <= pod_CreationTimestamp b)).
Proof.
  split; [apply gosort_perm|].
  pose proof (StronglySorted_lookup_lt _ _ _ _ _ _ (NewQueue_sorted pods) Ha Hb Hij) as Hle.
  simpl in Hle. rewrite less_false in Hle. lia.
Qed.
End order_theory.

(** * Witnesses *)

Definition twoPods : list Pod := [barePod "ns" "p1" "u1"; barePod "ns" "p2" "u2"].

Definition twoRequests (uid : string) : ResourceList Z :=
  if decide (uid = "u2") then {[ "cpu" := 2 ]} else {[ "cpu" := 1 ]}.

(** A placement that succeeds until three pods are placed. *)
Definition roomyOps : SchedulerOps nat Z := {|
  add := λ s _, if decide (s < 3)%nat then (Datatypes.S s, None) else (s, Some Unschedulable);
  topologyUpdate := λ s _, s;
  updateCachedPodData := λ s _, s;
  cachedRequests := λ _, twoRequests;
  finalize := λ s, s;
  ctxErr := λ _, None;
|}.

Lemma Solve_terminates_witness :
  ∃ reason st err, @Solve nat Z roomyOps eqTolerationLib true _ stable_GoSort 2%nat twoPods = Some (reason, st, err) ∧
    (reason = TimedOut ∨ reason = NoProgress ∧ succeeded st ++ q_pods (sv_queue st) ≡ₚ twoPods).
Proof.
  destruct (@Solve_terminates nat Z roomyOps eqTolerationLib eqTolerationLaws true _ stable_GoSort 2%nat twoPods)
    as (reason & st & err & Hrun & _ & Hend).
  - apply (bool_decide_unpack _). vm_compute. reflexivity.
  - exists reason, st, err. split; [exact Hrun|].
    destruct Hend as [Ht|(Hn & _ & _ & Hp)]; [by left|right].
    split; [exact Hn|exact Hp].
Defined.

Lemma NewQueue_largest_first_witness :
  cpuOf twoRequests (barePod "ns" "p1" "u1") <= cpuOf twoRequests (barePod "ns" "p2" "u2").
Proof.
  refine (proj1 (proj2 (@NewQueue_largest_first Z _ _ stable_GoSort twoRequests twoPods 0 1
    (barePod "ns" "p2" "u2") (barePod "ns" "p1" "u1") _ _ _))).
  - lia.
  - vm_compute. reflexivity.
  - vm_compute. reflexivity.
Defined.

Lemma trySchedule_terminates_witness :
  ∃ s' r, @trySchedule nat Z roomyOps eqTolerationLib true 2%nat 3%nat (barePod "ns" "p1" "u1") = Some (s', r).
Proof.
  destruct (@trySchedule_terminates nat Z roomyOps eqTolerationLib eqTolerationLaws true 3%nat (barePod "ns" "p1" "u1"))
    as (s' & r & Hrun & _).
  exists s', r. exact Hrun.
Defined.
