(* ===== verification/StateNode.v ===== *)
(** * Cached nodes

    Model of [pkg/controllers/state/statenode.go]: the cached view of a node and
    its node claim, the per-pod usage kept incrementally, and the memoised sums.
    The pod-level request and limit helpers of the Kubernetes library, the clock
    and the API server are parameters.  A nil dereference is [None]. *)

From S2P Require Import Prelude Float64 Kube Taints HostPorts Volumes PodUtils Resources.

Definition NodePoolLabelKey : string := "karpenter.sh/nodepool".
Definition NodeRegisteredLabelKey : string := "karpenter.sh/registered".
Definition NodeInitializedLabelKey : string := "karpenter.sh/initialized".
Definition ConditionTypeInstanceTerminating : string := "InstanceTerminating".
Definition LabelInstanceTypeStable : string := "node.kubernetes.io/instance-type".
Definition HostnameLabel : string := "kubernetes.io/hostname".
Definition ResourceNode : string := "nodes".

(** [resourcehelper.PodRequests] and [PodLimits]. *)
Class PodResources (Q : Type) := {
  PodRequestsOf : Pod → ResourceList Q;
  PodLimitsOf : Pod → ResourceList Q;
}.

Record StateNode (Q : Type) `{NetIP} := mkStateNode {
  sn_Node : option (Node Q);
  sn_NodeClaim : option (NodeClaim Q);
  daemonSetRequests : gmap NamespacedName (ResourceList Q);
  daemonSetLimits : gmap NamespacedName (ResourceList Q);
  podRequests : gmap NamespacedName (ResourceList Q);
  podLimits : gmap NamespacedName (ResourceList Q);
  podDisruptionCosts : gmap NamespacedName float64;
  podRequestsTotal : option (ResourceList Q);
  daemonSetRequestsTotal : option (ResourceList Q);
  hostPortUsage : HostPortUsage;
  volumeUsage : VolumeUsage;
  markedForDeletion : bool;
  nominatedUntil : Z;
}.
Arguments mkStateNode {Q _}.
Arguments sn_Node {Q _}.
Arguments sn_NodeClaim {Q _}.
Arguments daemonSetRequests {Q _}.
Arguments daemonSetLimits {Q _}.
Arguments podRequests {Q _}.
Arguments podLimits {Q _}.
Arguments podDisruptionCosts {Q _}.
Arguments podRequestsTotal {Q _}.
Arguments daemonSetRequestsTotal {Q _}.
Arguments hostPortUsage {Q _}.
Arguments volumeUsage {Q _}.
Arguments markedForDeletion {Q _}.
Arguments nominatedUntil {Q _}.

(** Why a node may not be disrupted. *)
Inductive DisruptionBlock :=
  | NotManaged | NoNode | NotInitialized | IsDeleting | IsNominated | DoNotDisruptSet | NoNodePoolLabel.

Section statenode.
Context {Q : Type} `{Quantity Q} {NI : NetIP} {TL : TaintLib} {PS : Parsers} {SA : StorageAPI} {PR : PodResources Q}.
Implicit Types (n : StateNode Q) (pod : Pod) (now : Z).

Definition NewNode : StateNode Q :=
  mkStateNode None None ∅ ∅ ∅ ∅ ∅ None None NewHostPortUsage NewVolumeUsage false 0.

(** [lo.Values] of a map of resource lists. *)
Definition listValues (m : gmap NamespacedName (ResourceList Q)) : list (ResourceList Q) := (map_to_list m).*2.

Definition podRequestsTotalOrCompute n : ResourceList Q :=
  match podRequestsTotal n with Some t => t | None => Merge (listValues (podRequests n)) end.

Definition daemonSetRequestsTotalOrCompute n : ResourceList Q :=
  match daemonSetRequestsTotal n with Some t => t | None => Merge (listValues (daemonSetRequests n)) end.

Definition SimulationCopy n : StateNode Q :=
  mkStateNode (sn_Node n) (sn_NodeClaim n) (daemonSetRequests n) (daemonSetLimits n) (podRequests n) (podLimits n)
    (podDisruptionCosts n) (Some (podRequestsTotalOrCompute n)) (Some (daemonSetRequestsTotalOrCompute n))
    (hostPortUsage n) (volumeUsage n) (markedForDeletion n) (nominatedUntil n).

Definition ensureRequestTotals n : StateNode Q :=
  let podTotal :=
    match podRequestsTotal n with Some t => t | None => Merge (listValues (podRequests n)) end in
  let daemonTotal :=
    match daemonSetRequestsTotal n with Some t => t | None => Merge (listValues (daemonSetRequests n)) end in
  mkStateNode (sn_Node n) (sn_NodeClaim n) (daemonSetRequests n) (daemonSetLimits n) (podRequests n) (podLimits n)
    (podDisruptionCosts n) (Some podTotal) (Some daemonTotal)
    (hostPortUsage n) (volumeUsage n) (markedForDeletion n) (nominatedUntil n).

(** ** Identity and lifecycle *)

Definition Managed n : bool := match sn_NodeClaim n with Some _ => true | None => false end.

(** [in.Node != nil && in.Node.Labels[key] == "true"] *)
Definition nodeLabelTrue n (key : string) : bool :=
  match sn_Node n with
  | Some node => bool_decide (n_Labels node !! key = Some "true"%string)
  | None => false
  end.

Definition Registered n : bool := if Managed n then nodeLabelTrue n NodeRegisteredLabelKey else true.
Definition Initialized n : bool := if Managed n then nodeLabelTrue n NodeInitializedLabelKey else true.

(** The view shared by [Name], [Annotations] and [Labels]: the claim's until the
    node is registered. *)
Definition nodeOrClaim {A} n (fromNode : Node Q → A) (fromClaim : NodeClaim Q → A) : option A :=
  match sn_Node n with
  | None => fromClaim <$> sn_NodeClaim n
  | Some node =>
      match sn_NodeClaim n with
      | None => Some (fromNode node)
      | Some claim => if negb (Registered n) then Some (fromClaim claim) else Some (fromNode node)
      end
  end.

Definition Name n : option string := nodeOrClaim n n_Name nc_Name.
Definition Annotations n : option (gmap string string) := nodeOrClaim n n_Annotations nc_Annotations.
Definition Labels n : option (gmap string string) := nodeOrClaim n n_Labels nc_Labels.

Definition ProviderID n : option string :=
  match sn_Node n with
  | None => nc_ProviderID <$> sn_NodeClaim n
  | Some node => Some (n_ProviderID node)
  end.

Definition HostName n : option string :=
  labels ← Labels n;
  let hostname := default ""%string (labels !! HostnameLabel) in
  if String.eqb hostname "" then Name n else Some hostname.

Definition Taints n : option (list Taint) :=
  taints ←
    (if (negb (Registered n) && Managed n) || (match sn_Node n with None => true | Some _ => false end)
     then nc_Taints <$> sn_NodeClaim n
     else n_Taints <$> sn_Node n);
  match sn_NodeClaim n with
  | Some claim =>
      if negb (Initialized n) then
        Some (List.filter (λ taint,
          negb (IsKnownEphemeralTaint (Some taint) ||
                existsb (λ t, MatchTaint t taint) (nc_StartupTaints claim))) taints)
      else Some taints
  | None => Some taints
  end.

Definition Deleted n : bool :=
  match sn_NodeClaim n with
  | Some claim =>
      match nc_DeletionTimestamp claim with
      | Some _ => true
      | None => conditionTrue (nc_Conditions claim) ConditionTypeInstanceTerminating
      end
  | None =>
      match sn_Node n with
      | Some node => match n_DeletionTimestamp node with Some _ => true | None => false end
      | None => false
      end
  end.

Definition MarkedForDeletion n : bool := markedForDeletion n || Deleted n.

Definition Active (ns : list (StateNode Q)) : list (StateNode Q) := List.filter (λ n, negb (MarkedForDeletion n)) ns.
Definition Deleting (ns : list (StateNode Q)) : list (StateNode Q) := List.filter MarkedForDeletion ns.

(** [2 * BatchMaxDuration], at least ten seconds. *)
Definition nominationWindow (batchMaxDuration : Z) : Z := Z.max (wrap64 (2 * batchMaxDuration)) (10 * Second).

Definition Nominate n (batchMaxDuration now : Z) : StateNode Q :=
  mkStateNode (sn_Node n) (sn_NodeClaim n) (daemonSetRequests n) (daemonSetLimits n) (podRequests n) (podLimits n)
    (podDisruptionCosts n) (podRequestsTotal n) (daemonSetRequestsTotal n) (hostPortUsage n) (volumeUsage n)
    (markedForDeletion n) (now + nominationWindow batchMaxDuration).

Definition Nominated n now : bool := now <? nominatedUntil n.

Definition ValidateNodeDisruptable n now : option DisruptionBlock :=
  match sn_NodeClaim n with
  | None => Some NotManaged
  | Some _ =>
      match sn_Node n with
      | None => Some NoNode
      | Some _ =>
          if negb (Initialized n) then Some NotInitialized
          else if MarkedForDeletion n then Some IsDeleting
          else if Nominated n now then Some IsNominated
          else if bool_decide ((Annotations n ≫= lookup DoNotDisruptAnnotationKey) = Some "true"%string)
          then Some DoNotDisruptSet
          else
            match Labels n ≫= lookup NodePoolLabelKey with
            | None => Some NoNodePoolLabel
            | Some _ => None
            end
      end
  end.

(** ** Resources *)

(** Fill the zero entries of the node's status from the claim's. *)
Definition overrideZero (nodeList claimList : ResourceList Q) : ResourceList Q :=
  range_alter (λ _ quantity old, if IsZero (default qzero old) then Some quantity else old) claimList nodeList.

Definition Allocatable n : option (ResourceList Q) :=
  match sn_NodeClaim n with
  | Some claim =>
      if negb (Initialized n) then
        match sn_Node n with
        | Some node => Some (overrideZero (n_Allocatable node) (nc_Allocatable claim))
        | None => Some (nc_Allocatable claim)
        end
      else n_Allocatable <$> sn_Node n
  | None => n_Allocatable <$> sn_Node n
  end.

Definition Capacity n : option (ResourceList Q) :=
  let oneNode (rl : ResourceList Q) : ResourceList Q := <[ResourceNode := qofint 1]> rl in
  match sn_NodeClaim n with
  | Some claim =>
      if negb (Initialized n) then
        match sn_Node n with
        | Some node => Some (oneNode (overrideZero (n_Capacity node) (nc_Capacity claim)))
        | None => Some (oneNode (nc_Capacity claim))
        end
      else (λ node, oneNode (n_Capacity node)) <$> sn_Node n
  | None => (λ node, oneNode (n_Capacity node)) <$> sn_Node n
  end.

Definition PodRequests n : ResourceList Q :=
  match podRequestsTotal n with
  | Some t => t
  | None => default ∅ (foldl (λ total requests, Some (MergeInto total requests)) None (listValues (podRequests n)))
  end.

Definition DaemonSetRequests n : ResourceList Q :=
  match daemonSetRequestsTotal n with
  | Some t => t
  | None => Merge (listValues (daemonSetRequests n))
  end.

Definition DaemonSetLimits n : ResourceList Q := Merge (listValues (daemonSetLimits n)).
Definition PodLimits n : ResourceList Q := Merge (listValues (podLimits n)).

Definition AvailableResources n : option (ResourceList Q) :=
  allocatable ← Allocatable n;
  Some (Subtract allocatable (PodRequests n)).

Definition DisruptionCost n : float64 :=
  foldl (λ cost kc, fadd cost kc.2) fone (map_to_list (podDisruptionCosts n)).

(** ** Pods coming and going *)

(** [None] is the error of reading the pod's volumes. *)
Definition updateForPod n pod : option (StateNode Q) :=
  let podKey := ObjectKeyFromObject pod in
  vols ← GetVolumes pod;
  let requests := RequestsForPods PodRequestsOf [pod] in
  let lims := LimitsForPods PodLimitsOf [pod] in
  let daemon := IsOwnedByDaemonSet pod in
  let evictionCost := EvictionCost pod in
  Some (mkStateNode (sn_Node n) (sn_NodeClaim n)
    (if daemon then <[podKey := requests]> (daemonSetRequests n) else daemonSetRequests n)
    (if daemon then <[podKey := lims]> (daemonSetLimits n) else daemonSetLimits n)
    (<[podKey := requests]> (podRequests n))
    (<[podKey := lims]> (podLimits n))
    (if daemon then podDisruptionCosts n
     else if fltb (fofint 0) evictionCost then <[podKey := evictionCost]> (podDisruptionCosts n)
     else delete podKey (podDisruptionCosts n))
    None
    (if daemon then None else daemonSetRequestsTotal n)
    (AddHostPorts (hostPortUsage n) pod (GetHostPorts pod))
    (AddPodVolumes (volumeUsage n) pod vols)
    (markedForDeletion n) (nominatedUntil n)).

Definition cleanupForPod n (podKey : NamespacedName) : StateNode Q :=
  mkStateNode (sn_Node n) (sn_NodeClaim n)
    (delete podKey (daemonSetRequests n)) (delete podKey (daemonSetLimits n))
    (delete podKey (podRequests n)) (delete podKey (podLimits n)) (delete podKey (podDisruptionCosts n))
    None None
    (DeletePodPorts (hostPortUsage n) podKey) (DeletePodVolumes (volumeUsage n) podKey)
    (markedForDeletion n) (nominatedUntil n).
End statenode.

(** * Theory *)

Section theory.
Context {Q : Type} `{QuantityLaws Q} {NI : NetIP} {TL : TaintLib} {PS : Parsers} {SA : StorageAPI} {PR : PodResources Q}.
Implicit Types (n : StateNode Q) (pod : Pod) (pods : gmap NamespacedName Pod) (k : string).

Definition requestsOf pod : ResourceList Q := RequestsForPods PodRequestsOf [pod].
Definition limitsOf pod : ResourceList Q := LimitsForPods PodLimitsOf [pod].

Definition costOf pod : option float64 :=
  if IsOwnedByDaemonSet pod then None
  else if fltb (fofint 0) (EvictionCost pod) then Some (EvictionCost pod) else None.

Definition daemonPods pods : gmap NamespacedName Pod := filter (λ kp, IsOwnedByDaemonSet kp.2 = true) pods.

(** The abstract state of a node is the set of pods bound to it; the cached node
    represents it when every derived table is what those pods give, and a
    memoised sum, when present, is the sum. *)
Record represents n pods : Prop := {
  rep_podRequests : podRequests n = requestsOf <$> pods;
  rep_podLimits : podLimits n = limitsOf <$> pods;
  rep_daemonRequests : daemonSetRequests n = requestsOf <$> daemonPods pods;
  rep_daemonLimits : daemonSetLimits n = limitsOf <$> daemonPods pods;
  rep_costs : podDisruptionCosts n = omap costOf pods;
  rep_ports : hostPortUsage n = GetHostPorts <$> pods;
  rep_volumes : podVolumes (volumeUsage n) = omap GetVolumes pods;
  rep_volumes_cover : covers (volumeUsage n);
  rep_podTotal : ∀ t, podRequestsTotal n = Some t → t ≡ Merge (listValues (podRequests n));
  rep_daemonTotal : ∀ t, daemonSetRequestsTotal n = Some t → t ≡ Merge (listValues (daemonSetRequests n));
}.

(** The operations cluster state performs on a cached node.  A pod is updated in
    place; whether a daemon set owns it does not change. *)
Inductive node_step : StateNode Q * gmap NamespacedName Pod → StateNode Q * gmap NamespacedName Pod → Prop :=
  | node_update n pods pod n' :
      (∀ old, pods !! ObjectKeyFromObject pod = Some old → IsOwnedByDaemonSet old = IsOwnedByDaemonSet pod) →
      updateForPod n pod = Some n' →
      node_step (n, pods) (n', <[ObjectKeyFromObject pod := pod]> pods)
  | node_cleanup n pods key : node_step (n, pods) (cleanupForPod n key, delete key pods)
  | node_ensure n pods : node_step (n, pods) (ensureRequestTotals n, pods)
  | node_copy n pods : node_step (n, pods) (SimulationCopy n, pods)
  | node_nominate n pods window now : node_step (n, pods) (Nominate n window now, pods).

Lemma insert_daemonPods pods pod :
  (∀ old, pods !! ObjectKeyFromObject pod = Some old → IsOwnedByDaemonSet old = IsOwnedByDaemonSet pod) →
  daemonPods (<[ObjectKeyFromObject pod := pod]> pods) =
  if IsOwnedByDaemonSet pod then <[ObjectKeyFromObject pod := pod]> (daemonPods pods) else daemonPods pods.
Proof.
  intros Hold. unfold daemonPods. destruct (IsOwnedByDaemonSet pod) eqn:Hd.
  - by rewrite map_filter_insert_True.
  - rewrite map_filter_insert_False by (simpl; congruence). apply map_filter_delete_not.
    intros old Ho. simpl. rewrite (Hold old Ho). done.
Qed.

Lemma updateForPod_represents n pods pod n' :
  (∀ old, pods !! ObjectKeyFromObject pod = Some old → IsOwnedByDaemonSet old = IsOwnedByDaemonSet pod) →
  represents n pods → updateForPod n pod = Some n' →
  represents n' (<[ObjectKeyFromObject pod := pod]> pods).
Proof.
  intros Hold [Hr Hl Hdr Hdl Hc Hp Hv Hcov Hpt Hdt] Hu. unfold updateForPod in Hu.
  destruct (GetVolumes pod) as [vols|] eqn:Hvol; [|done]. simpl in Hu. injection Hu as <-.
  split; cbn [podRequests podLimits daemonSetRequests daemonSetLimits podDisruptionCosts hostPortUsage volumeUsage
              podRequestsTotal daemonSetRequestsTotal].
  - by rewrite Hr, fmap_insert.
  - by rewrite Hl, fmap_insert.
  - rewrite Hdr, insert_daemonPods by done. destruct (IsOwnedByDaemonSet pod); [by rewrite fmap_insert|done].
  - rewrite Hdl, insert_daemonPods by done. destruct (IsOwnedByDaemonSet pod); [by rewrite fmap_insert|done].
  - rewrite Hc. unfold costOf at 2. apply map_eq. intros key. rewrite lookup_omap, lookup_insert.
    destruct (decide (ObjectKeyFromObject pod = key)) as [<-|Hne]; simpl.
    + destruct (IsOwnedByDaemonSet pod) eqn:Hd.
      * rewrite lookup_omap. unfold costOf at 2. rewrite Hd.
        destruct (pods !! ObjectKeyFromObject pod) as [old|] eqn:Ho; [|done]. simpl.
        unfold costOf. by rewrite (Hold old eq_refl).
      * unfold costOf. rewrite Hd. destruct (fltb _ _); [by rewrite lookup_insert_eq|by rewrite lookup_delete_eq].
    + rewrite <- lookup_omap. destruct (IsOwnedByDaemonSet pod); [done|].
      destruct (fltb _ _); [by rewrite lookup_insert_ne|by rewrite lookup_delete_ne].
  - unfold AddHostPorts. by rewrite Hp, fmap_insert.
  - simpl. rewrite Hv. by rewrite (omap_insert_Some _ _ _ _ vols).
  - by apply AddPodVolumes_covers.
  - done.
  - destruct (IsOwnedByDaemonSet pod); [done|]. exact Hdt.
Qed.

Lemma cleanupForPod_represents n pods key :
  represents n pods → represents (cleanupForPod n key) (delete key pods).
Proof.
  intros [Hr Hl Hdr Hdl Hc Hp Hv Hcov Hpt Hdt].
  assert (daemonPods (delete key pods) = delete key (daemonPods pods)) as Hd by apply map_filter_delete.
  split; simpl; rewrite ?Hr, ?Hl, ?Hdr, ?Hdl, ?Hc, ?Hp, ?Hv, ?Hd, ?fmap_delete, ?omap_delete; try done.
  intros driver id. by apply DeletePodVolumes_exact.
Qed.

Lemma total_represents n pods :
  represents n pods →
  (∀ t, Some (podRequestsTotalOrCompute n) = Some t → t ≡ Merge (listValues (podRequests n))) ∧
  (∀ t, Some (daemonSetRequestsTotalOrCompute n) = Some t → t ≡ Merge (listValues (daemonSetRequests n))).
Proof.
  intros [_ _ _ _ _ _ _ _ Hpt Hdt]. unfold podRequestsTotalOrCompute, daemonSetRequestsTotalOrCompute. split; intros t [= <-].
  - destruct (podRequestsTotal n); [by apply Hpt|done].
  - destruct (daemonSetRequestsTotal n); [by apply Hdt|done].
Qed.

Lemma node_step_represents n pods n' pods' :
  represents n pods → node_step (n, pods) (n', pods') → represents n' pods'.
Proof.
  intros Hrep Hs. inversion Hs; subst; clear Hs.
  - by eapply updateForPod_represents.
  - by apply cleanupForPod_represents.
  - destruct (total_represents n pods' Hrep). destruct Hrep. by split.
  - destruct (total_represents n pods' Hrep). destruct Hrep. by split.
  - destruct Hrep. by split.
Qed.

Lemma represents_new : represents NewNode ∅.
Proof.
  assert (daemonPods ∅ = ∅) as Hd by apply map_filter_empty.
  split; simpl; rewrite ?Hd, ?fmap_empty, ?omap_empty; try done.
  intros driver id (key & x & Hx & _). simpl in Hx. by rewrite lookup_empty in Hx.
Qed.

Lemma node_steps_represent n pods s' :
  represents n pods → rtc node_step (n, pods) s' → represents s'.1 s'.2.
Proof.
  intros Hrep Hs. remember (n, pods) as s eqn:Heq.
  revert n pods Heq Hrep. induction Hs as [s|s [n1 p1] s2 H1 _ IH]; intros n pods -> Hrep; [done|].
  apply (IH n1 p1 eq_refl). by eapply node_step_represents.
Qed.

(** The amount a set of pods requests of a resource. *)
Definition requested pods k : Z := total_amount (requestsOf <$> (map_to_list pods).*2) k.

Lemma total_amount_perm rls rls' k : rls ≡ₚ rls' → total_amount rls k = total_amount (Q := Q) rls' k.
Proof. unfold total_amount. induction 1; simpl; lia. Qed.

Lemma listValues_fmap pods : listValues (requestsOf <$> pods) = requestsOf <$> (map_to_list pods).*2.
Proof.
  unfold listValues. rewrite map_to_list_fmap, <- !list_fmap_compose. by apply list_fmap_ext.
Qed.

Lemma amount_foldl_MergeInto rls acc k :
  amount (default ∅ (foldl (λ total requests, Some (MergeInto total requests)) acc rls)) k =
  amount (default ∅ acc) k + total_amount (Q := Q) rls k.
Proof.
  revert acc. induction rls as [|rl rls IH]; intros acc; cbn [foldl total_amount foldr]; [lia|].
  fold (total_amount rls k). rewrite IH. simpl. unfold MergeInto. rewrite amount_sumInto. lia.
Qed.

(** Cached usage is what the bound pods use.  In every state of a node reached
    from an empty one by binding, updating and removing pods, memoising sums and
    copying for simulations, the reported pod requests are the sum over exactly
    the bound pods, the reported daemon-set requests the sum over those owned by
    a daemon set, and what is available is allocatable less the pod requests:
    a memoised sum is never stale. *)
Theorem usage_refines_pods n pods k (Hreach : rtc node_step (NewNode, ∅) (n, pods)) :
  amount (PodRequests n) k = requested pods k ∧
  amount (DaemonSetRequests n) k = requested (daemonPods pods) k ∧
  (∀ allocatable available, Allocatable n = Some allocatable → AvailableResources n = Some available →
     is_Some (allocatable !! k) → amount available k = amount allocatable k - requested pods k).
Proof.
  pose proof (node_steps_represent _ _ _ represents_new Hreach) as Hrep. simpl in Hrep.
  destruct Hrep as [Hr _ Hdr _ _ _ _ _ Hpt Hdt].
  assert (amount (PodRequests n) k = requested pods k) as Hpod.
  { unfold PodRequests, requested. rewrite <- listValues_fmap, <- Hr.
    destruct (podRequestsTotal n) as [t|] eqn:Ht.
    - rewrite (Hpt t eq_refl k). by rewrite amount_Merge.
    - rewrite amount_foldl_MergeInto. simpl. rewrite amount_empty. lia. }
  split_and!; [done| |].
  - unfold DaemonSetRequests, requested. rewrite <- listValues_fmap, <- Hdr.
    destruct (daemonSetRequestsTotal n) as [t|] eqn:Ht; [rewrite (Hdt t eq_refl k)|]; by rewrite amount_Merge.
  - intros allocatable available Ha Hav Hk. unfold AvailableResources in Hav. rewrite Ha in Hav. simpl in Hav.
    injection Hav as <-. by rewrite amount_Subtract, decide_True, Hpod.
Qed.

(** The tables that decide placement match the bound pods: in every such state
    a host port is reserved for a pod exactly when the pod is bound and lists
    it, and the volume totals include every volume of every bound pod. *)
Theorem placement_tables_refine n pods (Hreach : rtc node_step (NewNode, ∅) (n, pods)) :
  hostPortUsage n = GetHostPorts <$> pods ∧
  (∀ key pod vols driver id, pods !! key = Some pod → GetVolumes pod = Some vols → id ∈ claims vols driver →
     id ∈ claims (volumes (volumeUsage n)) driver) ∧
  (∀ key, podDisruptionCosts n !! key = pods !! key ≫= costOf).
Proof.
  pose proof (node_steps_represent _ _ _ represents_new Hreach) as Hrep. simpl in Hrep. split_and!.
  - apply Hrep.
  - intros key pod vols driver id Hk Hv Hid. apply (rep_volumes_cover _ _ Hrep). exists key, vols. split; [|done].
    rewrite (rep_volumes _ _ Hrep), lookup_omap, Hk. done.
  - intros key. by rewrite (rep_costs _ _ Hrep), lookup_omap.
Qed.
End theory.

Section lifecycle_theory.
Context {Q : Type} `{QuantityLaws Q} {NI : NetIP} {TL : TaintLib}.
Implicit Types (n : StateNode Q) (now : Z).

(** A failed test contradicts the conditions. *)
Ltac refute_disruptable :=
  split; [done|];
  intros (? & ? & ? & ? & ? & [= <-] & [= <-] & ? & ? & ? & ? & ? & [= <-] & ? & [= <-] & ?);
  (congruence || lia).

(** A node passes [ValidateNodeDisruptable] exactly when it has a node and a
    node claim, the node is labelled initialized, neither the cache nor the API
    objects mark it for deletion, no recent scheduling pass nominated it, its
    effective annotations do not opt out and its effective labels name a node
    pool. *)
Theorem ValidateNodeDisruptable_exact n now :
  ValidateNodeDisruptable n now = None ↔
  ∃ node claim labels annotations pool,
    sn_Node n = Some node ∧ sn_NodeClaim n = Some claim ∧
    n_Labels node !! NodeInitializedLabelKey = Some "true"%string ∧
    markedForDeletion n = false ∧ nc_DeletionTimestamp claim = None ∧
    conditionTrue (nc_Conditions claim) ConditionTypeInstanceTerminating = false ∧
    nominatedUntil n <= now ∧
    Annotations n = Some annotations ∧ annotations !! DoNotDisruptAnnotationKey ≠ Some "true"%string ∧
    Labels n = Some labels ∧ labels !! NodePoolLabelKey = Some pool.
Proof.
  unfold ValidateNodeDisruptable.
  destruct (sn_NodeClaim n) as [claim|] eqn:Hc; [|naive_solver].
  destruct (sn_Node n) as [node|] eqn:Hn; [|naive_solver].
  assert (Initialized n = bool_decide (n_Labels node !! NodeInitializedLabelKey = Some "true"%string)) as Hi.
  { unfold Initialized, Managed, nodeLabelTrue. by rewrite Hc, Hn. }
  assert (MarkedForDeletion n = markedForDeletion n ||
    match nc_DeletionTimestamp claim with Some _ => true
    | None => conditionTrue (nc_Conditions claim) ConditionTypeInstanceTerminating end) as Hm.
  { unfold MarkedForDeletion, Deleted. by rewrite Hc. }
  assert (is_Some (Annotations n) ∧ is_Some (Labels n)) as [[an Han] [la Hla]].
  { unfold Annotations, Labels, nodeOrClaim. rewrite Hn, Hc. destruct (negb (Registered n)); eauto. }
  rewrite Hi, Hm, Han, Hla. unfold Nominated. simpl.
  case_bool_decide as Hini; simpl; [|refute_disruptable].
  destruct (markedForDeletion n) eqn:Hmark; simpl; [refute_disruptable|].
  destruct (nc_DeletionTimestamp claim) eqn:Hdel; [refute_disruptable|].
  destruct (conditionTrue _ _) eqn:Hterm; [refute_disruptable|].
  destruct (now <? nominatedUntil n) eqn:Hnom; destruct_bools; [refute_disruptable|].
  case_bool_decide as Hdnd; [refute_disruptable|].
  destruct (la !! NodePoolLabelKey) as [pool|] eqn:Hpool; [|refute_disruptable].
  split; [|done]. intros _. exists node, claim, la, an, pool. split_and!; done.
Qed.

(** The taints pods must tolerate.  While a managed node is not initialized,
    known ephemeral taints and the claim's startup taints are hidden and all
    other taints are reported; once it is initialized, or when Karpenter does
    not manage it, every taint of the node counts. *)
Theorem Taints_until_initialized n taints t (Hrun : Taints n = Some taints) :
  (∀ claim, sn_NodeClaim n = Some claim → Initialized n = false →
     t ∈ taints ↔
     (t ∈ (if Registered n then default [] (n_Taints <$> sn_Node n) else nc_Taints claim)) ∧
     IsKnownEphemeralTaint (Some t) = false ∧ ∀ s, s ∈ nc_StartupTaints claim → MatchTaint s t = false) ∧
  (∀ node, sn_Node n = Some node → Initialized n = true → Registered n = true → taints = n_Taints node).
Proof.
  unfold Taints in Hrun. split.
  - intros claim Hc Hi. rewrite Hc, Hi in Hrun. unfold Managed in Hrun. rewrite Hc in Hrun. simpl in Hrun.
    rewrite andb_true_r in Hrun.
    assert (∃ src, (if Registered n then default [] (n_Taints <$> sn_Node n) else nc_Taints claim) = src ∧
      taints = List.filter (λ taint, negb (IsKnownEphemeralTaint (Some taint) ||
                existsb (λ t, MatchTaint t taint) (nc_StartupTaints claim))) src) as (src & -> & ->).
    { destruct (Registered n) eqn:Hr; simpl in Hrun.
      - unfold Registered, Managed, nodeLabelTrue in Hr. rewrite Hc in Hr.
        destruct (sn_Node n) as [node|]; [|done]. simpl in *. injection Hrun as <-. eauto.
      - injection Hrun as <-. eauto. }
    rewrite list_elem_of_In, filter_In, <- list_elem_of_In, negb_true_iff, orb_false_iff.
    assert (existsb (λ t0, MatchTaint t0 t) (nc_StartupTaints claim) = false ↔
      ∀ s, s ∈ nc_StartupTaints claim → MatchTaint s t = false) as ->; [|done].
    rewrite <- not_true_iff_false, existsb_exists. setoid_rewrite <- list_elem_of_In. split.
    + intros Hno s Hs. apply not_true_iff_false. intros Hm. eauto.
    + intros Hall (s & Hs & Hm). rewrite (Hall s Hs) in Hm. done.
  - intros node Hn Hi Hr. rewrite Hn, Hi, Hr in Hrun. simpl in Hrun.
    destruct (sn_NodeClaim n); by injection Hrun as <-.
Qed.

(** What a node that is not initialized reports: the claim fills in what the
    node's status does not have yet. *)
Lemma lookup_overrideZero (nodeList claimList : ResourceList Q) k :
  amount (overrideZero nodeList claimList) k =
  if (amount nodeList k =? 0) && bool_decide (is_Some (claimList !! k)) then amount claimList k else amount nodeList k.
Proof.
  unfold amount, rget, overrideZero. rewrite range_alter_lookup. unfold IsZero. rewrite qcmp_val, qval_zero.
  destruct (claimList !! k) as [q|] eqn:Hq.
  - rewrite bool_decide_eq_true_2, andb_true_r by eauto. simpl.
    destruct (Z.compare_spec (qval (default qzero (nodeList !! k))) 0) as [Hz|Hz|Hz].
    + by rewrite (proj2 (Z.eqb_eq _ 0) Hz).
    + rewrite (proj2 (Z.eqb_neq _ 0)) by lia. done.
    + rewrite (proj2 (Z.eqb_neq _ 0)) by lia. done.
  - rewrite bool_decide_eq_false_2 by (by intros [? ?]). by rewrite andb_false_r.
Qed.
End lifecycle_theory.

(** * Witnesses *)

Section witnesses.
#[local] Existing Instance textIP.
#[local] Existing Instance keyTaintLib.

#[local] Instance noParsers : Parsers := {| ParseDuration _ := None; ParseFloat _ := None |}.

#[local] Instance emptyStorage : StorageAPI := {|
  getPVC _ := NotFound; getPV _ := NotFound; getStorageClass _ := NotFound; GetCSINameFromInTreeName _ := None;
|}.

(** Every pod asks for two units of cpu. *)
#[local] Instance twoCPU : PodResources Z := {|
  PodRequestsOf _ := {["cpu"%string := 2]}; PodLimitsOf _ := ∅;
|}.

Definition boundNode : StateNode Z :=
  default NewNode (updateForPod NewNode (barePod "default" "a" "a")).

Definition boundPods : gmap NamespacedName Pod := {[("default", "a")%string := barePod "default" "a" "a"]}.

Lemma boundNode_reached : rtc (node_step (Q := Z)) (NewNode, ∅) (ensureRequestTotals boundNode, boundPods).
Proof.
  eapply rtc_l; [apply (node_update NewNode ∅ (barePod "default" "a" "a") boundNode)|apply rtc_once, node_ensure].
  - intros old Ho. rewrite lookup_empty in Ho. discriminate Ho.
  - reflexivity.
Qed.

Lemma usage_refines_pods_witness :
  amount (Q := Z) (PodRequests (ensureRequestTotals boundNode)) "cpu" = requested (Q := Z) boundPods "cpu".
Proof.
  refine (proj1 (usage_refines_pods (Q := Z) (ensureRequestTotals boundNode) boundPods "cpu" boundNode_reached)).
Defined.

Lemma placement_tables_refine_witness :
  hostPortUsage (ensureRequestTotals boundNode) = GetHostPorts <$> boundPods.
Proof.
  refine (proj1 (placement_tables_refine (Q := Z) (ensureRequestTotals boundNode) boundPods boundNode_reached)).
Defined.

Definition startingClaim : NodeClaim Z :=
  mkNodeClaim "claim" "id" ∅ ∅ [] [mkTaint "startup" "" NoSchedule] None 0 None ∅ ∅ ∅ None None.

Definition startingNode : StateNode Z :=
  mkStateNode (Some (mkNode "node" "id" {[NodeRegisteredLabelKey := "true"%string]} ∅
      [mkTaint "startup" "" NoSchedule; mkTaint "gpu" "" NoSchedule] None ∅ ∅ ∅))
    (Some startingClaim) ∅ ∅ ∅ ∅ ∅ None None NewHostPortUsage NewVolumeUsage false 0.

Lemma Taints_until_initialized_witness :
  mkTaint "startup" "" NoSchedule ∈ [mkTaint "gpu" "" NoSchedule] ↔
  mkTaint "startup" "" NoSchedule ∈ [mkTaint "startup" "" NoSchedule; mkTaint "gpu" "" NoSchedule] ∧
  IsKnownEphemeralTaint (Some (mkTaint "startup" "" NoSchedule)) = false ∧
  ∀ s, s ∈ [mkTaint "startup" "" NoSchedule] → MatchTaint s (mkTaint "startup" "" NoSchedule) = false.
Proof.
  refine (proj1 (Taints_until_initialized startingNode [mkTaint "gpu" "" NoSchedule] (mkTaint "startup" "" NoSchedule) _)
    startingClaim _ _).
  - vm_compute. reflexivity.
  - reflexivity.
  - vm_compute. reflexivity.
Defined.
End witnesses.
