(* ===== verification/Budgets.v ===== *)
(** * Disruption budgets

    Model of the budgets in [pkg/apis/v1/nodepool.go] and of
    [BuildDisruptionBudgetMapping] in [pkg/controllers/disruption/helpers.go]:
    how many nodes of a pool may be disrupted for a reason right now.  The cron
    package and the int-or-percent package are parameters with their documented
    behaviour; the clock is the argument [now], in nanoseconds, UTC. *)

From S2P Require Import Prelude Strconv Float64 Kube Taints HostPorts Volumes PodUtils Resources StateNode.

(** [robfig/cron]: [Next] is the next activation time later than the given time;
    [None] is the zero time it returns when it finds none. *)
Class Cron := {
  CronSchedule : Type;
  ParseStandard : string → option CronSchedule;
  Next : CronSchedule → Z → option Z;
}.

Class CronLaws `{Cron} := {
  fires : CronSchedule → Z → Prop;
  Next_spec s t h : Next s t = Some h → fires s h ∧ t < h ∧ ∀ h', fires s h' → t < h' → h <= h';
}.

(** [k8s.io/apimachinery/pkg/util/intstr] *)
Class IntStr := {
  IntOrString : Type;
  FromInt : Z → IntOrString;
  FromString : string → IntOrString;
  GetScaledValueFromIntOrPercent : IntOrString → Z → bool → option Z;
}.

(** Rounding up the percentage of a total. *)
Definition ceilPercent (p total : Z) : Z := - (- (p * total) / 100).

Class IntStrLaws `{IntStr} := {
  scaled_int v total up : in_int32 v → GetScaledValueFromIntOrPercent (FromInt v) total up = Some v;
  scaled_percent p total : 0 <= p <= 100 → 0 <= total →
    GetScaledValueFromIntOrPercent (FromString (FormatInt p +:+ "%")) total true = Some (ceilPercent p total);
}.

(** [Reasons] is nil when the budget applies to every reason. *)
Record Budget := mkBudget {
  bg_Reasons : option (list string);
  bg_Nodes : string;
  bg_Schedule : option string;
  bg_Duration : option Z;
}.

Record NodePool := mkNodePool {
  np_Name : string;
  np_Budgets : list Budget;
}.

Section budgets.
Context {CR : Cron} {IS : IntStr}.
Implicit Types (b : Budget) (now numNodes : Z).

Definition GetIntStrFromValue (str : string) : IntOrString :=
  match atoi str with Some intVal => FromInt intVal | None => FromString str end.

(** [None] is the error of an invalid schedule. *)
Definition BudgetIsActive b now : option bool :=
  match bg_Schedule b, bg_Duration b with
  | None, None => Some true
  | _, _ =>
      schedule ← ParseStandard ("TZ=UTC " +:+ default ""%string (bg_Schedule b));
      let checkPoint := now - default 0 (bg_Duration b) in
      Some (match Next schedule checkPoint with
            | Some nextHit => negb (now <? nextHit)
            | None => true   (* the zero time is not after now *)
            end)
  end.

(** The allowed disruptions and whether there was an error. *)
Definition GetAllowedDisruptions b now numNodes : Z * bool :=
  match BudgetIsActive b now with
  | None => (0, true)
  | Some false => (MaxInt32, false)
  | Some true =>
      match GetScaledValueFromIntOrPercent (GetIntStrFromValue (bg_Nodes b)) numNodes true with
      | Some res => (res, false)
      | None => (0, true)
      end
  end.

Definition appliesTo b (reason : string) : bool :=
  match bg_Reasons b with None => true | Some reasons => bool_decide (reason ∈ reasons) end.

Definition GetAllowedDisruptionsByReason (np : NodePool) now numNodes (reason : string) : Z * bool :=
  foldl (λ acc budget,
    let '(val, err) := GetAllowedDisruptions budget now numNodes in
    (if appliesTo budget reason then Z.min acc.1 val else acc.1, acc.2 || err))
    (MaxInt32, false) (np_Budgets np).

Definition MustGetAllowedDisruptions (np : NodePool) now numNodes (reason : string) : Z :=
  let '(allowedDisruptions, err) := GetAllowedDisruptionsByReason np now numNodes reason in
  if err then 0 else allowedDisruptions.

Section mapping.
Context {Q : Type} {NI : NetIP}.
Implicit Types (n : StateNode Q).

(** The node counts towards its pool: managed, initialized and not yet
    terminated at the cloud provider. *)
Definition countsForBudget n : bool :=
  Managed n && Initialized n &&
  negb (match sn_NodeClaim n with
        | Some claim => conditionTrue (nc_Conditions claim) ConditionTypeInstanceTerminating
        | None => false
        end).

Definition poolOf n : string := default ""%string (Labels n ≫= lookup NodePoolLabelKey).

(** Not ready, or already being deleted. *)
Definition consumesBudget n : bool :=
  negb (match sn_Node n with
        | Some node => conditionTrue (n_Conditions node) "Ready"
        | None => false
        end) || MarkedForDeletion n.

Definition countNode (acc : gmap string Z * gmap string Z) n : gmap string Z * gmap string Z :=
  let '(numNodes, disrupting) := acc in
  if negb (countsForBudget n) then acc
  else
    let nodePool := poolOf n in
    let incr (m : gmap string Z) := <[nodePool := default 0 (m !! nodePool) + 1]> m in
    (incr numNodes, if consumesBudget n then incr disrupting else disrupting).

Definition BuildDisruptionBudgetMapping (nodes : list (StateNode Q)) (nodePools : list NodePool) now
    (reason : string) : gmap string Z :=
  let '(numNodes, disrupting) := foldl countNode (∅, ∅) nodes in
  foldl (λ mapping np,
    let allowedDisruptions := MustGetAllowedDisruptions np now (default 0 (numNodes !! np_Name np)) reason in
    <[np_Name np := Z.max (allowedDisruptions - default 0 (disrupting !! np_Name np)) 0]> mapping) ∅ nodePools.
End mapping.
End budgets.

(** * Theory *)

Section theory.
Context {CR : Cron} {IS : IntStr}.
Implicit Types (b : Budget) (now numNodes : Z) (np : NodePool) (reason : string).

Lemma byReason_foldl bs now numNodes reason acc :
  let r := foldl (λ acc budget,
    let '(val, err) := GetAllowedDisruptions budget now numNodes in
    (if appliesTo budget reason then Z.min acc.1 val else acc.1, acc.2 || err)) acc bs in
  (r.2 = acc.2 || existsb (λ b, (GetAllowedDisruptions b now numNodes).2) bs) ∧
  r.1 <= acc.1 ∧
  (∀ b, b ∈ bs → appliesTo b reason = true → r.1 <= (GetAllowedDisruptions b now numNodes).1) ∧
  (r.1 = acc.1 ∨ ∃ b, b ∈ bs ∧ appliesTo b reason = true ∧ r.1 = (GetAllowedDisruptions b now numNodes).1).
Proof.
  revert acc. induction bs as [|b bs IH]; intros acc; cbn [foldl existsb].
  { split_and!; [by rewrite orb_false_r|lia|by intros b ?%not_elem_of_nil|by left]. }
  destruct (GetAllowedDisruptions b now numNodes) as [val err] eqn:Hb.
  match goal with |- context [foldl ?f ?a bs] => specialize (IH a); set (r := foldl f a bs) in *; clearbody r end.
  destruct IH as (Herr & Hle & Hall & Hat). cbn [fst snd] in *. split_and!.
  - by rewrite Herr, orb_assoc.
  - destruct (appliesTo b reason); lia.
  - intros b' [->|Hb']%elem_of_cons Happ; [|by apply Hall]. rewrite Hb, Happ in *. simpl. lia.
  - destruct Hat as [Hat|(b' & ? & ? & ?)]; [|right; exists b'; rewrite elem_of_cons; auto].
    destruct (appliesTo b reason) eqn:Happ; [|by left].
    destruct (Z.min_spec acc.1 val) as [[_ Hm]|[_ Hm]]; [left; lia|].
    right. exists b. rewrite elem_of_cons, Hb. split_and!; auto. simpl. lia.
Qed.

(** A pool's allowance is its most restrictive budget, and fails closed.  When
    some budget of the pool has an invalid schedule or node count (even one for
    another reason) no disruption is allowed.  Otherwise the allowance is at
    most what every budget for the reason allows, and it is the allowance of
    one of them, or unbounded ([MaxInt32]) when none applies; an inactive budget
    is unbounded. *)
Theorem MustGetAllowedDisruptions_most_restrictive np now numNodes reason :
  let allowed := MustGetAllowedDisruptions np now numNodes reason in
  ((∃ b, b ∈ np_Budgets np ∧ (GetAllowedDisruptions b now numNodes).2 = true) → allowed = 0) ∧
  ((∀ b, b ∈ np_Budgets np → (GetAllowedDisruptions b now numNodes).2 = false) →
   (∀ b, b ∈ np_Budgets np → appliesTo b reason = true → allowed <= (GetAllowedDisruptions b now numNodes).1) ∧
   (allowed = MaxInt32 ∨ ∃ b, b ∈ np_Budgets np ∧ appliesTo b reason = true ∧
      allowed = (GetAllowedDisruptions b now numNodes).1) ∧
   (∀ b, b ∈ np_Budgets np → BudgetIsActive b now = Some false → (GetAllowedDisruptions b now numNodes).1 = MaxInt32)).
Proof.
  intros allowed. subst allowed. unfold MustGetAllowedDisruptions, GetAllowedDisruptionsByReason.
  pose proof (byReason_foldl (np_Budgets np) now numNodes reason (MaxInt32, false)) as Hf. cbv zeta in Hf.
  destruct (foldl _ _ _) as [allowed err]. cbn [fst snd orb] in Hf. destruct Hf as (Herr & _ & Hall & Hat).
  split.
  - intros (b & Hb & He). assert (err = true) as ->; [|done]. rewrite Herr. apply existsb_exists.
    exists b. by rewrite <- list_elem_of_In.
  - intros Hok. assert (err = false) as ->.
    { rewrite Herr. apply not_true_iff_false. intros (b & Hb%list_elem_of_In & He)%existsb_exists.
      rewrite (Hok b Hb) in He. done. }
    split_and!; [done|done|]. intros b _ Hb. unfold GetAllowedDisruptions. by rewrite Hb.
Qed.

(** When a scheduled budget is active.  A budget with a schedule and a duration
    is active exactly when the schedule fired within the half-open window that
    ends now and is the duration long: a firing exactly the duration ago no
    longer counts.  When the cron package finds no next activation the budget
    counts as active. *)
Theorem BudgetIsActive_window `{!CronLaws} b now spec d schedule
    (Hs : bg_Schedule b = Some spec) (Hd : bg_Duration b = Some d) (Hp : ParseStandard ("TZ=UTC " +:+ spec) = Some schedule) :
  (∀ h, Next schedule (now - d) = Some h →
     BudgetIsActive b now = Some true ↔ ∃ hit, fires schedule hit ∧ now - d < hit <= now) ∧
  (Next schedule (now - d) = None → BudgetIsActive b now = Some true).
Proof.
  assert (BudgetIsActive b now = Some (match Next schedule (now - d) with
            | Some nextHit => negb (now <? nextHit) | None => true end)) as ->.
  { unfold BudgetIsActive. rewrite Hs, Hd.
    change (default ""%string (Some spec)) with spec. by rewrite Hp. }
  split.
  - intros h Hn. rewrite Hn. apply Next_spec in Hn as (Hf & Hlt & Hleast).
    assert (Some (negb (now <? h)) = Some true ↔ h <= now) as ->.
    { rewrite (inj_iff Some), negb_true_iff, Z.ltb_ge. done. }
    split; [intros ?; exists h; split; [done|lia]|].
    intros (hit & Hhit & Hwin). specialize (Hleast hit Hhit). lia.
  - by intros ->.
Qed.

Section mapping_theory.
Context {Q : Type} {NI : NetIP}.
Implicit Types (n : StateNode Q) (nodes : list (StateNode Q)).

(** Nodes of a pool that pass a test. *)
Definition poolCount (test : StateNode Q → bool) (pool : string) nodes : Z :=
  Z.of_nat (length (List.filter (λ n, countsForBudget n && test n && String.eqb (poolOf n) pool) nodes)).

Lemma countNode_foldl nodes num dis pool :
  let r := foldl countNode (num, dis) nodes in
  default 0 (r.1 !! pool) = default 0 (num !! pool) + poolCount (λ _, true) pool nodes ∧
  default 0 (r.2 !! pool) = default 0 (dis !! pool) + poolCount consumesBudget pool nodes.
Proof.
  unfold poolCount. revert num dis. induction nodes as [|n nodes IH]; intros num dis; cbn [foldl]; [simpl; lia|].
  unfold countNode at 2 4. cbn [List.filter]. destruct (countsForBudget n); cbn [negb andb]; [|apply IH].
  assert (∀ m : gmap string Z, default 0 (<[poolOf n := default 0 (m !! poolOf n) + 1]> m !! pool) =
    default 0 (m !! pool) + if String.eqb (poolOf n) pool then 1 else 0) as Hinc.
  { intros m. rewrite lookup_insert. case_decide as Hk; [subst pool; rewrite String.eqb_refl; simpl; lia|].
    apply String.eqb_neq in Hk. rewrite Hk. lia. }
  destruct (consumesBudget n); cbn [andb].
  - destruct (IH (<[poolOf n := default 0 (num !! poolOf n) + 1]> num) (<[poolOf n := default 0 (dis !! poolOf n) + 1]> dis)) as [-> ->].
    rewrite !Hinc. destruct (String.eqb (poolOf n) pool); cbn [length]; lia.
  - destruct (IH (<[poolOf n := default 0 (num !! poolOf n) + 1]> num) dis) as [-> ->].
    rewrite !Hinc. destruct (String.eqb (poolOf n) pool); cbn [length]; lia.
Qed.

Lemma poolCount_le test pool nodes : poolCount test pool nodes <= poolCount (λ _, true) pool nodes.
Proof.
  unfold poolCount. induction nodes as [|n nodes IH]; [done|]. cbn [List.filter].
  destruct (countsForBudget n), (test n), (String.eqb (poolOf n) pool); cbn [andb length]; lia.
Qed.

Lemma mapping_lookup (f : NodePool → Z) (pools : list NodePool) (acc : gmap string Z) (pool : NodePool) :
  (∀ a c, a ∈ pools → c ∈ pools → np_Name a = np_Name c → a = c) →
  pool ∈ pools →
  foldl (λ mapping np, <[np_Name np := f np]> mapping) acc pools !! np_Name pool = Some (f pool).
Proof.
  induction pools as [|p pools IH] using rev_ind; intros Huniq Hin; [by apply not_elem_of_nil in Hin|].
  rewrite foldl_app. cbn [foldl]. rewrite lookup_insert. case_decide as Hn.
  - rewrite (Huniq p pool); [done|set_solver|done|done].
  - apply elem_of_app in Hin as [Hin| ->%list_elem_of_singleton]; [|done].
    apply IH; [|done]. intros a c Ha Hc. apply Huniq; set_solver.
Qed.

End mapping_theory.
End theory.

(** ** The number a budget names *)

(** The percentages the API accepts. *)
Definition percents : list Z := Z.of_nat <$> seq 0 101.

Lemma elem_of_percents p : 0 <= p <= 100 → p ∈ percents.
Proof.
  intros Hp. unfold percents. apply list_elem_of_fmap. exists (Z.to_nat p).
  rewrite elem_of_seq. split; lia.
Qed.

Lemma percents_forall (P : Z → bool) p : forallb P percents = true → 0 <= p <= 100 → P p = true.
Proof. intros Hall Hp. rewrite forallb_forall in Hall. by apply Hall, list_elem_of_In, elem_of_percents. Qed.

(** A percentage is not an integer for [Atoi]. *)
Lemma atoi_percent p : 0 <= p <= 100 → atoi (FormatInt p +:+ "%") = None.
Proof.
  intros Hp. pose proof (percents_forall (λ p, match atoi (FormatInt p +:+ "%") with None => true | Some _ => false end) p) as Hf.
  cbv beta in Hf. destruct (atoi (FormatInt p +:+ "%")); [|done].
  assert (false = true); [|done]. apply Hf; [vm_compute; reflexivity|done].
Qed.

Section value_theory.
Context {CR : Cron} `{IntStrLaws}.

Lemma ceilPercent_spec p total :
  0 <= p -> 0 <= total -> p * total <= 100 * ceilPercent p total < p * total + 100.
Proof. unfold ceilPercent. intros. Z.div_mod_to_equations. lia. Qed.

(** What an unscheduled budget allows: an integer budget its number; a
    percentage the share of the pool's nodes rounded up, so a non-zero
    percentage of a non-empty pool always allows at least one node, and never a
    whole node more than the exact share. *)
Theorem budget_value b now numNodes
    (Hs : bg_Schedule b = None) (Hd : bg_Duration b = None) (Hn : 0 <= numNodes) :
  (∀ v, in_int32 v → bg_Nodes b = FormatInt v → GetAllowedDisruptions b now numNodes = (v, false)) ∧
  (∀ p, 0 <= p <= 100 → bg_Nodes b = FormatInt p +:+ "%" →
     ∃ a, GetAllowedDisruptions b now numNodes = (a, false) ∧
          p * numNodes <= 100 * a < p * numNodes + 100 ∧ (0 < p → 0 < numNodes → 1 <= a)).
Proof.
  assert (BudgetIsActive b now = Some true) as Hact by (unfold BudgetIsActive; by rewrite Hs, Hd).
  unfold GetAllowedDisruptions. rewrite Hact. unfold GetIntStrFromValue. split.
  - intros v Hv ->. assert (atoi (FormatInt v) = Some v) as ->.
    { unfold atoi. by rewrite Atoi_FormatInt by int_lia. }
    by rewrite scaled_int.
  - intros p Hp ->. rewrite atoi_percent, scaled_percent by done. eexists. split; [done|].
    pose proof (ceilPercent_spec p numNodes ltac:(lia) Hn). split; [done|]. intros. nia.
Qed.
End value_theory.

(** * Witnesses *)

(** A schedule that fires every [n] nanoseconds. *)
Definition everyCron : Cron := {|
  CronSchedule := positive;
  ParseStandard _ := Some 3600000000000%positive;
  Next s t := Some ((t / Zpos s + 1) * Zpos s);
|}.

Definition everyCronLaws : @CronLaws everyCron.
Proof.
  refine (Build_CronLaws everyCron (λ s t, t mod Zpos s = 0) _).
  intros s t h [= <-]. split_and!.
  - apply Z.mod_mul. lia.
  - Z.div_mod_to_equations. nia.
  - intros h' Hf Hlt. apply Z.mod_divide in Hf as [k ->]; [|lia].
    assert (t / Zpos s < k) by (apply Z.div_lt_upper_bound; lia). nia.
Defined.

Definition simpleIntStr : IntStr := {|
  IntOrString := Z + string;
  FromInt v := inl v;
  FromString s := inr s;
  GetScaledValueFromIntOrPercent x total _ :=
    match x with
    | inl v => Some v
    | inr s => (λ p, ceilPercent p total) <$> List.find (λ p, String.eqb s (FormatInt p +:+ "%")) percents
    end;
|}.

Definition simpleIntStrLaws : @IntStrLaws simpleIntStr.
Proof.
  constructor; [done|]. intros p total Hp _.
  change ((λ q, ceilPercent q total) <$> List.find (λ q, String.eqb (FormatInt p +:+ "%") (FormatInt q +:+ "%")) percents
    = Some (ceilPercent p total)).
  assert (List.find (λ q, String.eqb (FormatInt p +:+ "%") (FormatInt q +:+ "%")) percents = Some p) as ->; [|done].
  pose proof (percents_forall (λ p, bool_decide (List.find (λ q, String.eqb (FormatInt p +:+ "%") (FormatInt q +:+ "%")) percents = Some p)) p) as Hf.
  apply (bool_decide_eq_true (List.find (λ q, String.eqb (FormatInt p +:+ "%") (FormatInt q +:+ "%")) percents = Some p)).
  apply Hf; [vm_compute; reflexivity|done].
Qed.

Definition tenPercent : Budget := mkBudget None "10%" None None.
Definition hourlyBudget : Budget := mkBudget None "0" (Some "@hourly"%string) (Some 600000000000).

Lemma budget_value_witness :
  ∃ a, @GetAllowedDisruptions everyCron simpleIntStr tenPercent 0 5 = (a, false) ∧
       10 * 5 <= 100 * a < 10 * 5 + 100 ∧ (0 < 10 → 0 < 5 → 1 <= a).
Proof.
  refine (proj2 (@budget_value everyCron simpleIntStr simpleIntStrLaws tenPercent 0 5 _ _ _) 10 _ _).
  - reflexivity.
  - reflexivity.
  - lia.
  - lia.
  - vm_compute. reflexivity.
Defined.

Lemma BudgetIsActive_window_witness :
  @BudgetIsActive everyCron hourlyBudget 3700000000000 = Some true ↔
  ∃ hit, @fires everyCron everyCronLaws 3600000000000%positive hit ∧
    3700000000000 - 600000000000 < hit <= 3700000000000.
Proof.
  refine (proj1 (@BudgetIsActive_window everyCron everyCronLaws hourlyBudget 3700000000000 "@hourly" 600000000000
    3600000000000%positive _ _ _) 3600000000000 _); reflexivity.
Defined.

Definition budgetPool : NodePool := mkNodePool "pool" [tenPercent].

