(* ===== verification/InstanceTypes.v ===== *)
(** * Instance types and offerings

    Model of the data and list operations of [pkg/cloudprovider/types.go].
    Prices are [float64]; quantities are the parameter of [Resources].  The set
    [WellKnownLabels] and the label [ReservationIDLabel] are package variables a
    cloud provider sets, [rand] is the random source of [Requirement.Any], and
    [overrideKey] is the text [fmt.Sprintf] prints for an offering's overrides. *)

From S2P Require Import Prelude Strconv Float64 Requirement Kube Requirements Resources.

(** ** Data *)

Record InstanceTypeOverhead (Q : Type) := mkOverhead {
  KubeReserved : ResourceList Q;
  SystemReserved : ResourceList Q;
  EvictionThreshold : ResourceList Q;
}.
Arguments mkOverhead {Q}.
Arguments KubeReserved {Q}.
Arguments SystemReserved {Q}.
Arguments EvictionThreshold {Q}.

Record Offering (Q : Type) := mkOffering {
  of_Requirements : Requirements;
  of_Price : float64;
  of_Available : bool;
  of_ReservationCapacity : Z;
  of_CapacityOverride : ResourceList Q;
  of_OverheadOverride : option (InstanceTypeOverhead Q);
}.
Arguments mkOffering {Q}.
Arguments of_Requirements {Q}.
Arguments of_Price {Q}.
Arguments of_Available {Q}.
Arguments of_ReservationCapacity {Q}.
Arguments of_CapacityOverride {Q}.
Arguments of_OverheadOverride {Q}.

Record InstanceType (Q : Type) := mkInstanceType {
  it_Name : string;
  it_Requirements : Requirements;
  it_Offerings : list (Offering Q);
  it_Capacity : ResourceList Q;
  it_Overhead : InstanceTypeOverhead Q;
}.
Arguments mkInstanceType {Q}.
Arguments it_Name {Q}.
Arguments it_Requirements {Q}.
Arguments it_Offerings {Q}.
Arguments it_Capacity {Q}.
Arguments it_Overhead {Q}.

Record AllocatableOfferings (Q : Type) := mkAllocatable {
  ao_Allocatable : ResourceList Q;
  ao_Offerings : list (Offering Q);
}.
Arguments mkAllocatable {Q}.
Arguments ao_Allocatable {Q}.
Arguments ao_Offerings {Q}.

Definition CapacityTypeLabelKey : string := "karpenter.sh/capacity-type".
Definition LabelTopologyZone : string := "topology.kubernetes.io/zone".
Definition CapacityTypeSpot : string := "spot".
Definition CapacityTypeOnDemand : string := "on-demand".
Definition CapacityTypeReserved : string := "reserved".
Definition ResourceMemory : string := "memory".
Definition ResourceHugePagesPrefix : string := "hugepages-".

(** The package variables of the cloud provider. *)
Class ProviderLabels := {
  WellKnownLabels : gset string;
  ReservationIDLabel : string;
}.

Section offerings.
Context {LT : LabelTables} {PL : ProviderLabels} {Q : Type} `{Quantity Q}.
Implicit Types (ofs : list (Offering Q)) (o : Offering Q) (reqs : Requirements).

(** ** Offerings *)

Definition Available ofs : list (Offering Q) := List.filter of_Available ofs.

(** The test of both [Compatible] and [HasCompatible]. *)
Definition offeringCompatible reqs o : bool := IsCompatible reqs (of_Requirements o) WellKnownLabels.

Definition CompatibleOfferings ofs reqs : list (Offering Q) := List.filter (offeringCompatible reqs) ofs.

Definition HasCompatible ofs reqs : bool := existsb (offeringCompatible reqs) ofs.

(** [lo.MinBy] / [lo.MaxBy]; [None] is the nil pointer of an empty slice. *)
Definition Cheapest ofs : option (Offering Q) :=
  best_by (λ a b, fltb (of_Price a) (of_Price b)) ofs.

Definition MostExpensive ofs : option (Offering Q) :=
  best_by (λ a b, fltb (of_Price b) (of_Price a)) ofs.

Definition capacityTypeRequirement (ct : string) : Requirements :=
  NewRequirements [NewRequirement CapacityTypeLabelKey OpIn [ct]].

Definition ReservedRequirement := capacityTypeRequirement CapacityTypeReserved.
Definition SpotRequirement := capacityTypeRequirement CapacityTypeSpot.
Definition OnDemandRequirement := capacityTypeRequirement CapacityTypeOnDemand.

(** The loop of both launch prices: the first capacity type with a compatible
    offering decides. *)
Fixpoint launchPrice (pick : list (Offering Q) → option (Offering Q)) ofs reqs
    (ctReqs : list Requirements) : float64 :=
  match ctReqs with
  | [] => MaxFloat64
  | ct :: rest =>
      let compatOfs := CompatibleOfferings (CompatibleOfferings ofs reqs) ct in
      match compatOfs, pick compatOfs with
      | _ :: _, Some o => of_Price o
      | _, _ => launchPrice pick ofs reqs rest
      end
  end.

Definition launchOrder : list Requirements := [ReservedRequirement; SpotRequirement; OnDemandRequirement].

Definition WorstLaunchPrice ofs reqs : float64 := launchPrice MostExpensive ofs reqs launchOrder.
Definition CheapestLaunchPrice ofs reqs : float64 := launchPrice Cheapest ofs reqs launchOrder.

(** Labels of an offering, read with [Requirement.Any]; [None] is its panic. *)
Definition CapacityType (rand : Z → Z) o : option string := Any rand (Get (of_Requirements o) CapacityTypeLabelKey).
Definition Zone (rand : Z → Z) o : option string := Any rand (Get (of_Requirements o) LabelTopologyZone).
Definition ReservationID (rand : Z → Z) o : option string := Any rand (Get (of_Requirements o) ReservationIDLabel).

(** ** Allocatable resources *)

Definition Total (i : InstanceTypeOverhead Q) : ResourceList Q :=
  Merge [KubeReserved i; SystemReserved i; EvictionThreshold i].

(** One hugepage size: what it reserves comes out of memory, never below zero. *)
Definition reserveHugepages (allocatable : ResourceList Q) (name : string) (quantity : Q) : ResourceList Q :=
  if String.prefix ResourceHugePagesPrefix name then
    let current := qsub (rget allocatable ResourceMemory) quantity in
    <[ResourceMemory := match qcmp current qzero with Lt => qofint 0 | _ => current end]> allocatable
  else allocatable.

Definition computeAllocatable (i : InstanceType Q) (capacityOverride : ResourceList Q)
    (overheadOverride : option (InstanceTypeOverhead Q)) : ResourceList Q :=
  let capacity :=
    if bool_decide (size capacityOverride = 0%nat) then it_Capacity i
    else Merge [it_Capacity i; capacityOverride] in
  let overhead :=
    match overheadOverride with
    | None => Total (it_Overhead i)
    | Some oo => Merge [Total (it_Overhead i); Total oo]
    end in
  foldl (λ acc kx, reserveHugepages acc kx.1 kx.2) (Subtract capacity overhead)
    (map_to_list capacity).

Definition hasOverride o : bool :=
  negb (bool_decide (size (of_CapacityOverride o) = 0%nat)) ||
  match of_OverheadOverride o with Some _ => true | None => false end.

(** The groups under construction: offerings per key, and the keys in order of
    first appearance. *)
Definition addToGroup (overrideKey : Offering Q → string * string)
    (st : gmap (string * string) (list (Offering Q)) * list (string * string)) o :=
  let '(groups, order) := st in
  if negb (of_Available o) then st
  else
    let key := if hasOverride o then overrideKey o else (""%string, ""%string) in
    match groups !! key with
    | Some ofs => (<[key := ofs ++ [o]]> groups, order)
    | None => (<[key := [o]]> groups, order ++ [key])
    end.

Definition groupOfferingsByOverride (overrideKey : Offering Q → string * string)
    (i : InstanceType Q) : list (AllocatableOfferings Q) :=
  let baseKey := (""%string, ""%string) in
  let '(groups, order) := foldl (addToGroup overrideKey) ({[baseKey := []]}, [baseKey]) (it_Offerings i) in
  imap (λ idx key,
    let ofs := default [] (groups !! key) in
    match idx, ofs with
    | O, _ | _, [] => mkAllocatable (computeAllocatable i ∅ None) ofs
    | _, o :: _ => mkAllocatable (computeAllocatable i (of_CapacityOverride o) (of_OverheadOverride o)) ofs
    end) order.

(** [precompute], whose result [AllocatableOfferingsList] caches. *)
Definition AllocatableOfferingsList (overrideKey : Offering Q → string * string)
    (i : InstanceType Q) : list (AllocatableOfferings Q) :=
  if existsb hasOverride (it_Offerings i) then groupOfferingsByOverride overrideKey i
  else [mkAllocatable (computeAllocatable i ∅ None) (Available (it_Offerings i))].

(** ** Lists of instance types *)

Definition CompatibleInstanceTypes (its : list (InstanceType Q)) reqs : list (InstanceType Q) :=
  List.filter (λ it, HasCompatible (Available (it_Offerings it)) reqs) its.

(** The sort key: the least price of an available compatible offering. *)
Definition minCompatiblePrice reqs (it : InstanceType Q) : float64 :=
  foldl (λ price o,
    if of_Available o && fltb (of_Price o) price && offeringCompatible reqs o then of_Price o else price)
    MaxFloat64 (it_Offerings it).

Definition OrderByPrice `{GoSort} (its : list (InstanceType Q)) reqs : list (InstanceType Q) :=
  (gosort (λ a b : float64 * InstanceType Q, fltb a.1 b.1)
    ((λ it, (minCompatiblePrice reqs it, it)) <$> its)).*2.

(** *** minValues *)

(** [valuesForKey[req.Key].Insert(it.Requirements.Get(req.Key).Values()...)]
    for every requirement with minValues. *)
Definition collectValues (requirements : Requirements) (valuesForKey : gmap string (gset string))
    (it : InstanceType Q) : gmap string (gset string) :=
  foldl (λ acc req,
    match MinValues req with
    | Some _ => <[Key req := default ∅ (acc !! Key req) ∪ list_to_set (Values (Get (it_Requirements it) (Key req)))]> acc
    | None => acc
    end) valuesForKey (ReqValues requirements).

(** The map of keys that are short of values, updated for every tracked key. *)
Definition updateIncompatible (requirements : Requirements) (valuesForKey : gmap string (gset string))
    (incompatibleKeys : gmap string Z) : gmap string Z :=
  foldl (λ acc kv,
    if Z.of_nat (size kv.2) <? default 0 (MinValues (Get requirements kv.1))
    then <[kv.1 := Z.of_nat (size kv.2)]> acc
    else delete kv.1 acc) incompatibleKeys (map_to_list valuesForKey).

Fixpoint satisfiesLoop (requirements : Requirements) (i : Z) (valuesForKey : gmap string (gset string))
    (incompatibleKeys : gmap string Z) (its : list (InstanceType Q)) : Z * gmap string Z :=
  match its with
  | [] => (i, incompatibleKeys)
  | it :: rest =>
      let valuesForKey' := collectValues requirements valuesForKey it in
      let incompatibleKeys' := updateIncompatible requirements valuesForKey' incompatibleKeys in
      if bool_decide (incompatibleKeys' = ∅) then (i + 1, ∅)
      else satisfiesLoop requirements (i + 1) valuesForKey' incompatibleKeys' rest
  end.

(** The number of instance types needed, and the keys that stay short (the
    returned error is non-nil exactly when there are any). *)
Definition SatisfiesMinValues (its : list (InstanceType Q)) (requirements : Requirements)
    : Z * gmap string Z :=
  if negb (HasMinValues requirements) then (0, ∅)
  else satisfiesLoop requirements 0 ∅ ∅ its.

(** [strict] is [MinValuesPolicy != BestEffort]; [inl] is the error, which comes
    with the (sorted) input. *)
Definition Truncate `{GoSort} (strict : bool) (its : list (InstanceType Q)) (requirements : Requirements)
    (maxItems : nat) : list (InstanceType Q) + list (InstanceType Q) :=
  let sorted := OrderByPrice its requirements in
  let truncated := take maxItems sorted in
  if HasMinValues requirements && strict &&
     negb (bool_decide ((SatisfiesMinValues truncated requirements).2 = ∅))
  then inl sorted else inr truncated.

(** [NodeClaim.RemoveInstanceTypeOptionsByPriceAndMinValues]; [None] is the
    minValues error. *)
Definition RemoveInstanceTypeOptionsByPriceAndMinValues (options : list (InstanceType Q)) reqs
    (maxPrice : float64) : option (list (InstanceType Q)) :=
  let kept := List.filter (λ it, fltb (WorstLaunchPrice (Available (it_Offerings it)) reqs) maxPrice) options in
  if bool_decide ((SatisfiesMinValues kept reqs).2 = ∅) then Some kept else None.
End offerings.

(** * Theory *)

Section price_theory.
Context {LT : LabelTables} {PL : ProviderLabels} {Q : Type} `{Quantity Q}.
Implicit Types (ofs : list (Offering Q)) (o : Offering Q) (reqs ct : Requirements).

(** A price is a number; nothing else is asked of it. *)
Definition priced o : Prop := is_nan (of_Price o) = false.

Lemma elem_of_CompatibleOfferings o ofs reqs :
  o ∈ CompatibleOfferings ofs reqs ↔ o ∈ ofs ∧ offeringCompatible reqs o = true.
Proof. unfold CompatibleOfferings. rewrite !list_elem_of_In, filter_In. done. Qed.

Lemma Forall_CompatibleOfferings P ofs reqs :
  Forall P ofs → Forall P (CompatibleOfferings ofs reqs).
Proof. rewrite !Forall_forall. intros HP o [Ho _]%elem_of_CompatibleOfferings. auto. Qed.

Lemma Cheapest_spec ofs o :
  Forall priced ofs → Cheapest ofs = Some o →
  o ∈ ofs ∧ ∀ o', o' ∈ ofs → fltb (of_Price o') (of_Price o) = false.
Proof.
  intros Hp Hc. refine (best_by_spec _ priced _ _ ofs o Hp Hc).
  - intros x y _ _. apply fltb_total.
  - intros x y z. apply fltb_weak.
Qed.

Lemma MostExpensive_spec ofs o :
  Forall priced ofs → MostExpensive ofs = Some o →
  o ∈ ofs ∧ ∀ o', o' ∈ ofs → fltb (of_Price o) (of_Price o') = false.
Proof.
  intros Hp Hc. refine (best_by_spec (λ a b, fltb (of_Price b) (of_Price a)) priced _ _ ofs o Hp Hc).
  - intros x y _ _. apply fltb_total.
  - intros x y z Hx Hy Hz H1 H2. exact (fltb_weak _ _ _ Hz Hy Hx H2 H1).
Qed.

(** The offerings a launch may use: those of the first capacity type of [cts]
    that has any. *)
Fixpoint launchable ofs reqs (cts : list Requirements) : list (Offering Q) :=
  match cts with
  | [] => []
  | ct :: rest =>
      match CompatibleOfferings (CompatibleOfferings ofs reqs) ct with
      | [] => launchable ofs reqs rest
      | l => l
      end
  end.

(** Both launch prices are the price the picking function takes from that one
    list. *)
Lemma launchPrice_launchable pick ofs reqs cts :
  (∀ l, pick l = None ↔ l = []) →
  launchPrice pick ofs reqs cts =
  match pick (launchable ofs reqs cts) with Some o => of_Price o | None => MaxFloat64 end.
Proof.
  intros Hpick. induction cts as [|ct cts IH]; cbn [launchPrice launchable].
  { by rewrite (proj2 (Hpick [])). }
  destruct (CompatibleOfferings (CompatibleOfferings ofs reqs) ct) as [|o l] eqn:Hc; [done|].
  destruct (pick (o :: l)) eqn:Hp; [done|]. by apply Hpick in Hp.
Qed.

Lemma launchable_sub ofs reqs cts o :
  o ∈ launchable ofs reqs cts → o ∈ ofs ∧ offeringCompatible reqs o = true.
Proof.
  induction cts as [|ct cts IH]; cbn [launchable]; [by intros ?%not_elem_of_nil|].
  destruct (CompatibleOfferings (CompatibleOfferings ofs reqs) ct) as [|o' l] eqn:Hc; [done|].
  rewrite <- Hc, !elem_of_CompatibleOfferings. tauto.
Qed.

Lemma launchable_priced ofs reqs cts : Forall priced ofs → Forall priced (launchable ofs reqs cts).
Proof.
  rewrite !Forall_forall. intros Hp o [Ho _]%launchable_sub. auto.
Qed.

Lemma CompatibleOfferings2_nil ofs reqs ct o :
  CompatibleOfferings (CompatibleOfferings ofs reqs) ct = [] →
  o ∈ ofs → offeringCompatible reqs o = true → offeringCompatible ct o = false.
Proof.
  intros Hc Ho Hr. apply not_true_iff_false. intros Hct.
  apply (not_elem_of_nil o). rewrite <- Hc, !elem_of_CompatibleOfferings. done.
Qed.

(** The list holds exactly the compatible offerings of one capacity type, and no
    earlier capacity type has a compatible offering. *)
Lemma launchable_spec ofs reqs cts :
  launchable ofs reqs cts ≠ [] →
  ∃ before ct after, cts = before ++ ct :: after ∧
    (∀ o, o ∈ launchable ofs reqs cts ↔
       o ∈ ofs ∧ offeringCompatible reqs o = true ∧ offeringCompatible ct o = true) ∧
    (∀ ct' o, ct' ∈ before → o ∈ ofs → offeringCompatible reqs o = true →
       offeringCompatible ct' o = false).
Proof.
  induction cts as [|ct cts IH]; cbn [launchable]; [done|].
  destruct (CompatibleOfferings (CompatibleOfferings ofs reqs) ct) as [|o' l] eqn:Hc.
  - intros Hne. destruct (IH Hne) as (before & ct0 & after & -> & Hin & Hnone).
    exists (ct :: before), ct0, after. split_and!; [done..|].
    intros ct' o [->|Hct']%elem_of_cons Ho Hr; [|by eapply Hnone].
    exact (CompatibleOfferings2_nil ofs reqs ct o Hc Ho Hr).
  - intros _. exists [], ct, cts. split_and!; [done| |].
    + intros o. rewrite <- Hc, !elem_of_CompatibleOfferings. tauto.
    + by intros ct' o ?%not_elem_of_nil.
Qed.

Lemma launchable_nil ofs reqs cts ct o :
  launchable ofs reqs cts = [] → ct ∈ cts → o ∈ ofs → offeringCompatible reqs o = true →
  offeringCompatible ct o = false.
Proof.
  induction cts as [|ct0 cts IH]; cbn [launchable]; [by intros _ ?%not_elem_of_nil|].
  destruct (CompatibleOfferings (CompatibleOfferings ofs reqs) ct0) as [|o' l'] eqn:Hc; [|done].
  intros Hl [->|Hct]%elem_of_cons Ho Hr; [|by apply IH].
  exact (CompatibleOfferings2_nil ofs reqs ct0 o Hc Ho Hr).
Qed.

Lemma launch_prices_bracket ofs reqs o :
  Forall priced ofs → o ∈ launchable ofs reqs launchOrder →
  fltb (of_Price o) (CheapestLaunchPrice ofs reqs) = false ∧
  fltb (WorstLaunchPrice ofs reqs) (of_Price o) = false.
Proof.
  intros Hp Ho. pose proof (launchable_priced ofs reqs launchOrder Hp) as Hlp.
  unfold CheapestLaunchPrice, WorstLaunchPrice.
  rewrite !launchPrice_launchable by (intros l; apply best_by_None).
  destruct (Cheapest (launchable ofs reqs launchOrder)) as [c|] eqn:Hc;
    [|apply best_by_None in Hc; rewrite Hc in Ho; by apply not_elem_of_nil in Ho].
  destruct (MostExpensive (launchable ofs reqs launchOrder)) as [w|] eqn:Hw;
    [|apply best_by_None in Hw; rewrite Hw in Ho; by apply not_elem_of_nil in Ho].
  apply Cheapest_spec in Hc as [_ Hc]; [|done]. apply MostExpensive_spec in Hw as [_ Hw]; [|done].
  auto.
Qed.

(** The two launch prices describe the same launch.  When no available
    offering is compatible with the requirements and one of the capacity types,
    both are [MaxFloat64].  Otherwise there is one capacity type, the first of
    reserved, spot, on-demand with a compatible offering, such that both prices
    are attained by compatible offerings of that type and every compatible
    offering of that type costs no less than the cheapest and no more than the
    worst price. *)
Theorem launch_prices ofs reqs (Hp : Forall priced ofs) :
  (WorstLaunchPrice ofs reqs = MaxFloat64 ∧ CheapestLaunchPrice ofs reqs = MaxFloat64 ∧
   ∀ ct o, ct ∈ launchOrder → o ∈ ofs → offeringCompatible reqs o = true →
     offeringCompatible ct o = false) ∨
  ∃ before ct after, launchOrder = before ++ ct :: after ∧
    (∀ ct' o, ct' ∈ before → o ∈ ofs → offeringCompatible reqs o = true →
       offeringCompatible ct' o = false) ∧
    (∃ o, o ∈ ofs ∧ offeringCompatible reqs o = true ∧ offeringCompatible ct o = true ∧
       of_Price o = WorstLaunchPrice ofs reqs) ∧
    (∃ o, o ∈ ofs ∧ offeringCompatible reqs o = true ∧ offeringCompatible ct o = true ∧
       of_Price o = CheapestLaunchPrice ofs reqs) ∧
    ∀ o, o ∈ ofs → offeringCompatible reqs o = true → offeringCompatible ct o = true →
      fltb (of_Price o) (CheapestLaunchPrice ofs reqs) = false ∧
      fltb (WorstLaunchPrice ofs reqs) (of_Price o) = false.
Proof.
  destruct (decide (launchable ofs reqs launchOrder = [])) as [Hl|Hl].
  - left. unfold WorstLaunchPrice, CheapestLaunchPrice.
    rewrite !launchPrice_launchable by (intros l; apply best_by_None). rewrite Hl. split_and!; [done..|].
    intros ct o. by apply launchable_nil.
  - right. destruct (launchable_spec ofs reqs launchOrder Hl) as (before & ct & after & Heq & Hin & Hnone).
    pose proof (launchable_priced ofs reqs launchOrder Hp) as Hlp.
    exists before, ct, after. split_and!; [done..| | |].
    + unfold WorstLaunchPrice. rewrite launchPrice_launchable by (intros l; apply best_by_None).
      destruct (MostExpensive (launchable ofs reqs launchOrder)) as [w|] eqn:Hw;
        [|by apply best_by_None in Hw].
      apply MostExpensive_spec in Hw as [Hw _]; [|done]. exists w. apply Hin in Hw. naive_solver.
    + unfold CheapestLaunchPrice. rewrite launchPrice_launchable by (intros l; apply best_by_None).
      destruct (Cheapest (launchable ofs reqs launchOrder)) as [w|] eqn:Hw;
        [|by apply best_by_None in Hw].
      apply Cheapest_spec in Hw as [Hw _]; [|done]. exists w. apply Hin in Hw. naive_solver.
    + intros o Ho Hr Hct. apply launch_prices_bracket; [done|]. by apply Hin.
Qed.
End price_theory.

Section order_theory.
Context {LT : LabelTables} {PL : ProviderLabels} {Q : Type} `{Quantity Q} {GS : GoSort}.
Implicit Types (it : InstanceType Q) (its : list (InstanceType Q)) (reqs : Requirements).

(** An available offering the requirements accept. *)
Definition usable reqs it (o : Offering Q) : Prop :=
  o ∈ it_Offerings it ∧ of_Available o = true ∧ offeringCompatible reqs o = true.

Lemma minCompatiblePrice_foldl reqs ofs p :
  is_nan p = false → Forall priced ofs →
  let r := foldl (λ price o,
    if of_Available o && fltb (of_Price o) price && offeringCompatible reqs o then of_Price o else price)
    p ofs in
  is_nan r = false ∧ fltb p r = false ∧
  (∀ o : Offering Q, o ∈ ofs → of_Available o = true → offeringCompatible reqs o = true → fltb (of_Price o) r = false) ∧
  (r = p ∨ ∃ o, o ∈ ofs ∧ of_Available o = true ∧ offeringCompatible reqs o = true ∧ r = of_Price o).
Proof.
  intros Hp Hofs. revert p Hp. induction Hofs as [|o ofs Ho Hofs IH]; intros p Hp; cbn [foldl].
  { split_and!; [done|apply fltb_irrefl|by intros o ?%not_elem_of_nil|by left]. }
  destruct (of_Available o && fltb (of_Price o) p && offeringCompatible reqs o) eqn:Hc.
  - apply andb_true_iff in Hc as [[Ha Hlt]%andb_true_iff Hcomp].
    destruct (IH (of_Price o) Ho) as (Hn & Hle & Hall & Hat). split_and!; [done| | |].
    + exact (fltb_weak _ _ _ Hn Ho Hp Hle (fltb_total _ _ Hlt)).
    + intros o' [->|Ho']%elem_of_cons; [done|by apply Hall].
    + right. destruct Hat as [->|(o' & ? & ? & ? & ?)]; [exists o|exists o']; rewrite elem_of_cons; auto.
  - destruct (IH p Hp) as (Hn & Hle & Hall & Hat). split_and!; [done..| |].
    + intros o' [->|Ho']%elem_of_cons Ha Hcomp; [|by apply Hall].
      rewrite Ha, Hcomp, andb_true_r in Hc. exact (fltb_weak _ _ _ Hn Hp Ho Hle Hc).
    + destruct Hat as [->|(o' & ? & ? & ? & ?)]; [by left|right; exists o'; rewrite elem_of_cons; auto].
Qed.

Lemma minCompatiblePrice_spec reqs it :
  Forall priced (it_Offerings it) →
  is_nan (minCompatiblePrice reqs it) = false ∧
  (∀ o, usable reqs it o → fltb (of_Price o) (minCompatiblePrice reqs it) = false) ∧
  (minCompatiblePrice reqs it = MaxFloat64 ∨ ∃ o, usable reqs it o ∧ of_Price o = minCompatiblePrice reqs it).
Proof.
  intros Hp. destruct (minCompatiblePrice_foldl reqs (it_Offerings it) MaxFloat64 eq_refl Hp)
    as (Hn & _ & Hall & Hat).
  split_and!; [done| |].
  - intros o (Ho & Ha & Hc). by apply Hall.
  - destruct Hat as [Heq|(o & ? & ? & ? & ?)]; [by left|right; by exists o].
Qed.

Lemma OrderByPrice_perm its reqs : OrderByPrice its reqs ≡ₚ its.
Proof.
  unfold OrderByPrice. rewrite gosort_perm, <- list_fmap_compose.
  by rewrite (list_fmap_ext _ id _ (λ _ _ _, eq_refl)), list_fmap_id.
Qed.

Lemma OrderByPrice_sorted its reqs :
  Forall (λ it, Forall priced (it_Offerings it)) its →
  StronglySorted (λ a b, fltb (minCompatiblePrice reqs b) (minCompatiblePrice reqs a) = false)
    (OrderByPrice its reqs).
Proof.
  intros Hp. rewrite Forall_forall in Hp. unfold OrderByPrice.
  set (keyed := (λ it, (minCompatiblePrice reqs it, it)) <$> its).
  assert (∀ x, x ∈ keyed → x.1 = minCompatiblePrice reqs x.2 ∧ is_nan x.1 = false) as Hk.
  { intros x (it & -> & Hit)%list_elem_of_fmap. split; [done|].
    by apply minCompatiblePrice_spec, Hp. }
  pose proof (gosort_sorted (λ a b : float64 * InstanceType Q, fltb a.1 b.1) keyed) as Hs.
  apply StronglySorted_fmap.
  assert (∀ x, x ∈ gosort (λ a b : float64 * InstanceType Q, fltb a.1 b.1) keyed → x ∈ keyed) as Hsub
    by (intros x; by rewrite gosort_perm).
  assert (StronglySorted (λ x y : float64 * InstanceType Q, fltb y.1 x.1 = false)
    (gosort (λ a b : float64 * InstanceType Q, fltb a.1 b.1) keyed)) as Hs'.
  { apply Hs.
    - intros x y _ _. apply fltb_total.
    - intros x y z Hx Hy Hz. apply fltb_weak; by apply Hk. }
  clear Hs. induction Hs' as [|x l Hs IH Hall]; constructor.
  - apply IH. set_solver.
  - rewrite Forall_forall in Hall |- *. intros y Hy.
    destruct (Hk x) as [Hx _]; [apply Hsub, list_elem_of_here|].
    destruct (Hk y) as [Hy' _]; [by apply Hsub, list_elem_of_further|].
    rewrite <- Hx, <- Hy'. by apply Hall.
Qed.

(** [OrderByPrice] permutes the instance types and orders them by launch
    cost: whenever one type is before another and has a usable offering (one
    that is available and compatible), it has a usable offering that costs no
    more than any usable offering of the later type.  Prices must be numbers
    not above [MaxFloat64]. *)
Theorem OrderByPrice_cheapest_first its reqs
    (Hp : Forall (λ it, Forall (λ o, priced o ∧ fltb MaxFloat64 (of_Price o) = false) (it_Offerings it)) its) :
  OrderByPrice its reqs ≡ₚ its ∧
  ∀ i j a b o', (i < j)%nat → OrderByPrice its reqs !! i = Some a → OrderByPrice its reqs !! j = Some b →
    usable reqs b o' → (∃ o, usable reqs a o) →
    ∃ o, usable reqs a o ∧ fltb (of_Price o') (of_Price o) = false.
Proof.
  split; [apply OrderByPrice_perm|]. intros i j a b o' Hij Ha Hb Ho' [o Ho].
  assert (Forall (λ it, Forall priced (it_Offerings it)) its) as Hp'.
  { eapply Forall_impl; [exact Hp|]. intros it Hit. eapply Forall_impl; [exact Hit|]. by intros ? [? _]. }
  rewrite Forall_forall in Hp.
  assert (∀ x y, OrderByPrice its reqs !! x = Some y → y ∈ its) as Hin.
  { intros x y Hx. rewrite <- (OrderByPrice_perm its reqs). by eapply list_elem_of_lookup_2. }
  pose proof (Hin _ _ Ha) as Hina. pose proof (Hin _ _ Hb) as Hinb.
  pose proof (StronglySorted_lookup_lt _ _ _ _ _ _ (OrderByPrice_sorted its reqs Hp') Ha Hb Hij) as Hab.
  simpl in Hab. rewrite Forall_forall in Hp'.
  destruct (minCompatiblePrice_spec reqs a (Hp' a Hina)) as (Hna & Halla & Hata).
  destruct (minCompatiblePrice_spec reqs b (Hp' b Hinb)) as (Hnb & Hallb & _).
  assert (is_nan (of_Price o') = false) as Hno'
    by (destruct Ho' as [Ho' _]; pose proof (Hp' b Hinb) as Hf; rewrite Forall_forall in Hf; by apply Hf).
  pose proof (fltb_weak _ _ _ Hna Hnb Hno' Hab (Hallb o' Ho')) as Hle.
  destruct Hata as [Hmax|(c & Hc & Hpc)]; [|exists c; by rewrite Hpc].
  exists o. split; [done|]. rewrite Hmax in *.
  pose proof (Hp a Hina) as Hf. rewrite Forall_forall in Hf.
  destruct (Hf o (proj1 Ho)) as [Hno Hcap].
  by apply (fltb_weak _ MaxFloat64 _).
Qed.
End order_theory.

Section minvalues_theory.
Context {LT : LabelTables} {PL : ProviderLabels} {Q : Type} `{Quantity Q}.
Implicit Types (it : InstanceType Q) (its : list (InstanceType Q)) (reqs : Requirements) (k : string).

(** The distinct values the instance types have for a key. *)
Definition distinctValues its k : gset string :=
  foldr (λ it vs, list_to_set (Values (Get (it_Requirements it) k)) ∪ vs) ∅ its.

(** The keys that have fewer distinct values than their minValues asks for,
    with the number they have. *)
Definition shortages reqs its : gmap string Z :=
  map_imap (λ k r,
    match MinValues r with
    | Some m => let n := Z.of_nat (size (distinctValues its k)) in if n <? m then Some n else None
    | None => None
    end) reqs.

Lemma lookup_shortages reqs its k :
  shortages reqs its !! k =
  match reqs !! k with
  | Some r =>
      match MinValues r with
      | Some m => let n := Z.of_nat (size (distinctValues its k)) in if n <? m then Some n else None
      | None => None
      end
  | None => None
  end.
Proof. unfold shortages. rewrite map_lookup_imap. by destruct (reqs !! k). Qed.

Lemma distinctValues_app its its' k :
  distinctValues (its ++ its') k = distinctValues its k ∪ distinctValues its' k.
Proof.
  induction its as [|it its IH]; simpl; [set_solver|]. rewrite IH. set_solver.
Qed.

Lemma shortages_mono reqs its its' : shortages reqs its = ∅ → shortages reqs (its ++ its') = ∅.
Proof.
  intros Hs. apply map_empty. intros k. apply (f_equal (λ m, m !! k)) in Hs.
  rewrite lookup_empty, lookup_shortages in Hs. rewrite lookup_shortages.
  destruct (reqs !! k) as [r|]; [|done]. destruct (MinValues r) as [m|]; [|done].
  cbv zeta in *. destruct (_ <? m) eqn:Hlt in Hs; [done|]. apply Z.ltb_ge in Hlt.
  assert (size (distinctValues its k) <= size (distinctValues (its ++ its') k))%nat.
  { apply subseteq_size. rewrite distinctValues_app. set_solver. }
  destruct (_ <? m) eqn:Hlt'; [|done]. apply Z.ltb_lt in Hlt'. lia.
Qed.

(** The two maps of the loop after the instance types of [seen]. *)
Definition tracked reqs its : gmap string (gset string) :=
  map_imap (λ k r, match MinValues r with Some _ => Some (distinctValues its k) | None => None end) reqs.

Lemma lookup_tracked reqs its k :
  tracked reqs its !! k =
  match reqs !! k with
  | Some r => match MinValues r with Some _ => Some (distinctValues its k) | None => None end
  | None => None
  end.
Proof. unfold tracked. rewrite map_lookup_imap. by destruct (reqs !! k). Qed.

Lemma collectValues_lookup reqs m it k :
  Requirements_wf reqs →
  collectValues reqs m it !! k =
  match reqs !! k with
  | Some r =>
      match MinValues r with
      | Some _ => Some (default ∅ (m !! k) ∪ list_to_set (Values (Get (it_Requirements it) k)))
      | None => m !! k
      end
  | None => m !! k
  end.
Proof.
  intros Hwf. unfold collectValues, ReqValues. rewrite foldl_fmap.
  rewrite (foldl_range_alter _ (λ k r old,
    match MinValues r with
    | Some _ => Some (default ∅ old ∪ list_to_set (Values (Get (it_Requirements it) k)))
    | None => old
    end)).
  - rewrite range_alter_lookup. by destruct (reqs !! k).
  - intros acc k' r Hr. simpl. apply (Requirements_wf_lookup _ _ _ Hwf) in Hr as (-> & _ & _).
    apply map_eq. intros k''. destruct (decide (k'' = k')) as [->|Hne].
    + rewrite lookup_partial_alter_eq. by destruct (MinValues r); [rewrite lookup_insert_eq|].
    + rewrite lookup_partial_alter_ne by done. by destruct (MinValues r); [rewrite lookup_insert_ne|].
Qed.

Lemma collectValues_tracked reqs its it m :
  Requirements_wf reqs → (m = tracked reqs its ∨ m = ∅ ∧ its = []) →
  collectValues reqs m it = tracked reqs (its ++ [it]).
Proof.
  intros Hwf Hm. apply map_eq. intros k.
  rewrite collectValues_lookup, lookup_tracked, distinctValues_app by done.
  assert (distinctValues [it] k = list_to_set (Values (Get (it_Requirements it) k))) as ->
    by (simpl; set_solver).
  destruct Hm as [->|[-> ->]].
  - rewrite lookup_tracked. destruct (reqs !! k) as [r|]; [|done]. by destruct (MinValues r).
  - rewrite lookup_empty. destruct (reqs !! k) as [r|]; [|done]. by destruct (MinValues r).
Qed.

Lemma updateIncompatible_tracked reqs its m :
  (∀ k, is_Some (m !! k) → is_Some (tracked reqs its !! k)) →
  updateIncompatible reqs (tracked reqs its) m = shortages reqs its.
Proof.
  intros Hm. apply map_eq. intros k. unfold updateIncompatible.
  rewrite (foldl_range_alter _ (λ k v old,
    if Z.of_nat (size v) <? default 0 (MinValues (Get reqs k)) then Some (Z.of_nat (size v)) else None)).
  - rewrite range_alter_lookup, lookup_shortages. specialize (Hm k). rewrite lookup_tracked in Hm |- *.
    unfold Get. destruct (reqs !! k) as [r|] eqn:Hr; [destruct (MinValues r) eqn:Hmin; [done|]|];
      (destruct (m !! k); [by destruct Hm as [? ?]|done]).
  - intros acc k' v _. cbn [fst snd]. by destruct (_ <? _).
Qed.

Lemma satisfiesLoop_spec reqs seen its vs inc :
  Requirements_wf reqs →
  (seen = [] ∧ vs = ∅ ∧ inc = ∅ ∨
   vs = tracked reqs seen ∧ inc = shortages reqs seen ∧ inc ≠ ∅) →
  let all := seen ++ its in
  let '(n, short) := satisfiesLoop reqs (Z.of_nat (length seen)) vs inc its in
  (short = ∅ ∧ ∃ p, n = Z.of_nat p ∧ (length seen < p <= length all)%nat ∧
     shortages reqs (take p all) = ∅ ∧
     ∀ q, (length seen < q < p)%nat → shortages reqs (take q all) ≠ ∅) ∨
  (n = Z.of_nat (length all) ∧ (all ≠ [] → short = shortages reqs all ∧ short ≠ ∅)).
Proof.
  intros Hwf. revert seen vs inc. induction its as [|it its IH]; intros seen vs inc Hinv all.
  { cbn [satisfiesLoop]. right. subst all. rewrite app_nil_r. split; [done|]. intros Hne.
    destruct Hinv as [(-> & _ & _)|(_ & -> & ?)]; done. }
  cbn [satisfiesLoop].
  rewrite (collectValues_tracked reqs seen it vs Hwf) by (destruct Hinv as [(-> & -> & _)|(-> & _)]; auto).
  rewrite updateIncompatible_tracked.
  2:{ intros k. destruct Hinv as [(_ & _ & ->)|(_ & -> & _)].
      - rewrite lookup_empty. by intros [? ?].
      - rewrite lookup_shortages, lookup_tracked. destruct (reqs !! k) as [r|]; [|by intros [? ?]].
        destruct (MinValues r); [eauto|by intros [? ?]]. }
  assert (all = (seen ++ [it]) ++ its) as Hall by (subst all; by rewrite <- (assoc_L (++))).
  assert (Z.of_nat (length seen) + 1 = Z.of_nat (length (seen ++ [it]))) as Hlen
    by (rewrite length_app; simpl; lia).
  rewrite Hlen. clearbody all. subst all.
  assert (length seen < length (seen ++ [it]))%nat as Hlt by (rewrite length_app; simpl; lia).
  case_bool_decide as Hs.
  - left. split; [done|]. exists (length (seen ++ [it])). split_and!; [done|done| | |].
    + rewrite (length_app (seen ++ [it])). lia.
    + by rewrite take_app_length.
    + intros q Hq. rewrite length_app in Hq. simpl in Hq. lia.
  - specialize (IH (seen ++ [it]) (tracked reqs (seen ++ [it])) (shortages reqs (seen ++ [it]))).
    destruct (satisfiesLoop _ _ _ _ _) as [n short].
    destruct IH as [(-> & p & -> & Hp & Hsat & Hleast)|Hrest]; [by right| |by right].
    left. split; [done|]. exists p. split_and!; [done|lia|lia|done|].
    intros q Hq. destruct (decide (q = length (seen ++ [it]))) as [->|Hqne].
    + by rewrite take_app_length.
    + apply Hleast. rewrite length_app in Hqne |- *. simpl in *. lia.
Qed.

(** For requirements with minValues and a non-empty list of instance types,
    [SatisfiesMinValues] reports exactly the keys for which the instance types
    offer fewer distinct values than required, each with the number offered.
    When there is no such key the returned count is the length of the shortest
    non-empty prefix that meets every minValues; otherwise it is the number of
    instance types. *)
Theorem SatisfiesMinValues_spec its reqs
    (Hwf : Requirements_wf reqs) (Hmin : HasMinValues reqs = true) (Hne : its ≠ []) :
  (SatisfiesMinValues its reqs).2 = shortages reqs its ∧
  (shortages reqs its ≠ ∅ → (SatisfiesMinValues its reqs).1 = Z.of_nat (length its)) ∧
  (shortages reqs its = ∅ → ∃ p, (SatisfiesMinValues its reqs).1 = Z.of_nat p ∧
     (0 < p <= length its)%nat ∧ shortages reqs (take p its) = ∅ ∧
     ∀ q, (0 < q < p)%nat → shortages reqs (take q its) ≠ ∅).
Proof.
  unfold SatisfiesMinValues. rewrite Hmin. cbn [negb].
  pose proof (satisfiesLoop_spec reqs [] its ∅ ∅ Hwf) as Hspec. cbn [length app] in Hspec.
  change (Z.of_nat 0) with 0 in Hspec. destruct (satisfiesLoop _ _ _ _ _) as [n short].
  destruct Hspec as [(-> & p & -> & Hp & Hsat & Hleast)|[-> Hs]]; [by left| |]; cbn [fst snd].
  - assert (shortages reqs its = ∅) as Hall.
    { rewrite <- (take_drop p its). by apply shortages_mono. }
    split_and!; [done|done|]. intros _. by exists p.
  - destruct (Hs Hne) as [-> Hshort]. split_and!; done.
Qed.
(** No reported shortage means no shortage. *)
Lemma SatisfiesMinValues_ok its reqs :
  Requirements_wf reqs → its ≠ [] → (SatisfiesMinValues its reqs).2 = ∅ → shortages reqs its = ∅.
Proof.
  intros Hwf Hne. unfold SatisfiesMinValues. destruct (HasMinValues reqs) eqn:Hm; cbn [negb].
  - pose proof (satisfiesLoop_spec reqs [] its ∅ ∅ Hwf (or_introl (conj eq_refl (conj eq_refl eq_refl)))) as Hs.
    cbn [length app] in Hs. change (Z.of_nat 0) with 0 in Hs.
    destruct (satisfiesLoop _ _ _ _ _) as [n short]. simpl. intros ->.
    destruct Hs as [(_ & p & _ & _ & Hsat & _)|[_ Hs]]; [|by destruct (Hs Hne) as [<- _]].
    rewrite <- (take_drop p its). by apply shortages_mono.
  - intros _. apply map_empty. intros k. rewrite lookup_shortages. destruct (reqs !! k) as [r|] eqn:Hr; [|done].
    destruct (MinValues r) as [m|] eqn:Hmv; [|done]. unfold HasMinValues in Hm.
    apply not_true_iff_false in Hm. destruct Hm. apply existsb_exists. exists r. split.
    + apply list_elem_of_In. unfold ReqValues. apply list_elem_of_fmap.
      exists (k, r). split; [done|]. by apply elem_of_map_to_list.
    + apply bool_decide_eq_true. congruence.
Qed.
End minvalues_theory.

(** ** Allocatable groups *)

Section group_theory.
Context {LT : LabelTables} {PL : ProviderLabels} {Q : Type} `{Quantity Q}.
Context (overrideKey : Offering Q → string * string) (i : InstanceType Q).
Implicit Types (o : Offering Q) (l : list (Offering Q)).

(** What the grouping relies on: the printed overrides determine the overrides,
    and the text of an override is never empty. *)
Definition faithful_keys : Prop :=
  ∀ o o', o ∈ it_Offerings i → o' ∈ it_Offerings i → hasOverride o = true → hasOverride o' = true →
  overrideKey o ≠ (""%string, ""%string) ∧
  (overrideKey o = overrideKey o' →
   of_CapacityOverride o = of_CapacityOverride o' ∧ of_OverheadOverride o = of_OverheadOverride o').

Definition groupKey o : string * string :=
  if hasOverride o then overrideKey o else (""%string, ""%string).

(** The allocatable resources of a node launched from an offering. *)
Definition offeringAllocatable o : ResourceList Q :=
  computeAllocatable i (of_CapacityOverride o) (of_OverheadOverride o).

Lemma offeringAllocatable_base o :
  hasOverride o = false → offeringAllocatable o = computeAllocatable i ∅ None.
Proof.
  unfold hasOverride, offeringAllocatable. intros Ho. destruct_bools.
  destruct (of_OverheadOverride o); [done|]. by apply map_size_empty_iff in H0 as ->.
Qed.

(** The loop's invariant: [order] lists the keys of [groups] once, base first,
    and each group holds the available offerings of its key in order. *)
Definition groups_ok l (st : gmap (string * string) (list (Offering Q)) * list (string * string)) : Prop :=
  NoDup st.2 ∧ head st.2 = Some (""%string, ""%string) ∧
  (∀ o, o ∈ Available l → groupKey o ∈ st.2) ∧
  (∀ k, st.1 !! k = if decide (k ∈ st.2) then Some (with_key groupKey (Available l) k) else None) ∧
  (∀ k, k ∈ st.2 → k ≠ (""%string, ""%string) → with_key groupKey (Available l) k ≠ []).

Lemma addToGroup_ok l st o : groups_ok l st → groups_ok (l ++ [o]) (addToGroup overrideKey st o).
Proof.
  destruct st as [groups order]. intros (Hnd & Hhd & Hkeys & Hg & Hne). unfold addToGroup, groups_ok.
  assert (Available (l ++ [o]) = Available l ++ (if of_Available o then [o] else [])) as Hav.
  { unfold Available. rewrite List.filter_app. simpl. by destruct (of_Available o). }
  rewrite Hav. destruct (of_Available o); cbn [negb]; [|by rewrite app_nil_r].
  fold (groupKey o).
  assert (∀ k, with_key groupKey (Available l ++ [o]) k =
    with_key groupKey (Available l) k ++ if decide (groupKey o = k) then [o] else []) as Hwk.
  { intros k. rewrite with_key_app. f_equal. unfold with_key. simpl.
    case_bool_decide; [by rewrite decide_True|by rewrite decide_False]. }
  simpl in *. rewrite Hg. destruct (decide (groupKey o ∈ order)) as [Hin|Hnin]; simpl; split_and!.
  - done.
  - done.
  - intros o' [Ho'| ->%list_elem_of_singleton]%elem_of_app; auto.
  - intros k. rewrite lookup_insert, Hwk. destruct (decide (groupKey o = k)) as [<-|Hk].
    + by rewrite decide_True.
    + rewrite app_nil_r. apply Hg.
  - intros k Hk Hb. rewrite Hwk. intros [Hnil _]%app_eq_nil. by apply (Hne k).
  - apply NoDup_app. split_and!; [done| |apply NoDup_singleton].
    intros k Hk ->%list_elem_of_singleton. done.
  - by destruct order.
  - intros o' [Ho'| ->%list_elem_of_singleton]%elem_of_app; apply elem_of_app; [left; auto|right; set_solver].
  - intros k. rewrite lookup_insert, Hwk. destruct (decide (groupKey o = k)) as [<-|Hk].
    + rewrite decide_True by set_solver. f_equal.
      destruct (with_key groupKey (Available l) (groupKey o)) as [|x w] eqn:Hw; [done|].
      assert (x ∈ with_key groupKey (Available l) (groupKey o)) as [Hx Hxk]%elem_of_with_key
        by (rewrite Hw; apply list_elem_of_here).
      apply Hkeys in Hx. rewrite Hxk in Hx. done.
    + rewrite app_nil_r, Hg. destruct (decide (k ∈ order)) as [|Hno].
      * by rewrite decide_True by set_solver.
      * rewrite decide_False; [done|]. rewrite elem_of_app, list_elem_of_singleton. naive_solver.
  - intros k Hk Hb. rewrite Hwk. apply elem_of_app in Hk as [Hk| ->%list_elem_of_singleton].
    + intros [Hnil _]%app_eq_nil. by apply (Hne k).
    + rewrite decide_True by done. by intros [_ ?]%app_eq_nil.
Qed.

Lemma addToGroup_all_ok l done st :
  groups_ok done st → groups_ok (done ++ l) (foldl (addToGroup overrideKey) st l).
Proof.
  revert done st. induction l as [|o l IH]; intros done st Hok; [by rewrite app_nil_r|].
  cbn [foldl]. rewrite (cons_middle o done l), (assoc_L (++)). by apply IH, addToGroup_ok.
Qed.

(** The groups the function builds from the final loop state. *)
Lemma groupOfferingsByOverride_spec :
  ∃ order, NoDup order ∧ head order = Some (""%string, ""%string) ∧
    (∀ o, o ∈ Available (it_Offerings i) → groupKey o ∈ order) ∧
    groupOfferingsByOverride overrideKey i =
    imap (λ idx key,
      let ofs := with_key groupKey (Available (it_Offerings i)) key in
      match idx, ofs with
      | O, _ | _, [] => mkAllocatable (computeAllocatable i ∅ None) ofs
      | _, o :: _ => mkAllocatable (offeringAllocatable o) ofs
      end) order.
Proof.
  pose proof (addToGroup_all_ok (it_Offerings i) [] ({[(""%string, ""%string) := []]}, [(""%string, ""%string)])) as Hok.
  unfold groupOfferingsByOverride.
  destruct (foldl (addToGroup overrideKey) _ _) as [groups order].
  destruct Hok as (Hnd & Hhd & Hkeys & Hg & _).
  { split_and!; simpl; [apply NoDup_singleton|done|by intros o ?%not_elem_of_nil| |].
    - intros k. destruct (decide (k ∈ _)) as [->%list_elem_of_singleton|Hk].
      + by rewrite lookup_singleton_eq.
      + rewrite lookup_singleton_ne; [done|]. intros <-. apply Hk. apply list_elem_of_here.
    - by intros k ->%list_elem_of_singleton. }
  simpl in *. exists order. split_and!; [done..|].
  apply list_eq. intros n. rewrite !list_lookup_imap.
  destruct (order !! n) as [k|] eqn:Hn; [|done]. simpl.
  rewrite Hg, decide_True by (by eapply list_elem_of_lookup_2). done.
Qed.

(** The allocatable groups of an instance type partition its available
    offerings, the first group carries the allocatable without overrides, and
    every offering is in a group that carries exactly the allocatable its own
    overrides give.  It relies on the printed overrides identifying the
    overrides. *)
Theorem AllocatableOfferingsList_partition (Hk : faithful_keys) :
  let groups := AllocatableOfferingsList overrideKey i in
  concat (ao_Offerings <$> groups) ≡ₚ Available (it_Offerings i) ∧
  (∀ g o, g ∈ groups → o ∈ ao_Offerings g → ao_Allocatable g = offeringAllocatable o) ∧
  ∃ base, head groups = Some base ∧ ao_Allocatable base = computeAllocatable i ∅ None.
Proof.
  assert (∀ o, o ∈ Available (it_Offerings i) → o ∈ it_Offerings i) as Hav.
  { intros o. unfold Available. rewrite !list_elem_of_In, filter_In. tauto. }
  unfold AllocatableOfferingsList. destruct (existsb hasOverride (it_Offerings i)) eqn:Hex.
  2:{ split_and!; simpl.
      - by rewrite app_nil_r.
      - intros g o ->%list_elem_of_singleton Ho. simpl. symmetry. apply offeringAllocatable_base.
        apply not_true_iff_false. intros Hov. apply not_true_iff_false in Hex. apply Hex, existsb_exists.
        exists o. split; [|done]. by apply list_elem_of_In, Hav.
      - eexists. split; [done|]. done. }
  destruct groupOfferingsByOverride_spec as (order & Hnd & Hhd & Hkeys & ->). cbv zeta. split_and!.
  - etransitivity; [|exact (concat_with_key groupKey (Available (it_Offerings i)) order Hnd Hkeys)].
    match goal with |- concat ?a ≡ₚ concat ?b => enough (a = b) as -> by done end.
    apply list_eq. intros n. rewrite !list_lookup_fmap, list_lookup_imap.
    destruct (order !! n) as [k|]; [|done]. simpl.
    destruct n; [done|]. by destruct (with_key groupKey _ k).
  - intros g o (n & Hn)%list_elem_of_lookup_1 Ho. rewrite list_lookup_imap in Hn.
    destruct (order !! n) as [k|] eqn:Hnk; [|done]. injection Hn as <-.
    destruct (with_key groupKey (Available (it_Offerings i)) k) as [|o1 w] eqn:Hw.
    { by destruct n; simpl in Ho; apply not_elem_of_nil in Ho. }
    assert (∀ x, x ∈ o1 :: w → x ∈ it_Offerings i ∧ groupKey x = k) as Hx.
    { intros x. rewrite <- Hw, elem_of_with_key. intros [? ?]. auto. }
    destruct order as [|k0 order]; [done|]. injection Hhd as ->.
    destruct n as [|n]; simpl in Ho |- *.
    + injection Hnk as <-. symmetry. apply offeringAllocatable_base.
      destruct (Hx o Ho) as [Hin Hgk]. unfold groupKey in Hgk. destruct (hasOverride o) eqn:Hov; [|done].
      by destruct (Hk o o Hin Hin Hov Hov).
    + assert (k ≠ (""%string, ""%string)) as Hnb.
      { intros ->. apply NoDup_cons in Hnd as [Hnd _]. by apply Hnd, (list_elem_of_lookup_2 _ n). }
      destruct (Hx o1 (list_elem_of_here _ _)) as [Hin1 Hgk1]. destruct (Hx o Ho) as [Hin Hgk].
      unfold groupKey in Hgk, Hgk1.
      destruct (hasOverride o) eqn:Hov; [|done]. destruct (hasOverride o1) eqn:Hov1; [|done].
      destruct (Hk o1 o Hin1 Hin Hov1 Hov) as [_ Heq]. unfold offeringAllocatable.
      destruct Heq as [-> ->]; [by rewrite Hgk, Hgk1|done].
  - destruct order as [|k0 order]; [done|]. injection Hhd as ->. simpl. eexists. split; [done|]. done.
Qed.
End group_theory.

(** ** What a node of an instance type can allocate *)

Section allocatable_theory.
Context {LT : LabelTables} {PL : ProviderLabels} {Q : Type} `{QuantityLaws Q}.
Implicit Types (i : InstanceType Q) (k : string).

(** The memory reserved as huge pages. *)
Definition hugepages (l : list (string * Q)) : list Z :=
  (λ kx, qval kx.2) <$> List.filter (λ kx, String.prefix ResourceHugePagesPrefix kx.1) l.

Definition reserveAll := foldl (λ (acc : ResourceList Q) kx, reserveHugepages acc kx.1 kx.2).

Lemma reserveHugepages_other acc name q k :
  k ≠ ResourceMemory → amount (reserveHugepages acc name q) k = amount acc k.
Proof.
  intros Hk. unfold reserveHugepages. destruct (String.prefix _ _); [|done].
  unfold amount, rget. by rewrite lookup_insert_ne.
Qed.

Lemma reserveHugepages_memory acc name q :
  String.prefix ResourceHugePagesPrefix name = true →
  amount (reserveHugepages acc name q) ResourceMemory = Z.max 0 (amount acc ResourceMemory - qval q).
Proof.
  intros Hp. unfold reserveHugepages. rewrite Hp. unfold amount at 1, rget at 1.
  rewrite lookup_insert_eq. simpl. rewrite qcmp_val. unfold amount.
  destruct (Z.compare_spec (qval (qsub (rget acc ResourceMemory) q)) (qval qzero)) as [Hc|Hc|Hc];
    autorewrite with go in *; lia.
Qed.

Lemma reserveAll_other l acc k : k ≠ ResourceMemory → amount (reserveAll acc l) k = amount acc k.
Proof.
  intros Hk. revert acc. induction l as [|[n q] l IH]; intros acc; [done|].
  unfold reserveAll in *. cbn [foldl fst snd]. by rewrite IH, reserveHugepages_other.
Qed.

Lemma foldr_add_nonneg (l : list Z) : Forall (λ z, 0 <= z) l → 0 <= foldr Z.add 0 l.
Proof. induction 1; simpl; lia. Qed.

Lemma reserveAll_memory l acc :
  Forall (λ kx, 0 <= qval kx.2) l →
  amount (reserveAll acc l) ResourceMemory =
  match hugepages l with
  | [] => amount acc ResourceMemory
  | hs => Z.max 0 (amount acc ResourceMemory - foldr Z.add 0 hs)
  end.
Proof.
  intros Hl. revert acc. induction Hl as [|[n q] l Hq Hl IH]; intros acc; [done|].
  unfold reserveAll in *. cbn [foldl fst snd]. rewrite IH. unfold hugepages. cbn [List.filter fst].
  destruct (String.prefix ResourceHugePagesPrefix n) eqn:Hp.
  - rewrite reserveHugepages_memory, fmap_cons by done. fold (hugepages l). simpl in *.
    assert (Forall (λ z, 0 <= z) (hugepages l)) as Hnn.
    { apply Forall_forall. intros z (kx & -> & Hkx)%list_elem_of_fmap.
      apply list_elem_of_In, filter_In in Hkx as [Hkx _]. rewrite Forall_forall in Hl.
      by apply Hl, list_elem_of_In. }
    apply foldr_add_nonneg in Hnn.
    destruct (hugepages l); simpl in *; lia.
  - unfold reserveHugepages. by rewrite Hp.
Qed.

(** What [computeAllocatable] returns.  An override adds to the base: every
    resource of the capacity other than memory is available in the amount base
    capacity plus override, less base overhead plus overhead override.  Memory
    is further reduced by all huge pages of the capacity, at any size, and is
    then not below zero. *)
Theorem computeAllocatable_amounts i (co : ResourceList Q) (oo : option (InstanceTypeOverhead Q)) :
  let cap := if bool_decide (size co = 0%nat) then it_Capacity i else Merge [it_Capacity i; co] in
  let net k := amount (it_Capacity i) k + amount co k - amount (Total (it_Overhead i)) k
               - match oo with Some ov => amount (Total ov) k | None => 0 end in
  (∀ k, k ≠ ResourceMemory → is_Some (cap !! k) → amount (computeAllocatable i co oo) k = net k) ∧
  (nonneg cap → is_Some (cap !! ResourceMemory) →
   amount (computeAllocatable i co oo) ResourceMemory =
   match hugepages (map_to_list cap) with
   | [] => net ResourceMemory
   | hs => Z.max 0 (net ResourceMemory - foldr Z.add 0 hs)
   end).
Proof.
  intros cap net.
  assert (∀ k, is_Some (cap !! k) →
    amount (Subtract cap (match oo with None => Total (it_Overhead i)
                          | Some ov => Merge [Total (it_Overhead i); Total ov] end)) k = net k) as Hnet.
  { intros k Hk. rewrite amount_Subtract, decide_True by done. subst net cap. cbv beta.
    assert (amount (if bool_decide (size co = 0%nat) then it_Capacity i else Merge [it_Capacity i; co]) k
            = amount (it_Capacity i) k + amount co k) as ->.
    { case_bool_decide as Hc; [apply map_size_empty_iff in Hc as ->; rewrite amount_empty; lia|].
      rewrite amount_Merge. simpl. lia. }
    destruct oo; [rewrite amount_Merge; simpl|]; lia. }
  unfold computeAllocatable. fold cap. fold reserveAll. split.
  - intros k Hk Hin. rewrite <- (Hnet k Hin). by apply reserveAll_other.
  - intros Hnn Hin. rewrite <- (Hnet _ Hin). apply reserveAll_memory.
    apply Forall_forall. intros [k q] Hkq%elem_of_map_to_list. by apply (Hnn k).
Qed.
End allocatable_theory.

(** ** Replacement candidates below a price *)

Section removal_theory.
Context {LT : LabelTables} {PL : ProviderLabels} {Q : Type} `{Quantity Q}.
Implicit Types (it : InstanceType Q) (its : list (InstanceType Q)) (reqs : Requirements).

Lemma WorstLaunchPrice_number ofs reqs :
  Forall (@priced Q) ofs → is_nan (WorstLaunchPrice ofs reqs) = false.
Proof.
  intros Hp. unfold WorstLaunchPrice. rewrite launchPrice_launchable by (intros l; apply best_by_None).
  destruct (MostExpensive _) as [o|] eqn:Ho; [|done].
  pose proof (launchable_priced ofs reqs launchOrder Hp) as Hlp.
  apply MostExpensive_spec in Ho as [Ho _]; [|done]. rewrite Forall_forall in Hlp. by apply Hlp.
Qed.

Lemma WorstLaunchPrice_lt ofs reqs maxPrice o :
  Forall (@priced Q) ofs → fltb (WorstLaunchPrice ofs reqs) maxPrice = true →
  o ∈ launchable ofs reqs launchOrder → fltb (of_Price o) maxPrice = true.
Proof.
  intros Hp Hlt Ho. destruct (launch_prices_bracket ofs reqs o Hp Ho) as [_ Hle].
  apply launchable_sub in Ho as [Ho _]. rewrite Forall_forall in Hp. pose proof (Hp o Ho) as Hno.
  rewrite <- Forall_forall in Hp. apply not_false_iff_true. intros Hnlt.
  pose proof (proj1 (fltb_spec _ _) Hlt) as (_ & Hnm & _).
  rewrite (fltb_weak maxPrice (of_Price o) (WorstLaunchPrice ofs reqs)) in Hlt;
    [done|done|done|by apply WorstLaunchPrice_number|done|done].
Qed.

(** After [RemoveInstanceTypeOptionsByPriceAndMinValues] succeeds, the
    remaining options are a sublist of the old ones, every available offering a
    remaining option could be launched with costs strictly less than the maximal
    price, each removed option could cost that much or more (or has nothing to
    launch), and no minValues is short unless nothing remains. *)
Theorem RemoveInstanceTypeOptions_cheaper its reqs maxPrice kept
    (Hp : Forall (λ it, Forall priced (it_Offerings it)) its) (Hwf : Requirements_wf reqs)
    (Hrun : RemoveInstanceTypeOptionsByPriceAndMinValues its reqs maxPrice = Some kept) :
  sublist kept its ∧
  (∀ it o, it ∈ kept → o ∈ launchable (Available (it_Offerings it)) reqs launchOrder →
     fltb (of_Price o) maxPrice = true) ∧
  (∀ it, it ∈ its → it ∉ kept →
     fltb (WorstLaunchPrice (Available (it_Offerings it)) reqs) maxPrice = false) ∧
  (kept ≠ [] → shortages reqs kept = ∅).
Proof.
  unfold RemoveInstanceTypeOptionsByPriceAndMinValues in Hrun.
  case_bool_decide as Hmin; [|done]. injection Hrun as <-. rewrite Forall_forall in Hp.
  split_and!.
  - clear. induction its as [|it its IH]; simpl; [done|]. case_goal; by constructor.
  - intros it o [Hit Hlt]%list_elem_of_In%filter_In Ho.
    eapply WorstLaunchPrice_lt; [|done|done]. apply Forall_forall. intros o'.
    unfold Available. rewrite list_elem_of_In, filter_In. intros [Ho' _].
    pose proof (Hp it (proj2 (list_elem_of_In _ _) Hit)) as Hf. rewrite Forall_forall in Hf.
    by apply Hf, list_elem_of_In.
  - intros it Hit Hnin. apply not_true_iff_false. intros Hlt. apply Hnin.
    apply list_elem_of_In, filter_In. by rewrite <- list_elem_of_In.
  - intros Hne. by apply SatisfiesMinValues_ok.
Qed.
End removal_theory.

(** * Witnesses *)

Section witnesses.
#[local] Existing Instance karpenterLabels.
#[local] Existing Instance karpenterLabels_ok.
#[local] Existing Instance stable_GoSort.

#[local] Instance exampleProvider : ProviderLabels := {|
  WellKnownLabels := {[CapacityTypeLabelKey; LabelTopologyZone]};
  ReservationIDLabel := "example.com/reservation-id";
|}.

(** Offerings priced one, two and three. *)
Definition exampleOffering (capacityType zone : string) (price : Z) : Offering Z :=
  mkOffering (NewRequirements [NewRequirement CapacityTypeLabelKey OpIn [capacityType];
                               NewRequirement LabelTopologyZone OpIn [zone]])
    (fofint price) true 0 ∅ None.

Definition noOverhead : InstanceTypeOverhead Z := mkOverhead ∅ ∅ ∅.

Definition exampleType (name : string) (ofs : list (Offering Z)) : InstanceType Z :=
  mkInstanceType name (NewRequirements [NewRequirement "family" OpIn [name]]) ofs
    {["cpu"%string := 4; "memory"%string := 16; "hugepages-2Mi"%string := 20]} noOverhead.

Definition small := exampleType "small"
  [exampleOffering CapacityTypeSpot "zone-a" 1; exampleOffering CapacityTypeOnDemand "zone-a" 3].
Definition large := exampleType "large" [exampleOffering CapacityTypeSpot "zone-a" 2].

Lemma launch_prices_witness :
  (WorstLaunchPrice (it_Offerings small) ∅ = MaxFloat64 ∧ CheapestLaunchPrice (it_Offerings small) ∅ = MaxFloat64 ∧
   ∀ ct o, ct ∈ launchOrder → o ∈ it_Offerings small → offeringCompatible ∅ o = true →
     offeringCompatible ct o = false) ∨
  ∃ before ct after, launchOrder = before ++ ct :: after ∧
    (∀ ct' o, ct' ∈ before → o ∈ it_Offerings small → offeringCompatible ∅ o = true →
       offeringCompatible ct' o = false) ∧
    (∃ o, o ∈ it_Offerings small ∧ offeringCompatible ∅ o = true ∧ offeringCompatible ct o = true ∧
       of_Price o = WorstLaunchPrice (it_Offerings small) ∅) ∧
    (∃ o, o ∈ it_Offerings small ∧ offeringCompatible ∅ o = true ∧ offeringCompatible ct o = true ∧
       of_Price o = CheapestLaunchPrice (it_Offerings small) ∅) ∧
    ∀ o, o ∈ it_Offerings small → offeringCompatible ∅ o = true → offeringCompatible ct o = true →
      fltb (of_Price o) (CheapestLaunchPrice (it_Offerings small) ∅) = false ∧
      fltb (WorstLaunchPrice (it_Offerings small) ∅) (of_Price o) = false.
Proof.
  apply (launch_prices (it_Offerings small) ∅). repeat constructor.
Defined.

Lemma OrderByPrice_cheapest_first_witness : OrderByPrice [large; small] ∅ ≡ₚ [large; small].
Proof.
  refine (proj1 (OrderByPrice_cheapest_first [large; small] ∅ _)). repeat constructor.
Defined.

Definition twoFamilies : Requirements :=
  NewRequirements [NewRequirementWithFlexibility "family" OpExists (Some 2) []].

Lemma twoFamilies_wf : Requirements_wf twoFamilies.
Proof. apply Add_wf; [apply map_Forall_empty|]. addable_list. Qed.

Lemma SatisfiesMinValues_spec_witness :
  (SatisfiesMinValues [large; small] twoFamilies).2 = shortages twoFamilies [large; small].
Proof.
  refine (proj1 (SatisfiesMinValues_spec [large; small] twoFamilies twoFamilies_wf _ _));
    [vm_compute; reflexivity|discriminate].
Defined.

Lemma AllocatableOfferingsList_partition_witness :
  concat (ao_Offerings <$> AllocatableOfferingsList (λ _, ("k", "k")%string) small) ≡ₚ Available (it_Offerings small).
Proof.
  refine (proj1 (AllocatableOfferingsList_partition (λ _, ("k", "k")%string) small _)).
  intros o o' Ho Ho' _ _. split; [discriminate|]. intros _.
  repeat (apply elem_of_cons in Ho as [->|Ho]); repeat (apply elem_of_cons in Ho' as [->|Ho']);
    try (by apply not_elem_of_nil in Ho); try (by apply not_elem_of_nil in Ho'); split; reflexivity.
Defined.

Lemma RemoveInstanceTypeOptions_cheaper_witness : sublist [small] [large; small].
Proof.
  refine (proj1 (RemoveInstanceTypeOptions_cheaper [large; small] ∅ (fofint 2) [small] _ _ _)).
  - repeat constructor.
  - apply map_Forall_empty.
  - vm_compute. reflexivity.
Defined.
End witnesses.
