(* ===== verification/ReservationManager.v ===== *)
(** * Reserved capacity

    Model of [pkg/controllers/provisioning/scheduling/reservationmanager.go]:
    which hostname holds which capacity reservation, and how much of each
    reservation is left.  A panic is [None].  [rand] is the random source of the
    label accessor [Offering.ReservationID]; an offering of a reservation has a
    single reservation id, for which it is not consulted. *)

From S2P Require Import Prelude Strconv Float64 Requirement Kube Requirements Resources InstanceTypes.

Record ReservationManager := mkReservationManager {
  reservations : gmap string (gset string);   (* hostname -> reservation ids *)
  capacity : gmap string Z;                    (* reservation id -> count *)
}.

Section operations.
Context {LT : LabelTables} {PL : ProviderLabels} {Q : Type} (rand : Z → Z).
Implicit Types (rm : ReservationManager) (hostname id : string) (ofr : Offering Q).

(** The body of the scan: an offering of reserved capacity lowers the recorded
    capacity of its reservation.  [None] is the panic of [ReservationID]. *)
Definition recordCapacity (acc : option (gmap string Z)) ofr : option (gmap string Z) :=
  capacity ← acc;
  match of_Requirements ofr !! CapacityTypeLabelKey with
  | Some ct =>
      if bool_decide (Operator ct = OpIn) && Has ct CapacityTypeReserved then
        id ← ReservationID rand ofr;
        match capacity !! id with
        | Some current =>
            if of_ReservationCapacity ofr <? current
            then Some (<[id := of_ReservationCapacity ofr]> capacity) else Some capacity
        | None => Some (<[id := of_ReservationCapacity ofr]> capacity)
        end
      else Some capacity
  | None => Some capacity
  end.

Definition buildReservationCapacity (instanceTypes : gmap string (list (InstanceType Q))) : option (gmap string Z) :=
  foldl recordCapacity (Some ∅)
    (mjoin (it_Offerings <$> mjoin (map_to_list instanceTypes).*2)).

Definition NewReservationManager (instanceTypes : gmap string (list (InstanceType Q))) : option ReservationManager :=
  mkReservationManager ∅ <$> buildReservationCapacity instanceTypes.

(** [ok && reservations.Has(id)] *)
Definition holds rm hostname id : bool :=
  match reservations rm !! hostname with Some ids => bool_decide (id ∈ ids) | None => false end.

(** [rm.capacity[id]], zero when missing. *)
Definition remaining rm id : Z := default 0 (capacity rm !! id).

Definition CanReserve rm hostname ofr : option bool :=
  id ← ReservationID rand ofr;
  if holds rm hostname id then Some true
  else
    c ← capacity rm !! id;
    Some (negb (c =? 0)).

Definition reserveID rm hostname id : option ReservationManager :=
  if holds rm hostname id then Some rm
  else
    let left := wrap64 (remaining rm id - 1) in
    if left <? 0 then None
    else Some (mkReservationManager
      (<[hostname := default ∅ (reservations rm !! hostname) ∪ {[id]}]> (reservations rm))
      (<[id := left]> (capacity rm))).

Fixpoint Reserve rm hostname (offerings : list (Offering Q)) : option ReservationManager :=
  match offerings with
  | [] => Some rm
  | ofr :: rest =>
      id ← ReservationID rand ofr;
      rm' ← reserveID rm hostname id;
      Reserve rm' hostname rest
  end.

Definition releaseID rm hostname id : ReservationManager :=
  match reservations rm !! hostname with
  | Some ids =>
      if bool_decide (id ∈ ids) then
        mkReservationManager
          (<[hostname := ids ∖ {[id]}]> (reservations rm))
          (<[id := wrap64 (remaining rm id + 1)]> (capacity rm))
      else rm
  | None => rm
  end.

Fixpoint Release rm hostname (offerings : list (Offering Q)) : option ReservationManager :=
  match offerings with
  | [] => Some rm
  | ofr :: rest =>
      id ← ReservationID rand ofr;
      Release (releaseID rm hostname id) hostname rest
  end.

Definition HasReservation rm hostname ofr : option bool := holds rm hostname <$> ReservationID rand ofr.

Definition RemainingCapacity rm ofr : option Z := remaining rm <$> ReservationID rand ofr.
End operations.

(** * Theory *)

Section theory.
Context {LT : LabelTables} {PL : ProviderLabels} {Q : Type} (rand : Z → Z).
Implicit Types (rm : ReservationManager) (h hostname id : string) (ofr : Offering Q).

(** The hostnames that hold a reservation. *)
Definition holders rm id : gset string :=
  dom (filter (λ hs : string * gset string, id ∈ hs.2) (reservations rm)).

Lemma elem_of_holders rm id h : h ∈ holders rm id ↔ holds rm h id = true.
Proof.
  unfold holders, holds. rewrite elem_of_dom. unfold is_Some. setoid_rewrite map_lookup_filter_Some. simpl.
  destruct (reservations rm !! h) as [ids|]; [rewrite bool_decide_eq_true|]; naive_solver.
Qed.

(** Every unit of the initial capacity is either left or held by one host. *)
Definition conserved (cap0 : gmap string Z) rm : Prop :=
  ∀ id, 0 <= remaining rm id ∧
        remaining rm id + Z.of_nat (size (holders rm id)) = default 0 (cap0 !! id).

Definition capacity_ok (cap0 : gmap string Z) : Prop := ∀ id c, cap0 !! id = Some c → 0 <= c <= MaxInt64.

Lemma conserved_bound cap0 rm id :
  capacity_ok cap0 → conserved cap0 rm → 0 <= remaining rm id <= MaxInt64.
Proof.
  intros Hc Hrm. destruct (Hrm id) as [H1 H2]. split; [done|].
  specialize (Hc id). destruct (cap0 !! id) as [c|]; simpl in H2; [specialize (Hc c eq_refl)|]; int_lia.
Qed.

Lemma holders_reserve rm h id left id' :
  holders (mkReservationManager
      (<[h := default ∅ (reservations rm !! h) ∪ {[id]}]> (reservations rm)) left) id' =
  if decide (id' = id) then holders rm id' ∪ {[h]} else holders rm id'.
Proof.
  apply set_eq. intros h'.
  assert (h' ∈ (if decide (id' = id) then holders rm id' ∪ {[h]} else holders rm id') ↔
          holds rm h' id' = true ∨ id' = id ∧ h' = h) as ->.
  { rewrite <- elem_of_holders. case_decide; set_solver. }
  rewrite elem_of_holders. unfold holds. simpl. rewrite lookup_insert.
  destruct (decide (h = h')) as [<-|Hh].
  - rewrite bool_decide_eq_true. destruct (reservations rm !! h) as [ids|]; simpl.
    + rewrite bool_decide_eq_true. set_solver.
    + set_solver.
  - naive_solver.
Qed.

Lemma holders_release rm h id ids left id' :
  reservations rm !! h = Some ids →
  holders (mkReservationManager (<[h := ids ∖ {[id]}]> (reservations rm)) left) id' =
  if decide (id' = id) then holders rm id' ∖ {[h]} else holders rm id'.
Proof.
  intros Hids. apply set_eq. intros h'.
  assert (h' ∈ (if decide (id' = id) then holders rm id' ∖ {[h]} else holders rm id') ↔
          holds rm h' id' = true ∧ (id' = id → h' ≠ h)) as ->.
  { rewrite <- elem_of_holders. case_decide; set_solver. }
  rewrite elem_of_holders. unfold holds. simpl. rewrite lookup_insert.
  destruct (decide (h = h')) as [<-|Hh]; [|naive_solver].
  rewrite Hids, !bool_decide_eq_true. set_solver.
Qed.

Lemma remaining_insert rs cap id c id' :
  remaining (mkReservationManager rs (<[id := c]> cap)) id' =
  if decide (id' = id) then c else default 0 (cap !! id').
Proof.
  unfold remaining. simpl. rewrite lookup_insert. repeat case_decide; by subst.
Qed.

Lemma reserveID_conserved cap0 rm h id rm' :
  capacity_ok cap0 → conserved cap0 rm → reserveID rm h id = Some rm' → conserved cap0 rm'.
Proof.
  intros Hc Hrm. unfold reserveID. destruct (holds rm h id) eqn:Hh; [by intros [= <-]|].
  pose proof (conserved_bound cap0 rm id Hc Hrm) as Hb.
  rewrite wrap64_id by int_lia. destruct (_ <? 0) eqn:Hlt; [done|]. apply Z.ltb_ge in Hlt.
  intros [= <-] id'. rewrite holders_reserve, remaining_insert. fold (remaining rm id').
  destruct (Hrm id') as [H1 H2]. case_decide as Heq; [subst id'|done].
  rewrite size_union.
  - rewrite size_singleton. lia.
  - apply disjoint_singleton_r. rewrite elem_of_holders. congruence.
Qed.

Lemma releaseID_conserved cap0 rm h id :
  capacity_ok cap0 → conserved cap0 rm → conserved cap0 (releaseID rm h id).
Proof.
  intros Hc Hrm. unfold releaseID. destruct (reservations rm !! h) as [ids|] eqn:Hids; [|done].
  case_bool_decide as Hin; [|done]. intros id'.
  rewrite (holders_release rm h id ids) by done. rewrite remaining_insert. fold (remaining rm id').
  destruct (Hrm id') as [H1 H2]. case_decide as Heq; [subst id'|done].
  assert (h ∈ holders rm id) as Hh.
  { apply elem_of_holders. unfold holds. rewrite Hids. by apply bool_decide_eq_true. }
  assert (size (holders rm id) = S (size (holders rm id ∖ {[h]}))) as Hsz.
  { rewrite (union_difference_singleton_L h (holders rm id)) at 1 by done.
    rewrite size_union by set_solver. rewrite size_singleton. lia. }
  assert (remaining rm id < MaxInt64).
  { specialize (Hc id). destruct (cap0 !! id) as [c|]; simpl in H2; [specialize (Hc c eq_refl)|]; int_lia. }
  rewrite wrap64_id by int_lia. lia.
Qed.

(** The calls the scheduler makes. *)
Inductive rm_step : ReservationManager → ReservationManager → Prop :=
  | step_reserve rm h (ofs : list (Offering Q)) rm' : Reserve rand rm h ofs = Some rm' → rm_step rm rm'
  | step_release rm h (ofs : list (Offering Q)) rm' : Release rand rm h ofs = Some rm' → rm_step rm rm'.

Lemma rm_step_conserved cap0 rm rm' :
  capacity_ok cap0 → conserved cap0 rm → rm_step rm rm' → conserved cap0 rm'.
Proof.
  intros Hc Hrm Hs. destruct Hs as [rm h ofs rm' Hr|rm h ofs rm' Hr];
    revert rm Hrm Hr; induction ofs as [|o ofs IH]; intros rm Hrm Hr; cbn [Reserve Release] in Hr;
    try (by injection Hr as <-); destruct (ReservationID rand o) as [id|]; simpl in Hr; try done.
  - destruct (reserveID rm h id) as [rm1|] eqn:H1; [|done]. simpl in Hr.
    eapply IH; [|done]. by eapply reserveID_conserved.
  - eapply IH; [|done]. by apply releaseID_conserved.
Qed.

(** A reservation once known stays known. *)
Lemma reserveID_tracks rm h id rm' id' :
  reserveID rm h id = Some rm' → is_Some (capacity rm !! id') → is_Some (capacity rm' !! id').
Proof.
  unfold reserveID. destruct (holds rm h id); [by intros [= <-]|]. destruct (_ <? 0); [done|].
  intros [= <-] ?. simpl. rewrite lookup_insert. case_decide; eauto.
Qed.

Lemma releaseID_tracks rm h id id' : is_Some (capacity rm !! id') → is_Some (capacity (releaseID rm h id) !! id').
Proof.
  unfold releaseID. destruct (reservations rm !! h); [|done]. case_bool_decide; [|done].
  intros ?. simpl. rewrite lookup_insert. case_decide; eauto.
Qed.

Lemma Reserve_tracks rm h (ofs : list (Offering Q)) rm' id' :
  Reserve rand rm h ofs = Some rm' → is_Some (capacity rm !! id') → is_Some (capacity rm' !! id').
Proof.
  revert rm. induction ofs as [|o ofs IH]; intros rm; cbn [Reserve]; [by intros [= <-]|].
  intros (id & _ & (rm1 & H1 & Hr)%bind_Some)%bind_Some ?. apply (IH rm1 Hr). by apply (reserveID_tracks rm h id).
Qed.

(** C5. Reserved capacity is conserved.  From a manager with non-negative
    capacities and no reservations, after any sequence of [Reserve] and
    [Release] calls that do not panic, the capacity left of every reservation
    plus the number of hostnames holding it is the initial capacity, and what is
    left is never negative: no reservation is promised to more hosts than it
    has capacity for. *)
Theorem reservations_conserved cap0 rm id (Hc : capacity_ok cap0)
    (Hreach : rtc rm_step (mkReservationManager ∅ cap0) rm) :
  remaining rm id + Z.of_nat (size (holders rm id)) = default 0 (cap0 !! id) ∧
  0 <= remaining rm id ∧ Z.of_nat (size (holders rm id)) <= default 0 (cap0 !! id).
Proof.
  assert (conserved cap0 (mkReservationManager ∅ cap0)) as Hinit.
  { intros id'. unfold holders, remaining. simpl. rewrite map_filter_empty, dom_empty_L, size_empty.
    specialize (Hc id'). destruct (cap0 !! id') as [c|]; simpl; [specialize (Hc c eq_refl)|]; lia. }
  assert (conserved cap0 rm) as Hrm.
  { revert Hinit. induction Hreach as [|rm0 rm1 rm2 Hs _ IH]; [done|]. intros Hrm0.
    by apply IH, (rm_step_conserved cap0 rm0). }
  destruct (Hrm id). lia.
Qed.

Lemma reserveID_holds rm h id rm' h' id' :
  reserveID rm h id = Some rm' → holds rm' h' id' = holds rm h' id' || bool_decide (h' = h ∧ id' = id).
Proof.
  unfold reserveID. destruct (holds rm h id) eqn:Hh.
  - intros [= <-]. case_bool_decide as Heq; [destruct Heq as [-> ->]; by rewrite Hh|by rewrite orb_false_r].
  - destruct (_ <? 0); [done|]. intros [= <-]. apply bool_eq_iff.
    rewrite <- elem_of_holders, holders_reserve, orb_true_iff, <- elem_of_holders, bool_decide_eq_true.
    case_decide; set_solver.
Qed.

Lemma reserveID_succeeds rm h id :
  0 <= remaining rm id <= MaxInt64 → (holds rm h id = true ∨ remaining rm id ≠ 0) →
  is_Some (reserveID rm h id).
Proof.
  intros Hb Hok. unfold reserveID. destruct (holds rm h id); [eauto|].
  destruct Hok as [|Hne]; [done|]. rewrite wrap64_id by int_lia.
  destruct (_ <? 0) eqn:Hlt; [|eauto]. apply Z.ltb_lt in Hlt. lia.
Qed.

Lemma reserveID_other_remaining rm h id rm' id' :
  reserveID rm h id = Some rm' → id' ≠ id → remaining rm' id' = remaining rm id'.
Proof.
  unfold reserveID. destruct (holds rm h id); [by intros [= <-]|]. destruct (_ <? 0); [done|].
  intros [= <-] Hne. by rewrite remaining_insert, decide_False.
Qed.

(** The guard under which [Reserve] may be called. *)
Lemma CanReserve_true rm h ofr :
  CanReserve rand rm h ofr = Some true ↔
  ∃ id, ReservationID rand ofr = Some id ∧
    (holds rm h id = true ∨ is_Some (capacity rm !! id) ∧ remaining rm id ≠ 0).
Proof.
  unfold CanReserve, remaining. destruct (ReservationID rand ofr) as [id|]; simpl; [|naive_solver].
  destruct (holds rm h id) eqn:Hh; simpl; [naive_solver|].
  destruct (capacity rm !! id) as [c|] eqn:Hcap; simpl.
  - split.
    + intros [= Hc]. apply negb_true_iff, Z.eqb_neq in Hc. exists id. rewrite Hh, Hcap. simpl. eauto.
    + intros (id' & [= <-] & [?|[_ Hc]]); [congruence|]. rewrite Hcap in Hc. simpl in Hc.
      by rewrite (proj2 (Z.eqb_neq c 0)).
  - split; [done|]. intros (id' & [= <-] & [?|[[? ?] _]]); congruence.
Qed.

Lemma Reserve_guarded rm h ofs cap0 :
  capacity_ok cap0 → conserved cap0 rm →
  (∀ ofr, ofr ∈ ofs → ∃ id, ReservationID rand ofr = Some id ∧ (holds rm h id = true ∨ remaining rm id ≠ 0)) →
  ∃ rm', Reserve rand rm h ofs = Some rm' ∧
    (∀ h' id, holds rm' h' id = true ↔
       holds rm h' id = true ∨ h' = h ∧ ∃ ofr, ofr ∈ ofs ∧ ReservationID rand ofr = Some id).
Proof.
  intros Hc. revert rm. induction ofs as [|o ofs IH]; intros rm Hrm Hall; cbn [Reserve].
  { exists rm. split; [done|]. intros h' id. set_solver. }
  destruct (Hall o) as (id & Hid & Hok); [apply list_elem_of_here|]. rewrite Hid. simpl.
  destruct (reserveID_succeeds rm h id) as [rm1 H1]; [by eapply conserved_bound|done|].
  rewrite H1. simpl.
  destruct (IH rm1) as (rm' & Hr & Hholds).
  { by eapply reserveID_conserved. }
  { intros ofr Hof. destruct (Hall ofr) as (id' & Hid' & Hok'); [by apply list_elem_of_further|].
    exists id'. split; [done|]. rewrite (reserveID_holds _ _ _ _ _ _ H1).
    destruct (decide (id' = id)) as [->|Hne].
    - left. by rewrite (bool_decide_eq_true_2 (h = h ∧ id = id)), orb_true_r.
    - rewrite (reserveID_other_remaining _ _ _ _ _ H1 Hne). destruct Hok' as [->|?]; auto. }
  exists rm'. split; [done|]. intros h' id'.
  rewrite Hholds, (reserveID_holds _ _ _ _ _ _ H1), orb_true_iff, bool_decide_eq_true.
  setoid_rewrite elem_of_cons. split.
  - intros [[?|[-> ->]]|[-> (ofr & ? & ?)]]; eauto 7.
  - intros [?|[-> (ofr & [->|?] & Hof)]]; [auto| |eauto 6].
    rewrite Hid in Hof. injection Hof as <-. auto.
Qed.

(** [Reserve] never panics when every offering passed [CanReserve] for the
    hostname: in every state reached from the initial capacities, reserving a
    list of such offerings succeeds, and afterwards the hostname holds exactly
    what it held before and those reservations, while the other hostnames hold
    what they held. *)
Theorem Reserve_after_CanReserve cap0 rm h ofs (Hc : capacity_ok cap0) (Hrm : conserved cap0 rm)
    (Hcan : ∀ ofr, ofr ∈ ofs → CanReserve rand rm h ofr = Some true) :
  ∃ rm', Reserve rand rm h ofs = Some rm' ∧ conserved cap0 rm' ∧
    ∀ h' id, holds rm' h' id = true ↔
      holds rm h' id = true ∨ h' = h ∧ ∃ ofr, ofr ∈ ofs ∧ ReservationID rand ofr = Some id.
Proof.
  destruct (Reserve_guarded rm h ofs cap0 Hc Hrm) as (rm' & Hr & Hholds).
  { intros ofr Hof. apply Hcan, CanReserve_true in Hof as (id & ? & Hok). exists id. naive_solver. }
  exists rm'. split_and!; [done| |done].
  apply (rm_step_conserved cap0 rm); [done..|]. by apply (step_reserve _ h ofs).
Qed.

(** [Release] undoes [Reserve]: giving back a reservation the hostname did not
    hold before restores the remaining capacity of every reservation and what
    every hostname holds; releasing twice changes nothing more. *)
Theorem Release_Reserve cap0 rm h ofr rm' (Hc : capacity_ok cap0) (Hrm : conserved cap0 rm)
    (Hnew : HasReservation rand rm h ofr = Some false) (Hres : Reserve rand rm h [ofr] = Some rm') :
  ∃ rm'', Release rand rm' h [ofr] = Some rm'' ∧ Release rand rm'' h [ofr] = Some rm'' ∧
    ∀ h' id, holds rm'' h' id = holds rm h' id ∧ remaining rm'' id = remaining rm id.
Proof.
  unfold HasReservation in Hnew. cbn [Reserve Release] in *.
  destruct (ReservationID rand ofr) as [id|]; simpl in *; [|done]. injection Hnew as Hnew.
  destruct (reserveID rm h id) as [rm1|] eqn:H1; simpl in Hres; [|done]. injection Hres as <-.
  pose proof (conserved_bound cap0 rm id Hc Hrm) as Hb.
  unfold reserveID in H1. rewrite Hnew, wrap64_id in H1 by int_lia.
  destruct (_ <? 0) eqn:Hlt; [done|]. injection H1 as <-.
  set (rm1 := mkReservationManager _ _).
  assert (reservations rm1 !! h = Some (default ∅ (reservations rm !! h) ∪ {[id]})) as Hids
    by (subst rm1; simpl; by rewrite lookup_insert_eq).
  eexists. split; [reflexivity|].
  assert (releaseID rm1 h id = mkReservationManager
    (<[h := (default ∅ (reservations rm !! h) ∪ {[id]}) ∖ {[id]}]> (reservations rm1))
    (<[id := wrap64 (remaining rm1 id + 1)]> (capacity rm1))) as Hrel.
  { unfold releaseID. rewrite Hids, bool_decide_eq_true_2 by set_solver. done. }
  split.
  - rewrite Hrel. f_equal. unfold releaseID. simpl. rewrite lookup_insert_eq.
    by rewrite bool_decide_eq_false_2 by set_solver.
  - intros h' id'. split.
    + apply bool_eq_iff. rewrite Hrel, <- !elem_of_holders, (holders_release _ _ _ _ _ _ Hids).
      subst rm1. rewrite !holders_reserve.
      assert (h ∉ holders rm id) by (rewrite elem_of_holders; congruence).
      case_decide; set_solver.
    + rewrite Hrel, remaining_insert. fold (remaining rm1 id'). subst rm1.
      rewrite !remaining_insert. fold (remaining rm id').
      destruct (decide (id' = id)) as [->|]; [|done].
      rewrite decide_True, wrap64_id by (done || int_lia). lia.
Qed.
End theory.

(** ** The initial capacities *)

Section build_theory.
Context {LT : LabelTables} {PL : ProviderLabels} {Q : Type} (rand : Z → Z).
Implicit Types (o : Offering Q) (l : list (Offering Q)) (id : string).

(** An offering of reserved capacity: its capacity type is restricted to a set
    of values that includes [reserved]. *)
Definition isReserved o : bool :=
  match of_Requirements o !! CapacityTypeLabelKey with
  | Some ct => bool_decide (Operator ct = OpIn) && Has ct CapacityTypeReserved
  | None => false
  end.

Lemma recordCapacity_spec cap o :
  recordCapacity rand (Some cap) o =
  if isReserved o then
    id ← ReservationID rand o;
    Some (<[id := match cap !! id with
                  | Some c => Z.min c (of_ReservationCapacity o)
                  | None => of_ReservationCapacity o
                  end]> cap)
  else Some cap.
Proof.
  unfold recordCapacity, isReserved. simpl.
  destruct (of_Requirements o !! CapacityTypeLabelKey) as [ct|]; [|done].
  destruct (bool_decide (Operator ct = OpIn) && Has ct CapacityTypeReserved); [|done].
  destruct (ReservationID rand o) as [id|]; [|done]. simpl.
  destruct (cap !! id) as [c|] eqn:Hc; [|done].
  destruct (_ <? c) eqn:Hlt.
  - apply Z.ltb_lt in Hlt. by rewrite Z.min_r by lia.
  - apply Z.ltb_ge in Hlt. by rewrite Z.min_l, insert_id by (done || lia).
Qed.

Lemma recordCapacity_foldl l cap cap' :
  foldl (recordCapacity rand) (Some cap) l = Some cap' →
  ∀ id, cap' !! id = foldl (λ acc o,
    if isReserved o && bool_decide (ReservationID rand o = Some id)
    then Some (match acc with Some c => Z.min c (of_ReservationCapacity o) | None => of_ReservationCapacity o end)
    else acc) (cap !! id) l.
Proof.
  revert cap. induction l as [|o l IH]; intros cap Hf id; cbn [foldl] in *; [by injection Hf as ->|].
  rewrite recordCapacity_spec in Hf. destruct (isReserved o) eqn:Ho; cbn [andb].
  2:{ by apply IH. }
  destruct (ReservationID rand o) as [id'|]; simpl in Hf.
  - rewrite (IH _ Hf id), lookup_insert. case_decide as Heq.
    + subst id'. by rewrite bool_decide_eq_true_2.
    + rewrite bool_decide_eq_false_2 by congruence. done.
  - exfalso. clear -Hf. induction l; simpl in *; [done|auto].
Qed.

(** A new manager starts, for every reservation that some offering of any
    instance type of any node pool belongs to, with the least capacity any such
    offering reports, and has no entry for other reservations and no
    reservations held.  The order in which pools are visited does not matter. *)
Theorem NewReservationManager_least (its : gmap string (list (InstanceType Q))) rm id
    (Hnew : NewReservationManager rand its = Some rm) :
  let offered o := (∃ pool ts t, its !! pool = Some ts ∧ t ∈ ts ∧ o ∈ it_Offerings t) ∧
                   isReserved o = true ∧ ReservationID rand o = Some id in
  reservations rm = ∅ ∧
  (∀ c, capacity rm !! id = Some c ↔
     (∃ o, offered o ∧ of_ReservationCapacity o = c) ∧ (∀ o, offered o → c <= of_ReservationCapacity o)).
Proof.
  intros offered. unfold NewReservationManager, buildReservationCapacity in Hnew.
  set (l := mjoin (it_Offerings <$> mjoin (map_to_list its).*2)) in Hnew.
  destruct (foldl (recordCapacity rand) (Some ∅) l) as [cap|] eqn:Hf; [|done]. injection Hnew as <-.
  split; [done|]. simpl.
  assert (∀ o, offered o ↔ o ∈ l ∧ isReserved o && bool_decide (ReservationID rand o = Some id) = true) as Hoff.
  { intros o. subst l offered. cbv beta. rewrite andb_true_iff, bool_decide_eq_true.
    enough ((∃ pool ts t, its !! pool = Some ts ∧ t ∈ ts ∧ o ∈ it_Offerings t) ↔
      o ∈ mjoin (it_Offerings <$> mjoin (map_to_list its).*2)) by tauto.
    rewrite list_elem_of_join. setoid_rewrite list_elem_of_fmap. setoid_rewrite list_elem_of_join.
    setoid_rewrite list_elem_of_fmap. split.
    - intros (pool & ts & t & Hp & Ht & Ho). exists (it_Offerings t). split; [done|]. exists t. split; [done|].
      exists ts. split; [done|]. exists (pool, ts). split; [done|]. by apply elem_of_map_to_list.
    - intros (ofs & Ho & t & -> & ts & Ht & [pool ts'] & -> & Hp%elem_of_map_to_list). eauto 6. }
  rewrite (recordCapacity_foldl _ _ _ Hf id), lookup_empty.
  destruct (foldl_min_spec (λ o, isReserved o && bool_decide (ReservationID rand o = Some id))
    of_ReservationCapacity l None) as (H1 & _ & H3).
  intros c. split.
  - intros Hc. split.
    + destruct (H3 c Hc) as [?|(o & Ho & Hp & Hcap)]; [done|]. exists o. by rewrite Hoff.
    + intros o [Ho Hp]%Hoff. destruct (H1 o Ho Hp) as (m & Hm & Hle). rewrite Hm in Hc. by injection Hc as ->.
  - intros [(o & [Ho Hp]%Hoff & <-) Hleast]. destruct (H1 o Ho Hp) as (m & Hm & Hle).
    destruct (H3 m Hm) as [?|(o' & Ho' & Hp' & Hcap)]; [done|].
    assert (of_ReservationCapacity o <= of_ReservationCapacity o') by (apply Hleast, Hoff; done).
    rewrite Hm. f_equal. lia.
Qed.
End build_theory.

(** * Witnesses *)

Section witnesses.
#[local] Existing Instance karpenterLabels.
#[local] Existing Instance exampleProvider.

Definition reservedOffering : Offering Z :=
  mkOffering (NewRequirements [NewRequirement CapacityTypeLabelKey OpIn [CapacityTypeReserved];
                               NewRequirement "example.com/reservation-id" OpIn ["r-1"%string]])
    (fofint 0) true 2 ∅ None.

Definition startCapacity : gmap string Z := {["r-1"%string := 2]}.
Definition startManager := mkReservationManager ∅ startCapacity.

Lemma startCapacity_ok : capacity_ok startCapacity.
Proof. unfold startCapacity. intros id c [_ <-]%lookup_singleton_Some. int_lia. Qed.

Lemma startManager_conserved : conserved startCapacity startManager.
Proof.
  intros id. unfold holders, remaining, startManager, startCapacity. cbn [reservations capacity].
  rewrite map_filter_empty, dom_empty_L, size_empty. rewrite lookup_singleton. case_decide; simpl; lia.
Qed.

Definition afterReserve : ReservationManager :=
  default startManager (Reserve (λ _, 0) startManager "host-1" [reservedOffering]).

Lemma reservations_conserved_witness :
  remaining afterReserve "r-1" + Z.of_nat (size (holders afterReserve "r-1")) = 2.
Proof.
  refine (proj1 (reservations_conserved (Q := Z) (λ _, 0) startCapacity afterReserve "r-1" startCapacity_ok _)).
  apply rtc_once, (step_reserve _ _ "host-1" [reservedOffering]). vm_compute. reflexivity.
Defined.

Lemma Reserve_after_CanReserve_witness :
  ∃ rm', Reserve (λ _, 0) startManager "host-1" [reservedOffering] = Some rm' ∧ conserved startCapacity rm' ∧
    ∀ h' id, holds rm' h' id = true ↔
      holds startManager h' id = true ∨ h' = "host-1"%string ∧
      ∃ o, o ∈ [reservedOffering] ∧ ReservationID (λ _, 0) o = Some id.
Proof.
  apply (Reserve_after_CanReserve (λ _, 0) startCapacity startManager "host-1" [reservedOffering]
    startCapacity_ok startManager_conserved).
  intros o ->%list_elem_of_singleton. vm_compute. reflexivity.
Defined.

Lemma Release_Reserve_witness :
  ∃ rm'', Release (λ _, 0) afterReserve "host-1" [reservedOffering] = Some rm'' ∧
    Release (λ _, 0) rm'' "host-1" [reservedOffering] = Some rm'' ∧
    ∀ h' id, holds rm'' h' id = holds startManager h' id ∧ remaining rm'' id = remaining startManager id.
Proof.
  apply (Release_Reserve (λ _, 0) startCapacity startManager "host-1" reservedOffering afterReserve
    startCapacity_ok startManager_conserved); vm_compute; reflexivity.
Defined.

Definition reservedPools : gmap string (list (InstanceType Z)) :=
  {["pool"%string := [exampleType "small" [reservedOffering]]]}.

Lemma NewReservationManager_least_witness : reservations startManager = ∅.
Proof.
  refine (proj1 (NewReservationManager_least (λ _, 0) reservedPools startManager "r-1" _)).
  vm_compute. reflexivity.
Defined.
End witnesses.
