(* ===== verification/TopologyGroup.v ===== *)
(** * Topology groups

    Model of [topologygroup.go], [topologydomaingroup.go] and
    [topologynodefilter.go] of [pkg/controllers/provisioning/scheduling]: how
    many pods matched by a selector are in each topology domain, and in which
    domain the next pod may go.  A compiled label selector is a function on pod
    labels.  Loops over a map that stop early or keep a minimum take the order
    from [GoRange]. *)

From S2P Require Import Prelude Strconv Requirement Kube Taints Requirements.

(** ** Node filter *)

Record TopologyNodeFilter := mkNodeFilter {
  nf_Requirements : list Requirements;
  nf_TaintPolicy : NodeInclusionPolicy;
  nf_AffinityPolicy : NodeInclusionPolicy;
  nf_Tolerations : list Toleration;
}.

Definition zeroNodeFilter : TopologyNodeFilter := mkNodeFilter [] PolicyUnset PolicyUnset [].

Section nodefilter.
Context {LT : LabelTables} {TL : TaintLib}.
Implicit Types (t : TopologyNodeFilter) (requirements : Requirements).

(** [p.Spec.Affinity.NodeAffinity.RequiredDuringSchedulingIgnoredDuringExecution] *)
Definition requiredNodeTerms (p : Pod) : option (list NodeSelectorTerm) :=
  affinity ← pod_Affinity p;
  nodeAffinity ← af_NodeAffinity affinity;
  na_Required nodeAffinity.

(** [None] is the panic of a comparison operator without an operand. *)
Definition MakeTopologyNodeFilter (p : Pod) (taintPolicy affinityPolicy : NodeInclusionPolicy)
    : option TopologyNodeFilter :=
  let nodeSelectorRequirements := NewLabelRequirements (pod_NodeSelector p) in
  match requiredNodeTerms p with
  | None => Some (mkNodeFilter [nodeSelectorRequirements] taintPolicy affinityPolicy (pod_Tolerations p))
  | Some terms =>
      reqs ← mapM (λ term,
        termReqs ← NewNodeSelectorRequirements (nt_MatchExpressions term);
        let requirements := Add (NewRequirements []) (ReqValues nodeSelectorRequirements) in
        Some (Add requirements (ReqValues termReqs))) terms;
      Some (mkNodeFilter reqs taintPolicy affinityPolicy (pod_Tolerations p))
  end.

Definition matchesRequirements t requirements (allowUndefined : gset string) : bool :=
  if bool_decide (length (nf_Requirements t) = 0%nat) || bool_decide (nf_AffinityPolicy t = PolicyIgnore) then true
  else existsb (λ req, match Compatible requirements req allowUndefined with None => true | Some _ => false end)
         (nf_Requirements t).

(** The options that allow undefined labels are accepted but not passed on. *)
Definition Matches t (taints : list Taint) requirements (allowUndefined : gset string) : bool :=
  let matchesAffinity :=
    if bool_decide (nf_AffinityPolicy t = PolicyHonor) then matchesRequirements t requirements ∅ else true in
  let matchesTaints :=
    if bool_decide (nf_TaintPolicy t = PolicyHonor)
    then bool_decide (Tolerates taints (nf_Tolerations t) = []) else true in
  matchesAffinity && matchesTaints.

Definition ConflictsWithRequirements t requirements : bool :=
  if bool_decide (length (nf_Requirements t) = 0%nat) || bool_decide (nf_AffinityPolicy t = PolicyIgnore) then false
  else forallb (λ req, match Intersects requirements req with None => false | Some _ => true end)
         (nf_Requirements t).
End nodefilter.

(** ** Domains and their sources *)

Record TopologyDomainSource := mkSource {
  src_Taints : list Taint;
  src_Requirements : Requirements;
}.

(** domain -> node pool -> source *)
Definition TopologyDomainGroup : Type := gmap string (gmap string TopologyDomainSource).

Definition InsertDomain (t : TopologyDomainGroup) (domain nodePool : string) (taints : list Taint)
    (requirements : Requirements) : TopologyDomainGroup :=
  <[domain := <[nodePool := mkSource taints requirements]> (default ∅ (t !! domain))]> t.

Section domains.
Context {LT : LabelTables} {TL : TaintLib} {GR : GoRange}.

(** The source passes both policy tests, so the domain is visited. *)
Definition sourceAdmits (pod : Pod) (nodeFilter : TopologyNodeFilter) (source : TopologyDomainSource) : bool :=
  if negb (bool_decide (nf_TaintPolicy nodeFilter = PolicyIgnore)) &&
     negb (bool_decide (ToleratesPod (src_Taints source) pod = [])) then false
  else if bool_decide (nf_AffinityPolicy nodeFilter = PolicyHonor) &&
          ConflictsWithRequirements nodeFilter (src_Requirements source) then false
  else true.

Definition ForEachDomain {S} (t : TopologyDomainGroup) (pod : Pod) (nodeFilter : TopologyNodeFilter)
    (f : S → string → S) (s : S) : S :=
  foldl (λ s ds,
    if existsb (λ ps, sourceAdmits pod nodeFilter ps.2) (gorange ds.2) then f s ds.1 else s) s (gorange t).
End domains.

(** ** Topology group *)

Inductive TopologyType := TopologyTypeSpread | TopologyTypePodAffinity | TopologyTypePodAntiAffinity.

#[export] Instance TopologyType_eq_dec : EqDecision TopologyType.
Proof. solve_decision. Defined.

Record TopologyGroup := mkGroup {
  tg_Key : string;
  tg_Type : TopologyType;
  maxSkew : Z;
  minDomains : option Z;
  namespaces : gset string;
  selector : gmap string string → bool;
  nodeFilter : TopologyNodeFilter;
  owners : gset string;
  domains : gmap string Z;
  emptyDomains : gset string;
}.

Definition LabelHostname : string := "kubernetes.io/hostname".

(** The fields the bookkeeping operations change. *)
Definition with_domains (t : TopologyGroup) (d : gmap string Z) (e : gset string) : TopologyGroup :=
  mkGroup (tg_Key t) (tg_Type t) (maxSkew t) (minDomains t) (namespaces t) (selector t) (nodeFilter t)
    (owners t) d e.

Definition with_owners (t : TopologyGroup) (o : gset string) : TopologyGroup :=
  mkGroup (tg_Key t) (tg_Type t) (maxSkew t) (minDomains t) (namespaces t) (selector t) (nodeFilter t)
    o (domains t) (emptyDomains t).

Section group.
Context {LT : LabelTables} {TL : TaintLib} {GR : GoRange}.
Implicit Types (t : TopologyGroup) (pod : Pod) (podDomains nodeDomains : Requirement) (domain : string).

(** [labelSelector] is the result of [LabelSelectorAsSelector]; [None] is its
    error, replaced by the selector that matches nothing. *)
Definition NewTopologyGroup (topologyType : TopologyType) (topologyKey : string) pod
    (namespaces : gset string) (labelSelector : option (gmap string string → bool)) (maxSkew : Z)
    (minDomains : option Z) (taintPolicy affinityPolicy : option NodeInclusionPolicy)
    (domainGroup : TopologyDomainGroup) : option TopologyGroup :=
  nodeFilter ←
    match topologyType with
    | TopologyTypeSpread =>
        MakeTopologyNodeFilter pod (default PolicyIgnore taintPolicy) (default PolicyHonor affinityPolicy)
    | _ => Some zeroNodeFilter
    end;
  let selector := default (λ _, false) labelSelector in
  let '(domains, emptyDomains) :=
    ForEachDomain domainGroup pod nodeFilter
      (λ de domain, (<[domain := 0]> de.1, de.2 ∪ {[domain]})) (∅, ∅) in
  Some (mkGroup topologyKey topologyType maxSkew minDomains namespaces selector nodeFilter ∅ domains emptyDomains).

Definition Record1 t domain : TopologyGroup :=
  with_domains t (<[domain := wrap32 (default 0 (domains t !! domain) + 1)]> (domains t))
    (emptyDomains t ∖ {[domain]}).

Definition Record_ t (ds : list string) : TopologyGroup := foldl Record1 t ds.

Definition Register1 t domain : TopologyGroup :=
  match domains t !! domain with
  | Some _ => t
  | None => with_domains t (<[domain := 0]> (domains t)) (emptyDomains t ∪ {[domain]})
  end.

Definition Register t (ds : list string) : TopologyGroup := foldl Register1 t ds.

Definition Unregister t (ds : list string) : TopologyGroup :=
  foldl (λ t domain, with_domains t (delete domain (domains t)) (emptyDomains t ∖ {[domain]})) t ds.

Definition AddOwner t (key : string) : TopologyGroup := with_owners t (owners t ∪ {[key]}).
Definition RemoveOwner t (key : string) : TopologyGroup := with_owners t (owners t ∖ {[key]}).
Definition IsOwnedBy t (key : string) : bool := bool_decide (key ∈ owners t).

Definition selects t pod : bool :=
  bool_decide (pod_Namespace pod ∈ namespaces t) && selector t (pod_Labels pod).

Definition Counts t pod (taints : list Taint) (requirements : Requirements) (allowUndefined : gset string) : bool :=
  selects t pod && Matches (nodeFilter t) taints requirements allowUndefined.

(** *** Spread *)

Definition domainMinCount t (ds : Requirement) : Z :=
  if bool_decide (tg_Key t = LabelHostname) then 0
  else
    let '(min, numPodSupportedDomains) :=
      foldl (λ acc dc,
        if Has ds dc.1 then (if dc.2 <? acc.1 then dc.2 else acc.1, wrap32 (acc.2 + 1)) else acc)
        (MaxInt32, 0) (gorange (domains t)) in
    match minDomains t with
    | Some m => if numPodSupportedDomains <? m then 0 else min
    | None => min
    end.

(** [count++] when the pod counts for its own topology. *)
Definition countWith (selfSelecting : bool) (count : Z) : Z :=
  if selfSelecting then wrap32 (count + 1) else count.

(** The loop body of both loops: best domain so far, its count, valid domains. *)
Definition considerDomain t (selfSelecting : bool) (min : Z) (acc : string * Z * gset string)
    (dc : string * Z) : string * Z * gset string :=
  let '(minDomain, minCount, validDomains) := acc in
  let count := countWith selfSelecting dc.2 in
  if wrap32 (count - min) <=? maxSkew t then
    if count <? minCount then (dc.1, count, validDomains ∪ {[dc.1]})
    else (minDomain, minCount, validDomains ∪ {[dc.1]})
  else acc.

(** The only value, when there is exactly one ([len(nodeDomains.Values()) == 1]). *)
Definition singleHostname t nodeDomains : option string :=
  match Values nodeDomains with
  | [h] => if bool_decide (tg_Key t = LabelHostname) then Some h else None
  | _ => None
  end.

Definition nextDomainTopologySpread t pod podDomains nodeDomains : Requirement * gset string :=
  let min := domainMinCount t podDomains in
  let selfSelecting := selects t pod in
  match singleHostname t nodeDomains with
  | Some hostName =>
      let count := countWith selfSelecting (default 0 (domains t !! hostName)) in
      if count <=? maxSkew t then (NewRequirement (tg_Key t) OpIn [hostName], {[hostName]})
      else (NewRequirement (tg_Key t) OpDoesNotExist [], ∅)
  | None =>
      let candidates :=
        if bool_decide (Operator nodeDomains = OpIn)
        then omap (λ domain, (domain,.) <$> domains t !! domain) (Values nodeDomains)
        else List.filter (λ dc, Has nodeDomains dc.1) (gorange (domains t)) in
      let '(minDomain, _, validDomains) :=
        foldl (considerDomain t selfSelecting min) (""%string, MaxInt32, ∅) candidates in
      if bool_decide (minDomain = ""%string) then (NewRequirement (tg_Key t) OpDoesNotExist [], validDomains)
      else (NewRequirement (tg_Key t) OpIn [minDomain], validDomains)
  end.

(** *** Affinity *)

Definition anyCompatiblePodDomain t podDomains : bool :=
  existsb (λ dc, Has podDomains dc.1 && (0 <? dc.2)) (gorange (domains t)).

(** The pod may start a new group of pods. *)
Definition mayBootstrap t pod podDomains : bool :=
  selects t pod &&
  (bool_decide (size (domains t) = size (emptyDomains t)) || negb (anyCompatiblePodDomain t podDomains)).

(** [for domain := range t.domains { if test { options.Insert(domain); break } }] *)
Definition insertFirst t (test : string → bool) (options : Requirement) : Requirement :=
  match List.find (λ dc, test dc.1) (gorange (domains t)) with
  | Some dc => Insert options [dc.1]
  | None => options
  end.

Definition nextDomainAffinity t pod podDomains nodeDomains : Requirement :=
  let options := NewRequirement (tg_Key t) OpDoesNotExist [] in
  match singleHostname t nodeDomains with
  | Some hostName =>
      if negb (Has podDomains hostName) then options
      else if 0 <? default 0 (domains t !! hostName) then Insert options [hostName]
      else if mayBootstrap t pod podDomains then Insert options [hostName]
      else options
  | None =>
      let options :=
        if bool_decide (Operator nodeDomains = OpIn)
        then foldl (λ opts domain,
               match domains t !! domain with
               | Some count => if Has podDomains domain && (0 <? count) then Insert opts [domain] else opts
               | None => opts
               end) options (Values nodeDomains)
        else foldl (λ opts dc,
               if Has podDomains dc.1 && (0 <? dc.2) && Has nodeDomains dc.1 then Insert opts [dc.1] else opts)
               options (gorange (domains t)) in
      if negb (Len options =? 0) then options
      else if mayBootstrap t pod podDomains then
        let intersected := Intersection podDomains nodeDomains in
        insertFirst t (Has podDomains) (insertFirst t (Has intersected) options)
      else options
  end.

(** *** Anti-affinity *)

Definition nextDomainAntiAffinity t podDomains nodeDomains : Requirement :=
  let options := NewRequirement (tg_Key t) OpDoesNotExist [] in
  match singleHostname t nodeDomains with
  | Some hostName =>
      if default 0 (domains t !! hostName) =? 0 then Insert options [hostName] else options
  | None =>
      if bool_decide (Operator nodeDomains = OpIn) && (Len nodeDomains <? Z.of_nat (size (emptyDomains t)))
      then foldl (λ opts domain,
             if bool_decide (domain ∈ emptyDomains t) && Has podDomains domain then Insert opts [domain] else opts)
             options (Values nodeDomains)
      else foldl (λ opts domain,
             if Has nodeDomains domain && Has podDomains domain then Insert opts [domain] else opts)
             options (elements (emptyDomains t))
  end.

(** [TopologyGroup.Get]: the requirement on the topology key, and the valid
    domains. *)
Definition GetDomain t pod podDomains nodeDomains : Requirement * gset string :=
  match tg_Type t with
  | TopologyTypeSpread => nextDomainTopologySpread t pod podDomains nodeDomains
  | TopologyTypePodAffinity =>
      let req := nextDomainAffinity t pod podDomains nodeDomains in (req, list_to_set (Values req))
  | TopologyTypePodAntiAffinity =>
      let req := nextDomainAntiAffinity t podDomains nodeDomains in (req, list_to_set (Values req))
  end.
End group.

(** * Theory *)

(** ** Bookkeeping *)

Section bookkeeping.
Context {LT : LabelTables} {TL : TaintLib} {GR : GoRange}.
Implicit Types (t : TopologyGroup) (d : string) (N : Z).

(** The cached set of empty domains is exactly the set of domains with count
    zero, and counts are between zero and the number of recordings. *)
Definition group_inv N t : Prop :=
  (∀ d, d ∈ emptyDomains t ↔ domains t !! d = Some 0) ∧
  (∀ d c, domains t !! d = Some c → 0 <= c <= N).

Inductive group_op :=
  | DoRecord (ds : list string)
  | DoRegister (ds : list string)
  | DoUnregister (ds : list string)
  | DoAddOwner (key : string)
  | DoRemoveOwner (key : string).

Definition apply_op t (op : group_op) : TopologyGroup :=
  match op with
  | DoRecord ds => Record_ t ds
  | DoRegister ds => Register t ds
  | DoUnregister ds => Unregister t ds
  | DoAddOwner key => AddOwner t key
  | DoRemoveOwner key => RemoveOwner t key
  end.

(** How many recordings a sequence of operations makes. *)
Definition recordings (ops : list group_op) : Z :=
  foldr (λ op n, match op with DoRecord ds => Z.of_nat (length ds) | _ => 0 end + n) 0 ops.

Lemma Record1_inv N t d : N < MaxInt32 → group_inv N t → 0 <= N → group_inv (N + 1) (Record1 t d).
Proof.
  intros HN [He Hc] H0.
  assert (0 <= default 0 (domains t !! d) <= N) as Hd.
  { destruct (domains t !! d) as [c|] eqn:Hcd; simpl; [by eapply Hc|lia]. }
  unfold Record1. rewrite wrap32_id by int_lia. split; simpl; intros d'.
  - rewrite elem_of_difference, He, elem_of_singleton, lookup_insert.
    destruct (decide (d = d')) as [->|Hne].
    + split; [tauto|]. intros [= ?]. lia.
    + naive_solver.
  - intros c. rewrite lookup_insert. destruct (decide (d = d')) as [->|Hne].
    + intros [= <-]. lia.
    + intros ?%Hc. lia.
Qed.

Lemma Register1_inv N t d : 0 <= N → group_inv N t → group_inv N (Register1 t d).
Proof.
  intros HN [He Hc]. unfold Register1. destruct (domains t !! d) eqn:Hd; [done|]. split; simpl; intros d'.
  - rewrite elem_of_union, He, elem_of_singleton, lookup_insert. destruct (decide (d = d')); naive_solver.
  - intros c. rewrite lookup_insert. destruct (decide (d = d')) as [->|]; [by intros [= <-]|apply Hc].
Qed.

Lemma Unregister1_inv N t d :
  group_inv N t → group_inv N (with_domains t (delete d (domains t)) (emptyDomains t ∖ {[d]})).
Proof.
  intros [He Hc]. split; simpl; intros d'.
  - rewrite elem_of_difference, He, elem_of_singleton, lookup_delete. destruct (decide (d = d')); naive_solver.
  - intros c. rewrite lookup_delete. destruct (decide (d = d')); [done|apply Hc].
Qed.

Lemma foldl_inv {A B} (P : A → Prop) (f : A → B → A) l a :
  (∀ a b, P a → P (f a b)) → P a → P (foldl f a l).
Proof. intros Hf. revert a. induction l as [|b l IH]; intros a Ha; simpl; auto. Qed.

Lemma Record_inv N t ds :
  N + Z.of_nat (length ds) <= MaxInt32 → 0 <= N → group_inv N t →
  group_inv (N + Z.of_nat (length ds)) (Record_ t ds).
Proof.
  unfold Record_. revert N t. induction ds as [|d ds IH]; intros N t Hmax HN Ht; cbn [foldl length] in *.
  { by rewrite Z.add_0_r. }
  replace (N + Z.of_nat (S (length ds))) with (N + 1 + Z.of_nat (length ds)) by lia.
  apply IH; [lia|lia|]. apply Record1_inv; [int_lia|done|done].
Qed.

Lemma recordings_nonneg ops : 0 <= recordings ops.
Proof. induction ops as [|[] ops IH]; simpl; lia. Qed.

Lemma apply_ops_inv ops N t :
  N + recordings ops <= MaxInt32 → 0 <= N → group_inv N t →
  group_inv (N + recordings ops) (foldl apply_op t ops).
Proof.
  revert N t. induction ops as [|op ops IH]; intros N t Hmax HN Ht; cbn [foldl recordings foldr] in *.
  { by rewrite Z.add_0_r. }
  fold (recordings ops) in *. pose proof (recordings_nonneg ops).
  destruct op as [ds|ds|ds|key|key]; simpl; rewrite ?Z.add_0_l in *.
  - rewrite Z.add_assoc. apply IH; [lia|lia|]. apply Record_inv; [lia|done|done].
  - apply IH; [done|done|]. unfold Register. apply (foldl_inv (group_inv N)); [|done]. intros; by apply Register1_inv.
  - apply IH; [done|done|]. unfold Unregister. apply (foldl_inv (group_inv N)); [|done]. intros; by apply Unregister1_inv.
  - by apply IH.
  - by apply IH.
Qed.

Lemma NewTopologyGroup_inv ty key pod nss sel skew mind tp ap dg t :
  NewTopologyGroup ty key pod nss sel skew mind tp ap dg = Some t → group_inv 0 t.
Proof.
  unfold NewTopologyGroup. destruct (match ty with TopologyTypeSpread => _ | _ => _ end) as [nf|]; [|done].
  simpl. destruct (ForEachDomain _ _ _ _ _) as [ds es] eqn:Hf. intros [= <-].
  assert ((∀ d, d ∈ (ds, es).2 ↔ (ds, es).1 !! d = Some 0) ∧ (∀ d c, (ds, es).1 !! d = Some c → 0 <= c <= 0)) as Hinv.
  { rewrite <- Hf. unfold ForEachDomain. apply (foldl_inv
      (λ s : gmap string Z * gset string, (∀ d, d ∈ s.2 ↔ s.1 !! d = Some 0) ∧ (∀ d c, s.1 !! d = Some c → 0 <= c <= 0))).
    - intros [m e] [d x] [He Hc]. simpl in *. destruct (existsb _ _); [|done]. simpl. split; intros d'.
      + rewrite elem_of_union, He, elem_of_singleton, lookup_insert. destruct (decide (d = d')); naive_solver.
      + intros c. rewrite lookup_insert. destruct (decide (d = d')); [by intros [= <-]|apply Hc].
    - simpl. split; intros d; [set_solver|]. intros c. by rewrite lookup_empty. }
  exact Hinv.
Qed.

(** The cache of empty domains is never stale.  After a topology group is
    created and any sequence of [Record], [Register], [Unregister], [AddOwner]
    and [RemoveOwner] calls with at most [MaxInt32] recordings in all, the set
    of empty domains is exactly the set of known domains whose pod count is
    zero, and every count is between zero and the number of recordings (the
    32-bit counters do not overflow). *)
Theorem emptyDomains_exact ty key pod nss sel skew mind tp ap dg t ops
    (Hnew : NewTopologyGroup ty key pod nss sel skew mind tp ap dg = Some t)
    (Hmax : recordings ops <= MaxInt32) :
  let t' := foldl apply_op t ops in
  (∀ d, d ∈ emptyDomains t' ↔ domains t' !! d = Some 0) ∧
  (∀ d c, domains t' !! d = Some c → 0 <= c <= recordings ops).
Proof. apply (apply_ops_inv ops 0 t); [done|done|]. by eapply NewTopologyGroup_inv. Qed.

End bookkeeping.

(** ** Spread *)

Section spread.
Context {LT : LabelTables} {TL : TaintLib} {GR : GoRange}.
Implicit Types (t : TopologyGroup) (pod : Pod) (podDomains nodeDomains : Requirement) (d : string).

(** The known domains a pod may use, with their counts. *)
Definition supported t podDomains : list (string * Z) :=
  List.filter (λ dc, Has podDomains dc.1) (map_to_list (domains t)).

Definition leastOf (cs : list Z) : Z := foldr Z.min MaxInt32 cs.

Lemma leastOf_perm cs cs' : cs ≡ₚ cs' → leastOf cs = leastOf cs'.
Proof. unfold leastOf. induction 1; simpl; lia. Qed.

Lemma leastOf_le cs c : c ∈ cs → leastOf cs <= c.
Proof. unfold leastOf. induction 1; simpl; lia. Qed.

Lemma leastOf_attained cs : leastOf cs = MaxInt32 ∨ leastOf cs ∈ cs.
Proof.
  unfold leastOf. induction cs as [|c cs IH]; simpl; [by left|].
  destruct (Z.min_spec c (foldr Z.min MaxInt32 cs)) as [[_ ->]|[_ ->]]; [right; apply list_elem_of_here|].
  destruct IH as [->|IH]; [by left|right; by apply list_elem_of_further].
Qed.

(** The counters fit: no count is near the 32-bit limit. *)
Definition counts_ok t : Prop :=
  (∀ d c, domains t !! d = Some c → 0 <= c < MaxInt32 - 1) ∧ Z.of_nat (size (domains t)) <= MaxInt32 ∧
  0 <= maxSkew t <= MaxInt32.

Lemma domainMinCount_loop podDomains (l : list (string * Z)) m n :
  0 <= n → n + Z.of_nat (length l) <= MaxInt32 →
  foldl (λ acc dc, if Has podDomains dc.1 then (if dc.2 <? acc.1 then dc.2 else acc.1, wrap32 (acc.2 + 1)) else acc)
    (m, n) l =
  (foldr Z.min m (List.filter (λ dc, Has podDomains dc.1) l).*2,
   n + Z.of_nat (length (List.filter (λ dc, Has podDomains dc.1) l))).
Proof.
  revert m n. induction l as [|[d c] l IH]; intros m n Hn Hmax; cbn [foldl]; [by rewrite Z.add_0_r|].
  cbn [length] in Hmax. cbn [fst snd List.filter]. destruct (Has podDomains d); [|apply IH; lia].
  rewrite wrap32_id by int_lia. rewrite IH by lia. rewrite fmap_cons. cbn [foldr length snd]. f_equal; [|lia].
  assert ((if c <? m then c else m) = Z.min c m) as ->.
  { destruct (c <? m) eqn:Hcm; destruct_bools; lia. }
  generalize (List.filter (λ dc, Has podDomains dc.1) l).*2. intros cs. induction cs as [|x cs IHc]; simpl; lia.
Qed.

(** What [domainMinCount] computes, whatever the map order: zero for hostnames
    and when too few domains are supported, else the least count. *)
Lemma domainMinCount_spec t podDomains :
  Z.of_nat (size (domains t)) <= MaxInt32 →
  domainMinCount t podDomains =
  if bool_decide (tg_Key t = LabelHostname) then 0
  else if match minDomains t with
          | Some m => Z.of_nat (length (supported t podDomains)) <? m
          | None => false
          end then 0
  else leastOf (supported t podDomains).*2.
Proof.
  intros Hsz. unfold domainMinCount. case_bool_decide; [done|].
  pose proof (gorange_perm (domains t)) as Hp.
  rewrite domainMinCount_loop by (try lia; rewrite Hp, length_map_to_list; lia). rewrite Z.add_0_l.
  pose proof (filter_perm (λ dc : string * Z, Has podDomains dc.1) _ _ Hp) as Hf. fold (supported t podDomains) in Hf.
  rewrite (Permutation_length Hf). destruct (minDomains t) as [m|];
    [destruct (_ <? m); [done|]|]; apply leastOf_perm; by apply fmap_Permutation.
Qed.

Lemma elem_of_supported t podDomains d c :
  (d, c) ∈ supported t podDomains ↔ domains t !! d = Some c ∧ Has podDomains d = true.
Proof.
  unfold supported. by rewrite list_elem_of_In, filter_In, <- list_elem_of_In, elem_of_map_to_list.
Qed.

Lemma domainMinCount_bounds t podDomains :
  counts_ok t → 0 <= domainMinCount t podDomains <= MaxInt32.
Proof.
  intros (Hc & Hsz & _). rewrite domainMinCount_spec by done.
  case_bool_decide; [int_lia|]. destruct (match minDomains t with Some _ => _ | None => _ end); [int_lia|].
  destruct (leastOf_attained (supported t podDomains).*2) as [->|Hin]; [int_lia|].
  apply list_elem_of_fmap in Hin as ([d c] & -> & [Hd _]%elem_of_supported). apply Hc in Hd. simpl. int_lia.
Qed.

Lemma domainMinCount_lower t podDomains d c :
  counts_ok t → domains t !! d = Some c → Has podDomains d = true → domainMinCount t podDomains <= c.
Proof.
  intros (Hc & Hsz & _) Hd Hh. rewrite domainMinCount_spec by done. pose proof (Hc d c Hd).
  case_bool_decide; [lia|]. destruct (match minDomains t with Some _ => _ | None => _ end); [lia|].
  apply leastOf_le, list_elem_of_fmap. exists (d, c). by rewrite elem_of_supported.
Qed.

(** Whether the skew of a domain allows one more pod. *)
Definition withinSkew t pod podDomains (c : Z) : bool :=
  c + (if selects t pod then 1 else 0) - domainMinCount t podDomains <=? maxSkew t.

Lemma considerDomain_loop t pod podDomains (cands : list (string * Z)) md mc vd :
  counts_ok t → (∀ d c, (d, c) ∈ cands → domains t !! d = Some c) →
  let self := selects t pod in
  let n c := c + (if self then 1 else 0) in
  let '(md', mc', vd') :=
    foldl (considerDomain t self (domainMinCount t podDomains)) (md, mc, vd) cands in
  (∀ d, d ∈ vd' ↔ d ∈ vd ∨ ∃ c, (d, c) ∈ cands ∧ withinSkew t pod podDomains c = true) ∧
  mc' <= mc ∧
  (∀ d c, (d, c) ∈ cands → withinSkew t pod podDomains c = true → mc' <= n c) ∧
  ((md', mc') = (md, mc) ∨
   mc' < mc ∧ ∃ c, (md', c) ∈ cands ∧ withinSkew t pod podDomains c = true ∧ mc' = n c).
Proof.
  intros Hok Hin self n. revert md mc vd. induction cands as [|[d c] l IH]; intros md mc vd; cbn [foldl].
  { split_and!; [set_solver|lia|by intros d c ?%not_elem_of_nil|by left]. }
  assert (0 <= c < MaxInt32 - 1) as Hc by (apply (proj1 Hok d), Hin, list_elem_of_here).
  pose proof (domainMinCount_bounds t podDomains Hok) as Hmb.
  assert (countWith self c = n c) as Hcw.
  { unfold countWith, n. destruct self; [rewrite wrap32_id by int_lia|]; lia. }
  assert ((wrap32 (countWith self c - domainMinCount t podDomains) <=? maxSkew t) = withinSkew t pod podDomains c) as Hskew.
  { rewrite Hcw, wrap32_id; [done|]. unfold n. destruct self; int_lia. }
  assert (∀ d c, (d, c) ∈ l → domains t !! d = Some c) as Hin' by (intros; apply Hin; by apply list_elem_of_further).
  specialize (IH Hin'). unfold considerDomain at 2. cbn [fst snd]. rewrite Hskew, Hcw.
  destruct (withinSkew t pod podDomains c) eqn:Hw; [destruct (n c <? mc) eqn:Hlt|].
  - specialize (IH d (n c) (vd ∪ {[d]})). destruct (foldl _ _ l) as [[md' mc'] vd'].
    destruct IH as (Hv & Hle & Hall & Hat). apply Z.ltb_lt in Hlt. split_and!.
    + intros d'. rewrite Hv. setoid_rewrite elem_of_cons. set_solver.
    + lia.
    + intros d' c' [[= -> ->]|Hd']%elem_of_cons Hw'; [lia|by eapply Hall].
    + right. destruct Hat as [[= -> ->]|(? & c' & ? & ? & ?)]; (split; [lia|]).
      * exists c. split_and!; [apply list_elem_of_here|done..].
      * exists c'. split_and!; [by apply list_elem_of_further|done..].
  - specialize (IH md mc (vd ∪ {[d]})). destruct (foldl _ _ l) as [[md' mc'] vd'].
    destruct IH as (Hv & Hle & Hall & Hat). apply Z.ltb_ge in Hlt. split_and!.
    + intros d'. rewrite Hv. setoid_rewrite elem_of_cons. set_solver.
    + lia.
    + intros d' c' [[= -> ->]|Hd']%elem_of_cons Hw'; [lia|by eapply Hall].
    + destruct Hat as [?|(? & c' & ? & ? & ?)]; [by left|right]. split; [lia|]. exists c'.
      split_and!; [by apply list_elem_of_further|done..].
  - specialize (IH md mc vd). destruct (foldl _ _ l) as [[md' mc'] vd'].
    destruct IH as (Hv & Hle & Hall & Hat). split_and!.
    + intros d'. rewrite Hv. setoid_rewrite elem_of_cons. split; [naive_solver|].
      intros [?|(c' & [[= -> ->]|?] & ?)]; [by left|congruence|eauto].
    + lia.
    + intros d' c' [[= -> ->]|Hd']%elem_of_cons Hw'; [congruence|by eapply Hall].
    + destruct Hat as [?|(? & c' & ? & ? & ?)]; [by left|right]. split; [lia|]. exists c'.
      split_and!; [by apply list_elem_of_further|done..].
Qed.

Lemma Has_concrete nodeDomains d :
  wf nodeDomains → complement nodeDomains = false → Has nodeDomains d = true ↔ d ∈ values nodeDomains.
Proof.
  intros Hwf Hc. rewrite Has_spec, Hc. destruct (wf_concrete _ Hwf Hc) as [-> ->]. simpl. tauto.
Qed.

Lemma OpIn_concrete nodeDomains : Operator nodeDomains = OpIn → complement nodeDomains = false.
Proof. rewrite Operator_spec. destruct (complement nodeDomains); [|done]. by case_bool_decide. Qed.

Lemma elem_of_candidates t nodeDomains d c :
  wf nodeDomains →
  (d, c) ∈ (if bool_decide (Operator nodeDomains = OpIn)
            then omap (λ domain, (domain,.) <$> domains t !! domain) (Values nodeDomains)
            else List.filter (λ dc, Has nodeDomains dc.1) (gorange (domains t)))
  ↔ domains t !! d = Some c ∧ Has nodeDomains d = true.
Proof.
  intros Hwf. case_bool_decide as Hop.
  - rewrite (Has_concrete nodeDomains d Hwf (OpIn_concrete _ Hop)). rewrite list_elem_of_omap. split.
    + intros (d' & Hd' & Hdc). unfold Values in Hd'. apply elem_of_elements in Hd'.
      destruct (domains t !! d') as [c'|] eqn:Hc; [|done]. simpl in Hdc. by injection Hdc as <- <-.
    + intros [Hd Hv]. exists d. split; [unfold Values; by apply elem_of_elements|]. by rewrite Hd.
  - by rewrite list_elem_of_In, filter_In, <- list_elem_of_In, elem_of_gorange.
Qed.

Lemma spread_choice t pod podDomains nodeDomains :
  counts_ok t → wf nodeDomains → singleHostname t nodeDomains = None → domains t !! ""%string = None →
  let '(req, valid) := nextDomainTopologySpread t pod podDomains nodeDomains in
  (∀ d, d ∈ valid ↔ ∃ c, domains t !! d = Some c ∧ Has nodeDomains d = true ∧
                         withinSkew t pod podDomains c = true) ∧
  (valid = ∅ ∧ req = NewRequirement (tg_Key t) OpDoesNotExist [] ∨
   ∃ d c, d ∈ valid ∧ domains t !! d = Some c ∧ req = NewRequirement (tg_Key t) OpIn [d] ∧
     ∀ d' c', d' ∈ valid → domains t !! d' = Some c' → c <= c').
Proof.
  intros Hok Hwf Hs He. unfold nextDomainTopologySpread. rewrite Hs.
  set (cands := if bool_decide _ then _ else _).
  assert (∀ d c, (d, c) ∈ cands ↔ domains t !! d = Some c ∧ Has nodeDomains d = true) as Hcands
    by (intros; by apply elem_of_candidates).
  clearbody cands.
  pose proof (considerDomain_loop t pod podDomains cands ""%string MaxInt32 ∅ Hok
    (λ d c Hd, proj1 (proj1 (Hcands d c) Hd))) as Hloop. cbv zeta in Hloop.
  destruct (foldl _ _ cands) as [[md mc] vd]. destruct Hloop as (Hv & _ & Hall & Hat).
  assert (∀ d, d ∈ vd ↔ ∃ c, domains t !! d = Some c ∧ Has nodeDomains d = true ∧
                         withinSkew t pod podDomains c = true) as Hvd.
  { intros d. rewrite Hv. setoid_rewrite Hcands. set_solver. }
  destruct Hat as [[= -> ->]|(_ & c & [Hmd Hn]%Hcands & Hw & ->)].
  - rewrite bool_decide_eq_true_2 by done. split; [done|]. left. split; [|done].
    apply set_eq. intros d. split; [|set_solver]. intros (c & Hd & Hn & Hw)%Hvd.
    specialize (Hall d c (proj2 (Hcands d c) (conj Hd Hn)) Hw). apply (proj1 Hok) in Hd.
    destruct (selects t pod); lia.
  - rewrite bool_decide_eq_false_2 by congruence. split; [done|]. right. exists md, c.
    split_and!; [apply Hvd; eauto|done|done|].
    intros d' c' (c'' & Hd' & Hn' & Hw')%Hvd Hd''. rewrite Hd'' in Hd'. injection Hd' as <-.
    specialize (Hall d' c' (proj2 (Hcands d' c') (conj Hd'' Hn')) Hw'). lia.
Qed.

(** The domain a spread constraint chooses.  Outside the single-hostname
    case, the valid domains are exactly the known domains the node may use whose
    count, with the pod itself if it is selected, exceeds the global minimum by
    at most maxSkew; the requirement names a valid domain with the least count,
    or matches nothing when there is no valid domain.  The result does not
    depend on the iteration order of the maps except among equal counts. *)
Theorem nextDomainTopologySpread_least t pod podDomains nodeDomains req valid
    (Hok : counts_ok t) (Hwf : wf nodeDomains) (Hs : singleHostname t nodeDomains = None)
    (He : domains t !! ""%string = None)
    (Hrun : nextDomainTopologySpread t pod podDomains nodeDomains = (req, valid)) :
  (∀ d, d ∈ valid ↔ ∃ c, domains t !! d = Some c ∧ Has nodeDomains d = true ∧
     c + (if selects t pod then 1 else 0) - domainMinCount t podDomains <= maxSkew t) ∧
  (valid = ∅ ∧ req = NewRequirement (tg_Key t) OpDoesNotExist [] ∨
   ∃ d c, d ∈ valid ∧ domains t !! d = Some c ∧ req = NewRequirement (tg_Key t) OpIn [d] ∧
     ∀ d' c', d' ∈ valid → domains t !! d' = Some c' → c <= c').
Proof.
  pose proof (spread_choice t pod podDomains nodeDomains Hok Hwf Hs He) as Hc. rewrite Hrun in Hc.
  destruct Hc as [Hv Hr]. split; [|done]. intros d. rewrite Hv. unfold withinSkew.
  by setoid_rewrite Z.leb_le.
Qed.

Lemma leastOf_mono cs cs' : Forall2 Z.le cs cs' → leastOf cs <= leastOf cs'.
Proof. unfold leastOf. induction 1; simpl; lia. Qed.

(** Recording a pod in a known domain does not lower the global minimum. *)
Lemma domainMinCount_Record1 t podDomains d c :
  counts_ok t → domains t !! d = Some c →
  domainMinCount t podDomains <= domainMinCount (Record1 t d) podDomains.
Proof.
  intros (Hc & Hsz & _) Hd. pose proof (Hc d c Hd) as Hcd.
  assert (domains (Record1 t d) = <[d := c + 1]> (domains t)) as Hr.
  { unfold Record1. simpl. rewrite Hd. simpl. by rewrite wrap32_id by int_lia. }
  assert (size (domains (Record1 t d)) = size (domains t)) as Hsz'.
  { rewrite Hr, map_size_insert_Some; [done|]. by rewrite Hd. }
  assert (length (supported (Record1 t d) podDomains) = length (supported t podDomains) ∧
          leastOf (supported t podDomains).*2 <= leastOf (supported (Record1 t d) podDomains).*2) as [Hlen Hle].
  { assert (map_to_list (domains t) ≡ₚ (d, c) :: map_to_list (delete d (domains t))) as H1.
    { rewrite <- (insert_delete_id (domains t) d c Hd) at 1. by rewrite map_to_list_insert by apply lookup_delete_eq. }
    assert (map_to_list (domains (Record1 t d)) ≡ₚ (d, c + 1) :: map_to_list (delete d (domains t))) as H2.
    { rewrite Hr, <- insert_delete_eq. by rewrite map_to_list_insert by apply lookup_delete_eq. }
    apply (filter_perm (λ dc, Has podDomains dc.1)) in H1, H2. unfold supported.
    split; [rewrite (Permutation_length H1), (Permutation_length H2)|
            rewrite (leastOf_perm _ _ (fmap_Permutation snd _ _ H1)),
                    (leastOf_perm _ _ (fmap_Permutation snd _ _ H2)); apply leastOf_mono];
      cbn [List.filter fst]; destruct (Has podDomains d); try done.
    rewrite !fmap_cons. constructor; [simpl; lia|done]. }
  rewrite !domainMinCount_spec by lia. change (tg_Key (Record1 t d)) with (tg_Key t).
  change (minDomains (Record1 t d)) with (minDomains t). rewrite Hlen.
  case_bool_decide; [lia|]. by destruct (match minDomains t with Some _ => _ | None => _ end).
Qed.

(** C7. Following a spread constraint keeps the skew.  If the pod counts for its
    own constraint and is placed in any of the valid domains returned (a single
    hostname the node is restricted to, or any other topology), then after the
    placement is recorded the count of that domain exceeds the new global
    minimum by at most maxSkew. *)
Theorem spread_keeps_skew t pod podDomains nodeDomains req valid d
    (Hok : counts_ok t) (Hwf : wf nodeDomains) (He : domains t !! ""%string = None)
    (Hself : selects t pod = true)
    (Hrun : nextDomainTopologySpread t pod podDomains nodeDomains = (req, valid)) (Hd : d ∈ valid) :
  ∃ c, domains (Record1 t d) !! d = Some c ∧
    c - domainMinCount (Record1 t d) podDomains <= maxSkew t.
Proof.
  assert (∀ c, 0 <= c < MaxInt32 - 1 → default 0 (domains t !! d) = c →
    domains (Record1 t d) !! d = Some (c + 1)) as Hrec.
  { intros c Hc <-. unfold Record1. simpl. rewrite lookup_insert_eq, wrap32_id by int_lia. done. }
  destruct (singleHostname t nodeDomains) as [h|] eqn:Hs.
  - unfold nextDomainTopologySpread in Hrun. rewrite Hs, Hself in Hrun. unfold countWith in Hrun.
    assert (0 <= default 0 (domains t !! h) < MaxInt32 - 1) as Hb.
    { destruct (domains t !! h) as [c|] eqn:Hc; simpl; [by eapply (proj1 Hok)|int_lia]. }
    rewrite wrap32_id in Hrun by int_lia. destruct (_ <=? maxSkew t) eqn:Hle; injection Hrun as <- <-; [|set_solver].
    apply elem_of_singleton in Hd as ->. apply Z.leb_le in Hle.
    exists (default 0 (domains t !! h) + 1). split; [by apply Hrec|].
    unfold singleHostname in Hs. destruct (Values nodeDomains) as [|x [|y l]]; [done| |done].
    case_bool_decide as Hk; [|done]. unfold domainMinCount. rewrite bool_decide_eq_true_2 by done. lia.
  - pose proof (spread_choice t pod podDomains nodeDomains Hok Hwf Hs He) as Hc. rewrite Hrun in Hc.
    destruct Hc as [Hv _]. apply Hv in Hd as (c & Hc & _ & Hw). unfold withinSkew in Hw. rewrite Hself in Hw.
    apply Z.leb_le in Hw. exists (c + 1). split; [apply Hrec; [by eapply (proj1 Hok)|by rewrite Hc]|].
    pose proof (domainMinCount_Record1 t podDomains d c Hok Hc). lia.
Qed.
End spread.

(** ** Affinity and anti-affinity *)

Section affinity.
Context {LT : LabelTables} {TL : TaintLib} {GR : GoRange}.
Implicit Types (t : TopologyGroup) (pod : Pod) (podDomains nodeDomains r : Requirement) (d : string).

Lemma Insert_nil r : Insert r [] = r.
Proof. destruct r. unfold Insert. simpl. f_equal. set_solver. Qed.

Lemma Insert_app r a b : Insert (Insert r a) b = Insert r (a ++ b).
Proof. unfold Insert. simpl. f_equal. rewrite list_to_set_app_L. set_solver. Qed.

(** A loop that inserts the domains that pass a test. *)
Lemma insert_loop {A} (test : A → bool) (name : A → string) (l : list A) r :
  foldl (λ opts x, if test x then Insert opts [name x] else opts) r l =
  Insert r (name <$> List.filter test l).
Proof.
  revert r. induction l as [|x l IH]; intros r; cbn [foldl List.filter]; [by rewrite Insert_nil|].
  rewrite IH. destruct (test x); [|done]. by rewrite Insert_app, fmap_cons.
Qed.

Definition noDomains (key : string) : Requirement := NewRequirement key OpDoesNotExist [].

Lemma Has_inserted key ds d : Has (Insert (noDomains key) ds) d = true ↔ d ∈ ds.
Proof. rewrite Has_spec. simpl. set_solver. Qed.

Lemma Len_inserted key ds : Len (Insert (noDomains key) ds) = 0 ↔ ds = [].
Proof.
  unfold Len. simpl. rewrite union_empty_l_L. split.
  - intros Hz. destruct ds as [|x ds]; [done|]. exfalso.
    assert (size (list_to_set (x :: ds) : gset string) = 0%nat) as Hs by lia.
    apply size_empty_iff in Hs. set_solver.
  - intros ->. done.
Qed.

Lemma singleHostname_spec t nodeDomains h :
  wf nodeDomains → complement nodeDomains = false →
  singleHostname t nodeDomains = Some h → ∀ d, Has nodeDomains d = true ↔ d = h.
Proof.
  intros Hwf Hc Hs d. rewrite (Has_concrete _ d Hwf Hc). unfold singleHostname in Hs.
  unfold Values in Hs. destruct (elements (values nodeDomains)) as [|x [|y l]] eqn:He; [done| |done].
  case_bool_decide; [|done]. injection Hs as ->. rewrite <- elem_of_elements, He. set_solver.
Qed.

(** Pods counted in a domain; a domain not registered yet has none. *)
Definition podsIn t d : Z := default 0 (domains t !! d).

Lemma nextDomainAntiAffinity_spec N t podDomains nodeDomains d :
  group_inv N t → wf nodeDomains →
  match singleHostname t nodeDomains with
  | Some h => Has (nextDomainAntiAffinity t podDomains nodeDomains) d = true ↔ d = h ∧ podsIn t d = 0
  | None =>
      Has (nextDomainAntiAffinity t podDomains nodeDomains) d = true ↔
      domains t !! d = Some 0 ∧ Has nodeDomains d = true ∧ Has podDomains d = true
  end.
Proof.
  intros [He _] Hwf. unfold nextDomainAntiAffinity. fold (noDomains (tg_Key t)).
  destruct (singleHostname t nodeDomains) as [h|] eqn:Hs.
  { unfold podsIn. destruct (_ =? 0) eqn:Hz.
    - rewrite Has_inserted, list_elem_of_singleton. apply Z.eqb_eq in Hz. naive_solver.
    - rewrite <- (Insert_nil (noDomains (tg_Key t))), Has_inserted. apply Z.eqb_neq in Hz.
      split; [by intros ?%not_elem_of_nil|naive_solver]. }
  destruct (bool_decide (Operator nodeDomains = OpIn) && _) eqn:Hb.
  - apply andb_true_iff in Hb as [Hop%bool_decide_eq_true _].
    rewrite (insert_loop (λ domain, bool_decide (domain ∈ emptyDomains t) && Has podDomains domain) id), list_fmap_id.
    rewrite Has_inserted, list_elem_of_In, filter_In, <- list_elem_of_In, andb_true_iff, bool_decide_eq_true, He.
    unfold Values. rewrite elem_of_elements, (Has_concrete _ d Hwf (OpIn_concrete _ Hop)). tauto.
  - rewrite (insert_loop (λ domain, Has nodeDomains domain && Has podDomains domain) id), list_fmap_id.
    rewrite Has_inserted, list_elem_of_In, filter_In, <- list_elem_of_In, andb_true_iff, elem_of_elements, He. tauto.
Qed.

(** Anti-affinity never co-locates: while the cache of empty domains is exact,
    [nextDomainAntiAffinity] allows exactly the known domains without any
    counted pod that both the pod and the node accept.  For a node restricted to
    one hostname it allows that hostname exactly when no counted pod is there,
    registered or not. *)
Theorem nextDomainAntiAffinity_exact N t podDomains nodeDomains d
    (Hinv : group_inv N t) (Hwf : wf nodeDomains) :
  match singleHostname t nodeDomains with
  | Some h => Has (nextDomainAntiAffinity t podDomains nodeDomains) d = true ↔ d = h ∧ podsIn t d = 0
  | None =>
      Has (nextDomainAntiAffinity t podDomains nodeDomains) d = true ↔
      domains t !! d = Some 0 ∧ Has nodeDomains d = true ∧ Has podDomains d = true
  end.
Proof. by eapply nextDomainAntiAffinity_spec. Qed.

(** A domain that already has a matching pod and that pod and node accept. *)
Definition live t podDomains nodeDomains d : Prop :=
  0 < podsIn t d ∧ Has podDomains d = true ∧ Has nodeDomains d = true.

Lemma podsIn_pos t d : 0 < podsIn t d ↔ ∃ c, domains t !! d = Some c ∧ 0 < c.
Proof. unfold podsIn. destruct (domains t !! d); simpl; naive_solver lia. Qed.

Lemma existing_options t podDomains nodeDomains :
  wf nodeDomains → ∃ ds,
  (if bool_decide (Operator nodeDomains = OpIn)
   then foldl (λ opts domain,
          match domains t !! domain with
          | Some count => if Has podDomains domain && (0 <? count) then Insert opts [domain] else opts
          | None => opts
          end) (noDomains (tg_Key t)) (Values nodeDomains)
   else foldl (λ opts dc,
          if Has podDomains dc.1 && (0 <? dc.2) && Has nodeDomains dc.1 then Insert opts [dc.1] else opts)
          (noDomains (tg_Key t)) (gorange (domains t))) = Insert (noDomains (tg_Key t)) ds ∧
  ∀ d, d ∈ ds ↔ live t podDomains nodeDomains d.
Proof.
  intros Hwf. unfold live. setoid_rewrite podsIn_pos. case_bool_decide as Hop.
  - exists (List.filter (λ d, match domains t !! d with Some c => Has podDomains d && (0 <? c) | None => false end)
      (Values nodeDomains)). split.
    + rewrite <- (list_fmap_id (List.filter _ _)), <- (insert_loop _ id).
      generalize (noDomains (tg_Key t)). induction (Values nodeDomains) as [|x l IH]; intros r; [done|].
      cbn [foldl]. rewrite IH. by destruct (domains t !! x).
    + intros d. rewrite list_elem_of_In, filter_In, <- list_elem_of_In. unfold Values.
      rewrite elem_of_elements, (Has_concrete _ d Hwf (OpIn_concrete _ Hop)).
      destruct (domains t !! d) as [c|]; [rewrite andb_true_iff, Z.ltb_lt|]; naive_solver.
  - exists (fst <$> List.filter (λ dc, Has podDomains dc.1 && (0 <? dc.2) && Has nodeDomains dc.1) (gorange (domains t))).
    split; [apply (insert_loop (λ dc, Has podDomains dc.1 && (0 <? dc.2) && Has nodeDomains dc.1) fst)|].
    intros d. rewrite list_elem_of_fmap. split.
    + intros ([d' c] & -> & Hin). rewrite list_elem_of_In, filter_In, <- list_elem_of_In, elem_of_gorange in Hin.
      destruct Hin as [Hd Hb]. simpl in *. destruct_bools. eauto.
    + intros ((c & Hd & Hc) & Hp & Hn). exists (d, c). split; [done|].
      rewrite list_elem_of_In, filter_In, <- list_elem_of_In, elem_of_gorange. simpl.
      rewrite Hp, Hn, (proj2 (Z.ltb_lt 0 c)) by done. done.
Qed.

(** The bootstrap test says that no pod is counted where this pod may go. *)
Lemma mayBootstrap_spec N t pod podDomains :
  group_inv N t →
  mayBootstrap t pod podDomains = true ↔
  selects t pod = true ∧ ∀ d, Has podDomains d = true → podsIn t d = 0.
Proof.
  intros [He Hc]. unfold mayBootstrap. rewrite andb_true_iff, orb_true_iff, bool_decide_eq_true, negb_true_iff.
  assert (anyCompatiblePodDomain t podDomains = false ↔ ∀ d, Has podDomains d = true → podsIn t d = 0) as Hany.
  { rewrite <- not_true_iff_false. unfold anyCompatiblePodDomain. rewrite existsb_exists. split.
    - intros Hno d Hd. unfold podsIn. destruct (domains t !! d) as [c|] eqn:Hdc; simpl; [|done].
      destruct (decide (c = 0)) as [->|Hnz]; [done|]. destruct Hno. exists (d, c).
      rewrite <- list_elem_of_In, elem_of_gorange. simpl. rewrite Hd. split; [done|]. apply Z.ltb_lt.
      specialize (Hc d c Hdc). lia.
    - intros Hz ([d c] & Hin & [Hd Hpos]%andb_true_iff). apply list_elem_of_In, elem_of_gorange in Hin.
      specialize (Hz d Hd). unfold podsIn in Hz. rewrite Hin in Hz. simpl in *. apply Z.ltb_lt in Hpos. lia. }
  rewrite Hany. split; [|tauto]. intros [Hsel [Hsz|Hz]]; [|done]. split; [done|]. intros d _.
  unfold podsIn. destruct (domains t !! d) as [c|] eqn:Hd; [|done]. simpl.
  assert (emptyDomains t = dom (domains t)) as Heq.
  { apply set_subseteq_size_eq.
    - intros x. rewrite He, elem_of_dom. eauto.
    - rewrite size_dom. lia. }
  assert (d ∈ emptyDomains t) as Hin by (rewrite Heq; by eapply elem_of_dom_2).
  apply He in Hin. rewrite Hd in Hin. by injection Hin.
Qed.

Lemma insertFirst_spec t (test : string → bool) key ds :
  ∃ ds', insertFirst t test (Insert (noDomains key) ds) = Insert (noDomains key) (ds ++ ds') ∧
    (∀ d, d ∈ ds' → is_Some (domains t !! d) ∧ test d = true) ∧
    (∀ d, is_Some (domains t !! d) → test d = true → ds' ≠ []).
Proof.
  unfold insertFirst. destruct (List.find _ _) as [[d c]|] eqn:Hf.
  - apply find_some in Hf as [Hin Ht]. apply list_elem_of_In, elem_of_gorange in Hin.
    exists [d]. rewrite Insert_app. split_and!; [done| |done].
    intros d' ->%list_elem_of_singleton. split; [by eexists|done].
  - exists []. rewrite app_nil_r. split_and!; [done|by intros d ?%not_elem_of_nil|].
    intros d [c Hd] Ht. pose proof (find_none _ _ Hf (d, c)) as Hn. simpl in Hn.
    rewrite Hn in Ht; [done|]. by apply list_elem_of_In, elem_of_gorange.
Qed.

Lemma nextDomainAffinity_general N t pod podDomains nodeDomains :
  group_inv N t → wf nodeDomains → singleHostname t nodeDomains = None →
  let opts := nextDomainAffinity t pod podDomains nodeDomains in
  ((∃ d, live t podDomains nodeDomains d) ∧ ∀ d, Has opts d = true ↔ live t podDomains nodeDomains d) ∨
  ((∀ d, ¬ live t podDomains nodeDomains d) ∧
   (∀ d, Has opts d = true → is_Some (domains t !! d) ∧ Has podDomains d = true ∧ mayBootstrap t pod podDomains = true) ∧
   (mayBootstrap t pod podDomains = true → ∀ d, is_Some (domains t !! d) → Has podDomains d = true →
      (∃ d', Has opts d' = true) ∧ (Has nodeDomains d = true → ∃ d', Has opts d' = true ∧ Has nodeDomains d' = true))).
Proof.
  intros Hinv Hwf Hs opts. subst opts. unfold nextDomainAffinity. rewrite Hs. fold (noDomains (tg_Key t)).
  destruct (existing_options t podDomains nodeDomains Hwf) as (ds & Hds & Hlive). rewrite Hds. clear Hds.
  destruct (Len (Insert (noDomains (tg_Key t)) ds) =? 0) eqn:Hl; cbn [negb].
  2:{ left. apply Z.eqb_neq in Hl. rewrite Len_inserted in Hl. split.
      - destruct ds as [|d ds]; [done|]. exists d. apply Hlive, list_elem_of_here.
      - intros d. by rewrite Has_inserted. }
  apply Z.eqb_eq in Hl. rewrite Len_inserted in Hl. subst ds. right.
  split; [intros d Hd%Hlive; by apply not_elem_of_nil in Hd|].
  destruct (mayBootstrap t pod podDomains).
  2:{ split; [|done]. intros d. rewrite Has_inserted. by intros ?%not_elem_of_nil. }
  destruct (insertFirst_spec t (Has (Intersection podDomains nodeDomains)) (tg_Key t) []) as (d1 & -> & H1 & H1').
  destruct (insertFirst_spec t (Has podDomains) (tg_Key t) ([] ++ d1)) as (d2 & -> & H2 & H2').
  cbn [app]. setoid_rewrite Has_inserted. setoid_rewrite elem_of_app. setoid_rewrite Has_Intersection in H1.
  setoid_rewrite andb_true_iff in H1. setoid_rewrite Has_Intersection in H1'. split.
  - intros d [Hd|Hd]; [apply H1 in Hd|apply H2 in Hd]; naive_solver.
  - intros _ d Hd Hp. split.
    + specialize (H2' d Hd Hp). destruct d2 as [|x d2]; [done|]. exists x. right. apply list_elem_of_here.
    + intros Hn. destruct d1 as [|x d1]; [destruct (H1' d Hd); [by rewrite Hp, Hn|done]|].
      exists x. split; [left; apply list_elem_of_here|]. apply (H1 x), list_elem_of_here.
Qed.

Lemma nextDomainAffinity_hostname t pod podDomains nodeDomains h d :
  singleHostname t nodeDomains = Some h →
  Has (nextDomainAffinity t pod podDomains nodeDomains) d = true ↔
  d = h ∧ Has podDomains h = true ∧ (0 < podsIn t h ∨ mayBootstrap t pod podDomains = true).
Proof.
  intros Hs. unfold nextDomainAffinity. rewrite Hs. fold (noDomains (tg_Key t)). fold (podsIn t h).
  assert (Has (noDomains (tg_Key t)) d = true ↔ False) as Hno.
  { rewrite <- (Insert_nil (noDomains (tg_Key t))), Has_inserted. split; [apply not_elem_of_nil|done]. }
  destruct (Has podDomains h); cbn [negb]; [|naive_solver].
  destruct (0 <? podsIn t h) eqn:Hp; [apply Z.ltb_lt in Hp; rewrite Has_inserted, list_elem_of_singleton; naive_solver|].
  apply Z.ltb_ge in Hp. destruct (mayBootstrap t pod podDomains).
  - rewrite Has_inserted, list_elem_of_singleton. naive_solver.
  - rewrite Hno. split; [done|]. intros (_ & _ & [?|?]); [lia|done].
Qed.

(** Affinity follows the pods.  Every domain [nextDomainAffinity] allows is
    one the pod accepts and either already has a matching pod, or the pod
    matches its own selector and no matching pod is in any domain the pod could
    go to (the first pod of the group).  Conversely, when some domain accepted
    by pod and node has a matching pod, exactly those domains are allowed; and
    when the pod may be the first of its group, some known domain is allowed,
    one the node accepts if there is any. *)
Theorem nextDomainAffinity_follows N t pod podDomains nodeDomains
    (Hinv : group_inv N t) (Hwf : wf nodeDomains) :
  let opts := nextDomainAffinity t pod podDomains nodeDomains in
  let first := selects t pod = true ∧ ∀ d', Has podDomains d' = true → podsIn t d' = 0 in
  (∀ d, Has opts d = true → Has podDomains d = true ∧ (0 < podsIn t d ∨ first)) ∧
  (singleHostname t nodeDomains = None →
   ((∃ d, live t podDomains nodeDomains d) → ∀ d, Has opts d = true ↔ live t podDomains nodeDomains d) ∧
   (first → ∀ d, is_Some (domains t !! d) → Has podDomains d = true →
      (∃ d', Has opts d' = true) ∧ (Has nodeDomains d = true → ∃ d', Has opts d' = true ∧ Has nodeDomains d' = true))).
Proof.
  intros opts first. pose proof (mayBootstrap_spec N t pod podDomains Hinv) as Hb. fold first in Hb.
  subst opts. destruct (singleHostname t nodeDomains) as [h|] eqn:Hs.
  { split; [|done]. intros d. rewrite (nextDomainAffinity_hostname t pod podDomains nodeDomains h d Hs), Hb.
    intros (-> & ? & ?). auto. }
  destruct (nextDomainAffinity_general N t pod podDomains nodeDomains Hinv Hwf Hs)
    as [[[d0 Hd0] Hex]|(Hno & Hsound & Hboot)].
  - split.
    + intros d (? & ? & ?)%Hex. auto.
    + intros _. split; [done|]. intros [_ Hz]. destruct Hd0 as (Hpos & Hp & _). specialize (Hz d0 Hp). lia.
  - split.
    + intros d (? & ? & ?%Hb)%Hsound. auto.
    + intros _. split; [intros [d Hd]; by destruct (Hno d)|]. intros Hf. by apply Hboot, Hb.
Qed.
End affinity.

(** * Witnesses *)

Section witnesses.
#[local] Existing Instance karpenterLabels.
#[local] Existing Instance karpenterLabels_ok.
#[local] Existing Instance keyTaintLib.
#[local] Existing Instance map_to_list_GoRange.

Definition zoneKey : string := "topology.kubernetes.io/zone".

Definition zoneGroup (ty : TopologyType) : TopologyGroup :=
  mkGroup zoneKey ty 1 None {["default"%string]} (λ _, true) zeroNodeFilter ∅
    {["zone-a"%string := 1; "zone-b"%string := 0]} {["zone-b"%string]}.

Definition webPod : Pod := barePod "default" "web" "uid-1".
Definition anyZone : Requirement := NewRequirement zoneKey OpExists [].
Definition twoZones : Requirement := NewRequirement zoneKey OpIn ["zone-a"; "zone-b"]%string.

Lemma zoneGroup_lookup ty d c :
  domains (zoneGroup ty) !! d = Some c → d = "zone-a"%string ∧ c = 1 ∨ d = "zone-b"%string ∧ c = 0.
Proof.
  unfold zoneGroup. cbn [domains].
  intros [[<- <-]|[_ [<- <-]%lookup_singleton_Some]]%lookup_insert_Some; auto.
Qed.

Lemma zoneGroup_inv ty : group_inv 1 (zoneGroup ty).
Proof.
  split.
  - intros d. unfold zoneGroup. cbn [domains emptyDomains]. rewrite elem_of_singleton. split.
    + intros ->. reflexivity.
    + intros [[_ Hbad]|[_ [<- _]%lookup_singleton_Some]]%lookup_insert_Some; [discriminate Hbad|reflexivity].
  - intros d c [[_ ->]|[_ ->]]%zoneGroup_lookup; lia.
Qed.

Lemma zoneGroup_counts ty : counts_ok (zoneGroup ty).
Proof.
  split; [|split; [vm_compute; discriminate|split; vm_compute; discriminate]].
  intros d c [[_ ->]|[_ ->]]%zoneGroup_lookup; int_lia.
Qed.

Lemma nextDomainTopologySpread_least_witness :
  ({["zone-b"%string]} : gset string) = ∅ ∧ NewRequirement zoneKey OpIn ["zone-b"%string] = NewRequirement zoneKey OpDoesNotExist [] ∨
  ∃ d c, d ∈ ({["zone-b"%string]} : gset string) ∧ domains (zoneGroup TopologyTypeSpread) !! d = Some c ∧
     NewRequirement zoneKey OpIn ["zone-b"%string] = NewRequirement zoneKey OpIn [d] ∧
     ∀ d' c', d' ∈ ({["zone-b"%string]} : gset string) →
       domains (zoneGroup TopologyTypeSpread) !! d' = Some c' → c <= c'.
Proof.
  refine (proj2 (nextDomainTopologySpread_least (zoneGroup TopologyTypeSpread) webPod anyZone twoZones _ _
    (zoneGroup_counts _) _ _ _ _)).
  - apply NewRequirementWithFlexibility_wf.
  - vm_compute. reflexivity.
  - vm_compute. reflexivity.
  - vm_compute. reflexivity.
Defined.

Lemma spread_keeps_skew_witness :
  ∃ c, domains (Record1 (zoneGroup TopologyTypeSpread) "zone-b") !! "zone-b"%string = Some c ∧
    c - domainMinCount (Record1 (zoneGroup TopologyTypeSpread) "zone-b") anyZone <= 1.
Proof.
  apply (spread_keeps_skew (zoneGroup TopologyTypeSpread) webPod anyZone twoZones
    (NewRequirement zoneKey OpIn ["zone-b"%string]) {["zone-b"%string]} "zone-b").
  - apply zoneGroup_counts.
  - apply NewRequirementWithFlexibility_wf.
  - vm_compute. reflexivity.
  - vm_compute. reflexivity.
  - vm_compute. reflexivity.
  - by apply elem_of_singleton.
Defined.

Lemma nextDomainAntiAffinity_exact_witness :
  Has (nextDomainAntiAffinity (zoneGroup TopologyTypePodAntiAffinity) anyZone twoZones) "zone-a" = true ↔
  domains (zoneGroup TopologyTypePodAntiAffinity) !! "zone-a"%string = Some 0 ∧
  Has twoZones "zone-a" = true ∧ Has anyZone "zone-a" = true.
Proof.
  apply (nextDomainAntiAffinity_exact 1 (zoneGroup TopologyTypePodAntiAffinity) anyZone twoZones "zone-a").
  - apply zoneGroup_inv.
  - apply NewRequirementWithFlexibility_wf.
Defined.

Lemma nextDomainAffinity_follows_witness :
  Has anyZone "zone-a" = true ∧
  (0 < podsIn (zoneGroup TopologyTypePodAffinity) "zone-a" ∨
   selects (zoneGroup TopologyTypePodAffinity) webPod = true ∧
   ∀ d', Has anyZone d' = true → podsIn (zoneGroup TopologyTypePodAffinity) d' = 0).
Proof.
  refine (proj1 (nextDomainAffinity_follows 1 (zoneGroup TopologyTypePodAffinity) webPod anyZone twoZones _ _) "zone-a"%string _).
  - apply zoneGroup_inv.
  - apply NewRequirementWithFlexibility_wf.
  - vm_compute. reflexivity.
Defined.

Definition oneZone : TopologyDomainGroup := InsertDomain ∅ "zone-a" "pool" [] ∅.

Definition freshGroup : TopologyGroup :=
  default (zoneGroup TopologyTypePodAffinity)
    (NewTopologyGroup TopologyTypePodAffinity zoneKey webPod ∅ None 1 None None None oneZone).

Lemma emptyDomains_exact_witness :
  "zone-a"%string ∈ emptyDomains (foldl apply_op freshGroup [DoRecord ["zone-a"%string]]) ↔
  domains (foldl apply_op freshGroup [DoRecord ["zone-a"%string]]) !! "zone-a"%string = Some 0.
Proof.
  refine (proj1 (emptyDomains_exact TopologyTypePodAffinity zoneKey webPod ∅ None 1 None None None oneZone freshGroup
    [DoRecord ["zone-a"%string]] _ _) "zone-a"%string).
  - reflexivity.
  - vm_compute. discriminate.
Defined.

(** A spread constraint of a pod that selects one zone. *)
Definition zoneFilter : TopologyNodeFilter :=
  mkNodeFilter [NewRequirements [NewRequirement zoneKey OpIn ["zone-a"%string]]] PolicyIgnore PolicyHonor [].

(** [Matches] does not pass its compatibility options on.  A node claim whose
    zone is still undefined meets the requirements of the filter when well-known
    labels may be undefined, but [Matches], called with that same option,
    rejects it, so a pod placed on it is not counted. *)
Theorem Matches_drops_options :
  matchesRequirements zoneFilter ∅ {[zoneKey]} = true ∧
  Matches zoneFilter [] ∅ {[zoneKey]} = false.
Proof. vm_compute. split; reflexivity. Qed.
End witnesses.
