(* ===== verification/Limits.v ===== *)
(** * Node pool limits

    Model of how [pkg/controllers/provisioning/scheduling/scheduler.go] keeps new
    NodeClaims within the limits of their NodePool: what remains of the limits
    ([updateRemainingResources]), which instance types still fit
    ([filterByRemainingResources] and the limit checks of
    [evaluateNewNodeClaim]), and charging a NodeClaim pessimistically when it is
    opened ([subtractMax] in [commitNewNodeClaim]). *)

From S2P Require Import Prelude Kube Resources InstanceTypes HostPorts Volumes PodUtils StateNode.

Section limits.
Context {Q : Type} `{Quantity Q}.
Implicit Types (its : list (InstanceType Q)) (remaining : ResourceList Q) (pool : string).

Definition subtractMax remaining its : ResourceList Q :=
  match its with
  | [] => remaining
  | _ =>
      let itResources := MaxResources (it_Capacity <$> its) in
      map_imap (λ k v, Some (qsub v (rget itResources k))) remaining
  end.

Definition filterByRemainingResources its remaining : list (InstanceType Q) :=
  List.filter (λ it,
    map_forallb (λ resourceName remainingQuantity,
      match qcmp (rget (it_Capacity it) resourceName) remainingQuantity with Gt => false | _ => true end) remaining) its.

(** Why a template is rejected before a NodeClaim is built from it. *)
Inductive LimitRejection := NodesExhausted | AllExceedLimits.

(** The part of [evaluateNewNodeClaim] that applies the limits of [pool]: the
    instance types a NodeClaim may be built from. *)
Definition applyLimits (remainingResources : gmap string (ResourceList Q)) pool its
    : LimitRejection + list (InstanceType Q) :=
  match remainingResources !! pool with
  | None => inr its
  | Some remaining =>
      match remaining !! ResourceNode with
      | Some nodesRemaining => if IsZero nodesRemaining then inl NodesExhausted else
          match filterByRemainingResources its remaining with [] => inl AllExceedLimits | its => inr its end
      | None =>
          match filterByRemainingResources its remaining with [] => inl AllExceedLimits | its => inr its end
      end
  end.

(** The last line of [commitNewNodeClaim]; [options] are the instance types of
    the NodeClaim that was opened. *)
Definition chargeLimits (remainingResources : gmap string (ResourceList Q)) pool (options : list (InstanceType Q))
    : gmap string (ResourceList Q) :=
  <[pool := subtractMax (default ∅ (remainingResources !! pool)) options]> remainingResources.

(** [NewScheduler]: a node pool's limits less the capacity of its nodes, for
    the nodes in turn.  [None]: a node with neither labels nor capacity, on
    which the Go code panics. *)
Definition updateRemainingResources `{NetIP} (remainingResources : gmap string (ResourceList Q)) (node : StateNode Q)
    : option (gmap string (ResourceList Q)) :=
  labels ← Labels node;
  let pool := default ""%string (labels !! NodePoolLabelKey) in
  match remainingResources !! pool with
  | Some remaining => capacity ← Capacity node; Some (<[pool := Subtract remaining capacity]> remainingResources)
  | None => Some remainingResources
  end.
End limits.

(** * Theory *)

Section theory.
Context {Q : Type} `{QuantityLaws Q}.
Implicit Types (its options : list (InstanceType Q)) (remaining : ResourceList Q) (rl : ResourceList Q) (pool k : string).

Lemma MaxResources_snoc (rls : list (ResourceList Q)) rl k :
  MaxResources (rls ++ [rl]) !! k =
  match rl !! k with
  | Some x => Some (match MaxResources rls !! k with
                    | Some y => match qcmp x y with Gt => x | _ => y end
                    | None => x
                    end)
  | None => MaxResources rls !! k
  end.
Proof.
  unfold MaxResources. rewrite foldl_snoc, range_update_lookup. by destruct (rl !! k), (foldl _ _ _ !! k).
Qed.

(** [MaxResources] is the largest quantity any list has for the name. *)
Lemma MaxResources_spec (rls : list (ResourceList Q)) k :
  (∀ rl x, rl ∈ rls → rl !! k = Some x → ∃ y, MaxResources rls !! k = Some y ∧ qval x <= qval y) ∧
  (∀ y, MaxResources rls !! k = Some y → ∃ rl, rl ∈ rls ∧ rl !! k = Some y).
Proof.
  induction rls as [|rl0 rls [IH1 IH2]] using rev_ind.
  { split; [by intros rl x ?%not_elem_of_nil|]. intros y. unfold MaxResources. simpl. by rewrite lookup_empty. }
  setoid_rewrite elem_of_app. rewrite MaxResources_snoc. split.
  - intros rl x [Hin| ->%list_elem_of_singleton] Hx.
    + destruct (IH1 rl x Hin Hx) as (y & -> & Hle). destruct (rl0 !! k) as [z|]; [|by exists y].
      eexists. split; [done|]. rewrite qcmp_val. destruct (Z.compare_spec (qval z) (qval y)); lia.
    + rewrite Hx. eexists. split; [done|]. destruct (MaxResources rls !! k) as [y|]; [|lia].
      rewrite qcmp_val. destruct (Z.compare_spec (qval x) (qval y)); lia.
  - intros y Hy. destruct (rl0 !! k) as [z|] eqn:Hz.
    + destruct (MaxResources rls !! k) as [w|] eqn:Hw; [destruct (qcmp z w) eqn:Hc|]; injection Hy as <-;
        (by exists rl0; split; [right; apply list_elem_of_here|]) ||
        (destruct (IH2 w eq_refl) as (rl & ? & ?); exists rl; split; [by left|done]).
    + destruct (IH2 y Hy) as (rl & ? & ?). exists rl. split; [by left|done].
Qed.

(** The capacity of [k] charged for a NodeClaim with these options. *)
Definition charge options k : Z := amount (MaxResources (it_Capacity <$> options)) k.

Lemma charge_upper options it k :
  Forall (λ it, nonneg (it_Capacity it)) options → it ∈ options → amount (it_Capacity it) k <= charge options k.
Proof.
  intros Hnn Hit. destruct (MaxResources_spec (it_Capacity <$> options) k) as [Hup Hat].
  rewrite Forall_forall in Hnn. unfold charge, amount, rget.
  destruct (it_Capacity it !! k) as [x|] eqn:Hx; simpl.
  - destruct (Hup (it_Capacity it) x) as (y & -> & Hle); [by apply list_elem_of_fmap_2|done|done].
  - rewrite qval_zero. destruct (MaxResources _ !! k) as [y|] eqn:Hy; simpl; [|by rewrite qval_zero].
    destruct (Hat y eq_refl) as (rl & (it' & -> & Hin)%list_elem_of_fmap & Hl). by eapply (Hnn it').
Qed.

Lemma charge_attained options k : options ≠ [] → ∃ it, it ∈ options ∧ charge options k = amount (it_Capacity it) k.
Proof.
  intros Hne. destruct (MaxResources_spec (it_Capacity <$> options) k) as [Hup Hat]. unfold charge, amount, rget.
  destruct (MaxResources (it_Capacity <$> options) !! k) as [y|] eqn:Hy.
  - destruct (Hat y eq_refl) as (rl & (it & -> & Hin)%list_elem_of_fmap & Hl). exists it. by rewrite Hl.
  - destruct options as [|it options]; [done|]. exists it. split; [apply list_elem_of_here|].
    destruct (it_Capacity it !! k) as [x|] eqn:Hx; [|done].
    destruct (Hup (it_Capacity it) x) as (y & ? & _); [apply list_elem_of_fmap_2, list_elem_of_here|done|done].
Qed.

Lemma lookup_subtractMax remaining options k :
  options ≠ [] →
  subtractMax remaining options !! k = (λ v, qsub v (rget (MaxResources (it_Capacity <$> options)) k)) <$> remaining !! k.
Proof.
  intros Hne. unfold subtractMax. destruct options as [|it options]; [done|].
  rewrite map_lookup_imap. by destruct (remaining !! k).
Qed.

Lemma elem_of_filterByRemaining its remaining it :
  it ∈ filterByRemainingResources its remaining ↔
  it ∈ its ∧ ∀ k x, remaining !! k = Some x → amount (it_Capacity it) k <= qval x.
Proof.
  unfold filterByRemainingResources. rewrite list_elem_of_In, filter_In, <- list_elem_of_In, map_forallb_true.
  setoid_rewrite qcmp_val. unfold amount. apply and_iff_compat_l.
  split; intros Hall k x Hx; specialize (Hall k x Hx); destruct (Z.compare_spec (qval (rget (it_Capacity it) k)) (qval x)); done || lia.
Qed.

Lemma applyLimits_options rem pool its its' it :
  applyLimits rem pool its = inr its' → it ∈ its' →
  it ∈ its ∧ ∀ remaining k x, rem !! pool = Some remaining → remaining !! k = Some x → amount (it_Capacity it) k <= qval x.
Proof.
  intros Ha Hit. unfold applyLimits in Ha. destruct (rem !! pool) as [remaining|] eqn:Hr; [|injection Ha as ->; done].
  assert (its' = filterByRemainingResources its remaining) as ->.
  { destruct (remaining !! ResourceNode) as [n|]; [destruct (IsZero n); [done|]|];
      destruct (filterByRemainingResources its remaining); congruence. }
  apply elem_of_filterByRemaining in Hit as [Hin Hle]. split; [done|].
  intros r k x [= <-]. apply Hle.
Qed.

(** ** Runs of the scheduler, as far as limits are concerned *)

(** One new NodeClaim is opened: its template passes the limits, and some of
    the instance types left (at least one) survive [CanAdd].  The second
    component records the NodeClaims opened so far. *)
Abbreviation LimitState := (gmap string (ResourceList Q) * list (string * list (InstanceType Q)))%type.

Inductive open_step : LimitState → LimitState → Prop :=
  | open_claim rem opened pool its its' options :
      applyLimits rem pool its = inr its' → options ≠ [] → (∀ it, it ∈ options → it ∈ its') →
      Forall (λ it, nonneg (it_Capacity it)) options →
      open_step (rem, opened) (chargeLimits rem pool options, opened ++ [(pool, options)]).

(** The options of the NodeClaims opened for a pool. *)
Definition claimsOf pool (opened : list (string * list (InstanceType Q))) : list (list (InstanceType Q)) :=
  (List.filter (λ po, String.eqb po.1 pool) opened).*2.

Definition charged (claims : list (list (InstanceType Q))) k : Z := foldr (λ options n, charge options k + n) 0 claims.

Lemma charged_snoc claims options k : charged (claims ++ [options]) k = charged claims k + charge options k.
Proof. unfold charged. induction claims as [|c claims IH]; simpl in *; [lia|]. rewrite IH. lia. Qed.

Lemma claimsOf_snoc pool opened pool' options :
  claimsOf pool (opened ++ [(pool', options)]) =
  claimsOf pool opened ++ (if String.eqb pool' pool then [options] else []).
Proof.
  unfold claimsOf. rewrite List.filter_app. simpl. rewrite fmap_app. by destruct (String.eqb pool' pool).
Qed.

Definition limit_inv (limits : ResourceList Q) pool (st : LimitState) : Prop :=
  (∃ remaining, st.1 !! pool = Some remaining ∧
     ∀ k x, limits !! k = Some x → ∃ y, remaining !! k = Some y ∧ qval y = qval x - charged (claimsOf pool st.2) k ∧
       (claimsOf pool st.2 ≠ [] → 0 <= qval y)) ∧
  Forall (Forall (λ it, nonneg (it_Capacity it))) (claimsOf pool st.2).

Lemma open_step_inv limits pool st st' : limit_inv limits pool st → open_step st st' → limit_inv limits pool st'.
Proof.
  intros [(remaining & Hr & Hk) Hnn] Hs. destruct Hs as [rem opened pool' its its' options Ha Hne Hsub Hpos]. simpl in *.
  unfold limit_inv, chargeLimits. cbn [fst snd]. rewrite claimsOf_snoc.
  destruct (String.eqb pool' pool) eqn:Hp.
  - apply String.eqb_eq in Hp as ->. split; [|apply Forall_app; split; [done|by constructor]].
    exists (subtractMax remaining options). rewrite lookup_insert_eq, Hr. split; [done|]. intros k x Hx.
    destruct (Hk k x Hx) as (y & Hy & Hval & _). rewrite lookup_subtractMax, Hy by done. simpl.
    eexists. split; [done|]. rewrite qval_sub, charged_snoc. fold (amount (MaxResources (it_Capacity <$> options)) k).
    fold (charge options k). split; [lia|]. intros _.
    destruct (charge_attained options k Hne) as (it & Hit & ->).
    destruct (applyLimits_options _ _ _ _ it Ha (Hsub it Hit)) as [_ Hle]. specialize (Hle _ _ _ Hr Hy). lia.
  - apply String.eqb_neq in Hp. rewrite app_nil_r. split; [|done]. exists remaining. by rewrite lookup_insert_ne.
Qed.

Lemma launched_le_charged claims launched k :
  Forall (Forall (λ it, nonneg (it_Capacity it))) claims → Forall2 (λ options it, it ∈ options) claims launched →
  total_amount (it_Capacity <$> launched) k <= charged claims k.
Proof.
  intros Hnn Hl. induction Hl as [|options it claims launched Hit Hl IH]; [done|].
  inversion Hnn as [|? ? Ho Hrest]; subst. pose proof (charge_upper options it k Ho Hit). specialize (IH Hrest).
  rewrite fmap_cons. unfold charged, total_amount in *. cbn [foldr]. lia.
Qed.

(** What is launched for the opened NodeClaims is within what remained. *)
Lemma launched_within_limits rem0 rem opened pool remaining k x launched
    (Hrun : rtc open_step (rem0, []) (rem, opened)) (Hrem : rem0 !! pool = Some remaining) (Hx : remaining !! k = Some x)
    (Hlaunch : Forall2 (λ options it, it ∈ options) (claimsOf pool opened) launched) (Hsome : launched ≠ []) :
  total_amount (it_Capacity <$> launched) k <= qval x.
Proof.
  assert (limit_inv remaining pool (rem, opened)) as [(r & _ & Hk) Hnn].
  { assert (limit_inv remaining pool (rem0, [])) as Hinit.
    { split; [|constructor]. exists remaining. split; [done|]. intros k' x' Hx'. exists x'. split; [done|].
      split; [simpl; lia|done]. }
    clear Hlaunch. remember (rem0, []) as st0. remember (rem, opened) as st. clear Heqst0 Heqst.
    induction Hrun as [|st0 st1 st2 Hs _ IH]; [done|]. by eapply IH, open_step_inv. }
  destruct (Hk k x Hx) as (y & _ & Hval & Hpos). simpl in *.
  pose proof (launched_le_charged _ _ k Hnn Hlaunch). cut (0 <= qval y); [lia|]. apply Hpos.
  intros Hnil. rewrite Hnil in Hlaunch. by inversion Hlaunch; subst.
Qed.

(** C6. NodePool limits are never exceeded by what a scheduling pass opens.  For
    every run that opens NodeClaims from templates that pass the limits, and
    whichever of its instance types each NodeClaim of the pool is finally
    launched as, the launched instances together stay within what remained of
    every limited resource when the pass began. *)
Theorem limits_never_exceeded rem0 rem opened pool remaining k x launched
    (Hrun : rtc open_step (rem0, []) (rem, opened)) (Hrem : rem0 !! pool = Some remaining) (Hx : remaining !! k = Some x)
    (Hlaunch : Forall2 (λ options it, it ∈ options) (claimsOf pool opened) launched) (Hsome : launched ≠ []) :
  total_amount (it_Capacity <$> launched) k <= qval x.
Proof. by apply (launched_within_limits rem0 rem opened pool remaining). Qed.

(** A NodeClaim is only charged for what its instance types list: when none of
    them has an entry for [nodes], opening it leaves the remaining node count
    as it was. *)
Theorem node_limit_not_charged rem pool remaining options
    (Hrem : rem !! pool = Some remaining) (Hno : Forall (λ it, it_Capacity it !! ResourceNode = None) options) :
  ∃ remaining', chargeLimits rem pool options !! pool = Some remaining' ∧
    amount remaining' ResourceNode = amount remaining ResourceNode.
Proof.
  unfold chargeLimits. rewrite lookup_insert_eq, Hrem. eexists. split; [done|]. simpl.
  destruct options as [|it options]; [done|]. unfold amount, rget at 1 2. rewrite lookup_subtractMax by done.
  assert (rget (MaxResources (it_Capacity <$> it :: options)) ResourceNode = qzero) as ->.
  { unfold rget. destruct (MaxResources _ !! ResourceNode) as [y|] eqn:Hy; [|done].
    destruct (MaxResources_spec (it_Capacity <$> it :: options) ResourceNode) as [_ Hat].
    destruct (Hat y Hy) as (rl & (it' & -> & Hin)%list_elem_of_fmap & Hl).
    rewrite Forall_forall in Hno. by rewrite Hno in Hl. }
  destruct (remaining !! ResourceNode); simpl; [|done]. rewrite qval_sub, qval_zero. lia.
Qed.
End theory.

(** * Witnesses *)

Definition fourCPUs : InstanceType Z := mkInstanceType "four" ∅ [] {["cpu"%string := 4]} (mkOverhead ∅ ∅ ∅).
Definition twoCPUs : InstanceType Z := mkInstanceType "two" ∅ [] {["cpu"%string := 2]} (mkOverhead ∅ ∅ ∅).
Definition tenCPUs : ResourceList Z := {["cpu"%string := 10; "nodes"%string := 1]}.

Lemma limits_never_exceeded_witness : total_amount (it_Capacity <$> [twoCPUs]) "cpu" <= 10.
Proof.
  refine (limits_never_exceeded {["pool"%string := tenCPUs]}
    (chargeLimits {["pool"%string := tenCPUs]} "pool" [fourCPUs; twoCPUs]) [("pool"%string, [fourCPUs; twoCPUs])]
    "pool" tenCPUs "cpu" 10 [twoCPUs] _ _ _ _ _).
  - apply rtc_once, (open_claim _ [] "pool" [fourCPUs; twoCPUs] [fourCPUs; twoCPUs] [fourCPUs; twoCPUs]).
    + vm_compute. reflexivity.
    + discriminate.
    + intros it Hit. exact Hit.
    + assert (∀ q : Z, 0 <= q → nonneg {["cpu"%string := q]}) as Hnn.
      { intros q Hq k x Hx. apply lookup_singleton_Some in Hx as [_ <-]. exact Hq. }
      apply Forall_cons_2; [apply Hnn; lia|]. apply Forall_cons_2; [apply Hnn; lia|]. apply Forall_nil_2.
  - vm_compute. reflexivity.
  - vm_compute. reflexivity.
  - constructor; [|constructor]. apply list_elem_of_further, list_elem_of_here.
  - discriminate.
Defined.

Lemma node_limit_not_charged_witness :
  ∃ remaining', chargeLimits {["pool"%string := tenCPUs]} "pool" [fourCPUs] !! "pool"%string = Some remaining' ∧
    amount remaining' ResourceNode = amount tenCPUs ResourceNode.
Proof.
  apply (node_limit_not_charged {["pool"%string := tenCPUs]} "pool" tenCPUs [fourCPUs]).
  - vm_compute. reflexivity.
  - repeat constructor.
Defined.
