(* ===== verification/Topology.v ===== *)
(** * The topology of a scheduling pass

    Model of [pkg/controllers/provisioning/scheduling/topology.go]: the topology
    groups of the pods being scheduled, the inverse groups of pods with
    anti-affinity, which of them apply to a pod, how they tighten the
    requirements of a node, and how a placement is recorded in all of them.  The
    theorems hold for every initial count; [TopologyBuild.v] builds it. *)

From S2P Require Import Prelude Strconv Requirement Kube Taints Requirements TopologyGroup.

Record Topology := mkTopology {
  (** keyed by [TopologyGroup.Hash] *)
  topologyGroups : gmap Z TopologyGroup;
  (** keyed by [inverseTopologyGroupKey] *)
  inverseTopologyGroups : gmap string TopologyGroup;
}.

Section topology.
Context {LT : LabelTables} {TL : TaintLib} {GR : GoRange}.
Implicit Types (t : Topology) (tg : TopologyGroup) (p : Pod) (taints : list Taint)
  (requirements podRequirements nodeRequirements : Requirements) (allowUndefined : gset string).

(** The body of the first loop of [Record].  A requirement of length one has a
    first value. *)
Definition recordCounted tg p taints requirements allowUndefined : TopologyGroup :=
  if Counts tg p taints requirements allowUndefined then
    let ds := Get requirements (tg_Key tg) in
    match tg_Type tg with
    | TopologyTypePodAntiAffinity => Record_ tg (Values ds)
    | _ => if Len ds =? 1 then Record_ tg (take 1 (Values ds)) else tg
    end
  else tg.

(** The body of the second loop. *)
Definition recordInverse tg p requirements : TopologyGroup :=
  if IsOwnedBy tg (pod_UID p) then Record_ tg (Values (Get requirements (tg_Key tg))) else tg.

Definition RecordPlacement t p taints requirements allowUndefined : Topology :=
  mkTopology ((λ tg, recordCounted tg p taints requirements allowUndefined) <$> topologyGroups t)
             ((λ tg, recordInverse tg p requirements) <$> inverseTopologyGroups t).

Definition getMatchingTopologies t p taints requirements allowUndefined : list TopologyGroup :=
  List.filter (λ tg, IsOwnedBy tg (pod_UID p)) (gorange (topologyGroups t)).*2 ++
  List.filter (λ tg, Counts tg p taints requirements allowUndefined) (gorange (inverseTopologyGroups t)).*2.

(** [requirements.Get(key)] when the key is defined, any value otherwise. *)
Definition domainsFor requirements (key : string) : Requirement :=
  if HasKey requirements key then Get requirements key else NewRequirement key OpExists [].

Definition groupDomains p podRequirements nodeRequirements tg : Requirement :=
  (GetDomain tg p (domainsFor podRequirements (tg_Key tg)) (domainsFor nodeRequirements (tg_Key tg))).1.

Fixpoint addTopologies p podRequirements nodeRequirements requirements (tgs : list TopologyGroup)
    : TopologyGroup + Requirements :=
  match tgs with
  | [] => inr requirements
  | tg :: tgs =>
      let ds := groupDomains p podRequirements nodeRequirements tg in
      if Len ds =? 0 then inl tg
      else addTopologies p podRequirements nodeRequirements (Add requirements [ds]) tgs
  end.

(** [inl]: the group whose constraint cannot be satisfied. *)
Definition AddRequirements t p taints podRequirements nodeRequirements allowUndefined : TopologyGroup + Requirements :=
  addTopologies p podRequirements nodeRequirements (NewRequirements (ReqValues nodeRequirements))
    (getMatchingTopologies t p taints nodeRequirements allowUndefined).

Definition Constrains t p : bool :=
  existsb (λ ht, IsOwnedBy ht.2 (pod_UID p)) (gorange (topologyGroups t)) ||
  existsb (λ kt, selects kt.2 p) (gorange (inverseTopologyGroups t)).

Definition registerIn (topologyKey domain : string) tg : TopologyGroup :=
  if String.eqb (tg_Key tg) topologyKey then Register tg [domain] else tg.

Definition RegisterDomain t (topologyKey domain : string) : Topology :=
  mkTopology (registerIn topologyKey domain <$> topologyGroups t)
             (registerIn topologyKey domain <$> inverseTopologyGroups t).

Definition unregisterIn (topologyKey domain : string) tg : TopologyGroup :=
  if String.eqb (tg_Key tg) topologyKey then Unregister tg [domain] else tg.

Definition UnregisterDomain t (topologyKey domain : string) : Topology :=
  mkTopology (unregisterIn topologyKey domain <$> topologyGroups t)
             (unregisterIn topologyKey domain <$> inverseTopologyGroups t).

Definition LabelTopologyZone : string := "topology.kubernetes.io/zone".

(** The valid zones so far ([None] before the first constraint), and whether the
    constraints are satisfiable. *)
Fixpoint zoneConstraints p podRequirements (result : option (gset string)) (tgs : list TopologyGroup)
    : option (gset string) * bool :=
  match tgs with
  | [] => (result, true)
  | tg :: tgs =>
      if negb (IsOwnedBy tg (pod_UID p)) || negb (String.eqb (tg_Key tg) LabelTopologyZone)
      then zoneConstraints p podRequirements result tgs
      else
        let validDomains :=
          (GetDomain tg p (domainsFor podRequirements (tg_Key tg)) (NewRequirement (tg_Key tg) OpExists [])).2 in
        if bool_decide (validDomains = ∅) then (None, false)
        else zoneConstraints p podRequirements
               (Some (match result with None => validDomains | Some zones => zones ∩ validDomains end)) tgs
  end.

Definition GetTopologyZoneConstraints t p podRequirements : option (gset string) * bool :=
  zoneConstraints p podRequirements None (gorange (topologyGroups t)).*2.
End topology.

(** * Theory *)

Section theory.
Context {LT : LabelTables} {LTok : LabelTablesOk} {TL : TaintLib} {GR : GoRange}.
Implicit Types (t : Topology) (tg : TopologyGroup) (p q : Pod) (taints : list Taint) (v d : string)
  (reqs podReqs nodeReqs : Requirements) (allow : gset string).

Lemma addable_Insert key ds : addable (Insert (noDomains key) ds).
Proof.
  destruct (NewRequirementWithFlexibility_addable key OpDoesNotExist None []) as [Hk Hwf].
  split; [done|]. by destruct Hwf; split.
Qed.

Lemma addable_noDomains key : addable (noDomains key).
Proof. apply NewRequirementWithFlexibility_addable. Qed.

Lemma insertFirst_inserted tg test key ds : ∃ ds', insertFirst tg test (Insert (noDomains key) ds) = Insert (noDomains key) ds'.
Proof.
  unfold insertFirst. destruct (List.find _ _) as [dc|]; [|eauto]. rewrite Insert_app. eauto.
Qed.

(** Every group answers with a requirement on its own key. *)
Lemma groupDomains_shape p podReqs nodeReqs tg :
  (∃ ds, groupDomains p podReqs nodeReqs tg = Insert (noDomains (tg_Key tg)) ds) ∨
  (∃ d, groupDomains p podReqs nodeReqs tg = NewRequirement (tg_Key tg) OpIn [d]).
Proof.
  unfold groupDomains, GetDomain. set (pd := domainsFor podReqs _). set (nd := domainsFor nodeReqs _).
  assert (∃ ds, noDomains (tg_Key tg) = Insert (noDomains (tg_Key tg)) ds) as Hnone by (exists []; by rewrite Insert_nil).
  destruct (tg_Type tg); cbn [fst].
  - unfold nextDomainTopologySpread. fold (noDomains (tg_Key tg)).
    destruct (singleHostname tg nd); [destruct (_ <=? _); simpl; eauto|].
    destruct (foldl _ _ _) as [[md c] vs]. destruct (bool_decide _); simpl; eauto.
  - left. unfold nextDomainAffinity. fold (noDomains (tg_Key tg)). destruct (singleHostname tg nd).
    { destruct (negb _); [done|]. destruct (0 <? _); [eauto|]. destruct (mayBootstrap _ _ _); eauto. }
    set (opts := if bool_decide (Operator nd = OpIn) then _ else _).
    assert (∃ ds, opts = Insert (noDomains (tg_Key tg)) ds) as [ds ->].
    { subst opts. destruct (bool_decide _).
      - assert (∀ l acc, ∃ ds, foldl (λ opts domain,
          match domains tg !! domain with
          | Some count => if Has pd domain && (0 <? count) then Insert opts [domain] else opts
          | None => opts
          end) (Insert (noDomains (tg_Key tg)) acc) l = Insert (noDomains (tg_Key tg)) ds) as Hloop.
        { induction l as [|x l IH]; intros acc; [by exists acc|]. cbn [foldl]. destruct (domains tg !! x); [|apply IH].
          destruct (_ && _); [rewrite Insert_app|]; apply IH. }
        specialize (Hloop (Values nd) []). by rewrite Insert_nil in Hloop.
      - rewrite (insert_loop (λ dc, Has pd dc.1 && (0 <? dc.2) && Has nd dc.1) fst). eauto. }
    destruct (negb _); [eauto|]. destruct (mayBootstrap _ _ _); [|eauto].
    destruct (insertFirst_inserted tg (Has (Intersection pd nd)) (tg_Key tg) ds) as [ds' ->]. apply insertFirst_inserted.
  - left. unfold nextDomainAntiAffinity. fold (noDomains (tg_Key tg)). destruct (singleHostname tg nd).
    { destruct (_ =? 0); [eauto|done]. }
    destruct (_ && _).
    + rewrite (insert_loop (λ domain, bool_decide (domain ∈ emptyDomains tg) && Has pd domain) id). eauto.
    + rewrite (insert_loop (λ domain, Has nd domain && Has pd domain) id). eauto.
Qed.

Lemma groupDomains_addable p podReqs nodeReqs tg :
  addable (groupDomains p podReqs nodeReqs tg) ∧ Key (groupDomains p podReqs nodeReqs tg) = normalizeKey (tg_Key tg).
Proof.
  destruct (groupDomains_shape p podReqs nodeReqs tg) as [[ds ->]|[d ->]].
  - split; [apply addable_Insert|done].
  - split; [apply NewRequirementWithFlexibility_addable|done].
Qed.

Lemma NewRequirements_Values m : Requirements_wf m → NewRequirements (ReqValues m) = m.
Proof.
  intros Hm. unfold NewRequirements, ReqValues, Add.
  assert (∀ l acc, (∀ k r, (k, r) ∈ l → entry_ok k r ∧ acc !! k = None) → NoDup l.*1 →
    foldl Add1 acc l.*2 = list_to_map l ∪ acc) as Hgen.
  { induction l as [|[k r] l IH]; intros acc Hl Hnd; simpl; [by rewrite (left_id_L ∅ _)|].
    rewrite fmap_cons in Hnd. apply NoDup_cons in Hnd as [Hnew Hnd].
    destruct (Hl k r (list_elem_of_here _ _)) as [(Hk & _ & _) Hacc].
    rewrite Add1_fresh by (by rewrite Hk). rewrite IH; [| |done].
    - rewrite Hk, <- insert_union_l, insert_union_r; [done|]. by apply not_elem_of_list_to_map_1.
    - intros k' r' Hin. destruct (Hl k' r' (list_elem_of_further _ _ _ Hin)) as [Hok Hn]. split; [done|].
      rewrite lookup_insert_ne; [done|]. rewrite Hk. intros <-. apply Hnew.
      apply list_elem_of_fmap. by exists (k, r'). }
  rewrite Hgen.
  - by rewrite list_to_map_to_list, (right_id_L ∅ _).
  - intros k r Hin%elem_of_map_to_list. split; [by apply Hm|apply lookup_empty].
  - apply NoDup_fst_map_to_list.
Qed.

Lemma addTopologies_spec p podReqs nodeReqs tgs reqs :
  Requirements_wf reqs →
  match addTopologies p podReqs nodeReqs reqs tgs with
  | inl tg => tg ∈ tgs ∧ Len (groupDomains p podReqs nodeReqs tg) = 0
  | inr out =>
      Requirements_wf out ∧
      (∀ tg, tg ∈ tgs → Len (groupDomains p podReqs nodeReqs tg) ≠ 0) ∧
      ∀ k v, allows out k v = true ↔
        allows reqs k v = true ∧
        ∀ tg, tg ∈ tgs → normalizeKey (tg_Key tg) = k → Has (groupDomains p podReqs nodeReqs tg) v = true
  end.
Proof.
  revert reqs. induction tgs as [|tg tgs IH]; intros reqs Hwf; cbn [addTopologies].
  { split_and!; [done|by intros ? ?%not_elem_of_nil|]. intros k v. split; [|by intros [? _]].
    intros ?. split; [done|]. by intros ? ?%not_elem_of_nil. }
  destruct (Len _ =? 0) eqn:Hlen.
  { split; [apply list_elem_of_here|by apply Z.eqb_eq]. }
  destruct (groupDomains_addable p podReqs nodeReqs tg) as [Hadd Hkey]. apply Z.eqb_neq in Hlen.
  assert (Forall addable [groupDomains p podReqs nodeReqs tg]) as Hall by (by constructor).
  specialize (IH (Add reqs [groupDomains p podReqs nodeReqs tg]) (Add_wf _ _ Hwf Hall)).
  destruct (addTopologies _ _ _ _ _) as [bad|out].
  { destruct IH. split; [by apply list_elem_of_further|done]. }
  destruct IH as (Hwf' & Hne & Hallow). split_and!; [done| |].
  - intros tg' [->|Hin]%elem_of_cons; [done|by apply Hne].
  - intros k v. rewrite Hallow, Add_allows by done. cbn [forallb].
    rewrite Hkey, andb_true_r, andb_true_iff, orb_true_iff, negb_true_iff, bool_decide_eq_false. split.
    + intros [[Hr Hor] Hrest]. split; [done|]. intros tg' [->|Hin]%elem_of_cons Hk; [|by apply Hrest].
      by destruct Hor.
    + intros [Hr Hrest]. split; [split; [done|]|].
      * destruct (decide (normalizeKey (tg_Key tg) = k)); [right; apply Hrest; [apply list_elem_of_here|done]|by left].
      * intros tg' Hin. apply Hrest. by apply list_elem_of_further.
Qed.

Lemma elem_of_getMatchingTopologies t p taints reqs allow tg :
  tg ∈ getMatchingTopologies t p taints reqs allow ↔
  (∃ h, topologyGroups t !! h = Some tg ∧ IsOwnedBy tg (pod_UID p) = true) ∨
  (∃ k, inverseTopologyGroups t !! k = Some tg ∧ Counts tg p taints reqs allow = true).
Proof.
  assert (∀ {K} `{Countable K} (m : gmap K TopologyGroup), tg ∈ (gorange m).*2 ↔ ∃ k, m !! k = Some tg) as Hrange.
  { intros K ?? m. rewrite list_elem_of_fmap. split.
    - intros ([k x] & -> & Hin%elem_of_gorange). eauto.
    - intros [k Hk]. exists (k, tg). split; [done|by apply elem_of_gorange]. }
  unfold getMatchingTopologies. rewrite elem_of_app, !list_elem_of_In, !filter_In, <- !list_elem_of_In, !Hrange.
  naive_solver.
Qed.

(** [AddRequirements] enforces every topology that applies.  It fails exactly
    when some group that owns the pod, or some inverse group that counts it,
    leaves no domain; otherwise the tightened requirements allow a value for a
    key exactly when the node allowed it and every such group on that key
    accepts it. *)
Theorem AddRequirements_exact t p taints podReqs nodeReqs allow (Hwf : Requirements_wf nodeReqs) :
  let applies tg := tg ∈ getMatchingTopologies t p taints nodeReqs allow in
  match AddRequirements t p taints podReqs nodeReqs allow with
  | inl tg => applies tg ∧ Len (groupDomains p podReqs nodeReqs tg) = 0
  | inr out =>
      Requirements_wf out ∧ (∀ tg, applies tg → Len (groupDomains p podReqs nodeReqs tg) ≠ 0) ∧
      ∀ k v, allows out k v = true ↔
        allows nodeReqs k v = true ∧
        ∀ tg, applies tg → normalizeKey (tg_Key tg) = k → Has (groupDomains p podReqs nodeReqs tg) v = true
  end.
Proof.
  intros applies. unfold AddRequirements. rewrite NewRequirements_Values by done. by apply addTopologies_spec.
Qed.

(** [Constrains] is conclusive: for a pod it reports as unconstrained no node,
    whatever its taints and labels, gets any topology requirement. *)
Theorem Constrains_conclusive t p (Hno : Constrains t p = false) taints podReqs nodeReqs allow
    (Hwf : Requirements_wf nodeReqs) :
  AddRequirements t p taints podReqs nodeReqs allow = inr nodeReqs.
Proof.
  unfold AddRequirements. rewrite NewRequirements_Values by done.
  assert (getMatchingTopologies t p taints nodeReqs allow = []) as ->; [|done].
  apply orb_false_iff in Hno as [H1 H2].
  destruct (getMatchingTopologies t p taints nodeReqs allow) as [|tg l] eqn:Hm; [done|]. exfalso.
  assert (tg ∈ getMatchingTopologies t p taints nodeReqs allow) as Hin by (rewrite Hm; apply list_elem_of_here).
  apply elem_of_getMatchingTopologies in Hin as [(h & Hh & Ho)|(k & Hk & Hc)].
  - apply not_true_iff_false in H1. apply H1. apply existsb_exists. exists (h, tg).
    split; [by apply list_elem_of_In, elem_of_gorange|done].
  - apply not_true_iff_false in H2. apply H2. apply existsb_exists. exists (k, tg).
    split; [by apply list_elem_of_In, elem_of_gorange|]. by apply andb_true_iff in Hc as [? _].
Qed.

(** ** Anti-affinity across placements *)

Lemma Record_podsIn ds tg d :
  NoDup ds → (∀ y c, y ∈ ds → domains tg !! y = Some c → 0 <= c < MaxInt32) →
  podsIn (Record_ tg ds) d = podsIn tg d + (if decide (d ∈ ds) then 1 else 0).
Proof.
  unfold Record_. revert tg. induction ds as [|y ds IH]; intros tg Hnd Hb; cbn [foldl].
  { rewrite decide_False by apply not_elem_of_nil. lia. }
  apply NoDup_cons in Hnd as [Hy Hnd]. rewrite IH; [|done|].
  - assert (0 <= default 0 (domains tg !! y) < MaxInt32) as Hc.
    { destruct (domains tg !! y) as [c|] eqn:Hc; simpl; [|int_lia]. apply (Hb y); [apply list_elem_of_here|done]. }
    unfold podsIn at 1, Record1. simpl. rewrite lookup_insert.
    destruct (decide (y = d)) as [->|Hne]; simpl.
    + rewrite wrap32_id by int_lia. rewrite (decide_False (P := d ∈ ds)) by done.
      rewrite decide_True by apply list_elem_of_here. unfold podsIn. lia.
    + destruct (decide (d ∈ ds)) as [Hin|Hin].
      * rewrite decide_True by (by apply list_elem_of_further). done.
      * rewrite decide_False; [done|]. intros [->|?]%elem_of_cons; done.
  - intros z c Hz Hc. unfold Record1 in Hc. simpl in Hc. rewrite lookup_insert_ne in Hc by (by intros ->).
    apply (Hb z); [by apply list_elem_of_further|done].
Qed.

(** A group by where it is kept, what records a pod in it, and when it
    constrains a pod. *)
Definition groupAt t (id : Z + string) : option TopologyGroup :=
  match id with inl h => topologyGroups t !! h | inr k => inverseTopologyGroups t !! k end.

Definition recordsPod (id : Z + string) tg q taints reqs allow : bool :=
  match id with inl _ => Counts tg q taints reqs allow | inr _ => IsOwnedBy tg (pod_UID q) end.

Definition constrainsPod (id : Z + string) tg p taints reqs allow : bool :=
  match id with inl _ => IsOwnedBy tg (pod_UID p) | inr _ => Counts tg p taints reqs allow end.

(** The emptiness cache is exact, counts are not negative, and no domain is near
    the end of the 32-bit counter. *)
Definition group_ok tg : Prop := ∃ N, group_inv N tg ∧ 0 <= N < MaxInt32.
Definition topology_ok t : Prop := ∀ id tg, groupAt t id = Some tg → group_ok tg.

(** What happens to the groups while a pass goes on: placements and new
    hostnames. *)
Inductive topology_step : Topology → Topology → Prop :=
  | step_record t p taints reqs allow :
      topology_ok t → topology_step t (RecordPlacement t p taints reqs allow)
  | step_register t key domain :
      topology_step t (RegisterDomain t key domain).

(** A group that evolved from another one. *)
Definition grown tg tg' : Prop :=
  tg_Key tg' = tg_Key tg ∧ tg_Type tg' = tg_Type tg ∧ owners tg' = owners tg ∧
  ∀ d, podsIn tg d <= podsIn tg' d.

Lemma grown_refl tg : grown tg tg.
Proof. done. Qed.

Lemma Record_fields ds tg :
  tg_Key (Record_ tg ds) = tg_Key tg ∧ tg_Type (Record_ tg ds) = tg_Type tg ∧ owners (Record_ tg ds) = owners tg.
Proof. unfold Record_. revert tg. induction ds as [|d ds IH]; intros tg; [done|]. cbn [foldl]. apply (IH (Record1 tg d)). Qed.

Lemma group_ok_bound tg y c : group_ok tg → domains tg !! y = Some c → 0 <= c < MaxInt32.
Proof. intros (N & [_ Hc] & HN) Hy. apply Hc in Hy. lia. Qed.

Lemma grown_Record tg ds : NoDup ds → group_ok tg → grown tg (Record_ tg ds).
Proof.
  intros Hnd Hok. destruct (Record_fields ds tg) as (? & ? & ?). split_and!; [done..|]. intros d.
  rewrite Record_podsIn; [case_decide; lia|done|]. intros y c _. by apply group_ok_bound.
Qed.

Lemma NoDup_Values r : NoDup (Values r).
Proof. unfold Values. apply NoDup_elements. Qed.

Lemma NoDup_take {A} n (l : list A) : NoDup l → NoDup (take n l).
Proof. intros Hl. by eapply sublist_NoDup, sublist_take. Qed.

Lemma recordCounted_grown tg p taints reqs allow : group_ok tg → grown tg (recordCounted tg p taints reqs allow).
Proof.
  intros Hok. assert (NoDup (Values (Get reqs (tg_Key tg)))) as Hnd by apply NoDup_Values.
  unfold recordCounted. destruct (Counts _ _ _ _ _); [|apply grown_refl].
  destruct (tg_Type tg); [destruct (_ =? 1)..|]; try apply grown_refl; apply grown_Record; try done; by apply NoDup_take.
Qed.

Lemma recordInverse_grown tg p reqs : group_ok tg → grown tg (recordInverse tg p reqs).
Proof.
  intros Hok. unfold recordInverse. destruct (IsOwnedBy _ _); [|apply grown_refl].
  apply grown_Record; [apply NoDup_Values|done].
Qed.

Lemma registerIn_grown key domain tg : grown tg (registerIn key domain tg).
Proof.
  unfold registerIn, Register. simpl. destruct (String.eqb _ _); [|apply grown_refl].
  unfold Register1. destruct (domains tg !! domain) eqn:Hd; [apply grown_refl|]. split_and!; [done..|].
  intros d. unfold podsIn. simpl. rewrite lookup_insert. destruct (decide (domain = d)) as [<-|]; simpl; [|done].
  by rewrite Hd.
Qed.

Lemma topology_step_grown t t' id tg :
  topology_step t t' → groupAt t id = Some tg → ∃ tg', groupAt t' id = Some tg' ∧ grown tg tg'.
Proof.
  intros Hs Hg. destruct Hs as [t p taints reqs allow Hok|t key domain].
  - specialize (Hok id tg Hg). destruct id as [h|k]; simpl in *; rewrite lookup_fmap, Hg; simpl; eexists; (split; [done|]).
    + by apply recordCounted_grown.
    + by apply recordInverse_grown.
  - destruct id as [h|k]; simpl in *; rewrite lookup_fmap, Hg; simpl; eexists; (split; [done|]); apply registerIn_grown.
Qed.

Lemma topology_steps_grown t t' id tg :
  rtc topology_step t t' → groupAt t id = Some tg → ∃ tg', groupAt t' id = Some tg' ∧ grown tg tg'.
Proof.
  intros Hs. revert tg. induction Hs as [t|t t1 t2 Hs _ IH]; intros tg Hg; [by exists tg|].
  destruct (topology_step_grown t t1 id tg Hs Hg) as (tg1 & Hg1 & Hk1 & Ht1 & Ho1 & Hp1).
  destruct (IH tg1 Hg1) as (tg2 & Hg2 & Hk2 & Ht2 & Ho2 & Hp2). exists tg2. split; [done|].
  split_and!; [congruence..|]. intros d. specialize (Hp1 d). specialize (Hp2 d). lia.
Qed.

(** A recorded pod is counted in every domain it may land in, provided they are
    listed. *)
Lemma RecordPlacement_counts t q taints reqs allow id tg v :
  topology_ok t → groupAt t id = Some tg → tg_Type tg = TopologyTypePodAntiAffinity →
  recordsPod id tg q taints reqs allow = true → v ∈ Values (Get reqs (tg_Key tg)) →
  ∃ tg', groupAt (RecordPlacement t q taints reqs allow) id = Some tg' ∧ grown tg tg' ∧ 0 < podsIn tg' v.
Proof.
  intros Hok Hg Hty Hrec Hv. specialize (Hok id tg Hg).
  assert (0 < podsIn (Record_ tg (Values (Get reqs (tg_Key tg)))) v) as Hpos.
  { rewrite Record_podsIn, decide_True; [|done|apply NoDup_Values|by intros y c _; apply group_ok_bound].
    unfold podsIn. destruct (domains tg !! v) as [c|] eqn:Hc; simpl; [|lia]. apply group_ok_bound in Hc; [lia|done]. }
  destruct id as [h|k]; simpl in *; rewrite lookup_fmap, Hg; simpl; eexists; (split; [done|]).
  - unfold recordCounted. rewrite Hrec, Hty. split; [|done]. apply grown_Record; [apply NoDup_Values|done].
  - unfold recordInverse. rewrite Hrec. split; [|done]. apply grown_Record; [apply NoDup_Values|done].
Qed.

Lemma domainsFor_wf reqs key : Requirements_wf reqs → wf (domainsFor reqs key).
Proof.
  intros Hwf. unfold domainsFor. destruct (HasKey reqs key); [|apply NewRequirementWithFlexibility_wf].
  unfold Get. destruct (reqs !! key) as [r|] eqn:Hr; [|apply NewRequirementWithFlexibility_wf].
  by apply (Requirements_wf_lookup reqs key r).
Qed.

Lemma antiaffinity_needs_empty p podReqs nodeReqs tg v :
  Requirements_wf nodeReqs → group_ok tg → tg_Type tg = TopologyTypePodAntiAffinity →
  Has (groupDomains p podReqs nodeReqs tg) v = true → podsIn tg v = 0.
Proof.
  intros Hwf (N & Hinv & _) Hty. unfold groupDomains, GetDomain. rewrite Hty. cbn [fst].
  pose proof (nextDomainAntiAffinity_spec N tg (domainsFor podReqs (tg_Key tg)) (domainsFor nodeReqs (tg_Key tg)) v
    Hinv (domainsFor_wf _ _ Hwf)) as Hspec.
  destruct (singleHostname _ _); rewrite Hspec; [by intros [_ ?]|].
  intros (Hd & _). unfold podsIn. by rewrite Hd.
Qed.

(** C8. Anti-affinity holds across placements.  Once a pod is recorded in an
    anti-affinity group (because the group's selector counts it, or because it
    owns an inverse group) with a set of possible domains, then however many
    other placements and registrations follow, no pod the group constrains is
    ever offered one of those domains. *)
Theorem antiaffinity_across_placements t q qtaints qreqs qallow t' p taints podReqs nodeReqs allow out id tg tg' v
    (Hok : topology_ok t) (Hg : groupAt t id = Some tg) (Hty : tg_Type tg = TopologyTypePodAntiAffinity)
    (Hrec : recordsPod id tg q qtaints qreqs qallow = true) (Hv : v ∈ Values (Get qreqs (tg_Key tg)))
    (Hsteps : rtc topology_step (RecordPlacement t q qtaints qreqs qallow) t') (Hok' : topology_ok t')
    (Hg' : groupAt t' id = Some tg') (Hcon : constrainsPod id tg' p taints nodeReqs allow = true)
    (Hkey : normalizeKey (tg_Key tg) = tg_Key tg) (Hwf : Requirements_wf nodeReqs)
    (Hadd : AddRequirements t' p taints podReqs nodeReqs allow = inr out) :
  allows out (tg_Key tg) v = false.
Proof.
  destruct (RecordPlacement_counts t q qtaints qreqs qallow id tg v Hok Hg Hty Hrec Hv)
    as (tg1 & Hg1 & (Hk1 & Ht1 & _ & _) & Hpos).
  destruct (topology_steps_grown _ _ id tg1 Hsteps Hg1) as (tg2 & Hg2 & Hk2 & Ht2 & _ & Hgrow).
  rewrite Hg2 in Hg'. injection Hg' as <-. apply not_true_iff_false. intros Hallow.
  unfold AddRequirements in Hadd. rewrite NewRequirements_Values in Hadd by done.
  pose proof (addTopologies_spec p podReqs nodeReqs (getMatchingTopologies t' p taints nodeReqs allow) nodeReqs Hwf) as Hspec.
  rewrite Hadd in Hspec. destruct Hspec as (_ & _ & Hspec). apply Hspec in Hallow as [_ Hall].
  assert (podsIn tg2 v = 0) as Hzero; [|specialize (Hgrow v); lia].
  apply (antiaffinity_needs_empty p podReqs nodeReqs); [done|by eapply Hok'|congruence|]. apply Hall; [|congruence].
  apply elem_of_getMatchingTopologies. destruct id as [h|k]; [left; by exists h|right; by exists k].
Qed.

(** When the node's requirement on the key excludes domains instead of listing
    them, [Record] counts the excluded ones: a counted pod that may land
    anywhere but in [d] blocks [d] and nothing else. *)
Theorem Record_blocks_excluded tg p taints reqs allow k ds d mv
    (Hty : tg_Type tg = TopologyTypePodAntiAffinity) (Hk : tg_Key tg = k) (Hok : group_ok tg)
    (Hr : reqs !! k = Some (mkRequirement k true ds None None mv)) (Hc : Counts tg p taints reqs allow = true) :
  podsIn (recordCounted tg p taints reqs allow) d = podsIn tg d + (if Has (Get reqs k) d then 0 else 1).
Proof.
  unfold recordCounted. rewrite Hc, Hty, Hk, (Get_lookup _ _ _ Hr).
  rewrite Record_podsIn; [|apply NoDup_Values|by intros y c _; apply group_ok_bound]. unfold Values. simpl.
  set (r := mkRequirement k true ds None None mv). assert (Has r d = true ↔ d ∉ ds) as Hhas.
  { rewrite Has_spec. simpl. split; [by intros [? _]|done]. }
  destruct (decide (d ∈ elements ds)) as [Hd|Hd]; rewrite elem_of_elements in Hd.
  - assert (Has r d = false) as -> by (apply not_true_iff_false; tauto). done.
  - assert (Has r d = true) as -> by tauto. done.
Qed.
End theory.

(** * Witnesses *)

Section witnesses.
#[local] Existing Instance karpenterLabels.
#[local] Existing Instance karpenterLabels_ok.
#[local] Existing Instance keyTaintLib.
#[local] Existing Instance map_to_list_GoRange.

(** Pods of namespace [default] must not share a zone with the owner. *)
Definition loner : TopologyGroup :=
  mkGroup zoneKey TopologyTypePodAntiAffinity 1 None {["default"%string]} (λ _, true) zeroNodeFilter {["uid-1"%string]}
    {["zone-a"%string := 0; "zone-b"%string := 0]} {["zone-a"%string; "zone-b"%string]}.

Definition lonerTopology : Topology := mkTopology {[1 := loner]} ∅.
Definition inZoneB : Requirements := NewRequirements [NewRequirement zoneKey OpIn ["zone-b"%string]].
Definition afterWeb : Topology := RecordPlacement lonerTopology (barePod "default" "other" "uid-2") [] inZoneB ∅.

Lemma loner_ok : topology_ok lonerTopology.
Proof.
  intros [h|k] tg; simpl; [|by rewrite lookup_empty]. intros [<- <-]%lookup_singleton_Some.
  exists 0. split; [|int_lia]. split.
  - intros d. cbn [loner domains emptyDomains]. rewrite elem_of_union, !elem_of_singleton. split.
    + intros [->| ->]; reflexivity.
    + intros [[<- _]|[_ [<- _]%lookup_singleton_Some]]%lookup_insert_Some; auto.
  - intros d c. cbn [loner domains]. intros [[_ <-]|[_ [_ <-]%lookup_singleton_Some]]%lookup_insert_Some; lia.
Qed.

Lemma afterWeb_ok : topology_ok afterWeb.
Proof.
  intros [h|k] tg; [|simpl; by rewrite fmap_empty, lookup_empty]. intros Hg.
  assert (h = 1 ∧ tg = Record1 loner "zone-b") as [-> ->].
  { unfold groupAt, afterWeb, RecordPlacement in Hg. cbn [topologyGroups lonerTopology] in Hg.
    rewrite map_fmap_singleton in Hg. apply lookup_singleton_Some in Hg as [<- <-].
    split; [reflexivity|]. vm_compute. reflexivity. }
  destruct (loner_ok (inl 1) loner eq_refl) as (N & Hinv & HN).
  assert (group_inv 0 loner) as H0.
  { destruct Hinv as [He _]. split; [exact He|]. intros d c. cbn [loner domains]. intros Hd.
    apply lookup_insert_Some in Hd as [[_ <-]|[_ [_ <-]%lookup_singleton_Some]]; lia. }
  exists 1. split; [|int_lia]. apply (Record1_inv 0); [int_lia|exact H0|lia].
Qed.

Lemma AddRequirements_exact_witness :
  match AddRequirements lonerTopology webPod [] ∅ inZoneB ∅ with
  | inl _ => False
  | inr out => allows out zoneKey "zone-b" = true ↔
      allows inZoneB zoneKey "zone-b" = true ∧
      ∀ tg, tg ∈ getMatchingTopologies lonerTopology webPod [] inZoneB ∅ → normalizeKey (tg_Key tg) = zoneKey →
        Has (groupDomains webPod ∅ inZoneB tg) "zone-b" = true
  end.
Proof.
  assert (Requirements_wf inZoneB) as Hwf.
  { apply Add_wf; [apply map_Forall_empty|]. constructor; [apply NewRequirementWithFlexibility_addable|constructor]. }
  pose proof (AddRequirements_exact lonerTopology webPod [] ∅ inZoneB ∅ Hwf) as H.
  assert (∃ out, AddRequirements lonerTopology webPod [] ∅ inZoneB ∅ = inr out) as [out Ho].
  { eexists. vm_compute. reflexivity. }
  rewrite Ho in H. rewrite Ho. apply H.
Defined.

Lemma Constrains_conclusive_witness :
  AddRequirements lonerTopology (barePod "kube-system" "dns" "uid-3") [] ∅ inZoneB ∅ = inr inZoneB.
Proof.
  apply Constrains_conclusive.
  - vm_compute. reflexivity.
  - apply Add_wf; [apply map_Forall_empty|]. constructor; [apply NewRequirementWithFlexibility_addable|constructor].
Defined.

Definition lonerZones : Requirements :=
  match AddRequirements afterWeb webPod [] ∅ ∅ ∅ with inr out => out | inl _ => ∅ end.

Lemma antiaffinity_across_placements_witness : allows lonerZones zoneKey "zone-b" = false.
Proof.
  refine (antiaffinity_across_placements lonerTopology (barePod "default" "other" "uid-2") [] inZoneB ∅ afterWeb
    webPod [] ∅ ∅ ∅ lonerZones (inl 1) loner (Record1 loner "zone-b") "zone-b" loner_ok _ _ _ _ _ afterWeb_ok _ _ _ _ _).
  - reflexivity.
  - reflexivity.
  - vm_compute. reflexivity.
  - vm_compute. apply list_elem_of_here.
  - apply rtc_refl.
  - vm_compute. reflexivity.
  - vm_compute. reflexivity.
  - vm_compute. reflexivity.
  - apply map_Forall_empty.
  - vm_compute. reflexivity.
Defined.
End witnesses.
