(* ===== verification/NodeClaim.v ===== *)
(** * In-flight NodeClaims

    Model of [pkg/controllers/provisioning/scheduling/nodeclaim.go]: a NodeClaim
    under construction, which instance types can still hold its pods, whether a
    pod can be added to it, and adding it.  The state a NodeClaim shares with
    the others (topology, reservations and the device allocator) is passed
    explicitly.  Error texts are left out; an error keeps its kind and whether
    it is wrapped as a [NodePoolIncompatibleError]. *)

From S2P Require Import Prelude Strconv Float64 Requirement Kube Taints HostPorts Requirements Resources InstanceTypes ReservationManager TopologyGroup Topology.

(** ** Data *)

(** What the scheduler caches about a pod.  A resource claim is its name. *)
Record PodData (Q : Type) := mkPodData {
  pd_Requests : ResourceList Q;
  pd_Requirements : Requirements;
  pd_StrictRequirements : Requirements;
  pd_HasResourceClaimRequests : bool;
  pd_VolumeRequirements : list Requirements;
  pd_ResourceClaims : list NamespacedName;
  pd_ResourceClaimErr : bool;
}.
Arguments mkPodData {Q}.
Arguments pd_Requests {Q}.
Arguments pd_Requirements {Q}.
Arguments pd_StrictRequirements {Q}.
Arguments pd_HasResourceClaimRequests {Q}.
Arguments pd_VolumeRequirements {Q}.
Arguments pd_ResourceClaims {Q}.
Arguments pd_ResourceClaimErr {Q}.

(** Instance types of a template with the same daemon pods. *)
Record DaemonOverheadGroup (Q : Type) `{NetIP} := mkOverheadGroup {
  dg_InstanceTypes : list (InstanceType Q);
  dg_DaemonOverhead : ResourceList Q;
  dg_HostPortUsage : HostPortUsage;
}.
Arguments mkOverheadGroup {Q _}.
Arguments dg_InstanceTypes {Q _}.
Arguments dg_DaemonOverhead {Q _}.
Arguments dg_HostPortUsage {Q _}.

Inductive PackingPolicy := PackingPolicyBinpack | PackingPolicyMarginalCost | PackingPolicyMarginalCostShadow.

#[export] Instance PackingPolicy_eq_dec : EqDecision PackingPolicy.
Proof. solve_decision. Defined.

(** [template := *nodeClaimTemplate] copies the struct of the template but not
    its annotation map, so the NodeClaims of a node pool share one map until
    [FinalizeScheduling] gives a NodeClaim its own.  The shared maps are a store
    keyed by node pool. *)
Inductive AnnotationsRef := SharedWithTemplate (nodePool : string) | OwnAnnotations (m : gmap string string).
Abbreviation AnnotationStore := (gmap string (gmap string string)).

Definition annotationsOf (store : AnnotationStore) (ref : AnnotationsRef) : gmap string string :=
  match ref with
  | SharedWithTemplate nodePool => default ∅ (store !! nodePool)
  | OwnAnnotations m => m
  end.

Record InflightClaim (Q : Type) `{NetIP} := mkClaim {
  ic_NodePoolName : string;
  ic_PackingPolicy : PackingPolicy;
  ic_Taints : list Taint;
  ic_Annotations : AnnotationsRef;
  ic_InstanceTypeOptions : list (InstanceType Q);
  ic_Requirements : Requirements;
  ic_Requests : ResourceList Q;
  ic_Pods : list Pod;
  ic_daemonOverheadGroups : list (DaemonOverheadGroup Q);
  ic_hostname : string;
  ic_reservedOfferings : list (Offering Q);
  ic_strict : bool;                (* ReservedOfferingModeStrict *)
  ic_instanceTypesBeforeLimits : option (list (InstanceType Q));
}.
Arguments mkClaim {Q _}.
Arguments ic_NodePoolName {Q _}.
Arguments ic_PackingPolicy {Q _}.
Arguments ic_Taints {Q _}.
Arguments ic_Annotations {Q _}.
Arguments ic_InstanceTypeOptions {Q _}.
Arguments ic_Requirements {Q _}.
Arguments ic_Requests {Q _}.
Arguments ic_Pods {Q _}.
Arguments ic_daemonOverheadGroups {Q _}.
Arguments ic_hostname {Q _}.
Arguments ic_reservedOfferings {Q _}.
Arguments ic_strict {Q _}.
Arguments ic_instanceTypesBeforeLimits {Q _}.

(** The device allocator ([pkg/scheduling/dynamicresources]). *)
Record AllocationResult := mkAllocation {
  ar_Requirements : Requirements;
  ar_InstanceTypes : list string;
  ar_hasAllocation : bool;       (* [Allocation != nil] *)
}.

Class DeviceAllocator (Q A : Type) `{NetIP} := {
  Allocate : A → InflightClaim Q → list NamespacedName → option AllocationResult;
  Commit : A → AllocationResult → A;
  ReleaseInstanceType : A → string → list string → A;
}.

(** The result of filtering instance types that left none. *)
Record FilterError (Q : Type) := mkFilterError {
  requirementsMet : bool;
  fe_fits : bool;
  hasOffering : bool;
  requirementsAndFits : bool;
  requirementsAndOffering : bool;
  fitsAndOffering : bool;
  minValuesIncompatible : bool;
  minDaemonRequests : ResourceList Q;
  maxDaemonRequests : ResourceList Q;
}.
Arguments mkFilterError {Q}.
Arguments requirementsMet {Q}.
Arguments fe_fits {Q}.
Arguments hasOffering {Q}.
Arguments requirementsAndFits {Q}.
Arguments requirementsAndOffering {Q}.
Arguments fitsAndOffering {Q}.
Arguments minValuesIncompatible {Q}.
Arguments minDaemonRequests {Q}.
Arguments maxDaemonRequests {Q}.

Inductive ClaimError (Q : Type) :=
  | TaintsNotTolerated
  | IncompatibleRequirements
  | IncompatibleVolumeRequirements
  | ResourceClaimErr
  | AllocationFailed
  | IncompatibleDeviceRequirements
  | TopologyUnsatisfiable
  | TopologyIncompatible
  | NoInstanceType (e : FilterError Q)
  | NoInstanceTypeForDevices
  | ReservedOfferingError.
Arguments TaintsNotTolerated {Q}.
Arguments IncompatibleRequirements {Q}.
Arguments IncompatibleVolumeRequirements {Q}.
Arguments ResourceClaimErr {Q}.
Arguments AllocationFailed {Q}.
Arguments IncompatibleDeviceRequirements {Q}.
Arguments TopologyUnsatisfiable {Q}.
Arguments TopologyIncompatible {Q}.
Arguments NoInstanceType {Q}.
Arguments NoInstanceTypeForDevices {Q}.
Arguments ReservedOfferingError {Q}.

(** The error and whether it is a [NodePoolIncompatibleError]. *)
Definition CanAddError (Q : Type) : Type := ClaimError Q * bool.

(** What [CanAdd] returns. *)
Record Placement (Q : Type) := mkPlacement {
  pl_Requirements : Requirements;
  pl_InstanceTypes : list (InstanceType Q);
  pl_OfferingsToReserve : list (Offering Q);
  pl_Allocation : option AllocationResult;
}.
Arguments mkPlacement {Q}.
Arguments pl_Requirements {Q}.
Arguments pl_InstanceTypes {Q}.
Arguments pl_OfferingsToReserve {Q}.
Arguments pl_Allocation {Q}.

(** ** Filtering instance types *)

Section filter.
Context {LT : LabelTables} {PL : ProviderLabels} {Q : Type} `{Quantity Q} `{NetIP}
  (overrideKey : Offering Q → string * string).
Implicit Types (it : InstanceType Q) (its : list (InstanceType Q)) (requirements : Requirements)
  (requests : ResourceList Q) (e : FilterError Q).

Definition compatible it requirements : bool :=
  match Intersects (it_Requirements it) requirements with None => true | Some _ => false end.

Fixpoint fitsGroups requests requirements (groups : list (AllocatableOfferings Q)) (hasOffering : bool) : bool * bool :=
  match groups with
  | [] => (false, hasOffering)
  | group :: groups =>
      if existsb (offeringCompatible requirements) (ao_Offerings group) then
        if Fits requests (ao_Allocatable group) then (true, true)
        else fitsGroups requests requirements groups true
      else fitsGroups requests requirements groups hasOffering
  end.

Definition fits it requests requirements : bool * bool :=
  fitsGroups requests requirements (AllocatableOfferingsList overrideKey it) false.

Definition trackDaemonOverhead e (dr : ResourceList Q) : FilterError Q :=
  let '(lo, hi) :=
    if bool_decide (size (maxDaemonRequests e) = 0%nat) then (dr, dr)
    else (MinResources [minDaemonRequests e; dr], MaxResources [maxDaemonRequests e; dr]) in
  mkFilterError (requirementsMet e) (fe_fits e) (hasOffering e) (requirementsAndFits e) (requirementsAndOffering e)
    (fitsAndOffering e) (minValuesIncompatible e) lo hi.

(** [eligibleInstanceTypes] holds pointers; the instance types of a node pool
    are told apart by their names. *)
Definition eligible its it : bool := existsb (λ other, String.eqb (it_Name other) (it_Name it)) its.

Definition considerType requirements requests (acc : FilterError Q * list (InstanceType Q)) it
    : FilterError Q * list (InstanceType Q) :=
  let '(e, remaining) := acc in
  let itCompat := compatible it requirements in
  let '(itFits, itHasOffering) := fits it requests requirements in
  (mkFilterError (requirementsMet e || itCompat) (fe_fits e || itFits) (hasOffering e || itHasOffering)
     (requirementsAndFits e || (itCompat && itFits && negb itHasOffering))
     (requirementsAndOffering e || (itCompat && itHasOffering && negb itFits))
     (fitsAndOffering e || (itFits && itHasOffering && negb itCompat))
     (minValuesIncompatible e) (minDaemonRequests e) (maxDaemonRequests e),
   if itCompat && itFits && itHasOffering then remaining ++ [it] else remaining).

(** The requests an instance type of the group must hold. *)
Definition groupRequests (totalRequests : ResourceList Q) (group : DaemonOverheadGroup Q) : ResourceList Q :=
  if bool_decide (size (dg_DaemonOverhead group) = 0%nat) then totalRequests
  else MergeInto (Some (MergeInto None totalRequests)) (dg_DaemonOverhead group).

Definition considerGroup its requirements (pod : Pod) (totalRequests : ResourceList Q)
    (acc : FilterError Q * list (InstanceType Q)) (group : DaemonOverheadGroup Q)
    : FilterError Q * list (InstanceType Q) :=
  match HostPortConflicts (dg_HostPortUsage group) pod (GetHostPorts pod) with
  | Some _ => acc
  | None =>
      let '(e, remaining) := acc in
      let e := if bool_decide (size (dg_DaemonOverhead group) = 0%nat) then e
               else trackDaemonOverhead e (dg_DaemonOverhead group) in
      foldl (λ acc it, if eligible its it then considerType requirements (groupRequests totalRequests group) acc it else acc)
        (e, remaining) (dg_InstanceTypes group)
  end.

Definition noFilterError : FilterError Q := mkFilterError false false false false false false false ∅ ∅.

(** The keys short of values, and the instance types left or the error. *)
Definition filterInstanceTypesByRequirements its requirements (pod : Pod)
    (daemonOverheadGroups : list (DaemonOverheadGroup Q)) (totalRequests : ResourceList Q) (relaxMinValues : bool)
    : gmap string Z * (FilterError Q + list (InstanceType Q)) :=
  let '(e, remaining) :=
    foldl (considerGroup its requirements pod totalRequests) (noFilterError, []) daemonOverheadGroups in
  let '(unsatisfiableKeys, e, remaining) :=
    if HasMinValues requirements then
      let keys := (SatisfiesMinValues remaining requirements).2 in
      if bool_decide (keys = ∅) || relaxMinValues then (keys, e, remaining)
      else (keys,
        mkFilterError (requirementsMet e) (fe_fits e) (hasOffering e) (requirementsAndFits e)
          (requirementsAndOffering e) (fitsAndOffering e) true (minDaemonRequests e) (maxDaemonRequests e), [])
    else (∅, e, remaining) in
  (unsatisfiableKeys, match remaining with [] => inl e | _ => inr remaining end).
End filter.

(** ** Adding pods *)

Definition withMinValues (r : Requirement) (mv : Z) : Requirement :=
  mkRequirement (Key r) (complement r) (values r) (gte r) (lte r) (Some mv).

(** [requirements.Compatible(extra, options)], then
    [requirements.Add(extra.Values()...)]. *)
Definition narrow {LT : LabelTables} {E : Type} (allowUndefined : gset string) (err : E) (requirements extra : Requirements)
    : outcome E Requirements :=
  match Compatible requirements extra allowUndefined with
  | Some _ => Fail err
  | None => Done (Add requirements (ReqValues extra))
  end.

Section claim.
Context {LT : LabelTables} {PL : ProviderLabels} {TL : TaintLib} {GR : GoRange}
  {Q A : Type} `{Quantity Q} `{NetIP} {DA : DeviceAllocator Q A}
  (overrideKey : Offering Q → string * string) (rand : Z → Z) (ReservedCapacity : bool).
Implicit Types (n : InflightClaim Q) (pod : Pod) (podData : PodData Q) (t : Topology) (rm : ReservationManager)
  (requirements : Requirements) (alloc : option A).

Abbreviation canAdd T := (outcome (CanAddError Q) T).

(** [NewNodeClaim]; [hostname] is the next placeholder. *)
Definition NewInflightClaim (nodePoolName hostname : string) (taints : list Taint) (policy : PackingPolicy)
    (templateRequirements : Requirements) (daemonOverheadGroups : list (DaemonOverheadGroup Q))
    (instanceTypes : list (InstanceType Q)) (strict : bool) (beforeLimits : option (list (InstanceType Q)))
    : InflightClaim Q :=
  let requirements := Add (NewRequirements []) (ReqValues templateRequirements) in
  let requirements := Add requirements [NewRequirement LabelHostname OpIn [hostname]] in
  mkClaim nodePoolName policy taints (SharedWithTemplate nodePoolName) instanceTypes requirements ∅ [] daemonOverheadGroups hostname [] strict beforeLimits.

(** The reserved offerings an instance type of the NodeClaim could launch
    with: whether there is one, and those that can be reserved. *)
Fixpoint reservable n rm requirements (ofs : list (Offering Q)) (hasCompatibleOffering : bool)
    (reservedOfferings : list (Offering Q)) : option (bool * list (Offering Q)) :=
  match ofs with
  | [] => Some (hasCompatibleOffering, reservedOfferings)
  | o :: ofs =>
      ct ← CapacityType rand o;
      if negb (String.eqb ct CapacityTypeReserved) || negb (of_Available o)
      then reservable n rm requirements ofs hasCompatibleOffering reservedOfferings
      else if negb (offeringCompatible requirements o)
      then reservable n rm requirements ofs hasCompatibleOffering reservedOfferings
      else
        can ← CanReserve rand rm (ic_hostname n) o;
        reservable n rm requirements ofs true (if can : bool then reservedOfferings ++ [o] else reservedOfferings)
  end.

Definition offeringsToReserve n rm (instanceTypes : list (InstanceType Q)) requirements : canAdd (list (Offering Q)) :=
  if negb ReservedCapacity then Done []
  else
    '(hasCompatibleOffering, reservedOfferings) ←
      orPanic (reservable n rm requirements (mjoin (it_Offerings <$> instanceTypes)) false []);
    if ic_strict n && hasCompatibleOffering && bool_decide (reservedOfferings = []) then Fail (ReservedOfferingError, false)
    else if ic_strict n && negb (bool_decide (ic_reservedOfferings n = [])) && bool_decide (reservedOfferings = [])
    then Fail (ReservedOfferingError, false)
    else Done reservedOfferings.

(** [for key, minValues := range unsatisfiableKeys
       { nodeClaimRequirements.Get(key).MinValues = &minValues }] *)
Definition lowerMinValues requirements (unsatisfiableKeys : gmap string Z) : Requirements :=
  map_imap (λ k r, Some (match unsatisfiableKeys !! k with Some mv => withMinValues r mv | None => r end)) requirements.

(** The template of the NodeClaim rejects the pod whatever the limits. *)
Definition incompatibleIgnoringLimits n t (instanceTypes : list (InstanceType Q)) pod podData (relaxMinValues : bool) : bool :=
  if negb (bool_decide (ToleratesPod (ic_Taints n) pod = [])) then true
  else
    let requirements := NewRequirements (ReqValues (ic_Requirements n)) in
    match Compatible requirements (pd_Requirements podData) WellKnownLabels with
    | Some _ => true
    | None =>
        if negb (bool_decide (pd_VolumeRequirements podData = [])) || pd_HasResourceClaimRequests podData || Constrains t pod
        then false
        else
          let requirements := Add requirements (ReqValues (pd_Requirements podData)) in
          match (filterInstanceTypesByRequirements overrideKey instanceTypes requirements pod
                   (ic_daemonOverheadGroups n) (pd_Requests podData) relaxMinValues).2 with
          | inl _ => true
          | inr _ => false
          end
    end.

Definition instanceTypeFilterFailureIsInvariant n t pod podData (relaxMinValues : bool) : bool :=
  if negb (bool_decide (pd_VolumeRequirements podData = [])) || pd_HasResourceClaimRequests podData || Constrains t pod
  then false
  else match ic_instanceTypesBeforeLimits n with
       | None => true
       | Some its => incompatibleIgnoringLimits n t its pod podData relaxMinValues
       end.

(** Device allocation, when the pod has claims and there is an allocator. *)
Definition allocateDevices n alloc podData requirements : canAdd (Requirements * option AllocationResult) :=
  match alloc with
  | Some a =>
      if pd_HasResourceClaimRequests podData then
        if pd_ResourceClaimErr podData then Fail (ResourceClaimErr, false)
        else
          match Allocate a n (pd_ResourceClaims podData) with
          | None => Fail (AllocationFailed, false)
          | Some result =>
              requirements ← narrow WellKnownLabels (IncompatibleDeviceRequirements, false) requirements (ar_Requirements result);
              Done (requirements, Some result)
          end
      else Done (requirements, None)
  | None => Done (requirements, None)
  end.

(** Only instance types whose device allocation succeeded survive. *)
Definition filterByDevices (result : option AllocationResult) (remaining : list (InstanceType Q))
    : canAdd (list (InstanceType Q)) :=
  match result with
  | None => Done remaining
  | Some result =>
      match List.filter (λ it, existsb (String.eqb (it_Name it)) (ar_InstanceTypes result)) remaining with
      | [] => Fail (NoInstanceTypeForDevices, false)
      | remaining => Done remaining
      end
  end.

Definition tryVolumeAlternative n t rm alloc pod podData (baseRequirements : Requirements) (volReqs : option Requirements)
    (relaxMinValues : bool) : canAdd (Placement Q) :=
  let requirements := NewRequirements (ReqValues baseRequirements) in
  requirements ← match volReqs with
                 | Some v => narrow WellKnownLabels (IncompatibleVolumeRequirements, false) requirements v
                 | None => Done requirements
                 end;
  '(requirements, allocation) ← allocateDevices n alloc podData requirements;
  topologyRequirements ←
    match AddRequirements t pod (ic_Taints n) (pd_StrictRequirements podData) requirements WellKnownLabels with
    | inl _ => Fail (TopologyUnsatisfiable, false)
    | inr out => Done out
    end;
  requirements ← narrow WellKnownLabels (TopologyIncompatible, false) requirements topologyRequirements;
  let requests := Merge [ic_Requests n; pd_Requests podData] in
  let '(unsatisfiableKeys, filtered) :=
    filterInstanceTypesByRequirements overrideKey (ic_InstanceTypeOptions n) requirements pod
      (ic_daemonOverheadGroups n) requests relaxMinValues in
  match filtered with
  | inl e => Fail (NoInstanceType e, instanceTypeFilterFailureIsInvariant n t pod podData relaxMinValues)
  | inr remaining =>
      let requirements := if relaxMinValues then lowerMinValues requirements unsatisfiableKeys else requirements in
      remaining ← filterByDevices allocation remaining;
      ofs ← offeringsToReserve n rm remaining requirements;
      Done (mkPlacement requirements remaining ofs allocation)
  end.

(** The first alternative that works, or the last error. *)
Fixpoint tryAlternatives n t rm alloc pod podData baseRequirements (relaxMinValues : bool)
    (alternatives : list (option Requirements)) (lastErr : CanAddError Q) (allIncompatible : bool) : canAdd (Placement Q) :=
  match alternatives with
  | [] => Fail (lastErr.1, lastErr.2 && allIncompatible)
  | v :: rest =>
      match tryVolumeAlternative n t rm alloc pod podData baseRequirements v relaxMinValues with
      | Panic => Panic
      | Done p => Done p
      | Fail err => tryAlternatives n t rm alloc pod podData baseRequirements relaxMinValues rest err (allIncompatible && err.2)
      end
  end.

Definition CanAdd n t rm alloc pod podData (relaxMinValues : bool) : canAdd (Placement Q) :=
  if negb (bool_decide (ToleratesPod (ic_Taints n) pod = [])) then Fail (TaintsNotTolerated, true)
  else
    baseRequirements ← narrow WellKnownLabels (IncompatibleRequirements, true) (NewRequirements (ReqValues (ic_Requirements n)))
                         (pd_Requirements podData);
    let volumeAlternatives :=
      match pd_VolumeRequirements podData with [] => [None] | vs => Some <$> vs end in
    tryAlternatives n t rm alloc pod podData baseRequirements relaxMinValues volumeAlternatives (TopologyIncompatible, false) true.

(** [releaseReservedOfferings]; [ReservationID] panics without an id. *)
Definition releaseReservedOfferings n rm (current updated : list (Offering Q)) : option ReservationManager :=
  updatedIDs ← mapM (ReservationID rand) updated;
  foldl (λ acc o,
    rm ← acc;
    id ← ReservationID rand o;
    if existsb (String.eqb id) updatedIDs then Some rm else Release rand rm (ic_hostname n) [o]) (Some rm) current.

(** The allocator after the placement is committed: allocations are made
    definite, and instance types that did not survive give their devices back. *)
Definition commitDevices n alloc (p : Placement Q) : option A :=
  match alloc, pl_Allocation p with
  | Some a, Some result =>
      if ar_hasAllocation result then
        let a := Commit a result in
        let pruned := List.filter (λ name, negb (existsb (λ it, String.eqb (it_Name it) name) (pl_InstanceTypes p)))
                        (ar_InstanceTypes result) in
        Some (match pruned with [] => a | _ => ReleaseInstanceType a (ic_hostname n) pruned end)
      else Some a
  | alloc, _ => alloc
  end.

(** The shared state after [Add], and the NodeClaim. *)
Definition AddPod n t rm alloc pod podData (p : Placement Q)
    : option (InflightClaim Q * Topology * ReservationManager * option A) :=
  let hostPorts := GetHostPorts pod in
  let t := RegisterDomain t LabelHostname (ic_hostname n) in
  let t := RecordPlacement t pod (ic_Taints n) (pl_Requirements p) WellKnownLabels in
  let groups := (λ g, mkOverheadGroup (dg_InstanceTypes g) (dg_DaemonOverhead g)
                       (AddHostPorts (dg_HostPortUsage g) pod hostPorts)) <$> ic_daemonOverheadGroups n in
  rm ← Reserve rand rm (ic_hostname n) (pl_OfferingsToReserve p);
  rm ← releaseReservedOfferings n rm (ic_reservedOfferings n) (pl_OfferingsToReserve p);
  Some (mkClaim (ic_NodePoolName n) (ic_PackingPolicy n) (ic_Taints n) (ic_Annotations n) (pl_InstanceTypes p) (pl_Requirements p)
          (Merge [ic_Requests n; pd_Requests podData]) (ic_Pods n ++ [pod]) groups (ic_hostname n)
          (pl_OfferingsToReserve p) (ic_strict n) (ic_instanceTypesBeforeLimits n),
        t, rm, commitDevices n alloc p).

(** ** Finalising *)

Definition minDaemonOverhead n : ResourceList Q :=
  foldl (λ acc g,
    if existsb (eligible (ic_InstanceTypeOptions n)) (dg_InstanceTypes g) then
      if bool_decide (size acc = 0%nat) then dg_DaemonOverhead g
      else MinResources [acc; dg_DaemonOverhead g]
    else acc) ∅ (ic_daemonOverheadGroups n).

Definition addDaemonRequests n : ResourceList Q :=
  let overhead := minDaemonOverhead n in
  if bool_decide (size overhead = 0%nat) then ic_Requests n else Merge [ic_Requests n; overhead].

Definition DRADriversAnnotationKey : string := "karpenter.sh/requested-dra-drivers".

Definition FinalizeScheduling n (store : AnnotationStore) (drivers : list string) : option (InflightClaim Q) :=
  let requirements := delete LabelHostname (ic_Requirements n) in
  let annotations :=
    match drivers with
    | [] => ic_Annotations n
    | _ => OwnAnnotations (<[DRADriversAnnotationKey := String.concat "," (merge_sort String.le drivers)]>
             (annotationsOf store (ic_Annotations n)))
    end in
  requirements ←
    match ic_reservedOfferings n with
    | [] => Some requirements
    | reserved =>
        ids ← mapM (ReservationID rand) reserved;
        let requirements := <[CapacityTypeLabelKey := NewRequirement CapacityTypeLabelKey OpIn [CapacityTypeReserved]]> requirements in
        Some (Add requirements [NewRequirement ReservationIDLabel OpIn ids])
    end;
  Some (mkClaim (ic_NodePoolName n) (ic_PackingPolicy n) (ic_Taints n) annotations (ic_InstanceTypeOptions n) requirements
          (addDaemonRequests n) (ic_Pods n) (ic_daemonOverheadGroups n) (ic_hostname n) (ic_reservedOfferings n)
          (ic_strict n) (ic_instanceTypesBeforeLimits n)).
End claim.

(** * Theory *)

(** ** Filtering *)

Section filter_theory.
Context {LT : LabelTables} {PL : ProviderLabels} {Q : Type} `{Quantity Q} `{NetIP}
  (overrideKey : Offering Q → string * string).
Implicit Types (it : InstanceType Q) (its : list (InstanceType Q)) (reqs : Requirements)
  (requests : ResourceList Q) (e : FilterError Q) (g : DaemonOverheadGroup Q).

(** The instance type can be launched for a NodeClaim with these requirements,
    with an offering whose nodes hold the requests. *)
Definition launchableWith reqs requests it : Prop :=
  compatible it reqs = true ∧
  ∃ group o, group ∈ AllocatableOfferingsList overrideKey it ∧ o ∈ ao_Offerings group ∧
    offeringCompatible reqs o = true ∧ Fits requests (ao_Allocatable group) = true.

Lemma fitsGroups_spec requests reqs groups b :
  (fitsGroups requests reqs groups b).1 = true ↔
  ∃ group o, group ∈ groups ∧ o ∈ ao_Offerings group ∧ offeringCompatible reqs o = true ∧
    Fits requests (ao_Allocatable group) = true.
Proof.
  revert b. induction groups as [|group groups IH]; intros b; cbn [fitsGroups].
  { split; [done|]. by intros (group & o & ?%not_elem_of_nil & _). }
  setoid_rewrite elem_of_cons.
  destruct (existsb _ _) eqn:Hc; [destruct (Fits _ _) eqn:Hf|].
  - apply existsb_exists in Hc as (o & Ho & Hoc). rewrite <- list_elem_of_In in Ho. split; [|done]. intros _.
    exists group, o. auto.
  - rewrite IH. split; [intros (g' & o & ? & ?); exists g', o; auto|].
    intros (g' & o & [->|Hin] & Ho & ? & ?); [congruence|]. exists g', o. auto.
  - rewrite IH. split; [intros (g' & o & ? & ?); exists g', o; auto|].
    intros (g' & o & [->|Hin] & Ho & Hoc & ?); [|exists g', o; auto].
    apply not_true_iff_false in Hc. destruct Hc. apply existsb_exists. exists o. by rewrite <- list_elem_of_In.
Qed.

Lemma fitsGroups_offering requests reqs groups b :
  (fitsGroups requests reqs groups b).1 = true → (fitsGroups requests reqs groups b).2 = true.
Proof.
  revert b. induction groups as [|group groups IH]; intros b; cbn [fitsGroups]; [done|].
  destruct (existsb _ _); [destruct (Fits _ _); [done|]|]; apply IH.
Qed.

(** The test of the inner loop. *)
Definition keeps reqs requests it : bool :=
  compatible it reqs && (fits overrideKey it requests reqs).1 && (fits overrideKey it requests reqs).2.

Lemma keeps_spec reqs requests it : keeps reqs requests it = true ↔ launchableWith reqs requests it.
Proof.
  unfold keeps, launchableWith, fits. rewrite !andb_true_iff, fitsGroups_spec. split; [tauto|].
  intros [Hc Hf]. split; [done|]. apply fitsGroups_offering. by apply fitsGroups_spec.
Qed.

Lemma considerType_remaining reqs requests e rem it :
  (considerType overrideKey reqs requests (e, rem) it).2 = rem ++ (if keeps reqs requests it then [it] else []).
Proof.
  unfold considerType, keeps. destruct (fits overrideKey it requests reqs) as [f h]. cbn [fst snd].
  destruct (_ && _); [done|]. by rewrite app_nil_r.
Qed.

(** The survivors of one group. *)
Definition groupSurvivors its reqs pod total g : list (InstanceType Q) :=
  match HostPortConflicts (dg_HostPortUsage g) pod (GetHostPorts pod) with
  | Some _ => []
  | None => List.filter (λ it, eligible its it && keeps reqs (groupRequests total g) it) (dg_InstanceTypes g)
  end.

Lemma considerGroup_remaining its reqs pod total e rem g :
  (considerGroup overrideKey its reqs pod total (e, rem) g).2 = rem ++ groupSurvivors its reqs pod total g.
Proof.
  unfold considerGroup, groupSurvivors. destruct (HostPortConflicts _ _ _); [by rewrite app_nil_r|].
  match goal with |- context [foldl _ (?e0, rem) _] => generalize e0 end. clear e. intros e.
  generalize (groupRequests total g). intros requests.
  revert e rem. induction (dg_InstanceTypes g) as [|it l IH]; intros e rem; cbn [foldl List.filter]; [by rewrite app_nil_r|].
  destruct (eligible its it); cbn [andb]; [|apply IH].
  destruct (considerType overrideKey reqs requests (e, rem) it) as [e' rem'] eqn:Hc. rewrite IH.
  pose proof (considerType_remaining reqs requests e rem it) as Hr. rewrite Hc in Hr. simpl in Hr. subst rem'.
  destruct (keeps reqs requests it); simpl; by rewrite <- app_assoc.
Qed.

Lemma considerGroups_remaining its reqs pod total groups e rem :
  (foldl (considerGroup overrideKey its reqs pod total) (e, rem) groups).2 =
  rem ++ mjoin (groupSurvivors its reqs pod total <$> groups).
Proof.
  revert e rem. induction groups as [|g groups IH]; intros e rem; cbn [foldl]; [by rewrite app_nil_r|].
  pose proof (considerGroup_remaining its reqs pod total e rem g) as Hg.
  destruct (considerGroup _ _ _ _ _ _ _) as [e' rem']. simpl in Hg. subst rem'. rewrite IH, fmap_cons. simpl.
  by rewrite app_assoc.
Qed.

(** The instance type is left after filtering. *)
Definition survives its reqs pod (groups : list (DaemonOverheadGroup Q)) total it : Prop :=
  ∃ g, g ∈ groups ∧ HostPortConflicts (dg_HostPortUsage g) pod (GetHostPorts pod) = None ∧
    it ∈ dg_InstanceTypes g ∧ eligible its it = true ∧ launchableWith reqs (groupRequests total g) it.

Lemma elem_of_survivors its reqs pod total groups it :
  it ∈ mjoin (groupSurvivors its reqs pod total <$> groups) ↔ survives its reqs pod groups total it.
Proof.
  rewrite list_elem_of_join. unfold survives, groupSurvivors. split.
  - intros (l & Hit & (g & -> & Hg)%list_elem_of_fmap). exists g. destruct (HostPortConflicts _ _ _).
    { by apply not_elem_of_nil in Hit. }
    rewrite list_elem_of_In, filter_In, <- list_elem_of_In, andb_true_iff, keeps_spec in Hit. tauto.
  - intros (g & Hg & Hp & Hit & He & Hl). exists (groupSurvivors its reqs pod total g).
    split; [|by apply list_elem_of_fmap_2]. unfold groupSurvivors. rewrite Hp.
    rewrite list_elem_of_In, filter_In, <- list_elem_of_In, andb_true_iff, keeps_spec. tauto.
Qed.

Lemma filter_result its reqs pod groups total relax :
  let all := mjoin (groupSurvivors its reqs pod total <$> groups) in
  let keys := if HasMinValues reqs then (SatisfiesMinValues all reqs).2 else ∅ in
  (filterInstanceTypesByRequirements overrideKey its reqs pod groups total relax).1 = keys ∧
  match (filterInstanceTypesByRequirements overrideKey its reqs pod groups total relax).2 with
  | inr remaining => remaining = all ∧ all ≠ [] ∧ (relax = true ∨ keys = ∅)
  | inl e => all = [] ∨ relax = false ∧ keys ≠ ∅ ∧ minValuesIncompatible e = true
  end.
Proof.
  intros all keys. unfold filterInstanceTypesByRequirements.
  pose proof (considerGroups_remaining its reqs pod total groups noFilterError []) as Hr.
  destruct (foldl _ _ _) as [e rem]. simpl in Hr. fold all in Hr. subst rem. subst keys.
  destruct (HasMinValues reqs).
  - case_bool_decide as Hk; cbn [orb].
    + simpl. split; [done|]. destruct all eqn:Ha; [by left|]. auto.
    + destruct relax; cbn [fst snd].
      * split; [done|]. destruct all eqn:Ha; [by left|]. auto.
      * split; [done|]. right. done.
  - simpl. split; [done|]. destruct all; [by left|]. auto.
Qed.

(** The instance types left for a NodeClaim are exactly the ones that work.
    [filterInstanceTypesByRequirements] keeps an instance type exactly when it
    is still an option, it belongs to a daemon group whose host ports the pod
    does not clash with, it meets the requirements, and one of its compatible
    available offerings holds all requests together with the group's daemon
    overhead.  It fails only if there is none, or if minValues is enforced and
    the remaining types do not have enough distinct values. *)
Theorem filterInstanceTypes_exact its reqs pod groups total relax :
  match (filterInstanceTypesByRequirements overrideKey its reqs pod groups total relax).2 with
  | inr remaining => remaining ≠ [] ∧ ∀ it, it ∈ remaining ↔ survives its reqs pod groups total it
  | inl e =>
      (∀ it, ¬ survives its reqs pod groups total it) ∨
      relax = false ∧ minValuesIncompatible e = true ∧
      (filterInstanceTypesByRequirements overrideKey its reqs pod groups total relax).1 ≠ ∅
  end.
Proof.
  destruct (filter_result its reqs pod groups total relax) as [Hkeys Hres].
  destruct (filterInstanceTypesByRequirements _ _ _ _ _ _ _) as [keys res]. cbn [fst snd] in *. destruct res as [e|rem].
  - destruct Hres as [Hnone|(-> & Hk & He)]; [left|right; by rewrite Hkeys].
    intros it Hit. apply elem_of_survivors in Hit. rewrite Hnone in Hit. by apply not_elem_of_nil in Hit.
  - destruct Hres as (-> & Hne & _). split; [done|]. intros it. apply elem_of_survivors.
Qed.
End filter_theory.

(** ** minValues do not affect compatibility *)

Section minvalues_theory.
Context {LT : LabelTables}.
Implicit Types (m n : Requirements) (u : gmap string Z) (k : string).

Lemma lookup_lowerMinValues m u k :
  lowerMinValues m u !! k = (λ r, match u !! k with Some mv => withMinValues r mv | None => r end) <$> m !! k.
Proof. unfold lowerMinValues. rewrite map_lookup_imap. by destruct (m !! k). Qed.

Lemma Get_lowerMinValues m u k :
  Get (lowerMinValues m u) k = Get m k ∨ ∃ mv, Get (lowerMinValues m u) k = withMinValues (Get m k) mv.
Proof.
  unfold Get. rewrite lookup_lowerMinValues. destruct (m !! k); [|by left]. simpl. destruct (u !! k); eauto.
Qed.

Lemma lowerMinValues_wf m u : Requirements_wf m → Requirements_wf (lowerMinValues m u).
Proof.
  intros Hm k r. rewrite lookup_lowerMinValues. destruct (m !! k) as [r0|] eqn:Hk; [|done]. intros [= <-].
  destruct (Hm k r0 Hk) as (Hkey & Hn & Hwf). destruct (u !! k); [|done].
  split_and!; [done|done|]. by destruct Hwf; split.
Qed.

Lemma allows_lowerMinValues m u k v : allows (lowerMinValues m u) k v = allows m k v.
Proof.
  unfold allows. rewrite lookup_lowerMinValues. destruct (m !! k); [|done]. simpl. by destruct (u !! k).
Qed.

Lemma Intersects_keys m n :
  Intersects m n = None ↔ ∀ k, is_Some (m !! k) → is_Some (n !! k) → intersectsKey m n k = None.
Proof.
  unfold Intersects. split.
  - intros Hi k Hm Hn. destruct (intersectsKey m n k) as [e|] eqn:He; [exfalso|done].
    assert (e ∈ omap (intersectsKey m n) (elements (intersectKeys m n))) as Hin.
    { apply list_elem_of_omap. exists k. split; [|done]. apply elem_of_elements, elem_of_intersectKeys. auto. }
    destruct (omap _ _); [by apply not_elem_of_nil in Hin|done].
  - intros Hall. destruct (omap _ _) as [|e l] eqn:Ho; [done|exfalso].
    assert (e ∈ omap (intersectsKey m n) (elements (intersectKeys m n))) as Hin by (rewrite Ho; apply list_elem_of_here).
    apply list_elem_of_omap in Hin as (k & Hk & He). apply elem_of_elements, elem_of_intersectKeys in Hk as [Hm Hn].
    by rewrite (Hall k Hm Hn) in He.
Qed.

Lemma intersectsKey_lower_l m n u k :
  intersectsKey (lowerMinValues m u) n k = None ↔ intersectsKey m n k = None.
Proof.
  unfold intersectsKey. destruct (Get_lowerMinValues m u k) as [->|[mv ->]]; [done|].
  change (HasIntersection (withMinValues (Get m k) mv) (Get n k)) with (HasIntersection (Get m k) (Get n k)).
  change (Operator (withMinValues (Get m k) mv)) with (Operator (Get m k)).
  destruct (HasIntersection _ _); [done|]. by destruct (_ && _).
Qed.

Lemma intersectsKey_lower_r m n u k :
  intersectsKey m (lowerMinValues n u) k = None ↔ intersectsKey m n k = None.
Proof.
  unfold intersectsKey. destruct (Get_lowerMinValues n u k) as [->|[mv ->]]; [done|].
  change (HasIntersection (Get m k) (withMinValues (Get n k) mv)) with (HasIntersection (Get m k) (Get n k)).
  change (Operator (withMinValues (Get n k) mv)) with (Operator (Get n k)).
  destruct (HasIntersection _ _); [done|]. by destruct (_ && _).
Qed.

Lemma is_Some_lowerMinValues m u k : is_Some (lowerMinValues m u !! k) ↔ is_Some (m !! k).
Proof. rewrite lookup_lowerMinValues. apply fmap_is_Some. Qed.

Lemma Intersects_lower_r m n u : Intersects m (lowerMinValues n u) = None ↔ Intersects m n = None.
Proof. rewrite !Intersects_keys. by setoid_rewrite is_Some_lowerMinValues; setoid_rewrite intersectsKey_lower_r. Qed.

Lemma Compatible_lower_l m n u allow : Compatible (lowerMinValues m u) n allow = None ↔ Compatible m n allow = None.
Proof.
  unfold Compatible.
  assert (List.find (undefinedKey (lowerMinValues m u) n allow) (map_to_list n).*1 =
          List.find (undefinedKey m n allow) (map_to_list n).*1) as ->.
  { generalize ((map_to_list n).*1). intros l. induction l as [|k l IH]; simpl; [done|]. rewrite IH.
    assert (undefinedKey (lowerMinValues m u) n allow k = undefinedKey m n allow k) as ->; [|done].
    unfold undefinedKey, HasKey. rewrite lookup_lowerMinValues. by destruct (m !! k). }
  destruct (List.find _ _); [done|]. rewrite !Intersects_keys.
  by setoid_rewrite is_Some_lowerMinValues; setoid_rewrite intersectsKey_lower_l.
Qed.
End minvalues_theory.

(** ** What [CanAdd] guarantees *)

(** The requirements of a device allocation are well formed. *)
Class DeviceAllocatorLaws (Q A : Type) `{DeviceAllocator Q A} {LT : LabelTables} := {
  Allocate_wf a n claims result : Allocate a n claims = Some result → Requirements_wf (ar_Requirements result);
}.

Section canadd_theory.
Context {LT : LabelTables} {LTok : LabelTablesOk} {PL : ProviderLabels} {TL : TaintLib} {GR : GoRange}
  {Q A : Type} `{Quantity Q} `{NetIP} {DA : DeviceAllocator Q A} {DAL : DeviceAllocatorLaws Q A}
  (overrideKey : Offering Q → string * string) (rand : Z → Z) (ReservedCapacity : bool).
Implicit Types (n : InflightClaim Q) (pod : Pod) (d : PodData Q) (t : Topology) (rm : ReservationManager)
  (reqs m : Requirements) (alloc : option A) (p : Placement Q) (it : InstanceType Q) (k v : string).

Definition podData_wf d : Prop :=
  Requirements_wf (pd_Requirements d) ∧ Forall Requirements_wf (pd_VolumeRequirements d).

Lemma allows_Add_Values m m' k v :
  Requirements_wf m' → allows (Add m (ReqValues m')) k v = allows m k v && allows m' k v.
Proof.
  intros Hwf. rewrite Add_allows by (by apply ReqValues_addable). f_equal. apply bool_eq_iff. rewrite forallb_forall.
  unfold allows. split.
  - intros Hall. destruct (m' !! k) as [r|] eqn:Hr; [|done].
    assert (In r (ReqValues m')) as Hin.
    { apply list_elem_of_In, list_elem_of_fmap. exists (k, r). by rewrite elem_of_map_to_list. }
    apply Hall in Hin. destruct (Requirements_wf_lookup m' k r Hwf Hr) as (Hk & _).
    by rewrite bool_decide_eq_true_2 in Hin.
  - intros Hk r ([k' r'] & -> & Hin%elem_of_map_to_list)%list_elem_of_In%list_elem_of_fmap. simpl.
    destruct (Requirements_wf_lookup m' k' r' Hwf Hin) as (Hkey & _). rewrite Hkey.
    case_bool_decide as Heq; [|done]. assert (m' !! k = Some r') as Hin' by congruence. by rewrite Hin' in Hk.
Qed.

(** [m'] allows at most what [m] allows. *)
Definition narrower m' m : Prop := ∀ k v, allows m' k v = true → allows m k v = true.

#[export] Instance narrower_preorder : PreOrder narrower.
Proof. split; [by intros m k v|]. intros a b c Hab Hbc k v Hv. by apply Hbc, Hab. Qed.

Lemma narrow_Done {E : Type} allow (err : E) m extra out :
  narrow allow err m extra = Done out → Requirements_wf m → Requirements_wf extra →
  Requirements_wf out ∧ narrower out m ∧ narrower out extra.
Proof.
  unfold narrow. destruct (Compatible _ _ _); [done|]. intros [= <-] Hm He.
  split; [apply Add_wf; [done|by apply ReqValues_addable]|].
  split; intros k v; rewrite allows_Add_Values by done; intros [? ?]%andb_true_iff; done.
Qed.

Lemma allocateDevices_Done n alloc d m out r :
  allocateDevices n alloc d m = Done (out, r) → Requirements_wf m → Requirements_wf out ∧ narrower out m.
Proof.
  unfold allocateDevices. intros Hrun Hm. destruct alloc as [a|]; [|by injection Hrun as <- <-].
  destruct (pd_HasResourceClaimRequests d); [|by injection Hrun as <- <-].
  destruct (pd_ResourceClaimErr d); [done|]. destruct (Allocate _ _ _) as [result|] eqn:Ha; [|done].
  apply outcome_bind_Done in Hrun as (m' & Hn & [= <- <-]). apply narrow_Done in Hn as (? & ? & _); [done|done|].
  by eapply Allocate_wf.
Qed.

Lemma filterByDevices_Done result its out :
  filterByDevices (Q := Q) result its = Done out → its ≠ [] → out ≠ [] ∧ ∀ it, it ∈ out → it ∈ its.
Proof.
  unfold filterByDevices. destruct result as [result|]; [|by intros [= <-]].
  destruct (List.filter _ its) as [|it0 l] eqn:Hf; [done|]. intros [= <-] _. split; [done|].
  intros it. rewrite <- Hf, !list_elem_of_In, filter_In. tauto.
Qed.

Lemma launchableWith_lower reqs u requests it :
  launchableWith overrideKey reqs requests it → launchableWith overrideKey (lowerMinValues reqs u) requests it.
Proof.
  intros [Hc (group & o & Hg & Ho & Hoc & Hf)]. split.
  - unfold compatible in *. destruct (Intersects (it_Requirements it) (lowerMinValues reqs u)) eqn:Hi; [|done].
    destruct (Intersects (it_Requirements it) reqs) eqn:Hi'; [done|]. apply (Intersects_lower_r _ _ u) in Hi'. congruence.
  - exists group, o. split_and!; [done|done| |done]. unfold offeringCompatible, IsCompatible in *.
    destruct (Compatible (lowerMinValues reqs u) _ _) eqn:Hi; [|done].
    destruct (Compatible reqs _ _) eqn:Hi'; [done|]. apply (Compatible_lower_l _ _ u) in Hi'. congruence.
Qed.

(** What holds of a placement [CanAdd] returns. *)
Record placement_ok n rm pod d p : Prop := {
  po_wf : Requirements_wf (pl_Requirements p);
  po_claim : narrower (pl_Requirements p) (ic_Requirements n);
  po_pod : narrower (pl_Requirements p) (pd_Requirements d);
  po_volume : pd_VolumeRequirements d = [] ∨ ∃ vr, vr ∈ pd_VolumeRequirements d ∧ narrower (pl_Requirements p) vr;
  po_taints : ToleratesPod (ic_Taints n) pod = [];
  po_some : pl_InstanceTypes p ≠ [];
  po_types : ∀ it, it ∈ pl_InstanceTypes p →
    survives overrideKey (ic_InstanceTypeOptions n) (pl_Requirements p) pod (ic_daemonOverheadGroups n)
      (Merge [ic_Requests n; pd_Requests d]) it;
  po_reserve : offeringsToReserve rand ReservedCapacity n rm (pl_InstanceTypes p) (pl_Requirements p) = Done (pl_OfferingsToReserve p);
}.

Abbreviation tryAlternative := (tryVolumeAlternative overrideKey rand ReservedCapacity).

(** The requirements an alternative ends with, before minValues are lowered. *)
Lemma alternative_requirements n t alloc pod d base vol reqs reqs1 res reqs2 out :
  Requirements_wf base → (∀ vr, vol = Some vr → Requirements_wf vr) →
  match vol with Some vr => narrow WellKnownLabels (IncompatibleVolumeRequirements, false) (NewRequirements (ReqValues base)) vr
               | None => Done (NewRequirements (ReqValues base)) end = Done (E := CanAddError Q) reqs →
  allocateDevices n alloc d reqs = Done (reqs1, res) →
  AddRequirements t pod (ic_Taints n) (pd_StrictRequirements d) reqs1 WellKnownLabels = inr reqs2 →
  narrow (E := CanAddError Q) WellKnownLabels (TopologyIncompatible, false) reqs1 reqs2 = Done out →
  Requirements_wf out ∧ narrower out base ∧ ∀ vr, vol = Some vr → narrower out vr.
Proof.
  intros Hb Hv H1 H2 H3 H4. rewrite NewRequirements_Values in H1 by done.
  assert (Requirements_wf reqs ∧ narrower reqs base ∧ ∀ vr, vol = Some vr → narrower reqs vr) as (Hw1 & Hn1 & Hn1').
  { destruct vol as [v|]; [|by injection H1 as <-]. apply narrow_Done in H1 as (? & ? & ?); [|done|by apply Hv].
    split_and!; [done|done|]. by intros ? [= <-]. }
  apply allocateDevices_Done in H2 as [Hw2 Hn2]; [|done].
  assert (Requirements_wf reqs2) as Hw3.
  { unfold AddRequirements in H3. rewrite NewRequirements_Values in H3 by done.
    pose proof (addTopologies_spec pod (pd_StrictRequirements d) reqs1
      (getMatchingTopologies t pod (ic_Taints n) reqs1 WellKnownLabels) reqs1 Hw2) as Hspec.
    rewrite H3 in Hspec. tauto. }
  apply narrow_Done in H4 as (Hw4 & Hn4 & _); [|done|done]. split_and!; [done|by rewrite Hn4, Hn2, Hn1|].
  intros v Hvv. rewrite Hn4, Hn2. by apply Hn1'.
Qed.

Lemma tryVolumeAlternative_Done n t rm alloc pod d base vol relax p :
  Requirements_wf base → (∀ vr, vol = Some vr → Requirements_wf vr) →
  tryAlternative n t rm alloc pod d base vol relax = Done p →
  Requirements_wf (pl_Requirements p) ∧ narrower (pl_Requirements p) base ∧
  (∀ vr, vol = Some vr → narrower (pl_Requirements p) vr) ∧
  pl_InstanceTypes p ≠ [] ∧
  (∀ it, it ∈ pl_InstanceTypes p →
    survives overrideKey (ic_InstanceTypeOptions n) (pl_Requirements p) pod (ic_daemonOverheadGroups n)
      (Merge [ic_Requests n; pd_Requests d]) it) ∧
  offeringsToReserve rand ReservedCapacity n rm (pl_InstanceTypes p) (pl_Requirements p) = Done (pl_OfferingsToReserve p).
Proof.
  intros Hb Hv Hrun. unfold tryVolumeAlternative in Hrun.
  apply outcome_bind_Done in Hrun as (reqs & H1 & Hrun). apply outcome_bind_Done in Hrun as ([reqs1 res] & H2 & Hrun).
  apply outcome_bind_Done in Hrun as (reqs2 & H3 & Hrun). apply outcome_bind_Done in Hrun as (out & H4 & Hrun).
  destruct (AddRequirements _ _ _ _ _ _) as [|reqs2'] eqn:H3'; [done|]. injection H3 as ->.
  destruct (alternative_requirements n t alloc pod d base vol reqs reqs1 res reqs2 out Hb Hv H1 H2 H3' H4)
    as (Hwf & Hnb & Hnv).
  destruct (filter_result overrideKey (ic_InstanceTypeOptions n) out pod (ic_daemonOverheadGroups n)
    (Merge [ic_Requests n; pd_Requests d]) relax) as [_ Hres].
  destruct (filterInstanceTypesByRequirements _ _ _ _ _ _ _) as [keys [e|rem]]; [done|]. cbn [fst snd] in *.
  destruct Hres as (-> & Hne & _).
  set (reqs' := if relax then lowerMinValues out keys else out) in *.
  apply outcome_bind_Done in Hrun as (its & H5 & Hrun). apply outcome_bind_Done in Hrun as (ofs & H6 & [= <-]).
  cbn [pl_Requirements pl_InstanceTypes pl_OfferingsToReserve].
  assert (∀ k v, allows reqs' k v = allows out k v) as Hallow.
  { intros k v. subst reqs'. destruct relax; [apply allows_lowerMinValues|done]. }
  destruct (filterByDevices_Done _ _ _ H5 Hne) as [Hne' Hsub]. split_and!; [| | |done| |done].
  - subst reqs'. destruct relax; [by apply lowerMinValues_wf|done].
  - intros k v. rewrite Hallow. apply Hnb.
  - intros vr Hvr k v. rewrite Hallow. by apply Hnv.
  - intros it Hit. apply Hsub, elem_of_survivors in Hit as (g & Hg & Hp & Hin & He & Hl).
    exists g. split_and!; [done..|]. subst reqs'. destruct relax; [by apply launchableWith_lower|done].
Qed.

Lemma tryAlternatives_Done n t rm alloc pod d base relax alts err b p :
  tryAlternatives overrideKey rand ReservedCapacity n t rm alloc pod d base relax alts err b = Done p →
  ∃ vol, vol ∈ alts ∧ tryAlternative n t rm alloc pod d base vol relax = Done p.
Proof.
  revert err b. induction alts as [|v alts IH]; intros err b; cbn [tryAlternatives]; [done|].
  destruct (tryVolumeAlternative _ _ _ _ _ _ _ _ _ _ _ _) as [|e|p'] eqn:Hv; [done| |].
  - intros (vol & ? & ?)%IH. exists vol. split; [by apply list_elem_of_further|done].
  - intros [= <-]. exists v. split; [apply list_elem_of_here|done].
Qed.

Lemma CanAdd_ok n t rm alloc pod d relax p :
  Requirements_wf (ic_Requirements n) → podData_wf d →
  CanAdd overrideKey rand ReservedCapacity n t rm alloc pod d relax = Done p → placement_ok n rm pod d p.
Proof.
  intros Hn [Hd Hvs] Hrun. unfold CanAdd in Hrun. case_bool_decide as Htol; [|done]. cbn [negb] in Hrun.
  apply outcome_bind_Done in Hrun as (base & Hbase & Hrun). rewrite NewRequirements_Values in Hbase by done.
  apply narrow_Done in Hbase as (Hbwf & Hbn & Hbd); [|done|done].
  apply tryAlternatives_Done in Hrun as (vol & Hin & Hrun).
  assert (∀ vr, vol = Some vr → vr ∈ pd_VolumeRequirements d) as Hvol.
  { intros v ->. destruct (pd_VolumeRequirements d) as [|v0 vs]; [by apply list_elem_of_singleton in Hin|].
    by apply list_elem_of_fmap in Hin as (v' & [= ->] & ?). }
  rewrite Forall_forall in Hvs.
  apply tryVolumeAlternative_Done in Hrun as (Hwf & Hpb & Hpv & Hne & Hits & Hofs); [|done|by intros v ?%Hvol; apply Hvs].
  split; [done|by rewrite Hpb|by rewrite Hpb| |done..].
  destruct vol as [v|]; [right; exists v; auto|left].
  destruct (pd_VolumeRequirements d) as [|v0 vs]; [done|]. by apply list_elem_of_fmap in Hin as (? & ? & _).
Qed.
End canadd_theory.

(** ** Runs of a NodeClaim *)

Section run_theory.
Context {LT : LabelTables} {LTok : LabelTablesOk} {PL : ProviderLabels} {TL : TaintLib} {GR : GoRange}
  {Q A : Type} `{QuantityLaws Q} `{NetIP} {DA : DeviceAllocator Q A} {DAL : DeviceAllocatorLaws Q A}
  (overrideKey : Offering Q → string * string) (rand : Z → Z) (ReservedCapacity : bool).
Implicit Types (n : InflightClaim Q) (placed : list (Pod * PodData Q)) (it : InstanceType Q) (k v : string).

(** Adding a pod that [CanAdd] accepted.  Between two additions the topology,
    the reservations and the allocator may change in any way: other NodeClaims
    share them.  The second component records what was placed. *)
Inductive claim_step : InflightClaim Q * list (Pod * PodData Q) → InflightClaim Q * list (Pod * PodData Q) → Prop :=
  | claim_add n placed t rm (alloc : option A) pod d relax p n' t' rm' alloc' :
      podData_wf d → nonneg (pd_Requests d) →
      CanAdd overrideKey rand ReservedCapacity n t rm alloc pod d relax = Done p →
      AddPod rand n t rm alloc pod d p = Some (n', t', rm', alloc') →
      claim_step (n, placed) (n', placed ++ [(pod, d)]).

Definition requestedOf placed k : Z := total_amount (pd_Requests <$> placed.*2) k.

(** The instance type can be launched for the claim and holds its requests. *)
Definition holdsPods n it : Prop :=
  ∃ g, g ∈ ic_daemonOverheadGroups n ∧ it ∈ dg_InstanceTypes g ∧
    launchableWith overrideKey (ic_Requirements n) (groupRequests (ic_Requests n) g) it.

Record claim_inv n placed : Prop := {
  ci_pods : ic_Pods n = placed.*1;
  ci_requests : ∀ k, amount (ic_Requests n) k = requestedOf placed k;
  ci_nonneg : nonneg (ic_Requests n);
  ci_wf : Requirements_wf (ic_Requirements n);
  ci_met : ∀ pod d, (pod, d) ∈ placed → narrower (ic_Requirements n) (pd_Requirements d) ∧ ToleratesPod (ic_Taints n) pod = [];
  ci_options : placed ≠ [] → ic_InstanceTypeOptions n ≠ [] ∧ ∀ it, it ∈ ic_InstanceTypeOptions n → holdsPods n it;
  ci_overhead : ∀ g, g ∈ ic_daemonOverheadGroups n → nonneg (dg_DaemonOverhead g);
}.

Lemma requestedOf_snoc placed pod d k : requestedOf (placed ++ [(pod, d)]) k = requestedOf placed k + amount (pd_Requests d) k.
Proof.
  unfold requestedOf, total_amount. rewrite !fmap_app, foldr_app. simpl.
  generalize (pd_Requests <$> placed.*2). intros l. induction l as [|x l IH]; simpl; lia.
Qed.

(** Adding a pod keeps the instance types and the overhead of each group. *)
Lemma AddPod_fields n t rm (alloc : option A) pod d p n' t' rm' alloc' :
  AddPod rand n t rm alloc pod d p = Some (n', t', rm', alloc') →
  n' = mkClaim (ic_NodePoolName n) (ic_PackingPolicy n) (ic_Taints n) (ic_Annotations n) (pl_InstanceTypes p) (pl_Requirements p)
         (Merge [ic_Requests n; pd_Requests d]) (ic_Pods n ++ [pod])
         ((λ g, mkOverheadGroup (dg_InstanceTypes g) (dg_DaemonOverhead g)
                  (AddHostPorts (dg_HostPortUsage g) pod (GetHostPorts pod))) <$> ic_daemonOverheadGroups n)
         (ic_hostname n) (pl_OfferingsToReserve p) (ic_strict n) (ic_instanceTypesBeforeLimits n).
Proof.
  unfold AddPod. destruct (Reserve _ _ _ _) as [rm1|]; [|done]. simpl.
  destruct (releaseReservedOfferings _ _ _ _ _) as [rm2|]; [|done]. simpl. by intros [= <- _ _ _].
Qed.

Lemma claim_step_inv n placed n' placed' :
  claim_inv n placed → claim_step (n, placed) (n', placed') → claim_inv n' placed'.
Proof.
  intros [Hpods Hreq Hnn Hwf Hmet Hopt Hov] Hs.
  inversion Hs as [? ? t rm alloc pod d relax p n1 t' rm' alloc' Hd Hdn Hcan Hadd]; subst.
  apply CanAdd_ok in Hcan; [|done|done]. destruct Hcan as [Hpwf Hpn Hpd _ Hpt Hps Hpi _].
  apply AddPod_fields in Hadd as ->.
  split; cbn [ic_Pods ic_Requests ic_Requirements ic_Taints ic_InstanceTypeOptions ic_daemonOverheadGroups].
  - rewrite Hpods, fmap_app. done.
  - intros k. rewrite requestedOf_snoc, amount_Merge. cbn [total_amount foldr]. rewrite Hreq. lia.
  - apply nonneg_Merge. by repeat constructor.
  - done.
  - intros pod' d' [Hin|[= -> ->]%list_elem_of_singleton]%elem_of_app.
    + destruct (Hmet pod' d' Hin) as [Hnar ?]. split; [|done]. intros k v Hv. apply Hnar. by apply Hpn.
    + done.
  - intros _. split; [done|]. intros it Hit. destruct (Hpi it Hit) as (g & Hg & _ & Hin & _ & Hl).
    eexists. split; [by apply list_elem_of_fmap_2, Hg|]. done.
  - intros g (g0 & -> & Hg)%list_elem_of_fmap. exact (Hov g0 Hg).
Qed.

Lemma groupRequests_amount total (g : DaemonOverheadGroup Q) k :
  amount (groupRequests total g) k = amount total k + amount (dg_DaemonOverhead g) k.
Proof.
  unfold groupRequests. case_bool_decide as Hs.
  - apply map_size_empty_inv in Hs. rewrite Hs, amount_empty. lia.
  - unfold MergeInto. simpl. rewrite !amount_sumInto, amount_empty. lia.
Qed.

Lemma groupRequests_nonneg total (g : DaemonOverheadGroup Q) :
  nonneg total → nonneg (dg_DaemonOverhead g) → nonneg (groupRequests total g).
Proof.
  intros Ht Hg. unfold groupRequests. case_bool_decide; [done|]. unfold MergeInto. simpl.
  repeat apply nonneg_sumInto; done || apply nonneg_empty.
Qed.

Lemma NewInflightClaim_inv pool host taints policy reqs groups its strict before :
  Requirements_wf reqs → (∀ g, g ∈ groups → nonneg (dg_DaemonOverhead g)) →
  claim_inv (NewInflightClaim pool host taints policy reqs groups its strict before) [].
Proof.
  intros Hwf Hg. unfold NewInflightClaim.
  split; cbn [ic_Pods ic_Requests ic_Requirements ic_InstanceTypeOptions ic_daemonOverheadGroups]; try done.
  - intros k. apply amount_empty.
  - apply Add_wf; [apply Add_wf; [apply Add_wf; [apply map_Forall_empty|constructor]|by apply ReqValues_addable]|].
    constructor; [apply NewRequirementWithFlexibility_addable|constructor].
  - by intros pod d ?%not_elem_of_nil.
Qed.

Lemma claim_run_inv n0 n placed : claim_inv n0 [] → rtc claim_step (n0, []) (n, placed) → claim_inv n placed.
Proof.
  intros Hinit Hrun. remember (n0, []) as s0 eqn:Hs0. remember (n, placed) as s eqn:Hs.
  assert (claim_inv s0.1 s0.2) as Hinv by (by rewrite Hs0). clear Hs0 Hinit.
  assert (claim_inv s.1 s.2) as Hend; [|by rewrite Hs in Hend]. clear Hs.
  induction Hrun as [s|[n1 p1] [n2 p2] s Hstep _ IH]; [done|]. apply IH. by eapply claim_step_inv.
Qed.

(** Each option holds the pods placed and the daemons. *)
Lemma claim_inv_holds n placed it :
  claim_inv n placed → placed ≠ [] → it ∈ ic_InstanceTypeOptions n →
  ∃ g group o, g ∈ ic_daemonOverheadGroups n ∧ it ∈ dg_InstanceTypes g ∧
    group ∈ AllocatableOfferingsList overrideKey it ∧ o ∈ ao_Offerings group ∧
    offeringCompatible (ic_Requirements n) o = true ∧
    ∀ k, requestedOf placed k + amount (dg_DaemonOverhead g) k <= amount (ao_Allocatable group) k.
Proof.
  intros [Hpods Hreq Hnn _ _ Hopt Hov] Hsome Hit. destruct (Hopt Hsome) as [_ Hholds].
  destruct (Hholds it Hit) as (g & Hg & Hin & _ & group & o & Hgr & Ho & Hoc & Hfit).
  exists g, group, o. split_and!; [done..|]. intros k.
  apply Fits_amount in Hfit as [_ Hle]; [|apply groupRequests_nonneg; [done|by apply Hov]].
  specialize (Hle k). rewrite groupRequests_amount, Hreq in Hle. done.
Qed.

(** C2. Every instance type of an in-flight NodeClaim can hold all of its pods.
    However pods are added (each accepted by [CanAdd], with any changes to the
    shared state in between), the claim keeps at least one option, and each
    option has an available offering compatible with the claim's requirements
    whose nodes hold, for every resource, the requests of all pods placed so
    far and the daemon overhead of the option's group. *)
Theorem inflight_options_hold_pods pool host taints policy reqs groups its strict before n placed it
    (Hwf : Requirements_wf reqs) (Hov : ∀ g : DaemonOverheadGroup Q, g ∈ groups → nonneg (dg_DaemonOverhead g))
    (Hrun : rtc claim_step (NewInflightClaim pool host taints policy reqs groups its strict before, []) (n, placed))
    (Hsome : placed ≠ []) :
  ic_Pods n = placed.*1 ∧ ic_InstanceTypeOptions n ≠ [] ∧
  (it ∈ ic_InstanceTypeOptions n →
   ∃ g group o, g ∈ ic_daemonOverheadGroups n ∧ it ∈ dg_InstanceTypes g ∧
     group ∈ AllocatableOfferingsList overrideKey it ∧ o ∈ ao_Offerings group ∧
     offeringCompatible (ic_Requirements n) o = true ∧
     ∀ k, requestedOf placed k + amount (dg_DaemonOverhead g) k <= amount (ao_Allocatable group) k).
Proof.
  pose proof (claim_run_inv _ _ _ (NewInflightClaim_inv pool host taints policy reqs groups its strict before Hwf Hov) Hrun) as Hinv.
  split_and!; [apply Hinv|by apply (ci_options n placed Hinv)|]. by apply claim_inv_holds.
Qed.

(** C3. The requirements of an in-flight NodeClaim meet every pod placed on it:
    whatever value the claim still allows for a label is allowed by each pod's
    own requirements, and every pod tolerates the claim's taints. *)
Theorem inflight_requirements_meet_pods pool host taints policy reqs groups its strict before n placed pod d k v
    (Hwf : Requirements_wf reqs) (Hov : ∀ g : DaemonOverheadGroup Q, g ∈ groups → nonneg (dg_DaemonOverhead g))
    (Hrun : rtc claim_step (NewInflightClaim pool host taints policy reqs groups its strict before, []) (n, placed))
    (Hin : (pod, d) ∈ placed) (Hv : allows (ic_Requirements n) k v = true) :
  allows (pd_Requirements d) k v = true ∧ ToleratesPod (ic_Taints n) pod = [].
Proof.
  destruct (claim_run_inv _ _ _ (NewInflightClaim_inv pool host taints policy reqs groups its strict before Hwf Hov) Hrun)
    as [_ _ _ _ Hmet _ _].
  destruct (Hmet pod d Hin) as [Hnar ?]. split; [by apply Hnar|done].
Qed.
End run_theory.

(** ** Reservations of a NodeClaim *)

Section reservation_theory.
Context {LT : LabelTables} {LTok : LabelTablesOk} {PL : ProviderLabels} {TL : TaintLib} {GR : GoRange}
  {Q A : Type} `{Quantity Q} `{NetIP} {DA : DeviceAllocator Q A} {DAL : DeviceAllocatorLaws Q A}
  (overrideKey : Offering Q → string * string) (rand : Z → Z) (ReservedCapacity : bool).
Implicit Types (n : InflightClaim Q) (rm : ReservationManager) (o : Offering Q) (ofs : list (Offering Q))
  (reqs : Requirements) (h id : string).

(** A reserved offering the NodeClaim could launch with. *)
Definition reservedOption reqs o : bool :=
  bool_decide (CapacityType rand o = Some CapacityTypeReserved) && of_Available o && offeringCompatible reqs o.

Lemma reservable_spec n rm reqs ofs b acc b' out :
  reservable rand n rm reqs ofs b acc = Some (b', out) →
  b' = b || existsb (reservedOption reqs) ofs ∧
  out = acc ++ List.filter (λ o, reservedOption reqs o && bool_decide (CanReserve rand rm (ic_hostname n) o = Some true)) ofs ∧
  (∀ o, o ∈ ofs → reservedOption reqs o = true → is_Some (CanReserve rand rm (ic_hostname n) o)).
Proof.
  revert b acc. induction ofs as [|o ofs IH]; intros b acc; cbn [reservable existsb List.filter].
  { intros [= <- <-]. rewrite orb_false_r, app_nil_r. split_and!; [done..|]. by intros o ?%not_elem_of_nil. }
  destruct (CapacityType rand o) as [ct|] eqn:Hct; [|done]. simpl.
  assert (reservedOption reqs o = String.eqb ct CapacityTypeReserved && of_Available o && offeringCompatible reqs o) as Hopt.
  { unfold reservedOption. rewrite Hct. do 2 f_equal. apply bool_eq_iff. rewrite bool_decide_eq_true, String.eqb_eq. naive_solver. }
  rewrite Hopt.
  assert (∀ b'' acc'', reservedOption reqs o = false → reservable rand n rm reqs ofs b'' acc'' = Some (b', out) →
    b' = b'' || existsb (reservedOption reqs) ofs ∧
    out = acc'' ++ List.filter (λ o, reservedOption reqs o && bool_decide (CanReserve rand rm (ic_hostname n) o = Some true)) ofs ∧
    (∀ o', o' ∈ o :: ofs → reservedOption reqs o' = true → is_Some (CanReserve rand rm (ic_hostname n) o'))) as Hskip.
  { intros b'' acc'' Hno Hrun. apply IH in Hrun as (? & ? & Hcan). split_and!; [done..|].
    intros o' [->|Hin]%elem_of_cons Ho'; [congruence|by apply Hcan]. }
  destruct (String.eqb ct CapacityTypeReserved); cbn [negb orb andb] in *; [|by apply Hskip].
  destruct (of_Available o); cbn [negb andb] in *; [|by apply Hskip].
  destruct (offeringCompatible reqs o); cbn [negb andb] in *; [|by apply Hskip]. clear Hskip.
  destruct (CanReserve rand rm (ic_hostname n) o) as [can|] eqn:Hcr; [|done]. simpl. intros Hrun.
  apply IH in Hrun as (-> & -> & Hcan). rewrite !orb_true_l, orb_true_r. split_and!; [done| |].
  - destruct can; [|by rewrite bool_decide_eq_false_2]. by rewrite bool_decide_eq_true_2, <- app_assoc.
  - intros o' [->|Hin]%elem_of_cons Ho'; [eauto|by apply Hcan].
Qed.

(** What [offeringsToReserve] returns. *)
Lemma offeringsToReserve_Done n rm its reqs out :
  offeringsToReserve rand ReservedCapacity n rm its reqs = Done out →
  ∀ o, o ∈ out ↔ ReservedCapacity = true ∧ o ∈ mjoin (it_Offerings <$> its) ∧ reservedOption reqs o = true ∧
    CanReserve rand rm (ic_hostname n) o = Some true.
Proof.
  unfold offeringsToReserve. destruct ReservedCapacity; cbn [negb].
  2:{ intros [= <-] o. split; [by intros ?%not_elem_of_nil|by intros [? _]]. }
  intros Hrun. apply outcome_bind_Done in Hrun as ([b ofs] & Hr%orPanic_Done & Hrun).
  apply reservable_spec in Hr as (_ & Hofs & _). simpl in Hofs.
  assert (out = ofs) as -> by (repeat case_match; congruence). intros o. rewrite Hofs.
  rewrite list_elem_of_In, filter_In, <- list_elem_of_In, andb_true_iff, bool_decide_eq_true. tauto.
Qed.

Lemma releaseID_holds rm h id h' id' :
  holds (releaseID rm h id) h' id' = holds rm h' id' && negb (bool_decide (h' = h ∧ id' = id)).
Proof.
  unfold releaseID. destruct (reservations rm !! h) as [ids|] eqn:Hh.
  - case_bool_decide as Hin.
    + unfold holds. simpl. rewrite lookup_insert. destruct (decide (h = h')) as [<-|Hne].
      * rewrite Hh. apply bool_eq_iff.
        rewrite andb_true_iff, negb_true_iff, bool_decide_eq_false, !bool_decide_eq_true. set_solver.
      * rewrite (bool_decide_eq_false_2 (h' = h ∧ _)) by naive_solver. by rewrite andb_true_r.
    + case_bool_decide as Heq; [|by rewrite andb_true_r]. destruct Heq as [-> ->].
      unfold holds. rewrite Hh. by rewrite (bool_decide_eq_false_2 (id ∈ ids)).
  - case_bool_decide as Heq; [|by rewrite andb_true_r]. destruct Heq as [-> ->]. unfold holds. by rewrite Hh.
Qed.

(** Releasing what is no longer wanted. *)
Lemma releaseReservedOfferings_spec cap0 n rm current updated ids :
  capacity_ok cap0 → conserved cap0 rm → mapM (ReservationID rand) updated = Some ids →
  (∀ o, o ∈ current → is_Some (ReservationID rand o)) →
  ∃ rm', releaseReservedOfferings rand n rm current updated = Some rm' ∧ conserved cap0 rm' ∧
    ∀ h id, holds rm' h id = true ↔ holds rm h id = true ∧
      (h = ic_hostname n ∧ (id ∉ ids) ∧ (∃ o, o ∈ current ∧ ReservationID rand o = Some id) → False).
Proof.
  intros Hc Hrm Hids. unfold releaseReservedOfferings. rewrite Hids. cbn [mbind option_bind]. revert rm Hrm.
  induction current as [|o current IH]; intros rm Hrm Hcur; cbn [foldl].
  { exists rm. split_and!; [done..|]. intros h id. split; [|tauto]. intros ?. split; [done|].
    by intros (_ & _ & o & ?%not_elem_of_nil & _). }
  destruct (Hcur o) as [oid Hoid]; [apply list_elem_of_here|]. cbn [mbind option_bind]. rewrite Hoid.
  cbn [mbind option_bind].
  assert (∃ rm1, (if existsb (String.eqb oid) ids then Some rm else Release rand rm (ic_hostname n) [o]) = Some rm1 ∧
    conserved cap0 rm1 ∧ ∀ h id, holds rm1 h id = true ↔ holds rm h id = true ∧ (h = ic_hostname n ∧ (id ∉ ids) ∧ id = oid → False))
    as (rm1 & -> & Hrm1 & Hh1).
  { destruct (existsb (String.eqb oid) ids) eqn:Hex.
    - exists rm. split_and!; [done..|]. intros h id. apply existsb_exists in Hex as (x & Hx & Heq%String.eqb_eq).
      rewrite <- list_elem_of_In in Hx. subst x. split; [|tauto]. intros ?. split; [done|]. by intros (_ & ? & ->).
    - cbn [Release]. rewrite Hoid. simpl. eexists. split_and!; [done|by apply releaseID_conserved|]. intros h id.
      rewrite releaseID_holds, andb_true_iff, negb_true_iff, bool_decide_eq_false.
      assert (oid ∉ ids) as Hno.
      { intros Hin. apply not_true_iff_false in Hex. apply Hex, existsb_exists. exists oid.
        by rewrite <- list_elem_of_In, String.eqb_eq. }
      naive_solver. }
  destruct (IH rm1 Hrm1) as (rm' & Hrun & Hrm' & Hh'); [by intros o' ?; apply Hcur, list_elem_of_further|].
  exists rm'. split_and!; [done..|]. intros h id. rewrite Hh', Hh1. setoid_rewrite elem_of_cons. naive_solver.
Qed.

Lemma mapM_ids ofs :
  (∀ o, o ∈ ofs → is_Some (ReservationID rand o)) →
  ∃ ids, mapM (ReservationID rand) ofs = Some ids ∧ ∀ id, id ∈ ids ↔ ∃ o, o ∈ ofs ∧ ReservationID rand o = Some id.
Proof.
  induction ofs as [|o ofs IH]; intros Hall.
  { exists []. split; [done|]. intros id. split; [by intros ?%not_elem_of_nil|by intros (o & ?%not_elem_of_nil & _)]. }
  destruct (Hall o) as [oid Ho]; [apply list_elem_of_here|].
  destruct IH as (ids & Hm & Hids); [by intros o' ?; apply Hall, list_elem_of_further|].
  exists (oid :: ids). split; [simpl; by rewrite Ho, Hm|]. intros id. rewrite elem_of_cons, Hids. split.
  - intros [->|(o' & ? & ?)]; [exists o; split; [apply list_elem_of_here|done]|exists o'; split; [by apply list_elem_of_further|done]].
  - intros (o' & [->|Hin]%elem_of_cons & Ho'); [left; congruence|right; eauto].
Qed.

(** The NodeClaim's hostname holds exactly the reservations it lists. *)
Definition reserves n rm : Prop :=
  (∀ o, o ∈ ic_reservedOfferings n → is_Some (ReservationID rand o)) ∧
  ∀ id, holds rm (ic_hostname n) id = true ↔ ∃ o, o ∈ ic_reservedOfferings n ∧ ReservationID rand o = Some id.

(** Adding a pod [CanAdd] accepted succeeds and keeps the reservations. *)
Lemma AddPod_keeps cap0 n t rm (alloc : option A) pod d relax p
    (Hc : capacity_ok cap0) (Hrm : conserved cap0 rm) (Hres : reserves n rm)
    (Hwf : Requirements_wf (ic_Requirements n)) (Hd : podData_wf d)
    (Hcan : CanAdd overrideKey rand ReservedCapacity n t rm alloc pod d relax = Done p) :
  ∃ n' t' rm' alloc', AddPod rand n t rm alloc pod d p = Some (n', t', rm', alloc') ∧
    conserved cap0 rm' ∧ reserves n' rm' ∧ ic_hostname n' = ic_hostname n ∧
    ∀ h id, h ≠ ic_hostname n → holds rm' h id = holds rm h id.
Proof.
  destruct Hres as [Hids Hheld]. apply CanAdd_ok in Hcan; [|done|done]. destruct Hcan as [_ _ _ _ _ _ _ Hofs].
  pose proof (offeringsToReserve_Done _ _ _ _ _ Hofs) as Hout.
  assert (∀ o, o ∈ pl_OfferingsToReserve p → CanReserve rand rm (ic_hostname n) o = Some true) as Hcr by (intros o Ho; by apply Hout in Ho as (_ & _ & _ & ?)).
  assert (∀ o, o ∈ pl_OfferingsToReserve p → is_Some (ReservationID rand o)) as Hids'.
  { intros o Ho. apply Hcr, CanReserve_true in Ho as (id & ? & _). eauto. }
  destruct (Reserve_guarded rand rm (ic_hostname n) (pl_OfferingsToReserve p) cap0 Hc Hrm) as (rm1 & Hr1 & Hh1).
  { intros o Ho. apply Hcr, CanReserve_true in Ho as (id & Hid & Hok). exists id. split; [done|].
    destruct Hok as [?|[_ ?]]; auto. }
  assert (conserved cap0 rm1) as Hrm1.
  { apply (rm_step_conserved (Q := Q) rand cap0 rm); [done..|].
    by apply (step_reserve _ _ (ic_hostname n) (pl_OfferingsToReserve p)). }
  destruct (mapM_ids _ Hids') as (ids & Hm & Hids1).
  destruct (releaseReservedOfferings_spec cap0 n rm1 (ic_reservedOfferings n) (pl_OfferingsToReserve p) ids Hc Hrm1 Hm Hids)
    as (rm2 & Hr2 & Hrm2 & Hh2).
  unfold AddPod. rewrite Hr1. simpl. rewrite Hr2. simpl. do 4 eexists. split; [done|]. cbn [ic_hostname].
  split_and!; [done| |done|].
  - split; [done|]. intros id. cbn [ic_hostname ic_reservedOfferings]. rewrite Hh2, Hh1, Hheld, <- Hids1. split.
    + intros [[Hold|[_ Hnew]] Hnot]; [|done]. destruct (decide (id ∈ ids)); [done|]. destruct Hnot. auto.
    + intros Hin. split; [by right|]. tauto.
  - intros h id Hne. apply bool_eq_iff. rewrite Hh2, Hh1. naive_solver.
Qed.

Lemma AddPod_tracks n t rm (alloc : option A) pod d p n' t' rm' alloc' id :
  AddPod rand n t rm alloc pod d p = Some (n', t', rm', alloc') →
  is_Some (capacity rm !! id) → is_Some (capacity rm' !! id).
Proof.
  unfold AddPod. intros (rm1 & Hr & (rm2 & Hl & [= _ _ <- _])%bind_Some)%bind_Some Hid.
  apply (Reserve_tracks _ _ _ _ _ id Hr) in Hid. unfold releaseReservedOfferings in Hl.
  apply bind_Some in Hl as (ids & _ & Hl). clear Hr. revert rm1 Hl Hid.
  induction (ic_reservedOfferings n) as [|o l IH]; intros rm1; cbn [foldl]; [by intros [= <-]|].
  cbn [mbind option_bind]. destruct (ReservationID rand o) as [oid|] eqn:Ho.
  2:{ intros Hl. exfalso. clear -Hl. cbn [mbind option_bind] in Hl. induction l; [done|]. by apply IHl. }
  cbn [mbind option_bind]. destruct (existsb _ ids); [apply IH|]. cbn [Release]. rewrite Ho. cbn [mbind option_bind].
  intros Hl Hid. apply (IH _ Hl). by apply releaseID_tracks.
Qed.

(** Reservations follow the NodeClaim.  If the claim's hostname holds exactly
    the reservations the claim lists, then adding a pod [CanAdd] accepted does
    not panic, afterwards the hostname again holds exactly the (new) listed
    reservations (those no longer compatible are given back), the other
    hostnames hold what they held, and no reservation is lost or overdrawn. *)
Theorem AddPod_reserves cap0 n t rm (alloc : option A) pod d relax p
    (Hc : capacity_ok cap0) (Hrm : conserved cap0 rm) (Hres : reserves n rm)
    (Hwf : Requirements_wf (ic_Requirements n)) (Hd : podData_wf d)
    (Hcan : CanAdd overrideKey rand ReservedCapacity n t rm alloc pod d relax = Done p) :
  ∃ n' t' rm' alloc', AddPod rand n t rm alloc pod d p = Some (n', t', rm', alloc') ∧
    conserved cap0 rm' ∧ reserves n' rm' ∧ ic_hostname n' = ic_hostname n ∧
    ∀ h id, h ≠ ic_hostname n → holds rm' h id = holds rm h id.
Proof. by apply (AddPod_keeps cap0 n t rm alloc pod d relax p). Qed.

(** ** Panics *)

(** The labels [offeringsToReserve] reads are there: every offering has a
    capacity type, and a reserved one the id of a known reservation. *)
Definition offering_ok (known : gmap string Z) o : Prop :=
  is_Some (CapacityType rand o) ∧
  (CapacityType rand o = Some CapacityTypeReserved → ∃ id, ReservationID rand o = Some id ∧ is_Some (known !! id)).

Definition offerings_ok (known : gmap string Z) (groups : list (DaemonOverheadGroup Q)) : Prop :=
  ∀ g it o, g ∈ groups → it ∈ dg_InstanceTypes g → o ∈ it_Offerings it → offering_ok known o.

(** The manager knows these reservations. *)
Definition knows (known : gmap string Z) rm : Prop := ∀ id, is_Some (known !! id) → is_Some (capacity rm !! id).

Lemma reservable_total known n rm reqs ofs b acc :
  knows known rm → (∀ o, o ∈ ofs → offering_ok known o) → is_Some (reservable rand n rm reqs ofs b acc).
Proof.
  intros Hk. revert b acc. induction ofs as [|o ofs IH]; intros b acc Hofs; cbn [reservable]; [eauto|].
  assert (∀ o', o' ∈ ofs → offering_ok known o') as Hrest by (intros o' ?; by apply Hofs, list_elem_of_further).
  destruct (Hofs o (list_elem_of_here _ _)) as [[ct Hct] Hid]. rewrite Hct. cbn [mbind option_bind].
  destruct (String.eqb_spec ct CapacityTypeReserved) as [->|]; cbn [negb orb]; [|by apply IH].
  destruct (of_Available o); cbn [negb]; [|by apply IH].
  destruct (offeringCompatible reqs o); cbn [negb]; [|by apply IH].
  destruct (Hid Hct) as (id & Ho & Hs%Hk). unfold CanReserve. rewrite Ho. cbn [mbind option_bind].
  destruct (holds rm (ic_hostname n) id); cbn [mbind option_bind]; [by apply IH|].
  destruct Hs as [c ->]. cbn [mbind option_bind]. by apply IH.
Qed.

Lemma tryVolumeAlternative_no_panic known n t rm (alloc : option A) pod d base vol relax :
  knows known rm → offerings_ok known (ic_daemonOverheadGroups n) →
  tryVolumeAlternative overrideKey rand ReservedCapacity n t rm alloc pod d base vol relax ≠ Panic.
Proof.
  intros Hk Hofs. unfold tryVolumeAlternative.
  assert (∀ (E : Type) allow (err : E) m extra, narrow allow err m extra ≠ Panic) as Hnarrow.
  { intros E allow err m extra. unfold narrow. by destruct (Compatible _ _ _). }
  apply outcome_bind_no_panic; [destruct vol; [apply Hnarrow|done]|]. intros reqs _.
  apply outcome_bind_no_panic.
  { unfold allocateDevices. repeat case_match; try done. apply outcome_bind_no_panic; [apply Hnarrow|done]. }
  intros [reqs1 res] _. apply outcome_bind_no_panic; [by destruct (AddRequirements _ _ _ _ _ _)|]. intros reqs2 _.
  apply outcome_bind_no_panic; [apply Hnarrow|]. intros out _.
  destruct (filter_result overrideKey (ic_InstanceTypeOptions n) out pod (ic_daemonOverheadGroups n)
    (Merge [ic_Requests n; pd_Requests d]) relax) as [_ Hres].
  destruct (filterInstanceTypesByRequirements _ _ _ _ _ _ _) as [keys [e|rem]]; [done|]. cbn [fst snd] in *.
  destruct Hres as (-> & Hne & _). apply outcome_bind_no_panic.
  { unfold filterByDevices. repeat case_match; done. }
  intros its Hits. destruct (filterByDevices_Done _ _ _ Hits Hne) as [_ Hsub].
  apply outcome_bind_no_panic; [|done]. unfold offeringsToReserve. destruct ReservedCapacity; [|done]. cbn [negb].
  apply outcome_bind_no_panic; [|intros [b ofs] _; by repeat case_match].
  match goal with |- orPanic (reservable _ _ _ ?reqs _ _ _) ≠ _ =>
    destruct (reservable_total known n rm reqs (mjoin (it_Offerings <$> its)) false [] Hk) as [x ->]; [|done] end.
  intros o (ofs & Ho & (it & -> & Hit)%list_elem_of_fmap)%list_elem_of_join.
  apply Hsub, elem_of_survivors in Hit as (g & Hg & _ & Hin & _). by apply (Hofs g it o).
Qed.

(** [CanAdd] does not panic. *)
Lemma CanAdd_no_panic known n t rm (alloc : option A) pod d relax :
  knows known rm → offerings_ok known (ic_daemonOverheadGroups n) →
  CanAdd overrideKey rand ReservedCapacity n t rm alloc pod d relax ≠ Panic.
Proof.
  intros Hk Hofs. unfold CanAdd. case_bool_decide; [|done]. cbn [negb].
  apply outcome_bind_no_panic; [unfold narrow; by destruct (Compatible _ _ _)|]. intros base _.
  match goal with |- context [tryAlternatives _ _ _ _ _ _ _ _ _ _ _ ?alts ?err ?b] =>
    generalize err; generalize b; generalize alts end.
  intros alts. induction alts as [|v alts IH]; intros b err; cbn [tryAlternatives]; [done|].
  pose proof (tryVolumeAlternative_no_panic known n t rm alloc pod d base v relax Hk Hofs).
  destruct (tryVolumeAlternative _ _ _ _ _ _ _ _ _ _ _ _); [done|apply IH|done].
Qed.

(** In strict mode reserved capacity is never given up silently: when
    [offeringsToReserve] succeeds without any reservation for a NodeClaim, no
    instance type left has a compatible available reserved offering, and the
    claim held none before. *)
Theorem strict_mode_keeps_reservations n rm its reqs
    (Hstrict : ic_strict n = true) (Hgate : ReservedCapacity = true)
    (Hrun : offeringsToReserve rand ReservedCapacity n rm its reqs = Done []) :
  ic_reservedOfferings n = [] ∧
  ∀ it o, it ∈ its → o ∈ it_Offerings it → reservedOption reqs o = false.
Proof.
  unfold offeringsToReserve in Hrun. rewrite Hgate in Hrun. cbn [negb] in Hrun.
  apply outcome_bind_Done in Hrun as ([b ofs] & Hr%orPanic_Done & Hrun). rewrite Hstrict in Hrun. cbn [andb] in Hrun.
  apply reservable_spec in Hr as (Hb & _ & _). simpl in Hb.
  assert (b = false ∧ ic_reservedOfferings n = []) as [-> Hnone].
  { destruct ofs; [|by repeat case_match]. destruct b; cbn [andb] in Hrun; [by rewrite bool_decide_eq_true_2 in Hrun|].
    split; [done|]. destruct (ic_reservedOfferings n); [done|]. by rewrite bool_decide_eq_false_2 in Hrun. }
  split; [done|]. intros it o Hit Ho. apply not_true_iff_false. intros Hopt. symmetry in Hb. apply not_true_iff_false in Hb.
  apply Hb, existsb_exists. exists o. split; [|done]. apply list_elem_of_In, list_elem_of_join.
  exists (it_Offerings it). split; [done|by apply list_elem_of_fmap_2].
Qed.
End reservation_theory.

(** The overhead of a group without daemons is overwritten: when the first
    remaining group has none, the "minimum" is the overhead of the second. *)
Theorem minDaemonOverhead_skips_empty {Q : Type} `{Quantity Q} `{NetIP} (n : InflightClaim Q) g1 g2
    (Hg : ic_daemonOverheadGroups n = [g1; g2]) (H1 : dg_DaemonOverhead g1 = ∅)
    (Hr1 : existsb (eligible (ic_InstanceTypeOptions n)) (dg_InstanceTypes g1) = true)
    (Hr2 : existsb (eligible (ic_InstanceTypeOptions n)) (dg_InstanceTypes g2) = true) :
  minDaemonOverhead n = dg_DaemonOverhead g2.
Proof.
  unfold minDaemonOverhead. rewrite Hg. cbn [foldl]. rewrite Hr1, Hr2, H1.
  by rewrite bool_decide_eq_true_2 by apply map_size_empty.
Qed.

(** * Witnesses *)

Section witnesses.
#[local] Existing Instance karpenterLabels.
#[local] Existing Instance karpenterLabels_ok.
#[local] Existing Instance keyTaintLib.
#[local] Existing Instance map_to_list_GoRange.
#[local] Existing Instance textIP.

#[local] Instance reservingProvider : ProviderLabels := {|
  WellKnownLabels := {[CapacityTypeLabelKey; InstanceTypes.LabelTopologyZone; "example.com/reservation-id"%string]};
  ReservationIDLabel := "example.com/reservation-id";
|}.

(** An allocator without devices. *)
#[local] Instance noDevices : DeviceAllocator Z unit := {|
  Allocate := λ _ _ _, None; Commit := λ a _, a; ReleaseInstanceType := λ a _ _, a;
|}.
#[local] Instance noDevicesLaws : DeviceAllocatorLaws Z unit.
Proof. constructor. discriminate. Defined.

Definition reservedType : InstanceType Z :=
  mkInstanceType "r" ∅ [reservedOffering] {["cpu"%string := 4]} (mkOverhead ∅ ∅ ∅).
Definition daemonGroup : DaemonOverheadGroup Z := mkOverheadGroup [reservedType] {["cpu"%string := 1]} ∅.
Definition emptyClaim : InflightClaim Z :=
  NewInflightClaim "pool" "host-1" [] PackingPolicyBinpack ∅ [daemonGroup] [reservedType] true None.
Definition twoCPUData : PodData Z := mkPodData {["cpu"%string := 2]} ∅ ∅ false [] [] false.
Definition noTopology : Topology := mkTopology ∅ ∅.
Definition sameKey (o : Offering Z) : string * string := ("k", "k")%string.

Definition firstPlacement : Placement Z :=
  match CanAdd sameKey (λ _, 0) true emptyClaim noTopology startManager (None : option unit) webPod twoCPUData false with
  | Done p => p
  | _ => mkPlacement ∅ [] [] None
  end.

Definition filledClaim : InflightClaim Z :=
  match AddPod (λ _, 0) emptyClaim noTopology startManager (None : option unit) webPod twoCPUData firstPlacement with
  | Some (n, _, _, _) => n
  | None => emptyClaim
  end.

Lemma twoCPUData_wf : podData_wf twoCPUData.
Proof. split; [apply map_Forall_empty|constructor]. Qed.

Lemma filledClaim_run : rtc (claim_step (A := unit) sameKey (λ _, 0) true) (emptyClaim, []) (filledClaim, [(webPod, twoCPUData)]).
Proof.
  apply rtc_once. eapply (claim_add _ _ _ emptyClaim [] noTopology startManager None webPod twoCPUData false firstPlacement).
  - apply twoCPUData_wf.
  - intros k x Hx. cbn [twoCPUData pd_Requests] in Hx. apply lookup_singleton_Some in Hx as [_ <-]. vm_compute. discriminate.
  - vm_compute. reflexivity.
  - vm_compute. reflexivity.
Qed.

Lemma daemonGroup_nonneg (g : DaemonOverheadGroup Z) : g ∈ [daemonGroup] → nonneg (dg_DaemonOverhead g).
Proof.
  intros ->%list_elem_of_singleton k x Hx. cbn [daemonGroup dg_DaemonOverhead] in Hx. apply lookup_singleton_Some in Hx as [_ <-]. vm_compute. discriminate.
Qed.

Lemma inflight_options_hold_pods_witness :
  ic_Pods filledClaim = [webPod] ∧ ic_InstanceTypeOptions filledClaim ≠ [].
Proof.
  destruct (inflight_options_hold_pods (A := unit) sameKey (λ _, 0) true "pool" "host-1" [] PackingPolicyBinpack ∅ [daemonGroup] [reservedType]
    true None filledClaim [(webPod, twoCPUData)] reservedType) as (Hp & Hne & _).
  - apply map_Forall_empty.
  - apply daemonGroup_nonneg.
  - apply filledClaim_run.
  - discriminate.
  - split; [exact Hp|exact Hne].
Defined.

Lemma inflight_requirements_meet_pods_witness : allows ∅ "any" "value" = true ∧ ToleratesPod (ic_Taints filledClaim) webPod = [].
Proof.
  refine (inflight_requirements_meet_pods (A := unit) sameKey (λ _, 0) true "pool" "host-1" [] PackingPolicyBinpack ∅ [daemonGroup] [reservedType]
    true None filledClaim [(webPod, twoCPUData)] webPod twoCPUData "any" "value" _ _ _ _ _).
  - apply map_Forall_empty.
  - apply daemonGroup_nonneg.
  - apply filledClaim_run.
  - apply list_elem_of_here.
  - vm_compute. reflexivity.
Defined.

Lemma AddPod_reserves_witness :
  ∃ n' t' rm' alloc',
    AddPod (λ _, 0) emptyClaim noTopology startManager (None : option unit) webPod twoCPUData firstPlacement =
      Some (n', t', rm', alloc') ∧ conserved startCapacity rm'.
Proof.
  destruct (AddPod_reserves (A := unit) sameKey (λ _, 0) true startCapacity emptyClaim noTopology startManager None webPod
    twoCPUData false firstPlacement) as (n' & t' & rm' & alloc' & Ha & Hc & _).
  - exact startCapacity_ok.
  - exact startManager_conserved.
  - split; [by intros o ?%not_elem_of_nil|]. intros id. split; [discriminate|]. by intros (o & ?%not_elem_of_nil & _).
  - apply (ci_wf sameKey emptyClaim []). apply NewInflightClaim_inv; [apply map_Forall_empty|apply daemonGroup_nonneg].
  - apply twoCPUData_wf.
  - vm_compute. reflexivity.
  - exists n', t', rm', alloc'. split; [exact Ha|exact Hc].
Defined.

Lemma strict_mode_keeps_reservations_witness : ic_reservedOfferings emptyClaim = [].
Proof.
  refine (proj1 (strict_mode_keeps_reservations sameKey (λ _, 0) true emptyClaim startManager [] ∅ _ _ _)); vm_compute; reflexivity.
Defined.

Lemma minDaemonOverhead_skips_empty_witness :
  minDaemonOverhead (NewInflightClaim "pool" "host-1" [] PackingPolicyBinpack ∅
    [mkOverheadGroup [reservedType] ∅ ∅; daemonGroup] [reservedType] true None) = {["cpu"%string := 1]}.
Proof.
  refine (minDaemonOverhead_skips_empty _ (mkOverheadGroup [reservedType] ∅ ∅) daemonGroup _ _ _ _); vm_compute; reflexivity.
Defined.
End witnesses.
