(* ===== verification/ExistingNode.v ===== *)
(** * Scheduling onto existing nodes

    Model of [pkg/controllers/provisioning/scheduling/existingnode.go]: what is
    left of a node after the daemons still to come, whether a pod can be added
    to it, and adding it.  The topology and the device allocator are shared with
    the other nodes and passed explicitly. *)

From S2P Require Import Prelude Strconv Float64 Requirement Kube Taints HostPorts Volumes PodUtils Requirements Resources StateNode InstanceTypes ReservationManager TopologyGroup Topology NodeClaim.

Record ExistingNode (Q : Type) `{NetIP} := mkExisting {
  en_StateNode : StateNode Q;
  en_cachedTaints : list Taint;
  en_Pods : list Pod;
  en_remainingResources : ResourceList Q;
  en_requirements : Requirements;
  en_isUnderConsolidateAfter : bool;
  en_instanceType : option (InstanceType Q);
}.
Arguments mkExisting {Q _}.
Arguments en_StateNode {Q _}.
Arguments en_cachedTaints {Q _}.
Arguments en_Pods {Q _}.
Arguments en_remainingResources {Q _}.
Arguments en_requirements {Q _}.
Arguments en_isUnderConsolidateAfter {Q _}.
Arguments en_instanceType {Q _}.

(** Simulating an allocation on a node that exists. *)
Class NodeDeviceAllocator (Q A : Type) `{NetIP} := {
  AllocateOnNode : A → ExistingNode Q → list NamespacedName → option AllocationResult;
}.

Inductive ExistingNodeError :=
  | NodeTaintsNotTolerated
  | VolumeLimitExceeded (driver : string)
  | HostPortConflict
  | ExceedsNodeResources
  | NodeIncompatible
  | NodeIncompatibleVolumes
  | NodeTopologyUnsatisfiable
  | NodeTopologyIncompatible
  | NodeResourceClaimErr
  | NodeAllocationFailed.

Section existing.
Context {LT : LabelTables} {TL : TaintLib} {GR : GoRange} {PS : Parsers} {SA : StorageAPI}
  {Q A : Type} `{Quantity Q} {NI : NetIP} {PR : PodResources Q} {DA : DeviceAllocator Q A} {NDA : NodeDeviceAllocator Q A}.
Implicit Types (n : ExistingNode Q) (t : Topology) (pod : Pod) (podData : PodData Q) (alloc : option A)
  (requirements : Requirements).

(** [v.AsApproximateFloat64() < 0] *)
Definition isNegative (v : Q) : bool := match qcmp v qzero with Lt => true | _ => false end.

Definition existingNodeResources (n : StateNode Q) (daemonResources : ResourceList Q) : option (ResourceList Q) :=
  let daemonResources := default ∅ (SubtractFrom (Some daemonResources) (DaemonSetRequests n)) in
  let daemonResources := (λ v, if isNegative v then qofint 0 else v) <$> daemonResources in
  available ← AvailableResources n;
  Some (Subtract available daemonResources).

(** The node, and the topology with its hostname registered. *)
Definition newExistingNodeWithResources (n : StateNode Q) t (taints : list Taint) requirements (remaining : ResourceList Q)
    (instanceType : option (InstanceType Q)) (isUnderConsolidateAfter : bool) : option (ExistingNode Q * Topology) :=
  hostname ← HostName n;
  Some (mkExisting n taints [] remaining requirements isUnderConsolidateAfter instanceType,
        RegisterDomain t LabelHostname hostname).

Definition NewExistingNode (n : StateNode Q) t (taints : list Taint) requirements (daemonResources : ResourceList Q)
    (instanceType : option (InstanceType Q)) (isUnderConsolidateAfter : bool) : option (ExistingNode Q * Topology) :=
  remaining ← existingNodeResources n daemonResources;
  newExistingNodeWithResources n t taints requirements remaining instanceType isUnderConsolidateAfter.

Definition nodeAlternative n t pod podData (baseRequirements : Requirements) (volReqs : option Requirements)
    : outcome ExistingNodeError Requirements :=
  let requirements := NewRequirements (ReqValues baseRequirements) in
  requirements ← match volReqs with
                 | Some v => narrow ∅ NodeIncompatibleVolumes requirements v
                 | None => Done requirements
                 end;
  topologyRequirements ←
    match AddRequirements t pod (en_cachedTaints n) (pd_StrictRequirements podData) requirements ∅ with
    | inl _ => Fail NodeTopologyUnsatisfiable
    | inr out => Done out
    end;
  narrow ∅ NodeTopologyIncompatible requirements topologyRequirements.

(** The loop over the volume alternatives.  An unresolved claim ends it. *)
Fixpoint nodeAlternatives n t alloc pod podData baseRequirements (alternatives : list (option Requirements))
    (lastErr : ExistingNodeError) : outcome ExistingNodeError (Requirements * option AllocationResult) :=
  match alternatives with
  | [] => Fail lastErr
  | volReqs :: rest =>
      match nodeAlternative n t pod podData baseRequirements volReqs with
      | Panic => Panic
      | Fail err => nodeAlternatives n t alloc pod podData baseRequirements rest err
      | Done reqs =>
          match alloc with
          | Some a =>
              if pd_HasResourceClaimRequests podData then
                if pd_ResourceClaimErr podData then Fail NodeResourceClaimErr
                else
                  match AllocateOnNode a n (pd_ResourceClaims podData) with
                  | None => nodeAlternatives n t alloc pod podData baseRequirements rest NodeAllocationFailed
                  | Some result => Done (reqs, Some result)
                  end
              else Done (reqs, None)
          | None => Done (reqs, None)
          end
      end
  end.

Definition CanAddToNode n t alloc pod podData (vols : Volumes)
    : outcome ExistingNodeError (Requirements * option AllocationResult) :=
  if negb (bool_decide (ToleratesPod (en_cachedTaints n) pod = [])) then Fail NodeTaintsNotTolerated
  else
    match ExceedsLimits (volumeUsage (en_StateNode n)) vols with
    | Some driver => Fail (VolumeLimitExceeded driver)
    | None =>
        match HostPortConflicts (hostPortUsage (en_StateNode n)) pod (GetHostPorts pod) with
        | Some _ => Fail HostPortConflict
        | None =>
            if negb (Fits (pd_Requests podData) (en_remainingResources n)) then Fail ExceedsNodeResources
            else
              match Compatible (en_requirements n) (pd_Requirements podData) ∅ with
              | Some _ => Fail NodeIncompatible
              | None =>
                  let baseRequirements :=
                    Add (NewRequirements (ReqValues (en_requirements n))) (ReqValues (pd_Requirements podData)) in
                  let volumeAlternatives :=
                    match pd_VolumeRequirements podData with [] => [None] | vs => Some <$> vs end in
                  nodeAlternatives n t alloc pod podData baseRequirements volumeAlternatives NodeTopologyIncompatible
              end
        end
    end.

(** The cached node with the pod's ports and volumes. *)
Definition occupy (n : StateNode Q) pod (vols : Volumes) : StateNode Q :=
  mkStateNode (sn_Node n) (sn_NodeClaim n) (daemonSetRequests n) (daemonSetLimits n) (podRequests n) (podLimits n)
    (podDisruptionCosts n) (podRequestsTotal n) (daemonSetRequestsTotal n)
    (AddHostPorts (hostPortUsage n) pod (GetHostPorts pod)) (AddPodVolumes (volumeUsage n) pod vols)
    (markedForDeletion n) (nominatedUntil n).

(** The node and the shared state after [Add]. *)
Definition AddToNode n t alloc pod podData (nodeRequirements : Requirements) (vols : Volumes)
    (allocation : option AllocationResult) : ExistingNode Q * Topology * option A :=
  (mkExisting (occupy (en_StateNode n) pod vols) (en_cachedTaints n) (en_Pods n ++ [pod])
     (default ∅ (SubtractFrom (Some (en_remainingResources n)) (pd_Requests podData))) nodeRequirements
     (en_isUnderConsolidateAfter n) (en_instanceType n),
   RecordPlacement t pod (en_cachedTaints n) nodeRequirements ∅,
   match alloc, allocation with
   | Some a, Some result => if ar_hasAllocation result then Some (Commit a result) else Some a
   | alloc, _ => alloc
   end).
End existing.

(** * Theory *)

(** ** Requirements pinned to one value *)

Section pinned_theory.
Context {LT : LabelTables} {LTok : LabelTablesOk}.
Implicit Types (m extra : Requirements) (k v : string).

(** The requirements allow exactly the value [v] for [k], as the requirements
    made from a node's labels do. *)
Definition pinned m k v : Prop := is_Some (m !! k) ∧ ∀ x, allows m k x = true ↔ x = v.

Lemma excluding_not_pinned r v : wf r → excludesPresence (Operator r) = true → ¬ ∀ x, Has r x = true ↔ x = v.
Proof.
  intros Hwf Hop Hp. rewrite Operator_spec in Hop. destruct (complement r) eqn:Hc.
  - destruct (bounds_inhabited ({[v]} ∪ values r) (gte r) (lte r)) as (w & Hw & Hb); [eauto with go..|].
    assert (Has r w = true) as ->%Hp; [|set_solver]. apply Has_spec. rewrite Hc. set_solver.
  - case_bool_decide as He; [|done]. assert (Has r v = true) as Hv by (by apply Hp).
    apply Has_spec in Hv. rewrite Hc, He in Hv. set_solver.
Qed.

(** Requirements compatible with pinned ones allow the pinned value. *)
Lemma Compatible_pinned m extra allow k v :
  Requirements_wf m → Requirements_wf extra → Compatible m extra allow = None → pinned m k v → allows extra k v = true.
Proof.
  intros Hm He Hc [[r Hr] Hp]. apply Compatible_None in Hc as [_ Hc]; [|done|done].
  unfold allows. destruct (extra !! k) as [q|] eqn:Hq; [|done].
  assert (∀ x, Has r x = true ↔ x = v) as Hrv by (intros x; rewrite <- Hp; unfold allows; by rewrite Hr).
  destruct (Requirements_wf_lookup m k r Hm Hr) as (_ & _ & Hwr).
  destruct (Hc k r q Hr Hq) as ([x|] & Hsr & Hsq).
  - simpl in Hsr, Hsq. apply Hrv in Hsr as ->. done.
  - rewrite satisfies_None in Hsr. by destruct (excluding_not_pinned r v Hwr Hsr).
Qed.

Lemma Add_is_Some m l k : Forall addable l → is_Some (m !! k) → is_Some (Add m l !! k).
Proof.
  intros Hl. revert m. induction Hl as [|r l Hr Hl IH]; intros m Hm; [done|]. apply IH.
  rewrite Add1_lookup by done. case_decide; [eauto|done].
Qed.

Lemma narrow_pinned {E : Type} allow (err : E) m extra out k v :
  narrow allow err m extra = Done out → Requirements_wf m → Requirements_wf extra → pinned m k v → pinned out k v.
Proof.
  unfold narrow. destruct (Compatible _ _ _) eqn:Hc; [done|]. intros [= <-] Hm He Hp.
  pose proof (Compatible_pinned _ _ _ _ _ Hm He Hc Hp) as Hv. destruct Hp as [Hs Hp].
  split; [apply Add_is_Some; [by apply ReqValues_addable|done]|]. intros x.
  rewrite allows_Add_Values, andb_true_iff, Hp by done. naive_solver.
Qed.
End pinned_theory.

(** ** What [CanAdd] guarantees *)

Section canadd_theory.
Context {LT : LabelTables} {LTok : LabelTablesOk} {TL : TaintLib} {GR : GoRange}
  {Q A : Type} `{Quantity Q} {NI : NetIP} {DA : DeviceAllocator Q A} {NDA : NodeDeviceAllocator Q A}.
Implicit Types (n : ExistingNode Q) (t : Topology) (pod : Pod) (d : PodData Q) (alloc : option A) (reqs : Requirements).

Record node_placement_ok n pod d (vols : Volumes) reqs : Prop := {
  np_wf : Requirements_wf reqs;
  np_node : narrower reqs (en_requirements n);
  np_pod : narrower reqs (pd_Requirements d);
  np_volume : pd_VolumeRequirements d = [] ∨ ∃ vr, vr ∈ pd_VolumeRequirements d ∧ narrower reqs vr;
  np_pinned : ∀ k v, pinned (en_requirements n) k v → pinned reqs k v;
  np_taints : ToleratesPod (en_cachedTaints n) pod = [];
  np_limits : ExceedsLimits (volumeUsage (en_StateNode n)) vols = None;
  np_ports : HostPortConflicts (hostPortUsage (en_StateNode n)) pod (GetHostPorts pod) = None;
  np_fits : Fits (pd_Requests d) (en_remainingResources n) = true;
}.

Lemma nodeAlternative_Done n t pod d base vol out :
  Requirements_wf base → (∀ vr, vol = Some vr → Requirements_wf vr) →
  nodeAlternative n t pod d base vol = Done out →
  Requirements_wf out ∧ narrower out base ∧ (∀ vr, vol = Some vr → narrower out vr) ∧
  ∀ k v, pinned base k v → pinned out k v.
Proof.
  intros Hb Hv Hrun. unfold nodeAlternative in Hrun. rewrite NewRequirements_Values in Hrun by done.
  apply outcome_bind_Done in Hrun as (reqs & H1 & Hrun). apply outcome_bind_Done in Hrun as (treqs & H2 & Hrun).
  assert (Requirements_wf reqs ∧ narrower reqs base ∧ (∀ vr, vol = Some vr → narrower reqs vr) ∧
    ∀ k v, pinned base k v → pinned reqs k v) as (Hw & Hn & Hnv & Hp).
  { destruct vol as [vr|]; [|by injection H1 as <-]. specialize (Hv vr eq_refl).
    pose proof (narrow_Done _ _ _ _ _ H1 Hb Hv) as (? & ? & ?). split_and!; [done|done|by intros ? [= <-]|].
    intros k v. by apply (narrow_pinned _ _ _ _ _ k v H1). }
  destruct (AddRequirements _ _ _ _ _ _) as [|treqs'] eqn:H3; [done|]. injection H2 as ->.
  assert (Requirements_wf treqs) as Hwt.
  { unfold AddRequirements in H3. rewrite NewRequirements_Values in H3 by done.
    pose proof (addTopologies_spec pod (pd_StrictRequirements d) reqs
      (getMatchingTopologies t pod (en_cachedTaints n) reqs ∅) reqs Hw) as Hspec.
    rewrite H3 in Hspec. tauto. }
  pose proof (narrow_Done _ _ _ _ _ Hrun Hw Hwt) as (Hwo & Hno & _). split_and!; [done|by rewrite Hno|..].
  - intros vr Hvr. rewrite Hno. by apply Hnv.
  - intros k v Hk. apply (narrow_pinned _ _ _ _ _ k v Hrun Hw Hwt). by apply Hp.
Qed.

Lemma nodeAlternatives_Done n t alloc pod d base alts err out res :
  nodeAlternatives n t alloc pod d base alts err = Done (out, res) →
  ∃ vol, vol ∈ alts ∧ nodeAlternative n t pod d base vol = Done out.
Proof.
  revert err. induction alts as [|vol alts IH]; intros err; cbn [nodeAlternatives]; [done|].
  assert (∀ err', nodeAlternatives n t alloc pod d base alts err' = Done (out, res) →
    ∃ vol', vol' ∈ vol :: alts ∧ nodeAlternative n t pod d base vol' = Done out) as Hlater.
  { intros err' (vol' & ? & ?)%IH. exists vol'. split; [by apply list_elem_of_further|done]. }
  destruct (nodeAlternative n t pod d base vol) as [|e|reqs] eqn:Hv; [done|apply Hlater|].
  assert (Done (E := ExistingNodeError) reqs = Done out → ∃ vol', vol' ∈ vol :: alts ∧ nodeAlternative n t pod d base vol' = Done out) as Hhere.
  { intros [= <-]. exists vol. split; [apply list_elem_of_here|done]. }
  destruct alloc as [a|]; [|intros [= <- _]; by apply Hhere].
  destruct (pd_HasResourceClaimRequests d); [|intros [= <- _]; by apply Hhere].
  destruct (pd_ResourceClaimErr d); [done|]. destruct (AllocateOnNode _ _ _); [|apply Hlater].
  intros [= <- _]. by apply Hhere.
Qed.

Lemma CanAddToNode_no_panic n t alloc pod d vols : CanAddToNode n t alloc pod d vols ≠ Panic.
Proof.
  assert (∀ (E : Type) allow (err : E) m extra, narrow allow err m extra ≠ Panic) as Hnarrow.
  { intros E allow err m extra. unfold narrow. by destruct (Compatible _ _ _). }
  assert (∀ base vol, nodeAlternative n t pod d base vol ≠ Panic) as Halt.
  { intros base vol. unfold nodeAlternative. apply outcome_bind_no_panic; [destruct vol; [apply Hnarrow|done]|].
    intros reqs _. apply outcome_bind_no_panic; [by destruct (AddRequirements _ _ _ _ _ _)|]. intros. apply Hnarrow. }
  assert (∀ base alts err, nodeAlternatives n t alloc pod d base alts err ≠ Panic) as Halts.
  { intros base alts. induction alts as [|v alts IH]; intros err; cbn [nodeAlternatives]; [done|].
    specialize (Halt base v). destruct (nodeAlternative n t pod d base v); [done|apply IH|]. repeat case_match; done || apply IH. }
  unfold CanAddToNode. repeat case_match; done || apply Halts.
Qed.

Lemma CanAddToNode_ok n t alloc pod d vols out res :
  Requirements_wf (en_requirements n) → podData_wf d →
  CanAddToNode n t alloc pod d vols = Done (out, res) → node_placement_ok n pod d vols out.
Proof.
  intros Hn [Hd Hvs] Hrun. unfold CanAddToNode in Hrun. case_bool_decide as Htol; [|done]. cbn [negb] in Hrun.
  destruct (ExceedsLimits _ _) eqn:Hl; [done|]. destruct (HostPortConflicts _ _ _) eqn:Hp; [done|].
  destruct (Fits _ _) eqn:Hf; [|done]. cbn [negb] in Hrun. rewrite NewRequirements_Values in Hrun by done.
  assert (narrow ∅ NodeIncompatible (en_requirements n) (pd_Requirements d) =
    match Compatible (en_requirements n) (pd_Requirements d) ∅ with
    | Some _ => Fail NodeIncompatible | None => Done (Add (en_requirements n) (ReqValues (pd_Requirements d))) end) as Hbase by done.
  destruct (Compatible _ _ _); [done|]. set (base := Add _ _) in *.
  pose proof (narrow_Done _ _ _ _ _ Hbase Hn Hd) as (Hbw & Hbn & Hbd).
  apply nodeAlternatives_Done in Hrun as (vol & Hin & Hrun).
  assert (∀ vr, vol = Some vr → vr ∈ pd_VolumeRequirements d) as Hvol.
  { intros v ->. destruct (pd_VolumeRequirements d) as [|v0 vs]; [by apply list_elem_of_singleton in Hin|].
    by apply list_elem_of_fmap in Hin as (v' & [= ->] & ?). }
  rewrite Forall_forall in Hvs.
  apply nodeAlternative_Done in Hrun as (Hw & Hob & Hov & Hop); [|done|by intros v ?%Hvol; apply Hvs].
  split; [done|by rewrite Hob|by rewrite Hob| | |done..].
  - destruct vol as [v|]; [right; exists v; auto|left].
    destruct (pd_VolumeRequirements d) as [|v0 vs]; [done|]. by apply list_elem_of_fmap in Hin as (? & ? & _).
  - intros k v Hk. apply Hop. by apply (narrow_pinned _ _ _ _ _ k v Hbase).
Qed.
End canadd_theory.

(** ** Runs of a node *)

Section run_theory.
Context {LT : LabelTables} {LTok : LabelTablesOk} {TL : TaintLib} {GR : GoRange} {PS : Parsers} {SA : StorageAPI}
  {Q A : Type} `{QuantityLaws Q} {NI : NetIP} {NIL : NetIPLaws} {PR : PodResources Q} {DA : DeviceAllocator Q A}
  {NDA : NodeDeviceAllocator Q A}.
Implicit Types (n : ExistingNode Q) (placed : list (Pod * PodData Q)) (k v : string) (vols : Volumes).

(** Adding a pod that [CanAdd] accepted; the topology and the allocator may
    change in any way between two additions. *)
Inductive existing_step : ExistingNode Q * list (Pod * PodData Q) → ExistingNode Q * list (Pod * PodData Q) → Prop :=
  | existing_add n placed t (alloc : option A) pod d vols reqs res n' t' alloc' :
      podData_wf d → nonneg (pd_Requests d) →
      CanAddToNode n t alloc pod d vols = Done (reqs, res) →
      AddToNode n t alloc pod d reqs vols res = (n', t', alloc') →
      existing_step (n, placed) (n', placed ++ [(pod, d)]).

(** Every limited driver is within its limit. *)
Definition within_limits (vu : VolumeUsage) : Prop :=
  ∀ driver limit, limits vu !! driver = Some limit → 0 <= limit →
    Z.of_nat (size (claims (volumes vu) driver)) <= limit.

Record existing_inv n0 n placed : Prop := {
  ei_pods : en_Pods n = en_Pods n0 ++ placed.*1;
  ei_taints : en_cachedTaints n = en_cachedTaints n0;
  ei_remaining : ∀ k, amount (en_remainingResources n) k = amount (en_remainingResources n0) k - requestedOf placed k;
  ei_nonneg : placed ≠ [] → nonneg (en_remainingResources n);
  ei_wf : Requirements_wf (en_requirements n);
  ei_met : ∀ pod d, (pod, d) ∈ placed →
    narrower (en_requirements n) (pd_Requirements d) ∧ ToleratesPod (en_cachedTaints n0) pod = [];
  ei_pinned : ∀ k v, pinned (en_requirements n0) k v → pinned (en_requirements n) k v;
  ei_ports : ports_disjoint (hostPortUsage (en_StateNode n0)) → ports_disjoint (hostPortUsage (en_StateNode n));
  ei_driverLimits : limits (volumeUsage (en_StateNode n)) = limits (volumeUsage (en_StateNode n0));
  ei_limits : placed ≠ [] → within_limits (volumeUsage (en_StateNode n));
}.

Lemma existing_inv_init n : Requirements_wf (en_requirements n) → existing_inv n n [].
Proof.
  intros Hwf. split; try done.
  - by rewrite fmap_nil, app_nil_r.
  - intros k. change (requestedOf [] k) with 0. lia.
  - by intros pod d ?%not_elem_of_nil.
Qed.

Lemma existing_add_inv n0 n placed t (alloc : option A) pod d vols reqs res :
  podData_wf d → nonneg (pd_Requests d) →
  CanAddToNode n t alloc pod d vols = Done (reqs, res) → existing_inv n0 n placed →
  existing_inv n0 (AddToNode n t alloc pod d reqs vols res).1.1 (placed ++ [(pod, d)]).
Proof.
  intros Hd Hnn Hcan [Hpods Ht Hrem _ Hwf Hmet Hpin Hports Hlim _].
  destruct (CanAddToNode_ok n t alloc pod d vols reqs res Hwf Hd Hcan) as [Hw Hn Hp _ Hpn Htol Hvl Hpo Hf].
  unfold AddToNode. split; cbn [en_Pods en_cachedTaints en_remainingResources en_requirements en_StateNode fst snd
    occupy hostPortUsage volumeUsage]; try done.
  - by rewrite Hpods, fmap_app, app_assoc.
  - intros k. fold (subtracted (en_remainingResources n) (pd_Requests d)).
    rewrite amount_subtracted, Hrem, requestedOf_snoc. lia.
  - intros _. fold (subtracted (en_remainingResources n) (pd_Requests d)).
    apply Fits_amount in Hf as [Hr Hle]; [|done]. by apply nonneg_subtracted.
  - intros pod' d' [Hin|Heq%list_elem_of_singleton]%elem_of_app.
    + destruct (Hmet pod' d' Hin). split; [by rewrite Hn|done].
    + injection Heq as -> ->. split; [done|by rewrite <- Ht].
  - intros k v Hk. by apply Hpn, Hpin.
  - intros Hdis. apply (ports_step_disjoint (hostPortUsage (en_StateNode n))); [by apply Hports|by constructor].
  - intros _ driver limit Hl Hpos. by apply (ExceedsLimits_respected (volumeUsage (en_StateNode n)) pod vols driver limit Hvl).
Qed.

Lemma existing_run_inv n0 n placed :
  Requirements_wf (en_requirements n0) → rtc existing_step (n0, []) (n, placed) → existing_inv n0 n placed.
Proof.
  intros Hwf Hrun. remember (n0, []) as s0 eqn:Hs0. remember (n, placed) as s eqn:Hs.
  assert (existing_inv n0 s0.1 s0.2) as Hinv by (rewrite Hs0; by apply existing_inv_init). clear Hs0.
  assert (existing_inv n0 s.1 s.2) as Hend; [|by rewrite Hs in Hend]. clear Hs.
  induction Hrun as [s|[n1 p1] s2 s Hstep _ IH]; [done|]. apply IH.
  inversion Hstep as [? ? t alloc pod d vols reqs res n' t' alloc' Hd Hnn Hcan Hadd]; subst.
  pose proof (existing_add_inv n0 n1 p1 t alloc pod d vols reqs res Hd Hnn Hcan Hinv) as Hnew.
  by rewrite Hadd in Hnew.
Qed.

(** What daemons still to be scheduled will take of resource [k]. *)
Definition pendingDaemons (sn : StateNode Q) (daemonResources : ResourceList Q) k : Z :=
  Z.max 0 (amount daemonResources k - amount (DaemonSetRequests sn) k).

Lemma isNegative_spec (x : Q) : isNegative x = true ↔ qval x < 0.
Proof.
  unfold isNegative. rewrite qcmp_val, qval_zero. destruct (Z.compare_spec (qval x) 0); split; try done; lia.
Qed.

Lemma existingNodeResources_amount (sn : StateNode Q) daemonResources remaining k :
  existingNodeResources sn daemonResources = Some remaining →
  ∃ allocatable, Allocatable sn = Some allocatable ∧
  amount remaining k =
    if decide (is_Some (allocatable !! k))
    then amount allocatable k - amount (PodRequests sn) k - pendingDaemons sn daemonResources k else 0.
Proof.
  unfold existingNodeResources, AvailableResources. intros Hrun.
  destruct (Allocatable sn) as [allocatable|]; [|done]. exists allocatable. split; [done|].
  cbn [mbind option_bind] in Hrun. injection Hrun as <-.
  change (range_update _ _ daemonResources) with (subtracted daemonResources (DaemonSetRequests sn)).
  assert (amount ((λ y : Q, if isNegative y then qofint 0 else y) <$> subtracted daemonResources (DaemonSetRequests sn)) k =
    pendingDaemons sn daemonResources k) as Hd.
  { unfold pendingDaemons. rewrite <- amount_subtracted. unfold amount, rget. rewrite lookup_fmap.
    destruct (subtracted _ _ !! k) as [y|]; simpl; [|rewrite qval_zero; lia].
    destruct (isNegative y) eqn:Hy; [apply isNegative_spec in Hy; rewrite qval_ofint; lia|].
    apply not_true_iff_false in Hy. rewrite isNegative_spec in Hy. lia. }
  rewrite !amount_Subtract, lookup_Subtract, Hd.
  destruct (allocatable !! k) as [x|] eqn:Hx; simpl; repeat case_decide; try lia; naive_solver.
Qed.

(** C4. An existing node is never overcommitted.  However pods are added to a node
    (each accepted by [CanAdd], with any changes to the shared state in
    between), for every resource the node declares, the requests of the pods
    already bound to it, of the daemons still to come and of all pods added
    stay within what is allocatable, a resource it does not declare is not
    requested, host ports do not clash and the volumes stay within the limits
    of their drivers. *)
Theorem existing_never_overcommitted (sn : StateNode Q) t taints reqs daemonResources it under n0 t0 n placed k
    (Hnew : NewExistingNode sn t taints reqs daemonResources it under = Some (n0, t0)) (Hwf : Requirements_wf reqs)
    (Hrun : rtc existing_step (n0, []) (n, placed)) (Hsome : placed ≠ []) :
  ∃ allocatable, Allocatable sn = Some allocatable ∧
    (if decide (is_Some (allocatable !! k))
     then amount (PodRequests sn) k + pendingDaemons sn daemonResources k + requestedOf placed k <= amount allocatable k
     else requestedOf placed k <= 0) ∧
    (ports_disjoint (hostPortUsage sn) → ports_disjoint (hostPortUsage (en_StateNode n))) ∧
    within_limits (volumeUsage (en_StateNode n)).
Proof.
  unfold NewExistingNode, newExistingNodeWithResources in Hnew.
  destruct (existingNodeResources sn daemonResources) as [remaining|] eqn:Hres; [|done].
  destruct (HostName sn) as [hostname|]; [|done]. injection Hnew as <- <-.
  apply existing_run_inv in Hrun as [_ _ Hrem Hnn _ _ _ Hports _ Hlim]; [|done].
  destruct (existingNodeResources_amount _ _ _ k Hres) as (allocatable & Ha & Hamount).
  exists allocatable. split_and!; [done| |exact Hports|by apply Hlim].
  specialize (Hrem k). cbn [en_remainingResources] in Hrem.
  pose proof (nonneg_amount _ k (Hnn Hsome)). case_decide; lia.
Qed.

(** Pods placed on an existing node fit it: each tolerates the node's taints
    and accepts the value of every label the node has. *)
Theorem existing_pods_match_node n0 n placed pod d
    (Hwf : Requirements_wf (en_requirements n0)) (Hrun : rtc existing_step (n0, []) (n, placed)) (Hin : (pod, d) ∈ placed) :
  ToleratesPod (en_cachedTaints n0) pod = [] ∧
  ∀ k v, pinned (en_requirements n0) k v → allows (pd_Requirements d) k v = true.
Proof.
  destruct (existing_run_inv _ _ _ Hwf Hrun) as [_ _ _ _ _ Hmet Hpin _ _ _].
  destruct (Hmet pod d Hin) as [Hnar Htol]. split; [done|]. intros k v Hk. apply Hnar. by apply (Hpin k v Hk).
Qed.
End run_theory.

(** * Witnesses *)

Section witnesses.
#[local] Existing Instance karpenterLabels.
#[local] Existing Instance karpenterLabels_ok.
#[local] Existing Instance keyTaintLib.
#[local] Existing Instance map_to_list_GoRange.
#[local] Existing Instance textIP.
#[local] Existing Instance textIPLaws.

#[local] Instance noDevices : DeviceAllocator Z unit := {|
  Allocate := λ _ _ _, None; Commit := λ a _, a; ReleaseInstanceType := λ a _ _, a;
|}.
#[local] Instance noNodeDevices : NodeDeviceAllocator Z unit := {| AllocateOnNode := λ _ _ _, None |}.

(** A node with four units of cpu in zone a, and one unit of daemons to come. *)
Definition fourCPUNode : StateNode Z :=
  mkStateNode (Some (mkNode "node" "id" {[InstanceTypes.LabelTopologyZone := "zone-a"%string]} ∅ [] None
      {["cpu"%string := 4]} {["cpu"%string := 4]} ∅))
    None ∅ ∅ ∅ ∅ ∅ None None NewHostPortUsage NewVolumeUsage false 0.
Definition oneCPUDaemon : ResourceList Z := {["cpu"%string := 1]}.
Definition zoneARequirements : Requirements := NewLabelRequirements {[InstanceTypes.LabelTopologyZone := "zone-a"%string]}.

Definition fourCPU : ExistingNode Z := mkExisting fourCPUNode [] [] {["cpu"%string := 3]} zoneARequirements false None.

Definition fourCPUFilled : ExistingNode Z :=
  (AddToNode fourCPU noTopology (None : option unit) webPod twoCPUData zoneARequirements ∅ None).1.1.

Lemma fourCPU_run :
  rtc (existing_step (A := unit)) (fourCPU, []) (fourCPUFilled, [(webPod, twoCPUData)]).
Proof.
  apply rtc_once. eapply (existing_add fourCPU [] noTopology None webPod twoCPUData ∅ zoneARequirements None fourCPUFilled).
  - apply twoCPUData_wf.
  - intros k x Hx. cbn [twoCPUData pd_Requests] in Hx. apply lookup_singleton_Some in Hx as [_ <-]. vm_compute. discriminate.
  - vm_compute. reflexivity.
  - reflexivity.
Qed.

Lemma existing_never_overcommitted_witness :
  ∃ allocatable : ResourceList Z, Allocatable fourCPUNode = Some allocatable ∧
    amount (Q := Z) (PodRequests fourCPUNode) "cpu" + 1 + 2 <= amount (Q := Z) allocatable "cpu".
Proof.
  destruct (existing_never_overcommitted (A := unit) fourCPUNode noTopology [] zoneARequirements oneCPUDaemon None false
    fourCPU (RegisterDomain noTopology LabelHostname "node") fourCPUFilled [(webPod, twoCPUData)] "cpu")
    as (allocatable & Ha & Hle & _ & _).
  - vm_compute. reflexivity.
  - apply NewLabelRequirements_wf.
  - apply fourCPU_run.
  - discriminate.
  - exists allocatable. split; [exact Ha|]. vm_compute in Ha. injection Ha as <-. vm_compute. discriminate.
Defined.

Lemma existing_pods_match_node_witness :
  allows (pd_Requirements twoCPUData) InstanceTypes.LabelTopologyZone "zone-a" = true.
Proof.
  refine (proj2 (existing_pods_match_node (A := unit) fourCPU fourCPUFilled [(webPod, twoCPUData)] webPod twoCPUData _ _ _)
    InstanceTypes.LabelTopologyZone "zone-a"%string _).
  - apply NewLabelRequirements_wf.
  - apply fourCPU_run.
  - apply list_elem_of_here.
  - split; [eexists; vm_compute; reflexivity|]. intros x.
    change (allows (en_requirements fourCPU) InstanceTypes.LabelTopologyZone x)
      with (Has (NewRequirement InstanceTypes.LabelTopologyZone OpIn ["zone-a"%string]) x).
    rewrite Has_spec. cbn. set_solver.
Defined.
End witnesses.
