(* ===== verification/Packing.v ===== *)
(** * Packing policies

    Model of [pkg/controllers/provisioning/scheduling/packing.go]: the policy of
    a node pool, the price at which a NodeClaim can launch, and what growing a
    NodeClaim costs.  [None] is the panic of reading a label without values. *)

From Stdlib Require Import SpecFloat.
From S2P Require Import Prelude Float64 Requirement Kube HostPorts Requirements Resources InstanceTypes ReservationManager NodeClaim.

Definition NodePoolPackingPolicyAnnotationKey : string := "karpenter.sh/nodeclaim-packing-policy".

(** The policy, and whether the annotation is unrecognized. *)
Definition PackingPolicyForNodePool (annotations : gmap string string) : PackingPolicy * bool :=
  let value := default ""%string (annotations !! NodePoolPackingPolicyAnnotationKey) in
  if String.eqb value "" || String.eqb value "binpack" then (PackingPolicyBinpack, false)
  else if String.eqb value "marginal-cost" then (PackingPolicyMarginalCost, false)
  else if String.eqb value "marginal-cost-shadow" then (PackingPolicyMarginalCostShadow, false)
  else (PackingPolicyBinpack, true).

(** [math.Max] and [math.Abs] *)
Definition fmax (x y : float64) : float64 :=
  match x, y with
  | S754_infinity false, _ | _, S754_infinity false => S754_infinity false
  | S754_nan, _ | _, S754_nan => S754_nan
  | S754_zero sx, S754_zero _ => if sx then y else x
  | _, _ => if fltb y x then x else y
  end.
Definition fabs : float64 → float64 := SFabs.

(** The float64 nearest to 1e-6. *)
Definition priceTieTolerance : float64 := S754_finite false 4722366482869645 (-72).

Definition cheaperThan (a b : float64) : bool :=
  fltb (fmul priceTieTolerance (fmax (fabs a) (fabs b))) (fsub b a).

Section packing.
Context {LT : LabelTables} {PL : ProviderLabels} {Q : Type} `{Quantity Q} `{NetIP} (rand : Z → Z).
Implicit Types (nc : InflightClaim Q) (its : list (InstanceType Q)) (reqs : Requirements) (reserved : list (Offering Q)).

(** The offerings a NodeClaim with these reservations can launch with. *)
Fixpoint launchableOfferings (reservationIDs : list string) (ofs : list (Offering Q)) : option (list (Offering Q)) :=
  match ofs with
  | [] => Some []
  | o :: ofs =>
      capacityType ← CapacityType rand o;
      keep ← (if negb (String.eqb capacityType CapacityTypeReserved) then Some true
              else id ← ReservationID rand o; Some (existsb (String.eqb id) reservationIDs));
      rest ← launchableOfferings reservationIDs ofs;
      Some (if keep : bool then o :: rest else rest)
  end.

(** The price at which [it] can launch. *)
Definition typeLaunchPrice reservationIDs reqs (it : InstanceType Q) : option float64 :=
  launchable ← launchableOfferings reservationIDs (Available (it_Offerings it));
  Some (CheapestLaunchPrice launchable reqs).

(** [launchPrice] of packing.go. *)
Definition claimLaunchPrice its reqs reserved : option (float64 * bool) :=
  reservationIDs ← mapM (ReservationID rand) reserved;
  price ← foldl (λ acc it,
    price ← acc;
    p ← typeLaunchPrice reservationIDs reqs it;
    Some (if fltb p price then p else price)) (Some MaxFloat64) its;
  Some (price, negb (bool_decide (price = MaxFloat64))).

(** The increase of the launch price, and whether it could not be priced. *)
Definition marginalLaunchPrice nc its reqs reserved : option (float64 * bool) :=
  '(before, okBefore) ← claimLaunchPrice (ic_InstanceTypeOptions nc) (ic_Requirements nc) (ic_reservedOfferings nc);
  '(after, okAfter) ← claimLaunchPrice its reqs reserved;
  Some (if negb okBefore || negb okAfter then (fofint 0, true)
        else (fmax (fsub after before) (fofint 0), false)).
End packing.

(** * Theory *)

Section theory.
Context {LT : LabelTables} {PL : ProviderLabels} {Q : Type} `{Quantity Q} `{NetIP} (rand : Z → Z).
Implicit Types (nc : InflightClaim Q) (it : InstanceType Q) (its : list (InstanceType Q)) (reqs : Requirements)
  (o : Offering Q) (reserved : list (Offering Q)) (ids : list string).

(** Growing a NodeClaim never has a negative price. *)
Lemma fmax_zero_nonneg x : fltb (fmax x (fofint 0)) (fofint 0) = false.
Proof. by destruct x as [[]|[]| |[] m e]. Qed.

(** Being launchable: not reserved, or reserved with one of the ids. *)
Definition launchableBy ids o : Prop :=
  CapacityType rand o = Some CapacityTypeReserved → ∃ id, ReservationID rand o = Some id ∧ id ∈ ids.

Lemma elem_of_launchableOfferings ids ofs out o :
  launchableOfferings rand ids ofs = Some out → o ∈ out ↔ o ∈ ofs ∧ launchableBy ids o.
Proof.
  revert out. induction ofs as [|o' ofs IH]; intros out; cbn [launchableOfferings].
  { intros [= <-]. split; [by intros ?%not_elem_of_nil|by intros [?%not_elem_of_nil _]]. }
  destruct (CapacityType rand o') as [ct|] eqn:Hct; [|done]. cbn [mbind option_bind].
  assert (∀ keep, (if negb (String.eqb ct CapacityTypeReserved) then Some true
      else id ← ReservationID rand o'; Some (existsb (String.eqb id) ids)) = Some keep →
    keep = true ↔ launchableBy ids o') as Hkeep.
  { intros keep Hk. unfold launchableBy. rewrite Hct. destruct (String.eqb_spec ct CapacityTypeReserved) as [->|Hne]; simpl in Hk.
    - destruct (ReservationID rand o') as [id|]; [|done]. simpl in Hk. injection Hk as <-.
      rewrite existsb_exists. setoid_rewrite String.eqb_eq. setoid_rewrite <- list_elem_of_In. naive_solver.
    - injection Hk as <-. split; [|done]. intros _ [= ?]. done. }
  destruct (if negb (String.eqb ct CapacityTypeReserved) then Some true else _) as [keep|]; [|done].
  specialize (Hkeep keep eq_refl). cbn [mbind option_bind].
  destruct (launchableOfferings rand ids ofs) as [rest|]; [|done]. cbn [mbind option_bind]. intros [= <-].
  specialize (IH rest eq_refl). rewrite elem_of_cons. destruct keep.
  - rewrite elem_of_cons, IH. assert (launchableBy ids o') by (by apply Hkeep). naive_solver.
  - rewrite IH. assert (¬ launchableBy ids o') by (intros ?%Hkeep; done). naive_solver.
Qed.

(** The loop of [launchPrice] finds the least price of the types. *)
Lemma launchPrice_loop ids reqs its price0 price :
  foldl (λ acc it, pr ← acc; p ← typeLaunchPrice rand ids reqs it; Some (if fltb p pr then p else pr)) (Some price0) its
    = Some price →
  is_nan price0 = false → (∀ it p, it ∈ its → typeLaunchPrice rand ids reqs it = Some p → is_nan p = false) →
  is_nan price = false ∧ fltb price0 price = false ∧
  (price = price0 ∨ ∃ it, it ∈ its ∧ typeLaunchPrice rand ids reqs it = Some price) ∧
  ∀ it, it ∈ its → ∃ p, typeLaunchPrice rand ids reqs it = Some p ∧ fltb p price = false.
Proof.
  revert price0. induction its as [|it its IH]; intros price0 Hrun Hn0 Hn; cbn [foldl] in Hrun.
  { injection Hrun as <-. split_and!; [done|apply fltb_irrefl|by left|by intros ? ?%not_elem_of_nil]. }
  cbn [mbind option_bind] in Hrun. destruct (typeLaunchPrice rand ids reqs it) as [p|] eqn:Hp.
  2:{ exfalso. clear -Hrun. cbn [mbind option_bind] in Hrun. induction its; [done|]. by apply IHits. }
  cbn [mbind option_bind] in Hrun. assert (is_nan p = false) as Hnp by (by apply (Hn it p (list_elem_of_here _ _))).
  set (best := if fltb p price0 then p else price0) in *.
  assert (is_nan best = false) as Hnb by (subst best; by destruct (fltb p price0)).
  assert (fltb price0 best = false ∧ fltb p best = false) as [Hb0 Hbp].
  { subst best. destruct (fltb p price0) eqn:Hlt; [|by rewrite fltb_irrefl].
    split; [by apply fltb_total|apply fltb_irrefl]. }
  destruct (IH best Hrun Hnb) as (Hnan & Hle & Hatt & Hmin); [by intros it' p' ?%(list_elem_of_further _ it); apply Hn|].
  split_and!; [done|by apply (fltb_weak price best price0)| |].
  - destruct Hatt as [->|(it' & ? & ?)]; [|right; exists it'; split; [by apply list_elem_of_further|done]].
    subst best. destruct (fltb p price0); [right; exists it; split; [apply list_elem_of_here|done]|by left].
  - intros it' [->|Hin]%elem_of_cons; [|by apply Hmin]. exists p. split; [done|]. by apply (fltb_weak price best p).
Qed.

Lemma typeLaunchPrice_attained ids reqs it p :
  typeLaunchPrice rand ids reqs it = Some p → Forall priced (it_Offerings it) →
  is_nan p = false ∧
  (p = MaxFloat64 ∨ ∃ o, o ∈ it_Offerings it ∧ of_Available o = true ∧ launchableBy ids o ∧
     offeringCompatible reqs o = true ∧ of_Price o = p).
Proof.
  unfold typeLaunchPrice. intros Hrun Hp.
  destruct (launchableOfferings rand ids (Available (it_Offerings it))) as [ofs|] eqn:Hl; [|done].
  cbn [mbind option_bind] in Hrun. injection Hrun as <-.
  assert (∀ o, o ∈ ofs → o ∈ it_Offerings it ∧ of_Available o = true ∧ launchableBy ids o) as Hin.
  { intros o Ho. apply (elem_of_launchableOfferings _ _ _ o Hl) in Ho as [Ho Hb].
    unfold Available in Ho. rewrite list_elem_of_In, filter_In, <- list_elem_of_In in Ho. tauto. }
  assert (Forall priced ofs) as Hpo.
  { rewrite Forall_forall in Hp. apply Forall_forall. intros o Ho. by apply Hp, Hin. }
  unfold CheapestLaunchPrice. rewrite launchPrice_launchable by (intros l; apply best_by_None).
  pose proof (launchable_priced ofs reqs launchOrder Hpo) as Hlp.
  destruct (Cheapest (launchable ofs reqs launchOrder)) as [c|] eqn:Hc; [|by split; [|left]].
  apply Cheapest_spec in Hc as [Hc _]; [|done]. rewrite Forall_forall in Hlp. split; [by apply Hlp|right].
  apply launchable_sub in Hc as [Hco Hcc]. exists c. destruct (Hin c Hco) as (? & ? & ?). done.
Qed.

(** The launch price of a NodeClaim is one it can really get.  A price is
    reported exactly when an instance type has one below [MaxFloat64]; it is then
    the price of an available offering compatible with the requirements of one
    of the instance types, a reserved offering only when it is among those
    reserved for the NodeClaim, and no instance type launches cheaper. *)
Theorem claimLaunchPrice_least its reqs reserved price ok
    (Hpriced : ∀ it, it ∈ its → Forall priced (it_Offerings it))
    (Hrun : claimLaunchPrice rand its reqs reserved = Some (price, ok)) :
  ∃ ids, mapM (ReservationID rand) reserved = Some ids ∧
    (ok = true → ∃ it o, it ∈ its ∧ o ∈ it_Offerings it ∧ of_Available o = true ∧ launchableBy ids o ∧
       offeringCompatible reqs o = true ∧ of_Price o = price) ∧
    (ok = false → price = MaxFloat64) ∧
    ∀ it, it ∈ its → ∃ p, typeLaunchPrice rand ids reqs it = Some p ∧ fltb p price = false.
Proof.
  unfold claimLaunchPrice in Hrun. destruct (mapM (ReservationID rand) reserved) as [ids|]; [|done].
  cbn [mbind option_bind] in Hrun. exists ids. split; [done|].
  apply bind_Some in Hrun as (pr & Hf & [= <- <-]).
  destruct (launchPrice_loop ids reqs its MaxFloat64 pr Hf) as (_ & _ & Hatt & Hmin); [done| |].
  { intros it p Hit Hp. by apply (typeLaunchPrice_attained ids reqs it p Hp), Hpriced. }
  rewrite negb_true_iff, negb_false_iff, bool_decide_eq_true, bool_decide_eq_false. split_and!; [|done|done].
  intros Hne. destruct Hatt as [?|(it & Hit & Hp)]; [done|].
  destruct (typeLaunchPrice_attained ids reqs it pr Hp (Hpriced it Hit)) as [_ [?|(o & ?)]]; [done|].
  exists it, o. tauto.
Qed.

(** Growing a NodeClaim never counts as a saving, and it is free when either
    side has no price. *)
Lemma marginalLaunchPrice_nonneg nc its reqs reserved delta unpriced :
  marginalLaunchPrice rand nc its reqs reserved = Some (delta, unpriced) →
  fltb delta (fofint 0) = false ∧ (unpriced = true → delta = fofint 0).
Proof.
  unfold marginalLaunchPrice. intros Hrun.
  destruct (claimLaunchPrice rand (ic_InstanceTypeOptions nc) _ _) as [[before okb]|]; [|done]. cbn [mbind option_bind] in Hrun.
  destruct (claimLaunchPrice rand its reqs reserved) as [[after oka]|]; [|done]. cbn [mbind option_bind] in Hrun.
  destruct (negb okb || negb oka); injection Hrun as <- <-; [done|]. split; [apply fmax_zero_nonneg|done].
Qed.

(** Prices can be read when the labels are there. *)
Lemma claimLaunchPrice_total known its reqs reserved :
  (∀ o, o ∈ reserved → is_Some (ReservationID rand o)) →
  (∀ it o, it ∈ its → o ∈ it_Offerings it → offering_ok rand known o) →
  is_Some (claimLaunchPrice rand its reqs reserved).
Proof.
  intros Hids Hofs. unfold claimLaunchPrice. destruct (mapM_ids rand reserved Hids) as (ids & -> & _). cbn [mbind option_bind].
  assert (∀ ofs, (∀ o, o ∈ ofs → offering_ok rand known o) → is_Some (launchableOfferings rand ids ofs)) as Hl.
  { clear. induction ofs as [|o ofs IH]; intros Hok; cbn [launchableOfferings]; [eauto|].
    destruct (Hok o (list_elem_of_here _ _)) as [[ct Hct] Hid]. rewrite Hct. cbn [mbind option_bind].
    destruct IH as [rest ->]; [by intros; apply Hok, list_elem_of_further|].
    destruct (String.eqb_spec ct CapacityTypeReserved) as [->|]; cbn [negb mbind option_bind]; [|eauto].
    destruct (Hid Hct) as (id & -> & _). cbn [mbind option_bind]. eauto. }
  assert (∀ price, is_Some (foldl (λ acc it, pr ← acc; p ← typeLaunchPrice rand ids reqs it;
    Some (if fltb p pr then p else pr)) (Some price) its)) as Hf.
  { induction its as [|it its IH]; intros price; cbn [foldl]; [eauto|]. cbn [mbind option_bind].
    unfold typeLaunchPrice at 2. destruct (Hl (Available (it_Offerings it))) as [ofs ->].
    { intros o Ho. unfold Available in Ho. rewrite list_elem_of_In, filter_In, <- list_elem_of_In in Ho.
      apply (Hofs it o); [apply list_elem_of_here|tauto]. }
    cbn [mbind option_bind]. apply IH. intros it' o ?. by apply Hofs, list_elem_of_further. }
  destruct (Hf MaxFloat64) as [price ->]. cbn [mbind option_bind]. eauto.
Qed.
End theory.

(** * Witnesses *)

Section witnesses.
#[local] Existing Instance karpenterLabels.
#[local] Existing Instance exampleProvider.

Lemma claimLaunchPrice_least_witness :
  claimLaunchPrice (λ _, 0) [large; small] ∅ [] = Some (fofint 1, true) ∧
  ∀ it, it ∈ [large; small] → ∃ p, typeLaunchPrice (λ _, 0) [] ∅ it = Some p ∧ fltb p (fofint 1) = false.
Proof.
  assert (claimLaunchPrice (λ _, 0) [large; small] ∅ [] = Some (fofint 1, true)) as Hrun by (vm_compute; reflexivity).
  destruct (claimLaunchPrice_least (λ _, 0) [large; small] ∅ [] (fofint 1) true) as (ids & Hids & _ & _ & Hleast).
  - intros it Hit. rewrite !elem_of_cons, elem_of_nil in Hit.
    destruct Hit as [->|[->|[]]]; repeat (constructor; [vm_compute; reflexivity|]); constructor.
  - exact Hrun.
  - split; [exact Hrun|]. injection Hids as <-. exact Hleast.
Defined.
End witnesses.
