(* ===== verification/Placing.v ===== *)
(** * Placing one pod

    Model of the part of [pkg/controllers/provisioning/scheduling/scheduler.go]
    (and [dra.go]) that [Solve] calls for each pod: what is cached about a pod,
    and [add], which tries the existing nodes, then the in-flight NodeClaims,
    then a new NodeClaim, or compares the last two by price.

    The parallel searches return what a sequential scan returns (theorem
    [parallel_first_fit] of [Parallel.v]), so they are scans here.  What else an
    interleaving can influence is an argument, [schedule]: which placeholder
    number each candidate NodeClaim gets, and which candidates led for a while
    and so wrote to the annotations of their template.  [None] is a panic. *)

From Stdlib Require Import DecimalString.
From S2P Require Import Prelude Strconv Float64 Requirement Kube Taints HostPorts Volumes PodUtils Preferences Parallel Requirements Resources Scheduler StateNode InstanceTypes ReservationManager TopologyGroup Topology Limits NodeClaim ExistingNode Packing.

Record NodeClaimTemplate (Q : Type) := mkTemplate {
  tp_NodePoolName : string;
  tp_Taints : list Taint;
  tp_InstanceTypeOptions : list (InstanceType Q);
  tp_Requirements : Requirements;
  tp_PackingPolicy : PackingPolicy;
}.
Arguments mkTemplate {Q}.
Arguments tp_NodePoolName {Q}.
Arguments tp_Taints {Q}.
Arguments tp_InstanceTypeOptions {Q}.
Arguments tp_Requirements {Q}.
Arguments tp_PackingPolicy {Q}.

(** The state of a pass.  The templates' annotation maps are the store of
    [NodeClaim.v]; the daemon overhead groups are keyed by the template's pool;
    [sc_nodeID] is the counter of placeholder names. *)
Record Sched (Q A : Type) `{NetIP} := mkSched {
  sc_newNodeClaims : list (InflightClaim Q);
  sc_existingNodes : list (ExistingNode Q);
  sc_nodeClaimTemplates : list (NodeClaimTemplate Q);
  sc_remainingResources : gmap string (ResourceList Q);
  sc_daemonOverheadGroups : gmap string (list (DaemonOverheadGroup Q));
  sc_cachedPodData : gmap string (PodData Q);
  sc_volumeReqsByPod : gmap string (list Requirements);
  sc_topology : Topology;
  sc_reservationManager : ReservationManager;
  sc_allocator : option A;
  sc_annotations : AnnotationStore;
  sc_cachedResourceClaims : gset NamespacedName;
  sc_nodeID : Z;
}.
Arguments mkSched {Q A _}.
Arguments sc_newNodeClaims {Q A _}.
Arguments sc_existingNodes {Q A _}.
Arguments sc_nodeClaimTemplates {Q A _}.
Arguments sc_remainingResources {Q A _}.
Arguments sc_daemonOverheadGroups {Q A _}.
Arguments sc_cachedPodData {Q A _}.
Arguments sc_volumeReqsByPod {Q A _}.
Arguments sc_topology {Q A _}.
Arguments sc_reservationManager {Q A _}.
Arguments sc_allocator {Q A _}.
Arguments sc_annotations {Q A _}.
Arguments sc_cachedResourceClaims {Q A _}.
Arguments sc_nodeID {Q A _}.

(** The options of the scheduler and of the context. *)
Record Options := mkOptions {
  IgnoreDRARequests : bool;
  ReservedCapacity : bool;                    (* feature gate *)
  ReservedOfferingModeStrict : bool;
  PreferencePolicyIgnore : bool;
  MinValuesPolicyBestEffort : bool;
  pricePlacements : bool;
  shadowPricePlacements : bool;
  deletingNodeNames : gset string;
}.

(** What the interleaving of a search over the templates decides. *)
Record Interleaving := mkInterleaving {
  il_placeholder : nat → Z;       (* [atomic.AddInt64] for each candidate *)
  il_nodeID : Z;                  (* the counter afterwards *)
  il_leaders : list nat;          (* candidates that led before the one chosen *)
}.

(** Reading a ResourceClaim from the API server. *)
Class ClaimAPI := { claimExists : NamespacedName → bool }.

Definition MinValuesRelaxedKey : string := "karpenter.sh/nodeclaim-min-values-relaxed".

(** The decimal digits of a counter value. *)
Definition decimal (id : Z) : string := NilZero.string_of_uint (N.to_uint (Z.to_N id)).

(** [fmt.Sprintf("hostname-placeholder-%04d", id)] *)
Definition placeholderName (id : Z) : string :=
  "hostname-placeholder-" +:+ zeros (4 - String.length (decimal id)) (decimal id).

(** ** What is cached about a pod *)

Section claims.
Context `{ClaimAPI}.

(** The claim backing a reference; [None] when there is nothing to allocate. *)
Fixpoint generatedClaim (name : string) (statuses : list PodResourceClaimStatus) : option string :=
  match statuses with
  | [] => None
  | status :: statuses =>
      if String.eqb (prs_Name status) name then prs_ResourceClaimName status else generatedClaim name statuses
  end.

Definition resourceClaimName (pod : Pod) (pc : PodResourceClaim) : option string :=
  match prc_ResourceClaimName pc with
  | Some name => Some name
  | None => generatedClaim (prc_Name pc) (pod_ResourceClaimStatuses pod)
  end.

(** The claims of the pod, or an error, and the cache of claims seen. *)
Fixpoint resolveClaims (pod : Pod) (cache : gset NamespacedName) (refs : list PodResourceClaim) (claims : list NamespacedName)
    : gset NamespacedName * option (list NamespacedName) :=
  match refs with
  | [] => (cache, Some claims)
  | pc :: refs =>
      match resourceClaimName pod pc with
      | None => resolveClaims pod cache refs claims
      | Some claimName =>
          let key := (pod_Namespace pod, claimName) in
          if bool_decide (key ∈ cache) then resolveClaims pod cache refs (claims ++ [key])
          else if claimExists key then resolveClaims pod ({[key]} ∪ cache) refs (claims ++ [key])
          else (cache, None)
      end
  end.

Definition resolvePodClaims (cache : gset NamespacedName) (pod : Pod) : gset NamespacedName * option (list NamespacedName) :=
  resolveClaims pod cache (pod_ResourceClaims pod) [].
End claims.

Section placing.
Context {LT : LabelTables} {PL : ProviderLabels} {TL : TaintLib} {GR : GoRange} {GS : GoSort} {PS : Parsers}
  {SA : StorageAPI} {CA : ClaimAPI} {Q A : Type} `{Quantity Q} {NI : NetIP} {PR : PodResources Q}
  {DA : DeviceAllocator Q A} {NDA : NodeDeviceAllocator Q A}
  (overrideKey : Offering Q → string * string) (rand : Z → Z)
  (sortDesc : list PreferredSchedulingTerm → list PreferredSchedulingTerm)
  (opts : Options) (schedule : Sched Q A → Pod → Interleaving).
Implicit Types (s : Sched Q A) (pod p : Pod) (d : PodData Q) (nc : InflightClaim Q).

(** Updating the parts of the state [add] changes. *)
Definition withClaims s (claims : list (InflightClaim Q)) : Sched Q A :=
  mkSched claims (sc_existingNodes s) (sc_nodeClaimTemplates s) (sc_remainingResources s) (sc_daemonOverheadGroups s)
    (sc_cachedPodData s) (sc_volumeReqsByPod s) (sc_topology s) (sc_reservationManager s) (sc_allocator s)
    (sc_annotations s) (sc_cachedResourceClaims s) (sc_nodeID s).

Definition withNode s (i : nat) (n : ExistingNode Q) (t : Topology) (alloc : option A) : Sched Q A :=
  mkSched (sc_newNodeClaims s) (<[i := n]> (sc_existingNodes s)) (sc_nodeClaimTemplates s) (sc_remainingResources s)
    (sc_daemonOverheadGroups s) (sc_cachedPodData s) (sc_volumeReqsByPod s) t (sc_reservationManager s) alloc
    (sc_annotations s) (sc_cachedResourceClaims s) (sc_nodeID s).

(** The state shared by the NodeClaims after one of them was added to. *)
Definition withShared s (claims : list (InflightClaim Q)) (t : Topology) (rm : ReservationManager) (alloc : option A)
    : Sched Q A :=
  mkSched claims (sc_existingNodes s) (sc_nodeClaimTemplates s) (sc_remainingResources s) (sc_daemonOverheadGroups s)
    (sc_cachedPodData s) (sc_volumeReqsByPod s) t rm alloc (sc_annotations s) (sc_cachedResourceClaims s) (sc_nodeID s).

Definition withRemaining s (remaining : gmap string (ResourceList Q)) : Sched Q A :=
  mkSched (sc_newNodeClaims s) (sc_existingNodes s) (sc_nodeClaimTemplates s) remaining (sc_daemonOverheadGroups s)
    (sc_cachedPodData s) (sc_volumeReqsByPod s) (sc_topology s) (sc_reservationManager s) (sc_allocator s)
    (sc_annotations s) (sc_cachedResourceClaims s) (sc_nodeID s).

Definition withEvaluated s (annotations : AnnotationStore) (nodeID : Z) : Sched Q A :=
  mkSched (sc_newNodeClaims s) (sc_existingNodes s) (sc_nodeClaimTemplates s) (sc_remainingResources s)
    (sc_daemonOverheadGroups s) (sc_cachedPodData s) (sc_volumeReqsByPod s) (sc_topology s) (sc_reservationManager s)
    (sc_allocator s) annotations (sc_cachedResourceClaims s) nodeID.

(** [updateCachedPodData] *)
Definition cachePodData s p : option (Sched Q A) :=
  requirements ← (if PreferencePolicyIgnore opts then NewStrictPodRequirements sortDesc p else NewPodRequirements sortDesc p);
  strictRequirements ← (if HasPreferredNodeAffinity (Some p) then NewStrictPodRequirements sortDesc p else Some requirements);
  let hasClaims := HasDRARequirements p in
  let '(cache, claims) :=
    match sc_allocator s with
    | Some _ => if hasClaims then resolvePodClaims (sc_cachedResourceClaims s) p else (sc_cachedResourceClaims s, Some [])
    | None => (sc_cachedResourceClaims s, Some [])
    end in
  let data := mkPodData (RequestsForPods PodRequestsOf [p]) requirements strictRequirements hasClaims
                (default [] (sc_volumeReqsByPod s !! pod_UID p)) (default [] claims)
                (match claims with Some _ => false | None => true end) in
  Some (mkSched (sc_newNodeClaims s) (sc_existingNodes s) (sc_nodeClaimTemplates s) (sc_remainingResources s)
    (sc_daemonOverheadGroups s) (<[pod_UID p := data]> (sc_cachedPodData s)) (sc_volumeReqsByPod s) (sc_topology s)
    (sc_reservationManager s) (sc_allocator s) (sc_annotations s) cache (sc_nodeID s)).

(** ** Existing nodes *)

(** A candidate that panics ends the search; one that fails is skipped. *)
Definition candidate {E R : Type} (o : outcome E R) : option (option R) :=
  match o with Panic => Some None | Fail _ => None | Done r => Some (Some r) end.

(** [Some (inl tt)]: no node takes the pod. *)
Definition addToExistingNode s d p : option (unit + Sched Q A) :=
  match GetVolumes p with
  | None => Some (inl tt)
  | Some vols =>
      match firstFit (existingCandidate
          (λ i, from_option en_isUnderConsolidateAfter false (sc_existingNodes s !! i))
          (IsPending p) (bool_decide (pod_NodeName p ∈ deletingNodeNames opts))
          (λ i, n ← sc_existingNodes s !! i;
                candidate (CanAddToNode n (sc_topology s) (sc_allocator s) p d vols)))
        (length (sc_existingNodes s)) with
      | None => Some (inl tt)
      | Some (_, None) => None
      | Some (i, Some (reqs, res)) =>
          n ← sc_existingNodes s !! i;
          let '(n, t, alloc) := AddToNode n (sc_topology s) (sc_allocator s) p d reqs vols res in
          Some (inr (withNode s i n t alloc))
      end
  end.

(** ** In-flight NodeClaims *)

Definition canAddTo s d p (i : nat) : option (option (Placement Q)) :=
  nc ← sc_newNodeClaims s !! i;
  candidate (CanAdd overrideKey rand (ReservedCapacity opts) nc (sc_topology s) (sc_reservationManager s) (sc_allocator s) p d false).

(** [placement.commit] on the [i]-th in-flight NodeClaim. *)
Definition commitInflight s d p (i : nat) (pl : Placement Q) : option (Sched Q A) :=
  nc ← sc_newNodeClaims s !! i;
  '(nc, t, rm, alloc) ← AddPod rand nc (sc_topology s) (sc_reservationManager s) (sc_allocator s) p d pl;
  Some (withShared s (<[i := nc]> (sc_newNodeClaims s)) t rm alloc).

Definition addToInflightNode s d p : option (unit + Sched Q A) :=
  match firstFit (canAddTo s d p) (length (sc_newNodeClaims s)) with
  | None => Some (inl tt)
  | Some (_, None) => None
  | Some (i, Some pl) => s ← commitInflight s d p i pl; Some (inr s)
  end.

(** ** New NodeClaims *)

(** The outcome of a template that ends the search. *)
Inductive TemplateResult :=
  | TemplatePanic
  | TemplateReserved
  | TemplateAccepts (nc : InflightClaim Q) (pl : Placement Q).

Definition templateGroups s (t : NodeClaimTemplate Q) : list (DaemonOverheadGroup Q) :=
  default [] (sc_daemonOverheadGroups s !! tp_NodePoolName t).

(** [NewNodeClaim] from the template with the instance types [its] that passed
    the limits. *)
Definition claimFromTemplate s (t : NodeClaimTemplate Q) (id : Z) (its : list (InstanceType Q)) : InflightClaim Q :=
  NewInflightClaim (tp_NodePoolName t) (placeholderName id) (tp_Taints t) (tp_PackingPolicy t) (tp_Requirements t)
    (templateGroups s t) its (ReservedOfferingModeStrict opts)
    (if bool_decide (length its = length (tp_InstanceTypeOptions t)) then None else Some (tp_InstanceTypeOptions t)).

(** Whether the rejection by the limits hides an incompatibility.  The template
    itself has no hostname requirement. *)
Definition limitRejection s (t : NodeClaimTemplate Q) d p : bool :=
  let template := mkClaim (tp_NodePoolName t) (tp_PackingPolicy t) (tp_Taints t) (SharedWithTemplate (tp_NodePoolName t))
    (tp_InstanceTypeOptions t) (tp_Requirements t) ∅ [] (templateGroups s t) "" [] (ReservedOfferingModeStrict opts) None in
  incompatibleIgnoringLimits overrideKey template (sc_topology s) (tp_InstanceTypeOptions t) p d (MinValuesPolicyBestEffort opts).

(** One template: the error of a rejection is whether it is a
    [NodePoolIncompatibleError]. *)
Definition evaluateTemplate s (il : Interleaving) d p (i : nat) : option (bool + TemplateResult) :=
  t ← sc_nodeClaimTemplates s !! i;
  Some (match applyLimits (sc_remainingResources s) (tp_NodePoolName t) (tp_InstanceTypeOptions t) with
        | inl _ => inl (limitRejection s t d p)
        | inr its =>
            let nc := claimFromTemplate s t (il_placeholder il i) its in
            match CanAdd overrideKey rand (ReservedCapacity opts) nc (sc_topology s) (sc_reservationManager s)
                    (sc_allocator s) p d (MinValuesPolicyBestEffort opts) with
            | Panic => inr TemplatePanic
            | Fail (ReservedOfferingError, _) => inr TemplateReserved
            | Fail (_, incompatible) => inl incompatible
            | Done pl => inr (TemplateAccepts nc pl)
            end
        end).

Definition templateCandidate s il d p (i : nat) : option TemplateResult :=
  match evaluateTemplate s il d p i with Some (inr r) => Some r | _ => None end.

Definition minValuesRelaxed nc (r : Requirements) : bool :=
  existsb (λ kr,
    match MinValues kr.2, MinValues (Get r kr.1) with
    | Some original, Some updated => updated <? original
    | _, _ => false
    end) (map_to_list (ic_Requirements nc)).

(** [nodeClaim.Annotations[key] = ...]: the map is the template's. *)
Definition writeAnnotation (store : AnnotationStore) nc (pl : Placement Q) : AnnotationStore :=
  <[ic_NodePoolName nc := <[MinValuesRelaxedKey := if minValuesRelaxed nc (pl_Requirements pl) then "true"%string else "false"%string]>
      (default ∅ (store !! ic_NodePoolName nc))]> store.

(** The state is changed by the evaluation alone: placeholder numbers are used
    up and annotations written.  Without templates the Go function returns
    neither a placement nor an error, which its callers dereference. *)
Definition evaluateNewNodeClaim s d p : option (Sched Q A * (AddError + InflightClaim Q * Placement Q)) :=
  let il := schedule s p in
  let accepted i := match templateCandidate s il d p i with Some (TemplateAccepts nc pl) => Some (nc, pl) | _ => None end in
  let write store i := match accepted i with Some (nc, pl) => writeAnnotation store nc pl | None => store end in
  let store := foldl write (sc_annotations s) (il_leaders il) in
  match firstFit (templateCandidate s il d p) (length (sc_nodeClaimTemplates s)) with
  | None =>
      let incompatible := forallb (λ i, match evaluateTemplate s il d p i with Some (inl b) => b | _ => false end)
                            (seq 0 (length (sc_nodeClaimTemplates s))) in
      match sc_nodeClaimTemplates s with
      | [] => None
      | _ => Some (withEvaluated s store (il_nodeID il), inl (if incompatible then IncompatibleWithAllNodePools else Unschedulable))
      end
  | Some (_, TemplatePanic) => None
  | Some (_, TemplateReserved) => Some (withEvaluated s store (il_nodeID il), inl ReservedOffering)
  | Some (i, TemplateAccepts nc pl) =>
      Some (withEvaluated s (writeAnnotation store nc pl) (il_nodeID il), inr (nc, pl))
  end.

Definition commitNewNodeClaim s d p nc (pl : Placement Q) : option (Sched Q A) :=
  '(nc, t, rm, alloc) ← AddPod rand nc (sc_topology s) (sc_reservationManager s) (sc_allocator s) p d pl;
  let s := withShared s (sc_newNodeClaims s ++ [nc]) t rm alloc in
  Some (withRemaining s (chargeLimits (sc_remainingResources s) (ic_NodePoolName nc) (ic_InstanceTypeOptions nc))).

Definition addToNewNodeClaim s d p : option (Sched Q A * option AddError) :=
  '(s, result) ← evaluateNewNodeClaim s d p;
  match result with
  | inl err => Some (s, Some err)
  | inr (nc, pl) => s ← commitNewNodeClaim s d p nc pl; Some (s, None)
  end.

(** ** Placing by price *)

Definition marginalCostPrices nc : bool :=
  match ic_PackingPolicy nc with
  | PackingPolicyMarginalCost => true
  | PackingPolicyMarginalCostShadow => shadowPricePlacements opts
  | PackingPolicyBinpack => false
  end.

(** An in-flight NodeClaim the pod fits: its index, the placement, the increase
    of its price and whether it could not be priced. *)
Definition InflightPlacement : Type := nat * Placement Q * float64 * bool.

Definition inflightPlacement s d p (i : nat) : option (option InflightPlacement) :=
  nc ← sc_newNodeClaims s !! i;
  match canAddTo s d p i with
  | None => Some None
  | Some None => None
  | Some (Some pl) =>
      '(delta, unpriced) ← (if marginalCostPrices nc
        then marginalLaunchPrice rand nc (pl_InstanceTypes pl) (pl_Requirements pl) (pl_OfferingsToReserve pl)
        else Some (fofint 0, false));
      Some (Some (i, pl, delta, unpriced))
  end.

(** The candidates in order; the error is skipped and a panic is a panic. *)
Definition inflightPlacements s d p : option (list InflightPlacement) :=
  candidates ← mapM (inflightPlacement s d p) (seq 0 (length (sc_newNodeClaims s)));
  Some (omap id candidates).

Definition deltaOf (c : InflightPlacement) : float64 := c.1.2.

Definition cheapest (candidates : list InflightPlacement) : option InflightPlacement :=
  foldl (λ best c,
    match best with
    | None => Some c
    | Some b => if cheaperThan (deltaOf c) (deltaOf b) then Some c else best
    end) None candidates.

Definition cheapestInflightPlacement s d p : option (option InflightPlacement) :=
  candidates ← inflightPlacements s d p; Some (cheapest candidates).

Definition commitInflightPlacement s d p (c : InflightPlacement) : option (Sched Q A * option AddError) :=
  let '(i, pl, _, _) := c in
  s ← commitInflight s d p i pl; Some (s, None).

Definition addByMarginalCost s d p : option (Sched Q A * option AddError) :=
  best ← cheapestInflightPlacement s d p;
  match best with
  | None =>
      match sc_nodeClaimTemplates s with [] => Some (s, Some Unschedulable) | _ => addToNewNodeClaim s d p end
  | Some c =>
      if fltb (fofint 0) (deltaOf c) then
        '(s, result) ← evaluateNewNodeClaim s d p;
        match result with
        | inr (nc, pl) =>
            '(price, ok) ← claimLaunchPrice rand (pl_InstanceTypes pl) (pl_Requirements pl) (pl_OfferingsToReserve pl);
            if ok && cheaperThan price (deltaOf c) then s ← commitNewNodeClaim s d p nc pl; Some (s, None)
            else commitInflightPlacement s d p c
        | inl _ => commitInflightPlacement s d p c
        end
      else commitInflightPlacement s d p c
  end.

(** ** The shadow decision *)

(** What [packing_shadow_decisions_total] counts, with the pool of the label. *)
Inductive ShadowOutcome :=
  | ShadowNone                          (* no templates: nothing is counted *)
  | ShadowSameNew (pool : string)
  | ShadowWouldOpenNew (pool : string)
  | ShadowWouldJoinOther (pool : string)
  | ShadowSameInflight (pool : string).

(** The placement of a new NodeClaim, with its price when it has one. *)
Definition evaluateFreshPlacement s d p : option (Sched Q A * option (InflightClaim Q * Placement Q * option float64)) :=
  '(s, result) ← evaluateNewNodeClaim s d p;
  match result with
  | inl _ => Some (s, None)
  | inr (nc, pl) =>
      '(price, ok) ← claimLaunchPrice rand (pl_InstanceTypes pl) (pl_Requirements pl) (pl_OfferingsToReserve pl);
      Some (s, Some (nc, pl, if ok : bool then Some price else None))
  end.

Definition poolOf s (c : InflightPlacement) : string :=
  from_option ic_NodePoolName ""%string (sc_newNodeClaims s !! c.1.1.1).

Definition shadowMarginalCost s d p : option (Sched Q A * ShadowOutcome) :=
  match sc_nodeClaimTemplates s with
  | [] => Some (s, ShadowNone)
  | _ =>
      candidates ← inflightPlacements s d p;
      match head candidates, cheapest candidates with
      | Some first, Some best =>
          let joined :=
            if bool_decide (best.1.1.1 = first.1.1.1) then ShadowSameInflight (poolOf s first)
            else ShadowWouldJoinOther (poolOf s best) in
          if fltb (fofint 0) (deltaOf best) then
            '(s, fresh) ← evaluateFreshPlacement s d p;
            match fresh with
            | Some (nc, _, Some price) =>
                Some (s, if cheaperThan price (deltaOf best) then ShadowWouldOpenNew (ic_NodePoolName nc) else joined)
            | _ => Some (s, joined)
            end
          else Some (s, joined)
      | _, _ =>
          '(s, fresh) ← evaluateFreshPlacement s d p;
          Some (s, ShadowSameNew (from_option (λ f, ic_NodePoolName f.1.1) ""%string fresh))
      end
  end.

(** ** [add] *)

Definition fewerPods (a b : InflightClaim Q) : bool := (Z.of_nat (length (ic_Pods a)) <? Z.of_nat (length (ic_Pods b))).

(** Binpacking: the first in-flight NodeClaim that fits, or a new one. *)
Definition addBinpack s d p : option (Sched Q A * option AddError) :=
  inflight ← addToInflightNode s d p;
  match inflight with
  | inr s => Some (s, None)
  | inl _ => match sc_nodeClaimTemplates s with [] => Some (s, Some Unschedulable) | _ => addToNewNodeClaim s d p end
  end.

Definition addPod s p : option (Sched Q A * option AddError) :=
  d ← sc_cachedPodData s !! pod_UID p;
  if pd_HasResourceClaimRequests d && IgnoreDRARequests opts then Some (s, Some DRA)
  else if pd_ResourceClaimErr d then Some (s, Some Unschedulable)
  else
    existing ← addToExistingNode s d p;
    match existing with
    | inr s => Some (s, None)
    | inl _ =>
        let s := withClaims s (gosort fewerPods (sc_newNodeClaims s)) in
        if pricePlacements opts then addByMarginalCost s d p
        else
          s ← (if shadowPricePlacements opts then '(s, _) ← shadowMarginalCost s d p; Some s else Some s);
          addBinpack s d p
    end.

(** ** The operations of the loop *)

(** [FinalizeScheduling] of every new NodeClaim, with the drivers of the
    devices allocated for it. *)
Definition finalizeClaims (drivers : option A → InflightClaim Q → list string) s : option (Sched Q A) :=
  claims ← mapM (λ nc, FinalizeScheduling rand nc (sc_annotations s) (drivers (sc_allocator s) nc)) (sc_newNodeClaims s);
  Some (withClaims s claims).

(** [topologyUpdate] stands for [Topology.Update], which recounts the pod's
    topology groups, and [ctxDone] for the context.  A state of [None] is a pass
    that has panicked. *)
Definition schedulerOps (topologyUpdate : Topology → Pod → Topology) (ctxDone : Sched Q A → option AddError)
    (drivers : option A → InflightClaim Q → list string) : SchedulerOps (option (Sched Q A)) Q := {|
  add := λ os p,
    match os ≫= λ s, addPod s p with
    | Some (s, err) => (Some s, err)
    | None => (None, Some Unschedulable)
    end;
  Scheduler.topologyUpdate := λ os p,
    s ← os; Some (withShared s (sc_newNodeClaims s) (topologyUpdate (sc_topology s) p) (sc_reservationManager s) (sc_allocator s));
  updateCachedPodData := λ os p, s ← os; cachePodData s p;
  cachedRequests := λ os uid, from_option pd_Requests ∅ (os ≫= λ s, sc_cachedPodData s !! uid);
  finalize := λ os, s ← os; finalizeClaims drivers s;
  ctxErr := λ os, s ← os; ctxDone s;
|}.
End placing.

(** * Theory *)

Section theory.
Context {LT : LabelTables} {PL : ProviderLabels} {TL : TaintLib} {GR : GoRange} {GS : GoSort} {PS : Parsers}
  {SA : StorageAPI} {CA : ClaimAPI} {Q A : Type} `{Quantity Q} {NI : NetIP} {PR : PodResources Q}
  {DA : DeviceAllocator Q A} {NDA : NodeDeviceAllocator Q A}
  (overrideKey : Offering Q → string * string) (rand : Z → Z)
  (opts : Options) (schedule : Sched Q A → Pod → Interleaving).
Implicit Types (s : Sched Q A) (p : Pod) (d : PodData Q) (nc : InflightClaim Q).

Abbreviation canTake := (canAddTo overrideKey rand opts).
Abbreviation candidateOn := (inflightPlacement overrideKey rand opts).

(** ** Free placements *)

(** An unpriced NodeClaim is a candidate at no cost. *)
Lemma inflightPlacement_unpriced s d p i nc :
  sc_newNodeClaims s !! i = Some nc → marginalCostPrices opts nc = false → canTake s d p i ≠ Some None →
  candidateOn s d p i = Some (pl ← canTake s d p i; (λ pl, (i, pl, fofint 0, false)) <$> pl).
Proof.
  intros Hi Hm Hno. unfold inflightPlacement. rewrite Hi. cbn [mbind option_bind].
  destruct (canTake s d p i) as [[pl|]|]; [|done|done]. rewrite Hm. done.
Qed.

(** Among free candidates the first is never displaced. *)
Lemma cheapest_free (cs : list (InflightPlacement (Q := Q))) :
  (∀ c, c ∈ cs → deltaOf c = fofint 0) → cheapest cs = head cs.
Proof.
  destruct cs as [|c cs]; [done|]. intros Hfree. unfold cheapest. cbn [foldl head].
  assert (∀ b, deltaOf b = fofint 0 → foldl (λ best c0, match best with None => Some c0
    | Some b => if cheaperThan (deltaOf c0) (deltaOf b) then Some c0 else best end) (Some b) cs = Some b) as Hf.
  { assert (∀ c0, c0 ∈ cs → deltaOf c0 = fofint 0) as Hcs by (intros; by apply Hfree, list_elem_of_further).
    clear Hfree. induction cs as [|c1 cs IH]; intros b Hb; cbn [foldl]; [done|].
    rewrite Hb, (Hcs c1 (list_elem_of_here _ _)). replace (cheaperThan (fofint 0) (fofint 0)) with false by (vm_compute; reflexivity).
    apply IH; [by intros; apply Hcs, list_elem_of_further|done]. }
  apply Hf, Hfree, list_elem_of_here.
Qed.

(** The first candidate of the list is what the scan finds. *)
Lemma head_omap_seq {R : Type} (f : nat → option R) n k :
  head (omap f (seq k n)) = (i ← List.find (λ i, bool_decide (is_Some (f i))) (seq k n); f i).
Proof.
  revert k. induction n as [|n IH]; intros k; [done|]. cbn [seq omap list_omap List.find].
  destruct (f k) eqn:Hk; case_bool_decide as Hs; simpl; rewrite ?Hk; [done|by destruct Hs|by destruct Hs|apply IH].
Qed.

Lemma inflightPlacements_unpriced s d p :
  (∀ nc, nc ∈ sc_newNodeClaims s → marginalCostPrices opts nc = false) → (∀ i, canTake s d p i ≠ Some None) →
  inflightPlacements overrideKey rand opts s d p =
    Some (omap (λ i, pl ← canTake s d p i; (λ pl, (i, pl, fofint 0, false)) <$> pl) (seq 0 (length (sc_newNodeClaims s)))).
Proof.
  intros Hm Hno. unfold inflightPlacements.
  assert (∀ ixs, (∀ i, i ∈ ixs → (i < length (sc_newNodeClaims s))%nat) →
    mapM (candidateOn s d p) ixs = Some ((λ i, pl ← canTake s d p i; (λ pl, (i, pl, fofint 0, false)) <$> pl) <$> ixs)) as Hall.
  { induction ixs as [|i ixs IH]; intros Hlt; [done|].
    destruct (lookup_lt_is_Some_2 (sc_newNodeClaims s) i) as [nc Hi]; [apply Hlt, list_elem_of_here|].
    cbn [mapM fmap list_fmap]. rewrite (inflightPlacement_unpriced s d p i nc Hi), IH; [done|..|done].
    - by intros; apply Hlt, list_elem_of_further.
    - apply Hm. by eapply list_elem_of_lookup_2. }
  rewrite Hall by (intros i Hi; apply elem_of_seq in Hi; lia). cbn [mbind option_bind]. f_equal.
  generalize (seq 0 (length (sc_newNodeClaims s))). intros ixs. induction ixs as [|i ixs IH]; [done|].
  rewrite fmap_cons. cbn [omap list_omap]. unfold id at 1. rewrite IH. done.
Qed.

(** Where no in-flight NodeClaim is priced, placing by marginal cost is
    binpacking: every candidate that fits costs nothing, so the first one is
    joined and a new NodeClaim is opened only when none fits.  (No candidate may
    panic, as binpacking stops at the first fit and pricing evaluates all.) *)
Theorem marginal_unpriced_is_binpack s d p
    (Hunpriced : ∀ nc, nc ∈ sc_newNodeClaims s → marginalCostPrices opts nc = false)
    (Hnopanic : ∀ i, canTake s d p i ≠ Some None) :
  addByMarginalCost overrideKey rand opts schedule s d p = addBinpack overrideKey rand opts schedule s d p.
Proof.
  unfold addByMarginalCost, cheapestInflightPlacement, addBinpack, addToInflightNode.
  rewrite inflightPlacements_unpriced by done. cbn [mbind option_bind]. rewrite cheapest_free.
  2:{ intros c (i & _ & Hc)%list_elem_of_omap. destruct (canTake s d p i) as [[pl|]|]; cbn in Hc; [|done..]. by injection Hc as <-. }
  rewrite head_omap_seq. unfold firstFit.
  assert (∀ ixs, List.find (λ i, bool_decide (is_Some (pl ← canTake s d p i; (λ pl, (i, pl, fofint 0, false)) <$> pl))) ixs =
    List.find (λ i, bool_decide (is_Some (canTake s d p i))) ixs) as Hfind.
  { induction ixs as [|i ixs IH]; [done|]. cbn [List.find]. rewrite IH. specialize (Hnopanic i).
    destruct (canTake s d p i) as [[pl|]|]; [|done|]; cbn; done. }
  rewrite Hfind. destruct (List.find _ _) as [i|]; cbn [mbind option_bind]; [|done]. specialize (Hnopanic i).
  destruct (canTake s d p i) as [[pl|]|]; cbn [mbind option_bind fmap option_fmap option_map]; [|done|done].
  change (fltb (fofint 0) (deltaOf (i, pl, fofint 0, false))) with false. unfold commitInflightPlacement.
  by destruct (commitInflight rand s d p i pl).
Qed.

(** ** Annotations *)

(** NodeClaims of one pool share the annotation map of their template, so a
    NodeClaim that is only evaluated, and perhaps never opened, decides what the
    min-values annotation of every NodeClaim of its pool says. *)
Theorem evaluation_overwrites_annotation s d p s' nc pl nc0
    (Hev : evaluateNewNodeClaim overrideKey rand opts schedule s d p = Some (s', inr (nc, pl)))
    (Hshared : ic_Annotations nc0 = SharedWithTemplate (ic_NodePoolName nc)) :
  sc_newNodeClaims s' = sc_newNodeClaims s ∧
  annotationsOf (sc_annotations s') (ic_Annotations nc0) !! MinValuesRelaxedKey =
    Some (if minValuesRelaxed nc (pl_Requirements pl) then "true"%string else "false"%string).
Proof.
  unfold evaluateNewNodeClaim in Hev. destruct (firstFit _ _) as [[i [| |nc1 pl1]]|]; try done.
  - injection Hev as <- <- <-. split; [done|]. rewrite Hshared. unfold annotationsOf, writeAnnotation, withEvaluated.
    cbn [sc_annotations]. rewrite lookup_insert_eq. apply lookup_insert_eq.
  - by destruct (sc_nodeClaimTemplates s).
Qed.
End theory.
