(* ===== verification/Pass.v ===== *)
(** * A whole scheduling pass

    The components put together: [Solve] of [Scheduler.v] run with the placement
    of [Placing.v].  The invariant of a pass says what is true of the existing
    nodes, the NodeClaims, the reservations and the limits after any number of
    pods was placed; every operation of the loop keeps it and none panics, so it
    holds of the result of [Solve]. *)

From Stdlib Require Import DecimalString DecimalN.
From S2P Require Import Prelude Strconv Float64 Requirement Kube Taints HostPorts Volumes PodUtils Preferences Parallel Requirements Resources Scheduler StateNode InstanceTypes ReservationManager TopologyGroup Topology Limits NodeClaim ExistingNode Packing Placing.

(** ** Placeholder names *)

Lemma decimal_value id : ∃ u, NilEmpty.uint_of_string (decimal id) = Some u ∧ N.of_uint u = Z.to_N id.
Proof.
  unfold decimal, NilZero.string_of_uint. destruct (N.to_uint (Z.to_N id)) as [|u|u|u|u|u|u|u|u|u|u] eqn:Hu.
  { exists (Decimal.D0 Decimal.Nil). split; [done|]. by rewrite <- (DecimalN.Unsigned.of_to (Z.to_N id)), Hu. }
  all: eexists; split; [apply NilEmpty.usu|rewrite <- Hu; apply DecimalN.Unsigned.of_to].
Qed.

Lemma zeros_value k w u :
  NilEmpty.uint_of_string w = Some u →
  ∃ u', NilEmpty.uint_of_string (zeros k w) = Some u' ∧ N.of_uint u' = N.of_uint u.
Proof.
  intros Hw. induction k as [|k (u' & Hk & Heq)]; [by exists u|].
  exists (Decimal.D0 u'). cbn [zeros NilEmpty.uint_of_string]. rewrite Hk. by split.
Qed.

(** Different NodeClaims get different placeholder names. *)
Lemma placeholderName_inj a b : 0 <= a → 0 <= b → placeholderName a = placeholderName b → a = b.
Proof.
  intros Ha Hb Heq. apply (inj (String.append "hostname-placeholder-")) in Heq.
  destruct (decimal_value a) as (ua & Hua & Hva), (decimal_value b) as (ub & Hub & Hvb).
  destruct (zeros_value (4 - String.length (decimal a)) _ _ Hua) as (ua' & Ha1 & Ha2).
  destruct (zeros_value (4 - String.length (decimal b)) _ _ Hub) as (ub' & Hb1 & Hb2).
  rewrite Heq in Ha1. assert (ua' = ub') as -> by congruence. apply Z2N.inj; congruence.
Qed.

(** ** Pods whose requirements can be read *)

Section pod_theory.
Context {LT : LabelTables} `{TolerationLaws} (sortDesc : list PreferredSchedulingTerm → list PreferredSchedulingTerm).
Hypothesis sortDesc_perm : ∀ l, sortDesc l ≡ₚ l.
Implicit Types (p : Pod).

(** No comparison lacks its operand, as the API server validates. *)
Definition exprs_ok (exprs : list NodeSelectorExpr) : Prop :=
  ∀ e, e ∈ exprs → NewRequirementWithFlexibility_panics (ex_Operator e) (ex_Values e) = false.

Definition pod_ok p : Prop :=
  (∀ t, t ∈ requiredTerms p → exprs_ok (nt_MatchExpressions t)) ∧
  (∀ t, t ∈ preferredNodeTerms p → exprs_ok (nt_MatchExpressions (pt_Preference t))).

Lemma Relax_pod_ok tol p p' : pod_ok p → Relax tol p = Some p' → pod_ok p'.
Proof. intros [Hr Hp] [Hr' Hp']%Relax_terms. split; intros t Ht; auto. Qed.

Lemma NewNodeSelectorRequirements_total exprs : exprs_ok exprs → is_Some (NewNodeSelectorRequirements exprs).
Proof.
  unfold NewNodeSelectorRequirements. generalize (∅ : Requirements).
  induction exprs as [|e exprs IH]; intros m Hok; cbn [fmap list_fmap addSelectors]; [eauto|].
  simpl. rewrite (Hok e (list_elem_of_here _ _)). apply IH. intros e' ?. by apply Hok, list_elem_of_further.
Qed.

Lemma newPodRequirements_total p typ : pod_ok p → is_Some (newPodRequirements sortDesc p typ).
Proof.
  intros [Hr Hp]. unfold newPodRequirements, requiredTerms, preferredNodeTerms in *.
  destruct (pod_Affinity p ≫= af_NodeAffinity) as [na|]; [|eauto]. simpl in *.
  assert (∀ m, is_Some (match na_Required na with
    | Some (term :: _) => req ← NewNodeSelectorRequirements (nt_MatchExpressions term); Some (Add m (ReqValues req))
    | _ => Some m end)) as Hreq.
  { intros m. destruct (na_Required na) as [[|term terms]|]; eauto.
    destruct (NewNodeSelectorRequirements_total (nt_MatchExpressions term)) as [req ->]; [|simpl; eauto].
    apply Hr, list_elem_of_here. }
  destruct typ, (na_Preferred na) as [|t ts] eqn:Hpref; simpl; try apply Hreq.
  destruct (sortDesc (t :: ts)) as [|h hs] eqn:Hs.
  { pose proof (sortDesc_perm (t :: ts)) as Hperm. rewrite Hs in Hperm. by apply Permutation_nil_cons in Hperm. }
  simpl. destruct (NewNodeSelectorRequirements_total (nt_MatchExpressions (pt_Preference h))) as [pref ->]; [|simpl; apply Hreq].
  apply Hp. rewrite <- sortDesc_perm, Hs. apply list_elem_of_here.
Qed.
End pod_theory.

(** ** The invariant *)

Section pass_theory.
Context {LT : LabelTables} {LTok : LabelTablesOk} {PL : ProviderLabels} {TL : TaintLib} {GR : GoRange} {GS : GoSort}
  {PS : Parsers} {SA : StorageAPI} {CA : ClaimAPI} {Q A : Type} `{QuantityLaws Q} {NI : NetIP} {NIL : NetIPLaws}
  {PR : PodResources Q} {DA : DeviceAllocator Q A} {DAL : DeviceAllocatorLaws Q A} {NDA : NodeDeviceAllocator Q A}
  (overrideKey : Offering Q → string * string) (rand : Z → Z)
  (sortDesc : list PreferredSchedulingTerm → list PreferredSchedulingTerm)
  (opts : Options) (schedule : Sched Q A → Pod → Interleaving).
(** The state the pass started from: the capacity of every reservation, the
    existing nodes and what remained of the limits. *)
Context (known : gmap string Z) (nodes0 : list (ExistingNode Q)) (rem0 : gmap string (ResourceList Q)).
Hypothesis known_ok : capacity_ok known.
Hypothesis sortDesc_perm : ∀ l, sortDesc l ≡ₚ l.
(** The counter of placeholder names only grows. *)
Hypothesis schedule_fresh : ∀ s p i,
  sc_nodeID s < il_placeholder (schedule s p) i <= il_nodeID (schedule s p).
Hypothesis requests_nonneg : ∀ p, nonneg (RequestsForPods PodRequestsOf [p]).
Implicit Types (s : Sched Q A) (p : Pod) (d : PodData Q) (nc : InflightClaim Q) (n : ExistingNode Q)
  (l : list Pod) (it : InstanceType Q).

(** What is cached about the pod now is what it asks for. *)
Definition requirementsOf p : option Requirements :=
  if PreferencePolicyIgnore opts then NewStrictPodRequirements sortDesc p else NewPodRequirements sortDesc p.

Definition data_of p d : Prop :=
  pd_Requests d = RequestsForPods PodRequestsOf [p] ∧ requirementsOf p = Some (pd_Requirements d).

Record good p d : Prop := {
  gd_wf : podData_wf d;
  gd_nonneg : nonneg (pd_Requests d);
  gd_of : data_of p d;
}.

Record template_ok (groups : list (DaemonOverheadGroup Q)) (t : NodeClaimTemplate Q) : Prop := {
  to_wf : Requirements_wf (tp_Requirements t);
  to_offerings : offerings_ok rand known groups;
  to_overhead : ∀ g : DaemonOverheadGroup Q, g ∈ groups → nonneg (dg_DaemonOverhead g);
  to_capacity : ∀ (g : DaemonOverheadGroup Q) it, g ∈ groups → it ∈ dg_InstanceTypes g → nonneg (it_Capacity it);
  (** the groups are made of the template's instance types, told apart by name *)
  to_names : ∀ (g : DaemonOverheadGroup Q) it other, g ∈ groups → it ∈ dg_InstanceTypes g →
    other ∈ tp_InstanceTypeOptions t → it_Name other = it_Name it → other = it;
}.

Record claim_ok (rm : ReservationManager) (nodeID : Z) nc : Prop := {
  co_placed : ∃ placed, placed ≠ [] ∧ claim_inv overrideKey nc placed ∧ Forall (λ x, data_of x.1 x.2) placed;
  co_reserves : reserves rand nc rm;
  co_offerings : offerings_ok rand known (ic_daemonOverheadGroups nc);
  co_names : ∀ (g : DaemonOverheadGroup Q) it other, g ∈ ic_daemonOverheadGroups nc → it ∈ dg_InstanceTypes g →
    other ∈ ic_InstanceTypeOptions nc → it_Name other = it_Name it → other = it;
  co_host : ∃ id, ic_hostname nc = placeholderName id ∧ 0 <= id <= nodeID;
}.

Definition placedPods s : list Pod := mjoin (en_Pods <$> sc_existingNodes s) ++ mjoin (ic_Pods <$> sc_newNodeClaims s).

(** The instance types each NodeClaim was opened with; it keeps some of them. *)
Definition opened_ok (claims : list (InflightClaim Q)) (rem : gmap string (ResourceList Q)) : Prop :=
  ∃ os : list (InflightClaim Q * list (InstanceType Q)),
    os.*1 ≡ₚ claims ∧
    rtc open_step (rem0, []) (rem, (λ x, (ic_NodePoolName x.1, x.2)) <$> os) ∧
    ∀ x it, x ∈ os → it ∈ ic_InstanceTypeOptions x.1 → it ∈ x.2.

Record sched_inv s l : Prop := {
  si_nodes : Forall2 (λ n0 n, ∃ placed, existing_inv n0 n placed ∧ Forall (λ x, data_of x.1 x.2) placed) nodes0 (sc_existingNodes s);
  si_claims : ∀ nc, nc ∈ sc_newNodeClaims s → claim_ok (sc_reservationManager s) (sc_nodeID s) nc;
  si_hosts : NoDup (ic_hostname <$> sc_newNodeClaims s);
  si_held : ∀ h id, holds (sc_reservationManager s) h id = true → h ∈ ic_hostname <$> sc_newNodeClaims s;
  si_conserved : conserved known (sc_reservationManager s);
  si_knows : knows known (sc_reservationManager s);
  si_templates : ∀ t, t ∈ sc_nodeClaimTemplates s → template_ok (templateGroups s t) t;
  si_volumes : ∀ uid vs, sc_volumeReqsByPod s !! uid = Some vs → Forall Requirements_wf vs;
  si_counter : 0 <= sc_nodeID s;
  si_placed : placedPods s ≡ₚ mjoin (en_Pods <$> nodes0) ++ l;
  si_opened : opened_ok (sc_newNodeClaims s) (sc_remainingResources s);
  si_from : sc_nodeClaimTemplates s = [] → sc_newNodeClaims s = [];
}.

(** *** Changes that place nothing *)

Lemma claim_ok_mono rm id id' nc : id <= id' → claim_ok rm id nc → claim_ok rm id' nc.
Proof.
  intros Hle [Hp Hr Ho Hn (k & ? & ?)]. split; [done..|]. exists k. split; [done|lia].
Qed.

Lemma withEvaluated_inv s l annotations nodeID :
  sched_inv s l → sc_nodeID s <= nodeID → sched_inv (withEvaluated s annotations nodeID) l.
Proof.
  intros [] Hle. split; try done.
  - intros nc Hnc. apply (claim_ok_mono _ (sc_nodeID s)); [done|auto].
  - cbn [withEvaluated sc_nodeID]. lia.
Qed.

Lemma withClaims_perm_inv s l claims :
  sched_inv s l → claims ≡ₚ sc_newNodeClaims s → sched_inv (withClaims s claims) l.
Proof.
  intros [Hn Hc Hh Hheld Hcons Hk Ht Hv Hid Hp (os & Hos & Hrun & Hopt) Hfrom] Hperm. split; try done; cbn [withClaims sc_newNodeClaims].
  - intros nc Hnc. rewrite Hperm in Hnc. by apply Hc.
  - by rewrite Hperm.
  - intros h id Hid'. rewrite Hperm. by apply (Hheld h id).
  - unfold placedPods in *. cbn [withClaims sc_newNodeClaims sc_existingNodes]. by rewrite Hperm.
  - exists os. split; [by rewrite Hperm|done].
  - intros Hnil%Hfrom. rewrite Hnil in Hperm. by apply Permutation_nil_r.
Qed.

Lemma withTopology_inv s l t :
  sched_inv s l → sched_inv (withShared s (sc_newNodeClaims s) t (sc_reservationManager s) (sc_allocator s)) l.
Proof. by intros []. Qed.

Lemma cachePodData_inv s l p :
  sched_inv s l → pod_ok p → ∃ s' d, cachePodData sortDesc opts s p = Some s' ∧ sched_inv s' l ∧
    sc_cachedPodData s' = <[pod_UID p := d]> (sc_cachedPodData s) ∧ good p d.
Proof.
  intros Hinv Hok. unfold cachePodData.
  assert (∀ typ, is_Some (newPodRequirements sortDesc p typ)) as Htotal by (intros; by apply newPodRequirements_total).
  destruct (Htotal podRequirementTypeAll) as [all Hall], (Htotal podRequirementTypeRequiredOnly) as [strict Hstrict].
  fold (requirementsOf p).
  assert (∃ reqs, requirementsOf p = Some reqs ∧ Requirements_wf reqs) as (reqs & Hreqs & Hwf).
  { unfold requirementsOf, NewStrictPodRequirements, NewPodRequirements.
    destruct (PreferencePolicyIgnore opts); eexists; (split; [done|]); by eapply newPodRequirements_wf. }
  rewrite Hreqs. cbn [mbind option_bind].
  assert (∃ sreqs, (if HasPreferredNodeAffinity (Some p) then NewStrictPodRequirements sortDesc p else Some reqs) = Some sreqs)
    as (sreqs & ->).
  { destruct (HasPreferredNodeAffinity (Some p)); [|eauto]. unfold NewStrictPodRequirements. eauto. }
  cbn [mbind option_bind]. destruct (match sc_allocator s with Some _ => _ | None => _ end) as [cache claims].
  eexists _, _. split; [done|]. cbn [sc_cachedPodData]. split_and!; [|done|].
  - destruct Hinv as [Hn Hc Hh Hheld Hcons Hk Ht Hv Hid Hp Hopen Hfrom]. by split.
  - split; [|apply requests_nonneg|done]. split; [done|]. cbn [pd_VolumeRequirements].
    destruct (sc_volumeReqsByPod s !! pod_UID p) eqn:Hvs; [|constructor]. by apply (si_volumes s l Hinv (pod_UID p)).
Qed.

(** *** Existing nodes *)

Lemma join_insert_snoc {X : Type} (f : X → list Pod) (xs : list X) i x y p :
  xs !! i = Some x → f y = f x ++ [p] → mjoin (f <$> <[i := y]> xs) ≡ₚ mjoin (f <$> xs) ++ [p].
Proof.
  intros Hi Hf. rewrite <- (take_drop_middle xs i x Hi) at 2.
  rewrite insert_take_drop by (by eapply lookup_lt_Some). rewrite !fmap_app, !fmap_cons, !join_app. simpl. rewrite Hf.
  rewrite <- !app_assoc. apply Permutation_app_head, Permutation_app_head. apply Permutation_app_comm.
Qed.

Lemma addToExistingNode_inv s l d p :
  sched_inv s l → good p d →
  addToExistingNode opts s d p = Some (inl tt) ∨
  ∃ s', addToExistingNode opts s d p = Some (inr s') ∧ sched_inv s' (l ++ [p]) ∧ sc_cachedPodData s' = sc_cachedPodData s.
Proof.
  intros Hinv Hg. unfold addToExistingNode. destruct (GetVolumes p) as [vols|]; [|by left].
  destruct (firstFit _ _) as [[i r]|] eqn:Hfit; [|by left]. right.
  apply firstFit_found in Hfit as (_ & Hi & _). unfold existingCandidate in Hi.
  destruct (_ && _) in Hi; [done|]. apply bind_Some in Hi as (n & Hn & Hi). unfold candidate in Hi.
  destruct (CanAddToNode n _ _ p d vols) as [|e|[reqs res]] eqn:Hcan; [by apply CanAddToNode_no_panic in Hcan|done|].
  injection Hi as <-. rewrite Hn. cbn [mbind option_bind].
  destruct Hinv as [Hnodes Hc Hh Hheld Hcons Hk Ht Hv Hid Hp Hopen Hfrom].
  destruct (Forall2_lookup_r _ _ _ _ _ Hnodes Hn) as (n0 & Hn0 & placed & Hin & Hdata).
  pose proof (existing_add_inv n0 n placed _ _ p d vols reqs res (gd_wf p d Hg) (gd_nonneg p d Hg) Hcan Hin) as Hin'.
  pose proof Hin' as [Hpods' _ _ _ _ _ _ _ _ _]. pose proof Hin as [Hpods _ _ _ _ _ _ _ _ _].
  destruct (AddToNode n _ _ p d reqs vols res) as [[n' t'] alloc'] eqn:Hadd. cbn [fst] in *. eexists. split; [done|].
  split; [|done]. split; try done; cbn [withNode sc_existingNodes].
  - rewrite <- (list_insert_id nodes0 i n0 Hn0). apply Forall2_insert; [done|].
    eexists. split; [exact Hin'|]. apply Forall_app. split; [done|]. constructor; [apply Hg|constructor].
  - unfold placedPods in *. cbn [withNode sc_existingNodes sc_newNodeClaims].
    rewrite (join_insert_snoc en_Pods _ i n n' p Hn).
    + rewrite (assoc_L (++)), <- Hp, <- !app_assoc. apply Permutation_app_head, Permutation_app_comm.
    + rewrite Hpods', Hpods, fmap_app, (assoc_L (++)). done.
Qed.

(** *** NodeClaims *)

(** What a pod is added to: a NodeClaim in flight, or one just built. *)
Record claim_ready (rm : ReservationManager) nc placed : Prop := {
  cr_inv : claim_inv overrideKey nc placed;
  cr_data : Forall (λ x, data_of x.1 x.2) placed;
  cr_reserves : reserves rand nc rm;
  cr_offerings : offerings_ok rand known (ic_daemonOverheadGroups nc);
  cr_names : ∀ (g : DaemonOverheadGroup Q) it other, g ∈ ic_daemonOverheadGroups nc → it ∈ dg_InstanceTypes g →
    other ∈ ic_InstanceTypeOptions nc → it_Name other = it_Name it → other = it;
}.

Definition can_add s nc d p relax : outcome (CanAddError Q) (Placement Q) :=
  CanAdd overrideKey rand (ReservedCapacity opts) nc (sc_topology s) (sc_reservationManager s) (sc_allocator s) p d relax.

Lemma can_add_no_panic s l nc d p relax :
  sched_inv s l → offerings_ok rand known (ic_daemonOverheadGroups nc) → can_add s nc d p relax ≠ Panic.
Proof. intros Hinv Hofs. by apply (CanAdd_no_panic overrideKey rand _ known); [apply (si_knows s l)|]. Qed.

(** Adding a pod that fits: the NodeClaim is in flight with one more pod, and
    only its own reservations changed. *)
Lemma AddPod_ready s l nc placed d p relax pl :
  sched_inv s l → claim_ready (sc_reservationManager s) nc placed → good p d →
  can_add s nc d p relax = Done pl →
  ∃ nc' t' rm' alloc',
    AddPod rand nc (sc_topology s) (sc_reservationManager s) (sc_allocator s) p d pl = Some (nc', t', rm', alloc') ∧
    claim_ready rm' nc' (placed ++ [(p, d)]) ∧ conserved known rm' ∧ knows known rm' ∧
    (∀ h id, h ≠ ic_hostname nc → holds rm' h id = holds (sc_reservationManager s) h id) ∧
    ic_hostname nc' = ic_hostname nc ∧ ic_NodePoolName nc' = ic_NodePoolName nc ∧ ic_Pods nc' = ic_Pods nc ++ [p] ∧
    ic_InstanceTypeOptions nc' ≠ [] ∧
    ∀ it, it ∈ ic_InstanceTypeOptions nc' →
      it ∈ ic_InstanceTypeOptions nc ∧ ∃ g, g ∈ ic_daemonOverheadGroups nc ∧ it ∈ dg_InstanceTypes g.
Proof.
  intros Hs [Hci Hdata Hres Hofs Hnames] Hg Hcan.
  destruct (AddPod_keeps overrideKey rand (ReservedCapacity opts) known nc (sc_topology s) (sc_reservationManager s)
    (sc_allocator s) p d relax pl known_ok (si_conserved s l Hs) Hres (ci_wf _ _ _ Hci) (gd_wf p d Hg) Hcan)
    as (nc' & t' & rm' & alloc' & Hadd & Hcons & Hres' & Hhost & Hother).
  exists nc', t', rm', alloc'. split; [done|].
  assert (claim_inv overrideKey nc' (placed ++ [(p, d)])) as Hci'.
  { apply (claim_step_inv (A := A) overrideKey rand (ReservedCapacity opts) nc placed); [done|]. destruct Hg. by econstructor. }
  pose proof (CanAdd_ok _ _ _ _ _ _ _ _ _ _ _ (ci_wf _ _ _ Hci) (gd_wf p d Hg) Hcan) as [_ _ _ _ _ Hsome Htypes _].
  pose proof (AddPod_fields _ _ _ _ _ _ _ _ _ _ _ _ Hadd) as Hnc.
  assert (∀ it, it ∈ pl_InstanceTypes pl → it ∈ ic_InstanceTypeOptions nc ∧
    ∃ g, g ∈ ic_daemonOverheadGroups nc ∧ it ∈ dg_InstanceTypes g) as Hsub.
  { intros it Hit. destruct (Htypes it Hit) as (g & Hgi & _ & Hig & He & _). split; [|eauto].
    apply existsb_exists in He as (other & Ho & Heq%String.eqb_eq). apply list_elem_of_In in Ho.
    by rewrite <- (Hnames g it other Hgi Hig Ho Heq). }
  subst nc'. cbn [ic_hostname ic_NodePoolName ic_Pods ic_InstanceTypeOptions ic_daemonOverheadGroups] in *.
  split_and!; try done.
  - split; try done; cbn [ic_daemonOverheadGroups ic_InstanceTypeOptions].
    + apply Forall_app. split; [done|]. constructor; [apply Hg|constructor].
    + intros g it o (g0 & -> & Hg0)%list_elem_of_fmap. cbn [dg_InstanceTypes]. by apply Hofs.
    + intros g it other (g0 & -> & Hg0)%list_elem_of_fmap. cbn [dg_InstanceTypes]. intros Hit [Ho _]%Hsub. by apply (Hnames g0).
  - intros id Hid. eapply AddPod_tracks; [done|]. by apply (si_knows s l Hs).
Qed.

Lemma claim_ok_ready rm id nc : claim_ok rm id nc → ∃ placed, claim_ready rm nc placed.
Proof. intros [(placed & _ & Hci & Hdata) Hr Ho Hn _]. by exists placed. Qed.

Lemma ready_claim_ok rm id nc placed k :
  claim_ready rm nc placed → placed ≠ [] → ic_hostname nc = placeholderName k → 0 <= k <= id → claim_ok rm id nc.
Proof. intros [Hci Hdata Hr Ho Hn] Hp Hh Hk. split; eauto 6. Qed.

(** A NodeClaim keeps what it listed when only another host's reservations
    changed. *)
Lemma claim_ok_other rm rm' id nc host :
  claim_ok rm id nc → ic_hostname nc ≠ host → (∀ h i, h ≠ host → holds rm' h i = holds rm h i) → claim_ok rm' id nc.
Proof.
  intros [Hp [Hids Hheld] Ho Hn Hh] Hne Hsame. split; try done. split; [done|]. intros i. by rewrite Hsame.
Qed.

Lemma opened_ok_replace claims rem i nc nc' :
  opened_ok claims rem → claims !! i = Some nc → ic_NodePoolName nc' = ic_NodePoolName nc →
  (∀ it, it ∈ ic_InstanceTypeOptions nc' → it ∈ ic_InstanceTypeOptions nc) → opened_ok (<[i := nc']> claims) rem.
Proof.
  intros (os & Hos & Hrun & Hopt) Hi Hpool Hsub.
  assert (nc ∈ os.*1) as ([nc0 o] & Heq & Hin)%list_elem_of_fmap by (rewrite Hos; by eapply list_elem_of_lookup_2).
  simpl in Heq. subst nc0. apply list_elem_of_split in Hin as (os1 & os2 & ->).
  exists (os1 ++ (nc', o) :: os2). split_and!.
  - rewrite <- (take_drop_middle claims i nc Hi) in Hos. rewrite insert_take_drop by (by eapply lookup_lt_Some).
    rewrite fmap_app, fmap_cons in *. cbn [fst] in *.
    rewrite <- !Permutation_middle in *. apply Permutation_cons_inv in Hos. by rewrite Hos.
  - by rewrite fmap_app, fmap_cons in *; cbn [fst snd] in *; rewrite Hpool.
  - intros x it [Hx|[->|Hx]%elem_of_cons]%elem_of_app Hit.
    + apply Hopt; [apply elem_of_app; by left|done].
    + apply (Hopt (nc, o)); [apply elem_of_app; right; apply list_elem_of_here|by apply Hsub].
    + apply Hopt; [apply elem_of_app; right; by apply list_elem_of_further|done].
Qed.

Lemma commitInflight_inv s l d p i nc pl :
  sched_inv s l → good p d →
  sc_newNodeClaims s !! i = Some nc → can_add s nc d p false = Done pl →
  ∃ s', commitInflight rand s d p i pl = Some s' ∧ sched_inv s' (l ++ [p]) ∧ sc_cachedPodData s' = sc_cachedPodData s.
Proof.
  intros Hs Hg Hi Hcan. assert (nc ∈ sc_newNodeClaims s) as Hin by (by eapply list_elem_of_lookup_2).
  pose proof (si_claims s l Hs nc Hin) as Hok. destruct (claim_ok_ready _ _ _ Hok) as [placed Hready].
  destruct (AddPod_ready s l nc placed d p false pl Hs Hready Hg Hcan)
    as (nc' & t' & rm' & alloc' & Hadd & Hready' & Hcons' & Hk' & Hother & Hhost & Hpool & Hpods & _ & Hopts).
  unfold commitInflight. rewrite Hi. cbn [mbind option_bind]. rewrite Hadd. cbn [mbind option_bind].
  eexists. split; [done|]. split; [|done].
  destruct Hs as [Hnodes Hc Hh Hheld _ _ Ht Hv Hid Hp Hopen Hfrom].
  assert (ic_hostname <$> <[i := nc']> (sc_newNodeClaims s) = ic_hostname <$> sc_newNodeClaims s) as Hhosts.
  { rewrite list_fmap_insert. apply list_insert_id. by rewrite list_lookup_fmap, Hi, Hhost. }
  split; try done; cbn [withShared sc_newNodeClaims sc_reservationManager sc_nodeID sc_existingNodes sc_remainingResources].
  - intros nc2 (j & Hj)%list_elem_of_lookup. rewrite list_lookup_insert_Some in Hj.
    destruct Hj as [(<- & <- & _)|[Hne Hj]].
    + destruct Hok as [_ _ _ _ (k & Hk & Hkb)]. apply (ready_claim_ok _ _ _ _ k Hready'); [by destruct placed|congruence|done].
    + apply (claim_ok_other (sc_reservationManager s) rm' _ nc2 (ic_hostname nc)); [| |done].
      * apply Hc. by eapply list_elem_of_lookup_2.
      * intros Heq. apply Hne. eapply (NoDup_lookup _ i j _ Hh); rewrite list_lookup_fmap; [by rewrite Hi|rewrite Hj; simpl; by rewrite Heq].
  - by rewrite Hhosts.
  - intros h id Hhold. rewrite Hhosts. destruct (decide (h = ic_hostname nc)) as [->|Hne]; [by apply list_elem_of_fmap_2|].
    apply (Hheld h id). by rewrite <- Hother.
  - unfold placedPods in *. cbn [withShared sc_existingNodes sc_newNodeClaims].
    rewrite (join_insert_snoc ic_Pods _ i nc nc' p Hi Hpods), (assoc_L (++)), Hp. by rewrite <- app_assoc.
  - apply (opened_ok_replace _ _ i nc nc' Hopen Hi Hpool). intros it Hit. by apply Hopts.
  - intros Hnil%Hfrom. by rewrite Hnil in Hi.
Qed.

(** *** New NodeClaims *)

Abbreviation evaluateNew := (evaluateNewNodeClaim overrideKey rand opts schedule).

(** The NodeClaim and placement come from a template that passed the limits. *)
Definition evaluated s d p nc pl : Prop :=
  ∃ i t its, sc_nodeClaimTemplates s !! i = Some t ∧
    applyLimits (sc_remainingResources s) (tp_NodePoolName t) (tp_InstanceTypeOptions t) = inr its ∧
    nc = claimFromTemplate opts s t (il_placeholder (schedule s p) i) its ∧
    can_add s nc d p (MinValuesPolicyBestEffort opts) = Done pl.

Lemma template_no_panic s l d p i :
  sched_inv s l → templateCandidate overrideKey rand opts s (schedule s p) d p i ≠ Some TemplatePanic.
Proof.
  intros Hs. unfold templateCandidate, evaluateTemplate.
  destruct (sc_nodeClaimTemplates s !! i) as [t|] eqn:Ht; [|done]. cbn [mbind option_bind].
  destruct (applyLimits _ _ _) as [rej|its]; [done|].
  match goal with |- context [CanAdd _ _ _ ?nc _ _ _ _ _ _] =>
    pose proof (can_add_no_panic s l nc d p (MinValuesPolicyBestEffort opts) Hs) as Hno end.
  unfold can_add in Hno. cbn [claimFromTemplate NewInflightClaim ic_daemonOverheadGroups] in Hno.
  destruct (CanAdd _ _ _ _ _ _ _ _ _ _) as [|[e b]|pl]; [|by destruct e|done].
  destruct Hno; [|done]. apply (to_offerings _ t), (si_templates s l Hs). by eapply list_elem_of_lookup_2.
Qed.

Lemma evaluateNew_inv s l d p :
  sched_inv s l → sc_nodeClaimTemplates s ≠ [] →
  ∃ store result, evaluateNew s d p = Some (withEvaluated s store (il_nodeID (schedule s p)), result) ∧
    sched_inv (withEvaluated s store (il_nodeID (schedule s p))) l ∧
    ∀ nc pl, result = inr (nc, pl) → evaluated s d p nc pl.
Proof.
  intros Hs Hne.
  assert (∀ store, sched_inv (withEvaluated s store (il_nodeID (schedule s p))) l) as Hinv.
  { intros store. apply withEvaluated_inv; [done|]. pose proof (schedule_fresh s p 0%nat). lia. }
  unfold evaluateNewNodeClaim.
  destruct (firstFit _ _) as [[i r]|] eqn:Hfit.
  2:{ destruct (sc_nodeClaimTemplates s); [done|]. eexists _, _. split; [done|]. split; [done|]. by intros nc pl [=]. }
  apply firstFit_found in Hfit as (_ & Hi & _). pose proof (template_no_panic s l d p i Hs) as Hno.
  destruct r as [| |nc pl]; [done| |].
  { eexists _, _. split; [done|]. split; [done|]. by intros nc pl [=]. }
  eexists _, _. split; [done|]. split; [done|]. intros nc' pl' [= <- <-].
  unfold templateCandidate, evaluateTemplate in Hi.
  destruct (sc_nodeClaimTemplates s !! i) as [t|] eqn:Ht; [|done]. cbn [mbind option_bind] in Hi.
  destruct (applyLimits _ _ _) as [rej|its] eqn:Hl; [done|].
  destruct (CanAdd _ _ _ _ _ _ _ _ _ _) as [|[e b]|pl0] eqn:Hcan; [done|by destruct e|]. injection Hi as <- <-.
  exists i, t, its. done.
Qed.

Lemma fresh_claim_ready s l d p nc pl :
  sched_inv s l → evaluated s d p nc pl →
  claim_ready (sc_reservationManager s) nc [] ∧
  (∃ k, ic_hostname nc = placeholderName k ∧ sc_nodeID s < k <= il_nodeID (schedule s p)) ∧
  (ic_hostname nc ∉ ic_hostname <$> sc_newNodeClaims s) ∧ ic_Pods nc = [].
Proof.
  intros Hs (i & t & its & Ht & Hl & -> & _).
  assert (t ∈ sc_nodeClaimTemplates s) as Hin by (by eapply list_elem_of_lookup_2).
  destruct (si_templates s l Hs t Hin) as [Hwf Hofs Hov Hcap Hnames].
  pose proof (schedule_fresh s p i) as Hfresh. pose proof (si_counter s l Hs) as Hpos.
  assert (placeholderName (il_placeholder (schedule s p) i) ∉ ic_hostname <$> sc_newNodeClaims s) as Hnew.
  { intros (nc & Heq & Hnc)%list_elem_of_fmap. destruct (si_claims s l Hs nc Hnc) as [_ _ _ _ (k & Hk & Hb)].
    rewrite Hk in Heq. apply placeholderName_inj in Heq; lia. }
  split_and!; [|by eexists|done|done]. split.
  - by apply NewInflightClaim_inv.
  - constructor.
  - split; [by intros o ?%not_elem_of_nil|]. intros id. split; [|by intros (o & ?%not_elem_of_nil & _)].
    intros Hh. by apply (si_held s l Hs) in Hh.
  - done.
  - intros g it other Hg Hit Ho Heq. apply (Hnames g it other Hg Hit); [|done].
    by destruct (applyLimits_options _ _ _ _ other Hl Ho).
Qed.

Lemma commitNew_inv s l d p store nc pl :
  sched_inv s l → evaluated s d p nc pl → good p d →
  ∃ s', commitNewNodeClaim rand (withEvaluated s store (il_nodeID (schedule s p))) d p nc pl = Some s' ∧
    sched_inv s' (l ++ [p]) ∧ sc_cachedPodData s' = sc_cachedPodData s.
Proof.
  intros Hs Hev Hg. destruct (fresh_claim_ready s l d p nc pl Hs Hev) as (Hready & (k & Hk & Hkb) & Hnew & Hnopods).
  pose proof Hev as (i & t & its & Ht & Hl & Hnc & Hcan).
  assert (t ∈ sc_nodeClaimTemplates s) as Hin by (by eapply list_elem_of_lookup_2).
  destruct (AddPod_ready s l nc [] d p _ pl Hs Hready Hg Hcan)
    as (nc' & t' & rm' & alloc' & Hadd & Hready' & Hcons' & Hk' & Hother & Hhost & Hpool & Hpods & Hopt & Hopts).
  unfold commitNewNodeClaim. cbn [withEvaluated sc_topology sc_reservationManager sc_allocator]. rewrite Hadd. cbn [mbind option_bind].
  eexists. split; [done|]. split; [|done].
  pose proof (si_counter s l Hs) as Hpos. pose proof (si_templates s l Hs t Hin) as [_ _ _ Hcap _].
  destruct Hs as [Hnodes Hc Hh Hheld _ _ Htem Hv Hid Hp (os & Hos & Hrun & Hos3) Hfrom].
  split; try done; cbn [withShared withRemaining withEvaluated sc_newNodeClaims sc_reservationManager sc_nodeID sc_existingNodes sc_remainingResources].
  - intros nc2 [Hin2| ->%list_elem_of_singleton]%elem_of_app.
    + apply (claim_ok_mono _ (sc_nodeID s)); [lia|].
      apply (claim_ok_other (sc_reservationManager s) rm' _ nc2 (ic_hostname nc)); [by apply Hc| |done].
      intros Heq. apply Hnew. rewrite <- Heq. by apply list_elem_of_fmap_2.
    + apply (ready_claim_ok _ _ _ _ k Hready'); [done|congruence|lia].
  - rewrite fmap_app. apply NoDup_app. split_and!; [done| |apply NoDup_singleton].
    intros h Hin1 Hin2%list_elem_of_singleton. apply Hnew. by rewrite <- Hhost, <- Hin2.
  - intros h id Hhold. rewrite fmap_app, elem_of_app. destruct (decide (h = ic_hostname nc)) as [->|Hne].
    + right. rewrite <- Hhost. apply list_elem_of_here.
    + left. apply (Hheld h id). by rewrite <- Hother.
  - lia.
  - unfold placedPods in *. cbn [withShared withRemaining withEvaluated sc_existingNodes sc_newNodeClaims].
    rewrite fmap_app, join_app, (assoc_L (++)), Hp. cbn [fmap list_fmap mjoin list_join]. rewrite Hpods, Hnopods, app_nil_r.
    by rewrite <- app_assoc.
  - exists (os ++ [(nc', ic_InstanceTypeOptions nc')]). split_and!.
    + rewrite fmap_app, Hos. done.
    + eapply rtc_r; [exact Hrun|]. rewrite fmap_app. cbn [fmap list_fmap fst snd].
      assert (ic_NodePoolName nc' = tp_NodePoolName t) as Heq by (rewrite Hpool, Hnc; done).
      rewrite Heq. eapply (open_claim _ _ _ _ its); [exact Hl|done| |].
      * intros it Hit. destruct (Hopts it Hit) as [Hit' _]. by rewrite Hnc in Hit'.
      * apply Forall_forall. intros it Hit. destruct (Hopts it Hit) as [_ (g & Hgi & Hig)]. apply (Hcap g it); [|done].
        by rewrite Hnc in Hgi.
    + intros x it [Hx| ->%list_elem_of_singleton]%elem_of_app Hit; [by apply Hos3|done].
  - intros Hnil. change (sc_nodeClaimTemplates s = []) in Hnil. by rewrite Hnil in Ht.
Qed.

(** *** [add] *)

(** An attempt: no panic, the invariant with the pod placed or not, and the
    cached data kept. *)
Definition attempt_ok s l p (out : option (Sched Q A * option AddError)) : Prop :=
  ∃ s' r, out = Some (s', r) ∧ sched_inv s' (match r with None => l ++ [p] | Some _ => l end) ∧
    sc_cachedPodData s' = sc_cachedPodData s.

Lemma attempt_fails s l p err : sched_inv s l → attempt_ok s l p (Some (s, Some err)).
Proof. intros. by exists s, (Some err). Qed.

Lemma canAddTo_fits s d p i pl :
  canAddTo overrideKey rand opts s d p i = Some (Some pl) →
  ∃ nc, sc_newNodeClaims s !! i = Some nc ∧ can_add s nc d p false = Done pl.
Proof.
  unfold canAddTo. intros (nc & Hi & Hc)%bind_Some. exists nc. split; [done|]. unfold candidate in Hc. unfold can_add.
  destruct (CanAdd _ _ _ _ _ _ _ _ _ _); congruence.
Qed.

Lemma canAddTo_no_panic s l d p i : sched_inv s l → canAddTo overrideKey rand opts s d p i ≠ Some None.
Proof.
  intros Hs (nc & Hi & Hc)%bind_Some. assert (nc ∈ sc_newNodeClaims s) as Hin by (by eapply list_elem_of_lookup_2).
  pose proof (can_add_no_panic s l nc d p false Hs (co_offerings _ _ _ (si_claims s l Hs nc Hin))) as Hno.
  unfold can_add in Hno. unfold candidate in Hc. destruct (CanAdd _ _ _ _ _ _ _ _ _ _); congruence.
Qed.

Lemma commitInflight_attempt s l d p i pl s0 :
  sched_inv s l → good p d → canAddTo overrideKey rand opts s d p i = Some (Some pl) →
  sc_cachedPodData s = sc_cachedPodData s0 →
  attempt_ok s0 l p (s' ← commitInflight rand s d p i pl; Some (s', None)).
Proof.
  intros Hs Hg (nc & Hi & Hcan)%canAddTo_fits Hsame.
  destruct (commitInflight_inv s l d p i nc pl Hs Hg Hi Hcan) as (s' & -> & Hs' & Hc').
  exists s', None. split_and!; [done|done|congruence].
Qed.

Lemma addToInflightNode_inv s l d p :
  sched_inv s l → good p d →
  addToInflightNode overrideKey rand opts s d p = Some (inl tt) ∨
  ∃ s', addToInflightNode overrideKey rand opts s d p = Some (inr s') ∧ sched_inv s' (l ++ [p]) ∧
    sc_cachedPodData s' = sc_cachedPodData s.
Proof.
  intros Hs Hg. unfold addToInflightNode. destruct (firstFit _ _) as [[i [pl|]]|] eqn:Hfit; [|exfalso|by left].
  - apply firstFit_found in Hfit as (_ & (nc & Hi & Hcan)%canAddTo_fits & _).
    destruct (commitInflight_inv s l d p i nc pl Hs Hg Hi Hcan) as (s' & -> & Hs' & Hc'). right. by exists s'.
  - apply firstFit_found in Hfit as (_ & Hi & _). by apply (canAddTo_no_panic s l d p i Hs).
Qed.

Lemma addToNewNodeClaim_inv s l d p :
  sched_inv s l → good p d → sc_nodeClaimTemplates s ≠ [] →
  attempt_ok s l p (addToNewNodeClaim overrideKey rand opts schedule s d p).
Proof.
  intros Hs Hg Hne. unfold addToNewNodeClaim.
  destruct (evaluateNew_inv s l d p Hs Hne) as (store & result & -> & Hs1 & Hev). cbn [mbind option_bind].
  destruct result as [err|[nc pl]]; [by eexists _, (Some err)|].
  destruct (commitNew_inv s l d p store nc pl Hs (Hev nc pl eq_refl) Hg) as (s' & -> & Hs' & Hc').
  by exists s', None.
Qed.

Lemma addBinpack_inv s l d p s0 :
  sched_inv s l → good p d → sc_cachedPodData s = sc_cachedPodData s0 →
  attempt_ok s0 l p (addBinpack overrideKey rand opts schedule s d p).
Proof.
  intros Hs Hg Hsame. unfold addBinpack.
  destruct (addToInflightNode_inv s l d p Hs Hg) as [->|(s' & -> & Hs' & Hc')]; cbn [mbind option_bind].
  - assert (∀ out, attempt_ok s l p out → attempt_ok s0 l p out) as Hto.
    { intros out (s' & r & -> & Hs' & Hc'). exists s', r. split_and!; [done|done|congruence]. }
    apply Hto. destruct (sc_nodeClaimTemplates s) as [|t ts] eqn:Ht; [by apply attempt_fails|].
    apply addToNewNodeClaim_inv; [done..|]. by rewrite Ht.
  - exists s', None. split_and!; [done|done|congruence].
Qed.

(** *** Placing by price *)

(** The price of a placement can be read. *)
Lemma placement_priced s l nc placed d p relax pl :
  sched_inv s l → claim_ready (sc_reservationManager s) nc placed → podData_wf d → can_add s nc d p relax = Done pl →
  is_Some (claimLaunchPrice rand (pl_InstanceTypes pl) (pl_Requirements pl) (pl_OfferingsToReserve pl)).
Proof.
  intros Hs [Hci _ _ Hofs _] Hd Hcan.
  pose proof (CanAdd_ok _ _ _ _ _ _ _ _ _ _ _ (ci_wf _ _ _ Hci) Hd Hcan) as [_ _ _ _ _ _ Htypes Hres].
  apply (claimLaunchPrice_total rand known).
  - intros o Ho. apply (offeringsToReserve_Done overrideKey _ _ _ _ _ _ _ Hres) in Ho as (_ & _ & _ & Hcr).
    apply CanReserve_true in Hcr as (id & ? & _). eauto.
  - intros it o Hit Ho. destruct (Htypes it Hit) as (g & Hg & _ & Hig & _). by apply (Hofs g it).
Qed.

(** So can the price of a NodeClaim in flight. *)
Lemma claim_priced s l nc :
  sched_inv s l → nc ∈ sc_newNodeClaims s →
  is_Some (claimLaunchPrice rand (ic_InstanceTypeOptions nc) (ic_Requirements nc) (ic_reservedOfferings nc)).
Proof.
  intros Hs Hin. destruct (si_claims s l Hs nc Hin) as [(placed & Hne & Hci & _) [Hids _] Hofs _ _].
  apply (claimLaunchPrice_total rand known); [done|]. intros it o Hit Ho.
  destruct (ci_options _ _ _ Hci Hne) as [_ Hholds]. destruct (Hholds it Hit) as (g & Hg & Hig & _). by apply (Hofs g it).
Qed.

Abbreviation placements := (inflightPlacements overrideKey rand opts).

(** Every candidate is evaluated, and each listed one fits. *)
Lemma inflightPlacements_total s l d p :
  sched_inv s l → podData_wf d →
  ∃ cs, placements s d p = Some cs ∧
    ∀ c : InflightPlacement, c ∈ cs → canAddTo overrideKey rand opts s d p c.1.1.1 = Some (Some c.1.1.2).
Proof.
  intros Hs Hd. unfold inflightPlacements.
  assert (∀ i, (i < length (sc_newNodeClaims s))%nat →
    ∃ r, inflightPlacement overrideKey rand opts s d p i = Some r ∧
      ∀ c, r = Some c → canAddTo overrideKey rand opts s d p c.1.1.1 = Some (Some c.1.1.2)) as Hone.
  { intros i Hi. unfold inflightPlacement. destruct (lookup_lt_is_Some_2 _ _ Hi) as [nc Hnc]. rewrite Hnc. cbn [mbind option_bind].
    destruct (canAddTo overrideKey rand opts s d p i) as [[pl|]|] eqn:Hc; [|by apply (canAddTo_no_panic s l) in Hc|by exists None].
    assert (is_Some (if marginalCostPrices opts nc
      then marginalLaunchPrice rand nc (pl_InstanceTypes pl) (pl_Requirements pl) (pl_OfferingsToReserve pl)
      else Some (fofint 0, false))) as [[delta unpriced] ->].
    { destruct (marginalCostPrices opts nc); [|eauto]. unfold marginalLaunchPrice.
      assert (nc ∈ sc_newNodeClaims s) as Hin by (by eapply list_elem_of_lookup_2).
      destruct (claim_priced s l nc Hs Hin) as [[before okb] ->]. cbn [mbind option_bind].
      apply canAddTo_fits in Hc as (nc2 & Hnc2 & Hcan). assert (nc2 = nc) as -> by congruence.
      destruct (claim_ok_ready _ _ _ (si_claims s l Hs nc Hin)) as [placed Hready].
      destruct (placement_priced s l nc placed d p false pl Hs Hready Hd Hcan) as [[after oka] ->]. cbn [mbind option_bind]. eauto. }
    cbn [mbind option_bind]. eexists. split; [done|]. by intros c [= <-]. }
  assert (∀ ixs, (∀ i, i ∈ ixs → (i < length (sc_newNodeClaims s))%nat) →
    ∃ rs, mapM (inflightPlacement overrideKey rand opts s d p) ixs = Some rs ∧
      ∀ c, Some c ∈ rs → canAddTo overrideKey rand opts s d p c.1.1.1 = Some (Some c.1.1.2)) as Hall.
  { induction ixs as [|i ixs IH]; intros His; [exists []; split; [done|by intros c ?%not_elem_of_nil]|].
    destruct (Hone i) as (r & Hr & Hrc); [apply His, list_elem_of_here|].
    destruct IH as (rs & Hrs & Hrsc); [by intros; apply His, list_elem_of_further|].
    exists (r :: rs). split; [cbn [mapM]; by rewrite Hr, Hrs|]. intros c [Heq|Hin]%elem_of_cons; [by apply Hrc|by apply Hrsc]. }
  destruct (Hall (seq 0 (length (sc_newNodeClaims s)))) as (rs & -> & Hrs).
  { intros i Hi. apply elem_of_seq in Hi. lia. }
  cbn [mbind option_bind]. eexists. split; [done|]. intros c Hc. apply list_elem_of_omap in Hc as (r & Hr & Heq).
  unfold id in Heq. subst r. by apply Hrs.
Qed.

Lemma cheapest_elem (cs : list (InflightPlacement (Q := Q))) best : cheapest cs = Some best → best ∈ cs.
Proof.
  unfold cheapest.
  assert (∀ (cs' : list (InflightPlacement (Q := Q))) acc, foldl (λ best c, match best with None => Some c
      | Some b => if cheaperThan (deltaOf c) (deltaOf b) then Some c else best end) acc cs' = Some best →
    acc = Some best ∨ best ∈ cs') as Hf.
  { clear. induction cs' as [|c cs' IH]; intros acc; cbn [foldl]; [by left|]. intros [Hacc|?]%IH; [|right; by apply list_elem_of_further].
    destruct acc as [b|]; [destruct (cheaperThan _ _)|]; [injection Hacc as ->; right; apply list_elem_of_here|by left|].
    injection Hacc as ->. right. apply list_elem_of_here. }
  intros [?|?]%Hf; done.
Qed.

Lemma addByMarginalCost_inv s l d p s0 :
  sched_inv s l → good p d → sc_cachedPodData s = sc_cachedPodData s0 →
  attempt_ok s0 l p (addByMarginalCost overrideKey rand opts schedule s d p).
Proof.
  intros Hs Hg Hsame. unfold addByMarginalCost, cheapestInflightPlacement.
  destruct (inflightPlacements_total s l d p Hs (gd_wf p d Hg)) as (cs & -> & Hcs). cbn [mbind option_bind].
  assert (∀ out, attempt_ok s l p out → attempt_ok s0 l p out) as Hto.
  { intros out (s' & r & -> & Hs' & Hc'). exists s', r. split_and!; [done|done|congruence]. }
  destruct (cheapest cs) as [c|] eqn:Hbest.
  2:{ apply Hto. destruct (sc_nodeClaimTemplates s) as [|t ts] eqn:Ht; [by apply attempt_fails|].
      apply addToNewNodeClaim_inv; [done..|]. by rewrite Ht. }
  specialize (Hcs c (cheapest_elem cs c Hbest)).
  assert (∀ store, attempt_ok s0 l p (commitInflightPlacement rand (withEvaluated s store (il_nodeID (schedule s p))) d p c)) as Hin1.
  { intros store. destruct c as [[[i pl] delta] unpriced]. apply (commitInflight_attempt _ l d p i pl s0); [|done..].
    apply withEvaluated_inv; [done|]. pose proof (schedule_fresh s p 0%nat). lia. }
  assert (attempt_ok s0 l p (commitInflightPlacement rand s d p c)) as Hin.
  { destruct c as [[[i pl] delta] unpriced]. by apply (commitInflight_attempt s l d p i pl s0). }
  destruct (fltb _ _); [|done]. 
  destruct (decide (sc_nodeClaimTemplates s = [])) as [Hnil|Hne].
  { apply canAddTo_fits in Hcs as (nc & Hi & _). apply (si_from s l Hs) in Hnil. by rewrite Hnil in Hi. }
  destruct (evaluateNew_inv s l d p Hs Hne) as (store & result & -> & Hs1 & Hev). cbn [mbind option_bind].
  destruct result as [err|[nc pl]]; [apply Hin1|]. specialize (Hev nc pl eq_refl).
  destruct (fresh_claim_ready s l d p nc pl Hs Hev) as (Hready & _). pose proof Hev as (i & t & its & _ & _ & _ & Hcan).
  destruct (placement_priced s l nc [] d p _ pl Hs Hready (gd_wf p d Hg) Hcan) as [[price ok] ->]. cbn [mbind option_bind].
  destruct (ok && _); [|apply Hin1].
  destruct (commitNew_inv s l d p store nc pl Hs Hev Hg) as (s' & -> & Hs' & Hc'). cbn [mbind option_bind].
  exists s', None. split_and!; [done|done|congruence].
Qed.

(** *** The shadow decision *)

(** It places nothing. *)
Lemma evaluateFresh_inv s l d p :
  sched_inv s l → good p d → sc_nodeClaimTemplates s ≠ [] →
  ∃ store fresh, evaluateFreshPlacement overrideKey rand opts schedule s d p =
      Some (withEvaluated s store (il_nodeID (schedule s p)), fresh) ∧
    sched_inv (withEvaluated s store (il_nodeID (schedule s p))) l.
Proof.
  intros Hs Hg Hne. unfold evaluateFreshPlacement.
  destruct (evaluateNew_inv s l d p Hs Hne) as (store & result & -> & Hs1 & Hev). cbn [mbind option_bind].
  destruct result as [err|[nc pl]]; [by eexists _, _|]. specialize (Hev nc pl eq_refl).
  destruct (fresh_claim_ready s l d p nc pl Hs Hev) as (Hready & _). pose proof Hev as (i & t & its & _ & _ & _ & Hcan).
  destruct (placement_priced s l nc [] d p _ pl Hs Hready (gd_wf p d Hg) Hcan) as [[price ok] ->]. cbn [mbind option_bind].
  by eexists _, _.
Qed.

Lemma shadowMarginalCost_inv s l d p :
  sched_inv s l → good p d →
  ∃ s' out, shadowMarginalCost overrideKey rand opts schedule s d p = Some (s', out) ∧ sched_inv s' l ∧
    sc_cachedPodData s' = sc_cachedPodData s ∧ sc_newNodeClaims s' = sc_newNodeClaims s.
Proof.
  intros Hs Hg. unfold shadowMarginalCost. destruct (decide (sc_nodeClaimTemplates s = [])) as [->|Hne]; [by eexists _, _|].
  destruct (inflightPlacements_total s l d p Hs (gd_wf p d Hg)) as (cs & -> & _).
  destruct (evaluateFresh_inv s l d p Hs Hg Hne) as (store & fresh & -> & Hs1). cbn [mbind option_bind].
  destruct (sc_nodeClaimTemplates s) as [|t ts]; [done|].
  destruct (head cs) as [first|], (cheapest cs) as [best|]; try by eexists _, _.
  destruct (fltb _ _); [|by eexists _, _]. destruct fresh as [[[nc pl] [price|]]|]; by eexists _, _.
Qed.

(** *** [add] *)

Lemma addPod_inv s l p d :
  sched_inv s l → sc_cachedPodData s !! pod_UID p = Some d → good p d →
  attempt_ok s l p (addPod overrideKey rand opts schedule s p).
Proof.
  intros Hs Hd Hg. unfold addPod. rewrite Hd. cbn [mbind option_bind].
  destruct (_ && _); [by apply attempt_fails|]. destruct (pd_ResourceClaimErr d); [by apply attempt_fails|].
  destruct (addToExistingNode_inv s l d p Hs Hg) as [->|(s' & -> & Hs' & Hc')]; cbn [mbind option_bind]; [|by exists s', None].
  assert (sched_inv (withClaims s (gosort fewerPods (sc_newNodeClaims s))) l) as Hs1.
  { apply withClaims_perm_inv; [done|apply gosort_perm]. }
  destruct (pricePlacements opts); [by apply addByMarginalCost_inv|].
  destruct (shadowPricePlacements opts); cbn [mbind option_bind]; [|by apply addBinpack_inv].
  destruct (shadowMarginalCost_inv _ l d p Hs1 Hg) as (s2 & out & -> & Hs2 & Hc2 & _). cbn [mbind option_bind].
  by apply addBinpack_inv.
Qed.

(** *** The end of the pass *)

(** What of a NodeClaim [FinalizeScheduling] keeps. *)
Definition finalized nc nc' : Prop :=
  ic_Pods nc' = ic_Pods nc ∧ ic_InstanceTypeOptions nc' = ic_InstanceTypeOptions nc ∧
  ic_NodePoolName nc' = ic_NodePoolName nc ∧ ic_Taints nc' = ic_Taints nc ∧ ic_hostname nc' = ic_hostname nc ∧
  ic_reservedOfferings nc' = ic_reservedOfferings nc ∧ ic_daemonOverheadGroups nc' = ic_daemonOverheadGroups nc ∧
  ∀ k v, k ≠ LabelHostname → (k = CapacityTypeLabelKey → ic_reservedOfferings nc = []) →
    allows (ic_Requirements nc') k v = true → allows (ic_Requirements nc) k v = true.

Lemma FinalizeScheduling_total nc store drivers rm :
  reserves rand nc rm → ∃ nc', FinalizeScheduling rand nc store drivers = Some nc' ∧ finalized nc nc'.
Proof.
  intros [Hids _]. unfold FinalizeScheduling.
  assert (is_Some (mapM (ReservationID rand) (ic_reservedOfferings nc))) as [ids Hm].
  { induction (ic_reservedOfferings nc) as [|o os IH]; [by exists []|].
    destruct (Hids o (list_elem_of_here _ _)) as [id Hid]. destruct IH as [ids Hm]; [by intros; apply Hids, list_elem_of_further|].
    exists (id :: ids). cbn [mapM]. by rewrite Hid, Hm. }
  destruct (ic_reservedOfferings nc) as [|o os] eqn:Ho; cbn [mbind option_bind].
  - eexists. split; [done|]. unfold finalized. cbn. rewrite Ho. split_and!; try done.
    intros k v Hk _. unfold allows. by rewrite lookup_delete_ne.
  - rewrite Hm. cbn [mbind option_bind]. eexists. split; [done|]. unfold finalized.
    cbn [ic_Pods ic_InstanceTypeOptions ic_NodePoolName ic_Taints ic_hostname ic_reservedOfferings ic_daemonOverheadGroups ic_Requirements].
    rewrite Ho. split_and!; try done. intros k v Hk Hct.
    rewrite Add_allows by (constructor; [apply NewRequirementWithFlexibility_addable|constructor]).
    intros [Hv _]%andb_true_iff. revert Hv. unfold allows. rewrite lookup_insert_ne by (intros <-; by discriminate Hct).
    by rewrite lookup_delete_ne.
Qed.

Lemma finalizeClaims_total s l drivers :
  sched_inv s l → ∃ claims, finalizeClaims rand drivers s = Some (withClaims s claims) ∧
    Forall2 finalized (sc_newNodeClaims s) claims.
Proof.
  intros Hs. unfold finalizeClaims. pose proof (si_claims s l Hs) as Hc.
  assert (∀ ncs, (∀ nc, nc ∈ ncs → claim_ok (sc_reservationManager s) (sc_nodeID s) nc) → ∃ claims,
    mapM (λ nc, FinalizeScheduling rand nc (sc_annotations s) (drivers (sc_allocator s) nc)) ncs = Some claims ∧
    Forall2 finalized ncs claims) as Hall.
  { clear Hc. induction ncs as [|nc ncs IH]; intros Hc; [exists []; by split|].
    destruct (FinalizeScheduling_total nc (sc_annotations s) (drivers (sc_allocator s) nc) (sc_reservationManager s)) as (nc' & Hf & Hok).
    { apply (co_reserves _ (sc_nodeID s)), Hc, list_elem_of_here. }
    destruct IH as (claims & Hm & Hf2); [by intros; apply Hc, list_elem_of_further|].
    exists (nc' :: claims). split; [cbn [mapM]; by rewrite Hf, Hm|by constructor]. }
  destruct (Hall _ Hc) as (claims & -> & Hf). by exists claims.
Qed.
End pass_theory.
