(* ===== verification/Solution.v ===== *)
(** * What a scheduling pass promises

    The specification of [Solve]: what is true of the nodes, NodeClaims,
    reservations and limits when a pass is over, stated in terms of the pods and
    not of the data structures of the pass, and the theorem that every pass that
    starts from a sound state meets it. *)

From S2P Require Import Prelude Strconv Float64 Requirement Kube Taints HostPorts Volumes PodUtils Preferences Parallel Requirements Resources Scheduler StateNode InstanceTypes ReservationManager TopologyGroup Topology Limits NodeClaim ExistingNode Packing Placing Pass.

Section solution.
Context {LT : LabelTables} {LTok : LabelTablesOk} {PL : ProviderLabels} {TL : TaintLib} {GR : GoRange} {GS : GoSort}
  {PS : Parsers} {SA : StorageAPI} {CA : ClaimAPI} {Q A : Type} `{QuantityLaws Q} {NI : NetIP} {NIL : NetIPLaws}
  {PR : PodResources Q} {DA : DeviceAllocator Q A} {DAL : DeviceAllocatorLaws Q A} {NDA : NodeDeviceAllocator Q A}
  {TOL : TolerationLib} {TOLL : TolerationLaws}
  (overrideKey : Offering Q → string * string) (rand : Z → Z)
  (sortDesc : list PreferredSchedulingTerm → list PreferredSchedulingTerm)
  (opts : Options) (schedule : Sched Q A → Pod → Interleaving)
  (recount : Topology → Pod → Topology) (ctxDone : Sched Q A → option AddError)
  (drivers : option A → InflightClaim Q → list string) (tol : bool).
Implicit Types (s : Sched Q A) (p : Pod) (nc : InflightClaim Q) (n : ExistingNode Q) (it : InstanceType Q).

(** ** The specification *)

(** What the pods request together. *)
Definition demand (pods : list Pod) k : Z := total_amount ((λ p, RequestsForPods PodRequestsOf [p]) <$> pods) k.

(** A NodeClaim serves its pods: they tolerate its taints, every label value it
    allows they accept (the placeholder hostname is dropped at the end, and a
    NodeClaim with reservations is pinned to reserved capacity), and whichever
    instance type it is launched as has an offering whose nodes hold all of them
    and the daemons. *)
Record claim_serves nc : Prop := {
  cs_some : ic_Pods nc ≠ [];
  cs_tolerated : ∀ p, p ∈ ic_Pods nc → ToleratesPod (ic_Taints nc) p = [];
  cs_required : ∀ p, p ∈ ic_Pods nc → ∃ r, requirementsOf sortDesc opts p = Some r ∧
    ∀ k v, k ≠ LabelHostname → (k = CapacityTypeLabelKey → ic_reservedOfferings nc = []) →
      allows (ic_Requirements nc) k v = true → allows r k v = true;
  cs_launchable : ic_InstanceTypeOptions nc ≠ [];
  cs_fits : ∀ it, it ∈ ic_InstanceTypeOptions nc →
    ∃ g group o, g ∈ ic_daemonOverheadGroups nc ∧ it ∈ dg_InstanceTypes g ∧
      group ∈ AllocatableOfferingsList overrideKey it ∧ o ∈ ao_Offerings group ∧
      ∀ k, demand (ic_Pods nc) k + amount (dg_DaemonOverhead g) k <= amount (ao_Allocatable group) k;
}.

(** An existing node serves the pods it was given. *)
Definition node_serves n0 n : Prop :=
  ∃ added, en_Pods n = en_Pods n0 ++ added ∧
    (∀ p, p ∈ added → ToleratesPod (en_cachedTaints n0) p = [] ∧
      ∃ r, requirementsOf sortDesc opts p = Some r ∧ ∀ k v, pinned (en_requirements n0) k v → allows r k v = true) ∧
    (added ≠ [] → (∀ k, demand added k <= amount (en_remainingResources n0) k) ∧ within_limits (volumeUsage (en_StateNode n))) ∧
    (ports_disjoint (hostPortUsage (en_StateNode n0)) → ports_disjoint (hostPortUsage (en_StateNode n))).

(** The NodeClaims that hold a reservation. *)
Definition reserving (id : string) nc : bool :=
  existsb (λ o, bool_decide (ReservationID rand o = Some id)) (ic_reservedOfferings nc).

Definition reservations_within (known : gmap string Z) (claims : list (InflightClaim Q)) : Prop :=
  ∀ id, Z.of_nat (length (List.filter (reserving id) claims)) <= default 0 (known !! id).

(** However the NodeClaims are launched, a pool stays within what was left. *)
Definition limits_kept (rem0 : gmap string (ResourceList Q)) (claims : list (InflightClaim Q)) : Prop :=
  ∀ (launch : string → InstanceType Q) pool remaining k x,
    (∀ nc, nc ∈ claims → launch (ic_hostname nc) ∈ ic_InstanceTypeOptions nc) →
    rem0 !! pool = Some remaining → remaining !! k = Some x →
    let opened := List.filter (λ nc, String.eqb (ic_NodePoolName nc) pool) claims in
    opened ≠ [] → total_amount ((λ nc, it_Capacity (launch (ic_hostname nc))) <$> opened) k <= qval x.

(** A sound state to start from. *)
Record pass_start s : Prop := {
  ps_nodes : ∀ n, n ∈ sc_existingNodes s → Requirements_wf (en_requirements n);
  ps_claims : sc_newNodeClaims s = [];
  ps_reservations : reservations (sc_reservationManager s) = ∅;
  ps_capacity : capacity_ok (capacity (sc_reservationManager s));
  ps_templates : ∀ t, t ∈ sc_nodeClaimTemplates s →
    template_ok rand (capacity (sc_reservationManager s)) (templateGroups s t) t;
  ps_volumes : ∀ uid vs, sc_volumeReqsByPod s !! uid = Some vs → Forall Requirements_wf vs;
  ps_counter : 0 <= sc_nodeID s;
}.

(** ** The proof *)

Hypothesis sortDesc_perm : ∀ l, sortDesc l ≡ₚ l.
Hypothesis schedule_fresh : ∀ s p i, sc_nodeID s < il_placeholder (schedule s p) i <= il_nodeID (schedule s p).
Hypothesis requests_nonneg : ∀ p, nonneg (RequestsForPods PodRequestsOf [p]).

Abbreviation invariant s0 := (sched_inv overrideKey rand sortDesc opts (capacity (sc_reservationManager s0))
  (sc_existingNodes s0) (sc_remainingResources s0)).
Abbreviation ops := (schedulerOps overrideKey rand sortDesc opts schedule recount ctxDone drivers).

Lemma pass_start_inv s0 : pass_start s0 → invariant s0 s0 [].
Proof.
  intros [Hn Hc Hr Hcap Ht Hv Hid]. split; try done; rewrite ?Hc.
  - apply Forall2_same_length_lookup_2; [done|]. intros i n0 n Hn0 Hn1. assert (n0 = n) as -> by congruence.
    exists []. split; [|constructor]. apply existing_inv_init, Hn. by eapply list_elem_of_lookup_2.
  - by intros nc ?%not_elem_of_nil.
  - constructor.
  - intros h id. unfold holds. by rewrite Hr, lookup_empty.
  - intros id. unfold remaining, holders. rewrite Hr, map_filter_empty, dom_empty_L, size_empty. split; [|lia].
    destruct (capacity (sc_reservationManager s0) !! id) as [c|] eqn:Hid'; simpl; [|lia]. by apply Hcap in Hid' as [? _].
  - by intros id.
  - unfold placedPods. by rewrite Hc.
  - exists []. split_and!; [done|apply rtc_refl|by intros x it ?%not_elem_of_nil].
Qed.

Definition cached (os : option (Sched Q A)) p : Prop :=
  ∃ s d, os = Some s ∧ sc_cachedPodData s !! pod_UID p = Some d ∧ good sortDesc opts p d.

(** Every operation of the loop keeps the invariant. *)
Lemma Solve_inv s0 pods reason st err :
  pass_start s0 → (∀ p, p ∈ pods → pod_ok p) → NoDup (pod_UID <$> pods) →
  @Solve (option (Sched Q A)) Q ops TOL tol _ GS (Some s0) pods = Some (reason, st, err) →
  ∃ s claims l, sv_state st = Some (withClaims s claims) ∧ invariant s0 s l ∧
    Forall2 finalized (sc_newNodeClaims s) claims ∧ Forall2 (relaxes_to tol) (succeeded st) l.
Proof.
  intros Hstart Hok Hu Hrun.
  assert (∃ os l, (∃ s, os = Some s ∧ invariant s0 s l) ∧ sv_state st = @finalize _ _ ops os ∧
    Forall2 (relaxes_to tol) (succeeded st) l) as (os & l & (s & -> & Hs) & Hst & Hrel).
  { revert Hrun. apply (@Solve_keeps _ _ ops TOL tol pod_ok (λ os l, ∃ s, os = Some s ∧ invariant s0 s l) cached); try done.
    - intros p p' Hp Hr. split; [by eapply Relax_pod_ok|]. apply Relax_step in Hr as [_ [Hids _]]. congruence.
    - intros os l p os' r (s & -> & Hs) (s1 & d & [= <-] & Hd & Hg). cbn [ops add]. cbn [mbind option_bind].
      destruct (addPod_inv overrideKey rand sortDesc opts schedule _ _ _ (ps_capacity s0 Hstart) schedule_fresh
        s l p d Hs Hd Hg) as (s' & r' & -> & Hs' & Hc). intros [= <- <-].
      split; [eauto|]. intros q (s1 & d' & [= <-] & Hd' & Hg'). exists s', d'. by rewrite Hc.
    - intros os l p (s & -> & Hs). cbn [ops Scheduler.topologyUpdate mbind option_bind]. split.
      + eexists. split; [done|]. by apply withTopology_inv.
      + intros q (s1 & d & [= <-] & Hd & Hg). eexists _, d. split; [done|]. by split.
    - intros os l p (s & -> & Hs) Hp. cbn [ops updateCachedPodData mbind option_bind].
      destruct (cachePodData_inv overrideKey rand sortDesc opts _ _ _ sortDesc_perm requests_nonneg s l p Hs Hp)
        as (s' & d & -> & Hs' & Hc & Hg).
      split_and!; [eauto| |].
      + exists s', d. rewrite Hc, lookup_insert_eq. done.
      + intros q Hne (s1 & d' & [= <-] & Hd' & Hg'). exists s', d'. rewrite Hc, lookup_insert_ne by done. done.
    - exists s0. split; [done|]. by apply pass_start_inv. }
  cbn [ops finalize mbind option_bind] in Hst.
  destruct (finalizeClaims_total overrideKey rand sortDesc opts _ _ _ s l drivers Hs) as (claims & Hf & Hfin).
  rewrite Hf in Hst. eauto 10.
Qed.

(** *** What the invariant says at the end *)

Lemma requestedOf_demand placed k :
  Forall (λ x, data_of sortDesc opts x.1 x.2) placed → requestedOf placed k = demand placed.*1 k.
Proof.
  intros Hall. unfold requestedOf, demand, total_amount.
  induction Hall as [|[p d] placed [Hreq _] _ IH]; [done|]. rewrite !fmap_cons. cbn [foldr fst snd] in *. by rewrite IH, Hreq.
Qed.

Lemma final_claim s0 s l nc nc' :
  invariant s0 s l → nc ∈ sc_newNodeClaims s → finalized nc nc' → claim_serves nc'.
Proof.
  intros Hs Hin (Hp & Hi & _ & Ht & _ & Hr & Hg & Ha).
  destruct (si_claims _ _ _ _ _ _ _ _ _ Hs nc Hin) as [(placed & Hne & Hci & Hdata) _ _ _ _].
  pose proof (ci_pods _ _ _ Hci) as Hpods. destruct (ci_options _ _ _ Hci Hne) as [Hopt _].
  assert (∀ p, p ∈ placed.*1 → ∃ d, (p, d) ∈ placed) as Hof.
  { intros p ([p1 d] & -> & Hpd)%list_elem_of_fmap. eauto. }
  split; rewrite ?Hp, ?Hi, ?Ht, ?Hr, ?Hg, ?Hpods; try done.
  - by destruct placed.
  - intros p (d & Hpd)%Hof. by apply (ci_met _ _ _ Hci p d).
  - intros p (d & Hpd)%Hof. rewrite Forall_forall in Hdata. destruct (Hdata (p, d) Hpd) as [_ Hreq].
    exists (pd_Requirements d). split; [done|]. intros k v Hk Hct Hv. apply (ci_met _ _ _ Hci p d Hpd). by apply Ha.
  - intros it Hit. destruct (claim_inv_holds overrideKey nc placed it Hci Hne Hit) as (g & group & o & Hgi & Hig & Hgr & Ho & _ & Hle).
    exists g, group, o. split_and!; [done..|]. intros k. rewrite <- requestedOf_demand; [apply Hle|done].
Qed.

Lemma finalized_pods (ncs claims : list (InflightClaim Q)) :
  Forall2 finalized ncs claims → ic_Pods <$> claims = ic_Pods <$> ncs.
Proof. induction 1 as [|nc nc' ncs claims (Hp & _) _ IH]; [done|]. by rewrite !fmap_cons, Hp, IH. Qed.

Lemma final_node n0 n placed :
  existing_inv n0 n placed → Forall (λ x, data_of sortDesc opts x.1 x.2) placed → node_serves n0 n.
Proof.
  intros [Hpods _ Hrem Hnn _ Hmet Hpin Hports _ Hlim] Hdata. exists placed.*1. split_and!; [done| | |done].
  - intros p ([p1 d] & -> & Hpd)%list_elem_of_fmap. destruct (Hmet p1 d Hpd) as [Hnar Htol]. split; [done|].
    rewrite Forall_forall in Hdata. destruct (Hdata (p1, d) Hpd) as [_ Hreq]. exists (pd_Requirements d). split; [done|].
    intros k v Hk. apply Hnar. by apply (Hpin k v Hk).
  - intros Hne. assert (placed ≠ []) as Hp by (by destruct placed). split; [|by apply Hlim]. intros k.
    rewrite <- requestedOf_demand by done. specialize (Hrem k). pose proof (nonneg_amount _ k (Hnn Hp)). lia.
Qed.

(** NodeClaims are told apart by their host, and each holds what it lists. *)
Lemma final_reservations s0 s l claims :
  invariant s0 s l → Forall2 finalized (sc_newNodeClaims s) claims →
  reservations_within (capacity (sc_reservationManager s0)) claims.
Proof.
  intros Hs Hfin id. destruct (si_conserved _ _ _ _ _ _ _ _ _ Hs id) as [Hpos Hsum].
  assert (∀ ncs ncs', Forall2 finalized ncs ncs' →
    ic_hostname <$> List.filter (reserving id) ncs' = ic_hostname <$> List.filter (reserving id) ncs) as Hsame.
  { induction 1 as [|nc nc' ncs ncs' (_ & _ & _ & _ & Hh & Hr & _) _ IH]; [done|]. cbn [List.filter].
    assert (reserving id nc' = reserving id nc) as -> by (unfold reserving; by rewrite Hr).
    destruct (reserving id nc); [|done]. by rewrite !fmap_cons, Hh, IH. }
  cut (Z.of_nat (length (List.filter (reserving id) claims)) <= Z.of_nat (size (holders (sc_reservationManager s) id))); [lia|].
  rewrite <- (length_fmap ic_hostname), (Hsame _ _ Hfin). set (hosts := ic_hostname <$> List.filter _ _).
  assert (NoDup hosts) as Hnd.
  { pose proof (si_hosts _ _ _ _ _ _ _ _ _ Hs) as Hnd. subst hosts. revert Hnd. generalize (sc_newNodeClaims s). clear.
    intros ncs. induction ncs as [|nc ncs IH]; [intros; constructor|]. rewrite fmap_cons, NoDup_cons. intros [Hnew Hnd]. cbn [List.filter].
    destruct (reserving id nc); [|by apply IH]. rewrite fmap_cons. apply NoDup_cons. split; [|by apply IH].
    intros (nc2 & Heq & Hin)%list_elem_of_fmap. apply Hnew. rewrite Heq. apply list_elem_of_fmap_2.
    apply list_elem_of_In, filter_In in Hin as [Hin _]. by apply list_elem_of_In. }
  rewrite <- (size_list_to_set (C := gset string) hosts Hnd). apply inj_le, subseteq_size. intros h Hh%elem_of_list_to_set.
  subst hosts. apply list_elem_of_fmap in Hh as (nc & -> & Hin). apply list_elem_of_In, filter_In in Hin as [Hin Hres].
  apply list_elem_of_In in Hin. apply elem_of_holders.
  destruct (si_claims _ _ _ _ _ _ _ _ _ Hs nc Hin) as [_ [_ Hheld] _ _ _]. apply Hheld.
  apply existsb_exists in Hres as (o & Ho%list_elem_of_In & Hid%bool_decide_eq_true). eauto.
Qed.

Lemma final_limits s0 s l claims :
  invariant s0 s l → Forall2 finalized (sc_newNodeClaims s) claims → limits_kept (sc_remainingResources s0) claims.
Proof.
  intros Hs Hfin launch pool remaining k x Hl Hrem Hx opened Hne. subst opened.
  assert (∀ ncs ncs', Forall2 finalized ncs ncs' →
    ((λ nc, it_Capacity (launch (ic_hostname nc))) <$> List.filter (λ nc, String.eqb (ic_NodePoolName nc) pool) ncs') =
    ((λ nc, it_Capacity (launch (ic_hostname nc))) <$> List.filter (λ nc, String.eqb (ic_NodePoolName nc) pool) ncs)) as Hsame.
  { induction 1 as [|nc nc' ncs ncs' (_ & _ & Hpool & _ & Hh & _) _ IH]; [done|]. cbn [List.filter].
    rewrite Hpool. destruct (String.eqb _ _); [|done]. by rewrite !fmap_cons, Hh, IH. }
  pose proof (Hsame _ _ Hfin) as Heq. rewrite Heq.
  destruct (si_opened _ _ _ _ _ _ _ _ _ Hs) as (os & Hos & Hrun & Hopt).
  assert (∀ nc, nc ∈ sc_newNodeClaims s → launch (ic_hostname nc) ∈ ic_InstanceTypeOptions nc) as Hl'.
  { intros nc (i & Hi)%list_elem_of_lookup. destruct (Forall2_lookup_l _ _ _ _ _ Hfin Hi) as (nc' & Hi' & (_ & Hi2 & _ & _ & Hh & _)).
    rewrite <- Hi2, <- Hh. apply Hl. by eapply list_elem_of_lookup_2. }
  rewrite <- (total_amount_perm ((λ nc, it_Capacity (launch (ic_hostname nc))) <$>
    List.filter (λ nc, String.eqb (ic_NodePoolName nc) pool) os.*1)) by (by rewrite (filter_perm _ _ _ Hos)).
  set (launched := (λ nc, launch (ic_hostname nc)) <$> List.filter (λ nc, String.eqb (ic_NodePoolName nc) pool) os.*1).
  replace (_ <$> _) with (it_Capacity <$> launched) by (subst launched; by rewrite <- list_fmap_compose).
  eapply (launched_within_limits _ _ _ pool remaining k x launched Hrun Hrem Hx).
  - subst launched. unfold claimsOf.
    assert (∀ y, y ∈ os → launch (ic_hostname y.1) ∈ y.2) as Hin.
    { intros y Hy. apply Hopt; [done|]. apply Hl'. rewrite <- Hos. by apply list_elem_of_fmap_2. }
    clear -Hin. induction os as [|[nc o] os IH]; [constructor|]. rewrite !fmap_cons. cbn [List.filter fst snd].
    assert (∀ y, y ∈ os → launch (ic_hostname y.1) ∈ y.2) as Hrest by (intros; by apply Hin, list_elem_of_further).
    destruct (String.eqb _ _); [|by apply IH]. rewrite !fmap_cons. constructor; [apply (Hin (nc, o)), list_elem_of_here|by apply IH].
  - intros Hnil. apply Hne. apply (f_equal length) in Heq. subst launched. apply (f_equal length) in Hnil.
    rewrite !length_fmap in *. rewrite (Permutation_length (filter_perm _ _ _ Hos)) in Hnil.
    apply nil_length_inv. cbn in Hnil. by rewrite Heq.
Qed.

(** C1. A scheduling pass is sound as a whole.  From a sound state, for pods
    with distinct UIDs whose affinity terms are valid, [Solve] returns and does
    not panic, and in the state it ends with: every pod whose attempt succeeded
    is placed, in a relaxed version of itself, exactly once, and no other pod is;
    existing nodes tolerate, match and hold the pods added to them; every
    NodeClaim serves its pods whatever instance type it is launched as; no
    reservation is used by more NodeClaims than it has capacity; and however the
    NodeClaims are launched, every pool stays within its limits. *)
Theorem Solve_places_validly s0 pods
    (Hstart : pass_start s0) (Hok : ∀ p, p ∈ pods → pod_ok p) (Hu : NoDup (pod_UID <$> pods)) :
  ∃ reason st err s l,
    @Solve (option (Sched Q A)) Q ops TOL tol _ GS (Some s0) pods = Some (reason, st, err) ∧
    sv_state st = Some s ∧
    succeeded st ⊆+ pods ∧ Forall2 (relaxes_to tol) (succeeded st) l ∧
    placedPods s ≡ₚ placedPods s0 ++ l ∧
    Forall2 node_serves (sc_existingNodes s0) (sc_existingNodes s) ∧
    (∀ nc, nc ∈ sc_newNodeClaims s → claim_serves nc) ∧
    reservations_within (capacity (sc_reservationManager s0)) (sc_newNodeClaims s) ∧
    limits_kept (sc_remainingResources s0) (sc_newNodeClaims s).
Proof.
  destruct (@Solve_returns _ _ ops TOL TOLL tol _ GS (Some s0) pods Hu) as (reason & st & err & Hrun & Hsub & _).
  destruct (Solve_inv s0 pods reason st err Hstart Hok Hu Hrun) as (s & claims & l & Hst & Hs & Hfin & Hrel).
  exists reason, st, err, (withClaims s claims), l. split_and!; try done.
  - pose proof (si_placed _ _ _ _ _ _ _ _ _ Hs) as Hp. unfold placedPods in *. rewrite (ps_claims s0 Hstart).
    cbn [withClaims sc_newNodeClaims sc_existingNodes fmap list_fmap mjoin list_join]. rewrite app_nil_r, <- Hp.
    apply Permutation_app_head. rewrite (finalized_pods _ _ Hfin). done.
  - cbn [withClaims sc_existingNodes]. eapply Forall2_impl; [apply (si_nodes _ _ _ _ _ _ _ _ _ Hs)|].
    intros n0 n (placed & Hin & Hdata). by apply (final_node n0 n placed).
  - cbn [withClaims sc_newNodeClaims]. intros nc' (i & Hi)%list_elem_of_lookup.
    destruct (Forall2_lookup_r _ _ _ _ _ Hfin Hi) as (nc & Hnc & Hf).
    apply (final_claim s0 s l nc nc' Hs); [by eapply list_elem_of_lookup_2|done].
  - by apply (final_reservations s0 s l).
  - by apply (final_limits s0 s l).
Qed.
End solution.

(** * Witnesses *)

Section witnesses.
#[local] Existing Instance karpenterLabels.
#[local] Existing Instance karpenterLabels_ok.
#[local] Existing Instance keyTaintLib.
#[local] Existing Instance map_to_list_GoRange.
#[local] Existing Instance stable_GoSort.
#[local] Existing Instance textIP.
#[local] Existing Instance textIPLaws.
#[local] Existing Instance eqTolerationLib.
#[local] Existing Instance eqTolerationLaws.

#[local] Instance noDurations : Parsers := {| ParseDuration := λ _, None; ParseFloat := λ _, None |}.
#[local] Instance noStorage : StorageAPI := {|
  getPVC := λ _, NotFound; getPV := λ _, NotFound; getStorageClass := λ _, NotFound; GetCSINameFromInTreeName := λ _, None;
|}.
#[local] Instance noClaims : ClaimAPI := {| claimExists := λ _, false |}.
#[local] Instance twoCPUPods : PodResources Z := {|
  PodRequestsOf := λ _, {["cpu"%string := 2]}; PodLimitsOf := λ _, ∅;
|}.
#[local] Instance passProvider : ProviderLabels := {|
  WellKnownLabels := {[CapacityTypeLabelKey; InstanceTypes.LabelTopologyZone; "example.com/reservation-id"%string]};
  ReservationIDLabel := "example.com/reservation-id";
|}.
#[local] Instance passDevices : DeviceAllocator Z unit := {|
  Allocate := λ _ _ _, None; Commit := λ a _, a; ReleaseInstanceType := λ a _ _, a;
|}.
#[local] Instance passDevicesLaws : DeviceAllocatorLaws Z unit.
Proof. constructor. discriminate. Defined.
#[local] Instance passNodeDevices : NodeDeviceAllocator Z unit := {| AllocateOnNode := λ _ _ _, None |}.

(** A pool of three-cpu nodes with a reservation and a limit of four cpus, an
    existing node with room for one pod, and three pods of two cpus each. *)
Definition threeCPUType : InstanceType Z :=
  mkInstanceType "three" ∅ [reservedOffering] {["cpu"%string := 3; "pods"%string := 10]} (mkOverhead ∅ ∅ ∅).
Definition passGroup : DaemonOverheadGroup Z := mkOverheadGroup [threeCPUType] {["cpu"%string := 1]} ∅.
Definition passTemplate : NodeClaimTemplate Z := mkTemplate "pool" [] [threeCPUType] ∅ PackingPolicyBinpack.
Definition passNode : ExistingNode Z :=
  mkExisting fourCPUNode [] [] {["cpu"%string := 3; "pods"%string := 10]} zoneARequirements false None.
Definition passState : Sched Z unit :=
  mkSched [] [passNode] [passTemplate] {["pool"%string := {["cpu"%string := 4]}]} {["pool"%string := [passGroup]]} ∅ ∅
    noTopology startManager None ∅ ∅ 0.
Definition threePods : list Pod := [barePod "ns" "a" "ua"; barePod "ns" "b" "ub"; barePod "ns" "c" "uc"].
Definition passOptions : Options := mkOptions false true true false false false false ∅.
Definition inOrder (s : Sched Z unit) (p : Pod) : Interleaving :=
  mkInterleaving (λ i, sc_nodeID s + 1 + Z.of_nat (min i 8)) (sc_nodeID s + 9) [].
Definition passOps : SchedulerOps (option (Sched Z unit)) Z :=
  schedulerOps sameKey (λ _, 0) (λ l, l) passOptions inOrder (λ t _, t) (λ _, None) (λ _ _, []).
Definition passResult := @Solve (option (Sched Z unit)) Z passOps eqTolerationLib false _ stable_GoSort (Some passState) threePods.

(** One pod goes to the node, one to a new NodeClaim, and the limit keeps the
    third pending. *)
Example passResult_places :
  match passResult with
  | Some (NoProgress, st, None) =>
      match sv_state st with
      | Some s => (pod_UID <$> succeeded st, (λ n : ExistingNode Z, pod_UID <$> en_Pods n) <$> sc_existingNodes s,
                   (λ nc : InflightClaim Z, pod_UID <$> ic_Pods nc) <$> sc_newNodeClaims s, map_to_list (sv_podErrors st))
      | None => ([], [], [], [])
      end
  | _ => ([], [], [], [])
  end = (["ua"; "ub"], [["ua"]], [["ub"]], [("uc", Unschedulable)])%string.
Proof. vm_compute. reflexivity. Qed.

Lemma passState_start : pass_start (λ _, 0) passState.
Proof.
  split; cbn [passState sc_existingNodes sc_newNodeClaims sc_reservationManager sc_nodeClaimTemplates sc_volumeReqsByPod sc_nodeID]; try done.
  - intros n ->%list_elem_of_singleton. apply NewLabelRequirements_wf.
  - apply startCapacity_ok.
  - intros t ->%list_elem_of_singleton.
    change (template_ok (λ _, 0) startCapacity [passGroup] passTemplate). split.
    + apply map_Forall_empty.
    + intros g it o ->%list_elem_of_singleton ->%list_elem_of_singleton ->%list_elem_of_singleton.
      split; [by eexists|]. intros _. exists "r-1"%string. split; [vm_compute; reflexivity|by eexists].
    + intros g ->%list_elem_of_singleton k x Hx. cbn [passGroup dg_DaemonOverhead] in Hx.
      apply lookup_singleton_Some in Hx as [_ <-]. vm_compute. discriminate.
    + intros g it ->%list_elem_of_singleton ->%list_elem_of_singleton k x Hx. cbn [threeCPUType it_Capacity] in Hx.
      rewrite lookup_insert in Hx. case_decide; [injection Hx as <-; vm_compute; discriminate|].
      apply lookup_singleton_Some in Hx as [_ <-]. vm_compute. discriminate.
    + by intros g it other ->%list_elem_of_singleton ->%list_elem_of_singleton ->%list_elem_of_singleton.
Qed.

Lemma Solve_places_validly_witness :
  ∃ reason st err s l, passResult = Some (reason, st, err) ∧ sv_state st = Some s ∧
    placedPods s ≡ₚ placedPods passState ++ l ∧
    (∀ nc, nc ∈ sc_newNodeClaims s → claim_serves sameKey (λ l, l) passOptions nc) ∧
    limits_kept (sc_remainingResources passState) (sc_newNodeClaims s).
Proof.
  destruct (Solve_places_validly sameKey (λ _, 0) (λ l, l) passOptions inOrder (λ t _, t) (λ _, None) (λ _ _, []) false)
    with (s0 := passState) (pods := threePods)
    as (reason & st & err & s & l & Hrun & Hst & _ & _ & Hp & _ & Hc & _ & Hl).
  - intros l. reflexivity.
  - intros s p i. unfold inOrder. cbn [il_placeholder il_nodeID]. lia.
  - intros p k x Hx. unfold RequestsForPods in Hx. cbn [fmap list_fmap PodRequestsOf twoCPUPods length] in Hx.
    rewrite lookup_insert in Hx. case_decide; [injection Hx as <-; vm_compute; discriminate|].
    change (Merge [{["cpu"%string := 2]}]) with ({["cpu"%string := 2]} : ResourceList Z) in Hx.
    apply lookup_singleton_Some in Hx as [_ <-]. vm_compute. discriminate.
  - exact passState_start.
  - intros p Hp. unfold threePods in Hp. rewrite !elem_of_cons, elem_of_nil in Hp.
    destruct Hp as [->|[->|[->|[]]]]; split; by intros t ?%not_elem_of_nil.
  - apply (bool_decide_unpack _). vm_compute. reflexivity.
  - exists reason, st, err, s, l. split_and!; [exact Hrun|exact Hst|exact Hp|exact Hc|exact Hl].
Defined.

(** The state after the pass, with one NodeClaim in flight. *)
Definition afterPass : Sched Z unit := match passResult with Some (_, st, _) => default passState (sv_state st) | None => passState end.
Definition smallPodData : PodData Z := mkPodData ∅ ∅ ∅ false [] [] false.

Lemma marginal_unpriced_is_binpack_witness :
  length (sc_newNodeClaims afterPass) = 1%nat ∧
  addByMarginalCost sameKey (λ _, 0) passOptions inOrder afterPass smallPodData (barePod "ns" "d" "ud") =
  addBinpack sameKey (λ _, 0) passOptions inOrder afterPass smallPodData (barePod "ns" "d" "ud").
Proof.
  assert (∃ nc, sc_newNodeClaims afterPass = [nc] ∧ marginalCostPrices passOptions nc = false) as (nc & Hnc & Hm)
    by (eexists; vm_compute; split; reflexivity).
  split; [by rewrite Hnc|]. apply marginal_unpriced_is_binpack.
  - intros nc' Hin. rewrite Hnc in Hin. by apply list_elem_of_singleton in Hin as ->.
  - intros [|i]; [vm_compute; discriminate|]. unfold canAddTo. rewrite Hnc. discriminate.
Defined.

(** The NodeClaim just opened says what the evaluation of the next one found. *)
Lemma evaluation_overwrites_annotation_witness :
  ∃ s' nc pl, evaluateNewNodeClaim sameKey (λ _, 0) passOptions inOrder
      (withRemaining afterPass ∅) smallPodData (barePod "ns" "d" "ud") = Some (s', inr (nc, pl)) ∧
    annotationsOf (sc_annotations s') (SharedWithTemplate "pool") !! MinValuesRelaxedKey = Some "false"%string.
Proof.
  destruct (evaluateNewNodeClaim sameKey (λ _, 0) passOptions inOrder (withRemaining afterPass ∅) smallPodData
    (barePod "ns" "d" "ud")) as [[s' [e|[nc pl]]]|] eqn:Hev; [vm_compute in Hev; discriminate| |vm_compute in Hev; discriminate].
  assert (ic_NodePoolName nc = "pool"%string ∧ minValuesRelaxed nc (pl_Requirements pl) = false) as [Hpool Hrel].
  { vm_compute in Hev. injection Hev as _ <- <-. vm_compute. split; reflexivity. }
  exists s', nc, pl. split; [reflexivity|].
  pose proof (evaluation_overwrites_annotation sameKey (λ _, 0) passOptions inOrder _ _ _ s' nc pl
    (NewInflightClaim "pool" "host" [] PackingPolicyBinpack ∅ [] [] false None) Hev) as Hval.
  rewrite Hpool, Hrel in Hval. apply (proj2 (Hval eq_refl)).
Defined.
End witnesses.
