(* ===== verification/Replacements.v ===== *)
(** * Pricing the replacements of a consolidation

    Model of the part of [pkg/controllers/disruption/consolidation.go] that
    decides which instance types a replacement may launch as: the price budget,
    the aggregate price filter, the retries that narrow a claim to cheap spot
    zones, and the restriction to spot markets the cloud provider admits.  A
    replacement is a NodeClaim of [NodeClaim.v]; the Go code changes it in place,
    the model returns the changed one.  Events and metrics are left out, except
    for the reason a candidate is skipped.  [None] is the panic of reading a
    label without values. *)

From Stdlib Require Import SpecFloat.
From S2P Require Import Prelude Float64 Requirement Kube HostPorts Requirements Resources InstanceTypes NodeClaim Packing.

(** Why a candidate is passed over. *)
Inductive SkipReason :=
  | NoCompatibleReplacement
  | ReplacementFlexibility
  | BelowMinSavings
  | NoCheaperSingleReplacement
  | NoCheaperReplacementSet
  | SpotToSpotDisabled
  | SpotToSpotMinNodeAge
  | SpotMarketExhausted
  | SpotToSpotFlexibility.

#[export] Instance SkipReason_eq_dec : EqDecision SkipReason.
Proof. solve_decision. Defined.

(** ** The price budget *)

Record priceBudget := mkPriceBudget { pb_candidatePrice : float64; pb_minSavings : float64 }.

Definition limit (b : priceBudget) : float64 := fmul (pb_candidatePrice b) (fsub (fofint 1) (pb_minSavings b)).

Definition split (b : priceBudget) (n : Z) : float64 := fdiv (limit b) (fofint n).

Definition vetoedByMargin (b : priceBudget) (cheapestTotal : float64) : bool :=
  fleb (limit b) cheapestTotal && fltb cheapestTotal (pb_candidatePrice b).

(** [lo.Sum] *)
Definition fsum (l : list float64) : float64 := foldl fadd (fofint 0) l.

(** [math.Min] *)
Definition fmin (x y : float64) : float64 :=
  match x, y with
  | S754_infinity true, _ | _, S754_infinity true => S754_infinity true
  | S754_nan, _ | _, S754_nan => S754_nan
  | S754_zero sx, S754_zero _ => if sx then x else y
  | _, _ => if fltb x y then x else y
  end.

(** [lo.Uniq] *)
Fixpoint uniq (seen : list string) (l : list string) : list string :=
  match l with
  | [] => []
  | x :: l => if existsb (String.eqb x) seen then uniq seen l else x :: uniq (x :: seen) l
  end.

Section replacements.
Context {LT : LabelTables} {PL : ProviderLabels} {GS : GoSort} {Q : Type} `{Quantity Q} {NI : NetIP}
  (overrideKey : Offering Q → string * string) (rand : Z → Z).
Implicit Types (nc : InflightClaim Q) (ncs : list (InflightClaim Q)) (it : InstanceType Q)
  (its : list (InstanceType Q)) (reqs : Requirements) (o : Offering Q).

Definition withOptions nc its : InflightClaim Q :=
  mkClaim (ic_NodePoolName nc) (ic_PackingPolicy nc) (ic_Taints nc) (ic_Annotations nc) its (ic_Requirements nc)
    (ic_Requests nc) (ic_Pods nc) (ic_daemonOverheadGroups nc) (ic_hostname nc) (ic_reservedOfferings nc)
    (ic_strict nc) (ic_instanceTypesBeforeLimits nc).

Definition withRequirements nc reqs : InflightClaim Q :=
  mkClaim (ic_NodePoolName nc) (ic_PackingPolicy nc) (ic_Taints nc) (ic_Annotations nc) (ic_InstanceTypeOptions nc) reqs
    (ic_Requests nc) (ic_Pods nc) (ic_daemonOverheadGroups nc) (ic_hostname nc) (ic_reservedOfferings nc)
    (ic_strict nc) (ic_instanceTypesBeforeLimits nc).

(** [nc.Requirements.Add(NewRequirement(key, In, values...))] *)
Definition pin nc (key : string) (vals : list string) : InflightClaim Q :=
  withRequirements nc (Add (ic_Requirements nc) [NewRequirement key OpIn vals]).

Definition orderOptions nc : InflightClaim Q :=
  withOptions nc (OrderByPrice (ic_InstanceTypeOptions nc) (ic_Requirements nc)).

(** ** The aggregate price filter *)

Definition worstLaunch reqs it : float64 := WorstLaunchPrice (Available (it_Offerings it)) reqs.

Definition cheapestLaunchPrice nc : float64 :=
  foldl (λ cheapest it,
    let p := worstLaunch (ic_Requirements nc) it in if fltb p cheapest then p else cheapest)
    MaxFloat64 (ic_InstanceTypeOptions nc).

Definition cheapestAggregateLaunchPrice ncs : float64 := fsum (cheapestLaunchPrice <$> ncs).

(** What [RemoveInstanceTypeOptionsByPriceAndMinValues] leaves on the claim,
    also when it returns an error. *)
Definition cheaperOptions nc (maxPrice : float64) : InflightClaim Q :=
  withOptions nc (List.filter (λ it, fltb (worstLaunch (ic_Requirements nc) it) maxPrice) (ic_InstanceTypeOptions nc)).

(** The loop over the claims with their maximal prices; [true] is the minValues
    error, at which it stops. *)
Fixpoint removeByPrice (ncs : list (InflightClaim Q * float64)) : list (InflightClaim Q) * bool :=
  match ncs with
  | [] => ([], false)
  | (nc, maxPrice) :: rest =>
      match RemoveInstanceTypeOptionsByPriceAndMinValues (ic_InstanceTypeOptions nc) (ic_Requirements nc) maxPrice with
      | None => (cheaperOptions nc maxPrice :: rest.*1, true)
      | Some kept => let '(rest, err) := removeByPrice rest in (withOptions nc kept :: rest, err)
      end
  end.

Definition filterReplacementsByAggregatePrice ncs (candidatePrice : float64) : list (InflightClaim Q) * bool :=
  let cheapest := cheapestLaunchPrice <$> ncs in
  let cheapestTotal := fsum cheapest in
  if fleb candidatePrice cheapestTotal then ((λ nc, withOptions nc []) <$> ncs, false)
  else
    let surplusShare := fdiv (fsub candidatePrice cheapestTotal) (fofint (Z.of_nat (length ncs))) in
    removeByPrice ((λ nc, (nc, if (length ncs <=? 1)%nat then candidatePrice else fadd (cheapestLaunchPrice nc) surplusShare)) <$> ncs).

Definition noOptions ncs : bool := existsb (λ nc, match ic_InstanceTypeOptions nc with [] => true | _ => false end) ncs.

(** [filterReplacementsAndPublish] *)
Definition filterReplacements ncs (budget : priceBudget) : list (InflightClaim Q) * option SkipReason :=
  if noOptions ncs then (ncs, Some NoCompatibleReplacement)
  else
    let cheapestTotal := cheapestAggregateLaunchPrice ncs in
    let '(ncs, err) := filterReplacementsByAggregatePrice ncs (limit budget) in
    if err : bool then (ncs, Some ReplacementFlexibility)
    else if noOptions ncs then
      (ncs, Some (if vetoedByMargin budget cheapestTotal then BelowMinSavings
                  else match ncs with [_] => NoCheaperSingleReplacement | _ => NoCheaperReplacementSet end))
    else (ncs, None).

(** The rejections a cheaper repricing can still overturn. *)
Definition priceEmptiedSkip (r : SkipReason) : bool :=
  match r with NoCheaperSingleReplacement | NoCheaperReplacementSet | BelowMinSavings => true | _ => false end.

Definition truncateSpotInstanceTypeOptions (maxOptions : Z) nc : InflightClaim Q :=
  if HasMinValues (ic_Requirements nc) then
    let minInstanceTypes := (SatisfiesMinValues (ic_InstanceTypeOptions nc) (ic_Requirements nc)).1 in
    withOptions nc (take (Z.to_nat (Z.max maxOptions minInstanceTypes)) (ic_InstanceTypeOptions nc))
  else withOptions nc (take (Z.to_nat maxOptions) (ic_InstanceTypeOptions nc)).

(** ** Narrowing a claim to cheap spot zones *)

Definition satisfiesMinValues (r : Requirement) (n : Z) : bool :=
  match MinValues r with None => true | Some m => m <=? n end.

(** Why the claim could not be narrowed. *)
Inductive NarrowFailure := CapacityTypeMinValues | NoCheapZone | ZoneMinValues.

(** The zones of the type's usable offerings below the budget. *)
Definition cheapZones reqs (claimBudget : float64) it : option (list string) :=
  zones ← mapM (λ o, z ← Zone rand o; Some (z, fltb (of_Price o) claimBudget))
            (CompatibleOfferings (Available (it_Offerings it)) reqs);
  Some (uniq [] (List.filter snd zones).*1).

(** The first type with cheap zones anchors them. *)
Fixpoint anchorZones reqs (claimBudget : float64) its : option (list string) :=
  match its with
  | [] => Some []
  | it :: its =>
      cheap ← cheapZones reqs claimBudget it;
      match cheap with [] => anchorZones reqs claimBudget its | _ => Some cheap end
  end.

Definition narrowClaimToCheapSpotZones nc (claimBudget : float64) : option (NarrowFailure + InflightClaim Q) :=
  if negb (satisfiesMinValues (Get (ic_Requirements nc) CapacityTypeLabelKey) 1) then Some (inl CapacityTypeMinValues)
  else
    let nc := pin nc CapacityTypeLabelKey [CapacityTypeSpot] in
    zones ← anchorZones (ic_Requirements nc) claimBudget
              (OrderByPrice (CompatibleInstanceTypes (ic_InstanceTypeOptions nc) (ic_Requirements nc)) (ic_Requirements nc));
    match zones with
    | [] => Some (inl NoCheapZone)
    | _ =>
        if negb (satisfiesMinValues (Get (ic_Requirements nc) LabelTopologyZone) (Z.of_nat (length zones)))
        then Some (inl ZoneMinValues)
        else
          let nc := pin nc LabelTopologyZone zones in
          let options := List.filter (λ it, fltb (worstLaunch (ic_Requirements nc) it) claimBudget)
                           (CompatibleInstanceTypes (ic_InstanceTypeOptions nc) (ic_Requirements nc)) in
          Some (inr (orderOptions (withOptions nc options)))
    end.

(** All claims, or [None] as soon as one cannot be narrowed. *)
Fixpoint narrowAll ncs (claimBudget : float64) : option (option (list (InflightClaim Q))) :=
  match ncs with
  | [] => Some (Some [])
  | nc :: ncs =>
      narrowed ← narrowClaimToCheapSpotZones nc claimBudget;
      match narrowed with
      | inl _ => Some None
      | inr nc => rest ← narrowAll ncs claimBudget; Some (option_map (cons nc) rest)
      end
  end.

(** The repricing both retries make, from the options before they were emptied. *)
Definition narrowAndReprice ncs (budget : priceBudget) : option (option (list (InflightClaim Q))) :=
  narrowed ← narrowAll ncs (split budget (Z.of_nat (length ncs)));
  Some (ncs ← narrowed; match filterReplacements ncs budget with (ncs, None) => Some ncs | _ => None end).

Definition retrySpotOnlyReplacements ncs (budget : priceBudget) (spotLaunchCap : Z)
    : option (option (list (InflightClaim Q))) :=
  repriced ← narrowAndReprice ncs budget;
  Some (option_map (map (truncateSpotInstanceTypeOptions spotLaunchCap)) repriced).

Definition filterSpotReplacementsWithZoneRetry ncs (budget : priceBudget) : option (SkipReason + list (InflightClaim Q)) :=
  match filterReplacements ncs budget with
  | (filtered, None) => Some (inr filtered)
  | (_, Some skipReason) =>
      if priceEmptiedSkip skipReason then
        retried ← narrowAndReprice ncs budget;
        Some (match retried with Some ncs => inr ncs | None => inl skipReason end)
      else Some (inl skipReason)
  end.

(** ** Spot markets *)

Record spotReplacementMarket := mkMarket {
  mk_admitted : gset string;
  mk_rejected : gset string;
  mk_price : float64;
}.

(** One offering: the market and the number of offerings the advisor rejected. *)
Definition judgeOffering (launchable : string → InstanceType Q → Offering Q → bool) nc it (fits : bool)
    (acc : option (spotReplacementMarket * Z)) o : option (spotReplacementMarket * Z) :=
  '(market, rejected) ← acc;
  if negb (offeringCompatible (ic_Requirements nc) o) then Some (market, rejected)
  else
    zone ← Zone rand o;
    if negb (launchable (ic_NodePoolName nc) it o)
    then Some (mkMarket (mk_admitted market) ({[zone]} ∪ mk_rejected market) (mk_price market), rejected + 1)
    else if negb fits
    then Some (mkMarket (mk_admitted market) ({[zone]} ∪ mk_rejected market) (mk_price market), rejected)
    else Some (mkMarket ({[zone]} ∪ mk_admitted market) (mk_rejected market) (fmin (mk_price market) (of_Price o)), rejected).

Definition marketOf launchable nc it : option (spotReplacementMarket * Z) :=
  foldl (λ acc group,
    foldl (judgeOffering launchable nc it (Fits (ic_Requests nc) (ao_Allocatable group))) acc (ao_Offerings group))
    (Some (mkMarket ∅ ∅ MaxFloat64, 0)) (AllocatableOfferingsList overrideKey it).

(** The verdict for each option, and how many offerings were rejected. *)
Definition spotReplacementMarkets launchable nc : option (list (InstanceType Q * spotReplacementMarket) * Z) :=
  markets ← mapM (λ it, '(m, r) ← marketOf launchable nc it; Some (it, m, r)) (ic_InstanceTypeOptions nc);
  Some (markets.*1, foldr (λ x n, x.2 + n) 0 markets).

Definition anchoredZones (m : spotReplacementMarket) : gset string := (mk_admitted m ∖ mk_rejected m) ∖ {[""%string]}.

Definition launchableIn (zones : gset string) (m : spotReplacementMarket) : bool :=
  negb (bool_decide (mk_admitted m ∩ zones = ∅)) && bool_decide (mk_rejected m ∩ zones = ∅) &&
  negb (bool_decide (""%string ∈ mk_rejected m)).

Definition launchableSpotReplacementMarkets (markets : list (InstanceType Q * spotReplacementMarket))
    : list (InstanceType Q) * gset string :=
  let anchors := sort_stable (λ a b, fltb (mk_price a.2) (mk_price b.2))
    (List.filter (λ x, negb (bool_decide (mk_admitted x.2 = ∅))) markets) in
  match List.find (λ x, negb (bool_decide (anchoredZones x.2 = ∅))) anchors with
  | None => ([], ∅)
  | Some anchor =>
      let zones := anchoredZones anchor.2 in
      ((List.filter (λ x, launchableIn zones x.2) markets).*1, zones)
  end.

(** [advisor] is [None] when the cloud provider does not implement
    [SpotReplacementAdvisor]. *)
Fixpoint restrictSpotReplacements (advisor : option (string → InstanceType Q → Offering Q → bool)) ncs
    : option (SkipReason + list (InflightClaim Q)) :=
  match advisor, ncs with
  | None, _ => Some (inr ncs)
  | Some _, [] => Some (inr [])
  | Some launchable, nc :: rest =>
      '(markets, rejected) ← spotReplacementMarkets launchable nc;
      let next nc := (rest ← restrictSpotReplacements advisor rest; Some (sum_map id (cons nc) rest)) in
      if rejected =? 0 then next nc
      else
        let '(types, zones) := launchableSpotReplacementMarkets markets in
        match types with
        | [] => Some (inl SpotMarketExhausted)
        | _ =>
            if negb (satisfiesMinValues (Get (ic_Requirements nc) LabelTopologyZone) (Z.of_nat (size zones)))
            then Some (inl ReplacementFlexibility)
            else next (orderOptions (withOptions (pin nc LabelTopologyZone (elements zones)) types))
        end
  end.

Definition narrowSpotReplacements advisor ncs (budget : priceBudget) : option (SkipReason + list (InflightClaim Q)) :=
  restricted ← restrictSpotReplacements advisor ncs;
  match restricted with
  | inl reason => Some (inl reason)
  | inr ncs => filterSpotReplacementsWithZoneRetry ncs budget
  end.
End replacements.

(** * Theory *)

(** ** Offerings of one capacity type *)

(** A well-known label that is not an alias and has no aliases of values. *)
Record plain_label `{LabelTables} `{ProviderLabels} (k : string) : Prop := {
  pl_key : normalizeKey k = k;
  pl_values : NormalizedLabelValues !! k = None;
  pl_known : k ∈ WellKnownLabels;
}.

(** The labels offerings are told apart by. *)
Class OfferingLabels `{LT : LabelTables} {PL : ProviderLabels} : Prop := {
  ol_type : plain_label CapacityTypeLabelKey;
  ol_zone : plain_label LabelTopologyZone;
}.

Section offering_theory.
Context {LT : LabelTables} {LTok : LabelTablesOk} {PL : ProviderLabels} {CTL : OfferingLabels} {Q : Type} `{Quantity Q}.
Implicit Types (o : Offering Q) (ofs : list (Offering Q)) (reqs : Requirements).

(** Only this value. *)
Definition onlyValue (k v : string) : Requirement := mkRequirement k false {[v]} None None None.

(** An offering as providers describe it: one zone, one capacity type and a
    price. *)
Record offered o (ct : string) : Prop := {
  od_wf : Requirements_wf (of_Requirements o);
  od_type : of_Requirements o !! CapacityTypeLabelKey = Some (onlyValue CapacityTypeLabelKey ct);
  od_zone : ∃ z, of_Requirements o !! LabelTopologyZone = Some (onlyValue LabelTopologyZone z);
  od_price : priced o;
}.

Lemma NewRequirement_In k vals : plain_label k → NewRequirement k OpIn vals = mkRequirement k false (list_to_set vals) None None None.
Proof. intros [Hk Hv _]. unfold NewRequirement, NewRequirementWithFlexibility, normalizeValues. by rewrite Hk, Hv. Qed.

Lemma satisfies_value k v label : satisfies (onlyValue k v) label = true ↔ label = Some v.
Proof.
  destruct label as [w|]; cbn [satisfies].
  - rewrite Has_spec. cbn [complement values gte lte onlyValue withinBounds]. rewrite elem_of_singleton. naive_solver.
  - unfold Operator, Len. cbn [complement values onlyValue]. rewrite size_singleton. done.
Qed.

(** Pinning a claim to values of a label leaves it the offerings with one of
    them. *)
Lemma compatible_pinned reqs o k v vals :
  plain_label k → Requirements_wf reqs → Requirements_wf (of_Requirements o) → of_Requirements o !! k = Some (onlyValue k v) →
  offeringCompatible (Add reqs [NewRequirement k OpIn vals]) o = true → v ∈ vals ∧ offeringCompatible reqs o = true.
Proof.
  intros Hk Hr Hwf Hty. unfold offeringCompatible, IsCompatible.
  assert (addable (NewRequirement k OpIn vals)) as Ha by apply NewRequirementWithFlexibility_addable.
  assert (Requirements_wf (Add reqs [NewRequirement k OpIn vals])) as Hr' by (apply Add_wf; [done|by constructor]).
  destruct (Compatible (Add _ _) _ _) eqn:Hc; [done|]. intros _. apply Compatible_None in Hc as [Hund Hint]; [|done..].
  change (Add reqs [NewRequirement k OpIn vals]) with (Add1 reqs (NewRequirement k OpIn vals)) in *.
  rewrite NewRequirement_In in * by done. set (new := mkRequirement k false (list_to_set vals) None None None) in *.
  pose proof (λ k', Add1_lookup reqs new k' Ha) as Hl. cbn [Key new] in Hl.
  assert (∃ r, Add1 reqs new !! k = Some r ∧ ∀ w, Has r w = true → w ∈ vals ∧ allows reqs k w = true) as (r & Hrl & Hrv).
  { rewrite Hl, decide_True by done. eexists. split; [done|]. intros w. unfold allows.
    destruct (reqs !! k) as [e|]; [rewrite Has_Intersection, andb_true_iff; intros [Hv ?]|intros Hv];
      apply Has_spec in Hv as [Hv%elem_of_list_to_set _]; done. }
  destruct (Hint _ r _ Hrl Hty) as (label & H1 & ->%satisfies_value). apply Hrv in H1 as [Hin Hal]. split; [done|].
  assert (Compatible reqs (of_Requirements o) WellKnownLabels = None) as ->; [|done]. apply Compatible_None; [done..|]. split.
  - intros k' q Hq Hk' Hn. destruct (decide (k' = k)) as [->|Hne]; [by destruct Hn; apply pl_known|].
    apply (Hund k' q Hq); [|done]. by rewrite Hl, decide_False.
  - intros k' r' q Hr1 Hq. destruct (decide (k' = k)) as [->|Hne].
    + exists (Some v). split; [unfold allows in Hal; by rewrite Hr1 in Hal|]. assert (q = onlyValue k v) as -> by congruence. by apply satisfies_value.
    + apply (Hint k' r' q); [by rewrite Hl, decide_False|done].
Qed.

(** The type requirement of the launch order accepts the offerings of that type
    only. *)
Lemma compatible_type o ct ct' :
  offered o ct → offeringCompatible (capacityTypeRequirement ct') o = true → ct = ct'.
Proof.
  intros [Hwf Hty _ _] Hc. unfold capacityTypeRequirement, NewRequirements in Hc.
  apply (compatible_pinned ∅ o CapacityTypeLabelKey ct) in Hc as [Hin _]; [|apply ol_type|apply map_Forall_empty|done|done].
  by apply list_elem_of_singleton in Hin.
Qed.

Lemma launchable_typed ofs reqs cts o :
  o ∈ launchable ofs reqs cts → ∃ ct, ct ∈ cts ∧ offeringCompatible ct o = true.
Proof.
  induction cts as [|ct cts IH]; cbn [launchable]; [by intros ?%not_elem_of_nil|].
  destruct (CompatibleOfferings (CompatibleOfferings ofs reqs) ct) as [|o' l] eqn:Hc.
  - intros (ct' & ? & ?)%IH. exists ct'. split; [by apply list_elem_of_further|done].
  - rewrite <- Hc, !elem_of_CompatibleOfferings. intros [_ ?]. exists ct. split; [apply list_elem_of_here|done].
Qed.

(** Offerings that can be launched under a claim pinned to spot could be
    launched before, when no reserved offering was preferred. *)
Lemma launchable_pinned_spot ofs reqs o :
  Requirements_wf reqs → (∀ o', o' ∈ ofs → ∃ ct, offered o' ct) →
  (∀ o', o' ∈ ofs → offeringCompatible reqs o' = true → ¬ offered o' CapacityTypeReserved) →
  o ∈ launchable ofs (Add reqs [NewRequirement CapacityTypeLabelKey OpIn [CapacityTypeSpot]]) launchOrder →
  o ∈ launchable ofs reqs launchOrder.
Proof.
  intros Hr Hofs Hnores Hl. pose proof Hl as [Hin Hc]%launchable_sub. destruct (Hofs o Hin) as [ct Ho].
  destruct (compatible_pinned reqs o CapacityTypeLabelKey ct _ ol_type Hr (od_wf o ct Ho) (od_type o ct Ho) Hc) as [->%list_elem_of_singleton Hcr].
  assert (offeringCompatible SpotRequirement o = true) as Hspot.
  { apply launchable_typed in Hl as (ct & Hct & Hcomp). unfold launchOrder in Hct. rewrite !elem_of_cons, elem_of_nil in Hct.
    destruct Hct as [->|[->|[->|[]]]]; [|done|]; by apply (compatible_type o _ _ Ho) in Hcomp. }
  unfold launchOrder. cbn [launchable].
  assert (CompatibleOfferings (CompatibleOfferings ofs reqs) ReservedRequirement = []) as ->.
  { destruct (CompatibleOfferings (CompatibleOfferings ofs reqs) ReservedRequirement) as [|o' l] eqn:Hres; [done|].
    assert (o' ∈ CompatibleOfferings (CompatibleOfferings ofs reqs) ReservedRequirement) as Ho' by (rewrite Hres; apply list_elem_of_here).
    rewrite !elem_of_CompatibleOfferings in Ho'. destruct Ho' as [[Hin' Hc'] Hrc]. destruct (Hofs o' Hin') as [ct' Hof'].
    pose proof (compatible_type o' ct' _ Hof' Hrc) as ->. by destruct (Hnores o' Hin' Hc'). }
  assert (o ∈ CompatibleOfferings (CompatibleOfferings ofs reqs) SpotRequirement) as Hos by (by rewrite !elem_of_CompatibleOfferings).
  destruct (CompatibleOfferings (CompatibleOfferings ofs reqs) SpotRequirement); [by apply not_elem_of_nil in Hos|done].
Qed.
End offering_theory.

(** ** What a filtered replacement can cost *)

Section filter_theory.
Context {LT : LabelTables} {LTok : LabelTablesOk} {PL : ProviderLabels} {CTL : OfferingLabels} {GS : GoSort}
  {Q : Type} `{Quantity Q} {NI : NetIP} (overrideKey : Offering Q → string * string) (rand : Z → Z).
Implicit Types (nc : InflightClaim Q) (ncs : list (InflightClaim Q)) (it : InstanceType Q) (o : Offering Q) (budget : priceBudget).

(** Prices are numbers and offerings have a capacity type. *)
Definition claim_fine nc : Prop :=
  Requirements_wf (ic_Requirements nc) ∧
  ∀ it o, it ∈ ic_InstanceTypeOptions nc → o ∈ it_Offerings it → ∃ ct, offered o ct.

(** Whatever the claim launches as costs less. *)
Definition launches_below nc (price : float64) : Prop :=
  ∀ it o, it ∈ ic_InstanceTypeOptions nc → o ∈ launchable (Available (it_Offerings it)) (ic_Requirements nc) launchOrder →
    fltb (of_Price o) price = true.

(** A claim with fewer options and tighter requirements for the same pods. *)
Record narrowed nc nc' : Prop := {
  nw_pods : ic_Pods nc' = ic_Pods nc;
  nw_requests : ic_Requests nc' = ic_Requests nc;
  nw_taints : ic_Taints nc' = ic_Taints nc;
  nw_options : ∀ it, it ∈ ic_InstanceTypeOptions nc' → it ∈ ic_InstanceTypeOptions nc;
  nw_wf : Requirements_wf (ic_Requirements nc) → Requirements_wf (ic_Requirements nc');
  nw_reqs : narrower (ic_Requirements nc') (ic_Requirements nc);
}.

#[export] Instance narrowed_preorder : PreOrder narrowed.
Proof.
  split; [by split|]. intros a b c [H1 H2 H3 H4 H5 H6] [K1 K2 K3 K4 K5 K6].
  split; [congruence..| | |]; [auto|auto|by transitivity (ic_Requirements b)].
Qed.

Lemma narrowed_fine nc nc' : narrowed nc nc' → claim_fine nc → claim_fine nc'.
Proof. intros [_ _ _ Ho Hw _] [Hwf Hofs]. split; [auto|]. intros it o Hit. by apply Hofs, Ho. Qed.

Lemma withOptions_narrowed nc its : (∀ it, it ∈ its → it ∈ ic_InstanceTypeOptions nc) → narrowed nc (withOptions nc its).
Proof. intros Hsub. by split. Qed.

Lemma pin_narrowed nc key vals : narrowed nc (pin nc key vals).
Proof.
  assert (Forall addable [NewRequirement key OpIn vals]) as Ha
    by (constructor; [apply NewRequirementWithFlexibility_addable|constructor]).
  split; try done; cbn [pin withRequirements ic_Requirements].
  - intros. by apply Add_wf.
  - intros k v. rewrite Add_allows by done. by intros [? _]%andb_true_iff.
Qed.

(** An offering compatible with a claim that came from a pinned one has one of
    the pinned values. *)
Lemma narrowed_pinned nc nc' k v vals o :
  narrowed (pin nc k vals) nc' → plain_label k → claim_fine nc' → Requirements_wf (of_Requirements o) →
  of_Requirements o !! k = Some (onlyValue k v) → offeringCompatible (ic_Requirements nc') o = true → v ∈ vals.
Proof.
  intros Hn Hk [Hwf _] Hwo Ho Hc. assert (Forall addable [NewRequirement k OpIn vals]) as Ha
    by (constructor; [apply NewRequirementWithFlexibility_addable|constructor]).
  assert (∀ w, allows (ic_Requirements nc') k w = true → w ∈ vals) as Hin.
  { intros w Hw. apply (nw_reqs _ _ Hn) in Hw. cbn [pin withRequirements ic_Requirements] in Hw. rewrite Add_allows in Hw by done.
    apply andb_true_iff in Hw as [_ Hw]. cbn [forallb] in Hw. rewrite andb_true_r, NewRequirement_In in Hw by done.
    cbn [Key] in Hw. rewrite bool_decide_eq_true_2 in Hw by done. apply Has_spec in Hw as [Hw _]. by apply elem_of_list_to_set in Hw. }
  apply Hin. unfold allows. destruct (ic_Requirements nc' !! k) as [r|] eqn:Hr; [|done].
  unfold offeringCompatible, IsCompatible in Hc. destruct (Compatible _ _ _) eqn:Hcomp; [done|].
  apply Compatible_None in Hcomp as [_ Hint]; [|done..]. destruct (Hint k r _ Hr Ho) as (label & Hs & ->%satisfies_value). exact Hs.
Qed.

Lemma orderOptions_narrowed nc : narrowed nc (orderOptions nc).
Proof. apply withOptions_narrowed. intros it. by rewrite OrderByPrice_perm. Qed.

Lemma filter_sublist_self {A} (f : A → bool) (l : list A) : List.filter f l `sublist_of` l.
Proof. induction l as [|x l IH]; [done|]. cbn [List.filter]. destruct (f x); by constructor. Qed.

Lemma elem_of_filter_list {X} (f : X → bool) l (x : X) : x ∈ List.filter f l ↔ x ∈ l ∧ f x = true.
Proof. by rewrite !list_elem_of_In, filter_In. Qed.

(** Options priced below a bound launch below it. *)
Lemma below_launches nc its price :
  claim_fine nc → (∀ it, it ∈ its → it ∈ ic_InstanceTypeOptions nc ∧ fltb (worstLaunch (ic_Requirements nc) it) price = true) →
  launches_below (withOptions nc its) price.
Proof.
  intros [_ Hofs] Hits it o Hit Ho. destruct (Hits it Hit) as [Hin Hlt]. eapply WorstLaunchPrice_lt; [|exact Hlt|exact Ho].
  apply Forall_forall. intros o'. unfold Available. rewrite elem_of_filter_list. intros [Ho' _].
  destruct (Hofs it o' Hin Ho') as [ct Hct]. apply Hct.
Qed.

Lemma launches_below_sub nc its price :
  (∀ it, it ∈ its → it ∈ ic_InstanceTypeOptions nc) → launches_below nc price → launches_below (withOptions nc its) price.
Proof. intros Hsub Hl it o Hit. by apply Hl, Hsub. Qed.

Lemma removeByPrice_ok (ncs : list (InflightClaim Q * float64)) ncs' :
  removeByPrice ncs = (ncs', false) → (∀ nc, nc ∈ ncs.*1 → claim_fine nc) →
  Forall2 (λ x nc', narrowed x.1 nc' ∧ launches_below nc' x.2) ncs ncs'.
Proof.
  revert ncs'. induction ncs as [|[nc m] ncs IH]; intros ncs'; cbn [removeByPrice]; [intros [= <-]; constructor|].
  destruct (RemoveInstanceTypeOptionsByPriceAndMinValues _ _ _) as [kept|] eqn:Hk; [|done].
  destruct (removeByPrice ncs) as [rest err] eqn:Hrest. intros [= <- ->] Hfine. constructor.
  - unfold RemoveInstanceTypeOptionsByPriceAndMinValues in Hk. case_bool_decide; [|done]. injection Hk as <-.
    assert (∀ it, it ∈ List.filter (λ it, fltb (WorstLaunchPrice (Available (it_Offerings it)) (ic_Requirements nc)) m)
      (ic_InstanceTypeOptions nc) → it ∈ ic_InstanceTypeOptions nc ∧ fltb (worstLaunch (ic_Requirements nc) it) m = true) as Hits
      by (intros it; by rewrite elem_of_filter_list).
    cbn [fst snd]. split; [apply withOptions_narrowed; intros it Hit; by apply Hits|].
    apply below_launches; [apply Hfine, list_elem_of_here|done].
  - apply IH; [done|]. intros. by apply Hfine, list_elem_of_further.
Qed.

(** The maximal price of each claim: the whole limit for one, its cheapest
    launch and an equal share of the rest for several. *)
Definition maxPrices ncs (price : float64) : list float64 :=
  let surplusShare := fdiv (fsub price (cheapestAggregateLaunchPrice ncs)) (fofint (Z.of_nat (length ncs))) in
  (λ nc, if (length ncs <=? 1)%nat then price else fadd (cheapestLaunchPrice nc) surplusShare) <$> ncs.

Lemma filterReplacements_ok ncs budget ncs' :
  filterReplacements ncs budget = (ncs', None) → (∀ nc, nc ∈ ncs → claim_fine nc) →
  Forall2 narrowed ncs ncs' ∧ Forall2 launches_below ncs' (maxPrices ncs (limit budget)) ∧
  ∀ nc, nc ∈ ncs' → ic_InstanceTypeOptions nc ≠ [].
Proof.
  unfold filterReplacements. destruct (noOptions ncs); [done|].
  destruct (filterReplacementsByAggregatePrice ncs (limit budget)) as [ncs1 err] eqn:Hf. destruct err; [done|].
  destruct (noOptions ncs1) eqn:Hno; [done|]. intros [= <-] Hfine.
  assert (∀ nc, nc ∈ ncs1 → ic_InstanceTypeOptions nc ≠ []) as Hsome.
  { intros nc Hin Hnil. apply not_true_iff_false in Hno. apply Hno, existsb_exists. exists nc.
    split; [by apply list_elem_of_In|by rewrite Hnil]. }
  unfold filterReplacementsByAggregatePrice in Hf. destruct (fleb _ _).
  - injection Hf as <-. assert (ncs = []) as ->.
    { destruct ncs as [|nc ncs]; [done|]. exfalso. apply (Hsome (withOptions nc [])); [apply list_elem_of_here|done]. }
    split_and!; [constructor|constructor|by intros nc ?%not_elem_of_nil].
  - apply removeByPrice_ok in Hf.
    2:{ intros nc. rewrite <- list_fmap_compose. cbn [compose fst]. rewrite (list_fmap_ext _ id _ (λ _ _ _, eq_refl)), list_fmap_id. apply Hfine. }
    rewrite Forall2_fmap_l in Hf. split_and!; [| |done].
    + eapply Forall2_impl; [exact Hf|]. cbn. tauto.
    + unfold maxPrices. rewrite Forall2_fmap_r. apply Forall2_flip. eapply Forall2_impl; [exact Hf|]. cbn. tauto.
Qed.

Lemma removeByPrice_requirements (ncs : list (InflightClaim Q * float64)) ncs' err :
  removeByPrice ncs = (ncs', err) → Forall2 (λ x nc', narrowed x.1 nc' ∧ ic_Requirements nc' = ic_Requirements x.1) ncs ncs'.
Proof.
  assert (∀ nc f, narrowed nc (withOptions nc (List.filter f (ic_InstanceTypeOptions nc)))) as Hn
    by (intros nc f; apply withOptions_narrowed; intros it; rewrite elem_of_filter_list; tauto).
  revert ncs' err. induction ncs as [|[nc m] ncs IH]; intros ncs' err; cbn [removeByPrice]; [intros [= <- <-]; constructor|].
  destruct (RemoveInstanceTypeOptionsByPriceAndMinValues _ _ _) as [kept|] eqn:Hk.
  - destruct (removeByPrice ncs) as [rest err'] eqn:Hrest. intros [= <- <-]. constructor; [|by eapply IH].
    unfold RemoveInstanceTypeOptionsByPriceAndMinValues in Hk. case_bool_decide; [|done]. injection Hk as <-. split; [apply Hn|done].
  - intros [= <- <-]. constructor; [split; [apply Hn|done]|]. rewrite Forall2_fmap_r. apply Forall_Forall2_diag, Forall_forall. done.
Qed.

(** Filtering by price leaves the requirements alone. *)
Lemma filterReplacements_requirements ncs budget ncs' skip :
  filterReplacements ncs budget = (ncs', skip) → Forall2 (λ nc nc', narrowed nc nc' ∧ ic_Requirements nc' = ic_Requirements nc) ncs ncs'.
Proof.
  assert (Forall2 (λ nc nc', narrowed nc nc' ∧ ic_Requirements nc' = ic_Requirements nc) ncs ncs) as Hrefl
    by (apply Forall_Forall2_diag, Forall_forall; done).
  unfold filterReplacements. destruct (noOptions ncs); [by intros [= <- _]|].
  destruct (filterReplacementsByAggregatePrice ncs (limit budget)) as [ncs1 err] eqn:Hf. intros Hrun.
  assert (ncs' = ncs1) as -> by (destruct err; [|destruct (noOptions ncs1)]; by injection Hrun).
  unfold filterReplacementsByAggregatePrice in Hf. destruct (fleb _ _).
  - injection Hf as <- _. rewrite Forall2_fmap_r. eapply Forall2_impl; [exact Hrefl|]. intros x y [Hxy Heq]. split; [|done].
    transitivity y; [done|]. apply withOptions_narrowed. by intros it ?%not_elem_of_nil.
  - apply removeByPrice_requirements in Hf. rewrite Forall2_fmap_l in Hf. exact Hf.
Qed.

(** The claims can all be afforded: each is priced below its maximal price and
    has something to launch as. *)
Definition affordable ncs (price : float64) : Prop :=
  (∃ before, Forall2 narrowed before ncs ∧ Forall2 launches_below ncs (maxPrices before price)) ∧
  ∀ nc, nc ∈ ncs → ic_InstanceTypeOptions nc ≠ [].

Lemma filterReplacements_affordable ncs budget ncs' :
  filterReplacements ncs budget = (ncs', None) → (∀ nc, nc ∈ ncs → claim_fine nc) →
  Forall2 narrowed ncs ncs' ∧ affordable ncs' (limit budget).
Proof. intros Hf Hfine. destruct (filterReplacements_ok ncs budget ncs' Hf Hfine) as (Hn & Hl & Hs). split; [done|]. split; eauto. Qed.

(** A single affordable claim launches below the whole price. *)
Lemma affordable_single nc price : affordable [nc] price → launches_below nc price.
Proof.
  intros [(before & Hn & Hl) _]. apply Forall2_cons_inv_r in Hn as (b & before' & _ & Hnil & ->).
  apply Forall2_nil_inv_r in Hnil as ->. unfold maxPrices in Hl. cbn in Hl. by inversion Hl.
Qed.

Lemma take_options_affordable (f : InflightClaim Q → nat) ncs price :
  affordable ncs price → (∀ nc, nc ∈ ncs → (0 < f nc)%nat) →
  affordable ((λ nc, withOptions nc (take (f nc) (ic_InstanceTypeOptions nc))) <$> ncs) price.
Proof.
  intros [(before & Hn & Hl) Hs] Hf.
  assert (∀ nc it, it ∈ take (f nc) (ic_InstanceTypeOptions nc) → it ∈ ic_InstanceTypeOptions nc) as Htake
    by (intros nc it (i & Hi & _)%elem_of_take; by eapply list_elem_of_lookup_2).
  split; [exists before; split|].
  - rewrite Forall2_fmap_r. eapply Forall2_impl; [exact Hn|]. intros b nc Hb. cbn.
    transitivity nc; [done|]. apply withOptions_narrowed, Htake.
  - rewrite Forall2_fmap_l. eapply Forall2_impl; [exact Hl|]. intros nc price' Hp. cbn. by apply launches_below_sub; [apply Htake|].
  - intros nc' (nc & -> & Hin)%list_elem_of_fmap. cbn. specialize (Hs nc Hin). specialize (Hf nc Hin).
    destruct (ic_InstanceTypeOptions nc); [done|]. by destruct (f nc); [lia|].
Qed.

Lemma truncate_affordable cap ncs price :
  affordable ncs price → 1 <= cap → affordable (truncateSpotInstanceTypeOptions cap <$> ncs) price.
Proof.
  intros Ha Hcap.
  set (f nc := if HasMinValues (ic_Requirements nc)
    then Z.to_nat (Z.max cap (SatisfiesMinValues (ic_InstanceTypeOptions nc) (ic_Requirements nc)).1) else Z.to_nat cap).
  replace (truncateSpotInstanceTypeOptions cap <$> ncs) with ((λ nc, withOptions nc (take (f nc) (ic_InstanceTypeOptions nc))) <$> ncs).
  - apply take_options_affordable; [done|]. intros nc _. unfold f. destruct (HasMinValues _); lia.
  - apply list_fmap_ext. intros i nc _. unfold truncateSpotInstanceTypeOptions, f. by destruct (HasMinValues _).
Qed.

(** *** Narrowing to zones *)

Lemma narrowClaim_narrowed nc (price : float64) nc' :
  narrowClaimToCheapSpotZones rand nc price = Some (inr nc') → narrowed nc nc'.
Proof.
  unfold narrowClaimToCheapSpotZones. destruct (negb _); [done|]. intros (zones & _ & Hrun)%bind_Some.
  destruct zones as [|z zones]; [done|]. destruct (negb _) in Hrun; [done|]. injection Hrun as <-.
  transitivity (pin nc CapacityTypeLabelKey [CapacityTypeSpot]); [apply pin_narrowed|].
  transitivity (pin (pin nc CapacityTypeLabelKey [CapacityTypeSpot]) LabelTopologyZone (z :: zones)); [apply pin_narrowed|].
  etransitivity; [|apply orderOptions_narrowed]. apply withOptions_narrowed. intros it.
  unfold CompatibleInstanceTypes. rewrite !elem_of_filter_list. tauto.
Qed.

Lemma narrowAll_narrowed ncs (price : float64) ncs' : narrowAll rand ncs price = Some (Some ncs') → Forall2 narrowed ncs ncs'.
Proof.
  revert ncs'. induction ncs as [|nc ncs IH]; intros ncs'; cbn [narrowAll]; [intros [= <-]; constructor|].
  intros ([failure|nc'] & Hn & Hrun)%bind_Some; [done|]. apply bind_Some in Hrun as ([rest|] & Hrest & [= <-]).
  constructor; [by eapply narrowClaim_narrowed|by apply IH].
Qed.

Lemma narrowAndReprice_affordable ncs budget ncs' :
  narrowAndReprice rand ncs budget = Some (Some ncs') → (∀ nc, nc ∈ ncs → claim_fine nc) →
  Forall2 narrowed ncs ncs' ∧ affordable ncs' (limit budget).
Proof.
  unfold narrowAndReprice. intros (r & Hall & [= Hrun])%bind_Some Hfine. destruct r as [mid|]; [|done]. cbn in Hrun.
  apply narrowAll_narrowed in Hall. destruct (filterReplacements mid budget) as [out skip] eqn:Hf. destruct skip; [done|]. injection Hrun as ->.
  assert (∀ nc, nc ∈ mid → claim_fine nc) as Hmid.
  { intros nc (i & Hi)%list_elem_of_lookup. destruct (Forall2_lookup_r _ _ _ _ _ Hall Hi) as (nc0 & H0 & Hn).
    apply (narrowed_fine nc0); [done|]. apply Hfine. by eapply list_elem_of_lookup_2. }
  destruct (filterReplacements_affordable mid budget ncs' Hf Hmid) as [Hn Ha]. split; [|done].
  by transitivity mid.
Qed.

Lemma zoneRetry_affordable ncs budget ncs' :
  filterSpotReplacementsWithZoneRetry rand ncs budget = Some (inr ncs') → (∀ nc, nc ∈ ncs → claim_fine nc) →
  Forall2 narrowed ncs ncs' ∧ affordable ncs' (limit budget).
Proof.
  unfold filterSpotReplacementsWithZoneRetry. destruct (filterReplacements ncs budget) as [out [reason|]] eqn:Hf.
  - destruct (priceEmptiedSkip reason); [|done]. intros ([l|] & Hr & [= <-])%bind_Some Hfine. by apply narrowAndReprice_affordable.
  - intros [= <-] Hfine. by apply filterReplacements_affordable.
Qed.

(** *** Spot markets *)

Section markets.
Context (adv : string → InstanceType Q → Offering Q → bool).

(** What a zone that is not rejected says about the offerings in it. *)
Definition judged nc it (fits : bool) (m : spotReplacementMarket) (r : Z) o : Prop :=
  offeringCompatible (ic_Requirements nc) o = true →
  ∃ z, Zone rand o = Some z ∧ (z ∉ mk_rejected m → adv (ic_NodePoolName nc) it o = true ∧ fits = true) ∧
    (r = 0 → adv (ic_NodePoolName nc) it o = true).

Lemma judgeOffering_step nc it fits m r o m' r' :
  0 <= r → judgeOffering rand adv nc it fits (Some (m, r)) o = Some (m', r') →
  mk_rejected m ⊆ mk_rejected m' ∧ r <= r' ∧ judged nc it fits m' r' o.
Proof.
  intros Hr. unfold judgeOffering, judged. cbn [mbind option_bind].
  destruct (offeringCompatible (ic_Requirements nc) o); cbn [negb]; [|by intros [= <- <-]].
  intros (z & Hz & Hrun)%bind_Some. destruct (adv (ic_NodePoolName nc) it o); cbn [negb] in Hrun; [destruct fits; cbn [negb] in Hrun|];
    injection Hrun as <- <-; cbn [mk_rejected]; (split; [set_solver|]); (split; [lia|]); intros _; exists z; (split; [done|]);
    (split; [set_solver|]); first [done|intros; exfalso; lia].
Qed.

Lemma judgeOffering_None nc it fits ofs : foldl (judgeOffering rand adv nc it fits) None ofs = None.
Proof. induction ofs; done. Qed.

Lemma judged_mono nc it fits m r m' r' o :
  mk_rejected m ⊆ mk_rejected m' → 0 <= r <= r' → judged nc it fits m r o → judged nc it fits m' r' o.
Proof.
  intros Hsub Hr Hj Hc. destruct (Hj Hc) as (z & Hz & Hin & H0). exists z. split_and!; [done| |intros; apply H0; lia].
  intros Hn. apply Hin. set_solver.
Qed.

Lemma judge_fold nc it fits ofs m r m' r' :
  0 <= r → foldl (judgeOffering rand adv nc it fits) (Some (m, r)) ofs = Some (m', r') →
  mk_rejected m ⊆ mk_rejected m' ∧ r <= r' ∧ ∀ o, o ∈ ofs → judged nc it fits m' r' o.
Proof.
  revert m r. induction ofs as [|o ofs IH]; intros m r Hr; cbn [foldl].
  { intros [= <- <-]. split_and!; [done|done|by intros o ?%not_elem_of_nil]. }
  destruct (judgeOffering rand adv nc it fits (Some (m, r)) o) as [[m1 r1]|] eqn:Ho; [|by rewrite judgeOffering_None].
  apply judgeOffering_step in Ho as (Hs1 & Hr1 & Hj1); [|done]. intros Hrun. apply IH in Hrun as (Hs2 & Hr2 & Hj2); [|lia].
  split_and!; [set_solver|lia|]. intros o' [->|Hin]%elem_of_cons; [|by apply Hj2]. apply (judged_mono _ _ _ m1 r1); [done|lia|done].
Qed.

Lemma marketOf_judged nc it m r :
  marketOf overrideKey rand adv nc it = Some (m, r) →
  0 <= r ∧ ∀ g o, g ∈ AllocatableOfferingsList overrideKey it → o ∈ ao_Offerings g →
    judged nc it (Fits (ic_Requests nc) (ao_Allocatable g)) m r o.
Proof.
  unfold marketOf. generalize (AllocatableOfferingsList overrideKey it). intros groups.
  assert (∀ m0 r0, 0 <= r0 → foldl (λ acc group, foldl (judgeOffering rand adv nc it (Fits (ic_Requests nc) (ao_Allocatable group))) acc
      (ao_Offerings group)) (Some (m0, r0)) groups = Some (m, r) →
    mk_rejected m0 ⊆ mk_rejected m ∧ r0 <= r ∧ ∀ g o, g ∈ groups → o ∈ ao_Offerings g →
      judged nc it (Fits (ic_Requests nc) (ao_Allocatable g)) m r o) as Hgen.
  2:{ intros Hrun. destruct (Hgen _ 0 ltac:(lia) Hrun) as (_ & ? & ?). done. }
  induction groups as [|g groups IH]; intros m0 r0 Hr; cbn [foldl].
  { intros [= <- <-]. split_and!; [done|done|by intros g o ?%not_elem_of_nil]. }
  destruct (foldl (judgeOffering _ _ _ _ _) (Some (m0, r0)) (ao_Offerings g)) as [[m1 r1]|] eqn:Hg.
  2:{ clear IH Hg. intros Hrun. exfalso. induction groups as [|g' groups IH]; cbn [foldl] in Hrun; [done|].
      rewrite judgeOffering_None in Hrun. by apply IH. }
  apply judge_fold in Hg as (Hs1 & Hr1 & Hj1); [|done]. intros Hrun. destruct (IH m1 r1 ltac:(lia) Hrun) as (Hs2 & Hr2 & Hj2).
  split_and!; [set_solver|lia|]. intros g' o [->|Hin]%elem_of_cons Ho; [|by apply Hj2].
  apply (judged_mono _ _ _ m1 r1); [done|lia|by apply Hj1].
Qed.

(** One verdict for each option, in order. *)
Lemma spotReplacementMarkets_options nc ms rejected :
  spotReplacementMarkets overrideKey rand adv nc = Some (ms, rejected) →
  ms.*1 = ic_InstanceTypeOptions nc ∧ ∀ it m, (it, m) ∈ ms → ∃ r, marketOf overrideKey rand adv nc it = Some (m, r) ∧ r <= rejected.
Proof.
  unfold spotReplacementMarkets. intros (xs & Hxs & Heq)%bind_Some. injection Heq as <- <-.
  assert (∀ its xs, mapM (λ it, '(m, r) ← marketOf overrideKey rand adv nc it; Some (it, m, r)) its = Some xs →
    xs.*1.*1 = its ∧ 0 <= foldr (λ (x : InstanceType Q * spotReplacementMarket * Z) n, x.2 + n) 0 xs ∧
    ∀ it m, (it, m) ∈ xs.*1 → ∃ r, marketOf overrideKey rand adv nc it = Some (m, r) ∧
      r <= foldr (λ (x : InstanceType Q * spotReplacementMarket * Z) n, x.2 + n) 0 xs) as Hgen.
  2:{ destruct (Hgen _ _ Hxs) as (? & _ & ?). done. }
  clear xs Hxs. induction its as [|it its IH]; intros xs; cbn [mapM].
  { intros [= <-]. split_and!; [done|done|by intros it m ?%not_elem_of_nil]. }
  intros (x & Hx & (rest & Hrest & [= <-])%bind_Some)%bind_Some. apply bind_Some in Hx as ([m r] & Hm & [= <-]).
  destruct (IH rest Hrest) as (Hits & Hpos & Hms). pose proof (marketOf_judged _ _ _ _ Hm) as [Hr _].
  cbn [fmap list_fmap fst snd foldr]. split_and!; [by f_equal|lia|].
  intros it' m' [Heq|Hin]%elem_of_cons; [injection Heq as -> ->; exists r; split; [done|lia]|].
  destruct (Hms it' m' Hin) as (r' & ? & ?). exists r'. split; [done|lia].
Qed.

Lemma Zone_offered o z : of_Requirements o !! LabelTopologyZone = Some (onlyValue LabelTopologyZone z) → Zone rand o = Some z.
Proof.
  intros Hz. unfold Zone, Any. rewrite (Get_lookup _ _ _ Hz).
  assert (Operator (onlyValue LabelTopologyZone z) = OpIn) as -> by (unfold Operator, Len; cbn; by rewrite size_singleton).
  unfold Values. cbn [onlyValue values]. by rewrite elements_singleton.
Qed.

Lemma marketOf_available nc it m r o :
  faithful_keys overrideKey it → marketOf overrideKey rand adv nc it = Some (m, r) → o ∈ Available (it_Offerings it) →
  ∃ fits, judged nc it fits m r o.
Proof.
  intros Hk Hm Ho. destruct (AllocatableOfferingsList_partition overrideKey it Hk) as (Hperm & _ & _). rewrite <- Hperm in Ho.
  apply list_elem_of_In, in_concat in Ho as (ofs & Hofs%list_elem_of_In & Hin%list_elem_of_In).
  apply list_elem_of_fmap in Hofs as (g & -> & Hg). eexists. by apply (marketOf_judged nc it m r Hm).
Qed.

Lemma launchableMarkets_sub nc ms rejected types zones :
  spotReplacementMarkets overrideKey rand adv nc = Some (ms, rejected) → launchableSpotReplacementMarkets ms = (types, zones) →
  ∀ it, it ∈ types → it ∈ ic_InstanceTypeOptions nc.
Proof.
  intros Hms Hl it Hit. destruct (spotReplacementMarkets_options nc ms rejected Hms) as [<- _].
  unfold launchableSpotReplacementMarkets in Hl. destruct (List.find _ _); injection Hl as <- _; [|by apply not_elem_of_nil in Hit].
  apply list_elem_of_fmap in Hit as (x & -> & [Hin _]%elem_of_filter_list). by apply list_elem_of_fmap_2.
Qed.

Lemma restricted_narrowed nc types (zones : gset string) :
  (∀ it, it ∈ types → it ∈ ic_InstanceTypeOptions nc) →
  narrowed nc (orderOptions (withOptions (pin nc LabelTopologyZone (elements zones)) types)).
Proof.
  intros Hsub. transitivity (pin nc LabelTopologyZone (elements zones)); [apply pin_narrowed|].
  etransitivity; [|apply orderOptions_narrowed]. by apply withOptions_narrowed.
Qed.

(** The claim launches admitted offerings only. *)
Definition launches_admitted (pool : string) nc : Prop :=
  ∀ it o, it ∈ ic_InstanceTypeOptions nc → o ∈ Available (it_Offerings it) →
    offeringCompatible (ic_Requirements nc) o = true → adv pool it o = true.

Lemma restricted_claim nc ms rejected types zones :
  claim_fine nc → (∀ it, it ∈ ic_InstanceTypeOptions nc → faithful_keys overrideKey it) →
  spotReplacementMarkets overrideKey rand adv nc = Some (ms, rejected) →
  launchableSpotReplacementMarkets ms = (types, zones) → types ≠ [] →
  let nc' := orderOptions (withOptions (pin nc LabelTopologyZone (elements zones)) types) in
  narrowed nc nc' ∧ launches_admitted (ic_NodePoolName nc) nc'.
Proof.
  intros [Hwf Hofs] Hk Hms Hl Hne. cbv zeta. destruct (spotReplacementMarkets_options nc ms rejected Hms) as [Hits Hmk].
  pose proof (launchableMarkets_sub nc ms rejected types zones Hms Hl) as Hsub.
  unfold launchableSpotReplacementMarkets in Hl. destruct (List.find _ _) as [anchor|]; [|by injection Hl as <- _].
  injection Hl as Htypes Hzones.
  assert (∀ it, it ∈ types → ∃ m, (it, m) ∈ ms ∧ launchableIn zones m = true) as Hty.
  { intros it. rewrite <- Htypes. intros ([it' m] & -> & Hin)%list_elem_of_fmap. rewrite elem_of_filter_list in Hin.
    rewrite Hzones in Hin. by exists m. }
  split; [by apply restricted_narrowed|].
  intros it o Hit Ho Hc. cbn [orderOptions withOptions ic_InstanceTypeOptions] in Hit. rewrite OrderByPrice_perm in Hit.
  cbn [orderOptions withOptions pin withRequirements ic_Requirements] in Hc.
  assert (o ∈ it_Offerings it) as Hoi by (unfold Available in Ho; rewrite elem_of_filter_list in Ho; tauto).
  destruct (Hofs it o (Hsub it Hit) Hoi) as [ct [Hwo _ (z & Hz) _]].
  destruct (compatible_pinned _ o LabelTopologyZone z _ ol_zone Hwf Hwo Hz Hc) as [Hzin Hcr]. rewrite elem_of_elements in Hzin.
  destruct (Hty it Hit) as (m & Hin & Hla). destruct (Hmk it m Hin) as (r & Hm & _).
  destruct (marketOf_available nc it m r o (Hk it (Hsub it Hit)) Hm Ho) as (fits & Hj).
  destruct (Hj Hcr) as (z' & Hz' & Hadm & _). rewrite (Zone_offered o z Hz) in Hz'. injection Hz' as <-. apply Hadm.
  unfold launchableIn in Hla. apply andb_true_iff in Hla as [[_ Hdis%bool_decide_eq_true]%andb_true_iff _]. set_solver.
Qed.

Lemma unrestricted_claim nc ms :
  (∀ it, it ∈ ic_InstanceTypeOptions nc → faithful_keys overrideKey it) →
  spotReplacementMarkets overrideKey rand adv nc = Some (ms, 0) → launches_admitted (ic_NodePoolName nc) nc.
Proof.
  intros Hk Hms it o Hit Ho Hc. destruct (spotReplacementMarkets_options nc ms 0 Hms) as [Hits Hmk].
  rewrite <- Hits in Hit. apply list_elem_of_fmap in Hit as ([it' m] & -> & Hin). cbn [fst] in *.
  destruct (Hmk it' m Hin) as (r & Hm & Hr). assert (r = 0) as -> by (apply marketOf_judged in Hm as [? _]; lia).
  destruct (marketOf_available nc it' m 0 o) as (fits & Hj); [|done|done|by destruct (Hj Hc) as (? & _ & _ & ?); auto].
  apply Hk. rewrite <- Hits. by apply (list_elem_of_fmap_2 fst) in Hin.
Qed.
End markets.

Lemma restrict_narrowed advisor ncs ncs' :
  restrictSpotReplacements overrideKey rand advisor ncs = Some (inr ncs') → Forall2 narrowed ncs ncs'.
Proof.
  destruct advisor as [adv|]; [|destruct ncs; intros [= <-]; apply Forall_Forall2_diag, Forall_forall; done].
  revert ncs'. induction ncs as [|nc ncs IH]; intros ncs'; cbn [restrictSpotReplacements]; [intros [= <-]; constructor|].
  assert (∀ nc' out, (rest ← restrictSpotReplacements overrideKey rand (Some adv) ncs; Some (sum_map id (cons nc') rest)) = Some (inr out) →
    narrowed nc nc' → Forall2 narrowed (nc :: ncs) out) as Hnext.
  { intros nc' out ([reason|ncs1] & Hr & Heq)%bind_Some Hok; cbn in Heq; [done|]. injection Heq as <-. constructor; auto. }
  intros ([ms rejected] & Hms & Hrun)%bind_Some. destruct (rejected =? 0); [by apply (Hnext nc)|].
  destruct (launchableSpotReplacementMarkets ms) as [[|t types] zones] eqn:Hl; [done|]. destruct (negb _) in Hrun; [done|].
  apply (Hnext _ _ Hrun), restricted_narrowed. by apply (launchableMarkets_sub adv nc ms rejected _ zones).
Qed.

(** A spot replacement is never launched into a market the cloud provider turned
    down.  After the restriction, every available offering that is compatible
    with a replacement claim is one the advisor admits, whatever instance type
    and zone the launch combines; the claims only get narrower. *)
Theorem restricted_only_admitted adv ncs ncs'
    (Hfine : ∀ nc, nc ∈ ncs → claim_fine nc)
    (Hkeys : ∀ nc it, nc ∈ ncs → it ∈ ic_InstanceTypeOptions nc → faithful_keys overrideKey it)
    (Hrun : restrictSpotReplacements overrideKey rand (Some adv) ncs = Some (inr ncs')) :
  Forall2 (λ nc nc', narrowed nc nc' ∧
    ∀ it o, it ∈ ic_InstanceTypeOptions nc' → o ∈ Available (it_Offerings it) →
      offeringCompatible (ic_Requirements nc') o = true → adv (ic_NodePoolName nc) it o = true) ncs ncs'.
Proof.
  revert ncs' Hrun. induction ncs as [|nc ncs IH]; intros ncs'; cbn [restrictSpotReplacements]; [intros [= <-]; constructor|].
  assert (∀ ncs1, restrictSpotReplacements overrideKey rand (Some adv) ncs = Some (inr ncs1) → Forall2 (λ nc nc', narrowed nc nc' ∧
    ∀ it o, it ∈ ic_InstanceTypeOptions nc' → o ∈ Available (it_Offerings it) →
      offeringCompatible (ic_Requirements nc') o = true → adv (ic_NodePoolName nc) it o = true) ncs ncs1) as Hrest.
  { apply IH; [intros; by apply Hfine, list_elem_of_further|]. intros nc1 it Hin. by apply Hkeys, list_elem_of_further. }
  assert (∀ nc' out, (rest ← restrictSpotReplacements overrideKey rand (Some adv) ncs; Some (sum_map id (cons nc') rest)) = Some (inr out) →
    narrowed nc nc' ∧ launches_admitted adv (ic_NodePoolName nc) nc' → Forall2 (λ nc nc', narrowed nc nc' ∧
    ∀ it o, it ∈ ic_InstanceTypeOptions nc' → o ∈ Available (it_Offerings it) →
      offeringCompatible (ic_Requirements nc') o = true → adv (ic_NodePoolName nc) it o = true) (nc :: ncs) out) as Hnext.
  { intros nc' out ([reason|ncs1] & Hr & Heq)%bind_Some Hok; cbn in Heq; [done|]. injection Heq as <-. constructor; [done|by apply Hrest]. }
  intros ([ms rejected] & Hms & Hrun)%bind_Some.
  assert (∀ it, it ∈ ic_InstanceTypeOptions nc → faithful_keys overrideKey it) as Hk by (intros it Hit; apply (Hkeys nc); [apply list_elem_of_here|done]).
  destruct (rejected =? 0) eqn:Hz; destruct_bools.
  - subst rejected. apply (Hnext nc _ Hrun). split; [done|]. by apply (unrestricted_claim adv nc ms).
  - destruct (launchableSpotReplacementMarkets ms) as [[|t types] zones] eqn:Hl; [done|]. destruct (negb _) in Hrun; [done|].
    apply (Hnext _ _ Hrun). by apply (restricted_claim adv nc ms rejected); [apply Hfine, list_elem_of_here|..].
Qed.
End filter_theory.

(** * Witnesses *)

Section witnesses.
#[local] Existing Instance karpenterLabels.
#[local] Existing Instance karpenterLabels_ok.
#[local] Existing Instance stable_GoSort.
#[local] Existing Instance exampleProvider.
#[local] Existing Instance textIP.

Lemma exampleLabels : OfferingLabels.
Proof. split; split; (reflexivity || set_solver). Qed.

(** A node that may be small or large. *)
Definition flexibleClaim : InflightClaim Z :=
  NewInflightClaim "pool" "host-1" [] PackingPolicyBinpack ∅ [] [large; small] true None.

Lemma small_large_offered it o : it ∈ [large; small] → o ∈ it_Offerings it → ∃ ct, offered o ct.
Proof.
  rewrite !elem_of_cons, elem_of_nil. intros [->|[->|[]]]; cbn [small large exampleType it_Offerings]; rewrite !elem_of_cons, elem_of_nil.
  - intros [->|[]]. exists CapacityTypeSpot. split; [|vm_compute; reflexivity|exists "zone-a"%string; vm_compute; reflexivity|vm_compute; reflexivity].
    apply Add_wf; [apply map_Forall_empty|addable_list].
  - intros [->|[->|[]]]; [exists CapacityTypeSpot|exists CapacityTypeOnDemand];
      (split; [|vm_compute; reflexivity|exists "zone-a"%string; vm_compute; reflexivity|vm_compute; reflexivity]);
      (apply Add_wf; [apply map_Forall_empty|addable_list]).
Qed.

Lemma flexibleClaim_fine : claim_fine flexibleClaim.
Proof.
  split; [|intros it o; apply small_large_offered]. cbn [flexibleClaim NewInflightClaim ic_Requirements].
  apply Add_wf; [apply map_Forall_empty|addable_list].
Qed.

Lemma small_large_keys it : it ∈ [large; small] → faithful_keys (λ _, ("k", "k")%string) it.
Proof.
  intros Hit o o' Ho Ho' Hov. exfalso. revert Hov. rewrite !elem_of_cons, elem_of_nil in Hit.
  destruct Hit as [->|[->|[]]]; cbn [small large exampleType it_Offerings] in Ho; rewrite !elem_of_cons, elem_of_nil in Ho.
  - destruct Ho as [->|[]]; discriminate.
  - destruct Ho as [->|[->|[]]]; discriminate.
Qed.

(** Only small machines are to be had. *)
Definition smallOnly (pool : string) (it : InstanceType Z) (o : Offering Z) : bool := String.eqb (it_Name it) "small".

Definition restrictedClaim : InflightClaim Z :=
  match restrictSpotReplacements (λ _, ("k", "k")%string) (λ _, 0) (Some smallOnly) [flexibleClaim] with
  | Some (inr [nc]) => nc
  | _ => flexibleClaim
  end.

Lemma restricted_only_admitted_witness :
  it_Name <$> ic_InstanceTypeOptions restrictedClaim = ["small"%string] ∧
  Forall2 (λ nc nc', narrowed nc nc' ∧
    ∀ it o, it ∈ ic_InstanceTypeOptions nc' → o ∈ Available (it_Offerings it) →
      offeringCompatible (ic_Requirements nc') o = true → smallOnly (ic_NodePoolName nc) it o = true) [flexibleClaim] [restrictedClaim].
Proof.
  split; [vm_compute; reflexivity|].
  apply (@restricted_only_admitted _ _ _ exampleLabels _ _ _ _ (λ _, ("k", "k")%string) (λ _, 0) smallOnly [flexibleClaim] [restrictedClaim]).
  - intros nc ->%list_elem_of_singleton. apply flexibleClaim_fine.
  - intros nc it ->%list_elem_of_singleton. apply small_large_keys.
  - vm_compute. reflexivity.
Defined.
End witnesses.
