(* ===== verification/Consolidation.v ===== *)
(** * Deciding a consolidation

    Model of [computeConsolidation] of [pkg/controllers/disruption/consolidation.go]
    with the spot-to-spot rules of [spottospot.go] and the split fallback of
    [splitconsolidation.go], and of the candidates and commands of [types.go].
    Simulating the scheduling of the candidates' pods reads the cluster: it is
    the interface [Simulation] over the state of the world, which moves on
    between calls.  Metrics, events and logs are left out; of the telemetry only
    the mark that a no-op is inconclusive is kept, since it decides whether the
    result may be cached. *)

From Stdlib Require Import SpecFloat.
From S2P Require Import Prelude Float64 Requirement Kube HostPorts Requirements Resources InstanceTypes PodUtils NodeClaim Packing Replacements.

Inductive ConsolidationPolicy := WhenEmpty | WhenEmptyOrUnderutilized | Balanced.

#[export] Instance ConsolidationPolicy_eq_dec : EqDecision ConsolidationPolicy.
Proof. solve_decision. Defined.

(** The fields of a NodePool that consolidation reads. *)
Record CandidatePool := mkPool {
  cp_Name : string;
  cp_Annotations : gmap string string;
  cp_ConsolidationPolicy : ConsolidationPolicy;
  cp_ConsolidateAfter : option Z;
  cp_Replicas : option Z;
}.

Record Candidate (Q : Type) := mkCandidate {
  cd_Name : string;
  cd_ProviderID : string;
  cd_Labels : gmap string string;
  cd_instanceType : option (InstanceType Q);
  cd_NodePool : CandidatePool;
  cd_capacityType : string;
  cd_CreationTimestamp : Z;                  (* of the NodeClaim *)
  cd_Consolidatable : bool;                  (* status condition *)
  cd_reschedulablePods : list Pod;
  cd_Price : float64;
  cd_RescheduleDisruptionCost : float64;
}.
Arguments mkCandidate {Q}.
Arguments cd_Name {Q}.
Arguments cd_ProviderID {Q}.
Arguments cd_Labels {Q}.
Arguments cd_instanceType {Q}.
Arguments cd_NodePool {Q}.
Arguments cd_capacityType {Q}.
Arguments cd_CreationTimestamp {Q}.
Arguments cd_Consolidatable {Q}.
Arguments cd_reschedulablePods {Q}.
Arguments cd_Price {Q}.
Arguments cd_RescheduleDisruptionCost {Q}.

Record Command (Q : Type) `{NetIP} := mkCommand {
  cmd_Candidates : list (Candidate Q);
  cmd_Replacements : list (InflightClaim Q);
  cmd_PoolDisruptionCosts : option (gmap string float64);    (* nil or a map *)
  cmd_NewCapacityPriceLimit : float64;
}.
Arguments mkCommand {Q _}.
Arguments cmd_Candidates {Q _}.
Arguments cmd_Replacements {Q _}.
Arguments cmd_PoolDisruptionCosts {Q _}.
Arguments cmd_NewCapacityPriceLimit {Q _}.

Inductive DecisionKind := NoOpDecision | ReplaceDecision | DeleteDecision.

#[export] Instance DecisionKind_eq_dec : EqDecision DecisionKind.
Proof. solve_decision. Defined.

(** The operator options that consolidation reads. *)
Record ConsolidationOptions := mkConsolidationOptions {
  SpotToSpotConsolidation : bool;                (* feature gate *)
  SpotToSpotMinNodeAge_ : Z;
  SpotToSpotMinSavings : float64;
  SpotToSpotMinInstanceTypes : Z;
  ConsolidationReplaceMinSavings : float64;
  MaxConsolidationReplacements : Z;
  ODToSpotConsolidation : bool;
  ODToSpotConsolidationShadow : bool;
  ConsolidationSplitFallback : bool;
  ConsolidationSplitShadow : bool;
  ConsolidationSplitMinSavings : float64;
  ConsolidationSplitShadowMaxReplacements : Z;
}.

Record consolidationSimulationOptions := mkSimulationOptions {
  newCapacityPriceLimit : float64;
  so_minSavings : float64;
  maxReplacements : Z;
}.

(** What a simulation returns: an error (and whether it is the deadline), that a
    candidate is being deleted, or whether all pods that were not pending found
    a place and the NodeClaims to open for them. *)
Inductive SimulationOutcome (Q : Type) `{NetIP} :=
  | SimulationError (deadlineExceeded : bool)
  | CandidateDeleting
  | SimulationResults (allNonPendingPodsScheduled : bool) (newNodeClaims : list (InflightClaim Q)).
Arguments SimulationError {Q _}.
Arguments CandidateDeleting {Q _}.
Arguments SimulationResults {Q _}.

Class Simulation (W Q : Type) `{NetIP} := {
  SimulateScheduling : W → float64 → list (Candidate Q) → W * SimulationOutcome Q;
  clockNow : W → Z;
}.

(** The state of a pass: the world, the split attempts left ([None] outside a
    budgeted pass) and whether the evaluation was marked inconclusive. *)
Record ConsolidationState (W : Type) := mkConsolidationState {
  cs_world : W;
  cs_splitAttempts : option Z;
  cs_inconclusive : bool;
}.
Arguments mkConsolidationState {W}.
Arguments cs_world {W}.
Arguments cs_splitAttempts {W}.
Arguments cs_inconclusive {W}.

Definition NodePoolSpotToSpotMinNodeAgeAnnotationKey : string := "karpenter.sh/spot-to-spot-min-node-age".
Definition NodePoolSpotToSpotMinSavingsAnnotationKey : string := "karpenter.sh/spot-to-spot-min-savings".

(** ** Spot-to-spot settings *)

Section settings.
Context {PS : Parsers}.
Implicit Types (np : CandidatePool).

(** The value, and whether the annotation was invalid. *)
Definition SpotToSpotMinNodeAgeForNodePool np (def : Z) : Z * bool :=
  let value := default ""%string (cp_Annotations np !! NodePoolSpotToSpotMinNodeAgeAnnotationKey) in
  if String.eqb value "" then (def, false)
  else match ParseDuration value with
       | None => (def, true)
       | Some age => if age <? 0 then (def, true) else (age, false)
       end.

Definition SpotToSpotMinSavingsForNodePool np (def : float64) : float64 * bool :=
  let value := default ""%string (cp_Annotations np !! NodePoolSpotToSpotMinSavingsAnnotationKey) in
  if String.eqb value "" then (def, false)
  else match ParseFloat value with
       | None => (def, true)
       | Some savings =>
           if is_nan savings || fltb savings (fofint 0) || fleb (fofint 1) savings then (def, true) else (savings, false)
       end.

Definition spotToSpotSettingsFor (opts : ConsolidationOptions) np : Z * float64 :=
  ((SpotToSpotMinNodeAgeForNodePool np (SpotToSpotMinNodeAge_ opts)).1,
   (SpotToSpotMinSavingsForNodePool np (SpotToSpotMinSavings opts)).1).
End settings.

Section consolidation.
Context {LT : LabelTables} {PL : ProviderLabels} {GS : GoSort} {PS : Parsers} {Q W : Type} `{Quantity Q} {NI : NetIP}
  {SIM : Simulation W Q} (overrideKey : Offering Q → string * string) (rand : Z → Z) (opts : ConsolidationOptions)
  (advisor : option (string → InstanceType Q → Offering Q → bool)).
Implicit Types (c : Candidate Q) (cands : list (Candidate Q)) (nc : InflightClaim Q) (ncs : list (InflightClaim Q))
  (st : ConsolidationState W) (simOpts : consolidationSimulationOptions) (cmd : Command Q).

Definition noCommand : Command Q := mkCommand [] [] None (fofint 0).

Definition Decision cmd : DecisionKind :=
  match cmd_Candidates cmd, cmd_Replacements cmd with
  | _ :: _, _ :: _ => ReplaceDecision
  | _ :: _, [] => DeleteDecision
  | [], _ => NoOpDecision
  end.

Definition addPoolCost (costs : gmap string float64) c : gmap string float64 :=
  <[cp_Name (cd_NodePool c) := fadd (default (fofint 0) (costs !! cp_Name (cd_NodePool c))) (cd_RescheduleDisruptionCost c)]> costs.

Definition computePoolDisruptionCosts cands : option (gmap string float64) :=
  match cands with [] => None | _ => Some (foldl addPoolCost ∅ cands) end.

Definition sumCandidatePrices cands : float64 := fsum (cd_Price <$> cands).

Definition withWorld st (w : W) : ConsolidationState W := mkConsolidationState w (cs_splitAttempts st) (cs_inconclusive st).
Definition markNoOpInconclusive st : ConsolidationState W := mkConsolidationState (cs_world st) (cs_splitAttempts st) true.

(** ** Spot to spot *)

(** The strictest savings floor of the candidates' pools; [None] when one is too
    young. *)
Fixpoint stabilityFloor (now : Z) cands (minSavings : float64) : option float64 :=
  match cands with
  | [] => Some minSavings
  | c :: cands =>
      let '(minNodeAge, savings) := spotToSpotSettingsFor opts (cd_NodePool c) in
      if (0 <? minNodeAge) && (timeSub now (cd_CreationTimestamp c) <? minNodeAge) then None
      else stabilityFloor now cands (gomax minSavings savings)
  end.

Definition spotToSpotStabilityFloor st cands : ConsolidationState W * (SkipReason + float64) :=
  if negb (SpotToSpotConsolidation opts) then (st, inl SpotToSpotDisabled)
  else match stabilityFloor (clockNow (cs_world st)) cands (fofint 0) with
       | None => (markNoOpInconclusive st, inl SpotToSpotMinNodeAge)
       | Some minSavings => (st, inr minSavings)
       end.

(** A replacement for spot candidates is spot. *)
Definition pinToSpot nc : InflightClaim Q :=
  let nc := pin nc CapacityTypeLabelKey [CapacityTypeSpot] in
  orderOptions (withOptions nc (CompatibleInstanceTypes (ic_InstanceTypeOptions nc) (ic_Requirements nc))).

Definition computeSpotToSpotConsolidation st cands ncs (budget : priceBudget)
    : option (ConsolidationState W * (SkipReason + list (InflightClaim Q))) :=
  match spotToSpotStabilityFloor st cands with
  | (st, inl reason) => Some (st, inl reason)
  | (st, inr minSavings) =>
      let budget := mkPriceBudget (pb_candidatePrice budget) (gomax (pb_minSavings budget) minSavings) in
      narrowed ← narrowSpotReplacements overrideKey rand advisor (pinToSpot <$> ncs) budget;
      Some (st, match narrowed with
        | inl reason => inl reason
        | inr ncs =>
            if (1 <? length cands)%nat then inr ncs
            else if existsb (λ nc, Z.of_nat (length (ic_InstanceTypeOptions nc)) <? SpotToSpotMinInstanceTypes opts) ncs
            then inl SpotToSpotFlexibility
            else inr (truncateSpotInstanceTypeOptions (SpotToSpotMinInstanceTypes opts) <$> ncs)
        end)
  end.

(** ** The command *)

Definition allowsType nc (ct : string) : bool := Has (Get (ic_Requirements nc) CapacityTypeLabelKey) ct.

(** Whether the retry applies, and whether only as a shadow. *)
Definition odToSpotRetryApplies cands ncs : bool * bool :=
  if negb (ODToSpotConsolidation opts) && negb (ODToSpotConsolidationShadow opts) then (false, false)
  else if existsb (λ c, negb (String.eqb (cd_capacityType c) CapacityTypeOnDemand)) cands then (false, false)
  else if existsb (λ nc, negb (allowsType nc CapacityTypeSpot)) ncs then (false, false)
  else (true, negb (ODToSpotConsolidation opts)).

(** Filtered on the assumption that spot launches, so spot it must be. *)
Definition requireSpot nc : InflightClaim Q :=
  if allowsType nc CapacityTypeSpot && allowsType nc CapacityTypeOnDemand
  then pin nc CapacityTypeLabelKey [CapacityTypeSpot] else nc.

Definition replacementLimit simOpts cands : Z :=
  if bool_decide (length cands = 1%nat)
  then Z.max 1 (if 0 <? maxReplacements simOpts then maxReplacements simOpts else MaxConsolidationReplacements opts)
  else 1.

(** What an evaluation ends with: an error (and whether it is the deadline) or a
    command. *)
Definition Evaluation : Type := option (ConsolidationState W * (bool + Command Q)).

Section compute.
(** [trySplitConsolidation], for the candidates and their price *)
Context (trySplit : consolidationSimulationOptions → float64 → list (Candidate Q) → ConsolidationState W
  → option (ConsolidationState W * option (Command Q))).

Definition orSplit simOpts (candidatePrice : float64) cands st : Evaluation :=
  '(st, split) ← trySplit simOpts candidatePrice cands st;
  Some (st, inr (default noCommand split)).

Definition replaceCommand cands ncs (limit : float64) : Command Q :=
  mkCommand cands ncs (computePoolDisruptionCosts cands) limit.

Definition replaceSpot simOpts cands ncs st (budget : priceBudget) : Evaluation :=
  '(st, result) ← computeSpotToSpotConsolidation st cands ncs budget;
  match result with
  | inr ncs =>
      Some (st, inr (replaceCommand cands ncs (if (1 <? length cands)%nat then fofint 0 else newCapacityPriceLimit simOpts)))
  | inl SpotToSpotMinNodeAge => Some (st, inr noCommand)
  | inl _ => orSplit simOpts (pb_candidatePrice budget) cands st
  end.

Definition replaceOther simOpts cands ncs st (budget : priceBudget) : Evaluation :=
  let '(applies, shadowOnly) := odToSpotRetryApplies cands ncs in
  match filterReplacements ncs budget with
  | (ncs, None) => Some (st, inr (replaceCommand cands (requireSpot <$> ncs) (newCapacityPriceLimit simOpts)))
  | (_, Some _) =>
      retried ← (if applies : bool then retrySpotOnlyReplacements rand ncs budget (SpotToSpotMinInstanceTypes opts) else Some None);
      match (if shadowOnly : bool then None else retried) with
      | Some ncs => Some (st, inr (replaceCommand cands ncs (newCapacityPriceLimit simOpts)))
      | None => orSplit simOpts (pb_candidatePrice budget) cands st
      end
  end.

Definition computeWith simOpts cands st : Evaluation :=
  let '(w, outcome) := SimulateScheduling (cs_world st) (newCapacityPriceLimit simOpts) cands in
  let st := withWorld st w in
  match outcome with
  | SimulationError deadline => Some (st, inl deadline)
  | CandidateDeleting => Some (markNoOpInconclusive st, inr noCommand)
  | SimulationResults false _ => Some (st, inr noCommand)
  | SimulationResults true [] => Some (st, inr (replaceCommand cands [] (fofint 0)))
  | SimulationResults true ncs =>
      if replacementLimit simOpts cands <? Z.of_nat (length ncs) then Some (st, inr noCommand)
      else
        let budget := mkPriceBudget (sumCandidatePrices cands) (so_minSavings simOpts) in
        let ncs := orderOptions <$> ncs in
        if forallb (λ c, String.eqb (cd_capacityType c) CapacityTypeSpot) cands &&
           existsb (λ nc, allowsType nc CapacityTypeSpot) ncs
        then replaceSpot simOpts cands ncs st budget
        else replaceOther simOpts cands ncs st budget
  end.
End compute.

(** ** The split fallback *)

Definition liveSplit : bool := ConsolidationSplitFallback opts && (2 <=? MaxConsolidationReplacements opts).

Definition splitCandidate simOpts (candidatePrice : float64) cands : option (Candidate Q) :=
  match cands with
  | [c] =>
      if fltb (fofint 0) (newCapacityPriceLimit simOpts) then None
      else if negb liveSplit && negb (ConsolidationSplitShadow opts) then None
      else if fleb candidatePrice (fofint 0) || (length (cd_reschedulablePods c) <? 2)%nat then None
      else if String.eqb (cd_capacityType c) CapacityTypeSpot && negb (SpotToSpotConsolidation opts) then None
      else Some c
  | _ => None
  end.

(** [acquireSplitAttempt]: only a live pass that spent its attempts makes the
    no-op inconclusive. *)
Definition acquireSplitAttempt (shadow : bool) st : ConsolidationState W * bool :=
  match cs_splitAttempts st with
  | None => (st, false)
  | Some remaining =>
      if remaining <=? 0 then (if shadow then st else markNoOpInconclusive st, false)
      else (mkConsolidationState (cs_world st) (Some (remaining - 1)) (cs_inconclusive st), true)
  end.

Definition splitOptions (candidatePrice : float64) (maxReplacements : Z) : consolidationSimulationOptions :=
  mkSimulationOptions candidatePrice (gomax (ConsolidationSplitMinSavings opts) (ConsolidationReplaceMinSavings opts)) maxReplacements.

(** [inner] evaluates under the price limit. *)
Definition trySplitConsolidation (inner : consolidationSimulationOptions → list (Candidate Q) → ConsolidationState W → Evaluation)
    simOpts (candidatePrice : float64) cands st : option (ConsolidationState W * option (Command Q)) :=
  let shadow := negb liveSplit && ConsolidationSplitShadow opts in
  match splitCandidate simOpts candidatePrice cands with
  | None => Some (st, None)
  | Some c =>
      match acquireSplitAttempt shadow st with
      | (st, false) => Some (st, None)
      | (st, true) =>
          if shadow then
            '(st, _) ← inner (splitOptions candidatePrice (ConsolidationSplitShadowMaxReplacements opts)) [c] st;
            Some (st, None)
          else
            '(st, result) ← inner (splitOptions candidatePrice 0) [c] st;
            Some (match result with
              | inl _ => (markNoOpInconclusive st, None)
              | inr cmd => (st, if bool_decide (Decision cmd = ReplaceDecision) then Some cmd else None)
              end)
      end
  end.

(** A split never splits again: [splitCandidate] turns down a simulation with a
    price limit. *)
Definition computeConsolidationWithOptions simOpts cands st : Evaluation :=
  computeWith (trySplitConsolidation (computeWith (λ _ _ _ st, Some (st, None)))) simOpts cands st.

Definition computeConsolidation cands st : Evaluation :=
  computeConsolidationWithOptions (mkSimulationOptions (fofint 0) (ConsolidationReplaceMinSavings opts) 0) cands st.
End consolidation.

(** * Theory *)

Section consolidation_theory.
Context {LT : LabelTables} {LTok : LabelTablesOk} {PL : ProviderLabels} {CTL : OfferingLabels} {GS : GoSort} {PS : Parsers}
  {Q W : Type} `{Quantity Q} {NI : NetIP} {SIM : Simulation W Q} (overrideKey : Offering Q → string * string) (rand : Z → Z)
  (opts : ConsolidationOptions) (advisor : option (string → InstanceType Q → Offering Q → bool)).
Implicit Types (c : Candidate Q) (cands : list (Candidate Q)) (nc : InflightClaim Q) (ncs : list (InflightClaim Q))
  (st : ConsolidationState W) (simOpts : consolidationSimulationOptions) (cmd : Command Q) (budget : priceBudget).

(** ** Spot to spot *)

(** Every candidate is old enough for its pool, and no pool asks for more
    savings than the floor found. *)
Lemma stabilityFloor_ok now cands (start savings : float64) :
  stabilityFloor opts now cands start = Some savings →
  (∀ f, fltb start f = false → fltb savings f = false) ∧
  ∀ c, c ∈ cands →
    let settings := spotToSpotSettingsFor opts (cd_NodePool c) in
    (0 < settings.1 → settings.1 <= timeSub now (cd_CreationTimestamp c)) ∧ fltb savings settings.2 = false.
Proof.
  revert start. induction cands as [|c cands IH]; intros start; cbn [stabilityFloor].
  { intros [= <-]. split; [done|by intros c ?%not_elem_of_nil]. }
  destruct (spotToSpotSettingsFor opts (cd_NodePool c)) as [age floor] eqn:Hs.
  destruct ((0 <? age) && _) eqn:Hage; [done|]. intros [Hstart Hall]%IH. split.
  - intros f Hf. by apply Hstart, gomax_floor_l.
  - intros c' [->|Hin]%elem_of_cons; [|by apply Hall]. cbv zeta. rewrite Hs. cbn [fst snd]. split.
    + apply andb_false_iff in Hage as [Hage|Hage]; lia.
    + apply Hstart, gomax_floor_r, fltb_irrefl.
Qed.

Lemma pinToSpot_narrowed nc : narrowed nc (pinToSpot nc).
Proof.
  unfold pinToSpot. cbv zeta. set (p := pin nc _ _). transitivity p; [apply pin_narrowed|].
  etransitivity; [|apply orderOptions_narrowed]. apply withOptions_narrowed. intros it.
  unfold CompatibleInstanceTypes. rewrite elem_of_filter_list. tauto.
Qed.

Lemma narrowed_all_fine ncs ncs' : Forall2 narrowed ncs ncs' → (∀ nc, nc ∈ ncs → claim_fine nc) → ∀ nc, nc ∈ ncs' → claim_fine nc.
Proof.
  intros Hn Hfine nc (i & Hi)%list_elem_of_lookup. destruct (Forall2_lookup_r _ _ _ _ _ Hn Hi) as (nc0 & H0 & Hnn).
  apply (narrowed_fine nc0); [done|]. by eapply Hfine, list_elem_of_lookup_2.
Qed.

Lemma fmap_narrowed (f : InflightClaim Q → InflightClaim Q) ncs : (∀ nc, narrowed nc (f nc)) → Forall2 narrowed ncs (f <$> ncs).
Proof. intros Hf. rewrite Forall2_fmap_r. apply Forall_Forall2_diag, Forall_forall. auto. Qed.

Lemma truncate_narrowed cap nc : narrowed nc (truncateSpotInstanceTypeOptions cap nc).
Proof.
  unfold truncateSpotInstanceTypeOptions.
  destruct (HasMinValues _); apply withOptions_narrowed; intros it (i & Hi & _)%elem_of_take; by eapply list_elem_of_lookup_2.
Qed.

Lemma narrowSpot_affordable ncs budget ncs' :
  narrowSpotReplacements overrideKey rand advisor ncs budget = Some (inr ncs') → (∀ nc, nc ∈ ncs → claim_fine nc) →
  Forall2 narrowed ncs ncs' ∧ affordable ncs' (limit budget).
Proof.
  unfold narrowSpotReplacements. intros ([reason|mid] & Hr & Hrun)%bind_Some Hfine; [done|]. apply restrict_narrowed in Hr.
  apply zoneRetry_affordable in Hrun as [Hn Ha]; [|by apply (narrowed_all_fine ncs)]. split; [by transitivity mid|done].
Qed.

(** The budget a replacement of the candidates was priced within. *)
Definition within_budget cands (floor : float64) ncs : Prop :=
  ∃ minSavings, fltb minSavings floor = false ∧ affordable ncs (limit (mkPriceBudget (sumCandidatePrices cands) minSavings)).

(** The budget spot replacements are held to: tightened by the strictest pool. *)
Lemma spotToSpot_run st cands ncs budget st' ncs' :
  computeSpotToSpotConsolidation overrideKey rand opts advisor st cands ncs budget = Some (st', inr ncs') →
  (∀ nc, nc ∈ ncs → claim_fine nc) →
  ∃ savings mid, SpotToSpotConsolidation opts = true ∧
    stabilityFloor opts (clockNow (cs_world st)) cands (fofint 0) = Some savings ∧
    Forall2 narrowed (pinToSpot <$> ncs) mid ∧
    affordable mid (limit (mkPriceBudget (pb_candidatePrice budget) (gomax (pb_minSavings budget) savings))) ∧
    ncs' = (if (1 <? length cands)%nat then mid else truncateSpotInstanceTypeOptions (SpotToSpotMinInstanceTypes opts) <$> mid) ∧
    (length cands = 1%nat → ∀ nc, nc ∈ mid → SpotToSpotMinInstanceTypes opts <= Z.of_nat (length (ic_InstanceTypeOptions nc))).
Proof.
  intros Hrun Hfine. unfold computeSpotToSpotConsolidation, spotToSpotStabilityFloor in Hrun.
  destruct (SpotToSpotConsolidation opts) eqn:Hon; cbn [negb] in Hrun; [|done].
  destruct (stabilityFloor opts _ cands _) as [savings|] eqn:Hst; [|done].
  apply bind_Some in Hrun as ([reason|mid] & Hn & Heq); [done|]. injection Heq as <- Heq.
  apply narrowSpot_affordable in Hn as [Hn Ha]; [|by apply (narrowed_all_fine ncs), Hfine; apply fmap_narrowed, pinToSpot_narrowed].
  exists savings, mid. split_and!; [done|done|done|done| |].
  - destruct (1 <? length cands)%nat; [by injection Heq as <-|]. destruct (existsb _ mid); [done|]. by injection Heq as <-.
  - intros Hlen nc Hin. rewrite Hlen in Heq. cbn [Nat.ltb Nat.leb] in Heq. destruct (existsb _ mid) eqn:Hex; [done|].
    destruct (Z.ltb_spec (Z.of_nat (length (ic_InstanceTypeOptions nc))) (SpotToSpotMinInstanceTypes opts)) as [Hlt|]; [|done].
    apply not_true_iff_false in Hex. destruct Hex. apply existsb_exists. exists nc. split; [by apply list_elem_of_In|lia].
Qed.

Lemma spotToSpot_affordable st cands ncs budget st' ncs' :
  computeSpotToSpotConsolidation overrideKey rand opts advisor st cands ncs budget = Some (st', inr ncs') →
  1 <= SpotToSpotMinInstanceTypes opts → (∀ nc, nc ∈ ncs → claim_fine nc) →
  Forall2 narrowed (pinToSpot <$> ncs) ncs' ∧ ∃ minSavings, affordable ncs' (limit (mkPriceBudget (pb_candidatePrice budget) minSavings)) ∧
    (∀ floor, fltb (pb_minSavings budget) floor = false → fltb minSavings floor = false) ∧
    ∀ c, c ∈ cands → fltb minSavings (spotToSpotSettingsFor opts (cd_NodePool c)).2 = false.
Proof.
  intros Hrun Hcap Hfine. destruct (spotToSpot_run _ _ _ _ _ _ Hrun Hfine) as (savings & mid & _ & Hst & Hn & Ha & -> & _).
  apply stabilityFloor_ok in Hst as [_ Hages]. split.
  { destruct (1 <? length cands)%nat; [done|]. transitivity mid; [done|]. apply fmap_narrowed, truncate_narrowed. }
  exists (gomax (pb_minSavings budget) savings). split_and!.
  - destruct (1 <? length cands)%nat; [done|]. by apply truncate_affordable.
  - intros floor. apply gomax_floor_l.
  - intros c Hc. by apply gomax_floor_r, Hages.
Qed.

(** C11. Spot nodes are not churned.  When spot candidates are replaced, the feature
    is on, every candidate has reached the minimal age its pool sets, the
    replacements can only launch as spot and cost less than the candidates with
    the savings the strictest pool asks for, and a replacement of a single node
    keeps at least the minimal number of instance types to choose from. *)
Theorem spot_to_spot_stable st cands ncs budget st' ncs'
    (Hfine : ∀ nc, nc ∈ ncs → claim_fine nc) (Hcap : 1 <= SpotToSpotMinInstanceTypes opts)
    (Hrun : computeSpotToSpotConsolidation overrideKey rand opts advisor st cands ncs budget = Some (st', inr ncs')) :
  SpotToSpotConsolidation opts = true ∧
  (∀ c, c ∈ cands →
    let minNodeAge := (spotToSpotSettingsFor opts (cd_NodePool c)).1 in
    0 < minNodeAge → minNodeAge <= timeSub (clockNow (cs_world st)) (cd_CreationTimestamp c)) ∧
  (∀ nc it o, nc ∈ ncs' → it ∈ ic_InstanceTypeOptions nc → o ∈ it_Offerings it →
    offeringCompatible (ic_Requirements nc) o = true → offered o CapacityTypeSpot) ∧
  (∃ minSavings, affordable ncs' (limit (mkPriceBudget (pb_candidatePrice budget) minSavings)) ∧
    fltb minSavings (pb_minSavings budget) = false ∧
    ∀ c, c ∈ cands → fltb minSavings (spotToSpotSettingsFor opts (cd_NodePool c)).2 = false) ∧
  (length cands = 1%nat → ∀ nc, nc ∈ ncs' → SpotToSpotMinInstanceTypes opts <= Z.of_nat (length (ic_InstanceTypeOptions nc))).
Proof.
  destruct (spotToSpot_run _ _ _ _ _ _ Hrun Hfine) as (savings & mid & Hon & Hst & _ & _ & Hncs & Hmin).
  destruct (spotToSpot_affordable _ _ _ _ _ _ Hrun Hcap Hfine) as (Hn & minSavings & Ha & Hfloor & Hpools).
  apply stabilityFloor_ok in Hst as [_ Hages]. split_and!; [done|intros c Hc; by apply Hages| | |].
  - intros nc it o (i & Hi)%list_elem_of_lookup Hit Ho Hc.
    destruct (Forall2_lookup_r _ _ _ _ _ Hn Hi) as (nc0 & H0 & Hn0). rewrite list_lookup_fmap in H0.
    destruct (ncs !! i) as [nc1|] eqn:H1; [|done]. injection H0 as <-. apply list_elem_of_lookup_2, Hfine in H1.
    assert (narrowed (pin nc1 CapacityTypeLabelKey [CapacityTypeSpot]) nc) as Hpin.
    { transitivity (pinToSpot nc1); [|done]. unfold pinToSpot. etransitivity; [|apply orderOptions_narrowed].
      apply withOptions_narrowed. intros it'. unfold CompatibleInstanceTypes. rewrite elem_of_filter_list. tauto. }
    assert (claim_fine nc) as Hf by (apply (narrowed_fine (pinToSpot nc1)); [done|]; apply (narrowed_fine nc1); [apply pinToSpot_narrowed|done]).
    destruct (proj2 Hf it o Hit Ho) as [ct Hof]. pose proof Hof as [Hwo Hty _ _].
    pose proof (narrowed_pinned nc1 nc _ ct _ o Hpin ol_type Hf Hwo Hty Hc) as ->%list_elem_of_singleton. exact Hof.
  - exists minSavings. split_and!; [done|by apply Hfloor, fltb_irrefl|done].
  - intros Hlen nc. rewrite Hncs, Hlen. cbn [Nat.ltb Nat.leb]. intros (nc0 & -> & Hin)%list_elem_of_fmap.
    pose proof (Hmin Hlen nc0 Hin). unfold truncateSpotInstanceTypeOptions.
    destruct (HasMinValues _); cbn [withOptions ic_InstanceTypeOptions]; rewrite length_take; lia.
Qed.

(** ** The command *)

(** A run of the simulation placed all pods of the candidates with these new
    claims. *)
Definition simulated cands ncs : Prop := ∃ w price w', SimulateScheduling w price cands = (w', SimulationResults true ncs).

(** A claim open to spot and on-demand has no reserved offering to launch.  Finalizing
    a claim that holds a reservation writes reserved into its requirements, but in the
    fallback mode of a simulation a claim can hold none although a reserved offering is
    available ([reserved_price_then_spot] below). *)
Definition no_reserved nc : Prop :=
  allowsType nc CapacityTypeSpot && allowsType nc CapacityTypeOnDemand = true →
  ∀ it o, it ∈ ic_InstanceTypeOptions nc → o ∈ Available (it_Offerings it) →
    offeringCompatible (ic_Requirements nc) o = true → ¬ offered o CapacityTypeReserved.

Definition fine_simulation : Prop := ∀ cands ncs nc, simulated cands ncs → nc ∈ ncs → claim_fine nc.
Definition sound_simulation : Prop := ∀ cands ncs nc, simulated cands ncs → nc ∈ ncs → claim_fine nc ∧ no_reserved nc.

(** What stands behind a command on the candidates, whatever is reserved: the simulation
    could place their pods, the simulated claims made narrower were priced within the
    candidates' price, the replacements are those, as they are or held to spot, and
    several candidates get one replacement at most.  Where no simulated claim leaves a
    reserved offering open beside spot and on-demand, the hold keeps the price. *)
Record backed (floor : float64) cands cmd : Prop := {
  bk_candidates : cmd_Candidates cmd = cands;
  bk_simulated : ∃ ncs priced, simulated cands ncs ∧ Forall2 narrowed ncs priced ∧
    (cmd_Replacements cmd = priced ∨ cmd_Replacements cmd = requireSpot <$> priced) ∧
    (priced ≠ [] → within_budget cands floor priced) ∧
    ((∀ nc, nc ∈ ncs → no_reserved nc) → priced ≠ [] → within_budget cands floor (cmd_Replacements cmd));
  bk_single : length cands ≠ 1%nat → (length (cmd_Replacements cmd) <= 1)%nat;
}.

Definition backed_command (floor : float64) cands cmd : Prop := cmd = noCommand ∨ backed floor cands cmd.

(** What stands behind a command on the candidates: the simulation could place
    their pods, its replacements are the simulated claims made narrower, they
    are priced within the candidates' price, and several candidates get one
    replacement at most. *)
Record justified (floor : float64) cands cmd : Prop := {
  js_candidates : cmd_Candidates cmd = cands;
  js_simulated : ∃ ncs, simulated cands ncs ∧ Forall2 narrowed ncs (cmd_Replacements cmd);
  js_budget : cmd_Replacements cmd ≠ [] → within_budget cands floor (cmd_Replacements cmd);
  js_single : length cands ≠ 1%nat → (length (cmd_Replacements cmd) <= 1)%nat;
}.

Definition sound_command (floor : float64) cands cmd : Prop := cmd = noCommand ∨ justified floor cands cmd.

Lemma pin_spot_launches nc price :
  claim_fine nc → (∀ it o, it ∈ ic_InstanceTypeOptions nc → o ∈ Available (it_Offerings it) →
    offeringCompatible (ic_Requirements nc) o = true → ¬ offered o CapacityTypeReserved) →
  launches_below nc price → launches_below (pin nc CapacityTypeLabelKey [CapacityTypeSpot]) price.
Proof.
  intros [Hwf Hofs] Hres Hl it o Hit Ho. apply (Hl it o Hit). apply launchable_pinned_spot; [done| |intros o'; by apply (Hres it)|exact Ho].
  intros o'. unfold Available. rewrite elem_of_filter_list. intros [Hin _]. by apply (Hofs it).
Qed.

Lemma requireSpot_narrowed nc : narrowed nc (requireSpot nc).
Proof. unfold requireSpot. destruct (_ && _); [apply pin_narrowed|done]. Qed.

Lemma requireSpot_affordable ncs price :
  affordable ncs price → (∀ nc, nc ∈ ncs → claim_fine nc ∧ no_reserved nc) → affordable (requireSpot <$> ncs) price.
Proof.
  intros [(before & Hn & Hl) Hs] Hok. split; [exists before; split|].
  - by transitivity ncs; [|apply fmap_narrowed, requireSpot_narrowed].
  - rewrite Forall2_fmap_l. apply Forall2_same_length_lookup_2; [by eapply Forall2_length|].
    intros i nc p Hi Hp. pose proof (Forall2_lookup_lr _ _ _ _ _ _ Hl Hi Hp) as Hb.
    destruct (Hok nc (list_elem_of_lookup_2 _ _ _ Hi)) as [Hfine Hres]. change (launches_below (requireSpot nc) p). unfold requireSpot.
    destruct (_ && _) eqn:Hboth; [|done]. by apply pin_spot_launches; [|apply Hres|].
  - intros nc' (nc & -> & Hin)%list_elem_of_fmap. unfold requireSpot. destruct (_ && _); exact (Hs nc Hin).
Qed.

(** Neither ordering nor filtering the options makes a reserved offering
    launchable. *)
Lemma no_reserved_narrowed nc nc' : narrowed nc nc' → ic_Requirements nc' = ic_Requirements nc → no_reserved nc → no_reserved nc'.
Proof.
  intros Hn Hr Hno. unfold no_reserved, allowsType. rewrite Hr. intros Hboth it o Hit. by apply Hno, (nw_options nc nc').
Qed.

Lemma filtered_no_reserved ncs budget ncs' skip :
  filterReplacements ncs budget = (ncs', skip) → (∀ nc, nc ∈ ncs → no_reserved nc) → ∀ nc, nc ∈ ncs' → no_reserved nc.
Proof.
  intros Hf%filterReplacements_requirements Hok nc (i & Hi)%list_elem_of_lookup.
  destruct (Forall2_lookup_r _ _ _ _ _ Hf Hi) as (nc0 & H0 & Hn & Hr). apply list_elem_of_lookup_2 in H0.
  by apply (no_reserved_narrowed nc0), Hok.
Qed.

Section sound.
Context (floor : float64) (Hsim : fine_simulation) (Hcap : 1 <= SpotToSpotMinInstanceTypes opts)
  (trySplit : consolidationSimulationOptions → float64 → list (Candidate Q) → ConsolidationState W → option (ConsolidationState W * option (Command Q)))
  (HtrySplit : ∀ simOpts price cands st st' cmd, trySplit simOpts price cands st = Some (st', Some cmd) → backed_command floor cands cmd).

Lemma orSplit_backed simOpts price cands st st' cmd :
  orSplit trySplit simOpts price cands st = Some (st', inr cmd) → backed_command floor cands cmd.
Proof. intros ([st1 [cmd1|]] & Hrun & Heq)%bind_Some; injection Heq as <- <-; [by eapply HtrySplit|by left]. Qed.

(** The priced claims go out as they are. *)
Lemma backed_replace cands sim ncs ncs' limit' :
  simulated cands sim → Forall2 narrowed sim ncs → Forall2 narrowed ncs ncs' →
  (length cands ≠ 1%nat → (length sim <= 1)%nat) → within_budget cands floor ncs' →
  backed_command floor cands (replaceCommand cands ncs' limit').
Proof.
  intros Hs Hn Hn' Hlen Hb. right. assert (Forall2 narrowed sim ncs') as Hsn by (by transitivity ncs).
  split; cbn [replaceCommand cmd_Candidates cmd_Replacements]; [done|exists sim, ncs'; by auto|].
  intros Hc. rewrite <- (Forall2_length _ _ _ Hsn). auto.
Qed.

(** The priced claims are held to spot. *)
Lemma backed_spot cands sim ncs ncs' savings limit' :
  simulated cands sim → Forall2 narrowed sim ncs → Forall2 narrowed ncs ncs' →
  (length cands ≠ 1%nat → (length sim <= 1)%nat) → fltb savings floor = false →
  affordable ncs' (limit (mkPriceBudget (sumCandidatePrices cands) savings)) → (∀ nc, nc ∈ ncs' → claim_fine nc) →
  ((∀ nc, nc ∈ sim → no_reserved nc) → ∀ nc, nc ∈ ncs' → no_reserved nc) →
  backed_command floor cands (replaceCommand cands (requireSpot <$> ncs') limit').
Proof.
  intros Hs Hn Hn' Hlen Hf Ha Hfine Hno. right. assert (Forall2 narrowed sim ncs') as Hsn by (by transitivity ncs).
  split; cbn [replaceCommand cmd_Candidates cmd_Replacements]; [done| |by rewrite length_fmap, <- (Forall2_length _ _ _ Hsn)].
  exists sim, ncs'. split_and!; [done|done|by right|intros _; by exists savings|].
  intros Hok _. exists savings. split; [done|]. apply requireSpot_affordable; [done|]. intros nc Hin. split; [by apply Hfine|by apply Hno].
Qed.

Lemma replaceSpot_backed simOpts cands sim ncs st budget st' cmd :
  replaceSpot overrideKey rand opts advisor trySplit simOpts cands ncs st budget = Some (st', inr cmd) →
  pb_candidatePrice budget = sumCandidatePrices cands → fltb (pb_minSavings budget) floor = false →
  simulated cands sim → Forall2 narrowed sim ncs → (length cands ≠ 1%nat → (length sim <= 1)%nat) →
  (∀ nc, nc ∈ ncs → claim_fine nc) → backed_command floor cands cmd.
Proof.
  intros Hrun Hprice Hfloor Hs Hn Hlen Hfine. apply bind_Some in Hrun as ([st1 [reason|ncs']] & Hr & Hrun).
  - destruct reason; first [by eapply orSplit_backed|by injection Hrun as _ <-; left].
  - injection Hrun as _ <-.
    destruct (spotToSpot_affordable st cands ncs budget st1 ncs' Hr Hcap Hfine) as (Hn' & savings & Ha & Hsav & _).
    rewrite Hprice in Ha. apply (backed_replace cands sim ncs ncs'); [done|done| |done|exists savings; auto].
    transitivity (pinToSpot <$> ncs); [apply fmap_narrowed, pinToSpot_narrowed|done].
Qed.

Lemma replaceOther_backed simOpts cands sim ncs st budget st' cmd :
  replaceOther rand opts trySplit simOpts cands ncs st budget = Some (st', inr cmd) →
  pb_candidatePrice budget = sumCandidatePrices cands → fltb (pb_minSavings budget) floor = false →
  simulated cands sim → Forall2 narrowed sim ncs → (length cands ≠ 1%nat → (length sim <= 1)%nat) →
  (∀ nc, nc ∈ ncs → claim_fine nc) → ((∀ nc, nc ∈ sim → no_reserved nc) → ∀ nc, nc ∈ ncs → no_reserved nc) →
  backed_command floor cands cmd.
Proof.
  intros Hrun Hprice Hfloor Hs Hn Hlen Hfine Hno.
  destruct budget as [price savings]. cbn in Hprice, Hfloor. subst price.
  unfold replaceOther in Hrun. destruct (odToSpotRetryApplies opts cands ncs) as [applies shadow].
  destruct (filterReplacements ncs _) as [ncs1 [skip|]] eqn:Hf.
  - apply bind_Some in Hrun as (retried & Hr & Hrun).
    destruct shadow; [by eapply orSplit_backed|]. destruct retried as [ncs'|]; [|by eapply orSplit_backed].
    injection Hrun as _ <-. destruct applies; [|done]. apply bind_Some in Hr as ([mid|] & Hmid & Heq); [|done]. injection Heq as <-.
    apply narrowAndReprice_affordable in Hmid as [Hnm Ha]; [|done].
    apply (backed_replace cands sim ncs); [done|done| |done|].
    + transitivity mid; [done|]. apply (fmap_narrowed (truncateSpotInstanceTypeOptions _)), truncate_narrowed.
    + exists savings. split; [done|]. by apply truncate_affordable.
  - injection Hrun as _ <-. destruct (filterReplacements_affordable ncs _ ncs1 Hf Hfine) as [Hn1 Ha].
    apply (backed_spot cands sim ncs ncs1 savings); try done; [by apply (narrowed_all_fine ncs)|].
    intros Hsn nc Hin. by apply (filtered_no_reserved ncs _ ncs1 _ Hf (Hno Hsn)).
Qed.

Lemma computeWith_backed simOpts cands st st' cmd :
  computeWith overrideKey rand opts advisor trySplit simOpts cands st = Some (st', inr cmd) →
  fltb (so_minSavings simOpts) floor = false → backed_command floor cands cmd.
Proof.
  unfold computeWith. destruct (SimulateScheduling _ _ cands) as [w [deadline| |[] sim]] eqn:Hrun; [done|by intros [= _ <-]; left| |by intros [= _ <-]; left].
  assert (simulated cands sim) as Hs by (do 3 eexists; exact Hrun).
  assert (∀ nc, nc ∈ orderOptions <$> sim → claim_fine nc) as Hfine.
  { apply (narrowed_all_fine sim); [apply fmap_narrowed, orderOptions_narrowed|]. intros nc. by apply (Hsim cands sim nc). }
  assert ((∀ nc, nc ∈ sim → no_reserved nc) → ∀ nc, nc ∈ orderOptions <$> sim → no_reserved nc) as Hno.
  { intros Hsn nc' (nc & -> & Hin)%list_elem_of_fmap. apply (no_reserved_narrowed nc); [apply orderOptions_narrowed|done|by apply Hsn]. }
  destruct sim as [|nc sim].
  { intros [= _ <-] _. right. split; [done|exists [], []; split_and!; [done|done|by left|done|done]|cbn; lia]. }
  destruct (replacementLimit opts simOpts cands <? _) eqn:Hlimit; [by intros [= _ <-] _; left|].
  assert (length cands ≠ 1%nat → (length (nc :: sim) <= 1)%nat) as Hlen.
  { intros Hc. unfold replacementLimit in Hlimit. rewrite bool_decide_eq_false_2 in Hlimit by done. destruct_bools. lia. }
  pose proof (fmap_narrowed orderOptions (nc :: sim) orderOptions_narrowed) as Hn.
  destruct (_ && _); intros Hrun' Hfloor.
  - by eapply (replaceSpot_backed _ cands (nc :: sim) _ _ (mkPriceBudget (sumCandidatePrices cands) (so_minSavings simOpts))).
  - by eapply (replaceOther_backed _ cands (nc :: sim) _ _ (mkPriceBudget (sumCandidatePrices cands) (so_minSavings simOpts))).
Qed.
End sound.

(** Only a single candidate is split. *)
Lemma splitCandidate_one simOpts price cands c : splitCandidate opts simOpts price cands = Some c → cands = [c].
Proof.
  unfold splitCandidate. destruct cands as [|c' [|]]; [done| |done].
  destruct (fltb _ _); [done|]. destruct (_ && _); [done|]. destruct (_ || _); [done|]. destruct (_ && _); [done|]. congruence.
Qed.

Lemma trySplit_backed floor (inner : consolidationSimulationOptions → list (Candidate Q) → ConsolidationState W → Evaluation) simOpts price cands st st' cmd :
  (∀ price maxReplacements c st st' cmd, inner (splitOptions opts price maxReplacements) [c] st = Some (st', inr cmd) → backed_command floor [c] cmd) →
  trySplitConsolidation opts inner simOpts price cands st = Some (st', Some cmd) → backed_command floor cands cmd.
Proof.
  intros Hinner. unfold trySplitConsolidation. destruct (splitCandidate opts simOpts price cands) as [c|] eqn:Hc; [|done].
  pose proof (splitCandidate_one _ _ _ _ Hc) as ->.
  destruct (acquireSplitAttempt _ st) as [st1 []]; [|done]. destruct (_ && _).
  - by intros ([st2 r] & _ & [= _ ?])%bind_Some.
  - intros ([st2 [e|cmd']] & Hrun & Heq)%bind_Some; [done|]. case_bool_decide; [|done]. injection Heq as _ <-. by eapply Hinner.
Qed.

Lemma computeConsolidation_backed cands st st' cmd :
  fine_simulation → 1 <= SpotToSpotMinInstanceTypes opts →
  computeConsolidation overrideKey rand opts advisor cands st = Some (st', inr cmd) →
  backed_command (ConsolidationReplaceMinSavings opts) cands cmd.
Proof.
  intros Hsim Hcap Hrun. eapply (computeWith_backed _ Hsim Hcap); [|exact Hrun|apply fltb_irrefl].
  intros simOpts price cands1 st1 st1' cmd1 Hsplit. eapply trySplit_backed; [|exact Hsplit]. intros p m c st2 st2' cmd2 Hin.
  eapply (computeWith_backed _ Hsim Hcap); [|exact Hin|apply gomax_floor_r, fltb_irrefl]. done.
Qed.

(** The replacements of a backed command are the simulated claims made narrower. *)
Lemma held_narrowed (ncs priced repl : list (InflightClaim Q)) :
  Forall2 narrowed ncs priced → repl = priced ∨ repl = requireSpot <$> priced → Forall2 narrowed ncs repl.
Proof. intros Hn [->| ->]; [done|]. transitivity priced; [done|]. apply fmap_narrowed, requireSpot_narrowed. Qed.

Lemma held_empty (priced repl : list (InflightClaim Q)) : repl = priced ∨ repl = requireSpot <$> priced → priced = [] ↔ repl = [].
Proof. intros [->| ->]; [done|]. split; [by intros ->|by apply fmap_nil_inv]. Qed.

Lemma computeConsolidation_sound cands st st' cmd :
  sound_simulation → 1 <= SpotToSpotMinInstanceTypes opts →
  computeConsolidation overrideKey rand opts advisor cands st = Some (st', inr cmd) →
  sound_command (ConsolidationReplaceMinSavings opts) cands cmd.
Proof.
  intros Hsim Hcap Hrun. destruct (computeConsolidation_backed cands st st' cmd) as [->|[Hc (ncs & priced & Hs & Hn & Hr & _ & Hb) Hl]]; [|done|done|by left|].
  { intros cs ncs nc Hs Hin. by apply (Hsim cs ncs). }
  right. split; [done|exists ncs; split; [done|by apply (held_narrowed ncs priced)]| |done].
  intros Hne. apply Hb; [intros nc Hin; by apply (Hsim cands ncs)|]. intros ->. by apply Hne, (held_empty []).
Qed.

(** ** What a run leaves of the world *)

(** The world only changes as simulations change it, and a command is on the candidates
    given. *)
Section world.
Context (R : relation W) `{!PreOrder R} (Hsim : ∀ w price cands, R w (SimulateScheduling w price cands).1).

Definition stays cands st st' (result : option (Command Q)) : Prop :=
  R (cs_world st) (cs_world st') ∧ ∀ cmd, result = Some cmd → cmd = noCommand ∨ cmd_Candidates cmd = cands.

Definition commandOf (result : bool + Command Q) : option (Command Q) := match result with inl _ => None | inr cmd => Some cmd end.

Section split.
Context (trySplit : consolidationSimulationOptions → float64 → list (Candidate Q) → ConsolidationState W → option (ConsolidationState W * option (Command Q)))
  (HtrySplit : ∀ simOpts price cands st st' result, trySplit simOpts price cands st = Some (st', result) → stays cands st st' result).

Lemma orSplit_stays simOpts price cands st st' result :
  orSplit trySplit simOpts price cands st = Some (st', result) → stays cands st st' (commandOf result).
Proof.
  intros ([st1 split] & Hrun & Heq)%bind_Some. injection Heq as <- <-. apply HtrySplit in Hrun as [Hr Hc]. split; [done|].
  intros cmd [= <-]. destruct split as [cmd|]; [by apply Hc|by left].
Qed.

Lemma replaceSpot_stays simOpts cands ncs st budget st' result :
  replaceSpot overrideKey rand opts advisor trySplit simOpts cands ncs st budget = Some (st', result) → stays cands st st' (commandOf result).
Proof.
  intros ([st1 spot] & Hr & Hrun)%bind_Some.
  assert (cs_world st1 = cs_world st) as Hw.
  { unfold computeSpotToSpotConsolidation, spotToSpotStabilityFloor in Hr. destruct (negb _); [by injection Hr as <- _|].
    destruct (stabilityFloor opts _ cands _) as [savings|]; [|by injection Hr as <- _]. apply bind_Some in Hr as (? & _ & Hr). by injection Hr as <- _. }
  assert (∀ cmd, cmd = noCommand ∨ cmd_Candidates cmd = cands → stays cands st st1 (Some cmd)) as Hstay.
  { intros cmd Hc. split; [by rewrite Hw|]. by intros cmd' [= <-]. }
  assert (∀ price, orSplit trySplit simOpts price cands st1 = Some (st', result) → stays cands st st' (commandOf result)) as Hsplit.
  { intros price Ho. apply orSplit_stays in Ho as [HR Hc]. split; [by rewrite <- Hw|done]. }
  destruct spot as [[]|ncs']; first [by eapply Hsplit|injection Hrun as <- <-; apply Hstay; by (left + right)].
Qed.

Lemma replaceOther_stays simOpts cands ncs st budget st' result :
  replaceOther rand opts trySplit simOpts cands ncs st budget = Some (st', result) → stays cands st st' (commandOf result).
Proof.
  unfold replaceOther. destruct (odToSpotRetryApplies opts cands ncs) as [applies shadow].
  assert (∀ cmd, cmd_Candidates cmd = cands → stays cands st st (Some cmd)) as Hstay by (intros cmd Hc; split; [done|]; intros cmd' [= <-]; by right).
  destruct (filterReplacements ncs budget) as [ncs1 [skip|]]; [|intros [= <- <-]; by apply Hstay].
  intros (retried & _ & Hrun)%bind_Some. destruct shadow; [by eapply orSplit_stays|]. destruct retried; [injection Hrun as <- <-; by apply Hstay|by eapply orSplit_stays].
Qed.

Lemma computeWith_stays simOpts cands st st' result :
  computeWith overrideKey rand opts advisor trySplit simOpts cands st = Some (st', result) → stays cands st st' (commandOf result).
Proof.
  unfold computeWith. pose proof (Hsim (cs_world st) (newCapacityPriceLimit simOpts) cands) as HR.
  destruct (SimulateScheduling _ _ cands) as [w outcome]. cbn [fst] in HR. set (st1 := withWorld st w).
  assert (∀ st2 cmd, cs_world st2 = w → cmd = noCommand ∨ cmd_Candidates cmd = cands → stays cands st st2 (Some cmd)) as Hstay.
  { intros st2 cmd Hw Hc. split; [by rewrite Hw|]. by intros cmd' [= <-]. }
  assert (stays cands st1 st' (commandOf result) → stays cands st st' (commandOf result)) as Hthen.
  { intros [HR' Hc]. split; [|done]. by transitivity w. }
  destruct outcome as [deadline| |[] [|nc sim]].
  - intros [= <- <-]. by split.
  - intros [= <- <-]. apply Hstay; [done|by left].
  - intros [= <- <-]. apply Hstay; [done|by right].
  - destruct (_ <? _); [intros [= <- <-]; apply Hstay; [done|by left]|].
    destruct (_ && _); intros Hrun; apply Hthen; [by eapply replaceSpot_stays|by eapply replaceOther_stays].
  - intros [= <- <-]. apply Hstay; [done|by left].
  - intros [= <- <-]. apply Hstay; [done|by left].
Qed.
End split.

Lemma trySplit_stays (inner : consolidationSimulationOptions → list (Candidate Q) → ConsolidationState W → Evaluation) simOpts price cands st st' result :
  (∀ simOpts c st st' result, inner simOpts [c] st = Some (st', result) → stays [c] st st' (commandOf result)) →
  trySplitConsolidation opts inner simOpts price cands st = Some (st', result) → stays cands st st' result.
Proof.
  intros Hinner. unfold trySplitConsolidation. destruct (splitCandidate opts simOpts price cands) as [c|] eqn:Hc; [|by intros [= <- <-]].
  pose proof (splitCandidate_one _ _ _ _ Hc) as ->.
  assert (∀ shadow st1 got, acquireSplitAttempt shadow st = (st1, got) → cs_world st1 = cs_world st) as Hacq.
  { intros shadow st1 got. unfold acquireSplitAttempt. destruct (cs_splitAttempts st); [|by intros [= <- _]].
    destruct (_ <=? _); [|by intros [= <- _]]. destruct shadow; by intros [= <- _]. }
  destruct (acquireSplitAttempt _ st) as [st1 got] eqn:Ha. apply Hacq in Ha. destruct got; [|intros [= <- <-]; split; [by rewrite Ha|done]].
  destruct (_ && _).
  - intros ([st2 r] & Hrun & Heq)%bind_Some. injection Heq as <- <-. apply Hinner in Hrun as [HR _]. split; [by rewrite <- Ha|done].
  - intros ([st2 r] & Hrun & Heq)%bind_Some. apply Hinner in Hrun as [HR Hcmd]. injection Heq as Hr. destruct r as [e|cmd]; injection Hr as <- <-.
    + split; [by rewrite <- Ha|done].
    + split; [by rewrite <- Ha|]. intros cmd'. case_bool_decide; [|done]. intros [= <-]. by apply Hcmd.
Qed.

Lemma computeConsolidation_stays cands st st' result :
  computeConsolidation overrideKey rand opts advisor cands st = Some (st', result) → stays cands st st' (commandOf result).
Proof.
  apply computeWith_stays. intros simOpts price cands1 st1 st1' result1. apply trySplit_stays. intros simOpts2 c st2 st2' result2.
  apply computeWith_stays. intros simOpts3 price3 cands3 st3 st3' result3 [= <- <-]. by split.
Qed.
End world.

End consolidation_theory.

(** * Witnesses *)

Section witnesses.
#[local] Existing Instance karpenterLabels.
#[local] Existing Instance karpenterLabels_ok.
#[local] Existing Instance stable_GoSort.
#[local] Existing Instance exampleProvider.
#[local] Existing Instance textIP.

#[local] Instance plainNumbers : Parsers := {| ParseDuration _ := None; ParseFloat _ := None |}.

(** A cluster in which the pods of any node need one flexible new node. *)
#[local] Instance oneNewNode : Simulation Z Z := {|
  SimulateScheduling w _ _ := (w, SimulationResults true [flexibleClaim]);
  clockNow w := w;
|}.

Definition plainPool : CandidatePool := mkPool "pool" ∅ WhenEmptyOrUnderutilized (Some 0) None.

(** A node of this capacity type and price, created at zero. *)
Definition plainCandidate (ct : string) (price : Z) : Candidate Z :=
  mkCandidate "node" "provider-id" ∅ None plainPool ct 0 true [] (fofint price) (fofint 1).

Definition plainOptions : ConsolidationOptions :=
  mkConsolidationOptions true 10 (fofint 0) 1 (fofint 0) 1 false false false false (fofint 0) 2.

Definition consolidated (ct : string) : ConsolidationState Z * Command Z :=
  match computeConsolidation (λ _, ("k", "k")%string) (λ _, 0) plainOptions None [plainCandidate ct 10] (mkConsolidationState 20 None false) with
  | Some (st, inr cmd) => (st, cmd)
  | _ => (mkConsolidationState 0 None false, noCommand)
  end.

Lemma flexibleClaim_ok : claim_fine flexibleClaim ∧ no_reserved flexibleClaim.
Proof.
  split; [apply flexibleClaim_fine|].
  intros _ it o Hit Ho _ [_ Hty _ _]. unfold Available in Ho. rewrite elem_of_filter_list in Ho. destruct Ho as [Ho _].
  cbn [flexibleClaim NewInflightClaim ic_InstanceTypeOptions] in Hit. rewrite !elem_of_cons, elem_of_nil in Hit.
  destruct Hit as [->|[->|[]]]; cbn [small large exampleType it_Offerings] in Ho; rewrite !elem_of_cons, elem_of_nil in Ho.
  - destruct Ho as [->|[]]; vm_compute in Hty; discriminate.
  - destruct Ho as [->|[->|[]]]; vm_compute in Hty; discriminate.
Qed.

Lemma oneNewNode_sound : sound_simulation.
Proof.
  intros cands ncs nc (w & price & w' & Hrun) Hin. cbn [SimulateScheduling oneNewNode] in Hrun. injection Hrun as _ <-.
  apply list_elem_of_singleton in Hin as ->. apply flexibleClaim_ok.
Qed.


(** A simulated claim open to every capacity type, for a machine with a cheap reserved
    offering that is available and dearer spot and on-demand ones. *)
Definition reservedMachine : InstanceType Z := exampleType "reserved"
  [exampleOffering CapacityTypeReserved "zone-a" 1; exampleOffering CapacityTypeSpot "zone-a" 50; exampleOffering CapacityTypeOnDemand "zone-a" 60].

Definition fallbackClaim : InflightClaim Z :=
  NewInflightClaim "pool" "host-1" [] PackingPolicyBinpack ∅ [] [reservedMachine] true None.

Definition oneFallbackNode : Simulation Z Z := {|
  SimulateScheduling w _ _ := (w, SimulationResults true [fallbackClaim]);
  clockNow w := w;
|}.

(** What each replacement of a node that costs ten can launch at. *)
Definition fallbackPrices : option (list (list float64)) :=
  match computeConsolidation (SIM := oneFallbackNode) (λ _, ("k", "k")%string) (λ _, 0) plainOptions None
    [plainCandidate CapacityTypeOnDemand 10] (mkConsolidationState 20 None false) with
  | Some (_, inr cmd) =>
      Some ((λ nc, of_Price <$> concat ((λ it, launchable (Available (it_Offerings it)) (ic_Requirements nc) launchOrder) <$> ic_InstanceTypeOptions nc))
            <$> cmd_Replacements cmd)
  | _ => None
  end.

(** Such a claim is priced at its reserved offering and then held to spot: a node that
    costs ten is replaced by one that can only launch at fifty. *)
Lemma reserved_price_then_spot :
  fallbackPrices = Some [[fofint 50]] ∧ fltb (sumCandidatePrices [plainCandidate CapacityTypeOnDemand 10]) (fofint 50) = true.
Proof. split; vm_compute; reflexivity. Qed.

Definition spotReplaced : ConsolidationState Z * list (InflightClaim Z) :=
  match computeSpotToSpotConsolidation (λ _, ("k", "k")%string) (λ _, 0) plainOptions None (mkConsolidationState 20 None false)
    [plainCandidate CapacityTypeSpot 10] [flexibleClaim] (mkPriceBudget (fofint 10) (fofint 0)) with
  | Some (st, inr ncs) => (st, ncs)
  | _ => (mkConsolidationState 0 None false, [])
  end.

Lemma spot_to_spot_stable_witness :
  it_Name <$> (concat (ic_InstanceTypeOptions <$> spotReplaced.2)) = ["small"%string] ∧
  ∀ nc it o, nc ∈ spotReplaced.2 → it ∈ ic_InstanceTypeOptions nc → o ∈ it_Offerings it →
    offeringCompatible (ic_Requirements nc) o = true → offered o CapacityTypeSpot.
Proof.
  split; [vm_compute; reflexivity|].
  destruct (@spot_to_spot_stable _ _ _ exampleLabels _ _ _ _ _ _ _ (λ _, ("k", "k")%string) (λ _, 0) plainOptions None
    (mkConsolidationState 20 None false) [plainCandidate CapacityTypeSpot 10] [flexibleClaim] (mkPriceBudget (fofint 10) (fofint 0))
    spotReplaced.1 spotReplaced.2) as (_ & _ & Hspot & _).
  - intros nc ->%list_elem_of_singleton. apply flexibleClaim_fine.
  - vm_compute. discriminate.
  - vm_compute. reflexivity.
  - exact Hspot.
Defined.
End witnesses.
