(* ===== verification/Cost.v ===== *)
(** * The cost of the cluster

    Model of [pkg/state/cost/cost.go]: [ClusterCost] follows the NodeClaims that
    come and go, counts the running instances of every offering of every
    NodePool and keeps the price of each pool.  Prices are IEEE doubles and the
    sums are taken in the order Go walks the maps ([GoRange]).  The Kubernetes
    client and the cloud provider are the record [CostEnv] of one call's
    answers; [None] is the panic of an offering without a label value.  Locks
    are left out: every operation holds the lock from start to end. *)

From Stdlib Require Import SpecFloat.
From S2P Require Import Prelude Float64 Requirement Kube Taints Volumes Requirements Resources InstanceTypes StateNode.

Record OfferingKey := mkOfferingKey { ok_Zone : string; ok_CapacityType : string; ok_InstanceName : string }.

#[export] Instance OfferingKey_eq_dec : EqDecision OfferingKey.
Proof. solve_decision. Defined.

#[export] Instance OfferingKey_countable : Countable OfferingKey.
Proof.
  refine (inj_countable' (λ k, (ok_Zone k, ok_CapacityType k, ok_InstanceName k))
    (λ '(z, c, i), mkOfferingKey z c i) _). by intros [].
Defined.

Record OfferingCount := mkOfferingCount { oc_Count : Z; oc_Price : float64 }.

Record NodePoolCost := mkNodePoolCost { npc_cost : float64; offeringCounts : gmap OfferingKey OfferingCount }.

Record NodeClaimMetaData := mkMetaData { md_NodePoolName : string; md_NodeClaimKey : OfferingKey }.

#[export] Instance NodeClaimMetaData_eq_dec : EqDecision NodeClaimMetaData.
Proof. solve_decision. Defined.

Record ClusterCost := mkClusterCost {
  npCostMap : gmap string NodePoolCost;
  nodeClaimMap : gmap NamespacedName NodeClaimMetaData;
}.

Definition NewClusterCost : ClusterCost := mkClusterCost ∅ ∅.

(** What the API server and the cloud provider answer. *)
Record CostEnv (Q : Type) := mkCostEnv {
  env_nodePool : string → bool;                                 (* the NodePool can be read *)
  env_instanceTypes : string → option (list (InstanceType Q));  (* its instance types, or an error *)
}.
Arguments mkCostEnv {Q}.
Arguments env_nodePool {Q}.
Arguments env_instanceTypes {Q}.

Inductive CostError := NodePoolNotFound | InstanceTypesFailed | RemoveFromUnknownPool | RemoveUnknownOffering.

Section cost.
Context {LT : LabelTables} {GR : GoRange} {Q : Type} (rand : Z → Z).
Implicit Types (cc : ClusterCost) (it : InstanceType Q) (its : list (InstanceType Q)) (key : OfferingKey) (name : string).

(** ** Prices *)

(** [InstanceType.OfferingPrice]: the first offering in the zone with the
    capacity type. *)
Fixpoint OfferingPrice (ofs : list (Offering Q)) (zone capacityType : string) : option (option float64) :=
  match ofs with
  | [] => Some None
  | o :: ofs =>
      z ← Zone rand o;
      if String.eqb z zone then
        ct ← CapacityType rand o;
        if String.eqb ct capacityType then Some (Some (of_Price o)) else OfferingPrice ofs zone capacityType
      else OfferingPrice ofs zone capacityType
  end.

Definition findOfferingPrice its key : option (option float64) :=
  match List.find (λ it, String.eqb (it_Name it) (ok_InstanceName key)) its with
  | None => Some None
  | Some it => OfferingPrice (it_Offerings it) (ok_Zone key) (ok_CapacityType key)
  end.

(** ** Instances coming and going *)

Definition withPool cc name (npc : NodePoolCost) : ClusterCost := mkClusterCost (<[name := npc]> (npCostMap cc)) (nodeClaimMap cc).

Definition poolCostOrNew cc name : NodePoolCost := default (mkNodePoolCost (fofint 0) ∅) (npCostMap cc !! name).

(** The state is changed also when an error is returned. *)
Definition internalAddOffering (env : CostEnv Q) cc name key : option (ClusterCost * option CostError) :=
  if negb (env_nodePool env name) then Some (cc, Some NodePoolNotFound)
  else
    let npc := poolCostOrNew cc name in
    let cc := withPool cc name npc in
    let add oc := (withPool cc name (mkNodePoolCost (fadd (npc_cost npc) (oc_Price oc))
      (<[key := mkOfferingCount (oc_Count oc + 1) (oc_Price oc)]> (offeringCounts npc))), None) in
    match offeringCounts npc !! key with
    | Some oc => Some (add oc)
    | None =>
        match env_instanceTypes env name with
        | None => Some (cc, Some InstanceTypesFailed)
        | Some its => price ← findOfferingPrice its key; Some (add (mkOfferingCount 0 (default (fofint 0) price)))
        end
    end.

Definition internalRemoveOffering cc name key : ClusterCost * option CostError :=
  match npCostMap cc !! name with
  | None => (cc, Some RemoveFromUnknownPool)
  | Some npc =>
      match offeringCounts npc !! key with
      | None => (cc, Some RemoveUnknownOffering)
      | Some oc =>
          let counts :=
            if oc_Count oc - 1 =? 0 then delete key (offeringCounts npc)
            else <[key := mkOfferingCount (oc_Count oc - 1) (oc_Price oc)]> (offeringCounts npc) in
          ((if bool_decide (counts = ∅) then mkClusterCost (delete name (npCostMap cc)) (nodeClaimMap cc)
            else withPool cc name (mkNodePoolCost (fsub (npc_cost npc) (oc_Price oc)) counts)), None)
      end
  end.


Definition NecessaryLabels : list string := [LabelInstanceTypeStable; CapacityTypeLabelKey; LabelTopologyZone; NodePoolLabelKey].

Definition nodeClaimMissingLabels (labels : gmap string string) : bool :=
  existsb (λ label, match labels !! label with None => true | Some _ => false end) NecessaryLabels.

Definition UpdateNodeClaim (env : CostEnv Q) cc (nn : NamespacedName) (labels : gmap string string)
    : option (ClusterCost * option CostError) :=
  match nodeClaimMap cc !! nn with
  | Some _ => Some (cc, None)
  | None =>
      if nodeClaimMissingLabels labels then Some (cc, None)
      else
        let label k := default ""%string (labels !! k) in
        let key := mkOfferingKey (label LabelTopologyZone) (label CapacityTypeLabelKey) (label LabelInstanceTypeStable) in
        '(cc, err) ← internalAddOffering env cc (label NodePoolLabelKey) key;
        Some (match err with
          | Some _ => (cc, err)
          | None => (mkClusterCost (npCostMap cc) (<[nn := mkMetaData (label NodePoolLabelKey) key]> (nodeClaimMap cc)), None)
          end)
  end.

Definition DeleteNodeClaim cc (nn : NamespacedName) : ClusterCost * option CostError :=
  match nodeClaimMap cc !! nn with
  | None => (cc, None)
  | Some md =>
      match internalRemoveOffering cc (md_NodePoolName md) (md_NodeClaimKey md) with
      | (cc, Some err) => (cc, Some err)
      | (cc, None) => (mkClusterCost (npCostMap cc) (delete nn (nodeClaimMap cc)), None)
      end
  end.

Definition DeleteNodePool cc name : ClusterCost :=
  mkClusterCost (delete name (npCostMap cc)) (filter (λ x, md_NodePoolName x.2 ≠ name) (nodeClaimMap cc)).

(** ** Prices changing *)

(** [prices[OfferingKey{...}] = o.Price] for all offerings of a type *)
Fixpoint indexOfferings (name : string) (ofs : list (Offering Q)) (prices : gmap OfferingKey float64) : option (gmap OfferingKey float64) :=
  match ofs with
  | [] => Some prices
  | o :: ofs =>
      zone ← Zone rand o;
      capacityType ← CapacityType rand o;
      indexOfferings name ofs (<[mkOfferingKey zone capacityType name := of_Price o]> prices)
  end.

Fixpoint indexPrices its (prices : gmap OfferingKey float64) : option (gmap OfferingKey float64) :=
  match its with
  | [] => Some prices
  | it :: its => prices ← indexOfferings (it_Name it) (it_Offerings it) prices; indexPrices its prices
  end.

Definition repriced (prices : gmap OfferingKey float64) key (oc : OfferingCount) : OfferingCount :=
  mkOfferingCount (oc_Count oc) (default (oc_Price oc) (prices !! key)).

Definition UpdateOfferings cc name its : option ClusterCost :=
  match npCostMap cc !! name with
  | None => Some (withPool cc name (mkNodePoolCost (fofint 0) ∅))
  | Some npc =>
      prices ← indexPrices its ∅;
      let counts := map_imap (λ key oc, Some (repriced prices key oc)) (offeringCounts npc) in
      let cost := foldl (λ cost kc, let oc := repriced prices kc.1 kc.2 in fadd cost (fmul (fofint (oc_Count oc)) (oc_Price oc)))
        (fofint 0) (gorange (offeringCounts npc)) in
      Some (withPool cc name (mkNodePoolCost cost counts))
  end.

Definition Reset : ClusterCost := NewClusterCost.

Definition GetClusterCost cc : float64 := foldl (λ cost npc, fadd cost (npc_cost npc.2)) (fofint 0) (gorange (npCostMap cc)).

Definition GetNodepoolCost cc name : float64 :=
  match npCostMap cc !! name with None => fofint 0 | Some npc => npc_cost npc end.

(** ** Runs *)

Inductive cost_step : ClusterCost → ClusterCost → Prop :=
  | step_update_claim env cc nn labels cc' err : UpdateNodeClaim env cc nn labels = Some (cc', err) → cost_step cc cc'
  | step_delete_claim cc nn cc' err : DeleteNodeClaim cc nn = (cc', err) → cost_step cc cc'
  | step_delete_pool cc name : cost_step cc (DeleteNodePool cc name)
  | step_update_offerings cc name its cc' : UpdateOfferings cc name its = Some cc' → cost_step cc cc'
  | step_reset cc : cost_step cc Reset.
End cost.

(** * Theory *)

Section theory.
Context {LT : LabelTables} {GR : GoRange} {Q : Type} (rand : Z → Z).
Implicit Types (cc : ClusterCost) (key : OfferingKey) (name : string) (env : CostEnv Q).

(** The instances of an offering that the cost counts, and the NodeClaims that
    run on it. *)
Definition counted cc name key : Z :=
  match npCostMap cc !! name with
  | None => 0
  | Some npc => match offeringCounts npc !! key with None => 0 | Some oc => oc_Count oc end
  end.

Definition running (claims : gmap NamespacedName NodeClaimMetaData) (md : NodeClaimMetaData) : Z :=
  Z.of_nat (size (filter (λ x, x.2 = md) claims)).

(** Every offering is counted as often as NodeClaims run on it, no offering is
    kept at zero, and a pool without instances has no cost. *)
Record cost_inv cc : Prop := {
  ci_counted : ∀ name key, counted cc name key = running (nodeClaimMap cc) (mkMetaData name key);
  ci_positive : ∀ name npc key oc, npCostMap cc !! name = Some npc → offeringCounts npc !! key = Some oc → 1 <= oc_Count oc;
  ci_empty : ∀ name npc, npCostMap cc !! name = Some npc → offeringCounts npc = ∅ → npc_cost npc = fofint 0;
}.

Lemma running_insert claims nn md md' :
  claims !! nn = None → running (<[nn := md]> claims) md' = running claims md' + (if decide (md = md') then 1 else 0).
Proof.
  intros Hnn. unfold running. destruct (decide (md = md')) as [->|Hne].
  - rewrite map_filter_insert_True by done. rewrite map_size_insert_None; [lia|].
    apply map_lookup_filter_None. by left.
  - rewrite map_filter_insert_False by done. rewrite delete_id by done. lia.
Qed.

Lemma running_delete claims nn md md' :
  claims !! nn = Some md → running (delete nn claims) md' = running claims md' - (if decide (md = md') then 1 else 0).
Proof.
  intros Hnn. rewrite <- (insert_delete_id claims nn md Hnn) at 2.
  rewrite running_insert by apply lookup_delete_eq. lia.
Qed.

Lemma running_pos claims nn md : claims !! nn = Some md → 1 <= running claims md.
Proof.
  intros Hnn. unfold running. assert (filter (λ x, x.2 = md) claims ≠ ∅) as Hne.
  { intros Hem. assert (filter (λ x, x.2 = md) claims !! nn = Some md) as Hl by (by apply map_lookup_filter_Some).
    rewrite Hem in Hl. done. }
  rewrite <- map_size_non_empty_iff in Hne. lia.
Qed.

Lemma counted_withPool cc name npc name' key :
  counted (withPool cc name npc) name' key =
  if decide (name = name') then match offeringCounts npc !! key with None => 0 | Some oc => oc_Count oc end else counted cc name' key.
Proof.
  unfold counted. cbn [withPool npCostMap]. destruct (decide (name = name')) as [->|Hne]; [by rewrite lookup_insert_eq|by rewrite lookup_insert_ne].
Qed.

(** *** Every operation keeps the invariant *)

Lemma withPool_inv cc name npc :
  cost_inv cc →
  (∀ key, match offeringCounts npc !! key with None => 0 | Some oc => oc_Count oc end = counted cc name key) →
  (∀ key oc, offeringCounts npc !! key = Some oc → 1 <= oc_Count oc) →
  (offeringCounts npc = ∅ → npc_cost npc = fofint 0) → cost_inv (withPool cc name npc).
Proof.
  intros [Hc Hp He] Hcount Hpos Hem. split.
  - intros name' key. rewrite counted_withPool. destruct (decide (name = name')) as [<-|]; [rewrite Hcount|]; apply Hc.
  - intros name' npc' key oc. cbn [withPool npCostMap]. rewrite lookup_insert_Some. intros [[<- <-]|[_ Hl]]; [apply Hpos|by apply (Hp name')].
  - intros name' npc'. cbn [withPool npCostMap]. rewrite lookup_insert_Some. intros [[<- <-]|[_ Hl]]; [apply Hem|by apply (He name')].
Qed.

Lemma poolCostOrNew_inv cc name : cost_inv cc → cost_inv (withPool cc name (poolCostOrNew cc name)).
Proof.
  intros Hinv. apply withPool_inv; [done|..]; unfold poolCostOrNew, counted; destruct (npCostMap cc !! name) as [npc|] eqn:Hl; cbn; try done.
  - by intros key oc; apply (ci_positive cc Hinv name).
  - by intros; apply (ci_empty cc Hinv name).
Qed.

Lemma counted_poolCostOrNew cc name key :
  match offeringCounts (poolCostOrNew cc name) !! key with None => 0 | Some oc => oc_Count oc end = counted cc name key.
Proof. unfold poolCostOrNew, counted. by destruct (npCostMap cc !! name). Qed.

(** An added instance together with the NodeClaim that runs on it. *)
Lemma internalAddOffering_inv env cc name key cc' err nn :
  internalAddOffering rand env cc name key = Some (cc', err) → cost_inv cc → nodeClaimMap cc !! nn = None →
  cost_inv (match err with
    | Some _ => cc'
    | None => mkClusterCost (npCostMap cc') (<[nn := mkMetaData name key]> (nodeClaimMap cc'))
    end).
Proof.
  intros Hrun Hinv Hnn. unfold internalAddOffering in Hrun. destruct (env_nodePool env name); cbn [negb] in Hrun; [|by injection Hrun as <- <-].
  set (npc := poolCostOrNew cc name) in *. pose proof (counted_poolCostOrNew cc name) as Hcn. fold npc in Hcn.
  pose proof (poolCostOrNew_inv cc name Hinv) as Hnew. fold npc in Hnew. set (cc1 := withPool cc name npc) in *.
  assert (∀ oc, 0 <= oc_Count oc → oc_Count oc = counted cc name key →
    cost_inv (mkClusterCost (npCostMap (withPool cc1 name (mkNodePoolCost (fadd (npc_cost npc) (oc_Price oc))
      (<[key := mkOfferingCount (oc_Count oc + 1) (oc_Price oc)]> (offeringCounts npc)))))
      (<[nn := mkMetaData name key]> (nodeClaimMap cc)))) as Hadd.
  { intros oc Hpos Hoc. split; cbn [npCostMap nodeClaimMap withPool].
    - intros name' key'. rewrite running_insert by done. rewrite <- (ci_counted cc Hinv name' key'). unfold counted at 1. cbn [npCostMap withPool].
      destruct (decide (name = name')) as [<-|Hne].
      + rewrite lookup_insert_eq. cbn [offeringCounts]. destruct (decide (key = key')) as [<-|Hk].
        * rewrite lookup_insert_eq, decide_True by done. cbn. lia.
        * rewrite lookup_insert_ne, decide_False, Hcn by congruence. lia.
      + rewrite lookup_insert_ne, decide_False by congruence. rewrite Z.add_0_r. unfold cc1. cbn [withPool npCostMap]. by rewrite lookup_insert_ne.
    - intros name' npc' key' oc'. rewrite lookup_insert_Some. intros [[<- <-]|[_ Hl]].
      + cbn [offeringCounts]. rewrite lookup_insert_Some. intros [[<- <-]|[_ Hl]]; [cbn; lia|].
        apply (ci_positive cc1 Hnew name npc key'); [apply lookup_insert_eq|done].
      + by apply (ci_positive cc1 Hnew name').
    - intros name' npc'. rewrite lookup_insert_Some. intros [[<- <-]|[_ Hl]].
      + cbn [offeringCounts]. intros Hem. by apply insert_non_empty in Hem.
      + by apply (ci_empty cc1 Hnew name'). }
  destruct (offeringCounts npc !! key) as [oc|] eqn:Hkey.
  - injection Hrun as <- <-. apply (Hadd oc).
    + assert (1 <= oc_Count oc); [|lia]. apply (ci_positive cc1 Hnew name npc key); [apply lookup_insert_eq|done].
    + by rewrite <- Hcn, Hkey.
  - destruct (env_instanceTypes env name) as [its|]; [|by injection Hrun as <- <-].
    apply bind_Some in Hrun as (price & _ & Hrun). injection Hrun as <- <-. apply (Hadd (mkOfferingCount 0 (default (fofint 0) price))); [done|].
    by rewrite <- Hcn, Hkey.
Qed.

(** A removal finds the instance of a NodeClaim that is followed. *)
Lemma internalRemoveOffering_inv cc nn md :
  cost_inv cc → nodeClaimMap cc !! nn = Some md →
  ∃ cc', internalRemoveOffering cc (md_NodePoolName md) (md_NodeClaimKey md) = (cc', None) ∧
    cost_inv (mkClusterCost (npCostMap cc') (delete nn (nodeClaimMap cc'))).
Proof.
  intros Hinv Hnn. destruct md as [name key]. cbn [md_NodePoolName md_NodeClaimKey]. pose proof (running_pos _ _ _ Hnn) as Hpos.
  pose proof (ci_counted cc Hinv name key) as Hcount. unfold counted in Hcount. unfold internalRemoveOffering.
  destruct (npCostMap cc !! name) as [npc|] eqn:Hpool; [|lia]. destruct (offeringCounts npc !! key) as [oc|] eqn:Hoc; [|lia].
  set (counts := if _ =? 0 then _ else _).
  assert (∀ key', match counts !! key' with None => 0 | Some oc => oc_Count oc end =
    counted cc name key' - (if decide (key = key') then 1 else 0)) as Hcounts.
  { intros key'. unfold counts, counted. rewrite Hpool. destruct (oc_Count oc - 1 =? 0) eqn:Hz; destruct_bools;
      (destruct (decide (key = key')) as [<-|Hne]; [rewrite ?lookup_delete_eq, ?lookup_insert_eq, Hoc; cbn; lia|
       rewrite ?lookup_delete_ne, ?lookup_insert_ne by done; lia]). }
  assert (∀ key' oc', counts !! key' = Some oc' → 1 <= oc_Count oc') as Hcpos.
  { intros key' oc'. unfold counts. destruct (oc_Count oc - 1 =? 0) eqn:Hz; destruct_bools.
    - rewrite lookup_delete_Some. intros [_ Hl]. by apply (ci_positive cc Hinv name npc key').
    - rewrite lookup_insert_Some. intros [[<- <-]|[_ Hl]]; [cbn; lia|by apply (ci_positive cc Hinv name npc key')]. }
  eexists. split; [done|]. case_bool_decide as Hem; cbn [npCostMap nodeClaimMap withPool].
  - split.
    + intros name' key'. cbn [nodeClaimMap]. rewrite (running_delete _ _ _ _ Hnn), <- (ci_counted cc Hinv name' key'). unfold counted at 1. cbn [npCostMap].
      destruct (decide (name = name')) as [<-|Hne].
      * rewrite lookup_delete_eq. specialize (Hcounts key'). rewrite Hem, lookup_empty in Hcounts.
        destruct (decide (key = key')) as [<-|]; [rewrite decide_True by done|rewrite decide_False by congruence]; lia.
      * rewrite lookup_delete_ne, decide_False by congruence. unfold counted. lia.
    + intros name' npc' key' oc'. cbn [npCostMap]. rewrite lookup_delete_Some. intros [_ Hl]. by apply (ci_positive cc Hinv name').
    + intros name' npc'. cbn [npCostMap]. rewrite lookup_delete_Some. intros [_ Hl]. by apply (ci_empty cc Hinv name').
  - split.
    + intros name' key'. cbn [nodeClaimMap]. rewrite (running_delete _ _ _ _ Hnn), <- (ci_counted cc Hinv name' key'). unfold counted at 1. cbn [npCostMap].
      destruct (decide (name = name')) as [<-|Hne].
      * rewrite lookup_insert_eq. cbn [offeringCounts]. rewrite Hcounts.
        destruct (decide (key = key')) as [<-|]; [rewrite decide_True by done|rewrite decide_False by congruence]; lia.
      * rewrite lookup_insert_ne, decide_False by congruence. unfold counted. lia.
    + intros name' npc' key' oc'. cbn [npCostMap]. rewrite lookup_insert_Some. intros [[<- <-]|[_ Hl]]; [apply Hcpos|by apply (ci_positive cc Hinv name')].
    + intros name' npc'. cbn [npCostMap]. rewrite lookup_insert_Some. intros [[<- <-]|[_ Hl]]; [done|by apply (ci_empty cc Hinv name')].
Qed.
Lemma running_filter claims name md :
  running (filter (λ x, md_NodePoolName x.2 ≠ name) claims) md = if decide (md_NodePoolName md = name) then 0 else running claims md.
Proof.
  unfold running. rewrite map_filter_filter. case_decide as Hn.
  - rewrite (proj2 (map_empty_filter _ claims)); [by rewrite map_size_empty|]. intros nn x _ [-> ?]. done.
  - do 2 f_equal. apply map_filter_ext. intros nn x _. cbn. split; [tauto|]. by intros ->.
Qed.

Lemma DeleteNodePool_inv cc name : cost_inv cc → cost_inv (DeleteNodePool cc name).
Proof.
  intros Hinv. unfold DeleteNodePool. split.
  - intros name' key. cbn [nodeClaimMap]. rewrite running_filter. cbn [md_NodePoolName]. unfold counted. cbn [npCostMap].
    case_decide as Hn; [subst; by rewrite lookup_delete_eq|]. rewrite lookup_delete_ne by done. apply (ci_counted cc Hinv).
  - intros name' npc key oc. cbn [npCostMap]. rewrite lookup_delete_Some. intros [_ Hl]. by apply (ci_positive cc Hinv name').
  - intros name' npc. cbn [npCostMap]. rewrite lookup_delete_Some. intros [_ Hl]. by apply (ci_empty cc Hinv name').
Qed.

Lemma UpdateOfferings_inv cc name (its : list (InstanceType Q)) cc' : UpdateOfferings rand cc name its = Some cc' → cost_inv cc → cost_inv cc'.
Proof.
  unfold UpdateOfferings. destruct (npCostMap cc !! name) as [npc|] eqn:Hpool.
  - intros (prices & _ & [= <-])%bind_Some Hinv. apply withPool_inv; [done|..]; cbn [offeringCounts npc_cost].
    + intros key. rewrite map_lookup_imap. unfold counted. rewrite Hpool. by destruct (offeringCounts npc !! key).
    + intros key oc. rewrite map_lookup_imap. destruct (offeringCounts npc !! key) as [oc'|] eqn:Hoc; [|done]. intros [= <-].
      exact (ci_positive cc Hinv name npc key oc' Hpool Hoc).
    + intros Hem. assert (offeringCounts npc = ∅) as ->.
      { apply map_empty. intros key. apply (f_equal (.!! key)) in Hem. rewrite map_lookup_imap, lookup_empty in Hem.
        revert Hem. by destruct (offeringCounts npc !! key). }
      assert (gorange (∅ : gmap OfferingKey OfferingCount) = []) as ->; [|done]. apply Permutation_nil. by rewrite gorange_perm, map_to_list_empty.
  - intros [= <-] Hinv. apply withPool_inv; [done| |done|done]. intros key. unfold counted. by rewrite Hpool.
Qed.

Lemma NewClusterCost_inv : cost_inv NewClusterCost.
Proof. split; cbn [NewClusterCost npCostMap]; [done|intros name npc key oc|intros name npc]; by rewrite lookup_empty. Qed.

Lemma cost_step_inv cc cc' : cost_step rand (Q := Q) cc cc' → cost_inv cc → cost_inv cc'.
Proof.
  intros [env cc1 nn labels cc1' err Hrun|cc1 nn cc1' err Hrun|cc1 name|cc1 name its cc1' Hrun|cc1] Hinv.
  - unfold UpdateNodeClaim in Hrun. destruct (nodeClaimMap cc1 !! nn) eqn:Hnn; [by injection Hrun as <- _|].
    destruct (nodeClaimMissingLabels labels); [by injection Hrun as <- _|]. apply bind_Some in Hrun as ([cc2 err2] & Hadd & Hrun).
    apply (internalAddOffering_inv _ _ _ _ _ _ nn) in Hadd; [|done..]. destruct err2; by injection Hrun as <- _.
  - unfold DeleteNodeClaim in Hrun. destruct (nodeClaimMap cc1 !! nn) as [md|] eqn:Hnn; [|by injection Hrun as <- _].
    destruct (internalRemoveOffering_inv cc1 nn md Hinv Hnn) as (cc2 & Heq & Hinv2). rewrite Heq in Hrun. by injection Hrun as <- _.
  - by apply DeleteNodePool_inv.
  - by apply (UpdateOfferings_inv cc1 name its).
  - apply NewClusterCost_inv.
Qed.

(** The cost follows the NodeClaims.  Whatever updates, deletions, price changes
    and errors happened, every offering of a pool is counted exactly as often as
    NodeClaims that are followed run on it; removing a NodeClaim therefore never
    fails, and a pool that no followed NodeClaim belongs to costs exactly
    nothing, with no rounding residue. *)
Theorem cost_follows_claims cc (Hreach : rtc (cost_step rand (Q := Q)) NewClusterCost cc) :
  (∀ name key, counted cc name key = running (nodeClaimMap cc) (mkMetaData name key)) ∧
  (∀ nn, (DeleteNodeClaim cc nn).2 = None) ∧
  (∀ name, (∀ nn md, nodeClaimMap cc !! nn = Some md → md_NodePoolName md ≠ name) → GetNodepoolCost cc name = fofint 0).
Proof.
  assert (cost_inv cc) as Hinv.
  { apply (rtc_ind_r (λ cc, cost_inv cc) NewClusterCost) in Hreach; [done|apply NewClusterCost_inv|]. intros. by eapply cost_step_inv. }
  split_and!; [apply Hinv| |].
  - intros nn. unfold DeleteNodeClaim. destruct (nodeClaimMap cc !! nn) as [md|] eqn:Hnn; [|done].
    destruct (internalRemoveOffering_inv cc nn md Hinv Hnn) as (cc' & -> & _). done.
  - intros name Hnone. unfold GetNodepoolCost. destruct (npCostMap cc !! name) as [npc|] eqn:Hpool; [|done].
    apply (ci_empty cc Hinv name npc Hpool). apply map_empty. intros key.
    destruct (offeringCounts npc !! key) as [oc|] eqn:Hoc; [|done]. exfalso.
    pose proof (ci_counted cc Hinv name key) as Hc. unfold counted in Hc. rewrite Hpool, Hoc in Hc.
    pose proof (ci_positive cc Hinv name npc key oc Hpool Hoc). unfold running in Hc.
    rewrite (proj2 (map_empty_filter _ (nodeClaimMap cc))) in Hc; [rewrite map_size_empty in Hc; lia|].
    intros nn md Hnn Heq. cbn in Heq. subst md. by apply (Hnone nn _ Hnn).
Qed.
End theory.

(** * Witnesses *)

Section witnesses.
#[local] Existing Instance karpenterLabels.
#[local] Existing Instance map_to_list_GoRange.

Definition spotLabels : gmap string string := list_to_map
  [(LabelInstanceTypeStable, "small"); (CapacityTypeLabelKey, CapacityTypeSpot); (LabelTopologyZone, "zone-a"); (NodePoolLabelKey, "pool")]%string.

Definition oneSmall : ClusterCost :=
  match UpdateNodeClaim (λ _, 0) (mkCostEnv (λ _, true) (λ _, Some [large; small])) NewClusterCost (""%string, "claim"%string) spotLabels with
  | Some (cc, _) => cc
  | None => NewClusterCost
  end.

Lemma cost_follows_claims_witness :
  GetNodepoolCost oneSmall "pool" = fofint 1 ∧ counted oneSmall "pool" (mkOfferingKey "zone-a" CapacityTypeSpot "small") = 1 ∧
  ∀ nn, (DeleteNodeClaim oneSmall nn).2 = None.
Proof.
  split_and!; [vm_compute; reflexivity|vm_compute; reflexivity|].
  refine (proj1 (proj2 (cost_follows_claims (Q := Z) (λ _, 0) oneSmall _))). apply rtc_once.
  eapply (step_update_claim (λ _, 0) (mkCostEnv (λ _, true) (λ _, Some [large; small])) NewClusterCost (""%string, "claim"%string) spotLabels _ None).
  vm_compute. reflexivity.
Defined.
End witnesses.
