(* ===== verification/NodePoolState.v ===== *)
(** * The nodes of a static NodePool

    Model of [pkg/controllers/state/statenodepool.go]: for every NodePool which
    of its NodeClaims are active, pending disruption or deleting, and how many
    more have been reserved against its node limit; of the reservations made by
    [pkg/controllers/static/provisioning/controller.go] and
    [pkg/controllers/disruption/staticdrift.go], and of how
    [Provisioner.CreateNodeClaims] uses them up.  Every operation holds the lock
    of the state, so the compare-and-swap loops succeed at once and operations
    are atomic; callers interleave freely between them.  [None] is the nil
    pointer [ReleaseNodeCount] dereferences for an unknown pool. *)

From S2P Require Import Prelude.

Record NodeClaimState := mkNodeClaimState {
  Active : gset string;
  PendingDisruption : gset string;
  Deleting : gset string;
}.

Record NodePoolState := mkNodePoolState {
  nodePoolNameToNodeClaimState : gmap string NodeClaimState;
  nodeClaimNameToNodePoolName : gmap string string;
  nodePoolNameToNodePoolLimit : gmap string Z;
}.

Implicit Types (n : NodePoolState) (np nc : string).

Definition NewNodePoolState : NodePoolState := mkNodePoolState ∅ ∅ ∅.

Definition noClaims : NodeClaimState := mkNodeClaimState ∅ ∅ ∅.

Definition ensureNodePoolEntry n np : NodePoolState :=
  mkNodePoolState
    (match nodePoolNameToNodeClaimState n !! np with
     | None => <[np := noClaims]> (nodePoolNameToNodeClaimState n)
     | Some _ => nodePoolNameToNodeClaimState n
     end)
    (nodeClaimNameToNodePoolName n)
    (match nodePoolNameToNodePoolLimit n !! np with
     | None => <[np := 0]> (nodePoolNameToNodePoolLimit n)
     | Some _ => nodePoolNameToNodePoolLimit n
     end).

Definition SetNodeClaimMapping n np nc : NodePoolState :=
  if String.eqb np "" || String.eqb nc "" then n
  else
    let n := ensureNodePoolEntry n np in
    mkNodePoolState (nodePoolNameToNodeClaimState n) (<[nc := np]> (nodeClaimNameToNodePoolName n)) (nodePoolNameToNodePoolLimit n).

(** Go changes the sets of the entry in place. *)
Definition changeEntry (f : NodeClaimState → NodeClaimState) n np : NodePoolState :=
  let n := ensureNodePoolEntry n np in
  mkNodePoolState (alter f np (nodePoolNameToNodeClaimState n)) (nodeClaimNameToNodePoolName n) (nodePoolNameToNodePoolLimit n).

Definition MarkNodeClaimActive n np nc : NodePoolState :=
  changeEntry (λ s, mkNodeClaimState ({[nc]} ∪ Active s) (PendingDisruption s ∖ {[nc]}) (Deleting s ∖ {[nc]})) n np.

Definition MarkNodeClaimDeleting n np nc : NodePoolState :=
  changeEntry (λ s, mkNodeClaimState (Active s ∖ {[nc]}) (PendingDisruption s ∖ {[nc]}) ({[nc]} ∪ Deleting s)) n np.

Definition MarkNodeClaimPendingDisruption n np nc : NodePoolState :=
  changeEntry (λ s, mkNodeClaimState (Active s ∖ {[nc]}) ({[nc]} ∪ PendingDisruption s) (Deleting s ∖ {[nc]})) n np.

Definition withoutClaim nc (s : NodeClaimState) : NodeClaimState :=
  mkNodeClaimState (Active s ∖ {[nc]}) (PendingDisruption s ∖ {[nc]}) (Deleting s ∖ {[nc]}).

Definition Cleanup n nc : NodePoolState :=
  let np := default ""%string (nodeClaimNameToNodePoolName n !! nc) in
  let pools := delete nc (nodeClaimNameToNodePoolName n) in
  match nodePoolNameToNodeClaimState n !! np with
  | None => mkNodePoolState (nodePoolNameToNodeClaimState n) pools (nodePoolNameToNodePoolLimit n)
  | Some s =>
      let s := withoutClaim nc s in
      if bool_decide (size (Active s) = 0%nat) && bool_decide (size (Deleting s) = 0%nat)
      then mkNodePoolState (delete np (nodePoolNameToNodeClaimState n)) pools (delete np (nodePoolNameToNodePoolLimit n))
      else mkNodePoolState (<[np := s]> (nodePoolNameToNodeClaimState n)) pools (nodePoolNameToNodePoolLimit n)
  end.

(** Active, deleting and pending disruption. *)
Definition nodeCounts n np : Z * Z * Z :=
  match nodePoolNameToNodeClaimState n !! np with
  | None => (0, 0, 0)
  | Some s => (Z.of_nat (size (Active s)), Z.of_nat (size (Deleting s)), Z.of_nat (size (PendingDisruption s)))
  end.

Definition GetNodeCount n np : Z * Z * Z := nodeCounts n np.

Definition reservedCount n np : Z := default 0 (nodePoolNameToNodePoolLimit n !! np).

Definition ReserveNodeCount n np (limit wantedLimit : Z) : NodePoolState * Z :=
  let n := ensureNodePoolEntry n np in
  let '(active, deleting, pendingdisruption) := nodeCounts n np in
  let currentlyReserved := reservedCount n np in
  let remainingLimit := wrap64 (wrap64 (limit - (active + deleting + pendingdisruption)) - currentlyReserved) in
  if remainingLimit <? 0 then (n, 0)
  else
    let grantedLimit := if remainingLimit <? wantedLimit then remainingLimit else wantedLimit in
    (mkNodePoolState (nodePoolNameToNodeClaimState n) (nodeClaimNameToNodePoolName n)
       (<[np := wrap64 (currentlyReserved + grantedLimit)]> (nodePoolNameToNodePoolLimit n)), grantedLimit).

Definition ReleaseNodeCount n np (count : Z) : option NodePoolState :=
  currentlyReserved ← nodePoolNameToNodePoolLimit n !! np;
  let left := wrap64 (currentlyReserved - count) in
  Some (mkNodePoolState (nodePoolNameToNodeClaimState n) (nodeClaimNameToNodePoolName n)
    (<[np := if left <? 0 then 0 else left]> (nodePoolNameToNodePoolLimit n))).

Definition UpdateNodeClaim n np nc (markedForDeletion : bool) : NodePoolState :=
  if String.eqb np "" then n
  else
    let n := SetNodeClaimMapping n np nc in
    if markedForDeletion then MarkNodeClaimDeleting n np nc else MarkNodeClaimActive n np nc.

Definition Reset : NodePoolState := NewNodePoolState.

(** ** Reserving nodes *)

Definition nodeLimit (limit : option Z) : Z := default MaxInt64 limit.

(** [Controller.Reconcile] of static provisioning, from the counts to the
    reservation: the nodes to create. *)
Definition staticProvision n np (limit : option Z) (replicas : Z) : NodePoolState * Z :=
  let '(running, _, pending) := GetNodeCount n np in
  if replicas <=? running + pending then (n, 0)
  else ReserveNodeCount n np (nodeLimit limit) (wrap64 (replicas - running)).

(** [StaticDrift.ComputeCommands] for the drifted candidates of one pool: how
    many are replaced. *)
Definition staticDrift n np (limit : option Z) (replicas budget candidates : Z) : NodePoolState * Z :=
  if budget =? 0 then (n, 0)
  else
    let '(running, _, pending) := GetNodeCount n np in
    if replicas <? running + pending then (n, 0)
    else ReserveNodeCount n np (nodeLimit limit) (Z.min budget candidates).

(** [Controller.Reconcile] of static deprovisioning: how many NodeClaims go. *)
Definition staticDeprovision n np (replicas : Z) : Z :=
  let '(running, _, _) := GetNodeCount n np in Z.max 0 (wrap64 (running - replicas)).

(** * Theory *)

(** ** A NodeClaim is in one state of one pool *)

Definition claims (s : NodeClaimState) : gset string := Active s ∪ PendingDisruption s ∪ Deleting s.

Record entry_wf (s : NodeClaimState) : Prop := {
  ew_active_pending : Active s ## PendingDisruption s;
  ew_active_deleting : Active s ## Deleting s;
  ew_pending_deleting : PendingDisruption s ## Deleting s;
}.

(** The three sets of a pool are disjoint, together they are the NodeClaims
    that are mapped to the pool, and exactly the pools with NodeClaim states
    have a count of reservations. *)
Record nps_wf n : Prop := {
  nw_entry : ∀ np s, nodePoolNameToNodeClaimState n !! np = Some s → entry_wf s;
  nw_mapped : ∀ np nc, nodeClaimNameToNodePoolName n !! nc = Some np ↔
    ∃ s, nodePoolNameToNodeClaimState n !! np = Some s ∧ nc ∈ claims s;
  nw_limits : ∀ np, is_Some (nodePoolNameToNodeClaimState n !! np) ↔ is_Some (nodePoolNameToNodePoolLimit n !! np);
  nw_named : nodePoolNameToNodeClaimState n !! ""%string = None;
}.

(** The NodeClaims of a pool. *)
Definition live n np : Z := Z.of_nat (size (filter (λ x, x.2 = np) (nodeClaimNameToNodePoolName n))).

Definition total n np : Z := let '(active, deleting, pending) := nodeCounts n np in active + deleting + pending.

Lemma entry_wf_noClaims : entry_wf noClaims.
Proof. split; cbn; set_solver. Qed.

Lemma size_claims s : entry_wf s → size (claims s) = (size (Active s) + size (PendingDisruption s) + size (Deleting s))%nat.
Proof. intros [H1 H2 H3]. unfold claims. rewrite size_union by set_solver. by rewrite size_union. Qed.

(** The counts are the numbers of NodeClaims. *)
Lemma total_live n np : nps_wf n → total n np = live n np.
Proof.
  intros [He Hm _ _]. unfold total, nodeCounts, live. destruct (nodePoolNameToNodeClaimState n !! np) as [s|] eqn:Hs.
  - assert (claims s = dom (filter (λ x, x.2 = np) (nodeClaimNameToNodePoolName n))) as Heq.
    { apply set_eq. intros nc. rewrite elem_of_dom. unfold is_Some. setoid_rewrite map_lookup_filter_Some. cbn. split.
      - intros Hin. exists np. split; [apply Hm; eauto|done].
      - intros (q & Hq & ->). apply Hm in Hq as (s' & Hs' & Hin). congruence. }
    rewrite <- size_dom, <- Heq, (size_claims s) by eauto. lia.
  - rewrite (proj2 (map_empty_filter _ _)); [by rewrite map_size_empty|].
    intros nc q Hq Heq. cbn in Heq. subst q. apply Hm in Hq as (s & Hs' & _). congruence.
Qed.

Lemma ensure_lookup n np :
  nodePoolNameToNodeClaimState (ensureNodePoolEntry n np) !! np = Some (default noClaims (nodePoolNameToNodeClaimState n !! np)).
Proof.
  cbn [ensureNodePoolEntry nodePoolNameToNodeClaimState]. destruct (nodePoolNameToNodeClaimState n !! np) eqn:Hl; [done|by rewrite lookup_insert_eq].
Qed.

Lemma ensure_lookup_ne n np q :
  q ≠ np → nodePoolNameToNodeClaimState (ensureNodePoolEntry n np) !! q = nodePoolNameToNodeClaimState n !! q.
Proof.
  intros Hne. cbn [ensureNodePoolEntry nodePoolNameToNodeClaimState]. destruct (nodePoolNameToNodeClaimState n !! np); [done|by rewrite lookup_insert_ne].
Qed.

Lemma ensure_reserved n np q : reservedCount (ensureNodePoolEntry n np) q = reservedCount n q.
Proof.
  unfold reservedCount. cbn [ensureNodePoolEntry nodePoolNameToNodePoolLimit]. destruct (nodePoolNameToNodePoolLimit n !! np) eqn:Hl; [done|].
  destruct (decide (np = q)) as [<-|Hne]; [by rewrite lookup_insert_eq, Hl|by rewrite lookup_insert_ne].
Qed.

Lemma ensure_limits n np q :
  (∀ np, is_Some (nodePoolNameToNodeClaimState n !! np) ↔ is_Some (nodePoolNameToNodePoolLimit n !! np)) →
  is_Some (nodePoolNameToNodeClaimState (ensureNodePoolEntry n np) !! q) ↔ is_Some (nodePoolNameToNodePoolLimit (ensureNodePoolEntry n np) !! q).
Proof.
  intros Hd. destruct (decide (q = np)) as [->|Hne].
  - rewrite ensure_lookup. cbn [ensureNodePoolEntry nodePoolNameToNodePoolLimit].
    destruct (nodePoolNameToNodePoolLimit n !! np) eqn:Hl; [rewrite Hl|rewrite lookup_insert_eq]; split; eauto.
  - rewrite ensure_lookup_ne by done. rewrite Hd. cbn [ensureNodePoolEntry nodePoolNameToNodePoolLimit].
    destruct (nodePoolNameToNodePoolLimit n !! np); [done|by rewrite lookup_insert_ne].
Qed.

Lemma ensure_wf n np : nps_wf n → np ≠ ""%string → nps_wf (ensureNodePoolEntry n np).
Proof.
  intros [He Hm Hl Hn] Hnp. split.
  - intros q s. destruct (decide (q = np)) as [->|Hne]; [rewrite ensure_lookup|rewrite ensure_lookup_ne by done; apply He].
    intros [= <-]. destruct (nodePoolNameToNodeClaimState n !! np) eqn:Hs; [by apply (He np)|apply entry_wf_noClaims].
  - intros q nc. cbn [ensureNodePoolEntry nodeClaimNameToNodePoolName]. rewrite Hm. destruct (decide (q = np)) as [->|Hne].
    + rewrite ensure_lookup. destruct (nodePoolNameToNodeClaimState n !! np); cbn; [done|]. unfold claims. set_solver.
    + by rewrite ensure_lookup_ne.
  - intros q. by apply ensure_limits.
  - by rewrite ensure_lookup_ne.
Qed.

(** Putting a NodeClaim into one of the sets of its pool. *)
Definition puts nc (f : NodeClaimState → NodeClaimState) : Prop :=
  ∀ s, entry_wf s → entry_wf (f s) ∧ claims (f s) = {[nc]} ∪ claims s.

Lemma puts_active nc : puts nc (λ s, mkNodeClaimState ({[nc]} ∪ Active s) (PendingDisruption s ∖ {[nc]}) (Deleting s ∖ {[nc]})).
Proof. intros s [H1 H2 H3]. split; [split; cbn; set_solver|]. unfold claims. cbn. apply set_eq. intros x. destruct (decide (x = nc)); set_solver. Qed.

Lemma puts_deleting nc : puts nc (λ s, mkNodeClaimState (Active s ∖ {[nc]}) (PendingDisruption s ∖ {[nc]}) ({[nc]} ∪ Deleting s)).
Proof. intros s [H1 H2 H3]. split; [split; cbn; set_solver|]. unfold claims. cbn. apply set_eq. intros x. destruct (decide (x = nc)); set_solver. Qed.

Lemma puts_pending nc : puts nc (λ s, mkNodeClaimState (Active s ∖ {[nc]}) ({[nc]} ∪ PendingDisruption s) (Deleting s ∖ {[nc]})).
Proof. intros s [H1 H2 H3]. split; [split; cbn; set_solver|]. unfold claims. cbn. apply set_eq. intros x. destruct (decide (x = nc)); set_solver. Qed.

Lemma changeEntry_lookup f n np q :
  nodePoolNameToNodeClaimState (changeEntry f n np) !! q =
  if decide (q = np) then Some (f (default noClaims (nodePoolNameToNodeClaimState n !! np))) else nodePoolNameToNodeClaimState n !! q.
Proof.
  unfold changeEntry. cbn [nodePoolNameToNodeClaimState]. case_decide as Hq.
  - subst q. rewrite lookup_alter_eq, ensure_lookup. done.
  - rewrite lookup_alter_ne by done. by apply ensure_lookup_ne.
Qed.

(** A NodeClaim is put into its pool when it is mapped to it, as the only one
    that may be missing from the sets. *)
Lemma changeEntry_wf f n np nc :
  puts nc f →
  (∀ q s, nodePoolNameToNodeClaimState n !! q = Some s → entry_wf s) →
  (∀ q nc', nodeClaimNameToNodePoolName n !! nc' = Some q ↔
     (nc' = nc ∧ q = np) ∨ ∃ s, nodePoolNameToNodeClaimState n !! q = Some s ∧ nc' ∈ claims s) →
  (∀ q, is_Some (nodePoolNameToNodeClaimState n !! q) ↔ is_Some (nodePoolNameToNodePoolLimit n !! q)) →
  nodePoolNameToNodeClaimState n !! ""%string = None → np ≠ ""%string → nps_wf (changeEntry f n np).
Proof.
  intros Hf He Hm Hl Hn Hnp.
  assert (entry_wf (default noClaims (nodePoolNameToNodeClaimState n !! np))) as Hwf.
  { destruct (nodePoolNameToNodeClaimState n !! np) eqn:Hs; [by apply (He np)|apply entry_wf_noClaims]. }
  destruct (Hf _ Hwf) as [Hwf' Hclaims]. split.
  - intros q s. rewrite changeEntry_lookup. case_decide; [by intros [= <-]|apply He].
  - intros q nc'. rewrite changeEntry_lookup. change (nodeClaimNameToNodePoolName (changeEntry f n np)) with (nodeClaimNameToNodePoolName n).
    rewrite Hm. case_decide as Hq; [subst q|naive_solver]. split.
    + intros [[-> _]|(s & Hs & Hin)]; (eexists; split; [done|]); rewrite Hclaims; [set_solver|]. rewrite Hs. cbn. set_solver.
    + intros (s & [= <-] & Hin). rewrite Hclaims in Hin. apply elem_of_union in Hin as [->%elem_of_singleton|Hin]; [by left|].
      right. destruct (nodePoolNameToNodeClaimState n !! np) as [s|]; cbn in Hin; [by exists s|]. unfold claims in Hin. set_solver.
  - intros q. rewrite changeEntry_lookup. pose proof (ensure_limits n np q Hl) as Hd. unfold changeEntry. cbn [nodePoolNameToNodePoolLimit].
    rewrite <- Hd. case_decide as Hq; [subst q; rewrite ensure_lookup|rewrite ensure_lookup_ne by done]; split; eauto.
  - rewrite changeEntry_lookup. by case_decide.
Qed.

Lemma mark_wf f n np nc : nps_wf n → puts nc f → nodeClaimNameToNodePoolName n !! nc = Some np → nps_wf (changeEntry f n np).
Proof.
  intros [He Hm Hl Hn] Hf Hnc. apply (changeEntry_wf f n np nc); [done|done| |done|done|].
  - intros q nc'. rewrite Hm. split; [by right|]. intros [[-> ->]|?]; [by apply Hm|done].
  - intros ->. apply Hm in Hnc as (s & Hs & _). congruence.
Qed.

Lemma UpdateNodeClaim_wf n np nc b :
  nps_wf n → np ≠ ""%string → nc ≠ ""%string →
  (nodeClaimNameToNodePoolName n !! nc = None ∨ nodeClaimNameToNodePoolName n !! nc = Some np) → nps_wf (UpdateNodeClaim n np nc b).
Proof.
  intros Hwf Hnp Hnc Hmap. unfold UpdateNodeClaim. destruct (String.eqb_spec np ""); [done|].
  unfold SetNodeClaimMapping. destruct (String.eqb_spec np ""); [done|]. destruct (String.eqb_spec nc ""); [done|]. cbn [orb].
  destruct (ensure_wf n np Hwf Hnp) as [He Hm Hl Hn].
  assert (∀ f, puts nc f → nps_wf (changeEntry f (mkNodePoolState (nodePoolNameToNodeClaimState (ensureNodePoolEntry n np))
    (<[nc := np]> (nodeClaimNameToNodePoolName (ensureNodePoolEntry n np))) (nodePoolNameToNodePoolLimit (ensureNodePoolEntry n np))) np)) as Hch.
  { intros f Hf. apply (changeEntry_wf f _ np nc); [done|done| |done|done|done]. intros q nc'.
    cbn [nodeClaimNameToNodePoolName nodePoolNameToNodeClaimState]. rewrite lookup_insert_Some. split.
    - intros [[-> ->]|[Hne Hq]]; [by left|right; by apply Hm].
    - intros [[-> ->]|Hs]; [by left|]. apply Hm in Hs. destruct (decide (nc = nc')) as [<-|Hne]; [|by right].
      left. split; [done|]. cbn in Hs. destruct Hmap; congruence. }
  destruct b; apply Hch; [apply puts_deleting|apply puts_active].
Qed.

(** The entry of a pool is dropped by a clean-up while NodeClaims of it are
    pending disruption. *)
Definition loses_pending n nc : Prop :=
  ∃ np s, nodeClaimNameToNodePoolName n !! nc = Some np ∧ nodePoolNameToNodeClaimState n !! np = Some s ∧
    nodePoolNameToNodeClaimState (Cleanup n nc) !! np = None ∧ PendingDisruption s ∖ {[nc]} ≠ ∅.

Lemma Cleanup_wf n nc : nps_wf n → ¬ loses_pending n nc → nps_wf (Cleanup n nc).
Proof.
  intros Hwf Hlose. pose proof Hwf as [He Hm Hl Hn].
  destruct (nodeClaimNameToNodePoolName n !! nc) as [np|] eqn:Hnc.
  - destruct (proj1 (Hm np nc) Hnc) as (s & Hs & Hin). pose proof (He np s Hs) as Hws.
    assert (∀ q nc', delete nc (nodeClaimNameToNodePoolName n) !! nc' = Some q ↔
      ∃ s', nodePoolNameToNodeClaimState n !! q = Some s' ∧ nc' ∈ claims s' ∖ {[nc]}) as Hdel.
    { intros q nc'. rewrite lookup_delete_Some, Hm. set_solver. }
    assert (∀ x, x ∈ claims (withoutClaim nc s) ↔ x ∈ claims s ∖ {[nc]}) as Hw.
    { intros x. unfold claims, withoutClaim. cbn. set_solver. }
    revert Hlose. unfold loses_pending, Cleanup. cbv zeta. rewrite Hnc. change (default ""%string (Some np)) with np. rewrite Hs.
    assert (∀ q s', nodePoolNameToNodeClaimState n !! q = Some s' → q ≠ np → nc ∉ claims s') as Hother.
    { intros q s' Hs' Hne Hin'. assert (nodeClaimNameToNodePoolName n !! nc = Some q) by (apply Hm; eauto). congruence. }
    destruct (bool_decide _ && bool_decide _) eqn:Hem; intros Hlose.
    + assert (claims (withoutClaim nc s) = ∅) as Hnone.
      { apply andb_true_iff in Hem as [Ha%bool_decide_eq_true Hd%bool_decide_eq_true]. apply size_empty_inv in Ha, Hd.
        unfold claims. apply leibniz_equiv. assert (PendingDisruption (withoutClaim nc s) = ∅) as Hp; [|set_solver].
        destruct (decide (PendingDisruption s ∖ {[nc]} = ∅)) as [|Hne]; [done|]. exfalso. apply Hlose. exists np, s.
        split_and!; [done|done|cbn; apply lookup_delete_eq|done]. }
      split; cbn [nodePoolNameToNodeClaimState nodeClaimNameToNodePoolName nodePoolNameToNodePoolLimit].
      * intros q s'. rewrite lookup_delete_Some. intros [_ ?]. by apply (He q).
      * intros q nc'. rewrite Hdel. setoid_rewrite lookup_delete_Some. split.
        -- intros (s' & Hs' & Hin'). exists s'. destruct (decide (np = q)) as [<-|]; [|set_solver].
           assert (s' = s) as -> by congruence. apply Hw in Hin'. set_solver.
        -- intros (s' & [Hne Hs'] & Hin'). exists s'. split; [done|]. specialize (Hother q s' Hs'). set_solver.
      * intros q. destruct (decide (np = q)) as [<-|]; [by rewrite !lookup_delete_eq|by rewrite !lookup_delete_ne].
      * by apply lookup_delete_None; right.
    + split; cbn [nodePoolNameToNodeClaimState nodeClaimNameToNodePoolName nodePoolNameToNodePoolLimit].
      * intros q s'. rewrite lookup_insert_Some. intros [[_ <-]|[_ ?]]; [|by apply (He q)].
        destruct Hws. split; unfold withoutClaim; cbn; set_solver.
      * intros q nc'. rewrite Hdel. setoid_rewrite lookup_insert_Some. split.
        -- intros (s' & Hs' & Hin'). destruct (decide (np = q)) as [<-|].
           ++ exists (withoutClaim nc s). split; [by left|]. apply Hw. congruence.
           ++ exists s'. split; [by right|set_solver].
        -- intros (s' & [[<- <-]|[Hne Hs']] & Hin').
           ++ exists s. split; [done|]. by apply Hw.
           ++ exists s'. split; [done|]. specialize (Hother q s' Hs'). set_solver.
      * intros q. destruct (decide (np = q)) as [<-|]; [rewrite lookup_insert_eq, <- Hl; split; eauto|by rewrite lookup_insert_ne].
      * rewrite lookup_insert_ne; [done|]. by intros ->; congruence.
  - unfold Cleanup. rewrite Hnc. cbn [default]. rewrite (delete_id _ _ Hnc).
    rewrite Hn. by destruct n.
Qed.

(** ** The node limit *)

Lemma live_pos n np : 0 <= live n np.
Proof. unfold live. lia. Qed.

Lemma live_mapping n n' np : nodeClaimNameToNodePoolName n' = nodeClaimNameToNodePoolName n → live n' np = live n np.
Proof. intros Heq. unfold live. by rewrite Heq. Qed.

Lemma live_insert n n' np nc q :
  nodeClaimNameToNodePoolName n' = <[nc := q]> (nodeClaimNameToNodePoolName n) → nodeClaimNameToNodePoolName n !! nc = None →
  live n' np = live n np + (if decide (q = np) then 1 else 0).
Proof.
  intros Heq Hnc. unfold live. rewrite Heq. case_decide as Hq.
  - rewrite map_filter_insert_True by done. rewrite map_size_insert_None; [lia|]. apply map_lookup_filter_None. by left.
  - rewrite map_filter_insert_False by done. rewrite delete_id by done. lia.
Qed.

Lemma live_delete n np nc : live (Cleanup n nc) np <= live n np.
Proof.
  unfold live. assert (nodeClaimNameToNodePoolName (Cleanup n nc) = delete nc (nodeClaimNameToNodePoolName n)) as ->.
  { unfold Cleanup. cbv zeta. destruct (nodePoolNameToNodeClaimState n !! _); [|done]. by destruct (bool_decide _ && bool_decide _). }
  rewrite map_filter_delete. apply Nat2Z.inj_le, map_subseteq_size, delete_subseteq.
Qed.

(** A reservation takes no more than the limit leaves. *)
Lemma ReserveNodeCount_spec n np limit wanted n' granted :
  ReserveNodeCount n np limit wanted = (n', granted) → nps_wf n → np ≠ ""%string →
  0 <= wanted → 0 <= limit <= MaxInt64 → 0 <= reservedCount n np → live n np <= MaxInt64 → live n np + reservedCount n np <= limit + MaxInt64 →
  nps_wf n' ∧ nodeClaimNameToNodePoolName n' = nodeClaimNameToNodePoolName n ∧
  (∀ q, reservedCount n' q = reservedCount n q + if decide (q = np) then granted else 0) ∧
  granted = Z.max 0 (Z.min wanted (limit - live n np - reservedCount n np)).
Proof.
  intros Hrun Hwf Hnp Hw Hlim Hres Hlive Hsum. pose proof (ensure_wf n np Hwf Hnp) as Hwf1. unfold ReserveNodeCount in Hrun.
  assert (nodeClaimNameToNodePoolName (ensureNodePoolEntry n np) = nodeClaimNameToNodePoolName n) as Hmap by done.
  pose proof (ensure_reserved n np) as Her. pose proof (ensure_lookup n np) as Hnew.
  revert Hrun Hwf1 Hmap Her Hnew. generalize (ensureNodePoolEntry n np). intros e Hrun Hwf1 Hmap Her Hnew.
  pose proof (total_live e np Hwf1) as Htot. unfold total in Htot. rewrite (live_mapping n _ np) in Htot by done. rewrite Her in Hrun.
  destruct (nodeCounts e np) as [[active deleting] pending]. cbv beta iota in Htot, Hrun.
  assert (wrap64 (wrap64 (limit - (active + deleting + pending)) - reservedCount n np) = limit - live n np - reservedCount n np) as Hrem.
  { pose proof (live_pos n np). unfold MaxInt64 in *. rewrite (wrap64_id (limit - _)); [|unfold in_int64, MinInt64, MaxInt64; lia].
    rewrite wrap64_id; [lia|unfold in_int64, MinInt64, MaxInt64; lia]. }
  rewrite Hrem in Hrun. destruct (_ <? 0) eqn:Hneg; destruct_bools.
  { injection Hrun as <- <-. split_and!; [done|done| |lia]. intros q. rewrite Her. case_decide; lia. }
  set (g := if _ <? wanted then _ else wanted) in Hrun. assert (g = Z.min wanted (limit - live n np - reservedCount n np)) as Hg.
  { unfold g. destruct (_ <? wanted) eqn:Hc; destruct_bools; lia. }
  injection Hrun as <- <-. pose proof (live_pos n np). unfold MaxInt64 in *.
  rewrite wrap64_id by (unfold in_int64, MinInt64, MaxInt64; lia).
  split_and!; [|done| |lia].
  - destruct Hwf1 as [He Hm Hl Hn]. split; [exact He|exact Hm| |exact Hn]. intros q. cbn [nodePoolNameToNodeClaimState nodePoolNameToNodePoolLimit].
    destruct (decide (np = q)) as [<-|Hne]; [rewrite lookup_insert_eq, Hnew; split; eauto|rewrite lookup_insert_ne by done; apply Hl].
  - intros q. rewrite <- (Her q), <- (Her np). unfold reservedCount at 1. cbn [nodePoolNameToNodePoolLimit]. case_decide as Hq.
    + subst q. by rewrite lookup_insert_eq.
    + rewrite lookup_insert_ne by done. unfold reservedCount. lia.
Qed.

Lemma ReleaseNodeCount_spec n np n' :
  ReleaseNodeCount n np 1 = Some n' → nps_wf n → 0 <= reservedCount n np <= MaxInt64 →
  nps_wf n' ∧ nodeClaimNameToNodePoolName n' = nodeClaimNameToNodePoolName n ∧
  (∀ q, reservedCount n' q = if decide (q = np) then Z.max 0 (reservedCount n np - 1) else reservedCount n q).
Proof.
  intros (r & Hr & Heq)%bind_Some [He Hm Hl Hn] Hres. injection Heq as <-.
  assert (reservedCount n np = r) as Hrc by (unfold reservedCount; by rewrite Hr). rewrite Hrc in *. unfold MaxInt64 in *.
  rewrite wrap64_id by (unfold in_int64, MinInt64, MaxInt64; lia). split_and!; [|done|].
  - split; [exact He|exact Hm| |exact Hn]. intros q. cbn [nodePoolNameToNodeClaimState nodePoolNameToNodePoolLimit].
    destruct (decide (np = q)) as [<-|Hne]; [rewrite lookup_insert_eq, Hl, Hr; split; eauto|rewrite lookup_insert_ne by done; apply Hl].
  - intros q. unfold reservedCount at 1. cbn [nodePoolNameToNodePoolLimit]. case_decide as Hq.
    + subst q. rewrite lookup_insert_eq. cbn. destruct (r - 1 <? 0) eqn:Hc; destruct_bools; lia.
    + by rewrite lookup_insert_ne.
Qed.

(** Callers at work, as seen by one pool and its limit: the nodes granted to it
    that are still to be created, and those whose creation was tried and whose
    reservation is still to be released. *)
Section limit.
Context (pool : string) (limit : Z).

Definition here np : Z := if decide (np = pool) then 1 else 0.

Inductive pool_step : NodePoolState * Z * Z → NodePoolState * Z * Z → Prop :=
  | ps_reserve n granted unreleased np limit' wanted n' more :
      np ≠ ""%string → 0 <= wanted → 0 <= limit' <= MaxInt64 → (np = pool → limit' = limit) →
      live n np + reservedCount n np <= limit' + MaxInt64 → live n np <= MaxInt64 → 0 <= reservedCount n np →
      ReserveNodeCount n np limit' wanted = (n', more) →
      pool_step (n, granted, unreleased) (n', granted + here np * more, unreleased)
  | ps_created n granted unreleased np nc :
      np ≠ ""%string → nc ≠ ""%string → nodeClaimNameToNodePoolName n !! nc = None → (np = pool → 0 < granted) →
      pool_step (n, granted, unreleased) (UpdateNodeClaim n np nc false, granted - here np, unreleased + here np)
  | ps_failed n granted unreleased :
      0 < granted → pool_step (n, granted, unreleased) (n, granted - 1, unreleased + 1)
  | ps_release n granted unreleased np n' :
      (np = pool → 0 < unreleased) → 0 <= reservedCount n np <= MaxInt64 → ReleaseNodeCount n np 1 = Some n' →
      pool_step (n, granted, unreleased) (n', granted, unreleased - here np)
  | ps_update n granted unreleased np nc markedForDeletion :
      np ≠ ""%string → nc ≠ ""%string → nodeClaimNameToNodePoolName n !! nc = Some np →
      pool_step (n, granted, unreleased) (UpdateNodeClaim n np nc markedForDeletion, granted, unreleased)
  | ps_active n granted unreleased np nc :
      nodeClaimNameToNodePoolName n !! nc = Some np → pool_step (n, granted, unreleased) (MarkNodeClaimActive n np nc, granted, unreleased)
  | ps_deleting n granted unreleased np nc :
      nodeClaimNameToNodePoolName n !! nc = Some np → pool_step (n, granted, unreleased) (MarkNodeClaimDeleting n np nc, granted, unreleased)
  | ps_pending n granted unreleased np nc :
      nodeClaimNameToNodePoolName n !! nc = Some np → pool_step (n, granted, unreleased) (MarkNodeClaimPendingDisruption n np nc, granted, unreleased)
  | ps_cleanup n granted unreleased nc :
      ¬ loses_pending n nc → reservedCount (Cleanup n nc) pool = reservedCount n pool →
      pool_step (n, granted, unreleased) (Cleanup n nc, granted, unreleased).

Record limit_inv (x : NodePoolState * Z * Z) : Prop := {
  li_wf : nps_wf x.1.1;
  li_granted : 0 <= x.1.2;
  li_unreleased : 0 <= x.2;
  li_reserved : reservedCount x.1.1 pool = x.1.2 + x.2;
  li_reserved_max : x.1.2 + x.2 <= limit;
  li_limit : live x.1.1 pool + x.1.2 <= limit;
}.

Lemma changeEntry_counts f n np : ∀ q, reservedCount (changeEntry f n np) q = reservedCount n q.
Proof. intros q. unfold changeEntry. apply (ensure_reserved n np q). Qed.

Lemma UpdateNodeClaim_counts n np nc b : np ≠ ""%string → nc ≠ ""%string →
  nodeClaimNameToNodePoolName (UpdateNodeClaim n np nc b) = <[nc := np]> (nodeClaimNameToNodePoolName n) ∧
  ∀ q, reservedCount (UpdateNodeClaim n np nc b) q = reservedCount n q.
Proof.
  intros Hnp Hnc. unfold UpdateNodeClaim, SetNodeClaimMapping. destruct (String.eqb_spec np ""); [done|]. destruct (String.eqb_spec nc ""); [done|].
  cbn [orb]. split; [by destruct b|]. intros q. destruct b; unfold MarkNodeClaimDeleting, MarkNodeClaimActive; rewrite changeEntry_counts; apply (ensure_reserved n np q).
Qed.

Lemma pool_step_inv x y : 0 <= limit <= MaxInt64 → pool_step x y → limit_inv x → limit_inv y.
Proof.
  intros Hlim Hstep [Hwf Hg Hu Hr Hrm Hl].
  destruct Hstep as [n g u np limit' wanted n' more Hnp Hw Hlim' Heq Hsum Hlv Hres Hrun|n g u np nc Hnp Hnc Hnone Hpos|n g u Hpos|n g u np n' Hpos Hres Hrun
    |n g u np nc b Hnp Hnc Hmap|n g u np nc Hmap|n g u np nc Hmap|n g u np nc Hmap|n g u nc Hlose Hkeep]; cbn [fst snd] in *; unfold here.
  - destruct (ReserveNodeCount_spec _ _ _ _ _ _ Hrun Hwf Hnp Hw Hlim' Hres Hlv Hsum) as (Hwf' & Hm & Hrc & Hgr). split; cbn [fst snd].
    all: rewrite ?Hrc, ?(live_mapping _ _ _ Hm); destruct (decide (np = pool)) as [->|Hne]; rewrite ?(decide_True (P := pool = pool)), ?(decide_False (P := pool = np)) by done; try done.
    all: try (rewrite Heq in Hgr by done); pose proof (live_pos n pool); lia.
  - pose proof (UpdateNodeClaim_counts n np nc false Hnp Hnc) as [Hm Hrc]. split; cbn [fst snd].
    { apply UpdateNodeClaim_wf; [done|done|done|by left]. }
    all: rewrite ?Hrc, ?(live_insert _ _ _ _ _ Hm Hnone); destruct (decide (np = pool)) as [->|Hne]; try specialize (Hpos eq_refl); lia.
  - split; cbn [fst snd]; try done; lia.
  - destruct (ReleaseNodeCount_spec _ _ _ Hrun Hwf Hres) as (Hwf' & Hm & Hrc). split; cbn [fst snd]; [done|..].
    all: rewrite ?Hrc, ?(live_mapping _ _ _ Hm); destruct (decide (np = pool)) as [->|Hne];
      rewrite ?(decide_True (P := pool = pool)), ?(decide_False (P := pool = np)) by done; try specialize (Hpos eq_refl); lia.
  - pose proof (UpdateNodeClaim_counts n np nc b Hnp Hnc) as [Hm Hrc]. rewrite insert_id in Hm by done. split; cbn [fst snd]; try done.
    + apply UpdateNodeClaim_wf; [done|done|done|by right].
    + by rewrite Hrc.
    + by rewrite (live_mapping _ _ _ Hm).
  - split; cbn [fst snd]; try done; [apply (mark_wf _ n np nc); [done|apply puts_active|done]|unfold MarkNodeClaimActive; by rewrite changeEntry_counts].
  - split; cbn [fst snd]; try done; [apply (mark_wf _ n np nc); [done|apply puts_deleting|done]|unfold MarkNodeClaimDeleting; by rewrite changeEntry_counts].
  - split; cbn [fst snd]; try done; [apply (mark_wf _ n np nc); [done|apply puts_pending|done]|unfold MarkNodeClaimPendingDisruption; by rewrite changeEntry_counts].
  - split; cbn [fst snd]; try done; [by apply Cleanup_wf|congruence|]. pose proof (live_delete n pool nc). lia.
Qed.

End limit.

(** ** What a clean-up forgets *)

(** When the last active or deleting NodeClaim of a pool goes, the clean-up drops
    the whole pool: reservations that callers still hold and NodeClaims that are
    pending disruption count for nothing afterwards, and releasing one of those
    reservations dereferences a nil pointer. *)
Theorem Cleanup_forgets_pool n np nc s
    (Hmap : nodeClaimNameToNodePoolName n !! nc = Some np) (Hs : nodePoolNameToNodeClaimState n !! np = Some s)
    (Hlast : Active s ∪ Deleting s ⊆ {[nc]}) :
  GetNodeCount (Cleanup n nc) np = (0, 0, 0) ∧ reservedCount (Cleanup n nc) np = 0 ∧
  ReleaseNodeCount (Cleanup n nc) np 1 = None ∧
  ∀ limit wanted, 0 <= wanted → 0 <= limit <= MaxInt64 → (ReserveNodeCount (Cleanup n nc) np limit wanted).2 = Z.min wanted limit.
Proof.
  assert (Cleanup n nc = mkNodePoolState (delete np (nodePoolNameToNodeClaimState n)) (delete nc (nodeClaimNameToNodePoolName n))
    (delete np (nodePoolNameToNodePoolLimit n))) as ->.
  { unfold Cleanup. rewrite Hmap. change (default ""%string (Some np)) with np. rewrite Hs. cbv zeta.
    assert (size (Active (withoutClaim nc s)) = 0%nat) as -> by (apply size_empty_iff; unfold withoutClaim; cbn; set_solver).
    assert (size (Deleting (withoutClaim nc s)) = 0%nat) as -> by (apply size_empty_iff; unfold withoutClaim; cbn; set_solver). done. }
  set (n' := mkNodePoolState _ _ _).
  assert (nodePoolNameToNodeClaimState n' !! np = None) as Hst by apply lookup_delete_eq.
  assert (nodePoolNameToNodePoolLimit n' !! np = None) as Hlim by apply lookup_delete_eq.
  split_and!.
  - unfold GetNodeCount, nodeCounts. by rewrite Hst.
  - unfold reservedCount. by rewrite Hlim.
  - unfold ReleaseNodeCount. by rewrite Hlim.
  - intros limit wanted Hw Hl. unfold ReserveNodeCount. unfold nodeCounts. rewrite ensure_lookup, ensure_reserved, Hst. unfold reservedCount.
    rewrite Hlim. cbn [default noClaims Active Deleting PendingDisruption]. rewrite !size_empty. cbn [Z.of_nat]. rewrite !Z.add_0_r, !Z.sub_0_r.
    unfold MaxInt64 in *. rewrite !(wrap64_id limit) by (unfold in_int64, MinInt64, MaxInt64; lia).
    destruct (limit <? 0) eqn:H0; destruct_bools; [lia|]. cbn [snd]. destruct (limit <? wanted) eqn:Hc; destruct_bools; lia.
Qed.

(** ** Static provisioning *)

(** How many nodes a static pool is grown by: the replicas less the active
    NodeClaims, within the limit.  NodeClaims that are pending disruption decide
    whether the pool grows at all but are not part of the difference, so a pool
    that grows while nodes are pending ends up with that many too many. *)
Theorem staticProvision_exact n np limit replicas n' granted active deleting pending
    (Hwf : nps_wf n) (Hnp : np ≠ ""%string) (Hcount : GetNodeCount n np = (active, deleting, pending))
    (Hrep : 0 <= replicas <= MaxInt64) (Hlim : 0 <= nodeLimit limit <= MaxInt64) (Hres : 0 <= reservedCount n np)
    (Hlive : live n np <= MaxInt64) (Hsum : live n np + reservedCount n np <= nodeLimit limit + MaxInt64)
    (Hrun : staticProvision n np limit replicas = (n', granted)) :
  (granted = 0 ↔ replicas <= active + pending ∨ nodeLimit limit <= live n np + reservedCount n np) ∧
  (0 < granted → granted = Z.min (replicas - active) (nodeLimit limit - live n np - reservedCount n np)) ∧
  (0 < granted → replicas - active <= nodeLimit limit - live n np - reservedCount n np →
     active + pending + granted = replicas + pending).
Proof.
  pose proof (total_live n np Hwf) as Ht. unfold total in Ht. unfold GetNodeCount in Hcount. rewrite Hcount in Ht. cbv beta iota in Ht.
  assert (0 <= active ∧ 0 <= deleting ∧ 0 <= pending) as (Ha & Hd & Hp).
  { unfold nodeCounts in Hcount. destruct (nodePoolNameToNodeClaimState n !! np); injection Hcount as <- <- <-; lia. }
  unfold staticProvision, GetNodeCount in Hrun. rewrite Hcount in Hrun. destruct (replicas <=? active + pending) eqn:Hc; destruct_bools.
  - injection Hrun as <- <-. split_and!; [|lia|lia]. split; [by left|done].
  - unfold MaxInt64 in *. rewrite wrap64_id in Hrun by (unfold in_int64, MinInt64, MaxInt64; lia).
    apply ReserveNodeCount_spec in Hrun as (_ & _ & _ & ->); [|done|done|lia|unfold MaxInt64; lia|done|unfold MaxInt64; lia|unfold MaxInt64; lia].
    split_and!; lia.
Qed.

(** * Witnesses *)

Section witnesses.

(** Node claim a is active, b is pending disruption and one node is reserved. *)
Definition busyPool : NodePoolState :=
  let n := UpdateNodeClaim NewNodePoolState "pool" "a" false in
  let n := UpdateNodeClaim n "pool" "b" false in
  MarkNodeClaimPendingDisruption n "pool" "b".

Lemma NewNodePoolState_wf : nps_wf NewNodePoolState.
Proof.
  split; cbn.
  - intros np s Hs. by rewrite lookup_empty in Hs.
  - intros np nc. rewrite lookup_empty. split; [done|]. intros (s & Hs & _). by rewrite lookup_empty in Hs.
  - intros np. rewrite !lookup_empty. done.
  - done.
Qed.

Lemma busyPool_wf : nps_wf busyPool.
Proof.
  unfold busyPool. cbv zeta. eapply mark_wf; [|apply puts_pending|vm_compute; reflexivity].
  apply UpdateNodeClaim_wf; [|done|done|left; vm_compute; reflexivity]. apply UpdateNodeClaim_wf; [apply NewNodePoolState_wf|done|done|left; vm_compute; reflexivity].
Qed.

Definition reservedPool : NodePoolState := (ReserveNodeCount busyPool "pool" 3 5).1.


Lemma Cleanup_forgets_pool_witness :
  reservedCount reservedPool "pool" = 1 ∧ ReleaseNodeCount (Cleanup reservedPool "a") "pool" 1 = None ∧
  nodeClaimNameToNodePoolName (Cleanup reservedPool "a") !! "b"%string = Some "pool"%string.
Proof.
  split; [vm_compute; reflexivity|]. split; [|vm_compute; reflexivity].
  refine (proj1 (proj2 (proj2 (Cleanup_forgets_pool reservedPool "pool" "a" (mkNodeClaimState {["a"%string]} {["b"%string]} ∅) _ _ _)))).
  - vm_compute. reflexivity.
  - vm_compute. reflexivity.
  - cbn. set_solver.
Defined.

Lemma staticProvision_exact_witness :
  GetNodeCount busyPool "pool" = (1, 0, 1) ∧ (staticProvision busyPool "pool" None 3).2 = 2 ∧ 1 + 1 + 2 = 3 + 1.
Proof.
  split; [vm_compute; reflexivity|]. split; [vm_compute; reflexivity|].
  refine (proj2 (proj2 (staticProvision_exact busyPool "pool" None 3 (staticProvision busyPool "pool" None 3).1 2 1 0 1 busyPool_wf _ _ _ _ _ _ _ _)) _ _);
    first [by vm_compute|by vm_compute; split; discriminate|done].
Defined.
End witnesses.
