(* ===== verification/Health.v ===== *)
(** * Registration health of NodePools

    Model of [pkg/utils/ringbuffer/buffer.go] and
    [pkg/state/nodepoolhealth/tracker.go]: a ring buffer of the last launch
    results of a NodePool and the health read off it.  The buffer is specified
    by the list of its contents, oldest first; [None] is the panic of inserting
    into a buffer without capacity. *)

From Stdlib Require Import SpecFloat.
From S2P Require Import Prelude Float64.

(** ** The ring buffer *)

Record RingBuffer (T : Type) := mkRingBuffer {
  rb_values : list T;
  rb_head : nat;
  rb_cap : nat;
}.
Arguments mkRingBuffer {T}.
Arguments rb_values {T}.
Arguments rb_head {T}.
Arguments rb_cap {T}.

Section ring.
Context {T : Type}.
Implicit Types (b : RingBuffer T) (value : T).

Definition NewRingBuffer (capacity : nat) : RingBuffer T := mkRingBuffer [] 0 capacity.

Definition RingInsert b value : option (RingBuffer T) :=
  if (length (rb_values b) <? rb_cap b)%nat then Some (mkRingBuffer (rb_values b ++ [value]) (rb_head b) (rb_cap b))
  else if (rb_head b <? length (rb_values b))%nat
  then Some (mkRingBuffer (<[rb_head b := value]> (rb_values b)) ((rb_head b + 1) mod rb_cap b) (rb_cap b))
  else None.

Definition RingLen b : Z := Z.of_nat (length (rb_values b)).

Definition RingReset b : RingBuffer T := mkRingBuffer [] 0 (rb_cap b).

Definition Items b : list T := rb_values b.
End ring.

(** ** The tracker *)

Definition BufferSize : Z := 4.
Definition ThresholdFalse : float64 := fhalf.

Inductive Status := StatusUnknown | StatusHealthy | StatusUnhealthy.

#[export] Instance Status_eq_dec : EqDecision Status.
Proof. solve_decision. Defined.

Abbreviation Tracker := (RingBuffer bool).

Definition NewTracker (capacity : nat) : Tracker := NewRingBuffer capacity.

Definition TrackerUpdate (t : Tracker) (success : bool) : option Tracker := RingInsert t success.

Definition TrackerStatus (t : Tracker) : Status :=
  if RingLen t =? 0 then StatusUnknown
  else
    let unhealthyCount := Z.of_nat (length (List.filter negb (Items t))) in
    if fleb ThresholdFalse (fdiv (fofint unhealthyCount) (fofint BufferSize)) then StatusUnhealthy else StatusHealthy.

(** [int(BufferSize * ThresholdFalse)], a constant *)
Definition unhealthyFill : nat := 2.

Fixpoint insertN (k : nat) (value : bool) (t : Tracker) : option Tracker :=
  match k with
  | O => Some t
  | S k => t ← RingInsert t value; insertN k value t
  end.

Definition TrackerSetStatus (t : Tracker) (status : Status) : option Tracker :=
  match status with
  | StatusUnknown => Some (RingReset t)
  | StatusHealthy => RingInsert (RingReset t) true
  | StatusUnhealthy => insertN unhealthyFill false (RingReset t)
  end.

Fixpoint insertAll (t : Tracker) (items : list bool) : option Tracker :=
  match items with
  | [] => Some t
  | item :: items => t ← RingInsert t item; insertAll t items
  end.

(** ** The state: a tracker per NodePool *)

Abbreviation HealthState := (gmap string Tracker).

(** [nodePoolNodeRegistration]: the tracker, made on first use. *)
Definition trackerFor (s : HealthState) (uid : string) : Tracker := default (NewTracker (Z.to_nat BufferSize)) (s !! uid).

Definition HealthStatus (s : HealthState) (uid : string) : HealthState * Status :=
  (<[uid := trackerFor s uid]> s, TrackerStatus (trackerFor s uid)).

Definition HealthUpdate (s : HealthState) (uid : string) (launchStatus : bool) : option HealthState :=
  t ← TrackerUpdate (trackerFor s uid) launchStatus; Some (<[uid := t]> s).

Definition HealthSetStatus (s : HealthState) (uid : string) (status : Status) : option HealthState :=
  t ← TrackerSetStatus (trackerFor s uid) status; Some (<[uid := t]> s).

Definition DryRun (s : HealthState) (uid : string) (launchStatus : bool) : option (HealthState * Tracker) :=
  copy ← insertAll (NewTracker (Z.to_nat BufferSize)) (Items (trackerFor s uid));
  copy ← TrackerUpdate copy launchStatus;
  Some (<[uid := trackerFor s uid]> s, copy).

(** * Theory *)

Section ring_theory.
Context {T : Type}.
Implicit Types (b : RingBuffer T) (value : T).

(** What the buffer holds, oldest first. *)
Definition contents b : list T := drop (rb_head b) (rb_values b) ++ take (rb_head b) (rb_values b).

Record ring_wf b : Prop := {
  rw_cap : (0 < rb_cap b)%nat;
  rw_len : (length (rb_values b) <= rb_cap b)%nat;
  rw_head : (rb_head b < rb_cap b)%nat;
  rw_filling : (length (rb_values b) < rb_cap b)%nat → rb_head b = 0%nat;
}.

(** The last [k] elements. *)
Definition lastn (k : nat) (l : list T) : list T := drop (length l - k) l.

Lemma contents_perm b : contents b ≡ₚ rb_values b.
Proof. unfold contents. rewrite Permutation_app_comm. by rewrite take_drop. Qed.

Lemma NewRingBuffer_wf capacity : (0 < capacity)%nat → ring_wf (NewRingBuffer (T := T) capacity).
Proof. intros Hc. split; cbn; lia. Qed.

Lemma insert_app_middle (before after : list T) x y : <[length before := x]> (before ++ y :: after) = before ++ x :: after.
Proof. rewrite insert_app_r_alt by lia. by rewrite Nat.sub_diag. Qed.

Lemma rotate_middle (before after : list T) y :
  drop (length before) (before ++ y :: after) ++ take (length before) (before ++ y :: after) = y :: after ++ before.
Proof. by rewrite drop_app_length, take_app_length. Qed.

(** Inserting forgets the oldest element of a full buffer and no other. *)
Lemma RingInsert_contents b value :
  ring_wf b → ∃ b', RingInsert b value = Some b' ∧ ring_wf b' ∧ rb_cap b' = rb_cap b ∧
    contents b' = lastn (rb_cap b) (contents b ++ [value]).
Proof.
  intros [Hc Hl Hh Hf]. unfold RingInsert, lastn, contents. destruct (Nat.ltb_spec (length (rb_values b)) (rb_cap b)) as [Hlt|Hge].
  - rewrite (Hf Hlt). eexists. split; [done|]. split_and!; [|done|].
    + split; cbn; rewrite ?length_app; cbn; lia.
    + cbn [rb_head rb_values]. rewrite !drop_0, !firstn_O, !app_nil_r, length_app. cbn [length]. by replace (length (rb_values b) + 1 - rb_cap b)%nat with 0%nat by lia.
  - destruct (Nat.ltb_spec (rb_head b) (length (rb_values b))) as [Hi|]; [|lia]. assert (length (rb_values b) = rb_cap b) as Hcap by lia.
    eexists. split; [done|]. split_and!; [|done|].
    + split; cbn [rb_cap rb_values rb_head]; rewrite ?length_insert; [lia|lia|apply Nat.mod_upper_bound; lia|lia].
    + cbn [rb_cap rb_values rb_head]. destruct (lookup_lt_is_Some_2 (rb_values b) (rb_head b) Hi) as [y Hy].
      revert Hcap Hy. generalize (rb_values b) as l. intros l Hcap Hy. apply list_elem_of_split_length in Hy as (before & after & -> & Hb).
      rewrite length_app in Hcap. cbn [length] in Hcap. rewrite Hb, insert_app_middle, rotate_middle.
      rewrite !length_app. cbn [length drop app]. replace (_ + _ - rb_cap b)%nat with 1%nat by (rewrite length_app; lia). cbn [drop].
      rewrite <- app_assoc. destruct (decide (S (length before) = rb_cap b)) as [Hlast|Hmore].
      * rewrite <- Hlast. replace (length before + 1)%nat with (S (length before)) by lia. rewrite Nat.Div0.mod_same. cbn [drop take].
        destruct after; [|cbn in Hcap; lia]. by rewrite app_nil_r.
      * rewrite Nat.mod_small by lia. replace (length before + 1)%nat with (length (before ++ [value])) by (rewrite length_app; done).
        replace (before ++ value :: after) with ((before ++ [value]) ++ after) by (by rewrite <- app_assoc). by rewrite drop_app_length, take_app_length.
Qed.
End ring_theory.

Lemma lastn_lastn {T} k (l l' : list T) : lastn k (lastn k l ++ l') = lastn k (l ++ l').
Proof.
  unfold lastn. rewrite !length_app, length_drop. destruct (decide (length l <= k)%nat) as [Hle|Hgt].
  - replace (length l - k)%nat with 0%nat by lia. rewrite drop_0. f_equal. lia.
  - rewrite <- (drop_app_le l l' (length l - k)) by lia. rewrite drop_drop. f_equal. lia.
Qed.

Lemma length_lastn {T} k (l : list T) : length (lastn k l) = Nat.min k (length l).
Proof. unfold lastn. rewrite length_drop. lia. Qed.

(** A tracker that launches are reported to. *)
Lemma insertAll_contents (t : Tracker) items :
  ring_wf t → ∃ t', insertAll t items = Some t' ∧ ring_wf t' ∧ rb_cap t' = rb_cap t ∧
    (items = [] → t' = t) ∧ (items ≠ [] → contents t' = lastn (rb_cap t) (contents t ++ items)).
Proof.
  revert t. induction items as [|x items IH]; intros t Hwf; cbn [insertAll]; [by exists t|].
  destruct (RingInsert_contents t x Hwf) as (t1 & -> & Hwf1 & Hcap1 & Hc1). cbn [mbind option_bind].
  destruct (IH t1 Hwf1) as (t2 & Hrun & Hwf2 & Hcap2 & Hnil & Hc2). exists t2. split_and!; [done|done|congruence|done|]. intros _.
  destruct items as [|y items]; [by rewrite (Hnil eq_refl)|]. rewrite Hc2 by done. rewrite Hcap1, Hc1, lastn_lastn.
  by rewrite <- app_assoc.
Qed.

(** Two failed launches of four are too many. *)
Definition judge (results : list bool) : Status :=
  match results with
  | [] => StatusUnknown
  | _ => if (2 <=? length (List.filter negb results))%nat then StatusUnhealthy else StatusHealthy
  end.

Lemma filter_length_le {X} (f : X → bool) l : (length (List.filter f l) <= length l)%nat.
Proof. induction l as [|x l IH]; cbn; [done|]. destruct (f x); cbn; lia. Qed.

Lemma TrackerStatus_judge (t : Tracker) : (length (rb_values t) <= 4)%nat → TrackerStatus t = judge (contents t).
Proof.
  intros Hlen. unfold TrackerStatus, RingLen, Items.
  assert (length (List.filter negb (contents t)) = length (List.filter negb (rb_values t))) as Hf
    by (apply Permutation_length, filter_perm, contents_perm).
  assert (length (contents t) = length (rb_values t)) as Hl by (apply Permutation_length, contents_perm).
  destruct (rb_values t) as [|x l] eqn:Hv; [by destruct (contents t)|]. cbn [Z.eqb Z.of_nat length]. unfold judge.
  destruct (contents t) as [|y l'] eqn:Hc; [done|]. rewrite Hf, <- Hv in *. clear Hf Hl Hc.
  pose proof (filter_length_le negb (rb_values t)) as Hle. assert (length (List.filter negb (rb_values t)) <= 4)%nat as H4 by lia.
  destruct (length (List.filter negb (rb_values t))) as [|[|[|[|[|k]]]]]; [vm_compute; reflexivity..|lia].
Qed.

(** The health of a NodePool is decided by its last four launches: unknown
    without any, unhealthy when at least two of them failed, and healthy
    otherwise; reporting a launch never fails. *)
Theorem health_of_last_launches (results : list bool) :
  ∃ t, insertAll (NewTracker (Z.to_nat BufferSize)) results = Some t ∧ TrackerStatus t = judge (lastn 4 results).
Proof.
  destruct (insertAll_contents (NewTracker (Z.to_nat BufferSize)) results) as (t & Hrun & Hwf & Hcap & Hnil & Hc);
    [apply NewRingBuffer_wf; vm_compute; lia|]. exists t. split; [done|].
  rewrite TrackerStatus_judge by (change 4%nat with (rb_cap (NewTracker (Z.to_nat BufferSize))); rewrite <- Hcap; apply Hwf).
  destruct results as [|x results]; [by rewrite (Hnil eq_refl)|]. by rewrite Hc.
Qed.

(** A status that is set is the status that is read, until the next launch. *)
Theorem SetStatus_roundtrip s uid status
    (Hwf : ∀ uid t, s !! uid = Some t → ring_wf t ∧ rb_cap t = 4%nat) :
  ∃ s', HealthSetStatus s uid status = Some s' ∧ (HealthStatus s' uid).2 = status ∧
    ∀ uid', uid' ≠ uid → s' !! uid' = s !! uid'.
Proof.
  assert (rb_cap (trackerFor s uid) = 4%nat) as Hcap.
  { unfold trackerFor. destruct (s !! uid) as [t|] eqn:Ht; [by apply (Hwf uid)|done]. }
  unfold HealthSetStatus. assert (∃ t', TrackerSetStatus (trackerFor s uid) status = Some t' ∧ TrackerStatus t' = status) as (t' & -> & Hst).
  { unfold TrackerSetStatus, RingReset. rewrite Hcap. destruct status; eexists; (split; [reflexivity|vm_compute; reflexivity]). }
  cbn [mbind option_bind]. eexists. split; [done|]. split.
  - unfold HealthStatus, trackerFor. cbn [snd]. by rewrite lookup_insert_eq.
  - intros uid' Hne. by rewrite lookup_insert_ne.
Qed.

(** ** Trying a launch *)

(** A dry run shows what reporting the launch would, as long as the buffer has
    not wrapped around. *)
Theorem DryRun_exact s uid launchStatus
    (Hwf : ∀ uid t, s !! uid = Some t → ring_wf t ∧ rb_cap t = 4%nat) (Hhead : rb_head (trackerFor s uid) = 0%nat) :
  ∃ s1 t s2, DryRun s uid launchStatus = Some (s1, t) ∧ HealthUpdate s uid launchStatus = Some s2 ∧
    TrackerStatus t = (HealthStatus s2 uid).2.
Proof.
  assert (ring_wf (trackerFor s uid) ∧ rb_cap (trackerFor s uid) = 4%nat) as [Hw Hcap].
  { unfold trackerFor. destruct (s !! uid) as [t|] eqn:Ht; [by apply (Hwf uid)|]. split; [apply NewRingBuffer_wf; vm_compute; lia|done]. }
  set (t0 := trackerFor s uid) in *.
  assert (insertAll (NewTracker (Z.to_nat BufferSize)) (Items t0) = Some t0) as Hcopy.
  { destruct (insertAll_contents (NewTracker (Z.to_nat BufferSize)) (Items t0)) as (t & Hrun & _); [apply NewRingBuffer_wf; vm_compute; lia|].
    rewrite Hrun. f_equal. revert Hrun. destruct t0 as [vs h c]. cbn in Hhead, Hcap. subst h c. cbn [Items rb_values].
    pose proof (rw_len _ Hw) as Hlen. cbn in Hlen. clear Hw.
    destruct vs as [|v1 [|v2 [|v3 [|v4 [|v5 vs]]]]]; cbn in Hlen; try (intros [= <-]; reflexivity). lia. }
  unfold DryRun, HealthUpdate, TrackerUpdate. fold t0. rewrite Hcopy. cbn [mbind option_bind].
  destruct (RingInsert_contents t0 launchStatus Hw) as (t1 & -> & _). cbn [mbind option_bind]. do 3 eexists. split_and!; [done|done|].
  unfold HealthStatus, trackerFor. cbn [snd]. by rewrite lookup_insert_eq.
Qed.

(** A tracker that has wrapped around once: the oldest result is the second. *)
Definition wrappedTracker : Tracker := mkRingBuffer [true; false; false; true] 1 4.

(** After a wrap-around the dry run replaces the newest result where reporting
    the launch would replace the oldest: here the pool would be healthy again
    and the dry run says it is not. *)
Theorem DryRun_after_wrap :
  insertAll (NewTracker (Z.to_nat BufferSize)) [true; false; false; true; true] = Some wrappedTracker ∧
  option_map (λ x, TrackerStatus x.2) (DryRun {["pool"%string := wrappedTracker]} "pool" true) = Some StatusUnhealthy ∧
  option_map (λ s, (HealthStatus s "pool").2) (HealthUpdate {["pool"%string := wrappedTracker]} "pool" true) = Some StatusHealthy.
Proof. split_and!; vm_compute; reflexivity. Qed.

(** * Witnesses *)

Lemma SetStatus_roundtrip_witness : ∃ s', HealthSetStatus ∅ "pool" StatusUnhealthy = Some s' ∧ (HealthStatus s' "pool").2 = StatusUnhealthy.
Proof.
  destruct (SetStatus_roundtrip ∅ "pool" StatusUnhealthy) as (s' & Hrun & Hst & _).
  - intros uid t Ht. by rewrite lookup_empty in Ht.
  - by exists s'.
Defined.

Lemma DryRun_exact_witness :
  ∃ s1 t s2, DryRun ∅ "pool" true = Some (s1, t) ∧ HealthUpdate ∅ "pool" true = Some s2 ∧ TrackerStatus t = (HealthStatus s2 "pool").2.
Proof.
  apply (DryRun_exact ∅ "pool" true).
  - intros uid t Ht. by rewrite lookup_empty in Ht.
  - vm_compute. reflexivity.
Defined.
