(* ===== verification/Balanced.v ===== *)
(** * Scoring consolidations

    Model of [pkg/controllers/disruption/balanced.go] and of the scores and
    costs of [types.go]: a move of a pool with the Balanced policy is approved
    when its share of the pool's cost is large enough for its share of the
    pool's disruption.  All of it in IEEE doubles.  Metrics, events and logs are
    left out. *)

From Stdlib Require Import SpecFloat.
From S2P Require Import Prelude Float64 Requirement Kube Taints HostPorts Volumes Requirements Resources InstanceTypes PodUtils StateNode NodeClaim Packing Replacements Consolidation Cost.

Record NodePoolTotals := mkTotals { TotalCost : float64; TotalDisruptionCost : float64 }.

Record ScoreResult := mkScoreResult { SavingsFraction : float64; DisruptionFraction : float64; sr_K : Z }.

#[export] Instance ScoreResult_eq_dec : EqDecision ScoreResult.
Proof. solve_decision. Defined.

Definition BalancedK : Z := 2.

Definition PerNodeBaseDisruptionCost : float64 := fofint 1.

(** ** Scores *)

Definition Score (r : ScoreResult) : float64 :=
  if fleb (SavingsFraction r) (fofint 0) then fofint 0
  else match DisruptionFraction r with
       | S754_zero _ => S754_infinity false
       | _ => fdiv (SavingsFraction r) (DisruptionFraction r)
       end.

Definition Threshold (r : ScoreResult) : float64 := fdiv (fofint 1) (fofint (sr_K r)).

Definition Approved (r : ScoreResult) : bool := fleb (Threshold r) (Score r).

Definition ScoreMove (savings disruptionCost : float64) (totals : NodePoolTotals) (k : Z) : ScoreResult :=
  if fleb (TotalCost totals) (fofint 0) || fleb (TotalDisruptionCost totals) (fofint 0) then mkScoreResult (fofint 0) (fofint 0) k
  else mkScoreResult (fdiv savings (TotalCost totals)) (fdiv disruptionCost (TotalDisruptionCost totals)) k.

Definition IsBalanced (p : ConsolidationPolicy) : bool := match p with Balanced => true | _ => false end.

Section balanced.
Context {LT : LabelTables} {PL : ProviderLabels} {GR : GoRange} {PS : Parsers} {Q : Type} `{Quantity Q} {NI : NetIP} (rand : Z → Z).
Implicit Types (c : Candidate Q) (cands : list (Candidate Q)) (cmd : Command Q) (totals : gmap string NodePoolTotals) (nc : InflightClaim Q).

(** ** Costs of a candidate *)

Definition resolveNodePrice (labels : gmap string string) (instanceType : option (InstanceType Q)) : option float64 :=
  match instanceType with
  | None => Some (fofint 0)
  | Some it =>
      price ← OfferingPrice rand (it_Offerings it) (default ""%string (labels !! LabelTopologyZone)) (default ""%string (labels !! CapacityTypeLabelKey));
      Some (match price with
        | None => fofint 0
        | Some price => if is_nan price then fofint 0 else price
        end)
  end.

Definition computeRescheduleDisruptionCost (reschedulablePods : list Pod) : float64 :=
  foldl (λ cost p, fadd cost (fmax (fofint 0) (EvictionCost p))) PerNodeBaseDisruptionCost reschedulablePods.

Definition SavingsRatio c : float64 := fdiv (cd_Price c) (cd_RescheduleDisruptionCost c).

Definition OwnedByStaticNodePool c : bool := match cp_Replicas (cd_NodePool c) with None => false | Some _ => true end.

Definition IsEmpty c : bool := fleb (cd_RescheduleDisruptionCost c) PerNodeBaseDisruptionCost.

(** ** Costs of a command *)

Definition candidatesOf cands (pool : string) : list (Candidate Q) := with_key (λ c, cp_Name (cd_NodePool c)) cands pool.

Definition PoolDisruptionCost cmd (pool : string) : float64 :=
  match cmd_PoolDisruptionCosts cmd with
  | Some costs => default (fofint 0) (costs !! pool)
  | None => fsum (cd_RescheduleDisruptionCost <$> candidatesOf (cmd_Candidates cmd) pool)
  end.

Definition SourceCost cmd : float64 := sumCandidatePrices (cmd_Candidates cmd).

(** The cheapest available offering of the first option of each replacement,
    compatible with it or not. *)
Definition addDestination (price : float64) nc : float64 :=
  match ic_InstanceTypeOptions nc with
  | [] => price
  | it :: _ => match Cheapest (Available (it_Offerings it)) with None => price | Some o => fadd price (of_Price o) end
  end.

Definition EstimatedSavings cmd : float64 :=
  match cmd_Replacements cmd with
  | [] => SourceCost cmd
  | _ => fsub (SourceCost cmd) (foldl addDestination (fofint 0) (cmd_Replacements cmd))
  end.

(** ** Totals of the pools *)

(** The disruption cost a node adds to its pool: that of its candidate, the last
    of this name. *)
Definition addNodeCost (candidateByName : gmap string (Candidate Q)) (n : StateNode Q) (costs : gmap string float64)
    : option (gmap string float64) :=
  labels ← Labels n;
  match labels !! NodePoolLabelKey with
  | None => Some costs
  | Some pool =>
      name ← Name n;
      let cost := match candidateByName !! name with Some c => cd_RescheduleDisruptionCost c | None => DisruptionCost n end in
      Some (<[pool := fadd (default (fofint 0) (costs !! pool)) cost]> costs)
  end.

Fixpoint addNodeCosts candidateByName (nodes : list (StateNode Q)) (costs : gmap string float64) : option (gmap string float64) :=
  match nodes with
  | [] => Some costs
  | n :: nodes => costs ← addNodeCost candidateByName n costs; addNodeCosts candidateByName nodes costs
  end.

(** The totals of the pools of the candidates. *)
Definition computeNodePoolTotals (allCandidates : list (Candidate Q)) (allNodes : list (StateNode Q))
    (clusterCost : option ClusterCost) : option (gmap string NodePoolTotals) :=
  let candidateByName := foldl (λ m c, <[cd_Name c := c]> m) (∅ : gmap string (Candidate Q)) allCandidates in
  let fallback := foldl (λ m c,
    <[cp_Name (cd_NodePool c) := fadd (default (fofint 0) (m !! cp_Name (cd_NodePool c))) (cd_Price c)]> m) (∅ : gmap string float64) allCandidates in
  disruption ← addNodeCosts candidateByName allNodes ∅;
  Some (map_imap (λ pool cost, Some (mkTotals
    (match clusterCost with
     | None => cost
     | Some cc => let tracked := GetNodepoolCost cc pool in if fltb (fofint 0) tracked then tracked else cost
     end)
    (default (fofint 0) (disruption !! pool)))) fallback).

(** ** Approval *)

Definition poolNames cands : list string := uniq [] (cp_Name ∘ cd_NodePool <$> cands).

(** The score of the move for one pool, [None] for another policy. *)
Definition poolScore cmd totals (pool : string) : option ScoreResult :=
  match candidatesOf (cmd_Candidates cmd) pool with
  | [] => None
  | c :: _ as poolCandidates =>
      if negb (IsBalanced (cp_ConsolidationPolicy (cd_NodePool c))) then None
      else
        let savings := EstimatedSavings cmd in
        let poolCost := sumCandidatePrices poolCandidates in
        let totalCost := SourceCost cmd in
        let poolSavings :=
          if fltb (fofint 0) totalCost && (1 <? length (poolNames (cmd_Candidates cmd)))%nat
          then fmul savings (fdiv poolCost totalCost) else savings in
        Some (ScoreMove poolSavings (PoolDisruptionCost cmd pool) (default (mkTotals (fofint 0) (fofint 0)) (totals !! pool)) BalancedK)
  end.

Definition EvaluateBalancedMove cmd totals : bool * gmap string ScoreResult :=
  match cmd_Candidates cmd with
  | [] => (false, ∅)
  | _ =>
      foldl (λ acc pool,
        match poolScore cmd totals pool with
        | None => acc
        | Some result => (acc.1 && Approved result, <[pool := result]> acc.2)
        end) (true, ∅) (poolNames (cmd_Candidates cmd))
  end.

(** [None] are the totals of the evaluator that approves everything. *)
Definition ApproveCommand (evaluator : option (gmap string NodePoolTotals)) cmd : bool :=
  match evaluator with None => true | Some totals => (EvaluateBalancedMove cmd totals).1 end.

Definition CanPassThreshold (evaluator : option (gmap string NodePoolTotals)) c : bool :=
  match evaluator with
  | None => true
  | Some totals =>
      if negb (IsBalanced (cp_ConsolidationPolicy (cd_NodePool c))) then true
      else match totals !! cp_Name (cd_NodePool c) with
           | None => true
           | Some t => if fleb (TotalCost t) (fofint 0) then true
                       else Approved (ScoreMove (cd_Price c) (cd_RescheduleDisruptionCost c) t BalancedK)
           end
  end.
End balanced.

(** * Theory *)

Lemma elem_of_uniq seen l (x : string) : x ∈ uniq seen l ↔ x ∈ l ∧ x ∉ seen.
Proof.
  revert seen. induction l as [|y l IH]; intros seen; cbn [uniq]; [split; [by intros ?%not_elem_of_nil|by intros [?%not_elem_of_nil _]]|].
  assert (existsb (String.eqb y) seen = true ↔ y ∈ seen) as Hy.
  { rewrite existsb_exists. setoid_rewrite String.eqb_eq. rewrite list_elem_of_In. naive_solver. }
  destruct (existsb (String.eqb y) seen).
  - rewrite IH, elem_of_cons. assert (y ∈ seen) by tauto. split; [tauto|]. intros [[->|?] ?]; [done|done].
  - assert (y ∉ seen) as Hn by (intros Hin; by apply Hy in Hin). rewrite elem_of_cons, IH, !elem_of_cons.
    destruct (decide (x = y)) as [->|]; naive_solver.
Qed.

Lemma NoDup_uniq seen l : NoDup (uniq seen l).
Proof.
  revert seen. induction l as [|y l IH]; intros seen; cbn [uniq]; [constructor|]. destruct (existsb _ _); [done|].
  constructor; [|done]. rewrite elem_of_uniq, elem_of_cons. tauto.
Qed.

Section theory.
Context {LT : LabelTables} {PL : ProviderLabels} {GR : GoRange} {PS : Parsers} {Q : Type} `{Quantity Q} {NI : NetIP}.
Implicit Types (c : Candidate Q) (cands : list (Candidate Q)) (cmd : Command Q) (totals : gmap string NodePoolTotals).

(** The disruption costs a command carries are those of its candidates. *)
Lemma addPoolCost_sum cands costs pool :
  default (fofint 0) (foldl addPoolCost costs cands !! pool) =
  foldl fadd (default (fofint 0) (costs !! pool)) (cd_RescheduleDisruptionCost <$> candidatesOf cands pool).
Proof.
  revert costs. induction cands as [|c cands IH]; intros costs; [done|]. cbn [foldl]. rewrite IH. unfold addPoolCost at 1, candidatesOf, with_key.
  cbn [List.filter]. case_bool_decide as Hp.
  - rewrite <- Hp, lookup_insert_eq. done.
  - by rewrite lookup_insert_ne.
Qed.

Lemma PoolDisruptionCost_cached cands ncs (limit : float64) pool :
  PoolDisruptionCost (mkCommand cands ncs (computePoolDisruptionCosts cands) limit) pool =
  PoolDisruptionCost (mkCommand cands ncs None limit) pool.
Proof.
  unfold PoolDisruptionCost, computePoolDisruptionCosts. cbn [cmd_PoolDisruptionCosts cmd_Candidates]. destruct cands as [|c cands]; [done|].
  rewrite addPoolCost_sum. done.
Qed.

Lemma elem_of_poolNames cands pool : pool ∈ poolNames cands ↔ candidatesOf cands pool ≠ [].
Proof.
  unfold poolNames. rewrite elem_of_uniq, list_elem_of_fmap. split.
  - intros [(c & -> & Hin) _] Hnil. assert (c ∈ candidatesOf cands (cp_Name (cd_NodePool c))) as Hc by (apply elem_of_with_key; done).
    cbn in Hnil. rewrite Hnil in Hc. by apply not_elem_of_nil in Hc.
  - intros Hne. split; [|apply not_elem_of_nil]. destruct (candidatesOf cands pool) as [|c l] eqn:Hc; [done|].
    assert (c ∈ candidatesOf cands pool) as Hin by (rewrite Hc; apply list_elem_of_here). apply elem_of_with_key in Hin as [Hin <-]. by exists c.
Qed.

(** A move is approved exactly when it has candidates and every pool with the
    Balanced policy scores at least the threshold; the scores reported are those
    of these pools. *)
Theorem EvaluateBalancedMove_exact cmd totals :
  let '(approved, perPool) := EvaluateBalancedMove cmd totals in
  (approved = true ↔ cmd_Candidates cmd ≠ [] ∧ ∀ pool r, poolScore cmd totals pool = Some r → fleb (Threshold r) (Score r) = true) ∧
  ∀ pool, perPool !! pool = poolScore cmd totals pool.
Proof.
  unfold EvaluateBalancedMove. destruct (cmd_Candidates cmd) as [|c0 cands0] eqn:Hc.
  { split; [split; [done|by intros [? _]]|]. intros pool. unfold poolScore. by rewrite Hc. }
  rewrite <- Hc.
  assert (∀ pools (acc : bool * gmap string ScoreResult),
    let res := foldl (λ acc pool, match poolScore cmd totals pool with
      | None => acc | Some result => (acc.1 && Approved result, <[pool := result]> acc.2) end) acc pools in
    (res.1 = true ↔ acc.1 = true ∧ ∀ pool r, pool ∈ pools → poolScore cmd totals pool = Some r → Approved r = true) ∧
    ∀ pool, res.2 !! pool = if decide (pool ∈ pools) then match poolScore cmd totals pool with Some r => Some r | None => acc.2 !! pool end
      else acc.2 !! pool) as Hfold.
  { intros pools. induction pools as [|p pools IH]; intros acc; cbn [foldl].
    { split; [split; [intros ?; split; [done|by intros pool r ?%not_elem_of_nil]|by intros [? _]]|]. intros pool. rewrite decide_False; [done|apply not_elem_of_nil]. }
    cbv zeta in IH |- *. destruct (poolScore cmd totals p) as [r|] eqn:Hp.
    - destruct (IH (acc.1 && Approved r, <[p := r]> acc.2)) as [IHa IHb]. cbn [fst snd] in IHa, IHb. split.
      + rewrite IHa, andb_true_iff. setoid_rewrite elem_of_cons. split; [intros [[??] ?]|intros [? Hall]].
        * split; [done|]. intros pool r' [->|?] Hr'; [congruence|eauto].
        * split_and!; [done|by apply (Hall p); [left|]|eauto].
      + intros pool. rewrite IHb. destruct (decide (pool = p)) as [->|Hne].
        * rewrite lookup_insert_eq, Hp, (decide_True (P := p ∈ p :: pools)) by apply list_elem_of_here. by case_decide.
        * rewrite lookup_insert_ne by done. rewrite (decide_ext (pool ∈ pools) (pool ∈ p :: pools)) by (rewrite elem_of_cons; tauto). done.
    - destruct (IH acc) as [IHa IHb]. split.
      + rewrite IHa. setoid_rewrite elem_of_cons. naive_solver congruence.
      + intros pool. rewrite IHb. destruct (decide (pool = p)) as [->|Hne].
        * rewrite Hp. by case_decide; case_decide.
        * rewrite (decide_ext (pool ∈ pools) (pool ∈ p :: pools)) by (rewrite elem_of_cons; tauto). done. }
  specialize (Hfold (poolNames (cmd_Candidates cmd)) (true, ∅)). destruct (foldl _ _ _) as [approved perPool]. cbn [fst snd] in Hfold.
  assert (∀ pool, pool ∉ poolNames (cmd_Candidates cmd) → poolScore cmd totals pool = None) as Hnone.
  { intros pool Hn. rewrite elem_of_poolNames in Hn. unfold poolScore.
    destruct (candidatesOf (cmd_Candidates cmd) pool) as [|c l] eqn:Hl; [done|]. by destruct Hn. }
  destruct Hfold as [Ha Hb]. split.
  - rewrite Ha. split; [intros [_ Hall]|intros [_ Hall]].
    + split; [by rewrite Hc|]. intros pool r Hr. apply (Hall pool r); [|done]. destruct (decide (pool ∈ poolNames (cmd_Candidates cmd))); [done|].
      rewrite Hnone in Hr by done. done.
    + split; [done|]. intros pool r _ Hr. by apply (Hall pool).
  - intros pool. rewrite Hb, lookup_empty. case_decide; [by destruct (poolScore _ _ _)|by rewrite Hnone].
Qed.
Lemma fadd_0_l (p : float64) : p ≠ S754_zero true → fadd (fofint 0) p = p.
Proof. by destruct p as [[]| | |]. Qed.

(** The best case the candidates are filtered by is the deletion of the node: it
    passes exactly when deleting the candidate alone would be approved. *)
Theorem CanPassThreshold_exact totals c t (limit : float64)
    (Hknown : totals !! cp_Name (cd_NodePool c) = Some t) (Hcost : fleb (TotalCost t) (fofint 0) = false)
    (Hprice : cd_Price c ≠ S754_zero true) (Hdis : cd_RescheduleDisruptionCost c ≠ S754_zero true) :
  CanPassThreshold (Some totals) c = ApproveCommand (Some totals) (replaceCommand [c] [] limit).
Proof.
  set (pool := cp_Name (cd_NodePool c)). set (cmd := replaceCommand [c] [] limit).
  assert (candidatesOf [c] pool = [c]) as Hc by (unfold candidatesOf, with_key; cbn; by rewrite bool_decide_eq_true_2).
  assert (poolNames [c] = [pool]) as Hp by done.
  unfold ApproveCommand, EvaluateBalancedMove. cbn [cmd replaceCommand cmd_Candidates]. rewrite Hp. cbn [foldl].
  unfold poolScore, CanPassThreshold. cbn [cmd replaceCommand cmd_Candidates]. rewrite Hc. fold pool in Hknown |- *. rewrite Hknown.
  destruct (IsBalanced _); cbn [negb]; [|done]. rewrite Hcost, Hp. cbn [length Nat.ltb Nat.leb]. rewrite andb_false_r. cbn [fst default].
  unfold EstimatedSavings. cbn [cmd replaceCommand cmd_Replacements]. unfold SourceCost, sumCandidatePrices, fsum. cbn [cmd replaceCommand cmd_Candidates fmap list_fmap foldl].
  rewrite fadd_0_l by done. assert (PoolDisruptionCost cmd pool = cd_RescheduleDisruptionCost c) as ->; [|done].
  unfold cmd, replaceCommand. rewrite PoolDisruptionCost_cached. unfold PoolDisruptionCost. cbn [cmd_PoolDisruptionCosts cmd_Candidates].
  rewrite Hc. unfold fsum. cbn [fmap list_fmap foldl]. by apply fadd_0_l.
Qed.
End theory.

(** * Witnesses *)

Section witnesses.
#[local] Existing Instance karpenterLabels.
#[local] Existing Instance stable_GoSort.
#[local] Existing Instance exampleProvider.
#[local] Existing Instance textIP.

Definition balancedPool : CandidatePool := mkPool "pool" ∅ Balanced (Some 0) None.

Definition balancedCandidate (price disruption : Z) : Candidate Z :=
  mkCandidate "node" "provider-id" ∅ None balancedPool CapacityTypeOnDemand 0 true [] (fofint price) (fofint disruption).

Lemma CanPassThreshold_exact_witness :
  CanPassThreshold (Some {["pool"%string := mkTotals (fofint 10) (fofint 10)]}) (balancedCandidate 1 5) = false ∧
  ApproveCommand (Some {["pool"%string := mkTotals (fofint 10) (fofint 10)]}) (replaceCommand [balancedCandidate 1 5] [] (fofint 0)) = false.
Proof.
  assert (CanPassThreshold (Some {["pool"%string := mkTotals (fofint 10) (fofint 10)]}) (balancedCandidate 1 5) = false) as Hno by (vm_compute; reflexivity).
  split; [exact Hno|]. rewrite <- (CanPassThreshold_exact _ (balancedCandidate 1 5) (mkTotals (fofint 10) (fofint 10))); [exact Hno|..].
  - vm_compute. reflexivity.
  - vm_compute. reflexivity.
  - vm_compute. discriminate.
  - vm_compute. discriminate.
Defined.

(** A replacement that has to be on-demand. *)
Definition onDemandClaim : InflightClaim Z :=
  pin (withOptions flexibleClaim [small]) CapacityTypeLabelKey [CapacityTypeOnDemand].

(** The savings a command is scored by are estimated from offerings its
    replacements may not launch with: here the replacement costs three at best,
    the node it replaces costs two, and the savings are estimated as one. *)
Theorem EstimatedSavings_ignores_requirements :
  cheapestLaunchPrice onDemandClaim = fofint 3 ∧
  SourceCost (replaceCommand [balancedCandidate 2 5] [onDemandClaim] (fofint 0)) = fofint 2 ∧
  EstimatedSavings (replaceCommand [balancedCandidate 2 5] [onDemandClaim] (fofint 0)) = fofint 1.
Proof. split_and!; vm_compute; reflexivity. Qed.
End witnesses.
