(* ===== verification/Matching.v ===== *)
(** * Matching replacements with simulated NodeClaims

    Model of [replacementsMatchSimulation] of
    [pkg/controllers/disruption/validation.go]: Kuhn's augmenting-path search for
    a matching of all replacements.  The table [canSatisfy] is a boolean
    function of the two indices; [matchedTo] is a map in which an index that
    holds -1 in Go is missing, and [visited] the set of the indices that are
    true.  The recursion of [augment] is bounded by fuel, [None] when it runs
    out; the theory shows that one more than the number of NodeClaims is enough. *)

From S2P Require Import Prelude.

Section matching.
Context (canSatisfy : nat → nat → bool) (claims : nat).

(** The loop over the NodeClaims, given the recursive call. *)
Fixpoint augmentLoop (augment : nat → gset nat → gmap nat nat → option (bool * gset nat * gmap nat nat)) (i : nat)
    (js : list nat) (visited : gset nat) (matchedTo : gmap nat nat) : option (bool * gset nat * gmap nat nat) :=
  match js with
  | [] => Some (false, visited, matchedTo)
  | j :: js =>
      if negb (canSatisfy i j) || bool_decide (j ∈ visited) then augmentLoop augment i js visited matchedTo
      else
        let visited := {[j]} ∪ visited in
        match matchedTo !! j with
        | None => Some (true, visited, <[j := i]> matchedTo)
        | Some i' =>
            '(found, visited, matchedTo) ← augment i' visited matchedTo;
            if found : bool then Some (true, visited, <[j := i]> matchedTo)
            else augmentLoop augment i js visited matchedTo
        end
  end.

Fixpoint augment (fuel : nat) (i : nat) (visited : gset nat) (matchedTo : gmap nat nat) : option (bool * gset nat * gmap nat nat) :=
  match fuel with
  | O => None
  | S fuel => augmentLoop (augment fuel) i (seq 0 claims) visited matchedTo
  end.

Fixpoint matchFrom (rows : list nat) (matchedTo : gmap nat nat) : option bool :=
  match rows with
  | [] => Some true
  | i :: rows =>
      '(found, _, matchedTo) ← augment (S claims) i ∅ matchedTo;
      if found : bool then matchFrom rows matchedTo else Some false
  end.

(** For the given number of replacements. *)
Definition replacementsMatch (replacements : nat) : option bool := matchFrom (seq 0 replacements) ∅.

(** * Theory *)

Implicit Types (M : gmap nat nat) (V : gset nat) (i j r : nat).

Definition valid_matching M : Prop := ∀ j r, M !! j = Some r → canSatisfy r j = true ∧ (j < claims)%nat.

(** Outside [V] no row is matched twice; the row is not matched outside [V]. *)
Definition inj_outside M V : Prop :=
  ∀ j1 j2 r, j1 ∉ V → j2 ∉ V → M !! j1 = Some r → M !! j2 = Some r → j1 = j2.

Definition free_outside M V i : Prop := ∀ j, j ∉ V → M !! j ≠ Some i.

(** Outside [V] the matching gained the row and lost none. *)
Record augmented V M i M' : Prop := {
  au_inside : ∀ j, j ∈ V → M' !! j = M !! j;
  au_inj : inj_outside M' V;
  au_valid : valid_matching M';
  au_rows : ∀ r, (∃ j, (j ∉ V) ∧ M' !! j = Some r) ↔ r = i ∨ ∃ j, (j ∉ V) ∧ M !! j = Some r;
}.

Lemma augmented_mono V V1 M i M' :
  V ⊆ V1 → augmented V1 M i M' → inj_outside M V → free_outside M V i → augmented V M i M'.
Proof.
  intros Hsub [Hin Hinj Hval Hrows] HinjM Hfree. split; [set_solver| |done|].
  - assert (∀ j1 j2 r, j1 ∉ V → j1 ∈ V1 → j2 ∉ V1 → M' !! j1 = Some r → M' !! j2 = Some r → False) as Hmix.
    { intros j1 j2 r Hj1 Hj1' Hj2 Hr1 Hr2. rewrite Hin in Hr1 by done.
      destruct (proj1 (Hrows r)) as [->|(j & Hj & Hr)]; [by exists j2|by apply (Hfree j1)|].
      assert (j = j1) as -> by (apply (HinjM j j1 r); set_solver). done. }
    intros j1 j2 r Hj1 Hj2 Hr1 Hr2. destruct (decide (j1 ∈ V1)) as [H1|H1], (decide (j2 ∈ V1)) as [H2|H2].
    + rewrite !Hin in * by done. by apply (HinjM j1 j2 r).
    + destruct (Hmix j1 j2 r); done.
    + destruct (Hmix j2 j1 r); done.
    + by apply (Hinj j1 j2 r).
  - intros r. split.
    + intros (j & Hj & Hr). destruct (decide (j ∈ V1)) as [H1|H1]; [right; exists j; by rewrite <- Hin|].
      destruct (proj1 (Hrows r)) as [->|(j' & Hj' & Hr')]; [by exists j|by left|]. right. exists j'. split; [set_solver|done].
    + intros Hr. assert (r = i ∨ (∃ j, (j ∉ V1) ∧ M !! j = Some r) ∨ ∃ j, (j ∉ V) ∧ j ∈ V1 ∧ M !! j = Some r) as [->|[Hr'|(j & Hj & Hj1 & Hj2)]].
      { destruct Hr as [->|(j & Hj & Hr)]; [by left|]. right. destruct (decide (j ∈ V1)); [right|left]; eauto. }
      * destruct (proj2 (Hrows i)) as (j & Hj & Hji); [by left|]. exists j. split; [set_solver|done].
      * destruct (proj2 (Hrows r)) as (j & Hj & Hji); [by right|]. exists j. split; [set_solver|done].
      * exists j. by rewrite Hin.
Qed.

(** Taking a free NodeClaim, or one whose row found another. *)
Lemma augmented_free V M i j :
  j ∉ V → M !! j = None → canSatisfy i j = true → (j < claims)%nat → inj_outside M V → valid_matching M → free_outside M V i →
  augmented V M i (<[j := i]> M).
Proof.
  intros Hj Hnone Hcan Hlt Hinj Hval Hfree. split.
  - intros x Hx. by rewrite lookup_insert_ne by set_solver.
  - intros j1 j2 r H1 H2 Hr1 Hr2. rewrite lookup_insert_Some in Hr1. rewrite lookup_insert_Some in Hr2.
    destruct Hr1 as [[<- <-]|[N1 Hr1]], Hr2 as [[<- Hr2]|[N2 Hr2]]; [done|by destruct (Hfree j2 H2)|subst; by destruct (Hfree j1 H1)|by apply (Hinj j1 j2 r)].
  - intros x r. rewrite lookup_insert_Some. intros [[<- <-]|[_ Hr]]; [done|by apply Hval].
  - intros r. setoid_rewrite lookup_insert_Some. split.
    + intros (x & Hx & [[_ <-]|[_ Hr]]); [by left|right; eauto].
    + intros [->|(x & Hx & Hr)]; [exists j; eauto|]. exists x. split; [done|]. right. split; [congruence|done].
Qed.

Lemma augmented_steal V M i j i' M1 :
  j ∉ V → M !! j = Some i' → canSatisfy i j = true → (j < claims)%nat → free_outside M V i →
  augmented ({[j]} ∪ V) M i' M1 → augmented V M i (<[j := i]> M1).
Proof.
  intros Hj Hji Hcan Hlt Hfree [Hin Hinj Hval Hrows].
  assert (∀ x, x ∉ V → x ≠ j → M1 !! x = Some i → False) as Hno.
  { intros x Hx Hne Hxi. destruct (proj1 (Hrows i)) as [->|(y & Hy & Hyi)]; [exists x; split; [set_solver|done]| |].
    - by apply (Hfree j).
    - apply (Hfree y); [set_solver|done]. }
  split.
  - intros x Hx. rewrite lookup_insert_ne by set_solver. apply Hin. set_solver.
  - intros j1 j2 r H1 H2 Hr1 Hr2. rewrite lookup_insert_Some in Hr1. rewrite lookup_insert_Some in Hr2.
    destruct Hr1 as [[<- <-]|[N1 Hr1]], Hr2 as [[<- Hr2]|[N2 Hr2]]; [done|by destruct (Hno j2)|subst; by destruct (Hno j1)|].
    apply (Hinj j1 j2 r); [set_solver|set_solver|done|done].
  - intros x r. rewrite lookup_insert_Some. intros [[<- <-]|[_ Hr]]; [done|by apply Hval].
  - intros r. setoid_rewrite lookup_insert_Some. split.
    + intros (x & Hx & [[_ <-]|[Hne Hr]]); [by left|]. right.
      destruct (proj1 (Hrows r)) as [->|(y & Hy & Hyr)]; [exists x; split; [set_solver|done]|by exists j|]. exists y. split; [set_solver|done].
    + intros [->|(x & Hx & Hr)]; [exists j; eauto|].
      destruct (proj2 (Hrows r)) as (y & Hy & Hyr).
      { destruct (decide (x = j)) as [->|Hne]; [left; congruence|]. right. exists x. split; [set_solver|done]. }
      exists y. split; [set_solver|]. right. split; [set_solver|done].
Qed.

(** What a search leaves behind: more visited NodeClaims, an augmented matching
    on success, and on failure the same matching with everything the visited
    rows could be matched to visited. *)
Definition searched V M i (js : list nat) (b : bool) V' M' : Prop :=
  V ⊆ V' ∧ (∀ j, j ∈ V' → (j < claims)%nat) ∧
  if b then augmented V M i M'
  else M' = M ∧ (∀ j, j ∈ js → canSatisfy i j = true → j ∈ V') ∧
    ∀ j, j ∈ V' → j ∉ V → ∃ r, M !! j = Some r ∧ ∀ j', (j' < claims)%nat → canSatisfy r j' = true → j' ∈ V'.

Definition unvisited V : nat := (claims - size V)%nat.

Lemma visited_size V : (∀ j, j ∈ V → (j < claims)%nat) → (size V <= claims)%nat.
Proof.
  intros Hlt. assert (V ⊆ list_to_set (seq 0 claims)) as Hsub.
  { intros j Hj. apply elem_of_list_to_set, elem_of_seq. specialize (Hlt j Hj). lia. }
  apply subseteq_size in Hsub. rewrite size_list_to_set, length_seq in Hsub by apply NoDup_seq. done.
Qed.

Lemma augmentLoop_ok call fuel i js V M :
  (∀ i V M, inj_outside M ∅ → valid_matching M → free_outside M V i → (∀ j, j ∈ V → (j < claims)%nat) → (unvisited V < fuel)%nat →
     ∃ b V' M', call i V M = Some (b, V', M') ∧ searched V M i (seq 0 claims) b V' M') →
  inj_outside M ∅ → valid_matching M → free_outside M V i → (∀ j, j ∈ V → (j < claims)%nat) → (unvisited V < S fuel)%nat →
  (∀ j, j ∈ js → (j < claims)%nat) →
  ∃ b V' M', augmentLoop call i js V M = Some (b, V', M') ∧ searched V M i js b V' M'.
Proof.
  intros Hcall Hinj Hval. revert V. induction js as [|j js IH]; intros V Hfree HV Hfuel Hjs; cbn [augmentLoop].
  { exists false, V, M. split; [done|]. unfold searched. split_and!; [done|done|done|by intros j ?%not_elem_of_nil|done]. }
  assert (∀ j', j' ∈ js → (j' < claims)%nat) as Hjs' by (intros; apply Hjs; by apply list_elem_of_further).
  assert ((j < claims)%nat) as Hjlt by (apply Hjs, list_elem_of_here).
  assert (inj_outside M V) as HinjV by (intros j1 j2 r _ _; apply Hinj; set_solver).
  destruct (negb (canSatisfy i j) || bool_decide (j ∈ V)) eqn:Hskip.
  { destruct (IH V Hfree HV Hfuel Hjs') as (b & V' & M' & Hrun & Hs & Hlt & Hb). exists b, V', M'. split; [done|].
    split_and!; [done|done|]. destruct b; [done|]. destruct Hb as (-> & Hadj & Hex). split_and!; [done| |done].
    intros j' [->|Hin]%elem_of_cons Hc; [|by apply Hadj]. rewrite Hc in Hskip. cbn in Hskip. apply bool_decide_eq_true in Hskip. set_solver. }
  apply orb_false_iff in Hskip as [Hcan%negb_false_iff HjV%bool_decide_eq_false].
  assert (∀ x, x ∈ {[j]} ∪ V → (x < claims)%nat) as HV1 by set_solver.
  assert (size ({[j]} ∪ V) = S (size V)) as Hsz by (rewrite size_union by set_solver; by rewrite size_singleton).
  pose proof (visited_size _ HV1) as Hle. rewrite Hsz in Hle.
  destruct (M !! j) as [i'|] eqn:Hj.
  2:{ exists true, ({[j]} ∪ V), (<[j := i]> M). split; [done|]. split_and!; [set_solver|done|]. by apply augmented_free. }
  destruct (Hcall i' ({[j]} ∪ V) M) as (b & V1 & M1 & Hrun & Hs1 & Hlt1 & Hb1); [done|done| |done|unfold unvisited in *; lia|].
  { intros x Hx Hxi. assert (x = j) as -> by (apply (Hinj x j i'); set_solver). set_solver. }
  rewrite Hrun. cbn [mbind option_bind]. destruct b.
  { exists true, V1, (<[j := i]> M1). split; [done|]. split_and!; [set_solver|done|]. by apply (augmented_steal V M i j i' M1). }
  destruct Hb1 as (-> & Hadj1 & Hex1).
  assert (free_outside M V1 i) as Hfree1 by (intros x Hx; apply Hfree; set_solver).
  assert (unvisited V1 < S fuel)%nat as Hf1 by (apply subseteq_size in Hs1; unfold unvisited in *; lia).
  destruct (IH V1 Hfree1 Hlt1 Hf1 Hjs') as (b & V2 & M2 & Hrun2 & Hs2 & Hlt2 & Hb2). exists b, V2, M2. split; [done|].
  split_and!; [set_solver|done|]. destruct b; [by apply (augmented_mono V V1); [set_solver|..]|].
  destruct Hb2 as (-> & Hadj2 & Hex2). split_and!; [done| |].
  - intros j' [->|Hin]%elem_of_cons Hc; [set_solver|by apply Hadj2].
  - intros x Hx HxV. destruct (decide (x ∈ V1)) as [Hx1|Hx1]; [|by apply Hex2].
    destruct (decide (x = j)) as [->|Hne].
    + exists i'. split; [done|]. intros j' Hj' Hc. apply Hs2, Hadj1; [|done]. apply elem_of_seq. lia.
    + destruct (Hex1 x Hx1) as (r & Hr & Hall); [set_solver|]. exists r. split; [done|]. intros j' Hj' Hc. by apply Hs2, Hall.
Qed.

Lemma augment_ok fuel i V M :
  inj_outside M ∅ → valid_matching M → free_outside M V i → (∀ j, j ∈ V → (j < claims)%nat) → (unvisited V < fuel)%nat →
  ∃ b V' M', augment fuel i V M = Some (b, V', M') ∧ searched V M i (seq 0 claims) b V' M'.
Proof.
  revert i V M. induction fuel as [|fuel IH]; intros i V M Hinj Hval Hfree HV Hfuel; [lia|]. cbn [augment].
  eapply (augmentLoop_ok (augment fuel) fuel); try done. intros j [_ Hj]%elem_of_seq. lia.
Qed.

(** A choice of a different NodeClaim for each row. *)
Definition assigns (f : nat → nat) (rows : list nat) : Prop :=
  (∀ i, i ∈ rows → (f i < claims)%nat ∧ canSatisfy i (f i) = true) ∧
  ∀ i i', i ∈ rows → i' ∈ rows → f i = f i' → i = i'.

(** A row that cannot be matched leaves more rows than NodeClaims for them. *)
Lemma stuck_no_assignment M i V rows f :
  inj_outside M ∅ → (∀ j r, M !! j = Some r → r ∈ rows) → free_outside M ∅ i → i ∈ rows →
  (∀ j, (j < claims)%nat → canSatisfy i j = true → j ∈ V) →
  (∀ j, j ∈ V → ∃ r, M !! j = Some r ∧ ∀ j', (j' < claims)%nat → canSatisfy r j' = true → j' ∈ V) →
  assigns f rows → False.
Proof.
  intros Hinj Hrows Hfree Hi Hadj Hex [Hf Hfinj]. set (row j := default 0%nat (M !! j)). set (js := elements V).
  assert (∀ j, j ∈ js → M !! j = Some (row j)) as Hrow.
  { intros j Hj. apply elem_of_elements in Hj. destruct (Hex j Hj) as (r & Hr & _). unfold row. by rewrite Hr. }
  set (rs := i :: (row <$> js)).
  assert (NoDup rs) as Hnd.
  { constructor.
    - intros (j & Hj & Hin)%list_elem_of_fmap. apply (Hfree j); [set_solver|]. by rewrite Hj, Hrow.
    - apply NoDup_fmap_2_strong; [|apply NoDup_elements]. intros j1 j2 H1 H2 Heq.
      apply (Hinj j1 j2 (row j1)); [set_solver|set_solver|by apply Hrow|rewrite Heq; by apply Hrow]. }
  assert (∀ r, r ∈ rs → r ∈ rows ∧ f r ∈ js) as Hin.
  { intros r [->|(j & -> & Hj)%list_elem_of_fmap]%elem_of_cons.
    - split; [done|]. apply elem_of_elements. destruct (Hf i Hi). by apply Hadj.
    - pose proof (Hrow j Hj) as Hr. assert (row j ∈ rows) as Hrr by (by apply (Hrows j)). split; [done|].
      apply elem_of_elements in Hj. destruct (Hex j Hj) as (r & Hr' & Hall). assert (r = row j) as -> by congruence.
      apply elem_of_elements. destruct (Hf (row j) Hrr). by apply Hall. }
  assert (NoDup (f <$> rs)) as Hndf.
  { apply NoDup_fmap_2_strong; [|done]. intros r1 r2 H1 H2. apply Hfinj; by apply Hin. }
  assert (f <$> rs ⊆+ js) as Hsub.
  { apply NoDup_submseteq; [done|]. intros x (r & -> & Hr)%list_elem_of_fmap. by apply Hin. }
  apply submseteq_length in Hsub. rewrite length_fmap in Hsub. cbn [rs length] in Hsub. rewrite length_fmap in Hsub. lia.
Qed.

(** The rows matched so far, and the rest. *)
Lemma matchFrom_ok rows done M :
  inj_outside M ∅ → valid_matching M → (∀ r, (∃ j, M !! j = Some r) ↔ r ∈ done) → NoDup (done ++ rows) →
  ∃ b, matchFrom rows M = Some b ∧ (b = true ↔ ∃ f, assigns f (done ++ rows)).
Proof.
  revert done M. induction rows as [|i rows IH]; intros done M Hinj Hval Hdone Hnd; cbn [matchFrom].
  - exists true. split; [done|]. split; [intros _|done]. rewrite app_nil_r.
    set (back := (list_to_map (prod_swap <$> map_to_list M) : gmap nat nat)).
    assert (∀ r, r ∈ done → ∃ j, back !! r = Some j ∧ M !! j = Some r) as Hback.
    { intros r Hr. apply Hdone in Hr as (j & Hj). exists j. split; [|done]. unfold back. apply elem_of_list_to_map_1'.
      - intros j' Hj'. apply list_elem_of_fmap in Hj' as ([x y] & Heq & Hxy%elem_of_map_to_list). injection Heq as -> ->.
        apply (Hinj j x y); [set_solver|set_solver|done|done].
      - apply list_elem_of_fmap. exists (j, r). split; [done|]. by apply elem_of_map_to_list. }
    exists (λ r, default 0%nat (back !! r)). split.
    + intros r Hr. destruct (Hback r Hr) as (j & -> & Hj). cbn. destruct (Hval j r Hj). done.
    + intros r r' Hr Hr'. destruct (Hback r Hr) as (j & -> & Hj), (Hback r' Hr') as (j' & -> & Hj'). cbn. intros ->. congruence.
  - assert (i ∉ done) as Hni by (apply NoDup_app in Hnd as (_ & Hd & _); intros Hin; apply (Hd i Hin), list_elem_of_here).
    assert (free_outside M ∅ i) as Hfree by (intros j _ Hj; apply Hni, Hdone; by exists j).
    destruct (augment_ok (S claims) i ∅ M) as (b & V & M' & Hrun & _ & Hlt & Hb); [done|done|done|set_solver|unfold unvisited; lia|].
    rewrite Hrun. cbn [mbind option_bind]. destruct b.
    + destruct Hb as [_ Hinj' Hval' Hrows]. destruct (IH (done ++ [i]) M') as (b & Hb & Hiff); [done|done| |by rewrite <- app_assoc|].
      { intros r. rewrite elem_of_app, list_elem_of_singleton, <- Hdone. specialize (Hrows r). split.
        - intros (j & Hj). destruct (proj1 Hrows) as [->|(j' & _ & Hj')]; [exists j; split; [set_solver|done]|by right|left; by exists j'].
        - intros Hr. destruct (proj2 Hrows) as (j & _ & Hj); [|by exists j]. destruct Hr as [(j & Hj)| ->]; [right; exists j; split; [set_solver|done]|by left]. }
      exists b. split; [done|]. by rewrite Hiff, <- app_assoc.
    + exists false. split; [done|]. split; [done|]. intros (f & Hf). destruct Hb as (-> & Hadj & Hex). exfalso.
      apply (stuck_no_assignment M i V (done ++ i :: rows) f Hinj); [|done| | | |done].
      * intros j r Hj. apply elem_of_app. left. apply Hdone. by exists j.
      * apply elem_of_app. right. apply list_elem_of_here.
      * intros j Hj Hc. apply Hadj; [|done]. apply elem_of_seq. lia.
      * intros j Hj. apply Hex; [done|set_solver].
Qed.

(** The search always ends, and it finds a matching of all replacements exactly
    when one exists. *)
Theorem replacementsMatch_exact replacements :
  ∃ b, replacementsMatch replacements = Some b ∧
    (b = true ↔ ∃ f, (∀ i, (i < replacements)%nat → (f i < claims)%nat ∧ canSatisfy i (f i) = true) ∧
       ∀ i i', (i < replacements)%nat → (i' < replacements)%nat → f i = f i' → i = i').
Proof.
  destruct (matchFrom_ok (seq 0 replacements) [] ∅) as (b & Hrun & Hb).
  - intros j1 j2 r _ _. by rewrite lookup_empty.
  - intros j r. by rewrite lookup_empty.
  - intros r. split; [intros (j & Hj); by rewrite lookup_empty in Hj|by intros ?%not_elem_of_nil].
  - apply NoDup_seq.
  - exists b. split; [done|]. rewrite Hb. cbn [app]. unfold assigns. setoid_rewrite elem_of_seq.
    split; intros (f & H1 & H2); exists f; (split; [intros i Hi; apply H1; lia|intros i i' Hi Hi'; apply H2; lia]).
Qed.
End matching.
