(* ===== verification/Validation.v ===== *)
(** * Validating a command

    Model of [pkg/controllers/disruption/validation.go] with the helpers
    [mapCandidates] and [instanceTypesAreSubset] of [helpers.go]: before a command
    is carried out, its candidates are looked up again, checked against the
    disruption budgets, and for consolidations the scheduling is simulated once
    more and compared with the replacements of the command.  What is read from
    the cluster in between is the interface [Revalidation]; every read may find
    the world changed.  Metrics are left out. *)

From Stdlib Require Import SpecFloat.
From S2P Require Import Prelude Float64 Requirement Kube Taints HostPorts Requirements Resources InstanceTypes PodUtils NodeClaim Packing Replacements Consolidation Matching.

Inductive ValidationFailure := ChurnFailure | BudgetFailure | SchedulingFailure | NoCandidates.

#[export] Instance ValidationFailure_eq_dec : EqDecision ValidationFailure.
Proof. solve_decision. Defined.

(** A validation error, or another one. *)
Inductive ValidateError := Invalid (f : ValidationFailure) | Broken.

(** A NodeClaim with the identity of the NodePool its template was made from. *)
Record Launch (Q : Type) `{NetIP} := mkLaunch {
  la_claim : InflightClaim Q;
  la_NodePoolUUID : string;
  la_Hash : string;
  la_HashVersion : string;
}.
Arguments mkLaunch {Q _}.
Arguments la_claim {Q _}.
Arguments la_NodePoolUUID {Q _}.
Arguments la_Hash {Q _}.
Arguments la_HashVersion {Q _}.

Inductive Resimulation (Q : Type) `{NetIP} :=
  | ResimulationError
  | Resimulated (allNonPendingPodsScheduled : bool) (newNodeClaims : list (Launch Q)).
Arguments ResimulationError {Q _}.
Arguments Resimulated {Q _}.

Class Revalidation (W Q : Type) `{NetIP} := {
  waitFor : W → Z → W * bool;                                   (* whether it was interrupted *)
  GetCandidates : W → W * option (list (Candidate Q));          (* filtered by the method *)
  currentBudgets : W → W * option (gmap string Z);              (* BuildDisruptionBudgetMapping for its reason *)
  IsNodeNominated : W → string → bool;
  resimulate : W → float64 → list (Candidate Q) → W * Resimulation Q;
}.

Section validation.
Context {LT : LabelTables} {PL : ProviderLabels} {Q W : Type} `{Quantity Q} {NI : NetIP} {RV : Revalidation W Q}.
Implicit Types (c : Candidate Q) (cands : list (Candidate Q)) (r l : Launch Q) (w : W) (budget : gmap string Z).

(** ** Candidates *)

Definition mapCandidates (proposed current : list (Candidate Q)) : list (Candidate Q) :=
  List.filter (λ c, existsb (String.eqb (cd_Name c)) (cd_Name <$> proposed)) current.

Definition poolBudget budget c : Z := default 0 (budget !! cp_Name (cd_NodePool c)).
Definition spendBudget budget c : gmap string Z := <[cp_Name (cd_NodePool c) := poolBudget budget c - 1]> budget.

(** The candidates the validator of empty nodes keeps. *)
Fixpoint keepWithinBudget w budget cands : list (Candidate Q) :=
  match cands with
  | [] => []
  | c :: cands =>
      if IsNodeNominated w (cd_ProviderID c) then keepWithinBudget w budget cands
      else if poolBudget budget c =? 0 then keepWithinBudget w budget cands
      else c :: keepWithinBudget w (spendBudget budget c) cands
  end.

(** For consolidation all or nothing. *)
Fixpoint allWithinBudget w budget cands : bool :=
  match cands with
  | [] => true
  | c :: cands =>
      if IsNodeNominated w (cd_ProviderID c) then false
      else if poolBudget budget c =? 0 then false
      else allWithinBudget w (spendBudget budget c) cands
  end.

(** [EmptinessValidator.validateCandidates] *)
Definition validateEmptyCandidates w cands : W * (ValidateError + list (Candidate Q)) :=
  match GetCandidates w with
  | (w, None) => (w, inl Broken)
  | (w, Some current) =>
      match mapCandidates cands current with
      | [] => (w, inl (Invalid ChurnFailure))
      | validated =>
          match currentBudgets w with
          | (w, None) => (w, inl Broken)
          | (w, Some budget) =>
              match keepWithinBudget w budget validated with
              | [] => (w, inl (Invalid BudgetFailure))
              | valid => (w, inr valid)
              end
          end
      end
  end.

(** [ConsolidationValidator.validateCandidates] *)
Definition validateCandidates w cands : W * (ValidateError + list (Candidate Q)) :=
  match GetCandidates w with
  | (w, None) => (w, inl Broken)
  | (w, Some current) =>
      let validated := mapCandidates cands current in
      if negb (length validated =? length cands)%nat then (w, inl (Invalid ChurnFailure))
      else match currentBudgets w with
           | (w, None) => (w, inl Broken)
           | (w, Some budget) =>
               if allWithinBudget w budget validated then (w, inr validated) else (w, inl (Invalid BudgetFailure))
           end
  end.

(** ** Replacements *)

Definition taintsAreEqual (lhs rhs : list Taint) : bool :=
  (length lhs =? length rhs)%nat &&
  forallb (λ t, existsb (λ other, String.eqb (tn_Key t) (tn_Key other) && bool_decide (tn_Effect t = tn_Effect other)
    && String.eqb (tn_Value t) (tn_Value other)) rhs) lhs.

Definition itNames (its : list (InstanceType Q)) : gset string := list_to_set (it_Name <$> its).

Definition instanceTypesAreSubset (lhs rhs : list (InstanceType Q)) : bool :=
  (size (itNames rhs ∩ itNames lhs) =? size (itNames lhs))%nat.

Definition replacementMatchesSimulatedNodeClaim r l : bool :=
  String.eqb (ic_NodePoolName (la_claim r)) (ic_NodePoolName (la_claim l)) && String.eqb (la_NodePoolUUID r) (la_NodePoolUUID l) &&
  (String.eqb (la_Hash r) (la_Hash l) && String.eqb (la_HashVersion r) (la_HashVersion l)) &&
  taintsAreEqual (ic_Taints (la_claim r)) (ic_Taints (la_claim l)) &&
  forallb (λ key, String.eqb key ReservationIDLabel ||
    SubsetOf (Get (ic_Requirements (la_claim r)) key) (Get (ic_Requirements (la_claim l)) key)) (elements (dom (ic_Requirements (la_claim l)))) &&
  instanceTypesAreSubset (ic_InstanceTypeOptions (la_claim r)) (ic_InstanceTypeOptions (la_claim l)).

Definition canSatisfy (rs ls : list (Launch Q)) (i j : nat) : bool :=
  match rs !! i, ls !! j with Some r, Some l => replacementMatchesSimulatedNodeClaim r l | _, _ => false end.

(** [None] when the fuel of the search runs out, which it does not. *)
Definition replacementsMatchSimulation (rs ls : list (Launch Q)) : option bool :=
  replacementsMatch (canSatisfy rs ls) (length ls) (length rs).

(** ** Commands *)

Definition validateCommand w (rs : list (Launch Q)) (newCapacityPriceLimit : float64) cands : W * (ValidateError + ()) :=
  match cands with
  | [] => (w, inl (Invalid NoCandidates))
  | _ =>
      match resimulate w newCapacityPriceLimit cands with
      | (w, ResimulationError) => (w, inl Broken)
      | (w, Resimulated false _) => (w, inl (Invalid SchedulingFailure))
      | (w, Resimulated true ls) =>
          (w, if (length ls =? 0)%nat then match rs with [] => inr () | _ => inl (Invalid SchedulingFailure) end
              else if negb (length ls =? length rs)%nat then inl (Invalid SchedulingFailure)
              else if default false (replacementsMatchSimulation rs ls) then inr () else inl (Invalid SchedulingFailure))
      end
  end.

(** [ConsolidationValidator.isValid], for the replacements and candidates of the
    command *)
Definition isValid w (rs : list (Launch Q)) (newCapacityPriceLimit : float64) cands (validationPeriod : Z) : W * (ValidateError + ()) :=
  let '(w, interrupted) := if 0 <? validationPeriod then waitFor w validationPeriod else (w, false) in
  if interrupted : bool then (w, inl Broken)
  else match validateCandidates w cands with
       | (w, inl err) => (w, inl err)
       | (w, inr validated) =>
           match validateCommand w rs newCapacityPriceLimit validated with
           | (w, inl err) => (w, inl err)
           | (w, inr _) =>
               match validateCandidates w validated with
               | (w, inl err) => (w, inl err)
               | (w, inr _) => (w, inr ())
               end
           end
       end.

(** [EmptinessValidator.Validate] *)
Definition ValidateEmpty w (cmd : Command Q) (validationPeriod : Z) : W * (ValidateError + Command Q) :=
  let '(w, interrupted) := if 0 <? validationPeriod then waitFor w validationPeriod else (w, false) in
  if interrupted : bool then (w, inl Broken)
  else match validateEmptyCandidates w (cmd_Candidates cmd) with
       | (w, inl err) => (w, inl err)
       | (w, inr valid) => (w, inr (mkCommand valid (cmd_Replacements cmd) (cmd_PoolDisruptionCosts cmd) (cmd_NewCapacityPriceLimit cmd)))
       end.
End validation.

(** * Theory *)

Section theory.
Context {LT : LabelTables} {LTok : LabelTablesOk} {PL : ProviderLabels} {Q W : Type} `{Quantity Q} {NI : NetIP} {RV : Revalidation W Q}.
Implicit Types (c : Candidate Q) (cands : list (Candidate Q)) (r l : Launch Q) (rs ls : list (Launch Q)) (w : W) (budget : gmap string Z) (pool : string).

(** ** Budgets *)

Definition poolCount cands pool : Z := Z.of_nat (length (with_key (λ c, cp_Name (cd_NodePool c)) cands pool)).

Lemma poolCount_cons c cands pool :
  poolCount (c :: cands) pool = poolCount cands pool + if decide (cp_Name (cd_NodePool c) = pool) then 1 else 0.
Proof.
  unfold poolCount, with_key. cbn [List.filter]. destruct (decide (cp_Name (cd_NodePool c) = pool)) as [Hp|Hp].
  - rewrite bool_decide_eq_true_2 by done. cbn. lia.
  - rewrite bool_decide_eq_false_2 by done. lia.
Qed.

Definition nonneg_budget budget : Prop := ∀ pool, 0 <= default 0 (budget !! pool).

Lemma spendBudget_lookup budget c pool :
  default 0 (spendBudget budget c !! pool) = default 0 (budget !! pool) - if decide (cp_Name (cd_NodePool c) = pool) then 1 else 0.
Proof.
  unfold spendBudget, poolBudget. destruct (decide (cp_Name (cd_NodePool c) = pool)) as [<-|Hne]; [by rewrite lookup_insert_eq|].
  rewrite lookup_insert_ne by done. lia.
Qed.

Lemma spendBudget_nonneg budget c : nonneg_budget budget → poolBudget budget c ≠ 0 → nonneg_budget (spendBudget budget c).
Proof.
  intros Hb Hne pool. rewrite spendBudget_lookup. specialize (Hb pool). unfold poolBudget in Hne. case_decide as Hp; [|lia]. subst pool. lia.
Qed.

Lemma allWithinBudget_ok w budget cands :
  allWithinBudget w budget cands = true → nonneg_budget budget →
  (∀ c, c ∈ cands → IsNodeNominated w (cd_ProviderID c) = false) ∧ ∀ pool, poolCount cands pool <= default 0 (budget !! pool).
Proof.
  revert budget. induction cands as [|c cands IH]; intros budget; cbn [allWithinBudget].
  { intros _ Hb. split; [by intros c ?%not_elem_of_nil|]. intros pool. specialize (Hb pool). done. }
  destruct (IsNodeNominated w (cd_ProviderID c)) eqn:Hn; [done|]. destruct (poolBudget budget c =? 0) eqn:Hz; [done|]. destruct_bools.
  intros Hall Hb. destruct (IH _ Hall (spendBudget_nonneg budget c Hb Hz)) as [Hnom Hcount]. split.
  - intros c' [->|Hin]%elem_of_cons; [done|by apply Hnom].
  - intros pool. rewrite poolCount_cons. specialize (Hcount pool). rewrite spendBudget_lookup in Hcount. case_decide; lia.
Qed.

Lemma keepWithinBudget_ok w budget cands :
  nonneg_budget budget →
  sublist (keepWithinBudget w budget cands) cands ∧
  (∀ c, c ∈ keepWithinBudget w budget cands → IsNodeNominated w (cd_ProviderID c) = false) ∧
  ∀ pool, poolCount (keepWithinBudget w budget cands) pool <= default 0 (budget !! pool).
Proof.
  revert budget. induction cands as [|c cands IH]; intros budget Hb; cbn [keepWithinBudget].
  { split_and!; [done|by intros c ?%not_elem_of_nil|intros pool; specialize (Hb pool); done]. }
  destruct (IsNodeNominated w (cd_ProviderID c)) eqn:Hn.
  { destruct (IH budget Hb) as (Hs & ? & ?). split_and!; [by constructor|done|done]. }
  destruct (poolBudget budget c =? 0) eqn:Hz; destruct_bools.
  { destruct (IH budget Hb) as (Hs & ? & ?). split_and!; [by constructor|done|done]. }
  destruct (IH _ (spendBudget_nonneg budget c Hb Hz)) as (Hs & Hnom & Hcount). split_and!; [by constructor| |].
  - intros c' [->|Hin]%elem_of_cons; [done|by apply Hnom].
  - intros pool. rewrite poolCount_cons. specialize (Hcount pool). rewrite spendBudget_lookup in Hcount. case_decide; lia.
Qed.

Lemma elem_of_mapCandidates proposed current c :
  c ∈ mapCandidates proposed current ↔ c ∈ current ∧ cd_Name c ∈ cd_Name <$> proposed.
Proof.
  unfold mapCandidates. rewrite elem_of_filter_list, existsb_exists. setoid_rewrite String.eqb_eq. setoid_rewrite <- list_elem_of_In. naive_solver.
Qed.

(** The candidates, found again, may all be disrupted. *)
Definition disruptable_now w cands (w' : W) (found : list (Candidate Q)) : Prop :=
  ∃ w0 current budget, GetCandidates w = (w0, Some current) ∧ currentBudgets w0 = (w', Some budget) ∧
    length found = length cands ∧
    (∀ c, c ∈ found → c ∈ current ∧ cd_Name c ∈ cd_Name <$> cands ∧ IsNodeNominated w' (cd_ProviderID c) = false) ∧
    ∀ pool, poolCount found pool <= default 0 (budget !! pool).

Definition budgets_nonneg : Prop := ∀ w w' budget, currentBudgets w = (w', Some budget) → nonneg_budget budget.

Lemma validateCandidates_ok w cands w' found :
  budgets_nonneg → validateCandidates w cands = (w', inr found) → disruptable_now w cands w' found.
Proof.
  intros Hnn. unfold validateCandidates. destruct (GetCandidates w) as [w0 [current|]] eqn:Hg; [|done].
  destruct (negb _) eqn:Hlen; [done|]. destruct (currentBudgets w0) as [w1 [budget|]] eqn:Hb; [|done].
  destruct (allWithinBudget w1 budget (mapCandidates cands current)) eqn:Hall; [|done]. intros [= <- <-]. apply negb_false_iff, Nat.eqb_eq in Hlen.
  destruct (allWithinBudget_ok _ _ _ Hall (Hnn _ _ _ Hb)) as [Hnom Hcount]. exists w0, current, budget. split_and!; [done|done|done| |done].
  intros c Hc. pose proof Hc as [? ?]%elem_of_mapCandidates. auto.
Qed.

(** ** Replacements *)

Lemma instanceTypesAreSubset_iff (lhs rhs : list (InstanceType Q)) :
  instanceTypesAreSubset lhs rhs = true ↔ itNames lhs ⊆ itNames rhs.
Proof.
  unfold instanceTypesAreSubset. rewrite Nat.eqb_eq. split.
  - intros Hsz. assert (itNames rhs ∩ itNames lhs = itNames lhs) as Heq; [|set_solver].
    apply set_subseteq_size_eq; [set_solver|lia].
  - intros Hsub. f_equal. set_solver.
Qed.

(** A replacement launches nothing the simulated NodeClaim would not. *)
Record stands_in r l : Prop := {
  si_pool : ic_NodePoolName (la_claim r) = ic_NodePoolName (la_claim l) ∧ la_NodePoolUUID r = la_NodePoolUUID l;
  si_hash : la_Hash r = la_Hash l ∧ la_HashVersion r = la_HashVersion l;
  si_taints : ∀ t, t ∈ ic_Taints (la_claim r) → t ∈ ic_Taints (la_claim l);
  si_options : itNames (ic_InstanceTypeOptions (la_claim r)) ⊆ itNames (ic_InstanceTypeOptions (la_claim l));
  si_reqs : ∀ k v, k ≠ ReservationIDLabel → allows (ic_Requirements (la_claim r)) k v = true → allows (ic_Requirements (la_claim l)) k v = true;
}.

Lemma taintsAreEqual_incl lhs rhs : taintsAreEqual lhs rhs = true → ∀ t, t ∈ lhs → t ∈ rhs.
Proof.
  unfold taintsAreEqual. rewrite andb_true_iff, forallb_forall. intros [_ Hall] t Ht. specialize (Hall t). rewrite existsb_exists in Hall.
  destruct Hall as (o & Ho & Heq); [by apply list_elem_of_In|]. rewrite !andb_true_iff, !String.eqb_eq, bool_decide_eq_true in Heq.
  destruct Heq as [[Hk He] Hv]. assert (t = o) as -> by (destruct t, o; cbn in *; congruence). by apply list_elem_of_In.
Qed.

Lemma Has_Exists k v : Has (NewRequirement k OpExists []) v = true.
Proof. apply Has_spec. split; [set_solver|done]. Qed.

Lemma matches_stands_in r l :
  replacementMatchesSimulatedNodeClaim r l = true → Requirements_wf (ic_Requirements (la_claim r)) → stands_in r l.
Proof.
  unfold replacementMatchesSimulatedNodeClaim. rewrite !andb_true_iff, !String.eqb_eq, instanceTypesAreSubset_iff.
  intros [[[[[Hp Hu] [Hh Hv]] Ht] Hr] Hi] Hwr. split; [done|done|by apply taintsAreEqual_incl|done|].
  intros k v Hk Ha. unfold allows. destruct (ic_Requirements (la_claim l) !! k) as [q|] eqn:Hq; [|done].
  rewrite forallb_forall in Hr. specialize (Hr k). rewrite <- list_elem_of_In, elem_of_elements, elem_of_dom, orb_true_iff, String.eqb_eq in Hr.
  destruct Hr as [?|Hsub]; [by eexists|done|]. rewrite (Get_lookup _ _ _ Hq) in Hsub.
  unfold allows in Ha. destruct (ic_Requirements (la_claim r) !! k) as [x|] eqn:Hx.
  - rewrite (Get_lookup _ _ _ Hx) in Hsub. eapply SubsetOf_sound; [|exact Hsub|exact Ha]. by apply (Requirements_wf_lookup (ic_Requirements (la_claim r)) k).
  - unfold Get in Hsub. rewrite Hx in Hsub. eapply SubsetOf_sound; [apply NewRequirementWithFlexibility_wf|exact Hsub|]. apply Has_Exists.
Qed.

(** ** A command that validates *)

(** C19. A consolidation that passes validation is still right.  Its candidates were
    found again, all of them, twice - before and after the simulation - none
    nominated for a pod and within the disruption budgets of that moment; the
    new simulation places all pods with as many NodeClaims as the command has
    replacements; and the replacements can be paired with different NodeClaims
    of the simulation such that each launches nothing its partner would not. *)
Theorem validated_command_holds w rs (price : float64) cands period w'
    (Hnn : budgets_nonneg) (Hrs : ∀ r, r ∈ rs → Requirements_wf (ic_Requirements (la_claim r)))
    (Hrun : isValid w rs price cands period = (w', inr ())) :
  ∃ w0 w1 w2 found again ls,
    disruptable_now w0 cands w1 found ∧ found ≠ [] ∧
    resimulate w1 price found = (w2, Resimulated true ls) ∧ length ls = length rs ∧
    (∃ f, (∀ i r, rs !! i = Some r → ∃ l, ls !! f i = Some l ∧ stands_in r l) ∧
       ∀ i i', (i < length rs)%nat → (i' < length rs)%nat → f i = f i' → i = i') ∧
    disruptable_now w2 found w' again.
Proof.
  unfold isValid in Hrun. destruct (if 0 <? period then waitFor w period else (w, false)) as [w0 []]; [done|].
  destruct (validateCandidates w0 cands) as [w1 [e|found]] eqn:Hv1; [done|].
  destruct (validateCommand w1 rs price found) as [w2 [e|u]] eqn:Hc; [done|].
  destruct (validateCandidates w2 found) as [w3 [e|again]] eqn:Hv2; [done|]. injection Hrun as ->.
  unfold validateCommand in Hc. destruct found as [|c found]; [done|]. set (cs := c :: found) in *.
  destruct (resimulate w1 price cs) as [w4 [|[] ls]] eqn:Hsim; [done| |done]. injection Hc as -> Hc.
  assert (length ls = length rs ∧ replacementsMatchSimulation rs ls = Some true) as [Hlen Hmatch].
  { destruct (Nat.eqb_spec (length ls) 0) as [Hz|Hz].
    - destruct rs; [|done]. destruct ls; [|done]. done.
    - destruct (negb (length ls =? length rs)%nat) eqn:Hl; [done|]. apply negb_false_iff, Nat.eqb_eq in Hl. split; [done|].
      destruct (replacementsMatchSimulation rs ls) as [[]|]; done. }
  exists w0, w1, w2, cs, again, ls. split_and!; [by apply validateCandidates_ok|done|done|done| |by apply validateCandidates_ok].
  unfold replacementsMatchSimulation in Hmatch.
  destruct (matchFrom_ok (canSatisfy rs ls) (length ls) (seq 0 (length rs)) [] ∅) as (b & Hb & Hiff).
  { intros j1 j2 r _ _. by rewrite lookup_empty. }
  { intros j r. by rewrite lookup_empty. }
  { intros r. split; [intros (j & Hj); by rewrite lookup_empty in Hj|by intros ?%not_elem_of_nil]. }
  { apply NoDup_seq. }
  unfold replacementsMatch in Hmatch. rewrite Hb in Hmatch. injection Hmatch as ->. destruct (proj1 Hiff eq_refl) as (f & Hf & Hinj). cbn [app] in Hf, Hinj.
  exists f. split.
  - intros i r Hi. assert (i < length rs)%nat as Hil by (by eapply lookup_lt_Some). destruct (Hf i) as [Hfl Hcan]; [apply elem_of_seq; lia|].
    unfold canSatisfy in Hcan. rewrite Hi in Hcan. destruct (ls !! f i) as [l|] eqn:Hl; [|done]. exists l. split; [done|].
    apply matches_stands_in; [done|by eapply Hrs, list_elem_of_lookup_2].
  - intros i i' Hi Hi'. apply Hinj; apply elem_of_seq; lia.
Qed.

(** Empty nodes that pass validation: still candidates under the same names, not
    nominated, and within the budgets. *)
Theorem validated_empty_holds w (cmd : Command Q) period w' cmd'
    (Hnn : budgets_nonneg) (Hrun : ValidateEmpty w cmd period = (w', inr cmd')) :
  ∃ w0 w1 current budget, GetCandidates w0 = (w1, Some current) ∧ currentBudgets w1 = (w', Some budget) ∧
    cmd_Candidates cmd' ≠ [] ∧ sublist (cmd_Candidates cmd') current ∧
    (∀ c, c ∈ cmd_Candidates cmd' → cd_Name c ∈ cd_Name <$> cmd_Candidates cmd ∧ IsNodeNominated w' (cd_ProviderID c) = false) ∧
    ∀ pool, poolCount (cmd_Candidates cmd') pool <= default 0 (budget !! pool).
Proof.
  unfold ValidateEmpty in Hrun. destruct (if 0 <? period then waitFor w period else (w, false)) as [w0 []]; [done|].
  unfold validateEmptyCandidates in Hrun. destruct (GetCandidates w0) as [w1 [current|]] eqn:Hg; [|done].
  destruct (mapCandidates (cmd_Candidates cmd) current) as [|v vs] eqn:Hm; [done|].
  destruct (currentBudgets w1) as [w2 [budget|]] eqn:Hb; [|done].
  destruct (keepWithinBudget w2 budget (v :: vs)) as [|k ks] eqn:Hk; [done|]. injection Hrun as <- <-. cbn [cmd_Candidates].
  destruct (keepWithinBudget_ok w2 budget (v :: vs) (Hnn _ _ _ Hb)) as (Hs & Hnom & Hcount). rewrite Hk in Hs, Hnom, Hcount.
  exists w0, w1, current, budget. split_and!; [done|done|done| | |done].
  - transitivity (v :: vs); [done|]. rewrite <- Hm. unfold mapCandidates. clear. induction current as [|c cs IH]; cbn; [done|].
    destruct (existsb _ _); by constructor.
  - intros c Hc. split; [|by apply Hnom]. assert (c ∈ v :: vs) as Hin by (by eapply elem_of_sublist). rewrite <- Hm in Hin.
    apply elem_of_mapCandidates in Hin as [_ Hname]. exact Hname.
Qed.
End theory.

(** * Witnesses *)

Section witnesses.
#[local] Existing Instance karpenterLabels.
#[local] Existing Instance karpenterLabels_ok.
#[local] Existing Instance exampleProvider.
#[local] Existing Instance textIP.

Definition flexibleLaunch : Launch Z := mkLaunch flexibleClaim "uid" "hash" "v1".

(** Nothing has changed: one candidate, one disruption allowed, one new node. *)
#[local] Instance quietCluster : Revalidation unit Z := {|
  waitFor w _ := (w, false);
  GetCandidates w := (w, Some [plainCandidate CapacityTypeOnDemand 10]);
  currentBudgets w := (w, Some {["pool"%string := 1]});
  IsNodeNominated _ _ := false;
  resimulate w _ _ := (w, Resimulated true [flexibleLaunch]);
|}.

Lemma quiet_budgets : budgets_nonneg.
Proof.
  intros w w' budget Hb. cbn [currentBudgets quietCluster] in Hb. injection Hb as _ <-. intros pool.
  destruct (decide (pool = "pool"%string)) as [->|Hne]; [rewrite lookup_singleton_eq; cbn; lia|rewrite lookup_singleton_ne by done; cbn; lia].
Qed.

Lemma validated_command_holds_witness :
  ∃ w0 w1 found, disruptable_now w0 [plainCandidate CapacityTypeOnDemand 10] w1 found ∧ found ≠ [].
Proof.
  destruct (validated_command_holds tt [flexibleLaunch] (fofint 0) [plainCandidate CapacityTypeOnDemand 10] 15 tt quiet_budgets)
    as (w0 & w1 & w2 & found & again & ls & Hd & Hne & _).
  - intros r ->%list_elem_of_singleton. apply flexibleClaim_fine.
  - vm_compute. reflexivity.
  - by exists w0, w1, found.
Defined.

Lemma validated_empty_holds_witness :
  ∃ w0 w1 current budget, GetCandidates w0 = (w1, Some current) ∧ currentBudgets w1 = (tt, Some budget) ∧
    poolCount [plainCandidate CapacityTypeOnDemand 10] "pool" <= default 0 (budget !! "pool"%string).
Proof.
  destruct (validated_empty_holds tt (replaceCommand [plainCandidate CapacityTypeOnDemand 10] [] (fofint 0)) 15 tt
    (replaceCommand [plainCandidate CapacityTypeOnDemand 10] [] (fofint 0)) quiet_budgets)
    as (w0 & w1 & current & budget & Hg & Hb & _ & _ & _ & Hcount).
  - vm_compute. reflexivity.
  - exists w0, w1, current, budget. split; [exact Hg|]. split; [exact Hb|]. apply (Hcount "pool"%string).
Defined.
End witnesses.
