(* ===== verification/MultiNode.v ===== *)
(** * Consolidating several nodes

    Model of the predicates of [consolidation.go], of
    [pkg/controllers/disruption/emptiness.go] and of
    [pkg/controllers/disruption/multinodeconsolidation.go]: which nodes may be
    consolidated, the deletion of empty nodes, and the binary search for the
    largest batch of nodes that one command can consolidate.  The state of a
    method is that of [Consolidation.v] with the time of the last change of the
    cluster it has seen.  The search is bounded by fuel, [None] when it runs out
    or an evaluation panics; the theory shows that as many steps as there are
    candidates are enough. *)

From Stdlib Require Import SpecFloat.
From S2P Require Import Prelude Float64 Requirement Kube Taints HostPorts Volumes Requirements Resources InstanceTypes PodUtils StateNode NodeClaim Packing Replacements Consolidation Cost Balanced Matching Validation.

Inductive ValidationOutcome (Q : Type) `{NetIP} :=
  | NotValidated (isValidationError : bool)
  | Validated (cmd : Command Q).
Arguments NotValidated {Q _}.
Arguments Validated {Q _}.

(** What a method reads of the cluster besides the simulation. *)
Class MethodWorld (W Q : Type) `{NetIP} := {
  ConsolidationStateOf : W → W * Z;                       (* cluster.ConsolidationState *)
  HasBufferPods : W → string → bool;
  Validate : W → Command Q → Z → W * ValidationOutcome Q; (* after this delay *)
}.

Record MethodState (W : Type) := mkMethodState {
  ms_pass : ConsolidationState W;
  lastConsolidationState : Z;
}.
Arguments mkMethodState {W}.
Arguments ms_pass {W}.
Arguments lastConsolidationState {W}.

Section methods.
Context {LT : LabelTables} {PL : ProviderLabels} {GS : GoSort} {GR : GoRange} {PS : Parsers} {Q W : Type} `{Quantity Q} {NI : NetIP}
  {SIM : Simulation W Q} {MW : MethodWorld W Q} (overrideKey : Offering Q → string * string) (rand : Z → Z) (opts : ConsolidationOptions)
  (advisor : option (string → InstanceType Q → Offering Q → bool)) (evaluator : option (gmap string NodePoolTotals)).
Implicit Types (c : Candidate Q) (cands : list (Candidate Q)) (cmd : Command Q) (nc : InflightClaim Q)
  (st : ConsolidationState W) (ms : MethodState W) (budget : gmap string Z).

(** ** Which nodes *)

(** [consolidation.ShouldDisrupt] *)
Definition ShouldDisrupt c : bool :=
  negb (OwnedByStaticNodePool c) &&
  match cd_instanceType c with None => false | Some _ => true end &&
  match cd_Labels c !! CapacityTypeLabelKey with None => false | Some _ => true end &&
  match cd_Labels c !! LabelTopologyZone with None => false | Some _ => true end &&
  match cp_ConsolidateAfter (cd_NodePool c) with None => false | Some _ => true end &&
  negb (IsEmpty c) &&
  negb (bool_decide (cp_ConsolidationPolicy (cd_NodePool c) = WhenEmpty)) &&
  cd_Consolidatable c.

(** [Emptiness.ShouldDisrupt] *)
Definition ShouldDisruptEmpty (w : W) c : bool :=
  negb (OwnedByStaticNodePool c) &&
  match cp_ConsolidateAfter (cd_NodePool c) with None => false | Some _ => true end &&
  negb (HasBufferPods w (cd_ProviderID c)) &&
  (IsEmpty c && cd_Consolidatable c).

Definition sortCandidates cands : list (Candidate Q) := gosort (λ a b, fltb (SavingsRatio b) (SavingsRatio a)) cands.

Definition IsConsolidated ms : MethodState W * bool :=
  let '(w, state) := ConsolidationStateOf (cs_world (ms_pass ms)) in
  (mkMethodState (withWorld (ms_pass ms) w) (lastConsolidationState ms), lastConsolidationState ms =? state).

Definition markConsolidated ms : MethodState W :=
  let '(w, state) := ConsolidationStateOf (cs_world (ms_pass ms)) in mkMethodState (withWorld (ms_pass ms) w) state.

(** The candidates that fit the budget, in order, and whether one did not. *)
Fixpoint filterByBudget budget cands : list (Candidate Q) * bool :=
  match cands with
  | [] => ([], false)
  | c :: cands =>
      if poolBudget budget c =? 0 then ((filterByBudget budget cands).1, true)
      else let '(kept, constrained) := filterByBudget (spendBudget budget c) cands in (c :: kept, constrained)
  end.

(** What [ComputeCommands] returns: an error or commands. *)
Definition Commands : Type := () + list (Command Q).

(** ** Empty nodes *)

Definition commandValidationDelay : Z := 15 * Second.

Definition validateOne ms cmd : MethodState W * Commands :=
  match Validate (cs_world (ms_pass ms)) cmd commandValidationDelay with
  | (w, NotValidated isValidationError) =>
      (mkMethodState (withWorld (ms_pass ms) w) (lastConsolidationState ms), if isValidationError then inr [] else inl ())
  | (w, Validated cmd) => (mkMethodState (withWorld (ms_pass ms) w) (lastConsolidationState ms), inr [cmd])
  end.

(** [Emptiness.ComputeCommands] *)
Definition ComputeEmptyCommands budget cands ms : MethodState W * Commands :=
  match IsConsolidated ms with
  | (ms, true) => (ms, inr [])
  | (ms, false) =>
      let '(empty, constrainedByBudgets) := filterByBudget budget (List.filter IsEmpty (sortCandidates cands)) in
      match empty with
      | [] => ((if constrainedByBudgets then ms else markConsolidated ms), inr [])
      | _ => validateOne ms (mkCommand empty [] (computePoolDisruptionCosts empty) (fofint 0))
      end
  end.

(** ** Several nodes *)

(** The names and the cheapest price of the nodes' instance types. *)
Fixpoint existingPrices cands (names : gset string) (prices : gmap string float64) : option (gset string * gmap string float64) :=
  match cands with
  | [] => Some (names, prices)
  | c :: cands =>
      it ← cd_instanceType c;
      let names := {[it_Name it]} ∪ names in
      match Cheapest (CompatibleOfferings (it_Offerings it) (NewLabelRequirements (cd_Labels c))) with
      | None => existingPrices cands names prices
      | Some o =>
          let existing := default MaxFloat64 (prices !! it_Name it) in
          existingPrices cands names (if fltb (of_Price o) existing then <[it_Name it := of_Price o]> prices else prices)
      end
  end.

(** [None] is the panic for a node without instance type; the inner [None] the
    error that minValues can no longer be met. *)
Definition filterOutSameInstanceType nc cands : option (option (InflightClaim Q)) :=
  '(names, prices) ← existingPrices cands ∅ ∅;
  let maxPrice := foldl (λ maxPrice it,
    if bool_decide (it_Name it ∈ names) then
      let price := default (fofint 0) (prices !! it_Name it) in if fltb price maxPrice then price else maxPrice
    else maxPrice) MaxFloat64 (ic_InstanceTypeOptions nc) in
  Some (option_map (withOptions nc)
    (RemoveInstanceTypeOptionsByPriceAndMinValues (ic_InstanceTypeOptions nc) (ic_Requirements nc) maxPrice)).

Definition withReplacements cmd (ncs : list (InflightClaim Q)) : Command Q :=
  mkCommand (cmd_Candidates cmd) ncs (cmd_PoolDisruptionCosts cmd) (cmd_NewCapacityPriceLimit cmd).

(** One batch: an error (and whether it is the deadline), or the command if it
    is sensible and approved. *)
Definition tryBatch st cands : option (ConsolidationState W * (bool + option (Command Q))) :=
  '(st, result) ← computeConsolidation overrideKey rand opts advisor cands st;
  match result with
  | inl deadline => Some (st, inl deadline)
  | inr cmd =>
      let judge cmd := if ApproveCommand evaluator cmd then Some cmd else None in
      match Decision cmd, cmd_Replacements cmd with
      | DeleteDecision, _ => Some (st, inr (judge cmd))
      | ReplaceDecision, nc :: rest =>
          filtered ← filterOutSameInstanceType nc cands;
          Some (st, inr (match filtered with
            | None => None
            | Some nc =>
                match ic_InstanceTypeOptions nc with [] => None | _ => judge (withReplacements cmd (nc :: rest)) end
            end))
      | _, _ => Some (st, inr None)
      end
  end.

(** The binary search over [min, max]: the state, whether it timed out, and an
    error or the last command found. *)
Fixpoint search (fuel : nat) st cands (min max : Z) (saved : Command Q) : option (ConsolidationState W * bool * (() + Command Q)) :=
  match fuel with
  | O => None
  | S fuel =>
      if max <? min then Some (st, false, inr saved)
      else
        let mid := (min + max) / 2 in
        '(st, result) ← tryBatch st (take (Z.to_nat (mid + 1)) cands);
        match result with
        | inl true => Some (st, true, inr saved)
        | inl false => Some (st, false, inl ())
        | inr (Some cmd) => search fuel st cands (mid + 1) max cmd
        | inr None => search fuel st cands min (mid - 1) saved
        end
  end.

Definition firstNConsolidationOption st cands (max : Z) : option (ConsolidationState W * bool * (() + Command Q)) :=
  let len := Z.of_nat (length cands) in
  if len <? 2 then Some (st, false, inr noCommand)
  else search (S (length cands)) st cands 1 (if len <=? max then len - 1 else max) noCommand.

(** [MultiNodeConsolidation.ComputeCommands] *)
Definition ComputeMultiCommands budget cands ms : option (MethodState W * Commands) :=
  match IsConsolidated ms with
  | (ms, true) => Some (ms, inr [])
  | (ms, false) =>
      let '(disruptable, constrainedByBudgets) := filterByBudget budget (sortCandidates cands) in
      let maxParallel := Z.min (Z.of_nat (length disruptable)) 100 in
      '(st, timedOut, result) ← firstNConsolidationOption (ms_pass ms) disruptable maxParallel;
      let ms := mkMethodState st (lastConsolidationState ms) in
      Some (match result with
        | inl _ => (ms, inl ())
        | inr cmd =>
            if bool_decide (Decision cmd = NoOpDecision)
            then ((if negb constrainedByBudgets && negb timedOut then markConsolidated ms else ms), inr [])
            else validateOne ms cmd
        end)
  end.
End methods.

(** * Theory *)

Section methods_theory.
Context {LT : LabelTables} {LTok : LabelTablesOk} {PL : ProviderLabels} {CTL : OfferingLabels} {GS : GoSort} {GR : GoRange} {PS : Parsers}
  {Q W : Type} `{Quantity Q} {NI : NetIP} {SIM : Simulation W Q} {MW : MethodWorld W Q} (overrideKey : Offering Q → string * string)
  (rand : Z → Z) (opts : ConsolidationOptions) (advisor : option (string → InstanceType Q → Offering Q → bool))
  (evaluator : option (gmap string NodePoolTotals)).
Implicit Types (c : Candidate Q) (cands : list (Candidate Q)) (cmd : Command Q) (nc : InflightClaim Q)
  (st : ConsolidationState W) (ms : MethodState W) (budget : gmap string Z).
#[local] Abbreviation tryBatch := (tryBatch overrideKey rand opts advisor evaluator).
#[local] Abbreviation search := (search overrideKey rand opts advisor evaluator).

(** ** Budgets *)

Lemma filterByBudget_ok budget cands :
  nonneg_budget budget →
  sublist (filterByBudget budget cands).1 cands ∧
  (∀ pool, poolCount (filterByBudget budget cands).1 pool = Z.min (default 0 (budget !! pool)) (poolCount cands pool)) ∧
  ((filterByBudget budget cands).2 = false → (filterByBudget budget cands).1 = cands).
Proof.
  revert budget. induction cands as [|c cands IH]; intros budget Hb; cbn [filterByBudget].
  { split_and!; [done|intros pool; specialize (Hb pool); cbn [fst]; change (poolCount [] pool) with 0; lia|done]. }
  destruct (poolBudget budget c =? 0) eqn:Hz; destruct_bools.
  { destruct (IH budget Hb) as (Hs & Hc & _). split_and!; [by constructor| |done]. intros pool. cbn [fst]. rewrite Hc, poolCount_cons.
    unfold poolBudget in Hz. case_decide as Hp; [|lia]. subst pool. unfold poolCount. lia. }
  destruct (IH _ (spendBudget_nonneg budget c Hb Hz)) as (Hs & Hcount & Hall).
  destruct (filterByBudget (spendBudget budget c) cands) as [kept constrained]. cbn [fst snd] in *. split_and!; [by constructor| |].
  - intros pool. rewrite !poolCount_cons, Hcount, spendBudget_lookup. case_decide; lia.
  - intros Hf. by rewrite Hall.
Qed.

Lemma filterByBudget_sublist budget cands : sublist (filterByBudget budget cands).1 cands.
Proof.
  revert budget. induction cands as [|c cands IH]; intros budget; cbn [filterByBudget]; [done|]. destruct (_ =? 0); [apply sublist_cons, IH|].
  pose proof (IH (spendBudget budget c)). destruct (filterByBudget _ cands) as [kept constrained]. by apply sublist_skip.
Qed.

Lemma poolCount_take (k : nat) cands pool : poolCount (take k cands) pool <= poolCount cands pool.
Proof.
  rewrite <- (take_drop k cands) at 2. unfold poolCount, with_key. rewrite List.filter_app, length_app. lia.
Qed.

(** ** Same instance type *)

Definition numbers (prices : gmap string float64) : Prop := ∀ n p, prices !! n = Some p → is_nan p = false.
Definition priceOf (prices : gmap string float64) (n : string) : float64 := default MaxFloat64 (prices !! n).

Lemma priceOf_number prices n : numbers prices → is_nan (priceOf prices n) = false.
Proof. unfold priceOf. intros Hp. destruct (prices !! n) as [p|] eqn:Hn; [by apply (Hp n)|done]. Qed.

(** Remembering a lower price. *)
Lemma lower_price prices n p :
  numbers prices → let prices' := if fltb p (priceOf prices n) then <[n := p]> prices else prices in
  numbers prices' ∧ (∀ m, fltb (priceOf prices m) (priceOf prices' m) = false) ∧ (is_nan p = false → fltb p (priceOf prices' n) = false).
Proof.
  intros Hp. cbv zeta. destruct (fltb p (priceOf prices n)) eqn:Hlt; [|split_and!; [done|intros m; apply fltb_irrefl|done]]. split_and!.
  - intros m q [[<- <-]|[_ Hm]]%lookup_insert_Some; [|by apply (Hp m)]. apply fltb_spec in Hlt; tauto.
  - intros m. destruct (decide (m = n)) as [->|Hne]; unfold priceOf in *.
    + rewrite lookup_insert_eq. by apply fltb_total.
    + rewrite lookup_insert_ne by done. apply fltb_irrefl.
  - intros _. unfold priceOf. rewrite lookup_insert_eq. apply fltb_irrefl.
Qed.

(** The price remembered for a type is at most that of any node of it. *)
Lemma existingPrices_ok cands names prices names' prices' :
  existingPrices cands names prices = Some (names', prices') → numbers prices →
  numbers prices' ∧ names ⊆ names' ∧ (∀ n, fltb (priceOf prices n) (priceOf prices' n) = false) ∧
  ∀ c it, c ∈ cands → cd_instanceType c = Some it → it_Name it ∈ names' ∧
    ∀ o, Cheapest (CompatibleOfferings (it_Offerings it) (NewLabelRequirements (cd_Labels c))) = Some o → is_nan (of_Price o) = false →
      fltb (of_Price o) (priceOf prices' (it_Name it)) = false.
Proof.
  revert names prices. induction cands as [|c cands IH]; intros names prices.
  { intros [= <- <-] Hp. split_and!; [done|done|intros n; apply fltb_irrefl|by intros c it ?%not_elem_of_nil]. }
  cbn [existingPrices]. intros (it & Hit & Hrun)%bind_Some Hp.
  destruct (Cheapest _) as [o|] eqn:Ho; cbv zeta in Hrun.
  - pose proof (lower_price prices (it_Name it) (of_Price o) Hp) as (Hp1 & Hle1 & Hlt1). fold (priceOf prices (it_Name it)) in Hrun.
    destruct (IH _ _ Hrun Hp1) as (Hp' & Hn & Hle & Hall). split_and!; [done|set_solver| |].
    + intros n. eapply fltb_weak; [| | |apply Hle|apply Hle1]; by apply priceOf_number.
    + intros c' it' [->|Hin]%elem_of_cons Hit'; [|by apply (Hall c')]. rewrite Hit in Hit'. injection Hit' as <-. split; [set_solver|].
      intros o'. rewrite Ho. intros [= <-] Hnan. eapply fltb_weak; [| | |apply Hle|by apply Hlt1]; [by apply priceOf_number..|done].
  - destruct (IH _ _ Hrun Hp) as (Hp' & Hn & Hle & Hall). split_and!; [done|set_solver|done|].
    intros c' it' [->|Hin]%elem_of_cons Hit'; [|by apply (Hall c')]. rewrite Hit in Hit'. injection Hit' as <-. split; [set_solver|].
    intros o'. by rewrite Ho.
Qed.

(** The bound found over the options is at most the price of each of them that is
    also being removed. *)
Lemma lowest_price (names : gset string) prices its (bound : float64) :
  numbers prices → is_nan bound = false →
  let lowest := foldl (λ maxPrice (it : InstanceType Q),
    if bool_decide (it_Name it ∈ names) then
      let price := default (fofint 0) (prices !! it_Name it) in if fltb price maxPrice then price else maxPrice
    else maxPrice) bound its in
  is_nan lowest = false ∧ fltb bound lowest = false ∧
  ∀ it, it ∈ its → it_Name it ∈ names → fltb (default (fofint 0) (prices !! it_Name it)) lowest = false.
Proof.
  intros Hp. revert bound. induction its as [|it its IH]; intros bound Hb; cbn [foldl].
  { split_and!; [done|apply fltb_irrefl|by intros it ?%not_elem_of_nil]. }
  assert (∀ n, is_nan (default (fofint 0) (prices !! n)) = false) as Hd.
  { intros n. destruct (prices !! n) as [p|] eqn:Hn; [by apply (Hp n)|done]. }
  set (bound' := if bool_decide _ then _ else _).
  assert (is_nan bound' = false ∧ fltb bound bound' = false ∧
    (it_Name it ∈ names → fltb (default (fofint 0) (prices !! it_Name it)) bound' = false)) as (Hb' & Hle & Hit).
  { unfold bound'. case_bool_decide; [|split_and!; [done|apply fltb_irrefl|done]]. cbv zeta. destruct (fltb _ bound) eqn:Hlt.
    - split_and!; [apply Hd|by apply fltb_total|intros _; apply fltb_irrefl].
    - split_and!; [done|apply fltb_irrefl|done]. }
  destruct (IH bound' Hb') as (Hn & Hle' & Hall). split_and!; [done| |].
  - eapply fltb_weak; [| | |exact Hle'|exact Hle]; done.
  - intros it' [->|Hin]%elem_of_cons Hname; [|by apply Hall]. eapply fltb_weak; [| | |exact Hle'|by apply Hit]; [done|done|apply Hd].
Qed.

Lemma removed_options_narrowed nc price kept :
  RemoveInstanceTypeOptionsByPriceAndMinValues (ic_InstanceTypeOptions nc) (ic_Requirements nc) price = Some kept → claim_fine nc →
  narrowed nc (withOptions nc kept) ∧ launches_below (withOptions nc kept) price.
Proof.
  unfold RemoveInstanceTypeOptionsByPriceAndMinValues. case_bool_decide; [|done]. intros [= <-] Hfine.
  split; [apply withOptions_narrowed|apply below_launches; [done|]]; intros it; rewrite elem_of_filter_list; tauto.
Qed.

(** What is left of a replacement launches cheaper than every removed node whose
    type was among its options. *)
Definition not_same_type cands nc nc' : Prop :=
  ∀ c it it' o, c ∈ cands → cd_instanceType c = Some it → it' ∈ ic_InstanceTypeOptions nc → it_Name it' = it_Name it →
    Cheapest (CompatibleOfferings (it_Offerings it) (NewLabelRequirements (cd_Labels c))) = Some o → is_nan (of_Price o) = false →
    launches_below nc' (of_Price o).

Lemma fltb_below x p q : fltb x p = true → fltb q p = false → is_nan q = false → fltb x q = true.
Proof.
  intros Hlt Hle Hq. apply not_false_iff_true. intros Hno. pose proof (proj1 (fltb_spec _ _) Hlt) as (Hx & Hp & _).
  rewrite (fltb_weak p q x) in Hlt; done.
Qed.

Lemma filterOutSame_ok nc cands nc' :
  filterOutSameInstanceType nc cands = Some (Some nc') → claim_fine nc → narrowed nc nc' ∧ not_same_type cands nc nc'.
Proof.
  unfold filterOutSameInstanceType. intros ([names prices] & Hex & Hrun)%bind_Some Hfine.
  destruct (existingPrices_ok _ _ _ _ _ Hex) as (Hp & _ & _ & Hall); [by intros n p ?%lookup_empty_Some|].
  destruct (lowest_price names prices (ic_InstanceTypeOptions nc) MaxFloat64 Hp) as (Hnan & _ & Hlow); [done|].
  set (lowest := foldl _ _ _) in *. destruct (RemoveInstanceTypeOptionsByPriceAndMinValues _ _ lowest) as [kept|] eqn:Hk; [|done].
  injection Hrun as <-. destruct (removed_options_narrowed nc lowest kept Hk Hfine) as [Hn Hl]. split; [done|].
  intros c it it' o Hc Hit Hit' Hname Ho Hno it1 o1 Hit1 Ho1. specialize (Hl it1 o1 Hit1 Ho1).
  destruct (Hall c it Hc Hit) as [Hin Hle]. specialize (Hle o Ho Hno). rewrite <- Hname in Hin, Hle.
  apply (fltb_below _ lowest); [done| |done]. specialize (Hlow it' Hit' Hin). unfold priceOf in Hle.
  destruct (prices !! it_Name it') as [p|] eqn:Hpr; cbn [from_option id] in *.
  - eapply fltb_weak; [| | |exact Hlow|exact Hle]; [done|by apply (Hp (it_Name it'))|done].
  - eapply (fltb_weak _ (fofint 0)); [done|done|done|exact Hlow|]. by eapply (fltb_weak _ MaxFloat64).
Qed.
(** ** One batch *)

(** What stands behind the command for a batch: it is approved, the simulation
    placed the pods of all its nodes, on no new node or on one, and the
    replacement launches below the price of the nodes and below that of any of
    them whose type it could have taken. *)
Record batch_command cands cmd : Prop := {
  bc_candidates : cmd_Candidates cmd = cands;
  bc_approved : ApproveCommand evaluator cmd = true;
  bc_effect :
    (cmd_Replacements cmd = [] ∧ simulated cands []) ∨
    ∃ sim nc nc' minSavings, simulated cands [sim] ∧ cmd_Replacements cmd = [nc'] ∧ ic_InstanceTypeOptions nc' ≠ [] ∧
      narrowed sim nc ∧ narrowed nc nc' ∧ not_same_type cands nc nc' ∧
      fltb minSavings (ConsolidationReplaceMinSavings opts) = false ∧
      launches_below nc' (limit (mkPriceBudget (sumCandidatePrices cands) minSavings));
}.

Lemma launches_below_narrowed_options nc nc' price :
  ic_Requirements nc' = ic_Requirements nc → narrowed nc nc' → launches_below nc price → launches_below nc' price.
Proof. intros Hr Hn Hl it o Hit. rewrite Hr. by apply Hl, (nw_options nc nc'). Qed.

Lemma filterOutSame_requirements nc cands nc' :
  filterOutSameInstanceType nc cands = Some (Some nc') → ic_Requirements nc' = ic_Requirements nc.
Proof.
  unfold filterOutSameInstanceType. intros ([names prices] & _ & Hrun)%bind_Some.
  destruct (RemoveInstanceTypeOptionsByPriceAndMinValues _ _ _); [by injection Hrun as <-|done].
Qed.

Lemma tryBatch_sound st cands st' cmd :
  sound_simulation → 1 <= SpotToSpotMinInstanceTypes opts → (length cands ≠ 1)%nat →
  tryBatch st cands = Some (st', inr (Some cmd)) → cands ≠ [] ∧ batch_command cands cmd.
Proof.
  intros Hsim Hcap Hlen ([st1 [e|cmd0]] & Hcomp & Hrun)%bind_Some; [done|].
  destruct (computeConsolidation_sound _ _ _ _ _ _ _ _ Hsim Hcap Hcomp) as [->|[Hc (ncs & Hs & Hn) Hb Hl]]; [done|].
  specialize (Hl Hlen). unfold Decision in Hrun. rewrite Hc in Hrun.
  assert (cands ≠ []) as Hne by (by intros ->). split; [done|].
  destruct (cmd_Replacements cmd0) as [|nc rest] eqn:Hr.
  - replace ncs with (@nil (InflightClaim Q)) in Hs by (by apply Forall2_nil_inv_r in Hn as ->).
    destruct cands; [done|]. destruct (ApproveCommand evaluator cmd0) eqn:Happ; [|done]. injection Hrun as _ <-.
    split; [done|done|by left].
  - destruct rest as [|]; [|cbn in Hl; lia]. destruct cands as [|c cands]; [done|]. set (batch := c :: cands) in *.
    apply bind_Some in Hrun as ([nc'|] & Hf & Hrun); [|done].
    apply Forall2_cons_inv_r in Hn as (sim & rest & Hsn & Hrest & ->). apply Forall2_nil_inv_r in Hrest as ->.
    destruct (Hsim batch [sim] sim Hs) as [Hfine _]; [by apply list_elem_of_singleton|].
    destruct (filterOutSame_ok nc batch nc' Hf) as [Hn' Hsame]; [by apply (narrowed_fine sim)|].
    destruct (ic_InstanceTypeOptions nc') as [|it its] eqn:Hopt; [done|].
    destruct (ApproveCommand evaluator _) eqn:Happ; [|done]. injection Hrun as _ <-. split; [done|done|].
    right. destruct Hb as (savings & Hsav & Hb%affordable_single); [done|]. exists sim, nc, nc', savings. split_and!; try done; [by rewrite Hopt|].
    apply (launches_below_narrowed_options nc); [by eapply filterOutSame_requirements|done|done].
Qed.

(** ** The search *)

(** A batch of the first candidates, as the search tried it. *)
Definition tried cands (size : Z) (result : option (Command Q)) : Prop :=
  ∃ st st', tryBatch st (take (Z.to_nat size) cands) = Some (st', inr result).

(** How the search ends: without a batch to try it returns what it had; else the
    command of a batch such that one node more was the limit or was tried and
    failed. *)
Definition search_end cands (min max : Z) (saved cmd : Command Q) : Prop :=
  (cmd = saved ∧ (min <= max → tried cands (min + 1) None)) ∨
  ∃ size, min < size <= max + 1 ∧ tried cands size (Some cmd) ∧ (size <= max → tried cands (size + 1) None).

Lemma search_spec fuel st cands min max saved st' timedOut cmd :
  search fuel st cands min max saved = Some (st', timedOut, inr cmd) →
  (timedOut = false → search_end cands min max saved cmd) ∧
  (cmd = saved ∨ ∃ size, min < size <= max + 1 ∧ tried cands size (Some cmd)).
Proof.
  revert st min max saved. induction fuel as [|fuel IH]; intros st min max saved; cbn [MultiNode.search]; [done|].
  destruct (max <? min) eqn:Hdone; destruct_bools.
  { intros [= <- <- <-]. split; [|by left]. intros _. left. split; [done|lia]. }
  set (mid := (min + max) / 2). assert (min <= mid <= max) as Hmid by (unfold mid; pose proof (Z.div_mod (min + max) 2); pose proof (Z.mod_pos_bound (min + max) 2); lia).
  clearbody mid. intros ([st1 result] & Htry & Hrun)%bind_Some. destruct result as [[]|[cmd1|]]; [|done| |].
  { injection Hrun as <- <- <-. split; [done|by left]. }
  - assert (tried cands (mid + 1) (Some cmd1)) as Ht by (by exists st, st1).
    destruct (IH _ _ _ _ Hrun) as [Hend Hfrom]. split.
    + intros Hto. right. destruct (Hend Hto) as [[-> Hnext]|(size & Hsz & Hs & Hnext)].
      * exists (mid + 1). split_and!; [lia|lia|done|]. intros. apply Hnext. lia.
      * exists size. split_and!; [lia|lia|done|done].
    + right. destruct Hfrom as [->|(size & Hsz & Hs)]; [exists (mid + 1)|exists size]; split; [lia|done|lia|done].
  - assert (tried cands (mid + 1) None) as Ht by (by exists st, st1).
    destruct (IH _ _ _ _ Hrun) as [Hend Hfrom]. split.
    + intros Hto. destruct (Hend Hto) as [[-> Hnext]|(size & Hsz & Hs & Hnext)].
      * left. split; [done|]. intros _. destruct (decide (min = mid)) as [->|]; [done|]. apply Hnext. lia.
      * right. exists size. split_and!; [lia|lia|done|]. intros _. destruct (decide (size = mid)) as [->|]; [done|]. apply Hnext. lia.
    + destruct Hfrom as [->|(size & Hsz & Hs)]; [by left|]. right. exists size. split; [lia|done].
Qed.

(** Halving a range of as many batches as there is fuel ends, unless an
    evaluation panics. *)
Lemma search_ends fuel st cands min max saved :
  Z.max 0 (max - min + 1) < Z.of_nat fuel → (∀ st (size : nat), tryBatch st (take size cands) ≠ None) →
  is_Some (search fuel st cands min max saved).
Proof.
  intros Hfuel Htry. revert st min max saved Hfuel. induction fuel as [|fuel IH]; intros st min max saved Hfuel; cbn [MultiNode.search]; [lia|].
  destruct (max <? min) eqn:Hdone; [done|]. destruct_bools.
  set (mid := (min + max) / 2). assert (min <= mid <= max) as Hmid by (unfold mid; pose proof (Z.div_mod (min + max) 2); pose proof (Z.mod_pos_bound (min + max) 2); lia).
  clearbody mid. destruct (tryBatch st _) as [[st1 [[]|[cmd|]]]|] eqn:Ht; cbn [mbind option_bind]; [done|done|apply IH; lia..|by apply Htry in Ht].
Qed.

Lemma firstN_ends st cands (max : Z) :
  0 <= max → (∀ st (size : nat), tryBatch st (take size cands) ≠ None) →
  is_Some (firstNConsolidationOption overrideKey rand opts advisor evaluator st cands max).
Proof.
  intros Hmax Htry. unfold firstNConsolidationOption. destruct (_ <? 2) eqn:Hlen; [done|]. destruct_bools.
  apply search_ends; [|done]. case_goal; destruct_bools; lia.
Qed.

(** ** Theorems *)

Lemma firstN_result st cands (max : Z) st' timedOut cmd :
  sound_simulation → 1 <= SpotToSpotMinInstanceTypes opts →
  firstNConsolidationOption overrideKey rand opts advisor evaluator st cands max = Some (st', timedOut, inr cmd) → 0 <= max →
  let limit := Z.min (Z.of_nat (length cands)) (max + 1) in
  (cmd = noCommand ∧ (timedOut = false → 2 <= limit → tried cands 2 None)) ∨
  ∃ size, 2 <= size <= limit ∧ batch_command (take (Z.to_nat size) cands) cmd ∧
    (timedOut = false → size < limit → tried cands (size + 1) None).
Proof.
  intros Hsim Hcap. unfold firstNConsolidationOption. destruct (Z.of_nat (length cands) <? 2) eqn:Hlen; destruct_bools.
  { intros [= <- <- <-] Hmax. left. split; [done|lia]. }
  set (hi := if _ <=? max then _ else max). intros Hrun Hmax. assert (hi + 1 = Z.min (Z.of_nat (length cands)) (max + 1)) as Hhi.
  { unfold hi. case_goal; destruct_bools; lia. }
  clearbody hi. cbv zeta. rewrite <- Hhi. destruct (search_spec _ _ _ _ _ _ _ _ _ Hrun) as [Hend Hfrom].
  assert (∀ size, 1 < size <= hi + 1 → tried cands size (Some cmd) → batch_command (take (Z.to_nat size) cands) cmd) as Hbatch.
  { intros size Hsz (st0 & st1 & Ht). apply (tryBatch_sound st0 _ st1); [done|done|rewrite length_take; lia|done]. }
  destruct timedOut.
  - destruct Hfrom as [->|(size & Hsz & Hs)]; [by left|]. right. exists size. split_and!; [lia|lia|by apply Hbatch|done].
  - destruct (Hend eq_refl) as [[-> Hno]|(size & Hsz & Hs & Hnext)].
    + left. split; [done|]. intros _ ?. apply Hno. lia.
    + right. exists size. split_and!; [lia|lia|by apply Hbatch|]. intros _ ?. apply Hnext. lia.
Qed.


Lemma validateOne_inr ms cmd ms' cmds :
  validateOne ms cmd = (ms', inr cmds) →
  lastConsolidationState ms' = lastConsolidationState ms ∧
  (cmds = [] ∨ ∃ w' cmd', cmds = [cmd'] ∧ Validate (cs_world (ms_pass ms)) cmd commandValidationDelay = (w', Validated cmd')).
Proof.
  unfold validateOne. destruct (Validate _ cmd _) as [w [[]|cmd']] eqn:Hv; [intros [= <- <-]|done|intros [= <- <-]]; split; [done|by left|done|].
  right. by exists w, cmd'.
Qed.

Lemma elem_of_sortCandidates cands c : c ∈ sortCandidates cands ↔ c ∈ cands.
Proof. unfold sortCandidates. by rewrite gosort_perm. Qed.

Lemma poolCount_perm cands cands' pool : cands ≡ₚ cands' → poolCount cands pool = poolCount cands' pool.
Proof.
  induction 1 as [|c l l' _ IH|c c' l|l1 l2 l3 _ IH1 _ IH2]; [done| | |congruence]; rewrite !poolCount_cons; [by rewrite IH|lia].
Qed.

(** ** What a method leaves of the world *)

Section world.
Context (R : relation W) `{!PreOrder R} (Hsim : ∀ w price cands, R w (SimulateScheduling w price cands).1)
  (Hstate : ∀ w, R w (ConsolidationStateOf w).1) (Hvalidate : ∀ w cmd delay, R w (Validate w cmd delay).1).

Definition world_of ms : W := cs_world (ms_pass ms).

(** The commands a method returns: at most one, which it had validated. *)
Definition validated_from (chosen : list (Candidate Q) → Prop) (result : Commands) : Prop :=
  match result with
  | inl _ | inr [] => True
  | inr (cmd :: cmds) => cmds = [] ∧ ∃ w w' proposed, Validate w proposed commandValidationDelay = (w', Validated cmd) ∧ chosen (cmd_Candidates proposed)
  end.

Lemma IsConsolidated_stays ms : R (world_of ms) (world_of (IsConsolidated ms).1).
Proof. unfold IsConsolidated, world_of. pose proof (Hstate (cs_world (ms_pass ms))). by destruct (ConsolidationStateOf _). Qed.

Lemma markConsolidated_stays ms : R (world_of ms) (world_of (markConsolidated ms)).
Proof. unfold markConsolidated, world_of. pose proof (Hstate (cs_world (ms_pass ms))). by destruct (ConsolidationStateOf _). Qed.

Lemma validateOne_stays ms cmd (chosen : list (Candidate Q) → Prop) :
  chosen (cmd_Candidates cmd) → R (world_of ms) (world_of (validateOne ms cmd).1) ∧ validated_from chosen (validateOne ms cmd).2.
Proof.
  intros Hc. unfold validateOne, world_of. pose proof (Hvalidate (cs_world (ms_pass ms)) cmd commandValidationDelay) as HR.
  destruct (Validate _ cmd _) as [w [[]|cmd']] eqn:Hv; (split; [done|]); [done|done|]. cbn. split; [done|]. by do 3 eexists.
Qed.

Lemma empty_stays budget cands ms ms' result :
  ComputeEmptyCommands budget cands ms = (ms', result) →
  R (world_of ms) (world_of ms') ∧ validated_from (λ cs, ∃ rest, cs ++ rest ≡ₚ cands) result.
Proof.
  unfold ComputeEmptyCommands. pose proof (IsConsolidated_stays ms) as HR. destruct (IsConsolidated ms) as [ms1 []]; [by intros [= <- <-]|]. cbn [fst] in HR.
  destruct (filterByBudget budget _) as [[|c kept] constrained] eqn:Hf.
  - intros [= <- <-]. split; [|done]. destruct constrained; [done|]. etransitivity; [exact HR|apply markConsolidated_stays].
  - intros Hv. destruct (validateOne_stays ms1 (mkCommand (c :: kept) [] (computePoolDisruptionCosts (c :: kept)) (fofint 0))
      (λ cs, ∃ rest, cs ++ rest ≡ₚ cands)) as [HR' Hfrom]; [|rewrite Hv in HR', Hfrom; split; [by etransitivity|done]].
    assert (sublist (c :: kept) (sortCandidates cands)) as (rest & Hp)%sublist_submseteq%submseteq_Permutation.
    { etransitivity; [|apply filter_sublist_self]. change (c :: kept) with (c :: kept, constrained).1. rewrite <- Hf. apply filterByBudget_sublist. }
    exists rest. cbn [cmd_Candidates]. rewrite <- Hp. apply gosort_perm.
Qed.

Lemma tryBatch_stays st cands st' result :
  tryBatch st cands = Some (st', result) →
  R (cs_world st) (cs_world st') ∧ ∀ cmd, result = inr (Some cmd) → cmd = noCommand ∨ cmd_Candidates cmd = cands.
Proof.
  intros ([st1 r] & Hrun & Htry)%bind_Some. apply (computeConsolidation_stays _ _ _ _ R Hsim) in Hrun as [HR Hc]. destruct r as [deadline|cmd]; [by injection Htry as <- <-|].
  specialize (Hc cmd eq_refl).
  assert (∀ cmd1 cmd2, cmd_Candidates cmd1 = cmd_Candidates cmd → (if ApproveCommand evaluator cmd1 then Some cmd1 else None) = Some cmd2 →
    cmd ≠ noCommand → cmd2 = noCommand ∨ cmd_Candidates cmd2 = cands) as Hjudge.
  { intros cmd1 cmd2 Heq Hj Hne. destruct (ApproveCommand _ _); [|done]. injection Hj as <-. right. destruct Hc as [->|Hc]; [done|congruence]. }
  destruct (Decision cmd) eqn:Hd.
  - by injection Htry as <- <-.
  - destruct (cmd_Replacements cmd) as [|nc rest]; [by injection Htry as <- <-|].
    apply bind_Some in Htry as (filtered & _ & Htry). injection Htry as <- <-. split; [done|]. intros cmd' Hcmd.
    destruct filtered as [nc'|]; [|done]. destruct (ic_InstanceTypeOptions nc'); [done|]. injection Hcmd as Hcmd.
    eapply Hjudge; [|exact Hcmd|]; [done|by intros ->].
  - injection Htry as <- <-. split; [done|]. intros cmd' Hcmd. injection Hcmd as Hcmd. eapply Hjudge; [|exact Hcmd|]; [done|by intros ->].
Qed.

Lemma search_stays (fuel : nat) : ∀ st cands min max saved st' timedOut result,
  search fuel st cands min max saved = Some (st', timedOut, result) → (saved = noCommand ∨ ∃ k, cmd_Candidates saved = take k cands) →
  R (cs_world st) (cs_world st') ∧ ∀ cmd, result = inr cmd → cmd = noCommand ∨ ∃ k, cmd_Candidates cmd = take k cands.
Proof.
  induction fuel as [|fuel IH]; intros st cands min max saved st' timedOut result; cbn [MultiNode.search]; [done|].
  destruct (_ <? _); [intros [= <- _ <-] Hs; split; [done|]; by intros cmd [= <-]|].
  intros ([st1 r] & Htry & Hrun)%bind_Some Hs. apply tryBatch_stays in Htry as [HR Hc]. destruct r as [[]|[cmd|]].
  - injection Hrun as <- _ <-. split; [done|]. by intros cmd [= <-].
  - by injection Hrun as <- _ <-.
  - apply IH in Hrun as [HR' Hc']; [split; [by etransitivity|done]|]. destruct (Hc cmd eq_refl) as [->|Hk]; [by left|right; by eexists].
  - apply IH in Hrun as [HR' Hc']; [split; [by etransitivity|done]|done].
Qed.

Lemma multi_stays budget cands ms ms' result :
  ComputeMultiCommands overrideKey rand opts advisor evaluator budget cands ms = Some (ms', result) →
  R (world_of ms) (world_of ms') ∧ validated_from (λ cs, ∃ rest, cs ++ rest ≡ₚ cands) result.
Proof.
  unfold ComputeMultiCommands. pose proof (IsConsolidated_stays ms) as HR. destruct (IsConsolidated ms) as [ms1 []]; [by intros [= <- <-]|]. cbn [fst] in HR.
  destruct (filterByBudget budget _) as [kept constrained] eqn:Hf. intros ([[st timedOut] r] & Hfirst & Hrun)%bind_Some.
  assert (R (world_of ms1) (cs_world st) ∧ ∀ cmd, r = inr cmd → cmd = noCommand ∨ ∃ k, cmd_Candidates cmd = take k kept) as [HR1 Hc].
  { unfold firstNConsolidationOption in Hfirst. destruct (_ <? _); [injection Hfirst as <- _ <-; split; [done|]; intros cmd [= <-]; by left|].
    apply search_stays in Hfirst; [done|by left]. }
  injection Hrun as Hrun. destruct r as [e|cmd]; [injection Hrun as <- <-; split; [by etransitivity|done]|].
  case_bool_decide as Hno.
  - injection Hrun as <- <-. split; [|done]. transitivity (world_of ms1); [done|]. destruct (_ && _); [|done].
    transitivity (cs_world st); [done|]. apply (markConsolidated_stays (mkMethodState st (lastConsolidationState ms1))).
  - destruct (validateOne_stays (mkMethodState st (lastConsolidationState ms1)) cmd (λ cs, ∃ rest, cs ++ rest ≡ₚ cands)) as [HR2 Hfrom].
    2:{ rewrite Hrun in HR2, Hfrom. split; [|done]. transitivity (world_of ms1); [done|]. by transitivity (cs_world st). }
    destruct (Hc cmd eq_refl) as [->|(k & ->)]; [done|].
    assert (sublist (take k kept) (sortCandidates cands)) as (rest & Hp)%sublist_submseteq%submseteq_Permutation.
    { etransitivity; [apply sublist_take|]. change kept with (kept, constrained).1. rewrite <- Hf. apply filterByBudget_sublist. }
    exists rest. rewrite <- Hp. apply gosort_perm.
Qed.
End world.

(** Empty nodes go first and within the budgets.  The command [Emptiness] has
    validated deletes only empty candidates, without replacements, and of each
    pool as many as the budget allows and no fewer unless there are fewer.  The
    cluster is remembered as consolidated only when no empty candidate was left
    out because of a budget. *)
Theorem empty_commands_within_budget budget cands ms ms' cmds (Hb : nonneg_budget budget)
    (Hrun : ComputeEmptyCommands budget cands ms = (ms', inr cmds)) :
  (lastConsolidationState ms' ≠ lastConsolidationState ms →
     cmds = [] ∧ ∀ c, c ∈ cands → IsEmpty c = false) ∧
  ∀ cmd, cmd ∈ cmds → ∃ w w' proposed, Validate w proposed commandValidationDelay = (w', Validated cmd) ∧
    cmd_Replacements proposed = [] ∧ cmd_Candidates proposed ≠ [] ∧
    (∀ c, c ∈ cmd_Candidates proposed → c ∈ cands ∧ IsEmpty c = true) ∧
    ∀ pool, poolCount (cmd_Candidates proposed) pool = Z.min (default 0 (budget !! pool)) (poolCount (List.filter IsEmpty cands) pool).
Proof.
  unfold ComputeEmptyCommands, IsConsolidated in Hrun. destruct (ConsolidationStateOf _) as [w now].
  destruct (_ =? _); [injection Hrun as <- <-; split; [done|by intros cmd ?%not_elem_of_nil]|].
  set (empty := List.filter IsEmpty (sortCandidates cands)) in *.
  destruct (filterByBudget_ok budget empty Hb) as (Hsub & Hcount & Hall).
  destruct (filterByBudget budget empty) as [kept constrained]. cbn [fst snd] in *. destruct kept as [|c kept].
  - destruct constrained; injection Hrun as <- <-; (split; [|by intros cmd ?%not_elem_of_nil]); [done|]. intros _. split; [done|].
    intros c Hc. apply not_true_iff_false. intros He. assert (c ∈ empty) as Hin.
    { unfold empty. rewrite elem_of_filter_list, elem_of_sortCandidates. done. }
    rewrite <- Hall in Hin by done. by apply not_elem_of_nil in Hin.
  - apply validateOne_inr in Hrun as [Hlast Hcmds]. cbn [lastConsolidationState] in Hlast. split; [congruence|]. intros cmd Hcmd.
    destruct Hcmds as [->|(w' & cmd' & -> & Hv)]; [by apply not_elem_of_nil in Hcmd|]. apply list_elem_of_singleton in Hcmd as ->.
    do 3 eexists. split; [exact Hv|]. cbn [cmd_Replacements cmd_Candidates]. split_and!; [done|done| |].
    + intros c' Hin. eapply elem_of_sublist in Hin; [|exact Hsub]. unfold empty in Hin. by rewrite elem_of_filter_list, elem_of_sortCandidates in Hin.
    + intros pool. rewrite Hcount. f_equal. apply poolCount_perm. apply filter_perm, gosort_perm.
Qed.

End methods_theory.

(** * Witnesses *)

Section witnesses.
#[local] Existing Instance karpenterLabels.
#[local] Existing Instance karpenterLabels_ok.
#[local] Existing Instance stable_GoSort.
#[local] Existing Instance exampleProvider.
#[local] Existing Instance textIP.
#[local] Existing Instance plainNumbers.

(** A cluster with room for the pods of at most three nodes on a new node, that
    last changed at seven. *)
#[local] Instance threeFit : Simulation Z Z := {|
  SimulateScheduling w _ cands := (w, if (length cands <=? 3)%nat then SimulationResults true [flexibleClaim] else SimulationResults false []);
  clockNow w := w;
|}.

#[local] Instance trusting : MethodWorld Z Z := {|
  ConsolidationStateOf w := (w, 7);
  HasBufferPods _ _ := false;
  Validate w cmd _ := (w, Validated cmd);
|}.

Lemma threeFit_sound : sound_simulation.
Proof.
  intros cands ncs nc (w & price & w' & Hrun) Hin. cbn [SimulateScheduling threeFit] in Hrun.
  destruct (length cands <=? 3)%nat; [|done]. injection Hrun as _ <-. apply list_elem_of_singleton in Hin as ->. apply flexibleClaim_ok.
Qed.

(** A large on-demand node. *)
Definition largeNode (name : string) : Candidate Z :=
  mkCandidate name name ∅ (Some large) plainPool CapacityTypeOnDemand 0 true [] (fofint 10) (fofint 1).

Definition fiveNodes : list (Candidate Z) := largeNode <$> ["a"; "b"; "c"; "d"; "e"]%string.

Definition noOverride (o : Offering Z) : string * string := ("k", "k")%string.

Lemma fiveNodes_evaluate st (size : nat) :
  tryBatch noOverride (λ _, 0) plainOptions None None st (take size fiveNodes) ≠ None.
Proof.
  destruct st as [w attempts inconclusive]. do 6 (destruct size as [|size]; [vm_compute; discriminate|]). vm_compute. discriminate.
Qed.

Definition outline (cmds : list (Command Z)) : list (list string * list string) :=
  (λ cmd, (cd_Name <$> cmd_Candidates cmd, it_Name <$> concat (ic_InstanceTypeOptions <$> cmd_Replacements cmd))) <$> cmds.


Definition poolOfTwo : gmap string Z := {["pool"%string := 2]}.

Definition multiRun : MethodState Z * Commands :=
  default (mkMethodState (mkConsolidationState 0 None false) 0, inr [])
    (ComputeMultiCommands noOverride (λ _, 0) plainOptions None None poolOfTwo fiveNodes (mkMethodState (mkConsolidationState 20 None false) 0)).

Lemma poolOfTwo_nonneg : nonneg_budget poolOfTwo.
Proof. intros pool. unfold poolOfTwo. destruct (decide (pool = "pool"%string)) as [->|]; [by vm_compute|]. by rewrite lookup_singleton_ne. Qed.


Definition emptyRun : MethodState Z * Commands :=
  ComputeEmptyCommands poolOfTwo fiveNodes (mkMethodState (mkConsolidationState 20 None false) 0).

Lemma empty_commands_within_budget_witness :
  ∃ cmds, emptyRun.2 = inr cmds ∧ outline cmds = [(["a"; "b"], [])]%string ∧
    ∀ cmd, cmd ∈ cmds → ∃ w w' proposed, Validate w proposed commandValidationDelay = (w', Validated cmd) ∧
      ∀ pool, poolCount (cmd_Candidates proposed) pool = Z.min (default 0 (poolOfTwo !! pool)) (poolCount (List.filter IsEmpty fiveNodes) pool).
Proof.
  destruct (emptyRun.2) as [e|cmds] eqn:Hcmds; [vm_compute in Hcmds; discriminate|]. exists cmds.
  split; [reflexivity|]. split; [vm_compute in Hcmds; injection Hcmds as <-; vm_compute; reflexivity|].
  destruct (empty_commands_within_budget poolOfTwo fiveNodes (mkMethodState (mkConsolidationState 20 None false) 0) emptyRun.1 cmds) as [_ Hall].
  - apply poolOfTwo_nonneg.
  - rewrite <- Hcmds. vm_compute. reflexivity.
  - intros cmd Hin. destruct (Hall cmd Hin) as (w & w' & proposed & Hv & _ & _ & _ & Hpool). exists w, w', proposed. split; [exact Hv|exact Hpool].
Defined.

(** A cluster with room for everything. *)
#[local] Instance allFit : Simulation Z Z := {|
  SimulateScheduling w _ _ := (w, SimulationResults true []);
  clockNow w := w;
|}.

(** The limit of 100 is taken for the last index, so with more candidates the
    batch is one larger than the limit. *)
Lemma batch_of_101 :
  match firstNConsolidationOption (SIM := allFit) noOverride (λ _, 0) plainOptions None None (mkConsolidationState 20 None false)
    (replicate 150 (largeNode "a")) 100 with
  | Some (_, _, inr cmd) => length (cmd_Candidates cmd) = 101%nat
  | _ => False
  end.
Proof. vm_compute. reflexivity. Qed.
End witnesses.
