(* ===== verification/Cluster.v ===== *)
(** * Cluster state

    Model of [pkg/controllers/state/cluster.go]: the cached view of the cluster.
    Nodes are kept under their provider IDs with the names of nodes and
    NodeClaims pointing to them, the resources of each node pool are kept as a
    running sum, pods are charged to the node they are bound to, and the time of
    the last change that could matter for consolidation is remembered.  Cached
    nodes are those of [StateNode.v], the NodeClaims of the pools those of
    [NodePoolState.v].  The clock is an argument: where an operation may read it
    several times to note a change, [now] is the last reading.  An operation of
    type [option] is [None] where the Go code panics (a nil node dereferenced, a
    nil map written); the theory shows that no reachable state does. *)

From S2P Require Import Prelude Float64 Kube Taints HostPorts Volumes PodUtils Resources StateNode NodePoolState.

(** The times the metrics of pods are computed from. *)
Record PodTimes := mkPodTimes {
  podAcks : gmap NamespacedName Z;
  podsSchedulingAttempted : gmap NamespacedName Z;
  podsSchedulableTimes : gmap NamespacedName Z;
  podHealthyNodePoolScheduledTime : gmap NamespacedName Z;
  podToNodeClaim : gmap NamespacedName string;
  podsUnprovisionableTimes : gmap NamespacedName Z;
}.

Record Cluster (Q : Type) `{NetIP} := mkCluster {
  nodes : gmap string (StateNode Q);
  bindings : gmap NamespacedName string;
  nodeNameToProviderID : gmap string string;
  nodeClaimNameToProviderID : gmap string string;
  nodePoolResources : gmap string (gmap string Q);
  cl_NodePoolState : NodePoolState;
  daemonSetPods : gmap NamespacedName Pod;
  antiAffinityPods : gmap NamespacedName Pod;
  podTimes : PodTimes;
  clusterState : Z;
  hasSynced : bool;
  bufferPodCounts : gmap string Z;
}.
Arguments mkCluster {Q _}.
Arguments nodes {Q _}.
Arguments bindings {Q _}.
Arguments nodeNameToProviderID {Q _}.
Arguments nodeClaimNameToProviderID {Q _}.
Arguments nodePoolResources {Q _}.
Arguments cl_NodePoolState {Q _}.
Arguments daemonSetPods {Q _}.
Arguments antiAffinityPods {Q _}.
Arguments podTimes {Q _}.
Arguments clusterState {Q _}.
Arguments hasSynced {Q _}.
Arguments bufferPodCounts {Q _}.

(** What the API server answers for a node: the pods bound to it ([None] is an
    error), and the drivers of its CSINode with their volume limits (none when
    there is no CSINode; [None] is another error). *)
Record NodeReads := mkNodeReads {
  boundTo : option (list Pod);
  csiDrivers : option (list (string * option (option Z)));
}.

Inductive ClusterError := NodeNotFound | ListPodsFailed | CSINodeFailed | VolumesFailed.

Definition noPodTimes : PodTimes := mkPodTimes ∅ ∅ ∅ ∅ ∅ ∅.

Section setters.
Context {Q : Type} {NI : NetIP}.
Implicit Types (c : Cluster Q).

Definition withNodes c (x : gmap string (StateNode Q)) : Cluster Q :=
  mkCluster x (bindings c) (nodeNameToProviderID c) (nodeClaimNameToProviderID c) (nodePoolResources c) (cl_NodePoolState c)
    (daemonSetPods c) (antiAffinityPods c) (podTimes c) (clusterState c) (hasSynced c) (bufferPodCounts c).
Definition withBindings c (x : gmap NamespacedName string) : Cluster Q :=
  mkCluster (nodes c) x (nodeNameToProviderID c) (nodeClaimNameToProviderID c) (nodePoolResources c) (cl_NodePoolState c)
    (daemonSetPods c) (antiAffinityPods c) (podTimes c) (clusterState c) (hasSynced c) (bufferPodCounts c).
Definition withNodeNames c (x : gmap string string) : Cluster Q :=
  mkCluster (nodes c) (bindings c) x (nodeClaimNameToProviderID c) (nodePoolResources c) (cl_NodePoolState c)
    (daemonSetPods c) (antiAffinityPods c) (podTimes c) (clusterState c) (hasSynced c) (bufferPodCounts c).
Definition withClaimNames c (x : gmap string string) : Cluster Q :=
  mkCluster (nodes c) (bindings c) (nodeNameToProviderID c) x (nodePoolResources c) (cl_NodePoolState c)
    (daemonSetPods c) (antiAffinityPods c) (podTimes c) (clusterState c) (hasSynced c) (bufferPodCounts c).
Definition withPoolResources c (x : gmap string (gmap string Q)) : Cluster Q :=
  mkCluster (nodes c) (bindings c) (nodeNameToProviderID c) (nodeClaimNameToProviderID c) x (cl_NodePoolState c)
    (daemonSetPods c) (antiAffinityPods c) (podTimes c) (clusterState c) (hasSynced c) (bufferPodCounts c).
Definition withPoolState c (x : NodePoolState) : Cluster Q :=
  mkCluster (nodes c) (bindings c) (nodeNameToProviderID c) (nodeClaimNameToProviderID c) (nodePoolResources c) x
    (daemonSetPods c) (antiAffinityPods c) (podTimes c) (clusterState c) (hasSynced c) (bufferPodCounts c).
Definition withDaemonSetPods c (x : gmap NamespacedName Pod) : Cluster Q :=
  mkCluster (nodes c) (bindings c) (nodeNameToProviderID c) (nodeClaimNameToProviderID c) (nodePoolResources c) (cl_NodePoolState c)
    x (antiAffinityPods c) (podTimes c) (clusterState c) (hasSynced c) (bufferPodCounts c).
Definition withAntiAffinityPods c (x : gmap NamespacedName Pod) : Cluster Q :=
  mkCluster (nodes c) (bindings c) (nodeNameToProviderID c) (nodeClaimNameToProviderID c) (nodePoolResources c) (cl_NodePoolState c)
    (daemonSetPods c) x (podTimes c) (clusterState c) (hasSynced c) (bufferPodCounts c).
Definition withPodTimes c (x : PodTimes) : Cluster Q :=
  mkCluster (nodes c) (bindings c) (nodeNameToProviderID c) (nodeClaimNameToProviderID c) (nodePoolResources c) (cl_NodePoolState c)
    (daemonSetPods c) (antiAffinityPods c) x (clusterState c) (hasSynced c) (bufferPodCounts c).
(** [Cluster.MarkUnconsolidated] *)
Definition MarkUnconsolidated c (now : Z) : Cluster Q :=
  mkCluster (nodes c) (bindings c) (nodeNameToProviderID c) (nodeClaimNameToProviderID c) (nodePoolResources c) (cl_NodePoolState c)
    (daemonSetPods c) (antiAffinityPods c) (podTimes c) now (hasSynced c) (bufferPodCounts c).
Definition SetSynced c (x : bool) : Cluster Q :=
  mkCluster (nodes c) (bindings c) (nodeNameToProviderID c) (nodeClaimNameToProviderID c) (nodePoolResources c) (cl_NodePoolState c)
    (daemonSetPods c) (antiAffinityPods c) (podTimes c) (clusterState c) x (bufferPodCounts c).
Definition UpdateBufferPodCounts c (x : gmap string Z) : Cluster Q :=
  mkCluster (nodes c) (bindings c) (nodeNameToProviderID c) (nodeClaimNameToProviderID c) (nodePoolResources c) (cl_NodePoolState c)
    (daemonSetPods c) (antiAffinityPods c) (podTimes c) (clusterState c) (hasSynced c) x.
End setters.

Section cluster.
Context {Q : Type} `{Quantity Q} {NI : NetIP} {TL : TaintLib} {PS : Parsers} {SA : StorageAPI} {PR : PodResources Q}.
Implicit Types (c : Cluster Q) (n : StateNode Q) (now : Z) (pod : Pod) (podKey : NamespacedName).

Definition NewCluster : Cluster Q := mkCluster ∅ ∅ ∅ ∅ ∅ NewNodePoolState ∅ ∅ noPodTimes 0 false ∅.

(** ** The resources of the node pools *)

(** The pool a node is counted for and what it counts: nothing once it is on its
    way out. *)
Definition poolCharge (n : option (StateNode Q)) : string * gmap string Q :=
  match n with
  | None => (""%string, ∅)
  | Some n =>
      match Labels n with
      | None => (""%string, ∅)     (* neither node nor NodeClaim *)
      | Some labels =>
          (default ""%string (labels !! NodePoolLabelKey),
           if MarkedForDeletion n then ∅ else <[ResourceNode := qofint 1]> (default ∅ (Capacity n)))
      end
  end.

Definition collectPool (name : string) (pools : gmap string (gmap string Q)) : gmap string (gmap string Q) :=
  if map_forallb (λ _ v, IsZero v) (default ∅ (pools !! name)) then delete name pools else pools.

Definition updateNodePoolResources c (oldNode newNode : option (StateNode Q)) : option (Cluster Q) :=
  let '(oldNodePoolName, oldResources) := poolCharge oldNode in
  let '(newNodePoolName, newResources) := poolCharge newNode in
  let pools := nodePoolResources c in
  let pools :=
    match pools !! newNodePoolName with
    | None => if String.eqb newNodePoolName "" then pools else <[newNodePoolName := ∅]> pools
    | Some _ => pools
    end in
  pools ←
    (if String.eqb oldNodePoolName "" || bool_decide (oldResources = ∅) then Some pools
     else
       resources ← pools !! oldNodePoolName;
       Some (<[oldNodePoolName := range_update (λ current quantity, qsub (default qzero current) quantity) oldResources resources]> pools));
  let pools :=
    if String.eqb newNodePoolName "" then pools
    else alter (λ resources, sumInto resources newResources) newNodePoolName pools in
  Some (withPoolResources c (collectPool newNodePoolName (collectPool oldNodePoolName pools))).

(** ** Changes that matter for consolidation *)

Definition isMock n : bool :=
  match sn_Node n, sn_NodeClaim n with None, None => true | _, _ => false end.

Definition triggerConsolidationOnChange c now (old new : StateNode Q) : Cluster Q :=
  if isMock old || isMock new || negb (Bool.eqb (Initialized old) (Initialized new)) ||
     negb (Bool.eqb (MarkedForDeletion old) (MarkedForDeletion new))
  then MarkUnconsolidated c now else c.

Definition ConsolidationState c now : Cluster Q * Z :=
  if timeSub now (clusterState c) <? 5 * Minute then (c, clusterState c) else (MarkUnconsolidated c now, now).

(** ** Nodes and NodeClaims *)

Definition setNode n (node : option (Node Q)) : StateNode Q :=
  mkStateNode node (sn_NodeClaim n) (daemonSetRequests n) (daemonSetLimits n) (podRequests n) (podLimits n) (podDisruptionCosts n)
    (podRequestsTotal n) (daemonSetRequestsTotal n) (hostPortUsage n) (volumeUsage n) (markedForDeletion n) (nominatedUntil n).

Definition setNodeClaim n (claim : option (NodeClaim Q)) : StateNode Q :=
  mkStateNode (sn_Node n) claim (daemonSetRequests n) (daemonSetLimits n) (podRequests n) (podLimits n) (podDisruptionCosts n)
    (podRequestsTotal n) (daemonSetRequestsTotal n) (hostPortUsage n) (volumeUsage n) (markedForDeletion n) (nominatedUntil n).

Definition setMarked n (marked : bool) : StateNode Q :=
  mkStateNode (sn_Node n) (sn_NodeClaim n) (daemonSetRequests n) (daemonSetLimits n) (podRequests n) (podLimits n) (podDisruptionCosts n)
    (podRequestsTotal n) (daemonSetRequestsTotal n) (hostPortUsage n) (volumeUsage n) marked (nominatedUntil n).

Definition cleanupNodeClaim c now (name : string) : option (Cluster Q) :=
  let id := default ""%string (nodeClaimNameToProviderID c !! name) in
  c ←
    (if String.eqb id "" then Some c
     else
       n ← nodes c !! id;
       c ← match sn_Node n with
           | None => c ← updateNodePoolResources c (Some n) None; Some (withNodes c (delete id (nodes c)))
           | Some _ =>
               let n' := setNodeClaim n None in
               updateNodePoolResources (withNodes c (<[id := n']> (nodes c))) (Some n) (Some n')
           end;
       Some (MarkUnconsolidated c now));
  Some (withPoolState (withClaimNames c (delete name (nodeClaimNameToProviderID c))) (Cleanup (cl_NodePoolState c) name)).

Definition cleanupNode c now (name : string) : option (Cluster Q) :=
  let id := default ""%string (nodeNameToProviderID c !! name) in
  if String.eqb id "" then Some c
  else
    n ← nodes c !! id;
    c ← match sn_NodeClaim n with
        | None => c ← updateNodePoolResources c (Some n) None; Some (withNodes c (delete id (nodes c)))
        | Some _ =>
            let n' := setNode n None in
            updateNodePoolResources (withNodes c (<[id := n']> (nodes c))) (Some n) (Some n')
        end;
    Some (MarkUnconsolidated (withNodeNames c (delete name (nodeNameToProviderID c))) now).

(** The cached node of a NodeClaim: that of the provider ID so far, but for the
    disruption costs of its pods. *)
Definition claimedNode (claim : NodeClaim Q) (oldNode : StateNode Q) : StateNode Q :=
  mkStateNode (sn_Node oldNode) (Some claim) (daemonSetRequests oldNode) (daemonSetLimits oldNode) (podRequests oldNode)
    (podLimits oldNode) ∅ (podRequestsTotal oldNode) (daemonSetRequestsTotal oldNode) (hostPortUsage oldNode)
    (volumeUsage oldNode) (markedForDeletion oldNode) (nominatedUntil oldNode).

Definition newStateFromNodeClaim c now (claim : NodeClaim Q) (oldNode : option (StateNode Q)) : option (Cluster Q * StateNode Q) :=
  let oldNode := default NewNode oldNode in
  let n := claimedNode claim oldNode in
  c ← match nodeClaimNameToProviderID c !! nc_Name claim with
      | Some id => if String.eqb id (nc_ProviderID claim) then Some c else cleanupNodeClaim c now (nc_Name claim)
      | None => Some c
      end;
  c ← updateNodePoolResources c (Some oldNode) (Some n);
  Some (triggerConsolidationOnChange c now oldNode n, n).

Definition UpdateNodeClaim c now (claim : NodeClaim Q) : option (Cluster Q) :=
  let id := nc_ProviderID claim in
  c ←
    (if String.eqb id "" then Some c
     else '(c, n) ← newStateFromNodeClaim c now claim (nodes c !! id); Some (withNodes c (<[id := n]> (nodes c))));
  let markedForDel := match nodes c !! id with Some n => MarkedForDeletion n | None => false end in
  Some (withClaimNames
    (withPoolState c (NodePoolState.UpdateNodeClaim (cl_NodePoolState c)
       (default ""%string (nc_Labels claim !! NodePoolLabelKey)) (nc_Name claim) markedForDel))
    (<[nc_Name claim := id]> (nodeClaimNameToProviderID c))).

Definition DeleteNodeClaim c now (name : string) : option (Cluster Q) := cleanupNodeClaim c now name.

(** ** Pods *)

Definition cleanupOldBindings c now pod : Cluster Q :=
  let podKey := ObjectKeyFromObject pod in
  match bindings c !! podKey with
  | None => MarkUnconsolidated c now
  | Some oldNodeName =>
      if String.eqb oldNodeName (pod_NodeName pod) then c
      else
        let id := default ""%string (nodeNameToProviderID c !! oldNodeName) in
        MarkUnconsolidated
          (match nodes c !! id with
           | Some oldNode => withBindings (withNodes c (<[id := cleanupForPod oldNode podKey]> (nodes c))) (delete podKey (bindings c))
           | None => c
           end) now
  end.

Definition bindPod c now pod : Cluster Q :=
  let c := cleanupOldBindings c now pod in
  withBindings c (<[ObjectKeyFromObject pod := pod_NodeName pod]> (bindings c)).

Definition updateNodeUsageFromPod c now pod : Cluster Q * option ClusterError :=
  if String.eqb (pod_NodeName pod) "" then (c, None)
  else
    let id := default ""%string (nodeNameToProviderID c !! pod_NodeName pod) in
    match nodes c !! id with
    | None => (c, Some NodeNotFound)
    | Some n =>
        match updateForPod n pod with
        | None => (c, Some VolumesFailed)
        | Some n => (bindPod (withNodes c (<[id := n]> (nodes c))) now pod, None)
        end
    end.

Definition updateNodeUsageFromPodCompletion c podKey : Cluster Q :=
  match bindings c !! podKey with
  | None => c
  | Some nodeName =>
      let c := withBindings c (delete podKey (bindings c)) in
      let id := default ""%string (nodeNameToProviderID c !! nodeName) in
      match nodes c !! id with
      | None => c
      | Some n => withNodes c (<[id := cleanupForPod n podKey]> (nodes c))
      end
  end.

Definition updatePodAntiAffinities c pod : Cluster Q :=
  withAntiAffinityPods c
    (if HasRequiredPodAntiAffinity pod then <[ObjectKeyFromObject pod := pod]> (antiAffinityPods c)
     else delete (ObjectKeyFromObject pod) (antiAffinityPods c)).

Definition UpdatePod c now pod : Cluster Q * option ClusterError :=
  let '(c, err) :=
    if IsTerminal pod then (updateNodeUsageFromPodCompletion c (ObjectKeyFromObject pod), None)
    else updateNodeUsageFromPod c now pod in
  (updatePodAntiAffinities c pod, err).

(** ** Updating nodes *)

(** [populateResourceRequests]: pods seen before an error stay bound. *)
Fixpoint populateResourceRequests c now n (pods : list Pod) : Cluster Q * (ClusterError + StateNode Q) :=
  match pods with
  | [] => (c, inr n)
  | pod :: pods =>
      if IsTerminal pod then populateResourceRequests c now n pods
      else
        match updateForPod n pod with
        | None => (c, inl VolumesFailed)
        | Some n => populateResourceRequests (bindPod c now pod) now n pods
        end
  end.

Definition withVolumeUsage n (v : VolumeUsage) : StateNode Q :=
  mkStateNode (sn_Node n) (sn_NodeClaim n) (daemonSetRequests n) (daemonSetLimits n) (podRequests n) (podLimits n) (podDisruptionCosts n)
    (podRequestsTotal n) (daemonSetRequestsTotal n) (hostPortUsage n) v (markedForDeletion n) (nominatedUntil n).

Definition populateVolumeLimits n (drivers : list (string * option (option Z))) : StateNode Q :=
  withVolumeUsage n (foldl (λ v d,
    match d.2 with None => v | Some count => AddLimit v d.1 (default 0 count) end) (volumeUsage n) drivers).

(** The cached node of a node, without its pods yet. *)
Definition freshNode (node : Node Q) (oldNode : StateNode Q) : StateNode Q :=
  mkStateNode (Some node) (sn_NodeClaim oldNode) ∅ ∅ ∅ ∅ ∅ None None NewHostPortUsage NewVolumeUsage
    (markedForDeletion oldNode) (nominatedUntil oldNode).

Definition newStateFromNode c now (reads : NodeReads) (node : Node Q) (oldNode : option (StateNode Q))
    : option (Cluster Q * (ClusterError + StateNode Q)) :=
  let oldNode := default NewNode oldNode in
  let '(c, populated) :=
    match boundTo reads with
    | None => (c, inl ListPodsFailed)
    | Some pods => populateResourceRequests c now (freshNode node oldNode) pods
    end in
  match populated, csiDrivers reads with
  | inl e, _ => Some (c, inl e)
  | inr _, None => Some (c, inl CSINodeFailed)
  | inr n, Some drivers =>
      let n := populateVolumeLimits n drivers in
      c ← match nodeNameToProviderID c !! n_Name node with
          | Some id => if String.eqb id (n_ProviderID node) then Some c else cleanupNode c now (n_Name node)
          | None => Some c
          end;
      c ← updateNodePoolResources c (Some oldNode) (Some n);
      Some (triggerConsolidationOnChange c now oldNode n, inr n)
  end.

Definition withProviderID (node : Node Q) (id : string) : Node Q :=
  mkNode (n_Name node) id (n_Labels node) (n_Annotations node) (n_Taints node) (n_DeletionTimestamp node) (n_Capacity node)
    (n_Allocatable node) (n_Conditions node).

Definition labelOr (node : Node Q) (key : string) : string := default ""%string (n_Labels node !! key).

Definition UpdateNode c now (reads : NodeReads) (node : Node Q) : option (Cluster Q * option ClusterError) :=
  let managed := negb (String.eqb (labelOr node NodePoolLabelKey) "") in
  let initialized := negb (String.eqb (labelOr node NodeInitializedLabelKey) "") in
  if String.eqb (n_ProviderID node) "" && managed then Some (c, None)
  else
    let node := if String.eqb (n_ProviderID node) "" then withProviderID node (n_Name node) else node in
    if managed && String.eqb (labelOr node LabelInstanceTypeStable) "" && negb initialized then Some (c, None)
    else
      '(c, result) ← newStateFromNode c now reads node (nodes c !! n_ProviderID node);
      Some (match result with
        | inl e => (c, Some e)
        | inr n =>
            (withNodeNames (withNodes c (<[n_ProviderID node := n]> (nodes c)))
               (<[n_Name node := n_ProviderID node]> (nodeNameToProviderID c)), None)
        end).

Definition DeleteNode c now (name : string) : option (Cluster Q) := cleanupNode c now name.

Definition poolLabel (claim : NodeClaim Q) : string := default ""%string (nc_Labels claim !! NodePoolLabelKey).

(** One node of [MarkForDeletion] and [UnmarkForDeletion]. *)
Definition markNode (marked : bool) c (id : string) : option (Cluster Q) :=
  match nodes c !! id with
  | None => Some c
  | Some n =>
      let n' := setMarked n marked in
      c ← updateNodePoolResources (withNodes c (<[id := n']> (nodes c))) (Some n) (Some n');
      Some (match sn_NodeClaim n with
        | None => c
        | Some claim =>
            if marked then withPoolState c (MarkNodeClaimDeleting (cl_NodePoolState c) (poolLabel claim) (nc_Name claim))
            else match nc_DeletionTimestamp claim with
              | Some _ => c
              | None => withPoolState c (MarkNodeClaimActive (cl_NodePoolState c) (poolLabel claim) (nc_Name claim))
              end
        end)
  end.

Definition markNodes (marked : bool) c (ids : list string) : option (Cluster Q) :=
  foldl (λ acc id, acc ≫= λ c, markNode marked c id) (Some c) ids.

Definition MarkForDeletion c (ids : list string) : option (Cluster Q) := markNodes true c ids.
Definition UnmarkForDeletion c (ids : list string) : option (Cluster Q) := markNodes false c ids.

(** ** Nominations and copies *)

Definition IsNodeNominated c now (providerID : string) : bool :=
  match nodes c !! providerID with Some n => Nominated n now | None => false end.

Definition NominateNodeForPod c (batchMaxDuration now : Z) (providerID : string) : Cluster Q :=
  withNodes c (alter (λ n, Nominate n batchMaxDuration now) providerID (nodes c)).

(** The totals the copies share are computed in the cached nodes. *)
Definition ensureAllTotals c : Cluster Q := withNodes c (ensureRequestTotals <$> nodes c).

Definition SimulationCopyNodes `{GoRange} c : Cluster Q * list (StateNode Q) :=
  let c := ensureAllTotals c in (c, (λ kn, SimulationCopy kn.2) <$> gorange (nodes c)).

Definition BufferPodCount c (providerID : string) : Z := default 0 (bufferPodCounts c !! providerID).
Definition HasBufferPods c (providerID : string) : bool := 0 <? BufferPodCount c providerID.

(** ** Synchronisation *)

(** [apiNames] are the names of the NodeClaims and nodes the API server lists,
    [None] an error. *)
Definition Synced c (apiNames : option (gset string * gset string)) : Cluster Q * bool :=
  let launched := map_forallb (λ _ id, negb (String.eqb id "")) (nodeClaimNameToProviderID c) in
  if hasSynced c then (c, launched)
  else
    match apiNames with
    | None => (c, false)
    | Some (nodeClaimNames, nodeNames) =>
        if negb launched then (c, false)
        else
          let synced := bool_decide (nodeClaimNames ⊆ dom (nodeClaimNameToProviderID c)) &&
                        bool_decide (nodeNames ⊆ dom (nodeNameToProviderID c)) in
          ((if synced then SetSynced c true else c), synced)
    end.

Definition NodeClaimExists c (name : string) : bool := bool_decide (is_Some (nodeClaimNameToProviderID c !! name)).

Definition NodePoolResourcesFor c (nodePoolName : string) : gmap string Q := default ∅ (nodePoolResources c !! nodePoolName).

(** The pods with a required anti-affinity term, with the node they run on. *)
Definition podsWithAntiAffinity `{GoRange} c : list (Pod * Node Q) :=
  omap (λ kp,
    nodeName ← bindings c !! ObjectKeyFromObject kp.2;
    n ← nodes c !! default ""%string (nodeNameToProviderID c !! nodeName);
    node ← sn_Node n;
    Some (kp.2, node)) (gorange (antiAffinityPods c)).

(** ** Daemon sets *)

(** The newest pod of the daemon set. *)
Definition newestControlled (controlled : Pod → bool) (pods : list Pod) : option Pod :=
  foldl (λ newest p,
    if controlled p && match newest with None => true | Some q => pod_CreationTimestamp q <? pod_CreationTimestamp p end
    then Some p else newest) None pods.

(** [pods] are those of the namespace, [None] an error; whether it is reported. *)
Definition UpdateDaemonSet c (daemonset : NamespacedName) (controlled : Pod → bool) (pods : option (list Pod)) : Cluster Q * bool :=
  match pods with
  | None => (c, true)
  | Some pods =>
      (match newestControlled controlled pods with
       | Some pod => withDaemonSetPods c (<[daemonset := pod]> (daemonSetPods c))
       | None => c
       end, false)
  end.

Definition DeleteDaemonSet c (key : NamespacedName) : Cluster Q := withDaemonSetPods c (delete key (daemonSetPods c)).
Definition GetDaemonSetPod c (daemonset : NamespacedName) : option Pod := daemonSetPods c !! daemonset.
End cluster.

(** ** Scheduling times of pods *)

Section pod_times.
Implicit Types (t : PodTimes) (now : Z) (pod : Pod) (podKey : NamespacedName).

(** [sync.Map.LoadOrStore] *)
Definition loadOrStore (m : gmap NamespacedName Z) podKey now : gmap NamespacedName Z :=
  match m !! podKey with Some _ => m | None => <[podKey := now]> m end.

Definition AckPods t now (pods : list Pod) : PodTimes :=
  foldl (λ t pod, mkPodTimes (loadOrStore (podAcks t) (ObjectKeyFromObject pod) now) (podsSchedulingAttempted t) (podsSchedulableTimes t)
    (podHealthyNodePoolScheduledTime t) (podToNodeClaim t) (podsUnprovisionableTimes t)) t pods.

(** A pod that could not be scheduled. *)
Definition markFailed now t pod : PodTimes :=
  let podKey := ObjectKeyFromObject pod in
  mkPodTimes (podAcks t) (loadOrStore (podsSchedulingAttempted t) podKey now) (delete podKey (podsSchedulableTimes t))
    (delete podKey (podHealthyNodePoolScheduledTime t)) (delete podKey (podToNodeClaim t)) (delete podKey (podsUnprovisionableTimes t)).

(** A pod that was given a place in a pool, at [now] for the pass and [later]
    for the pool's health. *)
Definition markScheduled now (later : Z) (healthy : bool) t pod : PodTimes :=
  let podKey := ObjectKeyFromObject pod in
  if IsScheduled pod then t
  else mkPodTimes (podAcks t) (loadOrStore (podsSchedulingAttempted t) podKey now) (loadOrStore (podsSchedulableTimes t) podKey now)
    (if healthy then loadOrStore (podHealthyNodePoolScheduledTime t) podKey later else delete podKey (podHealthyNodePoolScheduledTime t))
    (podToNodeClaim t) (delete podKey (podsUnprovisionableTimes t)).

Definition mapToClaim (ncName : string) t pod : PodTimes :=
  let podKey := ObjectKeyFromObject pod in
  mkPodTimes (podAcks t) (podsSchedulingAttempted t) (podsSchedulableTimes t) (podHealthyNodePoolScheduledTime t)
    (<[podKey := ncName]> (podToNodeClaim t)) (delete podKey (podsUnprovisionableTimes t)).

Definition UpdatePodToNodeClaimMapping t (ncPods : list (string * list Pod)) : PodTimes :=
  foldl (λ t np, foldl (mapToClaim np.1) t np.2) t ncPods.

(** [healthy] tells whether the NodePool could be read and registers nodes. *)
Definition MarkPodSchedulingDecisions t now (later : Z) (healthy : string → bool) (podErrors : list Pod)
    (npPods ncPods : list (string * list Pod)) : PodTimes :=
  let t := foldl (markFailed now) t podErrors in
  let t := foldl (λ t np, foldl (markScheduled now later (negb (String.eqb np.1 "") && healthy np.1)) t np.2) t npPods in
  UpdatePodToNodeClaimMapping t ncPods.

Definition MarkPodsUnprovisionable t now (pods : list Pod) : PodTimes :=
  foldl (λ t pod, mkPodTimes (podAcks t) (podsSchedulingAttempted t) (podsSchedulableTimes t) (podHealthyNodePoolScheduledTime t)
    (podToNodeClaim t) (<[ObjectKeyFromObject pod := now]> (podsUnprovisionableTimes t))) t pods.

Definition ClearPodSchedulingMappings t podKey : PodTimes :=
  mkPodTimes (delete podKey (podAcks t)) (delete podKey (podsSchedulingAttempted t)) (delete podKey (podsSchedulableTimes t))
    (delete podKey (podHealthyNodePoolScheduledTime t)) (delete podKey (podToNodeClaim t)) (delete podKey (podsUnprovisionableTimes t)).

(** The zero time for a pod that is not in the map. *)
Definition timeOf (m : gmap NamespacedName Z) podKey : Z := default 0 (m !! podKey).
Definition PodAckTime t podKey : Z := timeOf (podAcks t) podKey.
Definition PodSchedulingDecisionTime t podKey : Z := timeOf (podsSchedulingAttempted t) podKey.
Definition PodSchedulingSuccessTime t podKey : Z := timeOf (podsSchedulableTimes t) podKey.
Definition PodSchedulingSuccessTimeRegistrationHealthyCheck t podKey : Z := timeOf (podHealthyNodePoolScheduledTime t) podKey.
Definition PodUnprovisionableTime t podKey : Z := timeOf (podsUnprovisionableTimes t) podKey.
Definition PodNodeClaimMapping t podKey : string := default ""%string (podToNodeClaim t !! podKey).
End pod_times.

Definition DeletePod {Q : Type} `{Quantity Q} {NI : NetIP} (c : Cluster Q) (now : Z) (podKey : NamespacedName) : Cluster Q :=
  let c := withAntiAffinityPods c (delete podKey (antiAffinityPods c)) in
  let c := updateNodeUsageFromPodCompletion c podKey in
  MarkUnconsolidated (withPodTimes c (ClearPodSchedulingMappings (podTimes c) podKey)) now.

(** [Cluster.Reset], which keeps two of the maps of pod times. *)
Definition Reset {Q : Type} `{NetIP} (c : Cluster Q) : Cluster Q :=
  mkCluster ∅ ∅ ∅ ∅ ∅ NodePoolState.Reset ∅ ∅
    (mkPodTimes ∅ ∅ ∅ (podHealthyNodePoolScheduledTime (podTimes c)) (podToNodeClaim (podTimes c)) ∅) 0 false ∅.
