(* ===== verification/ClusterInv.v ===== *)
(** * Consistency of cluster state

    The invariant of [Cluster.v] and that every operation keeps it: the names of
    nodes and NodeClaims point to the cached nodes that carry them, the resources
    of a node pool are the sum of the capacities of its nodes that are not on
    their way out, and a pod is charged to no node but the one it is bound to.
    From it follows that no operation panics. *)

From S2P Require Import Prelude Float64 Kube Taints HostPorts Volumes PodUtils Resources StateNode NodePoolState Cluster.

Section cluster_theory.
Context {Q : Type} `{QuantityLaws Q} {NI : NetIP} {TL : TaintLib} {PS : Parsers} {SA : StorageAPI} {PR : PodResources Q}.
Implicit Types (c : Cluster Q) (n : StateNode Q) (now : Z) (pod : Pod) (podKey : NamespacedName) (id name pool r : string)
  (pools : gmap string (gmap string Q)) (pending : NamespacedName → string → Prop).

(** ** The resources of a pool *)

(** What a cached node adds to a resource of a pool. *)
Definition contrib (n : option (StateNode Q)) pool r : Z :=
  if decide ((poolCharge n).1 = pool) then amount (poolCharge n).2 r else 0.

Definition poolTotal (ns : gmap string (StateNode Q)) pool r : Z :=
  foldr (λ kn total, contrib (Some kn.2) pool r + total) 0 (map_to_list ns).

Lemma contrib_None pool r : contrib None pool r = 0.
Proof. unfold contrib. cbn [poolCharge fst snd]. case_decide; [apply amount_empty|done]. Qed.

Lemma contrib_NewNode pool r : contrib (Some NewNode) pool r = 0.
Proof. unfold contrib. change (poolCharge (Some (@NewNode Q NI))) with (""%string, (∅ : gmap string Q)). cbn [fst snd]. case_decide; [apply amount_empty|done]. Qed.

Lemma contribs_perm (l l' : list (string * StateNode Q)) pool r :
  l ≡ₚ l' → foldr (λ kn total, contrib (Some kn.2) pool r + total) 0 l = foldr (λ kn total, contrib (Some kn.2) pool r + total) 0 l'.
Proof. induction 1; cbn [foldr]; lia. Qed.

Lemma poolTotal_insert_new ns id n pool r : ns !! id = None → poolTotal (<[id := n]> ns) pool r = contrib (Some n) pool r + poolTotal ns pool r.
Proof.
  intros Hid. unfold poolTotal. by rewrite (contribs_perm _ _ pool r (map_to_list_insert ns id n Hid)).
Qed.

Lemma poolTotal_lookup ns id pool r : poolTotal ns pool r = contrib (ns !! id) pool r + poolTotal (delete id ns) pool r.
Proof.
  destruct (ns !! id) as [n|] eqn:Hn; [|by rewrite contrib_None, delete_id].
  rewrite <- (insert_delete_id ns id n Hn) at 1. by rewrite poolTotal_insert_new by apply lookup_delete_eq.
Qed.

Lemma poolTotal_insert ns id n pool r :
  poolTotal (<[id := n]> ns) pool r = poolTotal ns pool r - contrib (ns !! id) pool r + contrib (Some n) pool r.
Proof. rewrite (poolTotal_lookup (<[id := n]> ns) id), (poolTotal_lookup ns id), lookup_insert_eq, delete_insert_eq. lia. Qed.

Lemma poolTotal_delete ns id pool r : poolTotal (delete id ns) pool r = poolTotal ns pool r - contrib (ns !! id) pool r.
Proof. rewrite (poolTotal_lookup ns id). lia. Qed.

(** Every node counts one node, or nothing. *)
Lemma contrib_node (o : option (StateNode Q)) pool : contrib o pool ResourceNode = 0 ∨ contrib o pool ResourceNode = qunit.
Proof.
  unfold contrib. case_decide; [|by left]. destruct o as [n|]; [|left; apply amount_empty]. cbn [poolCharge].
  destruct (Labels n); [|left; apply amount_empty]. cbn [snd]. destruct (MarkedForDeletion n); [left; apply amount_empty|right].
  unfold amount, rget. rewrite lookup_insert_eq. cbn [from_option Datatypes.id]. rewrite qval_ofint. lia.
Qed.

Lemma poolTotal_nodes ns pool : 0 <= poolTotal ns pool ResourceNode.
Proof.
  unfold poolTotal. pose proof qunit_pos. induction (map_to_list ns) as [|[k n] l IH]; cbn [foldr snd]; [lia|].
  destruct (contrib_node (Some n) pool); lia.
Qed.

(** A pool with a node that counts has resources. *)
Lemma charged_pool ns id n :
  ns !! id = Some n → (poolCharge (Some n)).2 ≠ ∅ → 0 < poolTotal ns (poolCharge (Some n)).1 ResourceNode.
Proof.
  intros Hn Hne. rewrite (poolTotal_lookup ns id), Hn. pose proof (poolTotal_nodes (delete id ns) (poolCharge (Some n)).1). pose proof qunit_pos.
  enough (contrib (Some n) (poolCharge (Some n)).1 ResourceNode = qunit) by lia.
  unfold contrib. rewrite decide_True by done. cbn [poolCharge] in *. destruct (Labels n); [|done]. cbn [snd] in *.
  destruct (MarkedForDeletion n); [done|]. unfold amount, rget. rewrite lookup_insert_eq. cbn [from_option Datatypes.id]. rewrite qval_ofint. lia.
Qed.

(** The table of the pools holds these amounts, and no pool without any. *)
Record pools_hold pools (total : string → string → Z) : Prop := {
  ph_amount : ∀ pool r, pool ≠ ""%string → amount (default ∅ (pools !! pool)) r = total pool r;
  ph_present : ∀ pool rl, pools !! pool = Some rl → pool ≠ ""%string ∧ ∃ r, amount rl r ≠ 0;
}.

Lemma IsZero_amounts (rl : gmap string Q) : map_forallb (λ _ v, IsZero v) rl = true ↔ ∀ r, amount rl r = 0.
Proof.
  rewrite map_forallb_true. unfold amount, rget, IsZero. setoid_rewrite qcmp_val. rewrite qval_zero. split.
  - intros Hz r. destruct (rl !! r) as [x|] eqn:Hx; cbn [from_option Datatypes.id]; [|apply qval_zero]. specialize (Hz r x Hx).
    destruct (qval x ?= 0) eqn:Hc; [by apply Z.compare_eq|done..].
  - intros Hz r x Hx. specialize (Hz r). rewrite Hx in Hz. cbn [from_option Datatypes.id] in Hz. by rewrite Hz.
Qed.

Lemma collectPool_amount name pools pool r : amount (default ∅ (collectPool name pools !! pool)) r = amount (default ∅ (pools !! pool)) r.
Proof.
  unfold collectPool. destruct (map_forallb _ _) eqn:Hz; [|done]. destruct (decide (name = pool)) as [->|Hne]; [|by rewrite lookup_delete_ne].
  rewrite IsZero_amounts in Hz. rewrite lookup_delete_eq, Hz. apply amount_empty.
Qed.

Lemma collectPool_lookup name pools pool rl :
  collectPool name pools !! pool = Some rl → pools !! pool = Some rl ∧ (name = pool → ∃ r, amount rl r ≠ 0).
Proof.
  unfold collectPool. destruct (map_forallb _ _) eqn:Hz.
  - intros [Hne Hl]%lookup_delete_Some. done.
  - intros Hl. split; [done|]. intros ->. rewrite Hl in Hz. cbn [from_option Datatypes.id] in Hz. apply not_true_iff_false in Hz. rewrite IsZero_amounts in Hz.
    unfold map_forallb in *. destruct (decide (map_Forall (λ _ v, qval v = 0) rl)) as [Hall|Hex].
    + destruct Hz. intros r. unfold amount, rget. destruct (rl !! r) eqn:Hr; cbn [from_option Datatypes.id]; [by apply (Hall r)|apply qval_zero].
    + apply map_not_Forall in Hex as (r & x & Hr & Hx); [|apply _]. exists r. unfold amount, rget. by rewrite Hr.
Qed.

(** The three steps of [updateNodePoolResources] on the table. *)
Lemma ensured_pools pools name :
  let pools' := match pools !! name with None => if String.eqb name "" then pools else <[name := ∅]> pools | Some _ => pools end in
  (∀ pool r, amount (default ∅ (pools' !! pool)) r = amount (default ∅ (pools !! pool)) r) ∧
  (∀ pool, pool ≠ name → pools' !! pool = pools !! pool) ∧ (∀ pool, is_Some (pools !! pool) → is_Some (pools' !! pool)) ∧
  (name ≠ ""%string → is_Some (pools' !! name)) ∧ (name = ""%string → pools' = pools).
Proof.
  cbv zeta. destruct (pools !! name) as [rl|] eqn:Hn; [by split_and!; rewrite ?Hn|]. destruct (String.eqb_spec name ""); [by split_and!|]. split_and!.
  - intros pool r. destruct (decide (name = pool)) as [->|]; [by rewrite lookup_insert_eq, Hn|by rewrite lookup_insert_ne].
  - intros pool Hne. by rewrite lookup_insert_ne.
  - intros pool. destruct (decide (name = pool)) as [->|]; [by rewrite lookup_insert_eq|by rewrite lookup_insert_ne].
  - by rewrite lookup_insert_eq.
  - done.
Qed.

Lemma discharged_pools pools name (rs : gmap string Q) :
  (name ≠ ""%string → rs ≠ ∅ → is_Some (pools !! name)) →
  ∃ pools', (if String.eqb name "" || bool_decide (rs = ∅) then Some pools
     else resources ← pools !! name;
       Some (<[name := range_update (λ current quantity, qsub (default qzero current) quantity) rs resources]> pools)) = Some pools' ∧
    (∀ pool r, pool ≠ ""%string → amount (default ∅ (pools' !! pool)) r =
       amount (default ∅ (pools !! pool)) r - if decide (name = pool) then amount rs r else 0) ∧
    (∀ pool, pool ≠ name → pools' !! pool = pools !! pool) ∧ (∀ pool, is_Some (pools !! pool) → is_Some (pools' !! pool)) ∧
    (name = ""%string → pools' = pools).
Proof.
  intros Hin. destruct (String.eqb_spec name "") as [->|Hname]; cbn [orb].
  { exists pools. split_and!; try done. intros pool r Hpool. rewrite decide_False by done. lia. }
  case_bool_decide as Hrs.
  { exists pools. split_and!; try done. intros pool r _. subst rs. rewrite amount_empty. case_decide; lia. }
  destruct (Hin Hname Hrs) as [rl Hrl]. rewrite Hrl. cbn [mbind option_bind].
  change (range_update (λ current quantity, qsub (default qzero current) quantity) rs rl) with (subtracted rl rs).
  eexists. split; [reflexivity|]. split_and!.
  - intros pool r Hpool. case_decide as Hp; [subst pool; rewrite lookup_insert_eq, Hrl; cbn [from_option Datatypes.id]; by rewrite amount_subtracted|].
    rewrite lookup_insert_ne by done. lia.
  - intros pool Hne. by rewrite lookup_insert_ne.
  - intros pool. destruct (decide (name = pool)) as [->|]; [by rewrite lookup_insert_eq|by rewrite lookup_insert_ne].
  - done.
Qed.

Lemma charged_pools pools name (rs : gmap string Q) :
  (name ≠ ""%string → is_Some (pools !! name)) →
  let pools' := if String.eqb name "" then pools else alter (λ resources, sumInto resources rs) name pools in
  (∀ pool r, pool ≠ ""%string → amount (default ∅ (pools' !! pool)) r =
     amount (default ∅ (pools !! pool)) r + if decide (name = pool) then amount rs r else 0) ∧
  (∀ pool, pool ≠ name → pools' !! pool = pools !! pool) ∧ (name = ""%string → pools' = pools).
Proof.
  intros Hin. cbv zeta. destruct (String.eqb_spec name "") as [->|Hname].
  { split_and!; try done. intros pool r Hpool. rewrite decide_False by done. lia. }
  destruct (Hin Hname) as [rl Hrl]. split_and!.
  - intros pool r Hpool. case_decide as Hp; [subst pool; rewrite lookup_alter_eq, Hrl; cbn [from_option Datatypes.id fmap option_fmap option_map]; by rewrite amount_sumInto|].
    rewrite lookup_alter_ne by done. lia.
  - intros pool Hne. by rewrite lookup_alter_ne.
  - done.
Qed.

(** Replacing one node by another in the table.  The old node's pool must be in
    the table, else the Go code writes to a nil map. *)
Lemma updateNodePoolResources_ok c total (old new : option (StateNode Q)) :
  pools_hold (nodePoolResources c) total →
  ((poolCharge old).2 ≠ ∅ → total (poolCharge old).1 ResourceNode ≠ 0) →
  ∃ pools, updateNodePoolResources c old new = Some (withPoolResources c pools) ∧
    pools_hold pools (λ pool r, total pool r - contrib old pool r + contrib new pool r).
Proof.
  intros [Ham Hpres] Hold. unfold updateNodePoolResources, contrib. destruct (poolCharge old) as [oldName oldRes].
  destruct (poolCharge new) as [newName newRes]. cbn [fst snd] in *.
  destruct (ensured_pools (nodePoolResources c) newName) as (Ha0 & Hl0 & Hs0 & Hn0 & He0).
  set (pools0 := match nodePoolResources c !! newName with Some _ => _ | None => _ end) in *. clearbody pools0.
  destruct (discharged_pools pools0 oldName oldRes) as (pools1 & -> & Ha1 & Hl1 & Hs1 & He1).
  { intros Hname Hne. apply Hs0. specialize (Hold Hne). rewrite <- Ham in Hold by done.
    destruct (nodePoolResources c !! oldName); [done|]. exfalso; apply Hold, amount_empty. }
  cbn [mbind option_bind].
  destruct (charged_pools pools1 newName newRes) as (Ha2 & Hl2 & He2); [by intros Hname; apply Hs1, Hn0|].
  set (pools2 := if String.eqb newName "" then _ else _) in *. eexists. split; [reflexivity|]. split.
  - intros pool r Hpool. rewrite !collectPool_amount, Ha2, Ha1, Ha0, Ham by done. done.
  - intros pool rl [[Hl Ho]%collectPool_lookup Hn]%collectPool_lookup.
    destruct (decide (pool = ""%string)) as [->|Hpool].
    + exfalso. assert (nodePoolResources c !! ""%string = None) as Hnone.
      { destruct (nodePoolResources c !! ""%string) as [rl'|] eqn:Hr; [|done]. by destruct (Hpres _ _ Hr). }
      assert (∀ (m m' : gmap string (gmap string Q)) nm, (∀ pool, pool ≠ nm → m' !! pool = m !! pool) → (nm = ""%string → m' = m) →
        m !! ""%string = None → m' !! ""%string = None) as Hstep.
      { intros m m' nm Hm Hm' Hmn. destruct (decide (nm = ""%string)) as [Hnm|Hnm]; [by rewrite Hm'|]. by rewrite Hm. }
      assert (pools2 !! ""%string = None) as Habs by (eapply Hstep, Hstep, Hstep; [exact Hl2|exact He2|exact Hl1|exact He1|exact Hl0|exact He0|exact Hnone]).
      by rewrite Hl in Habs.
    + split; [done|]. destruct (decide (newName = pool)); [by apply Hn|]. destruct (decide (oldName = pool)); [by apply Ho|].
      rewrite Hl2, Hl1, Hl0 in Hl by done. by apply (Hpres pool).
Qed.

(** ** The invariant *)

(** [pending] are the pods that are charged to a node but not yet bound to it,
    in the middle of an operation. *)
Record cluster_wf (pending : NamespacedName → string → Prop) c : Prop := {
  cw_node : ∀ id n, nodes c !! id = Some n → id ≠ ""%string ∧ isMock n = false;
  cw_node_names : ∀ name id, nodeNameToProviderID c !! name = Some id →
    ∃ n node, nodes c !! id = Some n ∧ sn_Node n = Some node ∧ n_Name node = name;
  cw_node_named : ∀ id n node, nodes c !! id = Some n → sn_Node n = Some node → nodeNameToProviderID c !! n_Name node = Some id;
  cw_claim_names : ∀ name id, nodeClaimNameToProviderID c !! name = Some id → id ≠ ""%string →
    ∃ n claim, nodes c !! id = Some n ∧ sn_NodeClaim n = Some claim ∧ nc_Name claim = name;
  cw_claim_named : ∀ id n claim, nodes c !! id = Some n → sn_NodeClaim n = Some claim →
    nodeClaimNameToProviderID c !! nc_Name claim = Some id;
  cw_pools : pools_hold (nodePoolResources c) (poolTotal (nodes c));
  cw_bound : ∀ id n node podKey, nodes c !! id = Some n → sn_Node n = Some node → is_Some (podRequests n !! podKey) →
    pending podKey (n_Name node) ∨ bindings c !! podKey = Some (n_Name node);
}.

Definition settled (_ : NamespacedName) (_ : string) : Prop := False.

(** An operation that keeps what the invariant is about keeps the invariant. *)
Lemma wf_same pending c c' :
  nodes c' = nodes c → nodeNameToProviderID c' = nodeNameToProviderID c → nodeClaimNameToProviderID c' = nodeClaimNameToProviderID c →
  nodePoolResources c' = nodePoolResources c → bindings c' = bindings c → cluster_wf pending c → cluster_wf pending c'.
Proof. intros H1 H2 H3 H4 H5 []. split; rewrite ?H1, ?H2, ?H3, ?H4, ?H5; done. Qed.

(** The table entry of a cached node's pool exists when it counts. *)
Lemma old_charged pending c id n :
  cluster_wf pending c → nodes c !! id = Some n → (poolCharge (Some n)).2 ≠ ∅ → poolTotal (nodes c) (poolCharge (Some n)).1 ResourceNode ≠ 0.
Proof. intros _ Hn Hne. pose proof (charged_pool (nodes c) id n Hn Hne). lia. Qed.

Lemma pools_hold_ext pools (t t' : string → string → Z) : (∀ pool r, t pool r = t' pool r) → pools_hold pools t → pools_hold pools t'.
Proof. intros Ht [Ha Hp]. split; [|done]. intros pool r Hpool. by rewrite <- Ht, Ha. Qed.

(** Nodes that differ in what the invariant does not look at. *)
Record same_shell n n' : Prop := {
  ss_node : sn_Node n' = sn_Node n;
  ss_claim : sn_NodeClaim n' = sn_NodeClaim n;
  ss_marked : markedForDeletion n' = markedForDeletion n;
}.

Lemma same_shell_charge n n' : same_shell n n' → poolCharge (Some n') = poolCharge (Some n).
Proof.
  intros [H1 H2 H3]. cbn [poolCharge]. unfold Labels, nodeOrClaim, MarkedForDeletion, Deleted, Capacity, Registered, Initialized, Managed, nodeLabelTrue.
  by rewrite H1, H2, H3.
Qed.

Lemma same_shell_mock n n' : same_shell n n' → isMock n' = isMock n.
Proof. intros [H1 H2 _]. unfold isMock. by rewrite H1, H2. Qed.

(** Replacing a cached node by one of the same node and NodeClaim. *)
Lemma wf_replace (pending pending' : NamespacedName → string → Prop) c id n n' (b : gmap NamespacedName string) pools :
  cluster_wf pending c → nodes c !! id = Some n → sn_Node n' = sn_Node n → sn_NodeClaim n' = sn_NodeClaim n →
  pools_hold pools (poolTotal (<[id := n']> (nodes c))) →
  (∀ id' m node podKey, <[id := n']> (nodes c) !! id' = Some m → sn_Node m = Some node → is_Some (podRequests m !! podKey) →
     pending' podKey (n_Name node) ∨ b !! podKey = Some (n_Name node)) →
  cluster_wf pending' (withPoolResources (withBindings (withNodes c (<[id := n']> (nodes c))) b) pools).
Proof.
  intros [Hn Hnn Hnd Hcn Hcd Hp Hb] Hid Hs1 Hs2 Hpools Hbound.
  assert (isMock n' = isMock n) as Hmock by (unfold isMock; by rewrite Hs1, Hs2).
  assert (∀ id' m, <[id := n']> (nodes c) !! id' = Some m → ∃ m0, nodes c !! id' = Some m0 ∧ sn_Node m = sn_Node m0 ∧
    sn_NodeClaim m = sn_NodeClaim m0 ∧ isMock m = isMock m0) as Hback.
  { intros id' m [[<- <-]|[_ Hm]]%lookup_insert_Some; [by exists n|by exists m]. }
  assert (∀ id' m0, nodes c !! id' = Some m0 → ∃ m, <[id := n']> (nodes c) !! id' = Some m ∧ sn_Node m = sn_Node m0 ∧
    sn_NodeClaim m = sn_NodeClaim m0) as Hforth.
  { intros id' m0 Hm. destruct (decide (id = id')) as [<-|]; [|by exists m0; rewrite lookup_insert_ne].
    exists n'. rewrite lookup_insert_eq. by rewrite Hid in Hm; injection Hm as <-. }
  split; cbn [withPoolResources withBindings withNodes nodes bindings nodeNameToProviderID nodeClaimNameToProviderID nodePoolResources]; [| | | | |done|done].
  - intros id' m (m0 & Hm0 & _ & _ & ->)%Hback. by apply (Hn id').
  - intros name id' (m0 & node & Hm0 & Hnode & Hname)%Hnn. destruct (Hforth _ _ Hm0) as (m & Hm & Hm1 & _). exists m, node. by rewrite Hm1.
  - intros id' m node (m0 & Hm0 & Heq & _)%Hback. rewrite Heq. by apply Hnd.
  - intros name id' Hname Hne. destruct (Hcn _ _ Hname Hne) as (m0 & claim & Hm0 & Hcl & Hnm). destruct (Hforth _ _ Hm0) as (m & Hm & _ & Hm1).
    exists m, claim. by rewrite Hm1.
  - intros id' m claim (m0 & Hm0 & _ & Heq & _)%Hback. rewrite Heq. by apply Hcd.
Qed.

(** Changing the pods of one cached node, and the bindings with it. *)
Lemma wf_node_pods (pending pending' : NamespacedName → string → Prop) c id n n' (b : gmap NamespacedName string) :
  cluster_wf pending c → nodes c !! id = Some n → same_shell n n' →
  (∀ id' m node podKey, <[id := n']> (nodes c) !! id' = Some m → sn_Node m = Some node → is_Some (podRequests m !! podKey) →
     pending' podKey (n_Name node) ∨ b !! podKey = Some (n_Name node)) →
  cluster_wf pending' (withBindings (withNodes c (<[id := n']> (nodes c))) b).
Proof.
  intros Hwf Hid Hs Hbound. pose proof (same_shell_charge n n' Hs) as Hch. destruct Hs as [Hs1 Hs2 Hs3].
  eapply wf_same; [..|apply (wf_replace pending pending' c id n n' b (nodePoolResources c)); [done|done|done|done| |exact Hbound]]; [done..|].
  eapply pools_hold_ext; [|apply (cw_pools _ _ Hwf)]. intros pool r. rewrite poolTotal_insert, Hid. unfold contrib. rewrite Hch. lia.
Qed.

(** ** Pods *)

(** What an operation on pods leaves alone. *)
Record pods_frame c c' : Prop := {
  pf_node_names : nodeNameToProviderID c' = nodeNameToProviderID c;
  pf_claim_names : nodeClaimNameToProviderID c' = nodeClaimNameToProviderID c;
  pf_nodes : ∀ id, match nodes c !! id, nodes c' !! id with Some n, Some n' => same_shell n n' | None, None => True | _, _ => False end;
}.

#[export] Instance pods_frame_preorder : PreOrder pods_frame.
Proof.
  split; [split; [done|done|]; intros id; by destruct (nodes _ !! id)|]. intros a b d [H1 H2 H3] [K1 K2 K3].
  split; [congruence|congruence|]. intros id. specialize (H3 id). specialize (K3 id).
  destruct (nodes a !! id), (nodes b !! id), (nodes d !! id); try done. destruct H3, K3. split; congruence.
Qed.

Lemma cleanupForPod_shell n podKey : same_shell n (cleanupForPod n podKey).
Proof. done. Qed.

Lemma updateForPod_shell n pod n' :
  updateForPod n pod = Some n' → same_shell n n' ∧ ∃ rl, podRequests n' = <[ObjectKeyFromObject pod := rl]> (podRequests n).
Proof. unfold updateForPod. intros (vols & _ & [= <-])%bind_Some. split; [done|]. eexists. reflexivity. Qed.

Lemma frame_insert c id n n' (b : gmap NamespacedName string) :
  nodes c !! id = Some n → same_shell n n' → pods_frame c (withBindings (withNodes c (<[id := n']> (nodes c))) b).
Proof.
  intros Hid Hs. split; [done|done|]. intros id'. cbn [withBindings withNodes nodes].
  destruct (decide (id = id')) as [<-|]; [by rewrite lookup_insert_eq, Hid|]. rewrite lookup_insert_ne by done. by destruct (nodes c !! id').
Qed.

(** Taking a pod off the node it was bound to. *)
Lemma unbind_wf pending c podKey nodeName n :
  let id := default ""%string (nodeNameToProviderID c !! nodeName) in
  cluster_wf pending c → bindings c !! podKey = Some nodeName → nodes c !! id = Some n →
  cluster_wf (λ k nm, pending k nm ∧ (k = podKey → nm ≠ nodeName))
    (withBindings (withNodes c (<[id := cleanupForPod n podKey]> (nodes c))) (delete podKey (bindings c))).
Proof.
  intros id Hwf Hb Hid. apply (wf_node_pods pending _ c id n); [done|done|apply cleanupForPod_shell|].
  intros id' m node key Hm Hnode Hkey.
  assert (n_Name node = nodeName → id' = id) as Hsame.
  { intros <-. unfold id. apply lookup_insert_Some in Hm as [[<- <-]|[_ Hm]]; [done|]. by rewrite (cw_node_named _ _ Hwf id' m node). }
  apply lookup_insert_Some in Hm as [[<- <-]|[Hne Hm]].
  - cbn [cleanupForPod podRequests] in Hkey. destruct (decide (key = podKey)) as [->|Hk]; [rewrite lookup_delete_eq in Hkey; by destruct Hkey|].
    rewrite lookup_delete_ne in Hkey by done. rewrite lookup_delete_ne by done.
    destruct (cw_bound _ _ Hwf id n node key Hid Hnode Hkey); [left; by split|by right].
  - destruct (cw_bound _ _ Hwf id' m node key Hm Hnode Hkey) as [Hp|Hbound].
    + left. split; [done|]. intros -> Heq. by destruct Hne; rewrite Hsame.
    + right. rewrite lookup_delete_ne; [done|]. intros <-. rewrite Hb in Hbound. injection Hbound as Heq. by destruct Hne; rewrite Hsame.
Qed.

Definition arriving pod (k : NamespacedName) (nm : string) : Prop := k = ObjectKeyFromObject pod ∧ nm = pod_NodeName pod.

Lemma bind_wf c (b : gmap NamespacedName string) podKey nodeName pending :
  cluster_wf pending c → (∀ k nm, pending k nm → k = podKey ∧ nm = nodeName) →
  (∀ k, k ≠ podKey → b !! k = bindings c !! k) → b !! podKey = Some nodeName →
  (∀ id n node, nodes c !! id = Some n → sn_Node n = Some node → is_Some (podRequests n !! podKey) → n_Name node = nodeName) →
  cluster_wf settled (withBindings c b).
Proof.
  intros [H1 H2 H3 H4 H5 H6 H7] Hpend Hb Hbk Hat. split; try done. intros id n node key Hn Hnode Hkey. right. cbn [withBindings bindings] in *.
  destruct (decide (key = podKey)) as [->|Hk]; [rewrite Hbk; by erewrite Hat|]. rewrite Hb by done.
  destruct (H7 id n node key Hn Hnode Hkey) as [Hp|]; [by apply Hpend in Hp as [-> _]|done].
Qed.

Lemma withBindings_insert_lookup (b : gmap NamespacedName string) podKey nodeName k :
  <[podKey := nodeName]> b !! k = if decide (k = podKey) then Some nodeName else b !! k.
Proof. case_decide as Hk; [subst; apply lookup_insert_eq|by apply lookup_insert_ne]. Qed.

Lemma frame_bindings c (b : gmap NamespacedName string) : pods_frame c (withBindings c b).
Proof. split; [done|done|]. intros id. cbn [withBindings nodes]. by destruct (nodes c !! id). Qed.

Lemma frame_mark c now : pods_frame c (MarkUnconsolidated c now).
Proof. split; [done|done|]. intros id. cbn [MarkUnconsolidated nodes]. by destruct (nodes c !! id). Qed.

Lemma bindPod_ok c now pod :
  cluster_wf (arriving pod) c →
  cluster_wf settled (bindPod c now pod) ∧ pods_frame c (bindPod c now pod) ∧
  ∀ k, bindings (bindPod c now pod) !! k = if decide (k = ObjectKeyFromObject pod) then Some (pod_NodeName pod) else bindings c !! k.
Proof.
  intros Hwf. unfold bindPod. set (podKey := ObjectKeyFromObject pod). set (c1 := cleanupOldBindings c now pod).
  enough (∃ pending, cluster_wf pending c1 ∧ (∀ k nm, pending k nm → k = podKey ∧ nm = pod_NodeName pod) ∧ pods_frame c c1 ∧
    (∀ k, k ≠ podKey → bindings c1 !! k = bindings c !! k) ∧
    (bindings c1 !! podKey = None ∨ bindings c1 !! podKey = Some (pod_NodeName pod) ∨
     ∀ id n node, nodes c1 !! id = Some n → sn_Node n = Some node → bindings c1 !! podKey ≠ Some (n_Name node)))
    as (pending & Hwf1 & Hpend & Hframe & Hother & Hkey).
  { split_and!.
    - apply (bind_wf c1 _ podKey (pod_NodeName pod) pending); [done|done| |by apply lookup_insert_eq|].
      + intros k Hk. by rewrite lookup_insert_ne.
      + intros id n node Hn Hnode Hin. destruct (cw_bound _ _ Hwf1 id n node podKey Hn Hnode Hin) as [Hp|Hb]; [by apply Hpend in Hp as [_ ->]|].
        rewrite Hb in Hkey. destruct Hkey as [?|[[= ?]|Hno]]; [done|done|]. by destruct (Hno id n node Hn Hnode).
    - transitivity c1; [done|apply frame_bindings].
    - intros k. cbn [withBindings bindings]. rewrite withBindings_insert_lookup. case_decide; [done|by apply Hother]. }
  unfold c1, cleanupOldBindings. fold podKey. destruct (bindings c !! podKey) as [oldName|] eqn:Hb.
  2:{ exists (arriving pod). split_and!; [by apply (wf_same _ c)|by intros k nm []|apply frame_mark|done|by left]. }
  destruct (String.eqb_spec oldName (pod_NodeName pod)) as [->|Hne].
  { exists (arriving pod). split_and!; [done|by intros k nm []|done|done|by right; left]. }
  set (id := default ""%string (nodeNameToProviderID c !! oldName)). destruct (nodes c !! id) as [n|] eqn:Hid.
  - exists (λ k nm, arriving pod k nm ∧ (k = podKey → nm ≠ oldName)). split_and!.
    + eapply wf_same; [..|by apply (unbind_wf (arriving pod) c podKey oldName n)]; done.
    + by intros k nm [[-> ->] _].
    + etransitivity; [|apply frame_mark]. by apply (frame_insert c id n).
    + intros k Hk. cbn [MarkUnconsolidated withBindings bindings]. by rewrite lookup_delete_ne.
    + left. cbn [MarkUnconsolidated withBindings bindings]. apply lookup_delete_eq.
  - exists (arriving pod). split_and!; [by apply (wf_same _ c)|by intros k nm []|apply frame_mark|done|]. right. right.
    intros id' m node Hm Hnode Heq. cbn [MarkUnconsolidated nodes bindings] in *. rewrite Hb in Heq. injection Heq as ->.
    unfold id in Hid. rewrite (cw_node_named _ _ Hwf id' m node Hm Hnode) in Hid. cbn [from_option Datatypes.id] in Hid. congruence.
Qed.

Lemma settled_arriving c pod : cluster_wf settled c → cluster_wf (arriving pod) c.
Proof. intros [H1 H2 H3 H4 H5 H6 H7]. split; try done. intros id n node k Hn Hnode Hk. right. by destruct (H7 id n node k Hn Hnode Hk). Qed.

Lemma updateNodeUsageFromPod_wf c now pod : cluster_wf settled c → cluster_wf settled (updateNodeUsageFromPod c now pod).1.
Proof.
  intros Hwf. unfold updateNodeUsageFromPod. destruct (String.eqb _ ""); [done|]. set (id := default ""%string _).
  destruct (nodes c !! id) as [n|] eqn:Hid; [|done]. destruct (updateForPod n pod) as [n'|] eqn:Hu; [|done]. cbn [fst].
  destruct (updateForPod_shell n pod n' Hu) as [Hs (rl & Hrl)].
  assert (∀ node, sn_Node n = Some node → n_Name node = pod_NodeName pod) as Hname.
  { intros node Hnode. unfold id in Hid. destruct (nodeNameToProviderID c !! pod_NodeName pod) as [id'|] eqn:Hpid; cbn [from_option Datatypes.id] in Hid.
    - destruct (cw_node_names _ _ Hwf _ _ Hpid) as (m & node' & Hm & Hnode' & Hnm). congruence.
    - by destruct (cw_node _ _ Hwf _ _ Hid). }
  apply bindPod_ok. eapply (wf_node_pods settled (arriving pod) c id n n' (bindings c)) in Hwf as Hwf'; [|done|done|].
  { by eapply wf_same; [..|exact Hwf']. }
  intros id' m node k Hm Hnode Hk. apply lookup_insert_Some in Hm as [[<- <-]|[_ Hm]].
  - rewrite (ss_node _ _ Hs) in Hnode. rewrite Hrl in Hk. destruct (decide (k = ObjectKeyFromObject pod)) as [->|Hne].
    + left. split; [done|by apply Hname].
    + rewrite lookup_insert_ne in Hk by done. right. by destruct (cw_bound _ _ Hwf id n node k Hid Hnode Hk).
  - right. by destruct (cw_bound _ _ Hwf id' m node k Hm Hnode Hk).
Qed.

Lemma updateNodeUsageFromPodCompletion_wf c podKey : cluster_wf settled c → cluster_wf settled (updateNodeUsageFromPodCompletion c podKey).
Proof.
  intros Hwf. unfold updateNodeUsageFromPodCompletion. destruct (bindings c !! podKey) as [nodeName|] eqn:Hb; [|done].
  cbn [withBindings nodes nodeNameToProviderID]. set (id := default ""%string _). destruct (nodes c !! id) as [n|] eqn:Hid.
  - pose proof (unbind_wf settled c podKey nodeName n Hwf Hb Hid) as Hwf'.
    assert (cluster_wf settled (withBindings (withNodes c (<[id := cleanupForPod n podKey]> (nodes c))) (delete podKey (bindings c)))) as Hs.
    { destruct Hwf' as [H1 H2 H3 H4 H5 H6 H7]. split; try done. intros id' m node k Hm Hnode Hk. by destruct (H7 id' m node k Hm Hnode Hk) as [[[] _]|]; right. }
    by eapply wf_same; [..|exact Hs].
  - destruct Hwf as [H1 H2 H3 H4 H5 H6 H7]. split; try done. intros id' m node k Hm Hnode Hk. right.
    destruct (H7 id' m node k Hm Hnode Hk) as [[]|Hbk]. cbn [withBindings bindings]. rewrite lookup_delete_ne; [done|]. intros <-.
    rewrite Hb in Hbk. injection Hbk as ->. unfold id in Hid. rewrite (H3 id' m node Hm Hnode) in Hid. cbn [from_option Datatypes.id withBindings nodes] in *. congruence.
Qed.

(** ** Nodes and NodeClaims *)

(** The table follows when a cached node is replaced or removed; [c0] is the
    cluster with the node already replaced or not. *)
Lemma pools_replace pending c c0 id n n' :
  cluster_wf pending c → nodes c !! id = Some n → nodePoolResources c0 = nodePoolResources c →
  ∃ pools, updateNodePoolResources c0 (Some n) (Some n') = Some (withPoolResources c0 pools) ∧ pools_hold pools (poolTotal (<[id := n']> (nodes c))).
Proof.
  intros Hwf Hid Heq. destruct (updateNodePoolResources_ok c0 (poolTotal (nodes c)) (Some n) (Some n')) as (pools & Hrun & Hh).
  - rewrite Heq. apply (cw_pools _ _ Hwf).
  - by apply (old_charged pending c id).
  - exists pools. split; [done|]. eapply pools_hold_ext; [|exact Hh]. intros pool r. cbn beta. rewrite poolTotal_insert, Hid. lia.
Qed.

Lemma pools_remove pending c c0 id n :
  cluster_wf pending c → nodes c !! id = Some n → nodePoolResources c0 = nodePoolResources c →
  ∃ pools, updateNodePoolResources c0 (Some n) None = Some (withPoolResources c0 pools) ∧ pools_hold pools (poolTotal (delete id (nodes c))).
Proof.
  intros Hwf Hid Heq. destruct (updateNodePoolResources_ok c0 (poolTotal (nodes c)) (Some n) None) as (pools & Hrun & Hh).
  - rewrite Heq. apply (cw_pools _ _ Hwf).
  - by apply (old_charged pending c id).
  - exists pools. split; [done|]. eapply pools_hold_ext; [|exact Hh]. intros pool r. cbn beta. rewrite poolTotal_delete, Hid, contrib_None. lia.
Qed.

Lemma pools_add pending c c0 id (o : option (StateNode Q)) n' :
  cluster_wf pending c → nodes c !! id = o → nodePoolResources c0 = nodePoolResources c →
  ∃ pools, updateNodePoolResources c0 (Some (default NewNode o)) (Some n') = Some (withPoolResources c0 pools) ∧
    pools_hold pools (poolTotal (<[id := n']> (nodes c))).
Proof.
  intros Hwf Hid Heq. destruct o as [n|]; cbn [from_option Datatypes.id]; [by apply (pools_replace pending)|].
  destruct (updateNodePoolResources_ok c0 (poolTotal (nodes c)) (Some NewNode) (Some n')) as (pools & Hrun & Hh).
  - rewrite Heq. apply (cw_pools _ _ Hwf).
  - done.
  - exists pools. split; [done|]. eapply pools_hold_ext; [|exact Hh]. intros pool r. cbn beta. rewrite poolTotal_insert, Hid, contrib_None, contrib_NewNode. lia.
Qed.

#[local] Ltac cluster_cbn :=
  cbn [withNodes withBindings withNodeNames withClaimNames withPoolResources withPoolState MarkUnconsolidated
       nodes bindings nodeNameToProviderID nodeClaimNameToProviderID nodePoolResources] in *.

(** The invariant after a cached node has lost its NodeClaim. *)
Lemma cleanupNodeClaim_ok c now name :
  cluster_wf settled c →
  ∃ c', cleanupNodeClaim c now name = Some c' ∧ cluster_wf settled c' ∧
    nodeClaimNameToProviderID c' = delete name (nodeClaimNameToProviderID c) ∧ nodeNameToProviderID c' = nodeNameToProviderID c ∧
    ∀ id, nodeClaimNameToProviderID c !! name ≠ Some id → nodes c' !! id = nodes c !! id.
Proof.
  intros Hwf. unfold cleanupNodeClaim. set (id := default ""%string (nodeClaimNameToProviderID c !! name)).
  destruct (String.eqb_spec id "") as [Hempty|Hne].
  { eexists. split; [reflexivity|]. cluster_cbn. split_and!; [|done|done|done]. destruct Hwf as [H1 H2 H3 H4 H5 H6 H7].
    split; cluster_cbn; try done.
    - intros nm id' [Hnm Hl]%lookup_delete_Some. by apply H4.
    - intros id' n claim Hn Hc. rewrite lookup_delete_ne; [by apply (H5 id' n)|]. intros Heq. unfold id in Hempty. rewrite Heq, (H5 id' n claim Hn Hc) in Hempty.
      by destruct (H1 id' n Hn). }
  assert (nodeClaimNameToProviderID c !! name = Some id) as Hname by (unfold id in *; by destruct (nodeClaimNameToProviderID c !! name)).
  clearbody id. destruct (cw_claim_names _ _ Hwf name id Hname Hne) as (n & claim & Hid & Hclaim & Hnm). rewrite Hid. cbn [mbind option_bind].
  assert (∀ id' m claim', nodes c !! id' = Some m → sn_NodeClaim m = Some claim' → id' ≠ id → nc_Name claim' ≠ name) as Hother.
  { intros id' m claim' Hm Hc Hd <-. rewrite (cw_claim_named _ _ Hwf id' m claim' Hm Hc) in Hname. congruence. }
  destruct (sn_Node n) as [node|] eqn:Hnode.
  - destruct (pools_replace settled c (withNodes c (<[id := setNodeClaim n None]> (nodes c))) id n (setNodeClaim n None) Hwf Hid eq_refl) as (pools & -> & Hpools).
    cbn [mbind option_bind]. eexists. split; [reflexivity|]. cluster_cbn. split_and!; [|done|done|intros id' Hd; rewrite lookup_insert_ne; congruence].
    destruct Hwf as [H1 H2 H3 H4 H5 H6 H7]. split; cluster_cbn; [| | | | |done|].
    + intros id' m [[<- <-]|[_ Hm]]%lookup_insert_Some; [split; [done|]; unfold isMock; cbn [setNodeClaim sn_Node]; by rewrite Hnode|by apply (H1 id')].
    + intros nm id' (m & node' & Hm & Hn' & Hnm')%H2. destruct (decide (id = id')) as [<-|]; [|exists m, node'; by rewrite lookup_insert_ne].
      exists (setNodeClaim n None), node'. rewrite lookup_insert_eq. rewrite Hid in Hm. by injection Hm as <-.
    + intros id' m node' [[<- <-]|[_ Hm]]%lookup_insert_Some; [by apply (H3 id n)|by apply H3].
    + intros nm id' [Hnm' Hl]%lookup_delete_Some Hd. destruct (H4 nm id' Hl Hd) as (m & claim' & Hm & Hc & Hcn). exists m, claim'.
      rewrite lookup_insert_ne; [done|]. intros <-. rewrite Hid in Hm. injection Hm as <-. congruence.
    + intros id' m claim' [[<- <-]|[Hd Hm]]%lookup_insert_Some Hc; [done|]. rewrite lookup_delete_ne; [by apply (H5 id' m)|].
      intros Heq. by apply (Hother id' m claim').
    + intros id' m node' k [[<- <-]|[_ Hm]]%lookup_insert_Some; [by apply (H7 id n)|by apply (H7 id')].
  - destruct (pools_remove settled c c id n Hwf Hid eq_refl) as (pools & -> & Hpools).
    cbn [mbind option_bind]. eexists. split; [reflexivity|]. cluster_cbn. split_and!; [|done|done|intros id' Hd; rewrite lookup_delete_ne; congruence].
    destruct Hwf as [H1 H2 H3 H4 H5 H6 H7]. split; cluster_cbn; [| | | | |done|].
    + intros id' m [_ Hm]%lookup_delete_Some. by apply (H1 id').
    + intros nm id' (m & node' & Hm & Hn' & Hnm')%H2. exists m, node'. rewrite lookup_delete_ne; [done|]. intros <-. congruence.
    + intros id' m node' [_ Hm]%lookup_delete_Some. by apply H3.
    + intros nm id' [Hnm' Hl]%lookup_delete_Some Hd. destruct (H4 nm id' Hl Hd) as (m & claim' & Hm & Hc & Hcn). exists m, claim'.
      rewrite lookup_delete_ne; [done|]. intros <-. rewrite Hid in Hm. injection Hm as <-. congruence.
    + intros id' m claim' [Hd Hm]%lookup_delete_Some Hc. rewrite lookup_delete_ne; [by apply (H5 id' m)|].
      intros Heq. by apply (Hother id' m claim').
    + intros id' m node' k [_ Hm]%lookup_delete_Some. by apply (H7 id').
Qed.

(** The invariant after a cached node has lost its node. *)
Lemma cleanupNode_ok c now name :
  cluster_wf settled c →
  ∃ c', cleanupNode c now name = Some c' ∧ cluster_wf settled c' ∧
    nodeNameToProviderID c' = delete name (nodeNameToProviderID c) ∧ nodeClaimNameToProviderID c' = nodeClaimNameToProviderID c ∧
    bindings c' = bindings c ∧ ∀ id, nodeNameToProviderID c !! name ≠ Some id → nodes c' !! id = nodes c !! id.
Proof.
  intros Hwf. unfold cleanupNode. destruct (nodeNameToProviderID c !! name) as [id|] eqn:Hname; cbn [from_option Datatypes.id].
  2:{ exists c. split_and!; try done. by rewrite delete_id. }
  destruct (cw_node_names _ _ Hwf name id Hname) as (n & node & Hid & Hnode & Hnm). destruct (cw_node _ _ Hwf id n Hid) as [Hne _].
  destruct (String.eqb_spec id "") as [|_]; [done|]. rewrite Hid. cbn [mbind option_bind].
  assert (∀ id' m node', nodes c !! id' = Some m → sn_Node m = Some node' → id' ≠ id → n_Name node' ≠ name) as Hother.
  { intros id' m node' Hm Hc Hd <-. rewrite (cw_node_named _ _ Hwf id' m node' Hm Hc) in Hname. congruence. }
  destruct (sn_NodeClaim n) as [claim|] eqn:Hclaim.
  - destruct (pools_replace settled c (withNodes c (<[id := setNode n None]> (nodes c))) id n (setNode n None) Hwf Hid eq_refl) as (pools & -> & Hpools).
    cbn [mbind option_bind]. eexists. split; [reflexivity|]. cluster_cbn. split_and!; [|done|done|done|intros id' Hd; rewrite lookup_insert_ne; congruence].
    destruct Hwf as [H1 H2 H3 H4 H5 H6 H7]. split; cluster_cbn; [| | | | |done|].
    + intros id' m [[<- <-]|[_ Hm]]%lookup_insert_Some; [split; [done|]; unfold isMock; cbn [setNode sn_Node sn_NodeClaim]; by rewrite Hclaim|by apply (H1 id')].
    + intros nm id' [Hnm' Hl]%lookup_delete_Some. destruct (H2 nm id' Hl) as (m & node' & Hm & Hn' & Hcn). exists m, node'.
      rewrite lookup_insert_ne; [done|]. intros <-. rewrite Hid in Hm. injection Hm as <-. congruence.
    + intros id' m node' [[<- <-]|[Hd Hm]]%lookup_insert_Some Hc; [done|]. rewrite lookup_delete_ne; [by apply (H3 id' m)|].
      intros Heq. by apply (Hother id' m node').
    + intros nm id' Hl Hd. destruct (H4 nm id' Hl Hd) as (m & claim' & Hm & Hc & Hcn).
      destruct (decide (id = id')) as [<-|]; [|exists m, claim'; by rewrite lookup_insert_ne].
      exists (setNode n None), claim'. rewrite lookup_insert_eq. rewrite Hid in Hm. by injection Hm as <-.
    + intros id' m claim' [[<- <-]|[_ Hm]]%lookup_insert_Some; [by apply (H5 id n)|by apply H5].
    + intros id' m node' k [[<- <-]|[_ Hm]]%lookup_insert_Some; [done|by apply (H7 id')].
  - destruct (pools_remove settled c c id n Hwf Hid eq_refl) as (pools & -> & Hpools).
    cbn [mbind option_bind]. eexists. split; [reflexivity|]. cluster_cbn. split_and!; [|done|done|done|intros id' Hd; rewrite lookup_delete_ne; congruence].
    destruct Hwf as [H1 H2 H3 H4 H5 H6 H7]. split; cluster_cbn; [| | | | |done|].
    + intros id' m [_ Hm]%lookup_delete_Some. by apply (H1 id').
    + intros nm id' [Hnm' Hl]%lookup_delete_Some. destruct (H2 nm id' Hl) as (m & node' & Hm & Hn' & Hcn). exists m, node'.
      rewrite lookup_delete_ne; [done|]. intros <-. rewrite Hid in Hm. injection Hm as <-. congruence.
    + intros id' m node' [Hd Hm]%lookup_delete_Some Hc. rewrite lookup_delete_ne; [by apply (H3 id' m)|].
      intros Heq. by apply (Hother id' m node').
    + intros nm id' Hl Hd. destruct (H4 nm id' Hl Hd) as (m & claim' & Hm & Hc & Hcn). exists m, claim'. rewrite lookup_delete_ne; [done|]. intros <-. congruence.
    + intros id' m claim' [_ Hm]%lookup_delete_Some. by apply H5.
    + intros id' m node' k [_ Hm]%lookup_delete_Some. by apply (H7 id').
Qed.

(** A NodeClaim keeps its provider ID once it has one, and no two share one. *)
Definition claim_allowed c (claim : NodeClaim Q) : Prop :=
  if decide (nc_ProviderID claim = ""%string) then ∀ id, nodeClaimNameToProviderID c !! nc_Name claim = Some id → id = ""%string
  else ∀ name, nodeClaimNameToProviderID c !! name = Some (nc_ProviderID claim) → name = nc_Name claim.

Lemma insert_claim_wf c id (claim : NodeClaim Q) pools :
  cluster_wf settled c → id ≠ ""%string →
  (∀ name, nodeClaimNameToProviderID c !! name = Some id → name = nc_Name claim) →
  (∀ id', nodeClaimNameToProviderID c !! nc_Name claim = Some id' → id' = id) →
  pools_hold pools (poolTotal (<[id := claimedNode claim (default NewNode (nodes c !! id))]> (nodes c))) →
  cluster_wf settled (withClaimNames (withPoolResources
    (withNodes c (<[id := claimedNode claim (default NewNode (nodes c !! id))]> (nodes c))) pools) (<[nc_Name claim := id]> (nodeClaimNameToProviderID c))).
Proof.
  intros [H1 H2 H3 H4 H5 H6 H7] Hne Hunique Hname Hpools. set (n := claimedNode claim _). split; cluster_cbn; [| | | | |done|].
  - intros id' m [[<- <-]|[_ Hm]]%lookup_insert_Some; [split; [done|]; unfold isMock, n; cbn [claimedNode sn_Node sn_NodeClaim]; by destruct (sn_Node _)|by apply (H1 id')].
  - intros nm id' (m & node & Hm & Hnode & Hnm)%H2. destruct (decide (id = id')) as [<-|]; [|exists m, node; by rewrite lookup_insert_ne].
    exists n, node. rewrite lookup_insert_eq. unfold n. rewrite Hm. done.
  - intros id' m node [[<- <-]|[_ Hm]]%lookup_insert_Some; [|by apply H3]. unfold n. cbn [claimedNode sn_Node].
    destruct (nodes c !! id) as [m|] eqn:Hm; [by apply (H3 id m)|done].
  - intros nm id' [[<- <-]|[Hnm Hl]]%lookup_insert_Some Hd; [by exists n, claim; rewrite lookup_insert_eq|].
    destruct (H4 nm id' Hl Hd) as (m & claim' & Hm & Hc & Hcn). exists m, claim'. rewrite lookup_insert_ne; [done|]. intros <-. by apply Hnm; rewrite (Hunique nm).
  - intros id' m claim' [[<- <-]|[Hd Hm]]%lookup_insert_Some Hc.
    + injection Hc as <-. apply lookup_insert_eq.
    + pose proof (H5 id' m claim' Hm Hc) as Hl. rewrite lookup_insert_ne; [done|]. intros Heq. rewrite <- Heq in Hl. by apply Hname in Hl.
  - intros id' m node k [[<- <-]|[_ Hm]]%lookup_insert_Some; [|by apply (H7 id')]. unfold n. cbn [claimedNode sn_Node podRequests].
    destruct (nodes c !! id) as [m|] eqn:Hm; [by apply (H7 id m)|done].
Qed.

Lemma UpdateNodeClaim_ok c now (claim : NodeClaim Q) :
  cluster_wf settled c → claim_allowed c claim → ∃ c', Cluster.UpdateNodeClaim c now claim = Some c' ∧ cluster_wf settled c'.
Proof.
  intros Hwf Hallowed. unfold Cluster.UpdateNodeClaim, claim_allowed in *. set (id := nc_ProviderID claim) in *.
  destruct (String.eqb_spec id "") as [Hempty|Hne].
  { rewrite decide_True in Hallowed by done. eexists. split; [reflexivity|]. destruct Hwf as [H1 H2 H3 H4 H5 H6 H7]. split; cluster_cbn; try done.
    - intros nm id' [[<- <-]|[_ Hl]]%lookup_insert_Some Hd; [done|by apply H4].
    - intros id' n claim' Hn Hc. rewrite lookup_insert_ne; [by apply (H5 id' n)|]. intros Heq.
      destruct (H1 id' n Hn) as [Hd _]. apply Hd, Hallowed. rewrite Heq. by apply (H5 id' n). }
  rewrite decide_False in Hallowed by done. unfold newStateFromNodeClaim. fold id.
  assert (∃ c1, match nodeClaimNameToProviderID c !! nc_Name claim with
      | Some id' => if String.eqb id' id then Some c else cleanupNodeClaim c now (nc_Name claim)
      | None => Some c end = Some c1 ∧ cluster_wf settled c1 ∧ nodes c1 !! id = nodes c !! id ∧
      (∀ name, nodeClaimNameToProviderID c1 !! name = Some id → name = nc_Name claim) ∧
      (∀ id', nodeClaimNameToProviderID c1 !! nc_Name claim = Some id' → id' = id)) as (c1 & -> & Hwf1 & Hold & Hunique & Hname).
  { destruct (nodeClaimNameToProviderID c !! nc_Name claim) as [id'|] eqn:Hl; [|exists c; split_and!; [done..|congruence]].
    destruct (String.eqb_spec id' id) as [->|Hd]; [exists c; split_and!; [done..|congruence]|].
    destruct (cleanupNodeClaim_ok c now (nc_Name claim) Hwf) as (c1 & -> & Hwf1 & Hcn & _ & Hnodes). exists c1. split_and!; [done|done| | |].
    - apply Hnodes. congruence.
    - intros name. rewrite Hcn. intros [_ Hnm]%lookup_delete_Some. by apply Hallowed.
    - intros id''. rewrite Hcn, lookup_delete_eq. done. }
  cbn [mbind option_bind]. rewrite <- Hold.
  destruct (pools_add settled c1 c1 id (nodes c1 !! id) (claimedNode claim (default NewNode (nodes c1 !! id))) Hwf1 eq_refl eq_refl) as (pools & -> & Hpools).
  cbn [mbind option_bind]. eexists. split; [reflexivity|].
  eapply wf_same; [..|by apply (insert_claim_wf c1 id claim pools)]; unfold triggerConsolidationOnChange; by destruct (_ || _).
Qed.

(** *** Nodes *)

Lemma populate_ok c now n (pods : list Pod) name :
  cluster_wf settled c → Forall (λ pod, pod_NodeName pod = name) pods →
  (∀ k, is_Some (podRequests n !! k) → bindings c !! k = Some name) →
  let '(c', result) := populateResourceRequests c now n pods in
  cluster_wf settled c' ∧ pods_frame c c' ∧
  ∀ n', result = inr n' → same_shell n n' ∧ ∀ k, is_Some (podRequests n' !! k) → bindings c' !! k = Some name.
Proof.
  intros Hwf Hpods. revert c n Hwf. induction Hpods as [|pod pods Hpod _ IH]; intros c n Hwf Hn; cbn [populateResourceRequests].
  { split_and!; [done|done|]. by intros n' [= <-]. }
  destruct (IsTerminal pod); [by apply IH|]. destruct (updateForPod n pod) as [n1|] eqn:Hu; [|by split_and!].
  destruct (updateForPod_shell n pod n1 Hu) as [Hs (rl & Hrl)].
  destruct (bindPod_ok c now pod (settled_arriving c pod Hwf)) as (Hwf1 & Hframe & Hb).
  specialize (IH (bindPod c now pod) n1 Hwf1). destruct (populateResourceRequests _ now n1 pods) as [c' result].
  destruct IH as (Hwf' & Hframe' & Hres).
  { intros k. rewrite Hrl, Hb. destruct (decide (k = ObjectKeyFromObject pod)) as [->|Hk]; [by rewrite Hpod|].
    rewrite lookup_insert_ne by done. apply Hn. }
  split_and!; [done|by transitivity (bindPod c now pod)|]. intros n' [Hs' Hk]%Hres. split; [|done]. destruct Hs, Hs'. split; congruence.
Qed.

Lemma updateNodePoolResources_charge c (old old' new : option (StateNode Q)) :
  poolCharge old = poolCharge old' → updateNodePoolResources c old new = updateNodePoolResources c old' new.
Proof. unfold updateNodePoolResources. by intros ->. Qed.

Lemma insert_node_wf c id (node : Node Q) n pools :
  cluster_wf settled c → id ≠ ""%string →
  (∀ name, nodeNameToProviderID c !! name = Some id → name = n_Name node) →
  (∀ id', nodeNameToProviderID c !! n_Name node = Some id' → id' = id) →
  sn_Node n = Some node → sn_NodeClaim n = sn_NodeClaim (default NewNode (nodes c !! id)) →
  (∀ k, is_Some (podRequests n !! k) → bindings c !! k = Some (n_Name node)) →
  pools_hold pools (poolTotal (<[id := n]> (nodes c))) →
  cluster_wf settled (withNodeNames (withPoolResources (withNodes c (<[id := n]> (nodes c))) pools) (<[n_Name node := id]> (nodeNameToProviderID c))).
Proof.
  intros [H1 H2 H3 H4 H5 H6 H7] Hne Hunique Hname Hnode Hclaim Hbound Hpools. split; cluster_cbn; [| | | | |done|].
  - intros id' m [[<- <-]|[_ Hm]]%lookup_insert_Some; [split; [done|]; unfold isMock; by rewrite Hnode|by apply (H1 id')].
  - intros nm id' [[<- <-]|[Hnm Hl]]%lookup_insert_Some; [by exists n, node; rewrite lookup_insert_eq|].
    destruct (H2 nm id' Hl) as (m & node' & Hm & Hc & Hcn). exists m, node'. rewrite lookup_insert_ne; [done|]. intros <-. by apply Hnm; rewrite (Hunique nm).
  - intros id' m node' [[<- <-]|[Hd Hm]]%lookup_insert_Some Hc.
    + rewrite Hnode in Hc. injection Hc as <-. apply lookup_insert_eq.
    + pose proof (H3 id' m node' Hm Hc) as Hl. rewrite lookup_insert_ne; [done|]. intros Heq. rewrite <- Heq in Hl. by apply Hname in Hl.
  - intros nm id' Hl Hd. destruct (H4 nm id' Hl Hd) as (m & claim' & Hm & Hc & Hcn). destruct (decide (id = id')) as [<-|]; [|exists m, claim'; by rewrite lookup_insert_ne].
    exists n, claim'. rewrite lookup_insert_eq, Hclaim, Hm. done.
  - intros id' m claim' [[<- <-]|[_ Hm]]%lookup_insert_Some; [|by apply H5]. rewrite Hclaim.
    destruct (nodes c !! id) as [m|] eqn:Hm; [by apply (H5 id m)|done].
  - intros id' m node' k [[<- <-]|[_ Hm]]%lookup_insert_Some; [|by apply (H7 id')]. rewrite Hnode. intros [= <-] Hk. right. by apply Hbound.
Qed.

(** Nodes have names, no two share a provider ID, and the pods the API server
    lists for a node are bound to it. *)
Definition identify (node : Node Q) : Node Q :=
  if String.eqb (n_ProviderID node) "" then withProviderID node (n_Name node) else node.

Definition node_allowed c (reads : NodeReads) (node : Node Q) : Prop :=
  n_Name node ≠ ""%string ∧
  (∀ name, nodeNameToProviderID c !! name = Some (n_ProviderID (identify node)) → name = n_Name node) ∧
  ∀ pods, boundTo reads = Some pods → Forall (λ pod, pod_NodeName pod = n_Name node) pods.

Lemma newStateFromNode_ok c now reads (node : Node Q) :
  cluster_wf settled c → n_ProviderID node ≠ ""%string →
  (∀ name, nodeNameToProviderID c !! name = Some (n_ProviderID node) → name = n_Name node) →
  (∀ pods, boundTo reads = Some pods → Forall (λ pod, pod_NodeName pod = n_Name node) pods) →
  ∃ c' result, newStateFromNode c now reads node (nodes c !! n_ProviderID node) = Some (c', result) ∧
    match result with
    | inl _ => cluster_wf settled c'
    | inr n => cluster_wf settled (withNodeNames (withNodes c' (<[n_ProviderID node := n]> (nodes c'))) (<[n_Name node := n_ProviderID node]> (nodeNameToProviderID c')))
    end.
Proof.
  intros Hwf Hne Hunique Hpods. unfold newStateFromNode. set (id := n_ProviderID node) in *. set (old := default NewNode (nodes c !! id)).
  destruct (boundTo reads) as [pods|] eqn:Hreads; [|by eexists _, _].
  pose proof (populate_ok c now (freshNode node old) pods (n_Name node) Hwf (Hpods pods eq_refl)) as Hpop.
  destruct (populateResourceRequests c now _ pods) as [c1 populated]. destruct Hpop as (Hwf1 & [Hnn1 Hcn1 Hnodes1] & Hres); [by intros k []|].
  destruct populated as [e|n]; [by eexists _, _|]. destruct (Hres n eq_refl) as [[Hsn Hsc Hsm] Hbound].
  destruct (csiDrivers reads) as [drivers|]; [|by eexists _, _]. cbv zeta. set (n2 := populateVolumeLimits n drivers).
  assert (∃ c2, match nodeNameToProviderID c1 !! n_Name node with
      | Some id' => if String.eqb id' id then Some c1 else cleanupNode c1 now (n_Name node)
      | None => Some c1 end = Some c2 ∧ cluster_wf settled c2 ∧ nodes c2 !! id = nodes c1 !! id ∧ bindings c2 = bindings c1 ∧
      (∀ name, nodeNameToProviderID c2 !! name = Some id → name = n_Name node) ∧
      (∀ id', nodeNameToProviderID c2 !! n_Name node = Some id' → id' = id)) as (c2 & -> & Hwf2 & Hold & Hb2 & Hunique2 & Hname).
  { rewrite Hnn1. destruct (nodeNameToProviderID c !! n_Name node) as [id'|] eqn:Hl; [|exists c1; split_and!; [done..| |]; rewrite Hnn1; [done|congruence]].
    destruct (String.eqb_spec id' id) as [->|Hd]; [exists c1; split_and!; [done..| |]; rewrite Hnn1; [done|congruence]|].
    destruct (cleanupNode_ok c1 now (n_Name node) Hwf1) as (c2 & -> & Hwf2 & Hnn2 & _ & Hb2 & Hnodes2). exists c2. split_and!; [done|done| |done| |].
    - apply Hnodes2. rewrite Hnn1. congruence.
    - intros name. rewrite Hnn2, Hnn1. intros [_ Hnm]%lookup_delete_Some. by apply Hunique.
    - intros id''. rewrite Hnn2, lookup_delete_eq. done. }
  cbn [mbind option_bind]. specialize (Hnodes1 id). rewrite <- Hold in Hnodes1.
  assert (poolCharge (Some old) = poolCharge (Some (default NewNode (nodes c2 !! id))) ∧
    sn_NodeClaim old = sn_NodeClaim (default NewNode (nodes c2 !! id))) as [Hcharge Hclaim].
  { unfold old. destruct (nodes c !! id) as [m|], (nodes c2 !! id) as [m'|]; try done. cbn [from_option Datatypes.id].
    split; [by rewrite (same_shell_charge m m')|symmetry; apply (ss_claim _ _ Hnodes1)]. }
  rewrite (updateNodePoolResources_charge c2 (Some old) _ (Some n2) Hcharge).
  destruct (pools_add settled c2 c2 id (nodes c2 !! id) n2 Hwf2 eq_refl eq_refl) as (pools & -> & Hpools). cbn [mbind option_bind].
  eexists _, _. split; [reflexivity|]. cbn beta iota.
  eapply wf_same; [..|apply (insert_node_wf c2 id node n2 pools); try done].
  1-5: unfold triggerConsolidationOnChange; by destruct (_ || _).
  - rewrite <- Hclaim. exact Hsc.
  - by rewrite Hb2.
Qed.

Lemma UpdateNode_ok c now reads (node : Node Q) :
  cluster_wf settled c → node_allowed c reads node → ∃ c' err, UpdateNode c now reads node = Some (c', err) ∧ cluster_wf settled c'.
Proof.
  intros Hwf (Hnm & Hunique & Hpods). unfold UpdateNode. fold (identify node) in *. destruct (_ && _); [by eexists _, _|].
  destruct (_ && _ && _); [by eexists _, _|].
  assert (n_Name (identify node) = n_Name node) as Hname by (unfold identify; by destruct (String.eqb _ _)).
  destruct (newStateFromNode_ok c now reads (identify node)) as (c' & result & -> & Hres).
  - done.
  - unfold identify. destruct (String.eqb_spec (n_ProviderID node) ""); done.
  - by rewrite Hname.
  - by rewrite Hname.
  - cbn [mbind option_bind]. destruct result; by eexists _, _.
Qed.

(** *** Marks *)

Lemma markNode_ok marked c id : cluster_wf settled c → ∃ c', markNode marked c id = Some c' ∧ cluster_wf settled c'.
Proof.
  intros Hwf. unfold markNode. destruct (nodes c !! id) as [n|] eqn:Hid; [|by exists c].
  destruct (pools_replace settled c (withNodes c (<[id := setMarked n marked]> (nodes c))) id n (setMarked n marked) Hwf Hid eq_refl) as (pools & -> & Hpools).
  cbn [mbind option_bind]. eexists. split; [reflexivity|].
  eapply wf_same; [..|apply (wf_replace settled settled c id n (setMarked n marked) (bindings c) pools); try done].
  1-5: destruct (sn_NodeClaim n) as [claim|]; [|done]; destruct marked; [done|]; by destruct (nc_DeletionTimestamp claim).
  intros id' m node k [[<- <-]|[_ Hm]]%lookup_insert_Some; [by apply (cw_bound _ _ Hwf id n)|by apply (cw_bound _ _ Hwf id')].
Qed.

Lemma markNodes_ok marked c ids : cluster_wf settled c → ∃ c', markNodes marked c ids = Some c' ∧ cluster_wf settled c'.
Proof.
  unfold markNodes. revert c. induction ids as [|id ids IH]; intros c Hwf; cbn [foldl]; [by exists c|].
  destruct (markNode_ok marked c id Hwf) as (c1 & Hrun & Hwf1). cbn [mbind option_bind]. rewrite Hrun. by apply IH.
Qed.

(** *** The whole state *)

Inductive ClusterEvent :=
  | NodeClaimUpdated (now : Z) (claim : NodeClaim Q)
  | NodeClaimDeleted (now : Z) (name : string)
  | NodeUpdated (now : Z) (reads : NodeReads) (node : Node Q)
  | NodeDeleted (now : Z) (name : string)
  | PodUpdated (now : Z) (pod : Pod)
  | PodDeleted (now : Z) (podKey : NamespacedName)
  | Marked (ids : list string)
  | Unmarked (ids : list string)
  | NodeNominated (batchMaxDuration now : Z) (id : string)
  | SimulationStarted
  | ConsolidationStateRead (now : Z)
  | SyncChecked (apiNames : option (gset string * gset string)).

Definition applyEvent (e : ClusterEvent) c : option (Cluster Q) :=
  match e with
  | NodeClaimUpdated now claim => Cluster.UpdateNodeClaim c now claim
  | NodeClaimDeleted now name => Cluster.DeleteNodeClaim c now name
  | NodeUpdated now reads node => fst <$> UpdateNode c now reads node
  | NodeDeleted now name => DeleteNode c now name
  | PodUpdated now pod => Some (UpdatePod c now pod).1
  | PodDeleted now podKey => Some (DeletePod c now podKey)
  | Marked ids => MarkForDeletion c ids
  | Unmarked ids => UnmarkForDeletion c ids
  | NodeNominated dur now id => Some (NominateNodeForPod c dur now id)
  | SimulationStarted => Some (ensureAllTotals c)
  | ConsolidationStateRead now => Some (ConsolidationState c now).1
  | SyncChecked apiNames => Some (Synced c apiNames).1
  end.

Definition allowed c (e : ClusterEvent) : Prop :=
  match e with
  | NodeClaimUpdated _ claim => claim_allowed c claim
  | NodeUpdated _ reads node => node_allowed c reads node
  | _ => True
  end.

Definition cluster_step c c' : Prop := ∃ e, allowed c e ∧ applyEvent e c = Some c'.

Lemma wf_fmap c (f : StateNode Q → StateNode Q) :
  cluster_wf settled c → (∀ n, same_shell n (f n) ∧ podRequests (f n) = podRequests n) → cluster_wf settled (withNodes c (f <$> nodes c)).
Proof.
  intros [H1 H2 H3 H4 H5 H6 H7] Hf. split; cluster_cbn; try setoid_rewrite lookup_fmap_Some.
  - intros id m (n & <- & Hn). rewrite (same_shell_mock n (f n)) by apply Hf. by apply (H1 id).
  - intros name id (n & node & Hn & Hnode & Hnm)%H2. exists (f n), node. split_and!; [by exists n| |done]. by rewrite (ss_node n (f n)) by apply Hf.
  - intros id m node (n & <- & Hn). rewrite (ss_node n (f n)) by apply Hf. by apply H3.
  - intros name id Hl Hne. destruct (H4 name id Hl Hne) as (n & claim & Hn & Hc & Hnm). exists (f n), claim. split_and!; [by exists n| |done].
    by rewrite (ss_claim n (f n)) by apply Hf.
  - intros id m claim (n & <- & Hn). rewrite (ss_claim n (f n)) by apply Hf. by apply H5.
  - eapply pools_hold_ext; [|exact H6]. intros pool r. unfold poolTotal. rewrite map_to_list_fmap.
    induction (map_to_list (nodes c)) as [|[k n] l IH]; [done|]. rewrite fmap_cons. cbn [foldr]. rewrite IH. f_equal. cbn [prod_map fst snd].
    unfold contrib. by rewrite (same_shell_charge n (f n)) by apply Hf.
  - intros id m node k (n & <- & Hn). rewrite (ss_node n (f n)), (proj2 (Hf n)) by apply Hf. by apply (H7 id).
Qed.

Lemma NominateNodeForPod_wf c dur now id : cluster_wf settled c → cluster_wf settled (NominateNodeForPod c dur now id).
Proof.
  intros Hwf. unfold NominateNodeForPod. destruct (nodes c !! id) as [n|] eqn:Hid.
  - replace (alter (λ n, Nominate n dur now) id (nodes c)) with (<[id := Nominate n dur now]> (nodes c)).
    2:{ apply map_eq. intros id'. destruct (decide (id = id')) as [<-|]; [by rewrite lookup_insert_eq, lookup_alter_eq, Hid|].
        by rewrite lookup_insert_ne, lookup_alter_ne. }
    eapply wf_same; [..|apply (wf_node_pods settled settled c id n (Nominate n dur now) (bindings c)); try done]; [done..|].
    intros id' m node k [[<- <-]|[_ Hm]]%lookup_insert_Some; [by apply (cw_bound _ _ Hwf id n)|by apply (cw_bound _ _ Hwf id')].
  - eapply wf_same; [..|exact Hwf]; try done. cluster_cbn. apply map_eq. intros id'.
    destruct (decide (id = id')) as [<-|]; [by rewrite lookup_alter_eq, Hid|by rewrite lookup_alter_ne].
Qed.

Lemma applyEvent_ok c e : cluster_wf settled c → allowed c e → ∃ c', applyEvent e c = Some c' ∧ cluster_wf settled c'.
Proof.
  intros Hwf Hallowed. destruct e as [now claim|now name|now reads node|now name|now pod|now podKey|ids|ids|dur now id| |now|api]; cbn [applyEvent].
  - by apply UpdateNodeClaim_ok.
  - destruct (cleanupNodeClaim_ok c now name Hwf) as (c' & Hrun & Hwf' & _). by exists c'.
  - destruct (UpdateNode_ok c now reads node Hwf Hallowed) as (c' & err & -> & Hwf'). by exists c'.
  - destruct (cleanupNode_ok c now name Hwf) as (c' & Hrun & Hwf' & _). by exists c'.
  - eexists. split; [reflexivity|]. unfold UpdatePod.
    assert (cluster_wf settled (if IsTerminal pod then (updateNodeUsageFromPodCompletion c (ObjectKeyFromObject pod), None) else updateNodeUsageFromPod c now pod).1) as Hu.
    { destruct (IsTerminal pod); [by apply updateNodeUsageFromPodCompletion_wf|by apply updateNodeUsageFromPod_wf]. }
    destruct (if IsTerminal pod then _ else _) as [c1 err]. by eapply wf_same; [..|exact Hu].
  - eexists. split; [reflexivity|]. unfold DeletePod.
    eapply wf_same; [..|apply (updateNodeUsageFromPodCompletion_wf (withAntiAffinityPods c (delete podKey (antiAffinityPods c))) podKey)]; try done.
    by eapply wf_same; [..|exact Hwf].
  - by apply markNodes_ok.
  - by apply markNodes_ok.
  - eexists. split; [reflexivity|]. by apply NominateNodeForPod_wf.
  - eexists. split; [reflexivity|]. apply wf_fmap; [done|]. by intros n.
  - eexists. split; [reflexivity|]. unfold ConsolidationState. destruct (_ <? _); [done|]. by eapply wf_same; [..|exact Hwf].
  - eexists. split; [reflexivity|]. unfold Synced. destruct (hasSynced c); [done|]. destruct api as [[a b]|]; [|done].
    destruct (negb _); [done|]. destruct (_ && _); [|done]. by eapply wf_same; [..|exact Hwf].
Qed.

Lemma NewCluster_wf : cluster_wf settled NewCluster.
Proof. split; cbn; try done. split; [|done]. intros pool r _. rewrite lookup_empty. apply amount_empty. Qed.

Lemma reachable_wf c : rtc cluster_step NewCluster c → cluster_wf settled c.
Proof.
  intros Hreach. apply (rtc_ind_r (λ c, cluster_wf settled c) NewCluster) in Hreach; [done|apply NewCluster_wf|].
  intros a b _ (e & Hallowed & Hrun) Hwf. destruct (applyEvent_ok a e Hwf Hallowed) as (c' & Hrun' & Hwf'). congruence.
Qed.

(** C31. The resources of the node pools are exact.  However updates and
    deletions of nodes, NodeClaims and pods and marks for deletion interleave,
    what cluster state reports for a node pool is the sum of the capacities of
    its nodes and NodeClaims that are not on their way out, each counted as one
    node, and no pool without resources is kept. *)
Theorem cluster_resources_exact c (Hreach : rtc cluster_step NewCluster c) :
  (∀ pool r, pool ≠ ""%string → amount (NodePoolResourcesFor c pool) r = poolTotal (nodes c) pool r) ∧
  ∀ pool rl, nodePoolResources c !! pool = Some rl → ∃ r, amount rl r ≠ 0.
Proof.
  destruct (cw_pools _ _ (reachable_wf c Hreach)) as [Ha Hp]. split; [exact Ha|]. intros pool rl Hl. by destruct (Hp pool rl Hl).
Qed.



(** The state after a launched NodeClaim that was not known before. *)
Lemma UpdateNodeClaim_fresh c now (claim : NodeClaim Q) :
  cluster_wf settled c → nc_ProviderID claim ≠ ""%string → nodeClaimNameToProviderID c !! nc_Name claim = None → nodes c !! nc_ProviderID claim = None →
  ∃ c', Cluster.UpdateNodeClaim c now claim = Some c' ∧ cluster_wf settled c' ∧
    nodes c' = <[nc_ProviderID claim := claimedNode claim NewNode]> (nodes c) ∧ nodeNameToProviderID c' = nodeNameToProviderID c ∧
    nodeClaimNameToProviderID c' = <[nc_Name claim := nc_ProviderID claim]> (nodeClaimNameToProviderID c).
Proof.
  intros Hwf Hne Hname Hid. destruct (UpdateNodeClaim_ok c now claim Hwf) as (c' & Hrun & Hwf').
  { unfold claim_allowed. rewrite decide_False by done. intros name Hl. destruct (cw_claim_names _ _ Hwf name _ Hl Hne) as (n & claim' & Hn & _). congruence. }
  exists c'. split; [done|]. split; [done|]. unfold Cluster.UpdateNodeClaim, newStateFromNodeClaim in Hrun.
  destruct (String.eqb_spec (nc_ProviderID claim) ""); [done|]. rewrite Hname, Hid in Hrun. cbn [mbind option_bind from_option Datatypes.id] in Hrun.
  destruct (pools_add settled c c (nc_ProviderID claim) None (claimedNode claim NewNode) Hwf Hid eq_refl) as (pools & Hp & _).
  cbn [from_option Datatypes.id] in Hp. rewrite Hp in Hrun. cbn [mbind option_bind] in Hrun. injection Hrun as <-. cluster_cbn.
  unfold triggerConsolidationOnChange. by destruct (_ || _).
Qed.

(** Launching and deleting a NodeClaim is a round trip.  A launched NodeClaim
    that was not known gets a cached node of its own; when it is deleted before
    its node has appeared, the nodes, the names and the resources of the pools
    are as they were. *)
Theorem claim_roundtrip c now now' (claim : NodeClaim Q) (Hreach : rtc cluster_step NewCluster c)
    (Hne : nc_ProviderID claim ≠ ""%string) (Hname : nodeClaimNameToProviderID c !! nc_Name claim = None)
    (Hid : nodes c !! nc_ProviderID claim = None) :
  ∃ c1 c2, Cluster.UpdateNodeClaim c now claim = Some c1 ∧ nodes c1 !! nc_ProviderID claim = Some (claimedNode claim NewNode) ∧
    Cluster.DeleteNodeClaim c1 now' (nc_Name claim) = Some c2 ∧ nodes c2 = nodes c ∧
    nodeNameToProviderID c2 = nodeNameToProviderID c ∧ nodeClaimNameToProviderID c2 = nodeClaimNameToProviderID c ∧
    ∀ pool r, pool ≠ ""%string → amount (NodePoolResourcesFor c2 pool) r = amount (NodePoolResourcesFor c pool) r.
Proof.
  pose proof (reachable_wf c Hreach) as Hwf. destruct (UpdateNodeClaim_fresh c now claim Hwf Hne Hname Hid) as (c1 & Hrun1 & Hwf1 & Hn1 & Hnn1 & Hcn1).
  destruct (cleanupNodeClaim_ok c1 now' (nc_Name claim) Hwf1) as (c2 & Hrun2 & Hwf2 & Hcn2 & Hnn2 & Hn2). exists c1, c2.
  assert (nodes c2 = nodes c) as Hnodes.
  { apply map_eq. intros id. destruct (decide (id = nc_ProviderID claim)) as [->|Hd].
    - rewrite Hid. destruct (nodes c2 !! nc_ProviderID claim) as [n|] eqn:Hn; [|done]. exfalso.
      unfold cleanupNodeClaim in Hrun2. rewrite Hcn1, lookup_insert_eq in Hrun2. cbn [from_option Datatypes.id] in Hrun2.
      destruct (String.eqb_spec (nc_ProviderID claim) ""); [done|]. rewrite Hn1, lookup_insert_eq in Hrun2. cbn [mbind option_bind claimedNode NewNode sn_Node] in Hrun2.
      destruct (pools_remove settled c1 c1 (nc_ProviderID claim) (claimedNode claim NewNode) Hwf1) as (pools & Hp & _); [by rewrite Hn1, lookup_insert_eq|done|].
      cbn [claimedNode NewNode] in Hp. rewrite Hp in Hrun2. cbn [mbind option_bind] in Hrun2. injection Hrun2 as <-. cluster_cbn.
      by rewrite lookup_delete_eq in Hn.
    - rewrite Hn2, Hn1, lookup_insert_ne by (rewrite ?Hcn1, ?lookup_insert_eq; congruence). done. }
  split_and!; [done|by rewrite Hn1, lookup_insert_eq|done|done|congruence| |].
  - rewrite Hcn2, Hcn1. by rewrite delete_insert_id.
  - intros pool r Hpool. unfold NodePoolResourcesFor. by rewrite (ph_amount _ _ (cw_pools _ _ Hwf2)), (ph_amount _ _ (cw_pools _ _ Hwf)), Hnodes.
Qed.

(** An update of a NodeClaim forgets what disrupting its pods costs: the
    cached node is built without the disruption costs, so the node counts as
    empty of pods until each of them is updated again. *)
Theorem claim_update_forgets_costs c now (claim : NodeClaim Q) c' n' (Hne : nc_ProviderID claim ≠ ""%string)
    (Hrun : Cluster.UpdateNodeClaim c now claim = Some c') (Hn : nodes c' !! nc_ProviderID claim = Some n') :
  podDisruptionCosts n' = ∅ ∧ DisruptionCost n' = fone ∧
  podRequests n' = podRequests (default NewNode (nodes c !! nc_ProviderID claim)).
Proof.
  unfold Cluster.UpdateNodeClaim in Hrun. destruct (String.eqb_spec (nc_ProviderID claim) ""); [done|].
  apply bind_Some in Hrun as (c1 & Hrun & Heq). apply bind_Some in Hrun as ([c2 n2] & Hnew & Heq'). injection Heq' as <-. injection Heq as <-. cluster_cbn.
  rewrite lookup_insert_eq in Hn. injection Hn as ->. unfold newStateFromNodeClaim in Hnew.
  apply bind_Some in Hnew as (c3 & _ & Hnew). apply bind_Some in Hnew as (c4 & _ & Hnew). injection Hnew as _ <-. done.
Qed.

(** Watchers of the cluster are woken at least every five minutes: the time
    [ConsolidationState] returns is less than five minutes old, and it is the
    time remembered unless that was five minutes old. *)
Theorem ConsolidationState_fresh c now :
  timeSub now (ConsolidationState c now).2 < 5 * Minute ∧
  ((ConsolidationState c now).2 = clusterState c ∨ (ConsolidationState c now).2 = now ∧ 5 * Minute <= timeSub now (clusterState c)) ∧
  clusterState (ConsolidationState c now).1 = (ConsolidationState c now).2.
Proof.
  unfold ConsolidationState. destruct (timeSub now (clusterState c) <? 5 * Minute) eqn:Hlt; destruct_bools; cbn [fst snd]; split_and!; [lia|by left|done| |right; done|done].
  unfold timeSub. rewrite Z.sub_diag. reflexivity.
Qed.
End cluster_theory.

(** * Witnesses *)

Section witnesses.
#[local] Existing Instance textIP.
#[local] Existing Instance keyTaintLib.
#[local] Existing Instance noParsers.
#[local] Existing Instance emptyStorage.
#[local] Existing Instance twoCPU.

Definition poolLabels : gmap string string :=
  list_to_map [(NodePoolLabelKey, "pool"); (LabelInstanceTypeStable, "small"); (NodeRegisteredLabelKey, "true"); (NodeInitializedLabelKey, "true")]%string.

Definition claimOf (name id : string) : NodeClaim Z :=
  mkNodeClaim name id poolLabels ∅ [] [] None 0 None {["cpu"%string := 4]} {["cpu"%string := 4]} ∅ None None.

Definition nodeOf (name id : string) : Node Z :=
  mkNode name id poolLabels ∅ [] None {["cpu"%string := 4]} {["cpu"%string := 4]} ∅.

Definition onNode (pod : Pod) (name : string) : Pod := {|
  pod_Namespace := pod_Namespace pod; pod_Name := pod_Name pod; pod_UID := pod_UID pod;
  pod_CreationTimestamp := pod_CreationTimestamp pod; pod_DeletionTimestamp := pod_DeletionTimestamp pod;
  pod_Labels := pod_Labels pod; pod_Annotations := pod_Annotations pod; pod_OwnerReferences := pod_OwnerReferences pod;
  pod_NodeSelector := pod_NodeSelector pod; pod_Affinity := pod_Affinity pod; pod_Tolerations := pod_Tolerations pod;
  pod_TopologySpreadConstraints := pod_TopologySpreadConstraints pod; pod_Containers := pod_Containers pod; pod_Volumes := pod_Volumes pod;
  pod_NodeName := name; pod_SchedulerName := pod_SchedulerName pod; pod_Priority := pod_Priority pod;
  pod_Phase := pod_Phase pod; pod_Conditions := pod_Conditions pod;
  pod_NominatedNodeName := pod_NominatedNodeName pod; pod_StartTime := pod_StartTime pod;
  pod_ResourceClaims := pod_ResourceClaims pod; pod_InitContainerClaims := pod_InitContainerClaims pod;
  pod_ContainerClaims := pod_ContainerClaims pod; pod_ResourceClaimStatuses := pod_ResourceClaimStatuses pod;
  pod_PriorityClassName := pod_PriorityClassName pod; pod_TerminationGracePeriodSeconds := pod_TerminationGracePeriodSeconds pod;
|}.

Definition podA : Pod := onNode (barePod "default" "a" "a") "node-a".

Definition noReads : NodeReads := mkNodeReads (Some []) (Some []).

(** A NodeClaim is launched, its node joins, a pod is bound to it. *)
Definition launched : Cluster Z := default NewCluster (applyEvent (NodeClaimUpdated 1 (claimOf "claim-a" "p1")) NewCluster).
Definition joined : Cluster Z := default NewCluster (applyEvent (NodeUpdated 2 noReads (nodeOf "node-a" "p1")) launched).
Definition occupied : Cluster Z := default NewCluster (applyEvent (PodUpdated 3 podA) joined).

Lemma occupied_reached : rtc (cluster_step (Q := Z)) NewCluster occupied.
Proof.
  eapply rtc_l with launched.
  { exists (NodeClaimUpdated 1 (claimOf "claim-a" "p1")). split; [|vm_compute; reflexivity]. cbn [allowed]. unfold claim_allowed.
    rewrite decide_False by done. intros name Hl. cbn [NewCluster nodeClaimNameToProviderID] in Hl. by rewrite lookup_empty in Hl. }
  eapply rtc_l with joined.
  { exists (NodeUpdated 2 noReads (nodeOf "node-a" "p1")). split; [|vm_compute; reflexivity]. split_and!; [done| |].
    - intros name Hl. assert (nodeNameToProviderID launched = ∅) as He by (vm_compute; reflexivity). by rewrite He, lookup_empty in Hl.
    - by intros pods [= <-]. }
  apply rtc_once. exists (PodUpdated 3 podA). split; [done|vm_compute; reflexivity].
Qed.

Lemma cluster_resources_exact_witness :
  amount (Q := Z) (NodePoolResourcesFor occupied "pool") "cpu" = poolTotal (Q := Z) (nodes occupied) "pool" "cpu" ∧
  amount (Q := Z) (NodePoolResourcesFor occupied "pool") "cpu" = 4.
Proof.
  split; [|vm_compute; reflexivity].
  apply (proj1 (cluster_resources_exact (Q := Z) occupied occupied_reached)). discriminate.
Defined.



(** The Node object of the pod's node is deleted while its NodeClaim stays, and the pod is
    bound again under its name to another node. *)
Definition events2 : list (ClusterEvent (Q := Z)) :=
  [NodeClaimUpdated 4 (claimOf "claim-b" "p2"); NodeUpdated 5 noReads (nodeOf "node-b" "p2"); NodeDeleted 6 "node-a"; PodUpdated 7 (onNode podA "node-b")].

Definition applyAll (es : list (ClusterEvent (Q := Z))) (c : Cluster Z) : option (Cluster Z) := foldl (λ c e, c ≫= applyEvent e) (Some c) es.

Definition rebound : Cluster Z := default NewCluster (applyAll events2 occupied).

Definition charges (c : Cluster Z) (id : string) : option bool :=
  (λ n, bool_decide (is_Some (podRequests n !! ("default", "a")%string))) <$> nodes c !! id.

Lemma rebound_reached : rtc (cluster_step (Q := Z)) NewCluster rebound.
Proof.
  transitivity occupied; [exact occupied_reached|]. eapply rtc_l with (default NewCluster (applyAll (take 1 events2) occupied)).
  { exists (NodeClaimUpdated 4 (claimOf "claim-b" "p2")). split; [|vm_compute; reflexivity]. cbn [allowed]. unfold claim_allowed. rewrite decide_False by done.
    assert (nodeClaimNameToProviderID occupied = {["claim-a"%string := "p1"%string]}) as -> by (vm_compute; reflexivity).
    by intros name [<- ?]%lookup_singleton_Some. }
  eapply rtc_l with (default NewCluster (applyAll (take 2 events2) occupied)).
  { exists (NodeUpdated 5 noReads (nodeOf "node-b" "p2")). split; [|vm_compute; reflexivity]. split_and!; [done| |by intros pods [= <-]].
    assert (nodeNameToProviderID (default NewCluster (applyAll (take 1 events2) occupied)) = {["node-a"%string := "p1"%string]}) as -> by (vm_compute; reflexivity).
    by intros name [<- ?]%lookup_singleton_Some. }
  eapply rtc_l with (default NewCluster (applyAll (take 3 events2) occupied)); [exists (NodeDeleted 6 "node-a"); split; [done|vm_compute; reflexivity]|].
  apply rtc_once. exists (PodUpdated 7 (onNode podA "node-b")). split; [done|vm_compute; reflexivity].
Qed.

(** The pod is then charged to both, so the first NodeClaim is taken to hold it still. *)
Lemma pod_charged_twice : rtc (cluster_step (Q := Z)) NewCluster rebound ∧ charges rebound "p1" = Some true ∧ charges rebound "p2" = Some true ∧
  bindings rebound !! ("default", "a")%string = Some "node-b"%string.
Proof. split; [exact rebound_reached|]. split_and!; vm_compute; reflexivity. Qed.

(** Two NodeClaims come to have one provider ID; deleting the second dereferences the
    cached node that deleting the first has removed. *)
Lemma shared_provider_id_panics (shared := [NodeClaimUpdated 1 (claimOf "claim-a" "p1"); NodeClaimUpdated 2 (claimOf "claim-b" "p1"); NodeClaimDeleted 3 "claim-a"]) :
  is_Some (applyAll shared NewCluster) ∧ applyAll (shared ++ [NodeClaimDeleted 4 "claim-b"]) NewCluster = None.
Proof. split; [vm_compute; by eexists|vm_compute; reflexivity]. Qed.

Lemma claim_roundtrip_witness :
  ∃ c1 c2, Cluster.UpdateNodeClaim occupied 5 (claimOf "claim-b" "p2") = Some c1 ∧
    Cluster.DeleteNodeClaim c1 6 "claim-b" = Some c2 ∧ nodes c2 = nodes occupied ∧ size (nodes c1) = 2%nat.
Proof.
  destruct (claim_roundtrip (Q := Z) occupied 5 6 (claimOf "claim-b" "p2") occupied_reached) as (c1 & c2 & H1 & _ & H2 & H3 & _).
  - discriminate.
  - vm_compute. reflexivity.
  - vm_compute. reflexivity.
  - exists c1, c2. split; [exact H1|]. split; [exact H2|]. split; [exact H3|]. vm_compute in H1. injection H1 as <-. vm_compute. reflexivity.
Defined.

(** The pod's cost is there, and gone after an update of the NodeClaim. *)
Definition refreshed : Cluster Z := default NewCluster (Cluster.UpdateNodeClaim occupied 7 (claimOf "claim-a" "p1")).

Lemma claim_update_forgets_costs_witness :
  (match nodes occupied !! "p1"%string with Some n => size (podDisruptionCosts n) = 1%nat | None => False end) ∧
  (match nodes refreshed !! "p1"%string with Some n => DisruptionCost n = fone ∧ size (podRequests n) = 1%nat | None => False end).
Proof.
  split; [vm_compute; reflexivity|].
  destruct (nodes refreshed !! "p1"%string) as [n|] eqn:Hn; [|vm_compute in Hn; discriminate].
  destruct (claim_update_forgets_costs (Q := Z) occupied 7 (claimOf "claim-a" "p1") refreshed n) as (_ & Hcost & Hreq).
  - discriminate.
  - vm_compute. reflexivity.
  - exact Hn.
  - split; [exact Hcost|]. rewrite Hreq. vm_compute. reflexivity.
Defined.
End witnesses.
