(* ===== verification/DisruptionQueue.v ===== *)
(** * The disruption queue

    Model of [pkg/controllers/disruption/queue.go]: commands are started
    (candidates tainted, replacements created, nodes marked for deletion), then
    driven by [Reconcile] until the replacements are initialised and the
    candidates deleted, or the command fails or times out.  Commands are
    pointers shared by all their candidates, so they live in a heap and the
    queue maps provider IDs to addresses.  What is done to the API server is
    recorded in a trace, newest first; its answers are arguments.  [StartCommand]
    runs in parallel for the commands of one method, so its check and its effect
    are two steps that may interleave with those of other commands.  [None] is a
    panic. *)

From S2P Require Import Prelude Float64 Kube Taints HostPorts Volumes PodUtils Resources StateNode NodePoolState Cluster ClusterInv.

Record QCandidate := mkQCandidate {
  qc_ProviderID : string;
  qc_NodeClaim : string;       (* the name of its NodeClaim *)
  qc_NodePool : string;
  qc_Static : bool;            (* OwnedByStaticNodePool *)
}.

Record QReplacement := mkQReplacement { rp_Name : string; rp_Initialized : bool }.

Record QCommand := mkQCommand {
  qcmd_Candidates : list QCandidate;
  qcmd_Replacements : list QReplacement;
  qcmd_CreationTimestamp : Z;
  qcmd_Succeeded : bool;
}.

(** What is done to the API server; the last two carry the command. *)
Inductive Effect :=
  | ETaint (providerID : string)
  | EUntaint (providerID : string)
  | ESetCondition (nodeClaim : string)
  | EClearCondition (nodeClaim : string)
  | ECreate (nodeClaim : string)
  | EInitialized (nodeClaim : string)      (* read as initialised *)
  | EDelete (cmd : nat) (nodeClaim : string).

Record Queue := mkQueue {
  heap : gmap nat QCommand;
  ProviderIDToCommand : gmap string nat;
  source : list string;
  completedCommands : Z;
}.

(** The queue, the cluster state it shares, and what it has done. *)
Record QueueWorld (Q : Type) `{NetIP} := mkQueueWorld {
  qw_queue : Queue;
  qw_cluster : Cluster Q;
  qw_trace : list Effect;
}.
Arguments mkQueueWorld {Q _}.
Arguments qw_queue {Q _}.
Arguments qw_cluster {Q _}.
Arguments qw_trace {Q _}.

(** How tainting a node and setting the condition of its NodeClaim went; an
    object that is not found counts as done. *)
Inductive MarkAnswer := TaintFailed | ConditionFailed | MarkDone.

(** Reading a replacement: an error (and whether it is not found), or whether it
    is initialised. *)
Inductive ReplacementAnswer := ReadFailed (notFound : bool) | ReadClaim (initialized : bool).

Inductive StartResult := Started | CandidateBusy | MarkFailed | LaunchFailed.

Inductive WaitResult := Terminated | Recoverable | Unrecoverable.

Definition Millisecond : Z := 1000000.
Definition Hour : Z := 60 * Minute.
Definition minRetryDuration : Z := 10 * Minute.
Definition maxRetryDuration : Z := 1 * Hour.
Definition retryDurationScale : Z := 80 * Millisecond.

Section queue.
Context {Q : Type} `{Quantity Q} {NI : NetIP} {TL : TaintLib} {GR : GoRange}.
Implicit Types (q : Queue) (w : QueueWorld Q) (cmd : QCommand) (c : QCandidate) (now : Z).

Definition NewDisruptionQueue : Queue := mkQueue ∅ ∅ [] 0.

Definition GetMaxRetryDuration q : Z :=
  let retryDuration := wrap64 (retryDurationScale * Z.of_nat (size (ProviderIDToCommand q))) in
  Z.min maxRetryDuration (Z.max minRetryDuration retryDuration).

Definition HasAny q (ids : list string) : bool := existsb (λ id, bool_decide (is_Some (ProviderIDToCommand q !! id))) ids.

Definition providerIDs (cs : list QCandidate) : list string := qc_ProviderID <$> cs.

(** ** Starting a command *)

Definition markEffects (answer : QCandidate → MarkAnswer) c : list Effect :=
  match answer c with
  | TaintFailed => []
  | ConditionFailed => [ETaint (qc_ProviderID c)]
  | MarkDone => [ESetCondition (qc_NodeClaim c); ETaint (qc_ProviderID c)]
  end.

Definition isMarked (answer : QCandidate → MarkAnswer) c : bool := match answer c with MarkDone => true | _ => false end.

Definition pendDisruption (cl : Cluster Q) c : Cluster Q :=
  if qc_Static c then withPoolState cl (MarkNodeClaimPendingDisruption (cl_NodePoolState cl) (qc_NodePool c) (qc_NodeClaim c)) else cl.

(** [markDisrupted]: the candidates marked and whether one was not. *)
Definition markDisrupted w cmd (answer : QCandidate → MarkAnswer) : QueueWorld Q * list QCandidate * bool :=
  let marked := List.filter (isMarked answer) (qcmd_Candidates cmd) in
  (mkQueueWorld (qw_queue w) (foldl pendDisruption (qw_cluster w) marked) (concat (markEffects answer <$> qcmd_Candidates cmd) ++ qw_trace w),
   marked, existsb (λ c, negb (isMarked answer c)) (qcmd_Candidates cmd)).

(** [createReplacementNodeClaims]: [created] holds the names of the NodeClaims that
    [CreateNodeClaims] created and whether it returned an error, which it also does
    when only some of them could be created. *)
Definition createReplacementNodeClaims w (rs : list QReplacement) (created : list string * bool)
    : QueueWorld Q * option (list QReplacement) :=
  let '(names, err) := created in
  let w := mkQueueWorld (qw_queue w) (qw_cluster w) ((ECreate <$> names) ++ qw_trace w) in
  if err : bool then (w, None)
  else if bool_decide (length names = length rs)
  then (w, Some (zip_with (λ name r, mkQReplacement name (rp_Initialized r)) names rs))
  else (w, None).

(** The part of [StartCommand] after the check, for a command at a fresh address;
    [nominated] are the nodes the results of the simulation nominate. *)
Definition startChecked w cmd (answer : QCandidate → MarkAnswer) (created : list string * bool) (nominated : list string)
    (batchMaxDuration now : Z) : option (QueueWorld Q * StartResult) :=
  let '(w, marked, failed) := markDisrupted w cmd answer in
  if failed && (negb (bool_decide (qcmd_Replacements cmd = [])) || bool_decide (marked = [])) then Some (w, MarkFailed)
  else
    let '(w, launched) := createReplacementNodeClaims w (qcmd_Replacements cmd) created in
    match launched with
    | None => Some (w, LaunchFailed)
    | Some rs =>
        cl ← MarkForDeletion (qw_cluster w) (providerIDs marked);
        let cl := foldl (λ cl id, NominateNodeForPod cl batchMaxDuration now id) cl nominated in
        first ← head marked;
        let q := qw_queue w in
        let addr := fresh (dom (heap q)) in
        let cmd := mkQCommand marked rs (qcmd_CreationTimestamp cmd) (qcmd_Succeeded cmd) in
        Some (mkQueueWorld
          (mkQueue (<[addr := cmd]> (heap q)) (foldl (λ m id, <[id := addr]> m) (ProviderIDToCommand q) (providerIDs marked))
             (source q ++ [qc_NodeClaim first]) (completedCommands q)) cl (qw_trace w), Started)
    end.

(** The check and what follows it are not one step: commands are started in parallel. *)
Definition StartCommand w cmd (answer : QCandidate → MarkAnswer) (created : list string * bool) (nominated : list string)
    (batchMaxDuration now : Z) : option (QueueWorld Q * StartResult) :=
  if HasAny (qw_queue w) (providerIDs (qcmd_Candidates cmd)) then Some (w, CandidateBusy)
  else startChecked w cmd answer created nominated batchMaxDuration now.

(** ** Driving a command *)

(** The replacements in turn: those now known to be initialised, what was read,
    and the error, if any: [true] for the unrecoverable one that ends the loop. *)
Fixpoint waitReplacements (cl : Cluster Q) (read : string → ReplacementAnswer) (rs : list QReplacement)
    : list QReplacement * list Effect * option bool :=
  match rs with
  | [] => ([], [], None)
  | r :: rs =>
      let '(rest, reads, err) := waitReplacements cl read rs in
      if rp_Initialized r then (r :: rest, reads, err)
      else
        match read (rp_Name r) with
        | ReadFailed true => if NodeClaimExists cl (rp_Name r) then (r :: rest, reads, Some (default false err)) else (r :: rs, [], Some true)
        | ReadFailed false | ReadClaim false => (r :: rest, reads, Some (default false err))
        | ReadClaim true => (mkQReplacement (rp_Name r) true :: rest, reads ++ [EInitialized (rp_Name r)], err)
        end
  end.

(** [waitOrTerminate]: [deleted] tells for which candidates the delete call
    succeeded or found nothing. *)
Definition waitOrTerminate w (addr : nat) cmd (read : string → ReplacementAnswer) (deleted : QCandidate → bool) now
    : QueueWorld Q * WaitResult :=
  let q := qw_queue w in
  let '(rs, reads, err) := waitReplacements (qw_cluster w) read (qcmd_Replacements cmd) in
  let cmd' := mkQCommand (qcmd_Candidates cmd) rs (qcmd_CreationTimestamp cmd) (qcmd_Succeeded cmd) in
  let w := mkQueueWorld (mkQueue (<[addr := cmd']> (heap q)) (ProviderIDToCommand q) (source q) (completedCommands q)) (qw_cluster w) (reads ++ qw_trace w) in
  let '(w, result) :=
    match err with
    | Some unrecoverable => (w, if unrecoverable : bool then Unrecoverable else Recoverable)
    | None =>
        (mkQueueWorld (qw_queue w) (qw_cluster w)
           ((EDelete addr <$> (qc_NodeClaim <$> List.filter deleted (qcmd_Candidates cmd))) ++ qw_trace w),
         if forallb deleted (qcmd_Candidates cmd) then Terminated else Recoverable)
    end in
  (w, if GetMaxRetryDuration q <? timeSub now (qcmd_CreationTimestamp cmd) then Unrecoverable else result).

Definition CompleteCommand w cmd : option (QueueWorld Q) :=
  let q := qw_queue w in
  cl ← (if qcmd_Succeeded cmd then Some (qw_cluster w) else UnmarkForDeletion (qw_cluster w) (providerIDs (qcmd_Candidates cmd)));
  Some (mkQueueWorld
    (mkQueue (heap q) (foldl (λ m id, delete id m) (ProviderIDToCommand q) (providerIDs (qcmd_Candidates cmd))) (source q) ((completedCommands q + 1) mod 2 ^ 64))
    cl (qw_trace w)).

(** [commandForNodeClaim], with the address *)
Definition commandForNodeClaim q (name : string) : option (nat * QCommand) :=
  '(_, addr) ← List.find (λ x,
    match heap q !! x.2 with
    | Some cmd => existsb (λ c, String.eqb (qc_NodeClaim c) name) (qcmd_Candidates cmd)
    | None => false
    end) (gorange (ProviderIDToCommand q));
  cmd ← heap q !! addr;
  Some (addr, cmd).

Definition succeed cmd : QCommand := mkQCommand (qcmd_Candidates cmd) (qcmd_Replacements cmd) (qcmd_CreationTimestamp cmd) true.

(** Whether to try again is in the result; taints that cannot be removed are left
    to the disruption controller, so [untainted] and [cleared] tell what was done. *)
Definition Reconcile w (name : string) (read : string → ReplacementAnswer) (deleted untainted cleared : QCandidate → bool) now
    : option (QueueWorld Q * bool) :=
  match commandForNodeClaim (qw_queue w) name with
  | None => Some (w, false)
  | Some (addr, cmd) =>
      let '(w, result) := waitOrTerminate w addr cmd read deleted now in
      cmd ← heap (qw_queue w) !! addr;
      match result with
      | Recoverable => Some (w, true)
      | Unrecoverable =>
          let w := mkQueueWorld (qw_queue w) (qw_cluster w)
            ((EClearCondition ∘ qc_NodeClaim <$> List.filter cleared (qcmd_Candidates cmd)) ++
             (EUntaint ∘ qc_ProviderID <$> List.filter untainted (qcmd_Candidates cmd)) ++ qw_trace w) in
          w ← CompleteCommand w cmd; Some (w, false)
      | Terminated =>
          let q := qw_queue w in
          let cmd := succeed cmd in
          let w := mkQueueWorld (mkQueue (<[addr := cmd]> (heap q)) (ProviderIDToCommand q) (source q) (completedCommands q)) (qw_cluster w) (qw_trace w) in
          w ← CompleteCommand w cmd; Some (w, false)
      end
  end.
End queue.

(** * Theory *)

Section queue_theory.
Context {Q : Type} `{QuantityLaws Q} {NI : NetIP} {TL : TaintLib} {PS : Parsers} {SA : StorageAPI} {PR : PodResources Q} {GR : GoRange}.
Implicit Types (q : Queue) (w : QueueWorld Q) (cmd : QCommand) (c : QCandidate) (now : Z) (starting : list QCommand) (trace : list Effect).

(** ** Runs *)

(** A command as the methods make it. *)
Definition unstarted cmd : Prop := qcmd_Succeeded cmd = false ∧ ∀ r, r ∈ qcmd_Replacements cmd → rp_Initialized r = false.

Definition apart cmd cmd' : Prop := ∀ id, id ∈ providerIDs (qcmd_Candidates cmd) → id ∉ providerIDs (qcmd_Candidates cmd').

(** The queue with the commands that have passed the check of [StartCommand] and
    not yet been added.  Commands started at the same time share no node. *)
Inductive queue_step : QueueWorld Q * list QCommand → QueueWorld Q * list QCommand → Prop :=
  | queue_check w starting cmd :
      unstarted cmd → HasAny (qw_queue w) (providerIDs (qcmd_Candidates cmd)) = false → Forall (apart cmd) starting →
      queue_step (w, starting) (w, cmd :: starting)
  | queue_start w before cmd after answer created nominated dur now w' result :
      startChecked w cmd answer created nominated dur now = Some (w', result) →
      queue_step (w, before ++ cmd :: after) (w', before ++ after)
  | queue_reconcile w starting name read deleted untainted cleared now w' again :
      Reconcile w name read deleted untainted cleared now = Some (w', again) →
      queue_step (w, starting) (w', starting)
  | queue_cluster w starting e cl' :
      allowed (qw_cluster w) e → applyEvent e (qw_cluster w) = Some cl' →
      queue_step (w, starting) (mkQueueWorld (qw_queue w) cl' (qw_trace w), starting).

(** ** The invariant *)

(** The command's replacements have all been read as initialised before. *)
Definition replaced cmd trace : Prop := ∀ r, r ∈ qcmd_Replacements cmd → EInitialized (rp_Name r) ∈ trace.

(** Later versions of a command have the same candidates and replacements. *)
Record evolves cmd cmd' : Prop := {
  ev_candidates : qcmd_Candidates cmd' = qcmd_Candidates cmd;
  ev_names : rp_Name <$> qcmd_Replacements cmd' = rp_Name <$> qcmd_Replacements cmd;
}.

Lemma evolves_replaced cmd cmd' trace : evolves cmd cmd' → replaced cmd trace → replaced cmd' trace.
Proof.
  intros [_ Hn] Hr r' Hin. assert (rp_Name r' ∈ rp_Name <$> qcmd_Replacements cmd) as Hin'.
  { rewrite <- Hn. by apply list_elem_of_fmap_2. }
  apply list_elem_of_fmap in Hin' as (r & -> & Hr'). by apply Hr.
Qed.

(** Every deletion was made for a command, of one of its candidates, and after
    its replacements were read as initialised. *)
Definition deletions_ok (h : gmap nat QCommand) trace : Prop :=
  ∀ later addr claim earlier, trace = later ++ EDelete addr claim :: earlier →
    ∃ cmd, h !! addr = Some cmd ∧ claim ∈ qc_NodeClaim <$> qcmd_Candidates cmd ∧ replaced cmd earlier.

Record queue_inv (x : QueueWorld Q * list QCommand) : Prop := {
  qi_known : ∀ id addr, ProviderIDToCommand (qw_queue x.1) !! id = Some addr →
    ∃ cmd, heap (qw_queue x.1) !! addr = Some cmd ∧ id ∈ providerIDs (qcmd_Candidates cmd);
  qi_whole : ∀ id addr cmd id', ProviderIDToCommand (qw_queue x.1) !! id = Some addr → heap (qw_queue x.1) !! addr = Some cmd →
    id' ∈ providerIDs (qcmd_Candidates cmd) → ProviderIDToCommand (qw_queue x.1) !! id' = Some addr;
  qi_free : ∀ cmd id, cmd ∈ x.2 → id ∈ providerIDs (qcmd_Candidates cmd) → ProviderIDToCommand (qw_queue x.1) !! id = None;
  qi_apart : ForallOrdPairs apart x.2;
  qi_unstarted : Forall unstarted x.2;
  qi_initialized : ∀ addr cmd r, heap (qw_queue x.1) !! addr = Some cmd → r ∈ qcmd_Replacements cmd → rp_Initialized r = true →
    EInitialized (rp_Name r) ∈ qw_trace x.1;
  qi_deletions : deletions_ok (heap (qw_queue x.1)) (qw_trace x.1);
  qi_cluster : cluster_wf settled (qw_cluster x.1);
}.

(** Adding to the trace what deletes nothing. *)
Definition no_delete (e : Effect) : Prop := match e with EDelete _ _ => False | _ => True end.

Lemma deletions_ok_app (h h' : gmap nat QCommand) trace (es : list Effect) :
  deletions_ok h trace → Forall no_delete es →
  (∀ addr cmd, h !! addr = Some cmd → ∃ cmd', h' !! addr = Some cmd' ∧ evolves cmd cmd') → deletions_ok h' (es ++ trace).
Proof.
  intros Hd Hes Hh later addr claim earlier Heq.
  assert (∃ later', trace = later' ++ EDelete addr claim :: earlier) as (later' & ->).
  { revert later Heq. induction Hes as [|e es He _ IH]; intros later Heq; [by exists later|].
    destruct later as [|e' later]; [injection Heq as -> _; done|]. injection Heq as _ Heq. by apply (IH later). }
  destruct (Hd later' addr claim earlier eq_refl) as (cmd & Hcmd & Hin & Hr). destruct (Hh addr cmd Hcmd) as (cmd' & Hcmd' & Hev).
  exists cmd'. split_and!; [done|by rewrite (ev_candidates _ _ Hev)|by apply (evolves_replaced cmd)].
Qed.

Lemma apart_sym cmd cmd' : apart cmd cmd' → apart cmd' cmd.
Proof. intros Ha id H1 H2. by apply (Ha id). Qed.

Lemma apart_middle before cmd after :
  ForallOrdPairs apart (before ++ cmd :: after) → Forall (apart cmd) (before ++ after) ∧ ForallOrdPairs apart (before ++ after).
Proof.
  induction before as [|b before IH]; cbn [app]; [by inversion 1|]. inversion 1 as [|? ? Hb Hrest]; subst. destruct (IH Hrest) as [Hall Hpairs].
  apply List.Forall_app in Hb as [Hb1 Hb2]. inversion Hb2; subst. split; [constructor; [by apply apart_sym|done]|].
  constructor; [|done]. by apply List.Forall_app.
Qed.

(** *** Starting *)

Lemma pendDisruption_wf cs (cl : Cluster Q) : cluster_wf settled cl → cluster_wf settled (foldl pendDisruption cl cs).
Proof.
  revert cl. induction cs as [|c cs IH]; intros cl Hwf; cbn [foldl]; [done|]. apply IH. unfold pendDisruption.
  destruct (qc_Static c); [by eapply wf_same; [..|exact Hwf]|done].
Qed.

Lemma nominate_wf ids dur now (cl : Cluster Q) :
  cluster_wf settled cl → cluster_wf settled (foldl (λ cl id, NominateNodeForPod cl dur now id) cl ids).
Proof. revert cl. induction ids as [|id ids IH]; intros cl Hwf; cbn [foldl]; [done|]. by apply IH, NominateNodeForPod_wf. Qed.

Lemma insert_all_lookup (ids : list string) (addr : nat) (m : gmap string nat) id :
  foldl (λ m id, <[id := addr]> m) m ids !! id = if decide (id ∈ ids) then Some addr else m !! id.
Proof.
  revert m. induction ids as [|x ids IH]; intros m; cbn [foldl]; [by rewrite decide_False by apply not_elem_of_nil|].
  rewrite IH. destruct (decide (id ∈ ids)) as [Hin|Hin]; [by rewrite decide_True by (by right)|].
  destruct (decide (id = x)) as [->|Hne]; [rewrite lookup_insert_eq, decide_True; [done|by left]|].
  rewrite lookup_insert_ne by done. rewrite decide_False; [done|]. by intros [?|?]%elem_of_cons.
Qed.

Lemma delete_all_lookup (ids : list string) (m : gmap string nat) id :
  foldl (λ m id, delete id m) m ids !! id = if decide (id ∈ ids) then None else m !! id.
Proof.
  revert m. induction ids as [|x ids IH]; intros m; cbn [foldl]; [by rewrite decide_False by apply not_elem_of_nil|].
  rewrite IH. destruct (decide (id ∈ ids)) as [Hin|Hin]; [by rewrite decide_True by (by right)|].
  destruct (decide (id = x)) as [->|Hne]; [rewrite lookup_delete_eq, decide_True; [done|by left]|].
  rewrite lookup_delete_ne by done. rewrite decide_False; [done|]. by intros [?|?]%elem_of_cons.
Qed.

Lemma markEffects_no_delete answer cs : Forall no_delete (concat (markEffects answer <$> cs)).
Proof.
  induction cs as [|c cs IH]; [constructor|]. rewrite fmap_cons. cbn [concat]. apply List.Forall_app. split; [|done].
  unfold markEffects. destruct (answer c); repeat constructor.
Qed.

(** What starting a command does to the world. *)
Lemma startChecked_cases w cmd answer created nominated dur now w' result :
  startChecked w cmd answer created nominated dur now = Some (w', result) → cluster_wf settled (qw_cluster w) →
  cluster_wf settled (qw_cluster w') ∧ (∃ es, qw_trace w' = es ++ qw_trace w ∧ Forall no_delete es) ∧
  (qw_queue w' = qw_queue w ∨
   ∃ marked names, (∀ c, c ∈ marked → c ∈ qcmd_Candidates cmd) ∧ length names = length (qcmd_Replacements cmd) ∧
     let q := qw_queue w in
     let addr := fresh (dom (heap q)) in
     heap (qw_queue w') = <[addr := mkQCommand marked (zip_with (λ name r, mkQReplacement name (rp_Initialized r)) names (qcmd_Replacements cmd))
       (qcmd_CreationTimestamp cmd) (qcmd_Succeeded cmd)]> (heap q) ∧
     ProviderIDToCommand (qw_queue w') = foldl (λ m id, <[id := addr]> m) (ProviderIDToCommand q) (providerIDs marked)).
Proof.
  unfold startChecked. cbn [markDisrupted]. set (marked := List.filter (isMarked answer) (qcmd_Candidates cmd)).
  intros Hrun Hwf. pose proof (pendDisruption_wf marked (qw_cluster w) Hwf) as Hwf1. pose proof (markEffects_no_delete answer (qcmd_Candidates cmd)) as Hes.
  destruct (_ && _) in Hrun; [injection Hrun as <- <-; split_and!; [done|by eexists|by left]|].
  unfold createReplacementNodeClaims in Hrun. destruct created as [names err].
  assert (Forall no_delete ((ECreate <$> names) ++ concat (markEffects answer <$> qcmd_Candidates cmd))) as Hes'.
  { apply List.Forall_app. split; [|done]. apply List.Forall_forall. intros e (n & <- & _)%in_map_iff. done. }
  destruct err; [injection Hrun as <- <-; split_and!; [done|eexists; by rewrite <- app_assoc|by left]|].
  case_bool_decide as Hlen; [|injection Hrun as <- <-; split_and!; [done|eexists; by rewrite <- app_assoc|by left]].
  apply bind_Some in Hrun as (cl & Hmark & Hrun). apply bind_Some in Hrun as (first & _ & Hrun). injection Hrun as <- <-. cbn [qw_cluster qw_queue qw_trace] in *.
  destruct (markNodes_ok true (foldl pendDisruption (qw_cluster w) marked) (providerIDs marked) Hwf1) as (cl' & Hmark' & Hwf2).
  unfold MarkForDeletion in Hmark. rewrite Hmark in Hmark'. injection Hmark' as <-. split_and!.
  - by apply nominate_wf.
  - eexists. by rewrite <- app_assoc.
  - right. exists marked, names. split_and!; [|done|done|done]. intros c. unfold marked. rewrite !list_elem_of_In, filter_In. tauto.
Qed.

Lemma start_inv w before cmd after answer created nominated dur now w' result :
  queue_inv (w, before ++ cmd :: after) → startChecked w cmd answer created nominated dur now = Some (w', result) → queue_inv (w', before ++ after).
Proof.
  intros [Hknown Hwhole Hfree Happ Hun Hinit Hdel Hcl] Hrun. cbn [fst snd] in *.
  destruct (startChecked_cases _ _ _ _ _ _ _ _ _ Hrun Hcl) as (Hcl' & (es & Htr & Hes) & Hq).
  destruct (apart_middle before cmd after Happ) as [Hapart Happ'].
  assert (∀ x, x ∈ before ++ after → x ∈ before ++ cmd :: after) as Hsub by (intros x; rewrite !elem_of_app, elem_of_cons; tauto).
  assert (Forall unstarted (before ++ after)) as Hun'.
  { apply List.Forall_app. apply List.Forall_app in Hun as [? Hun]. inversion Hun; subst. done. }
  destruct Hq as [Hq|(marked & names & Hmarked & Hlen & Hheap & Hmap)].
  { split; cbn [fst snd]; rewrite ?Hq, ?Htr; try done.
    - intros c id Hc. by apply Hfree, Hsub.
    - intros addr c r Hc Hr Hi. apply elem_of_app. right. by apply (Hinit addr c).
    - apply (deletions_ok_app (heap (qw_queue w))); [done|done|]. intros addr c Hc. by exists c. }
  set (addr := fresh (dom (heap (qw_queue w)))) in *. assert (heap (qw_queue w) !! addr = None) as Hnew by (apply not_elem_of_dom, is_fresh).
  assert (∀ id, id ∈ providerIDs marked → ProviderIDToCommand (qw_queue w) !! id = None ∧ id ∈ providerIDs (qcmd_Candidates cmd)) as Hids.
  { intros id (c & -> & Hc)%list_elem_of_fmap. apply Hmarked in Hc. assert (qc_ProviderID c ∈ providerIDs (qcmd_Candidates cmd)) as Hin by (by apply list_elem_of_fmap_2).
    split; [|done]. apply (Hfree cmd); [|done]. apply elem_of_app. right. by left. }
  assert (∀ id a, ProviderIDToCommand (qw_queue w) !! id = Some a → a ≠ addr) as Hother.
  { intros id a (c & Hc & _)%Hknown ->. congruence. }
  split; cbn [fst snd]; rewrite ?Htr; try done; try rewrite Hmap.
  - intros id a. rewrite insert_all_lookup. case_decide as Hin.
    + intros [= <-]. rewrite Hheap, lookup_insert_eq. eexists. by split.
    + intros Hl. destruct (Hknown id a Hl) as (c & Hc & Hi). exists c. rewrite Hheap, lookup_insert_ne; [done|]. by apply not_eq_sym, (Hother id).
  - intros id a c id'. rewrite !insert_all_lookup. case_decide as Hin.
    + intros [= <-]. rewrite Hheap, lookup_insert_eq. intros [= <-] Hi. cbn [qcmd_Candidates] in Hi. by rewrite decide_True.
    + intros Hl. rewrite Hheap, lookup_insert_ne by (by apply not_eq_sym, (Hother id)). intros Hc Hi. pose proof (Hwhole id a c id' Hl Hc Hi) as Hw.
      rewrite decide_False; [done|]. intros [Hn _]%Hids. congruence.
  - intros c id Hc Hi. rewrite insert_all_lookup, decide_False; [by apply (Hfree c id); [apply Hsub|]|].
    intros [_ Hin]%Hids. rewrite List.Forall_forall in Hapart. by apply (Hapart c (proj1 (list_elem_of_In _ _) Hc) id).
  - intros a c r. rewrite Hheap. intros [[<- <-]|[_ Hc]]%lookup_insert_Some Hr Hi; [|apply elem_of_app; right; by apply (Hinit a c)].
    cbn [qcmd_Replacements] in Hr. apply elem_of_lookup_zip_with in Hr as (i & nm & r0 & -> & _ & Hr0). cbn [rp_Initialized] in Hi.
    apply List.Forall_app in Hun as [_ Hun]. inversion Hun as [|? ? [_ Hno] _]; subst. apply list_elem_of_lookup_2, Hno in Hr0. congruence.
  - apply (deletions_ok_app (heap (qw_queue w))); [done|done|]. intros a c Hc. exists c. rewrite Hheap, lookup_insert_ne by congruence. by split.
Qed.

(** *** Driving *)

Lemma waitReplacements_ok (cl : Cluster Q) read rs :
  let '(rs', reads, err) := waitReplacements cl read rs in
  rp_Name <$> rs' = rp_Name <$> rs ∧ Forall no_delete reads ∧
  (∀ r, r ∈ rs' → rp_Initialized r = true → r ∈ rs ∨ EInitialized (rp_Name r) ∈ reads) ∧
  (err = None → ∀ r, r ∈ rs' → rp_Initialized r = true).
Proof.
  induction rs as [|r rs IH]; cbn [waitReplacements]; [split_and!; [done|constructor|by intros r ?%not_elem_of_nil|by intros _ r ?%not_elem_of_nil]|].
  destruct (waitReplacements cl read rs) as [[rest reads] err]. destruct IH as (Hn & Hd & Hi & He).
  assert (∀ r', r' ∈ r :: rest → rp_Initialized r' = true → r' ∈ r :: rs ∨ EInitialized (rp_Name r') ∈ reads) as Hkeep.
  { intros r' [->|Hr']%elem_of_cons Hi'; [left; by left|]. destruct (Hi r' Hr' Hi'); [left; by right|by right]. }
  destruct (rp_Initialized r) eqn:Hr.
  { split_and!; [by rewrite !fmap_cons, Hn|done|done|]. intros Hnone r' [->|Hr']%elem_of_cons; [done|by apply He]. }
  destruct (read (rp_Name r)) as [[]|[]]; [destruct (NodeClaimExists cl (rp_Name r))| | |]; try (by split_and!; [rewrite !fmap_cons, Hn|done|done|done]).
  - split_and!; [done|constructor|intros r' Hr' _; by left|done].
  - split_and!; [by rewrite !fmap_cons, Hn|apply List.Forall_app; by split; [|repeat constructor]| |].
    + intros r' [->|Hr']%elem_of_cons Hi'; [right; apply elem_of_app; right; by left|].
      destruct (Hi r' Hr' Hi'); [left; by right|right; apply elem_of_app; by left].
    + intros Hnone r' [->|Hr']%elem_of_cons; [done|by apply He].
Qed.

Lemma deletions_ok_deletes (h : gmap nat QCommand) trace addr cmd (claims : list string) :
  deletions_ok h trace → h !! addr = Some cmd → (∀ claim, claim ∈ claims → claim ∈ qc_NodeClaim <$> qcmd_Candidates cmd) → replaced cmd trace →
  deletions_ok h ((EDelete addr <$> claims) ++ trace).
Proof.
  intros Hd Hcmd Hclaims Hr. induction claims as [|claim claims IH]; [done|]. rewrite fmap_cons. cbn [app].
  intros [|e later] addr' claim' earlier Heq.
  - injection Heq as <- <- <-. exists cmd. split_and!; [done|apply Hclaims; by left|]. intros r Hin. apply elem_of_app. right. by apply Hr.
  - injection Heq as _ Heq. apply (IH (λ cl' Hin, Hclaims cl' (list_elem_of_further _ _ _ Hin)) later addr' claim' earlier Heq).
Qed.

Lemma commandForNodeClaim_spec q name addr cmd :
  commandForNodeClaim q name = Some (addr, cmd) → ∃ id, ProviderIDToCommand q !! id = Some addr ∧ heap q !! addr = Some cmd.
Proof.
  unfold commandForNodeClaim. intros ([id a] & Hf & Hrun)%bind_Some. apply bind_Some in Hrun as (cmd' & Hc & [= <- <-]). exists id. split; [|done].
  apply find_some in Hf as [Hin _]. by apply list_elem_of_In, elem_of_gorange in Hin.
Qed.

(** Another version of a command in the heap. *)
Lemma heap_inv w starting addr cmd cmd' (es : list Effect) cl :
  queue_inv (w, starting) → heap (qw_queue w) !! addr = Some cmd → evolves cmd cmd' →
  (∀ r, r ∈ qcmd_Replacements cmd' → rp_Initialized r = true → EInitialized (rp_Name r) ∈ es ++ qw_trace w) →
  deletions_ok (<[addr := cmd']> (heap (qw_queue w))) (es ++ qw_trace w) → cluster_wf settled cl →
  queue_inv (mkQueueWorld (mkQueue (<[addr := cmd']> (heap (qw_queue w))) (ProviderIDToCommand (qw_queue w)) (source (qw_queue w))
    (completedCommands (qw_queue w))) cl (es ++ qw_trace w), starting).
Proof.
  intros [Hknown Hwhole Hfree Happ Hun Hinit Hdel Hcl] Hcmd Hev Hi Hd Hwf. cbn [fst snd] in *. split; cbn [fst snd qw_queue qw_trace qw_cluster heap ProviderIDToCommand]; try done.
  - intros id a Hl. destruct (Hknown id a Hl) as (c & Hc & Hin). destruct (decide (addr = a)) as [<-|Hne]; [|exists c; by rewrite lookup_insert_ne].
    exists cmd'. rewrite lookup_insert_eq, (ev_candidates _ _ Hev). split; [done|]. congruence.
  - intros id a c id' Hl [[<- <-]|[_ Hc]]%lookup_insert_Some Hin; [|by apply (Hwhole id a c)]. rewrite (ev_candidates _ _ Hev) in Hin. by apply (Hwhole id addr cmd).
  - intros a c r [[<- <-]|[_ Hc]]%lookup_insert_Some Hr Hri; [by apply Hi|]. apply elem_of_app. right. by apply (Hinit a c).
Qed.

Lemma evolves_heap (h : gmap nat QCommand) addr cmd cmd' :
  h !! addr = Some cmd → evolves cmd cmd' → ∀ a x, h !! a = Some x → ∃ x', <[addr := cmd']> h !! a = Some x' ∧ evolves x x'.
Proof.
  intros Hcmd Hev a x Hx. destruct (decide (addr = a)) as [<-|Hne]; [exists cmd'; rewrite lookup_insert_eq; split; [done|congruence]|].
  exists x. rewrite lookup_insert_ne by done. by split.
Qed.

Lemma wait_inv w starting addr cmd read deleted now w' result :
  queue_inv (w, starting) → heap (qw_queue w) !! addr = Some cmd → waitOrTerminate w addr cmd read deleted now = (w', result) →
  queue_inv (w', starting) ∧ qw_cluster w' = qw_cluster w ∧ ProviderIDToCommand (qw_queue w') = ProviderIDToCommand (qw_queue w) ∧
  (∃ cmd', heap (qw_queue w') !! addr = Some cmd' ∧ evolves cmd cmd' ∧ qcmd_Succeeded cmd' = qcmd_Succeeded cmd ∧
     (result = Terminated → replaced cmd' (qw_trace w') ∧ ∀ c, c ∈ qcmd_Candidates cmd → EDelete addr (qc_NodeClaim c) ∈ qw_trace w')) ∧
  (GetMaxRetryDuration (qw_queue w) < timeSub now (qcmd_CreationTimestamp cmd) → result = Unrecoverable).
Proof.
  intros Hinv Hcmd. unfold waitOrTerminate. pose proof (waitReplacements_ok (qw_cluster w) read (qcmd_Replacements cmd)) as Hw.
  destruct (waitReplacements (qw_cluster w) read (qcmd_Replacements cmd)) as [[rs reads] err]. destruct Hw as (Hn & Hd & Hi & He).
  set (cmd' := mkQCommand (qcmd_Candidates cmd) rs (qcmd_CreationTimestamp cmd) (qcmd_Succeeded cmd)).
  assert (evolves cmd cmd') as Hev by (by split). pose proof Hinv as [_ _ _ _ _ Hinit Hdel Hcl]. cbn [fst snd] in *.
  assert (∀ r, r ∈ qcmd_Replacements cmd' → rp_Initialized r = true → EInitialized (rp_Name r) ∈ reads ++ qw_trace w) as Hi'.
  { intros r Hr Hri. apply elem_of_app. destruct (Hi r Hr Hri); [right; by apply (Hinit addr cmd)|by left]. }
  assert (deletions_ok (<[addr := cmd']> (heap (qw_queue w))) (reads ++ qw_trace w)) as Hdel'.
  { apply (deletions_ok_app (heap (qw_queue w))); [done|done|]. by apply (evolves_heap _ addr cmd). }
  assert (∀ b res, (if GetMaxRetryDuration (qw_queue w) <? timeSub now (qcmd_CreationTimestamp cmd) then Unrecoverable else res) = b →
    GetMaxRetryDuration (qw_queue w) < timeSub now (qcmd_CreationTimestamp cmd) → b = Unrecoverable) as Htime.
  { intros b res <- Hlt. by rewrite (proj2 (Z.ltb_lt _ _) Hlt). }
  destruct err as [unrecoverable|].
  - intros [= <- <-]. split_and!; [by apply (heap_inv w starting addr cmd cmd' reads)|done|done| |by eapply Htime].
    exists cmd'. cbn [qw_queue heap]. rewrite lookup_insert_eq. split_and!; [done|done|done|]. destruct (_ <? _), unrecoverable; done.
  - assert (replaced cmd' (reads ++ qw_trace w)) as Hrep by (intros r Hr; apply Hi'; [done|by apply He]).
    intros [= <- <-]. cbn [qw_queue heap qw_cluster qw_trace ProviderIDToCommand]. split_and!; [|done|done| |by eapply Htime].
    + rewrite app_assoc. apply (heap_inv w starting addr cmd cmd'); try done; rewrite <- ?app_assoc.
      * intros r Hr Hri. apply elem_of_app. right. by apply Hi'.
      * apply (deletions_ok_deletes _ _ addr cmd'); [done|by rewrite lookup_insert_eq| |done].
        intros claim (c & -> & Hc)%list_elem_of_fmap. rewrite list_elem_of_In, filter_In in Hc. apply list_elem_of_fmap_2, list_elem_of_In; tauto.
    + exists cmd'. rewrite lookup_insert_eq. split_and!; [done|done|done|]. destruct (_ <? _); [done|].
      destruct (forallb deleted _) eqn:Hall; [|done]. intros _. split.
      * intros r Hr. apply elem_of_app. right. by apply Hrep.
      * intros c Hc. apply elem_of_app. left. apply list_elem_of_fmap_2, list_elem_of_fmap_2. rewrite forallb_forall in Hall.
        apply list_elem_of_In, filter_In. rewrite <- list_elem_of_In. split; [done|]. by apply Hall, list_elem_of_In.
Qed.

Lemma unmark_unmarks (cl : Cluster Q) ids cl' :
  markNodes false cl ids = Some cl' →
  ∀ id n', nodes cl' !! id = Some n' → ∃ n, nodes cl !! id = Some n ∧ (markedForDeletion n' = true → markedForDeletion n = true ∧ id ∉ ids).
Proof.
  unfold markNodes. revert cl. induction ids as [|x ids IH]; intros cl; cbn [foldl].
  { intros [= <-] id n' Hn. exists n'. split; [done|]. intros Hm. by split; [|apply not_elem_of_nil]. }
  cbn [mbind option_bind]. destruct (markNode false cl x) as [cl1|] eqn:Hmark; [|intros Hnone; exfalso; clear IH; induction ids as [|y ids IHids]; [done|exact (IHids Hnone)]].
  intros Hrun id n' Hn. destruct (IH cl1 Hrun id n' Hn) as (n1 & Hn1 & Hm1). unfold markNode in Hmark.
  destruct (nodes cl !! x) as [n|] eqn:Hx.
  2:{ injection Hmark as <-. exists n1. split; [done|]. intros [Hm Hnin]%Hm1. split; [done|]. intros [->|?]%elem_of_cons; [congruence|done]. }
  apply bind_Some in Hmark as (cl2 & Hup & Hmark). apply (inj Some) in Hmark.
  assert (nodes cl1 = <[x := setMarked n false]> (nodes cl)) as Hnodes.
  { unfold updateNodePoolResources in Hup. destruct (poolCharge _), (poolCharge _). apply bind_Some in Hup as (pools & _ & [= <-]).
    destruct (sn_NodeClaim n) as [claim|]; [|by rewrite <- Hmark]. destruct (nc_DeletionTimestamp claim); by rewrite <- Hmark. }
  rewrite Hnodes in Hn1. apply lookup_insert_Some in Hn1 as [[<- <-]|[Hne Hn1]].
  - exists n. split; [done|]. by intros [? _]%Hm1.
  - exists n1. split; [done|]. intros [Hm Hnin]%Hm1. split; [done|]. by intros [?|?]%elem_of_cons.
Qed.

Lemma complete_ok w starting addr cmd id :
  queue_inv (w, starting) → heap (qw_queue w) !! addr = Some cmd → ProviderIDToCommand (qw_queue w) !! id = Some addr →
  ∃ w', CompleteCommand w cmd = Some w' ∧ queue_inv (w', starting) ∧ qw_trace w' = qw_trace w ∧ heap (qw_queue w') = heap (qw_queue w) ∧
    (∀ id', id' ∈ providerIDs (qcmd_Candidates cmd) → ProviderIDToCommand (qw_queue w') !! id' = None ∧
       (qcmd_Succeeded cmd = false → ∀ n, nodes (qw_cluster w') !! id' = Some n → markedForDeletion n = false)).
Proof.
  intros [Hknown Hwhole Hfree Happ Hun Hinit Hdel Hcl] Hcmd Hid. cbn [fst snd] in *. unfold CompleteCommand.
  assert (∃ cl, (if qcmd_Succeeded cmd then Some (qw_cluster w) else UnmarkForDeletion (qw_cluster w) (providerIDs (qcmd_Candidates cmd))) = Some cl ∧
    cluster_wf settled cl ∧ (qcmd_Succeeded cmd = false → ∀ id' n, id' ∈ providerIDs (qcmd_Candidates cmd) → nodes cl !! id' = Some n → markedForDeletion n = false))
    as (cl & -> & Hcl' & Hun').
  { destruct (qcmd_Succeeded cmd); [by eexists|]. destruct (markNodes_ok false (qw_cluster w) (providerIDs (qcmd_Candidates cmd)) Hcl) as (cl & Hrun & Hwf).
    exists cl. split_and!; [done|done|]. intros _ id' n Hin Hn. destruct (unmark_unmarks _ _ _ Hrun id' n Hn) as (n0 & _ & Hm).
    destruct (markedForDeletion n); [|done]. by destruct Hm. }
  cbn [mbind option_bind]. eexists. split; [reflexivity|]. cbn [qw_trace qw_queue heap ProviderIDToCommand qw_cluster]. split_and!; [|done|done|].
  - split; cbn [fst snd qw_trace qw_queue heap ProviderIDToCommand qw_cluster]; try done.
    + intros id' a. rewrite delete_all_lookup. case_decide; [done|apply Hknown].
    + intros id1 a c id2. rewrite !delete_all_lookup. case_decide as Hin; [done|]. intros Hl Hc Hi. pose proof (Hwhole id1 a c id2 Hl Hc Hi) as Hl2.
      rewrite decide_False; [done|]. intros Hin2. pose proof (Hwhole id addr cmd id2 Hid Hcmd Hin2) as Hl3. rewrite Hl2 in Hl3. injection Hl3 as ->.
      rewrite Hcmd in Hc. injection Hc as <-. destruct (Hknown id1 addr Hl) as (c & Hc & Hi1). congruence.
    + intros c id' Hc Hi. rewrite delete_all_lookup. case_decide; [done|]. by apply (Hfree c).
  - intros id' Hin. rewrite delete_all_lookup, decide_True by done. split; [done|]. intros Hs n. by apply Hun'.
Qed.

Lemma add_effects_inv w starting (es : list Effect) :
  queue_inv (w, starting) → Forall no_delete es → queue_inv (mkQueueWorld (qw_queue w) (qw_cluster w) (es ++ qw_trace w), starting).
Proof.
  intros [Hknown Hwhole Hfree Happ Hun Hinit Hdel Hcl] Hes. split; cbn [fst snd qw_trace qw_queue qw_cluster] in *; try done.
  - intros a c r Hc Hr Hi. apply elem_of_app. right. by apply (Hinit a c).
  - apply (deletions_ok_app (heap (qw_queue w))); [done|done|]. intros a c Hc. by exists c.
Qed.

(** [Reconcile] always returns, keeps the invariant, and does not ask to be called
    again only when the command is complete. *)
Lemma reconcile_ok w starting name read deleted untainted cleared now :
  queue_inv (w, starting) →
  ∃ w' again, Reconcile w name read deleted untainted cleared now = Some (w', again) ∧ queue_inv (w', starting) ∧
    ∀ addr cmd, commandForNodeClaim (qw_queue w) name = Some (addr, cmd) →
      (GetMaxRetryDuration (qw_queue w) < timeSub now (qcmd_CreationTimestamp cmd) → again = false ∧
         (qcmd_Succeeded cmd = false → ∀ id n, id ∈ providerIDs (qcmd_Candidates cmd) → nodes (qw_cluster w') !! id = Some n → markedForDeletion n = false)) ∧
      (again = false → ∀ id, id ∈ providerIDs (qcmd_Candidates cmd) → ProviderIDToCommand (qw_queue w') !! id = None).
Proof.
  intros Hinv. unfold Reconcile. destruct (commandForNodeClaim (qw_queue w) name) as [[addr cmd]|] eqn:Hfind; [|by eexists _, _].
  destruct (commandForNodeClaim_spec _ _ _ _ Hfind) as (id & Hid & Hcmd).
  destruct (waitOrTerminate w addr cmd read deleted now) as [w1 result] eqn:Hwait.
  destruct (wait_inv _ _ _ _ _ _ _ _ _ Hinv Hcmd Hwait) as (Hinv1 & Hcl1 & Hmap1 & (cmd1 & Hcmd1 & Hev & Hsucc & _) & Htime).
  rewrite Hcmd1. cbn [mbind option_bind]. rewrite <- Hmap1 in Hid. destruct result.
  - set (w2 := mkQueueWorld _ _ _). assert (queue_inv (w2, starting)) as Hinv2.
    { pose proof Hinv1 as [_ _ _ _ _ Hi Hd Hcl]. apply (heap_inv w1 starting addr cmd1 (succeed cmd1) []); try done; cbn [app].
      - intros r Hr Hri. by apply (Hi addr cmd1).
      - apply (deletions_ok_app (heap (qw_queue w1)) _ _ []); [done|constructor|]. by apply (evolves_heap _ addr cmd1). }
    destruct (complete_ok w2 starting addr (succeed cmd1) id Hinv2) as (w3 & -> & Hinv3 & _ & _ & Hdone); [by cbn; rewrite lookup_insert_eq|done|].
    eexists _, _. split; [reflexivity|]. split; [done|]. intros ? ? [= <- <-]. split; [by intros Hlt%Htime|].
    intros _ id' Hin. apply Hdone. by rewrite <- (ev_candidates _ _ Hev) in Hin.
  - eexists _, _. split; [reflexivity|]. split; [done|]. intros ? ? [= <- <-]. split; [by intros Hlt%Htime|done].
  - set (es := (EClearCondition ∘ qc_NodeClaim <$> _) ++ (EUntaint ∘ qc_ProviderID <$> _) ++ qw_trace w1).
    assert (queue_inv (mkQueueWorld (qw_queue w1) (qw_cluster w1) es, starting)) as Hinv2.
    { unfold es. rewrite app_assoc. apply add_effects_inv; [done|]. apply List.Forall_app. split; apply List.Forall_forall; by intros e (c & <- & _)%in_map_iff. }
    destruct (complete_ok _ starting addr cmd1 id Hinv2) as (w3 & -> & Hinv3 & _ & _ & Hdone); [done|done|].
    eexists _, _. split; [reflexivity|]. split; [done|]. intros ? ? [= <- <-]. rewrite (ev_candidates _ _ Hev), Hsucc in Hdone. split.
    + intros _. split; [done|]. intros Hs id' n Hin. by apply Hdone.
    + intros _ id' Hin. by apply Hdone.
Qed.

Lemma check_inv w starting cmd :
  queue_inv (w, starting) → unstarted cmd → HasAny (qw_queue w) (providerIDs (qcmd_Candidates cmd)) = false → Forall (apart cmd) starting →
  queue_inv (w, cmd :: starting).
Proof.
  intros [Hknown Hwhole Hfree Happ Hun Hinit Hdel Hcl] Hu Hany Hap. split; cbn [fst snd] in *; try done.
  - intros c id [->|Hc]%elem_of_cons Hin; [|by apply (Hfree c)]. apply not_true_iff_false in Hany. unfold HasAny in Hany.
    destruct (ProviderIDToCommand (qw_queue w) !! id) as [a|] eqn:Ha; [|done]. destruct Hany. apply existsb_exists. exists id.
    split; [by apply list_elem_of_In|]. apply bool_decide_eq_true. by eexists.
  - by constructor.
  - by constructor.
Qed.

Lemma queue_step_inv x y : queue_inv x → queue_step x y → queue_inv y.
Proof.
  intros Hinv Hstep. destruct Hstep as [w starting cmd Hu Hany Hap|w before cmd after answer created nominated dur now w' result Hrun|
    w starting name read deleted untainted cleared now w' again Hrun|w starting e cl' Hallowed Hrun].
  - by apply check_inv.
  - by eapply start_inv.
  - destruct (reconcile_ok w starting name read deleted untainted cleared now Hinv) as (w1 & again1 & Hrun1 & Hinv1 & _). congruence.
  - destruct (applyEvent_ok (qw_cluster w) e) as (cl1 & Hrun1 & Hwf); [apply Hinv|done|]. destruct Hinv. split; cbn [fst snd qw_queue qw_trace qw_cluster] in *; try done. congruence.
Qed.

Definition idle (cl : Cluster Q) : QueueWorld Q * list QCommand := (mkQueueWorld NewDisruptionQueue cl [], []).

Lemma idle_inv (cl : Cluster Q) : rtc cluster_step NewCluster cl → queue_inv (idle cl).
Proof.
  intros Hreach%reachable_wf. split; cbn; try done; try (by constructor).
  intros later addr claim earlier Heq. by destruct later.
Qed.

Lemma reachable_inv (cl : Cluster Q) x : rtc cluster_step NewCluster cl → rtc queue_step (idle cl) x → queue_inv x.
Proof.
  intros Hcl Hreach. apply (rtc_ind_r (λ x, queue_inv x) (idle cl)) in Hreach; [done|by apply idle_inv|]. intros a b _ Hstep Hinv. by apply (queue_step_inv a).
Qed.

(** [StartCommand] without interruption: it turns the command away and changes nothing,
    or it is the check followed by the rest. *)
Lemma StartCommand_steps w starting cmd answer created nominated dur now w' result :
  StartCommand w cmd answer created nominated dur now = Some (w', result) → unstarted cmd → Forall (apart cmd) starting →
  (result = CandidateBusy ∧ w' = w ∧ ∃ id, id ∈ providerIDs (qcmd_Candidates cmd) ∧ is_Some (ProviderIDToCommand (qw_queue w) !! id)) ∨
  result ≠ CandidateBusy ∧ rtc queue_step (w, starting) (w', starting).
Proof.
  unfold StartCommand. intros Hrun Hu Hap. destruct (HasAny _ _) eqn:Hany.
  - injection Hrun as <- <-. left. split_and!; [done|done|]. unfold HasAny in Hany. apply existsb_exists in Hany as (id & Hin & Hid).
    exists id. split; [by apply list_elem_of_In|]. by apply bool_decide_eq_true in Hid.
  - right. split; [|eapply rtc_l; [by apply queue_check|]; apply rtc_once; by apply (queue_start w [] cmd starting answer created nominated dur now w' result)].
    intros ->. unfold startChecked in Hrun. destruct (markDisrupted _ _ _) as [[w1 marked] failed]. destruct (_ && _); [done|].
    destruct (createReplacementNodeClaims _ _ _) as [w2 [rs|]]; [|done].
    apply bind_Some in Hrun as (? & _ & Hrun). by apply bind_Some in Hrun as (? & _ & ?).
Qed.

(** C20. No node goes before its replacement is there.  However commands are
    started and driven and the cluster changes meanwhile, whenever the queue
    deletes a NodeClaim it is that of a candidate of a command, and every
    replacement of that command had been read as initialised before. *)
Theorem deletes_after_replacements (cl : Cluster Q) w starting later addr claim earlier
    (Hcl : rtc cluster_step NewCluster cl) (Hreach : rtc queue_step (idle cl) (w, starting))
    (Htrace : qw_trace w = later ++ EDelete addr claim :: earlier) :
  ∃ cmd, heap (qw_queue w) !! addr = Some cmd ∧ claim ∈ qc_NodeClaim <$> qcmd_Candidates cmd ∧
    ∀ r, r ∈ qcmd_Replacements cmd → EInitialized (rp_Name r) ∈ earlier.
Proof. exact (qi_deletions _ (reachable_inv cl _ Hcl Hreach) later addr claim earlier Htrace). Qed.

(** C21. A node is in one command at most.  In every reachable state all the
    candidates of a command in flight are mapped to it, so two commands in flight
    share no node, and a command that touches a node of one in flight is turned
    away. *)
Theorem node_in_one_command (cl : Cluster Q) w starting id addr cmd
    (Hcl : rtc cluster_step NewCluster cl) (Hreach : rtc queue_step (idle cl) (w, starting))
    (Hid : ProviderIDToCommand (qw_queue w) !! id = Some addr) (Hcmd : heap (qw_queue w) !! addr = Some cmd) :
  id ∈ providerIDs (qcmd_Candidates cmd) ∧
  (∀ id', id' ∈ providerIDs (qcmd_Candidates cmd) → ProviderIDToCommand (qw_queue w) !! id' = Some addr ∧ HasAny (qw_queue w) [id'] = true) ∧
  (∀ id' addr' cmd', ProviderIDToCommand (qw_queue w) !! id' = Some addr' → heap (qw_queue w) !! addr' = Some cmd' → addr' ≠ addr → apart cmd cmd').
Proof.
  pose proof (reachable_inv cl _ Hcl Hreach) as [Hknown Hwhole _ _ _ _ _ _]. cbn [fst snd] in *. split_and!.
  - destruct (Hknown id addr Hid) as (c & Hc & Hin). congruence.
  - intros id' Hin. pose proof (Hwhole id addr cmd id' Hid Hcmd Hin) as Hl. split; [done|]. unfold HasAny. cbn [existsb].
    rewrite bool_decide_eq_true_2; [done|]. by eexists.
  - intros id' addr' cmd' Hid' Hcmd' Hne id2 Hin Hin'. pose proof (Hwhole id addr cmd id2 Hid Hcmd Hin). pose proof (Hwhole id' addr' cmd' id2 Hid' Hcmd' Hin').
    congruence.
Qed.

(** Past the retry duration: ten minutes and 80ms for each node in the queue, and an hour
    whatever the queue holds. *)
Lemma GetMaxRetryDuration_past q elapsed : elapsed <= MaxInt64 →
  10 * Minute < elapsed → 80 * Millisecond * Z.of_nat (size (ProviderIDToCommand q)) < elapsed ∨ Hour < elapsed → GetMaxRetryDuration q < elapsed.
Proof.
  intros Hmax Hmin Hor. unfold GetMaxRetryDuration, retryDurationScale, minRetryDuration, maxRetryDuration. destruct Hor as [Hload|Hh]; [|lia].
  rewrite wrap64_id; [lia|]. unfold in_int64, MinInt64, MaxInt64, Millisecond in *. lia.
Qed.

Lemma GetMaxRetryDuration_within q elapsed : 80 * Millisecond * Z.of_nat (size (ProviderIDToCommand q)) <= MaxInt64 →
  elapsed <= 10 * Minute ∨ elapsed <= 80 * Millisecond * Z.of_nat (size (ProviderIDToCommand q)) ∧ elapsed <= Hour → elapsed <= GetMaxRetryDuration q.
Proof.
  intros Hmax Hor. unfold GetMaxRetryDuration, retryDurationScale, minRetryDuration, maxRetryDuration.
  rewrite wrap64_id; [unfold Hour in *; unfold Minute, Second in *; lia|]. unfold in_int64, MinInt64, MaxInt64, Millisecond in *. lia.
Qed.

(** This call cannot finish the command: a replacement is not there yet, or a
    candidate could not be deleted. *)
Definition unfinished cmd (read : string → ReplacementAnswer) (deleted : QCandidate → bool) : Prop :=
  (∃ r, r ∈ qcmd_Replacements cmd ∧ rp_Initialized r = false ∧ read (rp_Name r) ≠ ReadClaim true) ∨
  ∃ c, c ∈ qcmd_Candidates cmd ∧ deleted c = false.

(** A replacement that was not seen initialised is gone from the API and from the cache. *)
Definition replacementGone (cl : Cluster Q) (read : string → ReplacementAnswer) r : Prop :=
  rp_Initialized r = false ∧ read (rp_Name r) = ReadFailed true ∧ NodeClaimExists cl (rp_Name r) = false.

Lemma waitReplacements_err (cl : Cluster Q) read rs :
  ((waitReplacements cl read rs).2 = None → ∀ r, r ∈ rs → rp_Initialized r = true ∨ read (rp_Name r) = ReadClaim true) ∧
  ((∀ r, r ∈ rs → ¬ replacementGone cl read r) → (waitReplacements cl read rs).2 ≠ Some true).
Proof.
  induction rs as [|r rs [IHn IHs]]; cbn [waitReplacements]; [split; [by intros _ r ?%not_elem_of_nil|done]|].
  destruct (waitReplacements cl read rs) as [[rest reads] err]. cbn [snd] in *.
  assert ((∀ r', r' ∈ r :: rs → ¬ replacementGone cl read r') → default false err ≠ true) as Hd.
  { intros Hall. assert (err ≠ Some true) as He by (apply IHs; intros r' Hr'; apply Hall; by right). by destruct err as [[]|]. }
  destruct (rp_Initialized r) eqn:Hi; [|destruct (read (rp_Name r)) as [[]|[]] eqn:Hr; [destruct (NodeClaimExists cl (rp_Name r)) eqn:Hx| | |]]; cbn [snd].
  all: split; try done; try (by intros Hall [= Ht]; apply (Hd Hall)).
  - intros Hnone r' [->|Hr']%elem_of_cons; [by left|by apply IHn].
  - intros Hall. apply IHs. intros r' Hr'. apply Hall. by right.
  - intros Hall _. by apply (Hall r); [left|].
  - intros Hnone r' [->|Hr']%elem_of_cons; [by right|by apply IHn].
  - intros Hall. apply IHs. intros r' Hr'. apply Hall. by right.
Qed.

Lemma reconcile_retries w name read deleted untainted cleared now addr cmd :
  commandForNodeClaim (qw_queue w) name = Some (addr, cmd) → timeSub now (qcmd_CreationTimestamp cmd) <= GetMaxRetryDuration (qw_queue w) →
  unfinished cmd read deleted → (∀ r, r ∈ qcmd_Replacements cmd → ¬ replacementGone (qw_cluster w) read r) →
  ∃ w', Reconcile w name read deleted untainted cleared now = Some (w', true) ∧ ProviderIDToCommand (qw_queue w') = ProviderIDToCommand (qw_queue w) ∧
    qw_cluster w' = qw_cluster w.
Proof.
  intros Hfind Htime Hun Hgone. unfold Reconcile, waitOrTerminate. rewrite Hfind. rewrite (proj2 (Z.ltb_ge _ _) Htime).
  destruct (waitReplacements_err (qw_cluster w) read (qcmd_Replacements cmd)) as [Hnone Hsome]. specialize (Hsome Hgone).
  destruct (waitReplacements (qw_cluster w) read (qcmd_Replacements cmd)) as [[rs reads] [[]|]]; cbn [snd] in Hnone, Hsome; [done| |].
  { cbn [qw_queue heap]. rewrite lookup_insert_eq. cbn [mbind option_bind]. by eexists. }
  destruct Hun as [(r & Hr & Hi & Hread)|(c & Hc & Hdel)]; [destruct (Hnone eq_refl r Hr); congruence|].
  assert (forallb deleted (qcmd_Candidates cmd) = false) as ->.
  { apply not_true_iff_false. rewrite forallb_forall. intros Hall. rewrite (Hall c) in Hdel; [done|by apply list_elem_of_In]. }
  cbn [qw_queue heap]. rewrite lookup_insert_eq. cbn [mbind option_bind]. by eexists.
Qed.

(** C22. Every command ends, and not before its time.  Take a command that is driven
    once ten minutes, and 80ms for each node in the queue or else an hour, have
    passed since it was made.  Whatever the API server answers, it leaves the queue
    with all its candidates and is not driven again; if this last call could not
    finish it either, none of its nodes is left marked for deletion by it.  Driven
    earlier, a command that could not be finished and none of whose replacements is
    gone stays in the queue and is driven again. *)
Theorem commands_end (cl : Cluster Q) w starting name read deleted untainted cleared now addr cmd
    (Hcl : rtc cluster_step NewCluster cl) (Hreach : rtc queue_step (idle cl) (w, starting))
    (Hfind : commandForNodeClaim (qw_queue w) name = Some (addr, cmd)) :
  let elapsed := timeSub now (qcmd_CreationTimestamp cmd) in
  let scaled := 80 * Millisecond * Z.of_nat (size (ProviderIDToCommand (qw_queue w))) in
  (10 * Minute < elapsed → scaled < elapsed ∨ Hour < elapsed →
   ∃ w', Reconcile w name read deleted untainted cleared now = Some (w', false) ∧
     (∀ id, id ∈ providerIDs (qcmd_Candidates cmd) → ProviderIDToCommand (qw_queue w') !! id = None) ∧
     (qcmd_Succeeded cmd = false → unfinished cmd read deleted →
      ∀ id n, id ∈ providerIDs (qcmd_Candidates cmd) → nodes (qw_cluster w') !! id = Some n → markedForDeletion n = false)) ∧
  (scaled <= MaxInt64 → elapsed <= 10 * Minute ∨ elapsed <= scaled ∧ elapsed <= Hour →
   unfinished cmd read deleted → (∀ r, r ∈ qcmd_Replacements cmd → ¬ replacementGone (qw_cluster w) read r) →
   ∃ w', Reconcile w name read deleted untainted cleared now = Some (w', true) ∧
     ProviderIDToCommand (qw_queue w') = ProviderIDToCommand (qw_queue w) ∧ qw_cluster w' = qw_cluster w).
Proof.
  intros elapsed scaled. split.
  - intros Hmin Hor. assert (elapsed <= MaxInt64) as Hsat by (unfold elapsed, timeSub, MinInt64, MaxInt64; lia).
    destruct (reconcile_ok w starting name read deleted untainted cleared now (reachable_inv cl _ Hcl Hreach)) as (w' & again & Hrun & _ & Hdone).
    destruct (Hdone addr cmd Hfind) as [Htime Hgone]. destruct Htime as [-> Hun]; [by apply GetMaxRetryDuration_past|].
    exists w'. split_and!; [done|by apply Hgone|]. intros Hs _. by apply Hun.
  - intros Hfits Hor. apply (reconcile_retries _ _ _ _ _ _ _ addr); [done|]. by apply GetMaxRetryDuration_within.
Qed.
End queue_theory.

(** * Witnesses *)

Section witnesses.
#[local] Existing Instance textIP.
#[local] Existing Instance keyTaintLib.
#[local] Existing Instance noParsers.
#[local] Existing Instance emptyStorage.
#[local] Existing Instance twoCPU.
#[local] Existing Instance map_to_list_GoRange.

(** The node of [occupied] is replaced. *)
Definition replaceNode : QCommand := mkQCommand [mkQCandidate "p1" "claim-a" "pool" false] [mkQReplacement "" false] 10 false.

Definition busy : QueueWorld Z :=
  match StartCommand (mkQueueWorld NewDisruptionQueue occupied []) replaceNode (λ _, MarkDone) (["claim-r"%string], false) [] (10 * Second) 10 with
  | Some (w, _) => w
  | None => mkQueueWorld NewDisruptionQueue occupied []
  end.

Lemma busy_reached : rtc (queue_step (Q := Z)) (idle occupied) (busy, []).
Proof.
  eapply rtc_l.
  { apply (queue_check _ [] replaceNode); [|vm_compute; reflexivity|constructor]. split; [done|]. intros r ->%list_elem_of_singleton. done. }
  apply rtc_once. apply (queue_start _ [] replaceNode [] (λ _, MarkDone) (["claim-r"%string], false) [] (10 * Second) 10 busy Started). vm_compute. reflexivity.
Qed.

(** The replacement is initialised and the node deleted. *)
Definition finished : QueueWorld Z :=
  match Reconcile busy "claim-a" (λ _, ReadClaim true) (λ _, true) (λ _, true) (λ _, true) 20 with Some (w, _) => w | None => busy end.

Lemma finished_reached : rtc (queue_step (Q := Z)) (idle occupied) (finished, []).
Proof.
  eapply rtc_r; [exact busy_reached|].
  apply (queue_reconcile busy [] "claim-a" (λ _, ReadClaim true) (λ _, true) (λ _, true) (λ _, true) 20 finished false). vm_compute. reflexivity.
Qed.

Lemma deletes_after_replacements_witness :
  qw_trace finished = [EDelete 0 "claim-a"; EInitialized "claim-r"; ECreate "claim-r"; ESetCondition "claim-a"; ETaint "p1"]%string ∧
  ∃ cmd, heap (qw_queue finished) !! 0%nat = Some cmd ∧ "claim-a"%string ∈ qc_NodeClaim <$> qcmd_Candidates cmd.
Proof.
  split; [vm_compute; reflexivity|].
  destruct (deletes_after_replacements (Q := Z) occupied finished [] [] 0 "claim-a" [EInitialized "claim-r"; ECreate "claim-r"; ESetCondition "claim-a"; ETaint "p1"]%string
    occupied_reached finished_reached) as (cmd & Hcmd & Hin & _); [vm_compute; reflexivity|].
  exists cmd. split; [exact Hcmd|exact Hin].
Defined.

Definition started : QCommand := mkQCommand [mkQCandidate "p1" "claim-a" "pool" false] [mkQReplacement "claim-r" false] 10 false.

Lemma node_in_one_command_witness : "p1"%string ∈ providerIDs (qcmd_Candidates started) ∧ HasAny (qw_queue busy) ["p1"%string] = true.
Proof.
  destruct (node_in_one_command (Q := Z) occupied busy [] "p1" 0 started occupied_reached busy_reached) as (Hin & Hall & _).
  - vm_compute. reflexivity.
  - vm_compute. reflexivity.
  - split; [exact Hin|]. apply (Hall "p1"%string Hin).
Defined.

Lemma commands_end_witness :
  (∃ w', Reconcile busy "claim-a" (λ _, ReadClaim false) (λ _, false) (λ _, false) (λ _, false) (11 * Minute) = Some (w', false) ∧
    ProviderIDToCommand (qw_queue w') !! "p1"%string = None ∧ markedForDeletion <$> nodes (qw_cluster w') !! "p1"%string ≠ Some true) ∧
  ∃ w', Reconcile busy "claim-a" (λ _, ReadClaim false) (λ _, false) (λ _, false) (λ _, false) (9 * Minute) = Some (w', true) ∧
    ProviderIDToCommand (qw_queue w') !! "p1"%string = Some 0%nat.
Proof.
  assert (∀ deleted, unfinished started (λ _, ReadClaim false) deleted) as Hun by (intros deleted; left; exists (mkQReplacement "claim-r" false); split; [left|done]).
  split.
  - destruct (commands_end (Q := Z) occupied busy [] "claim-a" (λ _, ReadClaim false) (λ _, false) (λ _, false) (λ _, false) (11 * Minute) 0 started
      occupied_reached busy_reached) as [(w' & Hrun & Hgone & Hmark) _]; [vm_compute; reflexivity|vm_compute; reflexivity|left; vm_compute; reflexivity|].
    assert ("p1"%string ∈ providerIDs (qcmd_Candidates started)) as Hin by (vm_compute; left).
    exists w'. split_and!; [exact Hrun|by apply Hgone|]. destruct (nodes (qw_cluster w') !! "p1"%string) as [n|] eqn:Hn; [|discriminate].
    cbn. by rewrite (Hmark eq_refl (Hun _) "p1"%string n Hin Hn).
  - destruct (commands_end (Q := Z) occupied busy [] "claim-a" (λ _, ReadClaim false) (λ _, false) (λ _, false) (λ _, false) (9 * Minute) 0 started
      occupied_reached busy_reached) as [_ Hkeep]; [vm_compute; reflexivity|].
    destruct Hkeep as (w' & Hrun & Hsame & _); [vm_compute; discriminate|left; vm_compute; discriminate|apply Hun|intros r _ (_ & Hread & _); discriminate|].
    exists w'. split; [exact Hrun|]. rewrite Hsame. vm_compute. reflexivity.
Defined.

(** A command whose last candidate is deleted after the time ran out counts as
    failed: its NodeClaims are deleted, and its nodes are untainted and no longer
    marked for deletion. *)
Lemma late_success_fails :
  match Reconcile busy "claim-a" (λ _, ReadClaim true) (λ _, true) (λ _, true) (λ _, true) (2 * Hour) with
  | Some (w, _) =>
      qw_trace w = [EClearCondition "claim-a"; EUntaint "p1"; EDelete 0 "claim-a"; EInitialized "claim-r";
                    ECreate "claim-r"; ESetCondition "claim-a"; ETaint "p1"]%string ∧
      markedForDeletion <$> nodes (qw_cluster w) !! "p1"%string = Some false ∧
      qcmd_Succeeded <$> heap (qw_queue w) !! 0%nat = Some false
  | None => False
  end.
Proof. vm_compute. auto. Qed.
End witnesses.
