(* ===== verification/NegativeCache.v ===== *)
(** * The cache of negative results

    Model of [pkg/controllers/disruption/negativeresultcache.go]: the cache that
    remembers across passes which candidates could not be consolidated, and the
    fingerprints by which a pass recognises a candidate whose inputs did not
    change.  The reads of a pass (the managed NodePools and the provider of
    instance type revisions) are arguments. *)

From Stdlib Require Import Ascii.
From S2P Require Import Prelude Strconv Kube Consolidation.

(** ** The cache *)

Record negativeEntry := mkNegativeEntry {
  ne_fingerprint : string;
  expiresAt : Z;
}.

#[export] Instance negativeEntry_eq_dec : EqDecision negativeEntry.
Proof. solve_decision. Defined.

(** provider ID -> entry *)
Definition NegativeResultCache : Type := gmap string negativeEntry.

Section cache.
Implicit Types (cache : NegativeResultCache) (providerID fingerprint : string) (now ttl : Z).

Definition NewNegativeResultCache : NegativeResultCache := ∅.

Definition ShouldSkip cache now providerID fingerprint : NegativeResultCache * bool :=
  match cache !! providerID with
  | None => (cache, false)
  | Some entry =>
      if expiresAt entry <? now then (delete providerID cache, false)
      else if negb (String.eqb (ne_fingerprint entry) fingerprint) then (delete providerID cache, false)
      else (cache, true)
  end.

(** The clock is read once to look at the entry and once to write it. *)
Definition StoreNegative cache now (later : Z) providerID fingerprint ttl : NegativeResultCache :=
  if ttl <=? 0 then cache
  else
    let store := <[providerID := mkNegativeEntry fingerprint (later + ttl)]> cache in
    match cache !! providerID with
    | Some existing => if String.eqb (ne_fingerprint existing) fingerprint && (now <? expiresAt existing) then cache else store
    | None => store
    end.

Definition Clear cache : NegativeResultCache := ∅.

Definition DropExpired cache now : NegativeResultCache := filter (λ e, ¬ (expiresAt e.2 < now)) cache.
End cache.

(** ** Fingerprints *)

(** What a fingerprint reads of a NodePool. *)
Record PoolVersion := mkPoolVersion {
  pv_Name : string;
  pv_UID : string;
  pv_Generation : Z;
  pv_Ready : bool;
  pv_Annotations : gmap string string;
}.

(** What a fingerprint reads of a candidate: the resource versions of its Node and
    NodeClaim, its NodePool, the UIDs and resource versions of its reschedulable
    pods. *)
Record CandidateVersions := mkCandidateVersions {
  cv_Node : option string;
  cv_NodeClaim : option string;
  cv_NodePool : option PoolVersion;
  cv_Pods : list (string * string);
}.

Record negativeCacheFingerprints := mkFingerprints {
  revisions : gmap string Z;
  fleet : option string;
}.

Section fingerprints.
(** The reads of the pass: a provider of revisions, if the cloud provider is one,
    whose calls may fail, and the managed NodePools, if they can be listed. *)
Context {GS : GoSort} (revisionProvider : option (PoolVersion → option Z)) (ListManaged : option (list PoolVersion)).
Implicit Types (f : negativeCacheFingerprints) (np : PoolVersion) (cv : CandidateVersions).

Definition newNegativeCacheFingerprints : negativeCacheFingerprints := mkFingerprints ∅ None.

Definition nonzero (revision : Z) : option Z := if revision =? 0 then None else Some revision.

(** The revision, [None] when it is not ok. *)
Definition instanceTypeRevision f np : negativeCacheFingerprints * option Z :=
  match revisionProvider with
  | None => (f, None)
  | Some provider =>
      match revisions f !! pv_Name np with
      | Some revision => (f, nonzero revision)
      | None =>
          let revision := default 0 (provider np) in
          (mkFingerprints (<[pv_Name np := revision]> (revisions f)) (fleet f), nonzero revision)
      end
  end.

Definition part np (revision : Z) : string :=
  pv_Name np +:+ ":" +:+ pv_UID np +:+ ":" +:+ FormatInt (pv_Generation np) +:+ ":" +:+ FormatInt revision.

(** The parts of the ready pools, [None] when one has no revision. *)
Fixpoint fleetParts f (nodePools : list PoolVersion) : negativeCacheFingerprints * option (list string) :=
  match nodePools with
  | [] => (f, Some [])
  | np :: nodePools =>
      if pv_Ready np then
        match instanceTypeRevision f np with
        | (f, None) => (f, None)
        | (f, Some revision) => let '(f, parts) := fleetParts f nodePools in (f, cons (part np revision) <$> parts)
        end
      else fleetParts f nodePools
  end.

Definition sortStrings (l : list string) : list string := gosort String.ltb l.

Definition fleetOf (parts : list string) : string := "{" +:+ String.concat ";" (sortStrings parts) +:+ "}".

Definition setFleet f (x : string) : negativeCacheFingerprints := mkFingerprints (revisions f) (Some x).

(** The fleet component, [None] when it is not ok. *)
Definition fleetComponent f : negativeCacheFingerprints * option string :=
  match fleet f with
  | Some x => (f, if String.eqb x "" then None else Some x)
  | None =>
      match ListManaged with
      | None => (setFleet f "", None)
      | Some nodePools =>
          match fleetParts f nodePools with
          | (f, None) => (setFleet f "", None)
          | (f, Some parts) => (setFleet f (fleetOf parts), Some (fleetOf parts))
          end
      end
  end.

Definition podUID (pod : string * string) : string := pod.1 +:+ ":" +:+ pod.2.

Definition annotation np (key : string) : string := default ""%string (pv_Annotations np !! key).

Definition renderFingerprint (node nodeClaim : string) np (revision : Z) (pods : list (string * string)) (fleet : string) : string :=
  node +:+ "|" +:+ nodeClaim +:+ "|" +:+ (pv_UID np +:+ ":" +:+ FormatInt (pv_Generation np)) +:+ "|" +:+ FormatInt revision
  +:+ "|" +:+ String.concat "," (sortStrings (podUID <$> pods))
  +:+ "|" +:+ annotation np NodePoolSpotToSpotMinNodeAgeAnnotationKey
  +:+ "|" +:+ annotation np NodePoolSpotToSpotMinSavingsAnnotationKey
  +:+ "|" +:+ fleet.

(** The fingerprint, empty when an input has no version. *)
Definition fingerprint f cv : negativeCacheFingerprints * string :=
  match cv_Node cv, cv_NodeClaim cv, cv_NodePool cv with
  | Some node, Some nodeClaim, Some np =>
      match instanceTypeRevision f np with
      | (f, None) => (f, ""%string)
      | (f, Some revision) =>
          match fleetComponent f with
          | (f, None) => (f, ""%string)
          | (f, Some fleet) =>
              if existsb (λ pod, String.eqb pod.1 "" || String.eqb pod.2 "") (cv_Pods cv) then (f, ""%string)
              else (f, renderFingerprint node nodeClaim np revision (cv_Pods cv) fleet)
          end
      end
  | _, _, _ => (f, ""%string)
  end.

(** The fingerprints after those of these candidates in one pass. *)
Definition fingerprintsAfter (cvs : list CandidateVersions) : negativeCacheFingerprints :=
  foldl (λ f cv, (fingerprint f cv).1) newNegativeCacheFingerprints cvs.
End fingerprints.

(** * Theory *)

(** ** What the cache serves *)

Inductive CacheEvent :=
  | LookedUp (now : Z) (providerID fingerprint : string)
  | Stored (now later : Z) (providerID fingerprint : string) (ttl : Z)
  | Cleared
  | Swept (now : Z).

Definition applyCache (cache : NegativeResultCache) (e : CacheEvent) : NegativeResultCache :=
  match e with
  | LookedUp now id fp => (ShouldSkip cache now id fp).1
  | Stored now later id fp ttl => StoreNegative cache now later id fp ttl
  | Cleared => Clear cache
  | Swept now => DropExpired cache now
  end.

Definition cacheAfter (es : list CacheEvent) : NegativeResultCache := foldl applyCache NewNegativeResultCache es.

(** The event drops or overwrites a verdict with this fingerprint. *)
Definition supersedes (id fp : string) (e : CacheEvent) : Prop :=
  match e with
  | LookedUp _ id' fp' => id' = id ∧ fp' ≠ fp
  | Stored _ _ id' fp' ttl => id' = id ∧ fp' ≠ fp ∧ 0 < ttl
  | Cleared => True
  | Swept _ => False
  end.

(** The verdict was stored at [later] and nothing superseded it since. *)
Definition stands (es : list CacheEvent) (id fp : string) (expires : Z) : Prop :=
  ∃ es1 now later ttl es2, es = es1 ++ Stored now later id fp ttl :: es2 ∧ 0 < ttl ∧ expires = later + ttl ∧
    Forall (λ e, ¬ supersedes id fp e) es2.

Lemma stands_snoc es id fp expires e : stands es id fp expires → ¬ supersedes id fp e → stands (es ++ [e]) id fp expires.
Proof.
  intros (es1 & now & later & ttl & es2 & -> & Ht & Hx & Hs) He. exists es1, now, later, ttl, (es2 ++ [e]).
  rewrite <- app_assoc. split_and!; [done|done|done|]. by apply Forall_app_2, Forall_singleton.
Qed.

Lemma ShouldSkip_lookup cache now id fp id' entry :
  (ShouldSkip cache now id fp).1 !! id' = Some entry →
  cache !! id' = Some entry ∧ (id' = id → ne_fingerprint entry = fp ∧ now <= expiresAt entry).
Proof.
  unfold ShouldSkip. destruct (cache !! id) as [x|] eqn:Hid; [|cbn [fst]; intros Hl; split; [done|]; intros ->; congruence].
  destruct (expiresAt x <? now) eqn:Hx; cbn [fst]; [intros [? ?]%lookup_delete_Some; split; [done|by intros ->]|].
  destruct (String.eqb_spec (ne_fingerprint x) fp) as [Hf|Hf]; cbn [negb fst].
  - intros Hl. split; [done|]. intros ->. rewrite Hid in Hl. injection Hl as <-. destruct_bools. split; [done|lia].
  - intros [? ?]%lookup_delete_Some. split; [done|by intros ->].
Qed.

Lemma StoreNegative_lookup cache now later id fp ttl id' entry :
  StoreNegative cache now later id fp ttl !! id' = Some entry →
  cache !! id' = Some entry ∧ (id' = id → 0 < ttl → ne_fingerprint entry = fp) ∨
  id' = id ∧ 0 < ttl ∧ entry = mkNegativeEntry fp (later + ttl).
Proof.
  unfold StoreNegative. destruct (ttl <=? 0) eqn:Ht; destruct_bools; [intros Hl; left; split; [done|lia]|].
  assert (∀ x, <[id := mkNegativeEntry fp (later + ttl)]> cache !! id' = Some x →
    cache !! id' = Some x ∧ id' ≠ id ∨ id' = id ∧ x = mkNegativeEntry fp (later + ttl)) as Hins.
  { intros x [[<- <-]|[? ?]]%lookup_insert_Some; [by right|left; by split]. }
  destruct (cache !! id) as [existing|] eqn:Hid.
  - destruct (String.eqb_spec (ne_fingerprint existing) fp) as [Hf|Hf]; cbn [andb].
    + destruct (now <? expiresAt existing); [|intros [[? ?]|[? ?]]%Hins; [left|right]; done].
      intros Hl. left. split; [done|]. intros -> _. congruence.
    + intros [[? ?]|[? ?]]%Hins; [left|right]; done.
  - intros [[? ?]|[? ?]]%Hins; [left|right]; done.
Qed.

Lemma nothing_cached id (entry : negativeEntry) : (∅ : gmap string negativeEntry) !! id = Some entry → False.
Proof. by rewrite lookup_empty. Qed.

Lemma cacheAfter_stands es id entry : cacheAfter es !! id = Some entry → stands es id (ne_fingerprint entry) (expiresAt entry).
Proof.
  revert id entry. induction es as [|e es IH] using rev_ind; intros id entry; [by intros ?%nothing_cached|].
  unfold cacheAfter. rewrite foldl_app. cbn [foldl]. fold (cacheAfter es). destruct e as [now id' fp|now later id' fp ttl| |now]; cbn [applyCache].
  - intros [Hl Hsame]%ShouldSkip_lookup. apply stands_snoc; [by apply IH|]. intros [-> Hne]. by destruct (Hsame eq_refl).
  - intros [[Hl Hsame]|(-> & Ht & ->)]%StoreNegative_lookup.
    + apply stands_snoc; [by apply IH|]. intros (-> & Hne & Ht). by specialize (Hsame eq_refl Ht).
    + exists es, now, later, ttl, []. done.
  - by intros ?%nothing_cached.
  - unfold DropExpired. intros [Hl _]%map_lookup_filter_Some. apply stands_snoc; [by apply IH|]. by intros [].
Qed.

(** A verdict is served only while it stands.  Whatever lookups, stores,
    clears and sweeps came before, a candidate is skipped only when a negative
    result with its very fingerprint was stored for it no longer than its time
    to live ago, and since then the cache was not cleared and the candidate was
    neither looked up nor stored with another fingerprint. *)
Theorem skip_stands es now id fp (Hskip : (ShouldSkip (cacheAfter es) now id fp).2 = true) :
  ∃ expires, stands es id fp expires ∧ now <= expires.
Proof.
  unfold ShouldSkip in Hskip. destruct (cacheAfter es !! id) as [entry|] eqn:Hl; [|done].
  destruct (expiresAt entry <? now) eqn:Hx; [done|]. destruct (String.eqb_spec (ne_fingerprint entry) fp) as [<-|]; [|done].
  destruct_bools. exists (expiresAt entry). split; [by apply cacheAfter_stands|lia].
Qed.

(** ** Strings joined with separators *)

Definition lacks (sep : ascii) (s : string) : Prop := sep ∉ String.list_ascii_of_string s.

#[export] Instance lacks_dec sep s : base.Decision (lacks sep s).
Proof. unfold lacks. solve_decision. Defined.

Lemma list_ascii_app s t : String.list_ascii_of_string (s +:+ t) = String.list_ascii_of_string s ++ String.list_ascii_of_string t.
Proof. induction s as [|a s IH]; [done|]. cbn. by rewrite <- IH. Qed.

Lemma lacks_app sep s t : lacks sep (s +:+ t) ↔ lacks sep s ∧ lacks sep t.
Proof. unfold lacks. rewrite list_ascii_app, not_elem_of_app. done. Qed.

Lemma lacks_cons sep a s : lacks sep (String a s) ↔ sep ≠ a ∧ lacks sep s.
Proof. unfold lacks. cbn. by rewrite not_elem_of_cons. Qed.

Lemma lacks_nil sep : lacks sep "".
Proof. apply not_elem_of_nil. Qed.

(** What stands before the first separator and after it is determined. *)
Lemma split_sep sep a b a' b' :
  lacks sep a → lacks sep a' → a +:+ String sep b = a' +:+ String sep b' → a = a' ∧ b = b'.
Proof.
  revert a'. induction a as [|x a IH]; intros [|x' a']; cbn; intros Ha Ha' Heq.
  - by injection Heq as ->.
  - injection Heq as -> _. apply lacks_cons in Ha'. by destruct Ha'.
  - injection Heq as -> _. apply lacks_cons in Ha. by destruct Ha.
  - injection Heq as -> Heq. apply lacks_cons in Ha as [_ Ha]. apply lacks_cons in Ha' as [_ Ha']. destruct (IH a' Ha Ha' Heq) as [-> ->]. done.
Qed.

Lemma concat_cons2 sep x y l : String.concat sep (x :: y :: l) = x +:+ sep +:+ String.concat sep (y :: l).
Proof. done. Qed.

Lemma concat_inj sep (l l' : list string) :
  Forall (λ s, s ≠ ""%string ∧ lacks sep s) l → Forall (λ s, s ≠ ""%string ∧ lacks sep s) l' →
  String.concat (String sep "") l = String.concat (String sep "") l' → l = l'.
Proof.
  intros Hl. revert l'. induction Hl as [|x l [Hx Hlx] Hl IH]; intros l' Hl' Heq.
  { destruct Hl' as [|x' [|y' l'] [Hx' _] _]; [done|by cbn in Heq|]. rewrite concat_cons2 in Heq. cbn in Heq. by destruct x'. }
  destruct Hl' as [|x' l' [Hx' Hlx'] Hl'].
  { destruct l as [|y l]; [by cbn in Heq|]. rewrite concat_cons2 in Heq. cbn in Heq. by destruct x. }
  destruct l as [|y l], l' as [|y' l']; rewrite ?concat_cons2 in Heq; cbn [String.concat] in Heq.
  - by subst.
  - subst x. apply lacks_app in Hlx as [_ Hlx]. cbn in Hlx. apply lacks_cons in Hlx. by destruct Hlx.
  - subst x'. apply lacks_app in Hlx' as [_ Hlx']. cbn in Hlx'. apply lacks_cons in Hlx'. by destruct Hlx'.
  - apply split_sep in Heq as [-> Heq]; [|done|done]. by rewrite (IH (y' :: l')).
Qed.

Lemma lacks_concat sep sep' (l : list string) :
  sep ≠ sep' → Forall (lacks sep) l → lacks sep (String.concat (String sep' "") l).
Proof.
  intros Hne. induction 1 as [|x l Hx Hl IH]; [apply lacks_nil|]. destruct l as [|y l]; [done|].
  rewrite concat_cons2. apply lacks_app. split; [done|]. cbn. by apply lacks_cons.
Qed.

(** Numbers are written with digits and a sign. *)
Lemma format_digits_chars fuel n acc sep :
  0 <= n → digit sep = None → lacks sep acc → lacks sep (format_digits fuel n acc).
Proof.
  intros Hn Hs. revert n acc Hn. induction fuel as [|fuel IH]; intros n acc Hn Hacc; [done|]. cbn [format_digits].
  assert (lacks sep (String (digit_char (n mod 10)) acc)) as Hc.
  { apply lacks_cons. split; [|done]. intros ->. rewrite digit_digit_char in Hs; [done|]. pose proof (Z.mod_pos_bound n 10). lia. }
  destruct (n <? 10); [done|]. apply IH; [|done]. apply Z.div_pos; lia.
Qed.

Lemma FormatInt_lacks n sep : digit sep = None → sep ≠ "-"%char → lacks sep (FormatInt n).
Proof.
  intros Hs Hm. unfold FormatInt. destruct (n <? 0) eqn:Hneg; destruct_bools.
  - apply lacks_cons. split; [done|]. apply format_digits_chars; [lia|done|apply lacks_nil].
  - apply format_digits_chars; [lia|done|apply lacks_nil].
Qed.

Definition printable (n : Z) : Prop := MinInt64 <= n <= MaxUint64.

Lemma FormatInt_nonneg n : 0 <= n <= MaxUint64 → parse_digits 0 (FormatInt n) = (n, None) ∧ ∃ c t, FormatInt n = String c t ∧ digit c ≠ None.
Proof.
  intros Hn. unfold FormatInt. destruct (n <? 0) eqn:Hneg; destruct_bools; [lia|].
  destruct (parse_magnitude 0 n Hn) as [Hp Hc]. split; [|exact Hc]. destruct Hc as (c & t & Hc & _). cbn [zeros] in *.
  rewrite Hc in Hp |- *. exact Hp.
Qed.

Lemma FormatInt_neg n : MinInt64 <= n < 0 → FormatInt n = String "-" (FormatInt (- n)) ∧ 0 <= - n <= MaxUint64.
Proof.
  intros Hn. unfold FormatInt. destruct (n <? 0) eqn:Hneg; destruct_bools; [|lia]. destruct (- n <? 0) eqn:Hp; destruct_bools; [lia|].
  split; [done|int_lia].
Qed.

Lemma FormatInt_inj n m : printable n → printable m → FormatInt n = FormatInt m → n = m.
Proof.
  unfold printable. intros Hn Hm Heq.
  assert (∀ a b, 0 <= a <= MaxUint64 → 0 <= b <= MaxUint64 → FormatInt a = FormatInt b → a = b) as Hpos.
  { intros a b Ha Hb Hab. destruct (FormatInt_nonneg a Ha) as [Hpa _]. destruct (FormatInt_nonneg b Hb) as [Hpb _]. congruence. }
  assert (∀ a b, MinInt64 <= a < 0 → 0 <= b <= MaxUint64 → FormatInt a ≠ FormatInt b) as Hmix.
  { intros a b Ha Hb Hab. destruct (FormatInt_neg a Ha) as [Hs _]. destruct (FormatInt_nonneg b Hb) as [_ (c & t & Hc & Hd)].
    rewrite Hs, Hc in Hab. injection Hab as <- _. by apply Hd. }
  destruct (decide (n < 0)) as [Hn0|Hn0], (decide (m < 0)) as [Hm0|Hm0].
  - destruct (FormatInt_neg n) as [Hsn Hrn]; [lia|]. destruct (FormatInt_neg m) as [Hsm Hrm]; [lia|]. rewrite Hsn, Hsm in Heq.
    injection Heq as Heq. specialize (Hpos _ _ Hrn Hrm Heq). lia.
  - exfalso. apply (Hmix n m); [lia|lia|done].
  - exfalso. apply (Hmix m n); [lia|lia|done].
  - apply Hpos; [lia|lia|done].
Qed.

(** ** What a fingerprint tells *)

Lemma fmap_perm_inj {A B} (P : A → Prop) (f : A → B) (l l' : list A) :
  (∀ x y, P x → P y → f x = f y → x = y) → Forall P l → Forall P l' → f <$> l ≡ₚ f <$> l' → l ≡ₚ l'.
Proof.
  intros Hinj Hl Hl' Hp. destruct (Permutation_map_inv f l' Hp) as (l3 & Heq & Hp3). rewrite Hp3.
  assert (Forall P l3) as Hl3 by (by rewrite <- Hp3). clear Hp Hp3 Hl' l'. revert l3 Heq Hl3.
  induction Hl as [|x l Hx Hl IH]; intros [|y l3] Heq Hl3; [done|done|done|]. cbn in Heq. injection Heq as Hf Heq.
  apply Forall_cons in Hl3 as [Hy Hl3]. by rewrite (Hinj x y Hx Hy Hf), (IH l3 Heq Hl3).
Qed.

Definition plain (s : string) : Prop := lacks "|" s ∧ lacks ":" s ∧ lacks "," s ∧ lacks ";" s.

#[export] Instance plain_dec s : base.Decision (plain s).
Proof. unfold plain. solve_decision. Defined.

(** The identifiers and versions Kubernetes assigns have none of the separators;
    the two annotations are free but for the bar. *)
Record clean_pool (np : PoolVersion) : Prop := {
  cl_name : plain (pv_Name np);
  cl_uid : plain (pv_UID np);
  cl_generation : in_int64 (pv_Generation np);
  cl_age : lacks "|" (annotation np NodePoolSpotToSpotMinNodeAgeAnnotationKey);
  cl_savings : lacks "|" (annotation np NodePoolSpotToSpotMinSavingsAnnotationKey);
}.

Record clean_candidate (cv : CandidateVersions) : Prop := {
  cl_node : ∀ node, cv_Node cv = Some node → plain node;
  cl_claim : ∀ claim, cv_NodeClaim cv = Some claim → plain claim;
  cl_pool : ∀ np, cv_NodePool cv = Some np → clean_pool np;
  cl_pods : Forall (λ pod, plain pod.1 ∧ plain pod.2) (cv_Pods cv);
}.

(** What the fleet component tells of a ready pool. *)
Definition poolVersions (f : negativeCacheFingerprints) (nodePools : list PoolVersion) : list (string * string * Z * option Z) :=
  (λ np, (pv_Name np, pv_UID np, pv_Generation np, revisions f !! pv_Name np)) <$> List.filter pv_Ready nodePools.

Record pass_reads (revisionProvider : option (PoolVersion → option Z)) (ListManaged : option (list PoolVersion)) : Prop := {
  pr_revisions : ∀ provider np rev, revisionProvider = Some provider → provider np = Some rev → 0 <= rev <= MaxUint64;
  pr_pools : ∀ nodePools, ListManaged = Some nodePools → Forall clean_pool nodePools;
}.

Section pass.
Context {GS : GoSort} (revisionProvider : option (PoolVersion → option Z)) (ListManaged : option (list PoolVersion))
  (Hprovider : ∀ provider np rev, revisionProvider = Some provider → provider np = Some rev → 0 <= rev <= MaxUint64).
Implicit Types (f : negativeCacheFingerprints) (np : PoolVersion) (cv : CandidateVersions).
#[local] Abbreviation instanceTypeRevision := (instanceTypeRevision revisionProvider).
#[local] Abbreviation fleetParts := (fleetParts revisionProvider).
#[local] Abbreviation fleetComponent := (fleetComponent revisionProvider ListManaged).
#[local] Abbreviation fingerprint := (fingerprint revisionProvider ListManaged).

(** The pools that were ready, with the revisions remembered. *)
Definition recorded f (nodePools : list PoolVersion) (l : list (PoolVersion * Z)) : Prop :=
  l.*1 = List.filter pv_Ready nodePools ∧ Forall (λ x, revisions f !! pv_Name x.1 = Some x.2 ∧ x.2 ≠ 0) l.

Definition describes f (x : string) : Prop :=
  ∃ nodePools l, ListManaged = Some nodePools ∧ recorded f nodePools l ∧ x = fleetOf (uncurry part <$> l).

Record fp_ok f : Prop := {
  fo_revisions : ∀ name rev, revisions f !! name = Some rev → 0 <= rev <= MaxUint64;
  fo_fleet : ∀ x, fleet f = Some x → x ≠ ""%string → describes f x;
}.

Lemma recorded_mono f f' nodePools l : revisions f ⊆ revisions f' → recorded f nodePools l → recorded f' nodePools l.
Proof. intros Hsub [Hl Hf]. split; [done|]. eapply Forall_impl; [exact Hf|]. intros [np rev] [Hr Hz]. split; [by eapply lookup_weaken|done]. Qed.

Lemma describes_mono f f' x : revisions f ⊆ revisions f' → describes f x → describes f' x.
Proof. intros Hsub (ps & l & Hp & Hr & ->). exists ps, l. split_and!; [done|by eapply recorded_mono|done]. Qed.

Lemma nonzero_Some r rev : nonzero r = Some rev → rev = r ∧ r ≠ 0.
Proof. unfold nonzero. destruct (r =? 0) eqn:Hz; destruct_bools; [done|]. by intros [= <-]. Qed.

Lemma instanceTypeRevision_ok f np :
  fp_ok f →
  fp_ok (instanceTypeRevision f np).1 ∧ revisions f ⊆ revisions (instanceTypeRevision f np).1 ∧ fleet (instanceTypeRevision f np).1 = fleet f ∧
  ∀ rev, (instanceTypeRevision f np).2 = Some rev → revisions (instanceTypeRevision f np).1 !! pv_Name np = Some rev ∧ rev ≠ 0.
Proof.
  intros Hf. unfold NegativeCache.instanceTypeRevision. destruct revisionProvider as [provider|] eqn:Hprov; [|done].
  destruct (revisions f !! pv_Name np) as [r|] eqn:Hr; cbn [fst snd].
  { split_and!; [done|done|done|]. by intros rev [-> ?]%nonzero_Some. }
  assert (revisions f ⊆ <[pv_Name np := default 0 (provider np)]> (revisions f)) as Hsub by by apply insert_subseteq.
  cbn [revisions fleet]. split_and!; [|done|done|].
  - destruct Hf as [Hrev Hfleet]. split; cbn [revisions fleet].
    + intros name rev [[_ <-]|[_ Hl]]%lookup_insert_Some; [|by eapply Hrev]. destruct (provider np) as [r|] eqn:Hp; cbn; [|int_lia].
      by eapply Hprovider.
    + intros x Hx Hne. eapply describes_mono; [exact Hsub|]. by apply Hfleet.
  - intros rev [-> ?]%nonzero_Some. by rewrite lookup_insert_eq.
Qed.

Lemma fleetParts_ok f nodePools :
  fp_ok f →
  fp_ok (fleetParts f nodePools).1 ∧ revisions f ⊆ revisions (fleetParts f nodePools).1 ∧
  ∀ parts, (fleetParts f nodePools).2 = Some parts →
    ∃ l, recorded (fleetParts f nodePools).1 nodePools l ∧ parts = uncurry part <$> l.
Proof.
  revert f. induction nodePools as [|np nodePools IH]; intros f Hf; cbn [NegativeCache.fleetParts].
  { split_and!; [done|done|]. intros parts [= <-]. exists []. split; [by split|done]. }
  destruct (pv_Ready np) eqn:Hready.
  2:{ destruct (IH f Hf) as (Hok & Hsub & Hparts). split_and!; [done|done|]. intros parts Hp. destruct (Hparts parts Hp) as (l & [Hl Hrec] & ->).
      exists l. split; [|done]. split; [|done]. rewrite Hl. cbn [List.filter]. by rewrite Hready. }
  destruct (instanceTypeRevision_ok f np Hf) as (Hok & Hsub & _ & Hrev).
  destruct (NegativeCache.instanceTypeRevision revisionProvider f np) as [f1 [rev|]]; cbn [fst snd] in *; [|done].
  destruct (Hrev rev eq_refl) as [Hname Hz]. destruct (IH f1 Hok) as (Hok' & Hsub' & Hparts).
  destruct (NegativeCache.fleetParts revisionProvider f1 nodePools) as [f2 parts']; cbn [fst snd] in *.
  split_and!; [done|by etransitivity|]. intros parts Hp. destruct parts' as [ps|]; [|done]. cbn in Hp. injection Hp as <-.
  destruct (Hparts ps eq_refl) as (l & [Hl Hrec] & ->). exists ((np, rev) :: l). split; [|done]. split.
  - rewrite fmap_cons, Hl. cbn [List.filter fst]. by rewrite Hready.
  - constructor; [|done]. split; [by eapply lookup_weaken|done].
Qed.

Lemma setFleet_ok f x : fp_ok f → (x ≠ ""%string → describes f x) → fp_ok (setFleet f x).
Proof. intros [Hrev _] Hx. split; [done|]. cbn. intros y [= <-]. exact Hx. Qed.

Lemma fleetComponent_ok f :
  fp_ok f →
  fp_ok (fleetComponent f).1 ∧ revisions f ⊆ revisions (fleetComponent f).1 ∧
  ∀ x, (fleetComponent f).2 = Some x → describes (fleetComponent f).1 x.
Proof.
  intros Hf. unfold NegativeCache.fleetComponent. destruct (fleet f) as [x|] eqn:Hx.
  { cbn [fst snd]. split_and!; [done|done|]. destruct (String.eqb_spec x "") as [|Hne]; [done|]. intros y [= <-]. by apply (fo_fleet f Hf). }
  destruct ListManaged as [nodePools|] eqn:Hlist; [|by split_and!; [apply setFleet_ok|..]].
  destruct (fleetParts_ok f nodePools Hf) as (Hok & Hsub & Hparts).
  destruct (NegativeCache.fleetParts revisionProvider f nodePools) as [f1 [parts|]]; cbn [fst snd] in *; [|by split_and!; [apply setFleet_ok|..]].
  destruct (Hparts parts eq_refl) as (l & Hrec & ->).
  assert (describes f1 (fleetOf (uncurry part <$> l))) as Hd by (by exists nodePools, l).
  split_and!; [by apply setFleet_ok|done|]. intros y [= <-]. exact Hd.
Qed.

Lemma fingerprint_ok f cv :
  fp_ok f →
  fp_ok (fingerprint f cv).1 ∧
  ((fingerprint f cv).2 ≠ ""%string → ∃ node claim np rev fleet,
     cv_Node cv = Some node ∧ cv_NodeClaim cv = Some claim ∧ cv_NodePool cv = Some np ∧
     (fingerprint f cv).2 = renderFingerprint node claim np rev (cv_Pods cv) fleet ∧
     revisions (fingerprint f cv).1 !! pv_Name np = Some rev ∧ rev ≠ 0 ∧ describes (fingerprint f cv).1 fleet).
Proof.
  intros Hf. unfold NegativeCache.fingerprint.
  destruct (cv_Node cv) as [node|]; [|done]. destruct (cv_NodeClaim cv) as [claim|]; [|done]. destruct (cv_NodePool cv) as [np|]; [|done].
  destruct (instanceTypeRevision_ok f np Hf) as (Hok & Hsub & _ & Hrev).
  destruct (NegativeCache.instanceTypeRevision revisionProvider f np) as [f1 [rev|]]; cbn [fst snd] in *; [|done].
  destruct (Hrev rev eq_refl) as [Hname Hz]. destruct (fleetComponent_ok f1 Hok) as (Hok' & Hsub' & Hfleet).
  destruct (NegativeCache.fleetComponent revisionProvider ListManaged f1) as [f2 [x|]]; cbn [fst snd] in *; [|done].
  destruct (existsb _ _); cbn [fst snd]; [done|]. split; [done|]. intros _. exists node, claim, np, rev, x.
  split_and!; [done..| |done|by apply Hfleet]. by eapply lookup_weaken.
Qed.

Lemma fingerprintsAfter_ok cvs : fp_ok (fingerprintsAfter revisionProvider ListManaged cvs).
Proof.
  unfold fingerprintsAfter. assert (fp_ok newNegativeCacheFingerprints) as Hf by (split; [intros name rev Hl; cbn in Hl; by rewrite lookup_empty in Hl|done]).
  revert Hf. generalize newNegativeCacheFingerprints as f. induction cvs as [|cv cvs IH]; intros f Hf; [done|]. cbn [foldl].
  apply IH, fingerprint_ok, Hf.
Qed.
End pass.

Section exact.
Context {GS : GoSort}.
Implicit Types (np : PoolVersion) (cv : CandidateVersions).

Lemma app_char_inj c (x y : string) : x +:+ String c "" = y +:+ String c "" → x = y.
Proof.
  revert y. induction x as [|a x IH]; intros [|b y]; cbn; intros Heq; [done| | |].
  - injection Heq as _ Heq. by destruct y.
  - injection Heq as _ Heq. by destruct x.
  - injection Heq as -> Heq. by rewrite (IH y).
Qed.

Lemma FormatInt_plain n : plain (FormatInt n).
Proof. split_and!; by apply FormatInt_lacks. Qed.

Lemma lacks_joined sep x mid y : lacks sep x → sep ≠ mid → lacks sep y → lacks sep (x +:+ String mid y).
Proof. intros. apply lacks_app. split; [done|]. by apply lacks_cons. Qed.

Lemma joined_nonempty x mid y : x +:+ String mid y ≠ ""%string.
Proof. by destruct x. Qed.

Lemma part_inj np np' rev rev' :
  clean_pool np → clean_pool np' → printable rev → printable rev' → part np rev = part np' rev' →
  pv_Name np = pv_Name np' ∧ pv_UID np = pv_UID np' ∧ pv_Generation np = pv_Generation np' ∧ rev = rev'.
Proof.
  intros [Hn Hu Hg _ _] [Hn' Hu' Hg' _ _] Hr Hr' Heq. unfold part in Heq.
  apply split_sep in Heq as [Hname Heq]; [|apply Hn|apply Hn']. apply split_sep in Heq as [Huid Heq]; [|apply Hu|apply Hu'].
  apply split_sep in Heq as [Hgen Heq]; [|apply FormatInt_plain..].
  split_and!; [done|done| |by apply FormatInt_inj]. apply FormatInt_inj; [unfold printable; int_lia..|done].
Qed.

Lemma part_separable np rev : clean_pool np → part np rev ≠ ""%string ∧ lacks ";" (part np rev).
Proof.
  intros [Hn Hu _ _ _]. split; [apply joined_nonempty|]. unfold part.
  repeat (apply lacks_joined; [first [apply Hn|apply Hu|apply FormatInt_plain]|done|]). apply FormatInt_plain.
Qed.

Lemma podUID_inj (pod pod' : string * string) : plain pod.1 ∧ plain pod.2 → plain pod'.1 ∧ plain pod'.2 → podUID pod = podUID pod' → pod = pod'.
Proof. intros [H1 _] [H1' _] Heq. destruct pod, pod'. apply split_sep in Heq as [Hu Hv]; [|apply H1|apply H1']. cbn in *. congruence. Qed.

Lemma podUID_separable (pod : string * string) : plain pod.1 ∧ plain pod.2 → podUID pod ≠ ""%string ∧ lacks "," (podUID pod) ∧ lacks "|" (podUID pod).
Proof. intros [H1 H2]. split; [apply joined_nonempty|]. split; apply lacks_joined; first [apply H1|apply H2|done]. Qed.

(** Sorted and joined lists determine the lists up to their order. *)
Lemma sorted_joined sep (l l' : list string) :
  Forall (λ s, s ≠ ""%string ∧ lacks sep s) l → Forall (λ s, s ≠ ""%string ∧ lacks sep s) l' →
  String.concat (String sep "") (sortStrings l) = String.concat (String sep "") (sortStrings l') → l ≡ₚ l'.
Proof.
  intros Hl Hl' Heq. apply concat_inj in Heq.
  - unfold sortStrings in Heq. rewrite <- (gosort_perm String.ltb l), Heq. apply gosort_perm.
  - unfold sortStrings. by rewrite gosort_perm.
  - unfold sortStrings. by rewrite gosort_perm.
Qed.

Lemma fleet_perm (l l' : list (PoolVersion * Z)) :
  Forall (λ x, clean_pool x.1 ∧ printable x.2) l → Forall (λ x, clean_pool x.1 ∧ printable x.2) l' →
  fleetOf (uncurry part <$> l) = fleetOf (uncurry part <$> l') →
  (λ x, (pv_Name x.1, pv_UID x.1, pv_Generation x.1, Some x.2)) <$> l ≡ₚ (λ x, (pv_Name x.1, pv_UID x.1, pv_Generation x.1, Some x.2)) <$> l'.
Proof.
  intros Hl Hl' Heq. unfold fleetOf in Heq. injection Heq as Heq. apply app_char_inj in Heq.
  assert (∀ k : list (PoolVersion * Z), Forall (λ x, clean_pool x.1 ∧ printable x.2) k → Forall (λ s, s ≠ ""%string ∧ lacks ";" s) (uncurry part <$> k)) as Hsep.
  { intros k Hk. apply Forall_fmap. eapply Forall_impl; [exact Hk|]. intros [np rev] [Hc _]. by apply part_separable. }
  apply sorted_joined in Heq; [|by apply Hsep..].
  destruct (Permutation_map_inv _ l' Heq) as (l3 & Hmap & Hp3).
  assert (Forall (λ x, clean_pool x.1 ∧ printable x.2) l3) as Hl3 by by rewrite <- Hp3. rewrite Hp3. clear Heq Hp3 Hl' Hsep l'.
  revert l3 Hmap Hl3. induction Hl as [|[np rev] l [Hc Hr] Hl IH]; intros [|[np' rev'] l3] Hmap Hl3; [done|done|done|].
  apply Forall_cons in Hl3 as [[Hc' Hr'] Hl3]. cbn in Hmap, Hc, Hc', Hr, Hr'. injection Hmap as Hpart Hmap.
  destruct (part_inj np np' rev rev' Hc Hc' Hr Hr' Hpart) as (Hn & Hu & Hg & ->). rewrite !fmap_cons. cbn [fst snd]. rewrite Hn, Hu, Hg.
  apply Permutation_skip. by apply IH.
Qed.

Lemma recorded_versions f nodePools l :
  recorded f nodePools l → poolVersions f nodePools = (λ x, (pv_Name x.1, pv_UID x.1, pv_Generation x.1, Some x.2)) <$> l.
Proof.
  intros [Hl Hrec]. unfold poolVersions. rewrite <- Hl, <- list_fmap_compose. apply list_fmap_ext. intros i x Hi. cbn.
  eapply Forall_lookup_1 in Hrec as [Hr _]; [|exact Hi]. by rewrite Hr.
Qed.

Lemma recorded_clean f nodePools l :
  (∀ name rev, revisions f !! name = Some rev → 0 <= rev <= MaxUint64) → Forall clean_pool nodePools → recorded f nodePools l →
  Forall (λ x, clean_pool x.1 ∧ printable x.2) l.
Proof.
  intros Hrev Hclean [Hl Hrec]. apply Forall_forall. intros [np rev] Hin. split.
  - rewrite Forall_forall in Hclean. apply Hclean. apply (list_elem_of_fmap_2 fst) in Hin. rewrite Hl in Hin. cbn in Hin.
    rewrite list_elem_of_In, filter_In, <- list_elem_of_In in Hin. apply Hin.
  - rewrite Forall_forall in Hrec. apply Hrec in Hin as [Hr _]. apply Hrev in Hr. unfold printable. cbn in *. int_lia.
Qed.

Lemma render_inj node claim np rev pods x node' claim' np' rev' pods' x' :
  plain node → plain node' → plain claim → plain claim' → clean_pool np → clean_pool np' → printable rev → printable rev' →
  Forall (λ pod, plain pod.1 ∧ plain pod.2) pods → Forall (λ pod, plain pod.1 ∧ plain pod.2) pods' →
  renderFingerprint node claim np rev pods x = renderFingerprint node' claim' np' rev' pods' x' →
  (node = node' ∧ claim = claim') ∧ (pv_UID np = pv_UID np' ∧ pv_Generation np = pv_Generation np' ∧ rev = rev') ∧ pods ≡ₚ pods' ∧
  (annotation np NodePoolSpotToSpotMinNodeAgeAnnotationKey = annotation np' NodePoolSpotToSpotMinNodeAgeAnnotationKey ∧
   annotation np NodePoolSpotToSpotMinSavingsAnnotationKey = annotation np' NodePoolSpotToSpotMinSavingsAnnotationKey) ∧ x = x'.
Proof.
  intros Hno Hno' Hcl Hcl' Hnp Hnp' Hr Hr' Hpods Hpods' Heq. unfold renderFingerprint in Heq.
  assert (∀ np, clean_pool np → lacks "|" (pv_UID np +:+ ":" +:+ FormatInt (pv_Generation np))) as Hver.
  { intros p Hp. apply lacks_joined; [apply (cl_uid _ Hp)|done|apply FormatInt_plain]. }
  assert (∀ ps, Forall (λ pod, plain pod.1 ∧ plain pod.2) ps → lacks "|" (String.concat "," (sortStrings (podUID <$> ps)))) as Hjoin.
  { intros ps Hps. apply lacks_concat; [done|]. unfold sortStrings. rewrite gosort_perm. apply Forall_fmap.
    eapply Forall_impl; [exact Hps|]. intros pod Hp. by apply podUID_separable. }
  apply split_sep in Heq as [-> Heq]; [|apply Hno|apply Hno']. apply split_sep in Heq as [-> Heq]; [|apply Hcl|apply Hcl'].
  apply split_sep in Heq as [Hv Heq]; [|by apply Hver..]. apply split_sep in Heq as [Hrev Heq]; [|apply FormatInt_plain..].
  apply split_sep in Heq as [Hp Heq]; [|by apply Hjoin..]. apply split_sep in Heq as [Hage Heq]; [|apply Hnp|apply Hnp'].
  apply split_sep in Heq as [Hsav ->]; [|apply Hnp|apply Hnp'].
  apply split_sep in Hv as [Huid Hgen]; [|apply (cl_uid _ Hnp)|apply (cl_uid _ Hnp')].
  split_and!; [done|done|done| |by apply FormatInt_inj| |done|done|done].
  - pose proof (cl_generation _ Hnp). pose proof (cl_generation _ Hnp'). apply FormatInt_inj; [unfold printable; int_lia..|done].
  - apply (fmap_perm_inj (λ pod, plain pod.1 ∧ plain pod.2) podUID); [apply podUID_inj|done|done|].
    apply sorted_joined in Hp; [done|..]; apply Forall_fmap; (eapply Forall_impl; [eassumption|]); intros pod Hpod; cbn;
      destruct (podUID_separable pod Hpod) as (? & ? & _); done.
Qed.

(** A fingerprint tells everything it was computed from.  When two candidates,
    in the same pass or in two, have the same fingerprint and it is not empty,
    then their Nodes and NodeClaims have the same resource versions, their
    NodePools the same identity, generation, instance type revision and
    spot-to-spot annotations, their reschedulable pods are the same at the same
    versions, and the ready NodePools of the two passes are the same at the same
    generations and revisions. *)
Theorem fingerprint_exact provider provider' pools pools' cvs cvs' cv cv' f f' s
    (Hreads : pass_reads provider pools) (Hreads' : pass_reads provider' pools')
    (Hclean : clean_candidate cv) (Hclean' : clean_candidate cv') (Hne : s ≠ ""%string)
    (Hrun : fingerprint provider pools (fingerprintsAfter provider pools cvs) cv = (f, s))
    (Hrun' : fingerprint provider' pools' (fingerprintsAfter provider' pools' cvs') cv' = (f', s)) :
  cv_Node cv = cv_Node cv' ∧ cv_NodeClaim cv = cv_NodeClaim cv' ∧ cv_Pods cv ≡ₚ cv_Pods cv' ∧
  (∃ np np', cv_NodePool cv = Some np ∧ cv_NodePool cv' = Some np' ∧
     pv_UID np = pv_UID np' ∧ pv_Generation np = pv_Generation np' ∧ revisions f !! pv_Name np = revisions f' !! pv_Name np' ∧
     annotation np NodePoolSpotToSpotMinNodeAgeAnnotationKey = annotation np' NodePoolSpotToSpotMinNodeAgeAnnotationKey ∧
     annotation np NodePoolSpotToSpotMinSavingsAnnotationKey = annotation np' NodePoolSpotToSpotMinSavingsAnnotationKey) ∧
  ∃ nodePools nodePools', pools = Some nodePools ∧ pools' = Some nodePools' ∧ poolVersions f nodePools ≡ₚ poolVersions f' nodePools'.
Proof.
  destruct (fingerprint_ok provider pools (pr_revisions _ _ Hreads) _ cv (fingerprintsAfter_ok provider pools (pr_revisions _ _ Hreads) cvs)) as [Hok Hs].
  destruct (fingerprint_ok provider' pools' (pr_revisions _ _ Hreads') _ cv' (fingerprintsAfter_ok provider' pools' (pr_revisions _ _ Hreads') cvs')) as [Hok' Hs'].
  rewrite Hrun in Hok, Hs. rewrite Hrun' in Hok', Hs'. cbn [fst snd] in *.
  destruct (Hs Hne) as (node & claim & np & rev & x & Hnode & Hclaim & Hnp & -> & Hrev & _ & ps & l & Hps & Hrec & ->).
  destruct (Hs' Hne) as (node' & claim' & np' & rev' & x' & Hnode' & Hclaim' & Hnp' & Hrender & Hrev' & _ & ps' & l' & Hps' & Hrec' & ->).
  apply render_inj in Hrender as ((-> & ->) & (Hu & Hg & ->) & Hpods & (Ha & Hb) & Hfleet);
    [|by apply (cl_node _ Hclean)|by apply (cl_node _ Hclean')|by apply (cl_claim _ Hclean)|by apply (cl_claim _ Hclean')
     |by apply (cl_pool _ Hclean)|by apply (cl_pool _ Hclean')|apply (fo_revisions _ _ Hok) in Hrev; unfold printable; int_lia
     |apply (fo_revisions _ _ Hok') in Hrev'; unfold printable; int_lia|apply Hclean|apply Hclean'].
  split_and!; [congruence|congruence|done| |].
  - exists np, np'. split_and!; [done..|congruence|done|done].
  - exists ps, ps'. split_and!; [done|done|]. rewrite (recorded_versions _ _ _ Hrec), (recorded_versions _ _ _ Hrec').
    apply fleet_perm; [| |done].
    + eapply recorded_clean; [apply Hok|by apply (pr_pools _ _ Hreads)|exact Hrec].
    + eapply recorded_clean; [apply Hok'|by apply (pr_pools _ _ Hreads')|exact Hrec'].
Qed.
End exact.

(** * Witnesses *)

Section witnesses.
#[local] Existing Instance stable_GoSort.

Definition cachedTwice : list CacheEvent := [Stored 10 10 "p1" "a" 300; LookedUp 20 "p1" "a"; Stored 30 30 "p1" "a" 300].

(** Storing the verdict again does not extend its life. *)
Lemma skip_stands_witness : (∃ expires, stands cachedTwice "p1" "a" expires ∧ 310 <= expires) ∧
  (ShouldSkip (cacheAfter cachedTwice) 311 "p1" "a").2 = false.
Proof. split; [|vm_compute; reflexivity]. apply (skip_stands cachedTwice 310 "p1" "a"). vm_compute. reflexivity. Defined.

Definition poolA : PoolVersion := mkPoolVersion "pool" "u1" 3 true ∅.
Definition versionsA (pods : list (string * string)) : CandidateVersions := mkCandidateVersions (Some "100") (Some "101") (Some poolA) pods.
Definition sevens : option (PoolVersion → option Z) := Some (λ _, Some 7).

Ltac decide_clean := apply (bool_decide_unpack _); vm_compute; exact I.

Lemma poolA_clean : clean_pool poolA.
Proof. split; decide_clean. Qed.

Lemma versionsA_clean pods : Forall (λ pod, plain pod.1 ∧ plain pod.2) pods → clean_candidate (versionsA pods).
Proof. intros Hpods. split; [intros ? [= <-]; decide_clean|intros ? [= <-]; decide_clean|intros ? [= <-]; apply poolA_clean|done]. Qed.

Lemma poolA_reads : pass_reads sevens (Some [poolA]).
Proof.
  split; [by intros provider np rev [= <-] [= <-]|]. intros nodePools [= <-]. constructor; [apply poolA_clean|constructor].
Qed.

Lemma fingerprint_exact_witness :
  (fingerprint sevens (Some [poolA]) newNegativeCacheFingerprints (versionsA [("b", "2"); ("a", "1")])).2
    = "100|101|u1:3|7|a:1,b:2|||{pool:u1:3:7}"%string ∧
  [("b", "2"); ("a", "1")]%string ≡ₚ [("a", "1"); ("b", "2")]%string.
Proof.
  split; [vm_compute; reflexivity|].
  destruct (fingerprint_exact sevens sevens (Some [poolA]) (Some [poolA]) [] [] (versionsA [("b", "2"); ("a", "1")]) (versionsA [("a", "1"); ("b", "2")])
    (fingerprint sevens (Some [poolA]) newNegativeCacheFingerprints (versionsA [("b", "2"); ("a", "1")])).1
    (fingerprint sevens (Some [poolA]) newNegativeCacheFingerprints (versionsA [("b", "2"); ("a", "1")])).1
    "100|101|u1:3|7|a:1,b:2|||{pool:u1:3:7}") as (_ & _ & Hpods & _).
  - apply poolA_reads.
  - apply poolA_reads.
  - apply versionsA_clean. decide_clean.
  - apply versionsA_clean. decide_clean.
  - discriminate.
  - vm_compute. reflexivity.
  - vm_compute. reflexivity.
  - exact Hpods.
Defined.
End witnesses.
