(* ===== verification/SingleNode.v ===== *)
(** * Consolidating one node at a time

    Model of [pkg/controllers/disruption/singlenodeconsolidation.go] and of the
    per-candidate budget of [consolidation.go]: the order in which the candidates
    are walked, the walk with its skips, the proposals it holds and their
    admission one after the other.  The state of the method is that of
    [MultiNode.v] with the node pools and the candidates earlier passes did and
    did not reach and the cache of [NegativeCache.v].  [None] is a panic of an
    evaluation. *)

From Stdlib Require Import SpecFloat.
From S2P Require Import Prelude Float64 Requirement Kube Taints HostPorts Volumes Requirements Resources InstanceTypes PodUtils StateNode NodeClaim Packing Replacements Consolidation Cost Balanced Matching Validation MultiNode NegativeCache.

(** The operator options of the method. *)
Record SingleOptions := mkSingleOptions {
  MaxConsolidationCommandsPerPass : Z;
  ConsolidationSkipUnchangedNegatives : bool;
  ConsolidationNegativeCacheTTL : Z;
  ConsolidationCandidateTimeout : Z;
  ConsolidationSplitMaxAttempts : Z;
}.

(** What the method reads and calls besides the simulation and the validator. *)
Class SingleWorld (W Q : Type) `{NetIP} := {
  versionsOf : Candidate Q → CandidateVersions;             (* the objects the candidate holds *)
  revisionProviderOf : W → option (PoolVersion → option Z);
  listManaged : W → option (list PoolVersion);
  candidateExpired : W → bool;                              (* the candidate's context, not the pass's, is over *)
  completedCommandCount : W → Z;                            (* queue.CompletedCommandCount *)
  startCommand : W → Command Q → W * bool;                  (* queue.StartCommand, whether it succeeded *)
}.

Record SingleState (W : Type) := mkSingleState {
  ss_method : MethodState W;
  PreviouslyUnseenNodePools : gset string;
  evaluatedThisCycle : gset string;
  negativeResults : NegativeResultCache;
  completedCommandsSeen : Z;
}.
Arguments mkSingleState {W}.
Arguments ss_method {W}.
Arguments PreviouslyUnseenNodePools {W}.
Arguments evaluatedThisCycle {W}.
Arguments negativeResults {W}.
Arguments completedCommandsSeen {W}.

Definition SingleNodeConsolidationTimeoutDuration : Z := 3 * Minute.
Definition commandAdmissionReserve : Z := 20 * Second.
Definition admissionBudget (proposals : Z) : Z := commandValidationDelay + proposals * commandAdmissionReserve.

Section single.
Context {LT : LabelTables} {PL : ProviderLabels} {GS : GoSort} {GR : GoRange} {PS : Parsers} {Q W : Type} `{Quantity Q} {NI : NetIP}
  {SIM : Simulation W Q} {MW : MethodWorld W Q} {SW : SingleWorld W Q} (overrideKey : Offering Q → string * string) (rand : Z → Z)
  (opts : ConsolidationOptions) (sopts : SingleOptions) (advisor : option (string → InstanceType Q → Offering Q → bool))
  (evaluator : option (gmap string NodePoolTotals)).
Implicit Types (c : Candidate Q) (cands : list (Candidate Q)) (cmd : Command Q) (st : ConsolidationState W) (ss : SingleState W)
  (budget : gmap string Z).

Definition poolOf c : string := cp_Name (cd_NodePool c).

(** ** The order of the walk *)

(** [lo.GroupBy] by node pool *)
Definition groupByPool cands : gmap string (list (Candidate Q)) :=
  foldl (λ m c, <[poolOf c := default [] (m !! poolOf c) ++ [c]]> m) ∅ cands.

(** A set as a list, in the order of some iteration. *)
Definition unsortedList (s : gset string) : list string := (gorange (gset_to_gmap () s)).*1.

(** [lo.MaxBy] of the groups by their length *)
Definition longest (groups : list (list (Candidate Q))) : list (Candidate Q) :=
  foldl (λ best l, if (length best <? length l)%nat then l else best) [] groups.

Definition shuffleCandidates (unseen : gset string) (groups : gmap string (list (Candidate Q))) : list (Candidate Q) :=
  let sortedNodePools := unsortedList unseen ++ List.filter (λ name, bool_decide (name ∉ unseen)) (gorange groups).*1 in
  concat ((λ i, omap (λ name, default [] (groups !! name) !! i) sortedNodePools) <$> seq 0 (length (longest (gorange groups).*2))).

Definition resumeCoverageCycle (evaluated : gset string) cands : gset string * list (Candidate Q) :=
  if (size evaluated =? 0)%nat then (evaluated, cands)
  else
    let evaluated := evaluated ∩ list_to_set (cd_ProviderID <$> cands) in
    if (size evaluated =? 0)%nat || (length cands <=? size evaluated)%nat then (∅, cands)
    else
      let unreached c := bool_decide (cd_ProviderID c ∉ evaluated) in
      (evaluated, List.filter unreached cands ++ List.filter (λ c, negb (unreached c)) cands).

Definition SortCandidates ss cands : gset string * list (Candidate Q) :=
  resumeCoverageCycle (evaluatedThisCycle ss) (shuffleCandidates (PreviouslyUnseenNodePools ss) (groupByPool (sortCandidates cands))).

(** ** One candidate *)

(** [computeConsolidationWithinCandidateBudget]: no command when the evaluation
    failed or its time ran out, which the caller treats alike. *)
Definition computeWithinCandidateBudget c st : option (ConsolidationState W * option (Command Q)) :=
  '(st, result) ← computeConsolidation overrideKey rand opts advisor [c] st;
  Some (st, if (0 <? ConsolidationCandidateTimeout sopts) && candidateExpired (cs_world st) then None
            else match result with inl _ => None | inr cmd => Some cmd end).

(** The variables of the walk. *)
Record Walk := mkWalk {
  wk_pass : ConsolidationState W;
  wk_cache : NegativeResultCache;
  wk_fingerprints : negativeCacheFingerprints;
  wk_evaluated : gset string;
  unseenNodePools : gset string;
  wk_budget : gmap string Z;
  proposals : list (Command Q);
  claimedProviderIDs : gset string;
  balancedNodePoolsHeld : gset string;
  constrainedByBudgets : bool;
  skippedOnNegativeCache : bool;
}.
Implicit Types (wk : Walk).

Definition walkSeen wk c : Walk :=
  mkWalk (wk_pass wk) (wk_cache wk) (wk_fingerprints wk) (wk_evaluated wk) (unseenNodePools wk ∖ {[poolOf c]}) (wk_budget wk) (proposals wk)
    (claimedProviderIDs wk) (balancedNodePoolsHeld wk) (constrainedByBudgets wk) (skippedOnNegativeCache wk).

Definition walkConstrained wk : Walk :=
  mkWalk (wk_pass wk) (wk_cache wk) (wk_fingerprints wk) (wk_evaluated wk) (unseenNodePools wk) (wk_budget wk) (proposals wk)
    (claimedProviderIDs wk) (balancedNodePoolsHeld wk) true (skippedOnNegativeCache wk).

(** The candidate counts as reached, and its fingerprint was looked up. *)
Definition walkReached wk c (cache : NegativeResultCache) (fps : negativeCacheFingerprints) (skipped : bool) : Walk :=
  mkWalk (wk_pass wk) cache fps (wk_evaluated wk ∪ {[cd_ProviderID c]}) (unseenNodePools wk) (wk_budget wk) (proposals wk)
    (claimedProviderIDs wk) (balancedNodePoolsHeld wk) (constrainedByBudgets wk) (skippedOnNegativeCache wk || skipped).

Definition walkPass wk st : Walk :=
  mkWalk st (wk_cache wk) (wk_fingerprints wk) (wk_evaluated wk) (unseenNodePools wk) (wk_budget wk) (proposals wk)
    (claimedProviderIDs wk) (balancedNodePoolsHeld wk) (constrainedByBudgets wk) (skippedOnNegativeCache wk).

Definition walkCache wk (cache : NegativeResultCache) : Walk :=
  mkWalk (wk_pass wk) cache (wk_fingerprints wk) (wk_evaluated wk) (unseenNodePools wk) (wk_budget wk) (proposals wk)
    (claimedProviderIDs wk) (balancedNodePoolsHeld wk) (constrainedByBudgets wk) (skippedOnNegativeCache wk).

Definition isBalanced c : bool := bool_decide (cp_ConsolidationPolicy (cd_NodePool c) = Balanced).

(** The command is held as a proposal. *)
Definition walkHold wk c cmd : Walk :=
  mkWalk (wk_pass wk) (wk_cache wk) (wk_fingerprints wk) (wk_evaluated wk) (unseenNodePools wk) (spendBudget (wk_budget wk) c) (proposals wk ++ [cmd])
    (claimedProviderIDs wk ∪ list_to_set (cd_ProviderID <$> cmd_Candidates cmd))
    (if isBalanced c then balancedNodePoolsHeld wk ∪ {[poolOf c]} else balancedNodePoolsHeld wk)
    (constrainedByBudgets wk) (skippedOnNegativeCache wk).

Definition fresh_durability st : ConsolidationState W := mkConsolidationState (cs_world st) (cs_splitAttempts st) false.

(** What a method returns: commands, and whether there is an error too. *)
Definition SingleCommands : Type := list (Command Q) * bool.

Inductive Visit :=
  | Continue (wk : Walk)                       (* the next candidate *)
  | Break (wk : Walk)                          (* the proposals are full *)
  | Return (wk : Walk) (result : SingleCommands).

(** [Validate] of the first command of a pass that admits one *)
Definition validateOnly wk cmd : Visit :=
  match Validate (cs_world (wk_pass wk)) cmd commandValidationDelay with
  | (w, NotValidated isValidationError) => Return (walkPass wk (withWorld (wk_pass wk) w)) ([], negb isValidationError)
  | (w, Validated _) => Return (walkCache (walkPass wk (withWorld (wk_pass wk) w)) (Clear (wk_cache wk))) ([cmd], false)
  end.

(** A command the evaluation found. *)
Definition propose wk c cmd : Visit :=
  if negb (ApproveCommand evaluator cmd) then Continue wk
  else if MaxConsolidationCommandsPerPass sopts <=? 1 then validateOnly wk cmd
  else
    let wk := walkHold wk c cmd in
    if MaxConsolidationCommandsPerPass sopts <=? Z.of_nat (length (proposals wk)) then Break wk else Continue wk.

(** The evaluation of a candidate that is not skipped. *)
Definition evaluate wk c (fp : string) : option Visit :=
  '(st, result) ← computeWithinCandidateBudget c (fresh_durability (wk_pass wk));
  let wk := walkPass wk st in
  Some (match result with
    | None => Continue wk
    | Some cmd =>
        if bool_decide (Decision cmd = NoOpDecision) then
          let now := clockNow (cs_world st) in
          Continue (if negb (String.eqb fp "") && negb (cs_inconclusive st)
                    then walkCache wk (StoreNegative (wk_cache wk) now now (cd_ProviderID c) fp (ConsolidationNegativeCacheTTL sopts)) else wk)
        else propose wk c cmd
    end).

Definition visit wk c : option Visit :=
  let wk := walkSeen wk c in
  if bool_decide (cd_ProviderID c ∈ claimedProviderIDs wk) then Some (Continue wk)
  else if bool_decide (poolOf c ∈ balancedNodePoolsHeld wk) then Some (Continue wk)
  else if poolBudget (wk_budget wk) c =? 0 then Some (Continue (walkConstrained wk))
  else if negb (CanPassThreshold evaluator c) then Some (Continue wk)
  else
    let w := cs_world (wk_pass wk) in
    let '(fps, fp) := fingerprint (revisionProviderOf w) (listManaged w) (wk_fingerprints wk) (versionsOf c) in
    let '(cache, unchanged) :=
      if String.eqb fp "" then (wk_cache wk, false) else ShouldSkip (wk_cache wk) (clockNow w) (cd_ProviderID c) fp in
    let skip := unchanged && ConsolidationSkipUnchangedNegatives sopts in
    let wk := walkReached wk c cache fps skip in
    if skip then Some (Continue wk) else evaluate wk c fp.

(** ** The walk *)

Inductive WalkEnd := Walked | TimedOut | Returned (result : SingleCommands).

Fixpoint walk (timeout : Z) cands wk : option (Walk * WalkEnd) :=
  match cands with
  | [] => Some (wk, Walked)
  | c :: cands =>
      if timeout <? clockNow (cs_world (wk_pass wk)) then Some (wk, TimedOut)
      else
        v ← visit wk c;
        match v with
        | Continue wk => walk timeout cands wk
        | Break wk => Some (wk, Walked)
        | Return wk result => Some (wk, Returned result)
        end
  end.

(** ** Admission *)

Fixpoint admitNext (deadline : Z) (delay : Z) (attempted : bool) st (ps : list (Command Q)) : ConsolidationState W * SingleCommands :=
  match ps with
  | [] => (st, ([], false))
  | cmd :: ps =>
      if attempted && negb (clockNow (cs_world st) + commandAdmissionReserve <? deadline) then admitNext deadline delay attempted st ps
      else
        match Validate (cs_world st) cmd delay with
        | (w, NotValidated false) => (withWorld st w, ([], true))
        | (w, NotValidated true) => admitNext deadline 0 true (withWorld st w) ps
        | (w, Validated _) =>
            match startCommand w cmd with
            | (w, false) => (withWorld st w, ([], true))
            | (w, true) =>
                let '(st, (admitted, err)) := admitNext deadline 0 true (withWorld st w) ps in (st, (cmd :: admitted, err))
            end
        end
  end.

Definition admitProposals st (ps : list (Command Q)) : ConsolidationState W * SingleCommands :=
  admitNext (clockNow (cs_world st) + admissionBudget (Z.of_nat (length ps))) commandValidationDelay false st ps.

(** ** The method *)

(** What the deferred functions leave behind. *)
Definition finish ms (unseen : gset string) (timedOut : bool) wk (seen : Z) : SingleState W :=
  mkSingleState ms unseen (if timedOut then wk_evaluated wk else ∅) (DropExpired (wk_cache wk) (clockNow (cs_world (ms_pass ms)))) seen.

(** [SingleNodeConsolidation.ComputeCommands] *)
Definition ComputeSingleCommands budget cands ss : option (SingleState W * SingleCommands) :=
  match IsConsolidated (ss_method ss) with
  | (ms, true) => Some (mkSingleState ms (PreviouslyUnseenNodePools ss) (evaluatedThisCycle ss) (negativeResults ss) (completedCommandsSeen ss), ([], false))
  | (ms, false) =>
      let st := mkConsolidationState (cs_world (ms_pass ms)) (Some (Z.max 0 (ConsolidationSplitMaxAttempts sopts))) false in
      let last := lastConsolidationState ms in
      let '(evaluated, cands) := SortCandidates ss cands in
      let timeout := clockNow (cs_world st) + SingleNodeConsolidationTimeoutDuration in
      let completed := completedCommandCount (cs_world st) in
      let cache := if completed =? completedCommandsSeen ss then negativeResults ss else Clear (negativeResults ss) in
      let wk := mkWalk st cache newNegativeCacheFingerprints evaluated (list_to_set (poolOf <$> cands)) budget [] ∅ ∅ false false in
      '(wk, ended) ← walk timeout cands wk;
      let ms := mkMethodState (wk_pass wk) last in
      let timedOut := match ended with TimedOut => true | _ => false end in
      let unseen := if timedOut then unseenNodePools wk else PreviouslyUnseenNodePools ss in
      Some (match ended, proposals wk with
        | Returned result, _ => (finish ms unseen false wk completed, result)
        | TimedOut, [] => (finish ms unseen true wk completed, ([], false))
        | Walked, [] =>
            (finish (if negb (constrainedByBudgets wk) && negb (skippedOnNegativeCache wk) then markConsolidated ms else ms)
               (unseenNodePools wk) false wk completed, ([], false))
        | _, ps =>
            let '(st, (admitted, err)) := admitProposals (wk_pass wk) ps in
            let wk := if bool_decide (admitted = []) then wk else walkCache wk (Clear (wk_cache wk)) in
            (finish (mkMethodState st last) unseen timedOut wk completed, (admitted, err))
        end)
  end.
End single.

(** * Theory *)

(** ** The order of the walk *)

Section interleave.
Context {A : Type}.

Definition at_index (l : list A) (i : nat) : list A := option_list (l !! i).

Lemma concat_at_index (l : list A) n : concat (at_index l <$> seq 0 n) = take n l.
Proof.
  induction n as [|n IH]; [done|]. rewrite seq_S, fmap_app, concat_app, IH. cbn. rewrite app_nil_r. unfold at_index.
  destruct (l !! n) as [x|] eqn:Hx; cbn; [by rewrite (take_S_r _ _ x)|]. rewrite app_nil_r. apply lookup_ge_None in Hx.
  rewrite !take_ge by lia. done.
Qed.

Lemma concat_fmap_app {B} (f g : B → list A) (l : list B) : concat ((λ x, f x ++ g x) <$> l) ≡ₚ concat (f <$> l) ++ concat (g <$> l).
Proof.
  induction l as [|x l IH]; [done|]. rewrite !fmap_cons. cbn [concat]. rewrite IH, <- !app_assoc. apply Permutation_app_head.
  rewrite !app_assoc. apply Permutation_app_tail, Permutation_app_comm.
Qed.

(** Taking the lists in turn, one element of each at a time, loses nothing. *)
Lemma interleave_perm {K} (g : K → list A) (names : list K) n :
  (∀ k, k ∈ names → (length (g k) <= n)%nat) →
  concat ((λ i, omap (λ k, g k !! i) names) <$> seq 0 n) ≡ₚ concat (g <$> names).
Proof.
  induction names as [|k names IH]; intros Hlen.
  { cbn. clear Hlen. induction (seq 0 n) as [|i rest IH]; [done|]. by rewrite fmap_cons. }
  rewrite (list_fmap_ext _ (λ i, at_index (g k) i ++ omap (λ k, g k !! i) names))
    by (intros j i _; unfold at_index; cbn; by destruct (g k !! i)).
  rewrite concat_fmap_app, concat_at_index, IH by (intros k' Hk'; apply Hlen; set_solver).
  rewrite take_ge by (apply Hlen; set_solver). done.
Qed.
End interleave.

Section order.
Context {GS : GoSort} {GR : GoRange} {Q W : Type} `{Quantity Q}.
Implicit Types (c : Candidate Q) (cands : list (Candidate Q)) (ss : SingleState W).

Lemma groupByPool_lookup cands name : default [] (groupByPool cands !! name) = with_key poolOf cands name.
Proof.
  unfold groupByPool. change (with_key poolOf cands name) with (default [] ((∅ : gmap string (list (Candidate Q))) !! name) ++ with_key poolOf cands name).
  generalize (∅ : gmap string (list (Candidate Q))) as m. induction cands as [|c cands IH]; intros m; cbn [foldl]; [by rewrite app_nil_r|].
  rewrite IH. unfold with_key. cbn [List.filter]. case_bool_decide as Hp.
  - subst name. rewrite lookup_insert_eq. cbn. by rewrite <- app_assoc.
  - by rewrite lookup_insert_ne.
Qed.

Lemma groupByPool_key cands c : c ∈ cands → is_Some (groupByPool cands !! poolOf c).
Proof.
  intros Hc. destruct (groupByPool cands !! poolOf c) as [l|] eqn:Hl; [done|]. pose proof (groupByPool_lookup cands (poolOf c)) as Hg.
  rewrite Hl in Hg. cbn in Hg. assert (c ∈ with_key poolOf cands (poolOf c)) as Hin by by apply elem_of_with_key.
  rewrite <- Hg in Hin. by apply not_elem_of_nil in Hin.
Qed.

Lemma longest_spec (groups : list (list (Candidate Q))) l : l ∈ groups → (length l <= length (longest groups))%nat.
Proof.
  unfold longest. enough (∀ best : list (Candidate Q), (length best <= length (foldl (λ best l, if (length best <? length l)%nat then l else best) best groups))%nat ∧
    (l ∈ groups → (length l <= length (foldl (λ best l, if (length best <? length l)%nat then l else best) best groups))%nat)) as Hall by apply Hall.
  induction groups as [|g groups IH]; intros best; cbn [foldl]; [split; [done|by intros ?%not_elem_of_nil]|].
  destruct (IH (if (length best <? length g)%nat then g else best)) as [Hle Hin].
  destruct (length best <? length g)%nat eqn:Hlt; [apply Nat.ltb_lt in Hlt|apply Nat.ltb_ge in Hlt];
    (split; [lia|]); intros [->|Hg]%elem_of_cons; [lia|by apply Hin|lia|by apply Hin].
Qed.

Lemma NoDup_List_filter {A} (f : A → bool) (l : list A) : NoDup l → NoDup (List.filter f l).
Proof.
  induction 1 as [|x l Hx Hl IH]; [constructor|]. cbn [List.filter]. destruct (f x); [|done]. constructor; [|done].
  rewrite elem_of_filter_list. tauto.
Qed.

Lemma gorange_keys_NoDup {K A} `{Countable K} (m : gmap K A) : NoDup (gorange m).*1.
Proof. rewrite gorange_perm. apply NoDup_fst_map_to_list. Qed.

Lemma elem_of_unsortedList (s : gset string) name : name ∈ unsortedList s ↔ name ∈ s.
Proof.
  unfold unsortedList. rewrite list_elem_of_fmap. split.
  - intros ([k []] & -> & Hin). apply elem_of_gorange, lookup_gset_to_gmap_Some in Hin. apply Hin.
  - intros Hin. exists (name, ()). split; [done|]. apply elem_of_gorange, lookup_gset_to_gmap_Some. done.
Qed.

Lemma shuffle_perm (unseen : gset string) cands : shuffleCandidates unseen (groupByPool cands) ≡ₚ cands.
Proof.
  unfold shuffleCandidates. rewrite (interleave_perm (λ name, default [] (groupByPool cands !! name))).
  - rewrite (list_fmap_ext _ (with_key poolOf cands)) by (intros; apply groupByPool_lookup). apply concat_with_key.
    + apply NoDup_app. split_and!; [apply gorange_keys_NoDup| |apply NoDup_List_filter, gorange_keys_NoDup].
      intros name Hu%elem_of_unsortedList. rewrite elem_of_filter_list, bool_decide_eq_true. tauto.
    + intros c Hc. rewrite elem_of_app, elem_of_unsortedList, elem_of_filter_list, bool_decide_eq_true.
      destruct (decide (poolOf c ∈ unseen)) as [|Hn]; [by left|right]. split; [|done].
      destruct (groupByPool_key cands c Hc) as [l Hl]. apply elem_of_gorange in Hl. by apply (list_elem_of_fmap_2 fst) in Hl.
  - intros name _. destruct (groupByPool cands !! name) as [l|] eqn:Hl; cbn; [|lia]. apply longest_spec.
    apply elem_of_gorange in Hl. by apply (list_elem_of_fmap_2 snd) in Hl.
Qed.

Lemma partition_perm {A} (f : A → bool) (l : list A) : List.filter f l ++ List.filter (λ x, negb (f x)) l ≡ₚ l.
Proof.
  induction l as [|x l IH]; [done|]. cbn [List.filter]. destruct (f x); cbn [negb app]; [by rewrite IH|]. by rewrite <- Permutation_middle, IH.
Qed.

Lemma SortCandidates_perm ss cands : (SortCandidates ss cands).2 ≡ₚ cands.
Proof.
  unfold SortCandidates. transitivity (shuffleCandidates (PreviouslyUnseenNodePools ss) (groupByPool (sortCandidates cands))).
  - generalize (shuffleCandidates (PreviouslyUnseenNodePools ss) (groupByPool (sortCandidates cands))) as l. intros l. unfold resumeCoverageCycle.
    destruct (_ =? 0)%nat; [done|]. destruct (_ || _); [done|]. apply partition_perm.
  - rewrite shuffle_perm. apply gosort_perm.
Qed.

(** Some of the candidates were not reached, then the cycle goes on. *)
Lemma unfinished_cycle (evaluated : gset string) cands c :
  NoDup (cd_ProviderID <$> cands) → c ∈ cands → cd_ProviderID c ∉ evaluated →
  (size (evaluated ∩ list_to_set (cd_ProviderID <$> cands)) < length cands)%nat.
Proof.
  intros Hnd Hc Hn. rewrite <- (length_fmap cd_ProviderID cands), <- (size_list_to_set (C := gset string)) by done.
  apply subset_size. split; [set_solver|]. intros Hsub. apply Hn.
  assert (cd_ProviderID c ∈ (list_to_set (cd_ProviderID <$> cands) : gset string)) as Hin by by apply elem_of_list_to_set, list_elem_of_fmap_2.
  apply Hsub in Hin. set_solver.
Qed.

(** The order of the walk.  It is a permutation of the candidates.  Those that
    earlier passes did not reach come before all that they reached; a cycle of
    passes that runs out of time remembers only current candidates, and forgets
    none of them as long as one of them has not been reached. *)
Theorem SortCandidates_resumes ss cands (evaluated : gset string) sorted (Hnd : NoDup (cd_ProviderID <$> cands))
    (Hsort : SortCandidates ss cands = (evaluated, sorted)) :
  sorted ≡ₚ cands ∧
  (∃ unreached reached, sorted = unreached ++ reached ∧
     (∀ c, c ∈ unreached → cd_ProviderID c ∉ evaluated) ∧ ∀ c, c ∈ reached → cd_ProviderID c ∈ evaluated) ∧
  evaluated ⊆ evaluatedThisCycle ss ∩ list_to_set (cd_ProviderID <$> cands) ∧
  ∀ c, c ∈ cands → cd_ProviderID c ∉ evaluatedThisCycle ss → evaluated = evaluatedThisCycle ss ∩ list_to_set (cd_ProviderID <$> cands).
Proof.
  unfold SortCandidates in Hsort. set (shuffled := shuffleCandidates _ _) in Hsort.
  assert (shuffled ≡ₚ cands) as Hperm by (unfold shuffled; rewrite shuffle_perm; apply gosort_perm).
  assert ((list_to_set (cd_ProviderID <$> shuffled) : gset string) = list_to_set (cd_ProviderID <$> cands)) as Hids by (apply leibniz_equiv; by rewrite Hperm).
  assert (∀ ev : gset string, ev = ∅ → ∃ unreached reached, shuffled = unreached ++ reached ∧
     (∀ c, c ∈ unreached → cd_ProviderID c ∉ ev) ∧ ∀ c, c ∈ reached → cd_ProviderID c ∈ ev) as Hnone.
  { intros ev ->. exists shuffled, []. rewrite app_nil_r. split_and!; [done|set_solver|set_solver]. }
  unfold resumeCoverageCycle in Hsort. rewrite Hids, (Permutation_length Hperm) in Hsort.
  destruct (size (evaluatedThisCycle ss) =? 0)%nat eqn:Hz.
  { apply Nat.eqb_eq, size_empty_inv, leibniz_equiv in Hz. injection Hsort as <- <-. split_and!; [done|by apply Hnone|set_solver|set_solver]. }
  destruct (size (evaluatedThisCycle ss ∩ _) =? 0)%nat eqn:Hz'; cbn [orb] in Hsort.
  { injection Hsort as <- <-. split_and!; [done|by apply Hnone|set_solver|]. apply Nat.eqb_eq, size_empty_inv, leibniz_equiv in Hz'. by rewrite Hz'. }
  destruct (length cands <=? size (evaluatedThisCycle ss ∩ _))%nat eqn:Hle.
  { apply Nat.leb_le in Hle. injection Hsort as <- <-. split_and!; [done|by apply Hnone|set_solver|]. intros c Hc Hn.
    pose proof (unfinished_cycle (evaluatedThisCycle ss) cands c Hnd Hc Hn). lia. }
  injection Hsort as <- <-. split_and!; [by rewrite partition_perm| |done|done].
  eexists _, _. split; [done|]. split; intros c; rewrite elem_of_filter_list, ?negb_true_iff, ?bool_decide_eq_true, ?bool_decide_eq_false; [tauto|].
  intros [_ Hin]. by apply dec_stable.
Qed.
End order.

(** ** The walk *)

Section walk_theory.
Context {LT : LabelTables} {LTok : LabelTablesOk} {PL : ProviderLabels} {CTL : OfferingLabels} {GS : GoSort} {GR : GoRange} {PS : Parsers}
  {Q W : Type} `{Quantity Q} {NI : NetIP} {SIM : Simulation W Q} {MW : MethodWorld W Q} {SW : SingleWorld W Q}
  (overrideKey : Offering Q → string * string) (rand : Z → Z) (opts : ConsolidationOptions) (sopts : SingleOptions)
  (advisor : option (string → InstanceType Q → Offering Q → bool)) (evaluator : option (gmap string NodePoolTotals)).
Implicit Types (c : Candidate Q) (cands : list (Candidate Q)) (cmd : Command Q) (st : ConsolidationState W) (ss : SingleState W)
  (budget : gmap string Z) (wk : @Walk Q W NI).
#[local] Abbreviation computeWithinCandidateBudget := (computeWithinCandidateBudget overrideKey rand opts sopts advisor).
#[local] Abbreviation visit := (visit overrideKey rand opts sopts advisor evaluator).
#[local] Abbreviation evaluate := (evaluate overrideKey rand opts sopts advisor evaluator).
#[local] Abbreviation walk := (walk overrideKey rand opts sopts advisor evaluator).

(** What stands behind a command of the method. *)
Record single_command cands cmd : Prop := {
  sc_candidate : ∃ c, c ∈ cands ∧ justified (ConsolidationReplaceMinSavings opts) [c] cmd ∧ CanPassThreshold evaluator c = true;
  sc_approved : ApproveCommand evaluator cmd = true;
}.

Definition heldCandidates (cmds : list (Command Q)) : list (Candidate Q) := concat (cmd_Candidates <$> cmds).

(** The proposals together: distinct nodes, within the budget, one of each
    balanced pool. *)
Record compatible_commands budget (cmds : list (Command Q)) : Prop := {
  cc_distinct : NoDup (cd_ProviderID <$> heldCandidates cmds);
  cc_budget : ∀ pool, poolCount (heldCandidates cmds) pool <= default 0 (budget !! pool);
  cc_balanced : ∀ pool, poolCount (List.filter isBalanced (heldCandidates cmds)) pool <= 1;
}.

Record walk_ok budget cands wk : Prop := {
  wo_each : Forall (single_command cands) (proposals wk);
  wo_together : compatible_commands budget (proposals wk);
  wo_left : ∀ pool, default 0 (wk_budget wk !! pool) = default 0 (budget !! pool) - poolCount (heldCandidates (proposals wk)) pool;
  wo_claimed : ∀ c, c ∈ heldCandidates (proposals wk) → cd_ProviderID c ∈ claimedProviderIDs wk;
  wo_held : ∀ c, c ∈ heldCandidates (proposals wk) → isBalanced c = true → poolOf c ∈ balancedNodePoolsHeld wk;
  wo_only : ∀ id, id ∈ claimedProviderIDs wk → proposals wk ≠ [];
  wo_only_pool : ∀ pool, pool ∈ balancedNodePoolsHeld wk → proposals wk ≠ [];
}.

(** What the invariant and the proposals depend on. *)
Definition same_proposals wk wk' : Prop :=
  proposals wk' = proposals wk ∧ wk_budget wk' = wk_budget wk ∧ claimedProviderIDs wk' = claimedProviderIDs wk ∧
  balancedNodePoolsHeld wk' = balancedNodePoolsHeld wk.

Lemma walk_ok_same budget cands wk wk' : walk_ok budget cands wk → same_proposals wk wk' → walk_ok budget cands wk'.
Proof. intros [He Ht Hl Hc Hh Ho Hp] (Hps & Hb & Hcl & Hba). split; rewrite ?Hps, ?Hb, ?Hcl, ?Hba; done. Qed.

Lemma heldCandidates_snoc cmds cmd c : cmd_Candidates cmd = [c] → heldCandidates (cmds ++ [cmd]) = heldCandidates cmds ++ [c].
Proof. intros Hc. unfold heldCandidates. rewrite fmap_app, concat_app. cbn. by rewrite Hc. Qed.

Lemma poolCount_app cands cands' pool : poolCount (cands ++ cands') pool = poolCount cands pool + poolCount cands' pool.
Proof. unfold poolCount. rewrite with_key_app, length_app. lia. Qed.

Lemma poolCount_zero cands pool : (∀ c, c ∈ cands → poolOf c ≠ pool) → poolCount cands pool = 0.
Proof.
  induction cands as [|c cands IH]; [done|]. intros Hn. rewrite poolCount_cons, IH by set_solver.
  rewrite decide_False; [done|]. apply (Hn c). set_solver.
Qed.

Lemma hold_together budget cands wk c cmd :
  nonneg_budget budget → walk_ok budget cands wk → cmd_Candidates cmd = [c] →
  cd_ProviderID c ∉ claimedProviderIDs wk → poolOf c ∉ balancedNodePoolsHeld wk → poolBudget (wk_budget wk) c ≠ 0 →
  compatible_commands budget (proposals wk ++ [cmd]).
Proof.
  intros Hb [_ [Hnd Hbud Hbal] Hleft Hcl Hheld _ _] Hc Hid Hpool Hleft0. split; rewrite (heldCandidates_snoc _ _ _ Hc).
  - rewrite fmap_app. apply NoDup_app. split_and!; [done| |apply NoDup_singleton]. intros id (c' & -> & Hin)%list_elem_of_fmap.
    apply not_elem_of_cons. split; [|apply not_elem_of_nil]. intros Heq. apply Hid. rewrite <- Heq. by apply Hcl.
  - intros pool. rewrite poolCount_app, poolCount_cons. change (poolCount [] pool) with 0. specialize (Hleft pool). specialize (Hbud pool).
    case_decide as Hp; [|lia]. unfold poolBudget in Hleft0. rewrite Hp in Hleft0. lia.
  - intros pool. rewrite List.filter_app, poolCount_app. cbn [List.filter]. specialize (Hbal pool). destruct (isBalanced c); [|change (poolCount [] pool) with 0; lia].
    rewrite poolCount_cons. change (poolCount [] pool) with 0. case_decide as Hp; [|lia].
    rewrite (poolCount_zero (List.filter isBalanced _)); [lia|]. intros c' [Hin Hbc]%elem_of_filter_list <-. apply Hpool.
    replace (poolOf c) with (poolOf c') by (symmetry; exact Hp). by apply Hheld.
Qed.

Lemma hold_ok budget cands wk c cmd :
  nonneg_budget budget → walk_ok budget cands wk → single_command cands cmd → cmd_Candidates cmd = [c] →
  cd_ProviderID c ∉ claimedProviderIDs wk → poolOf c ∉ balancedNodePoolsHeld wk → poolBudget (wk_budget wk) c ≠ 0 →
  walk_ok budget cands (walkHold wk c cmd).
Proof.
  intros Hb Hwk Hs Hc Hid Hpool Hleft0. pose proof (hold_together budget cands wk c cmd Hb Hwk Hc Hid Hpool Hleft0) as Ht.
  destruct Hwk as [He _ Hleft Hcl Hheld _ _]. split; cbn [walkHold proposals wk_budget claimedProviderIDs balancedNodePoolsHeld].
  - apply Forall_app_2; [done|by constructor].
  - done.
  - intros pool. rewrite spendBudget_lookup, Hleft, (heldCandidates_snoc _ _ _ Hc), poolCount_app, poolCount_cons. change (poolCount [] pool) with 0. lia.
  - intros c'. rewrite (heldCandidates_snoc _ _ _ Hc), Hc, elem_of_app, list_elem_of_singleton, elem_of_union. intros [Hin| ->]; [left; by apply Hcl|].
    right. set_solver.
  - intros c'. rewrite (heldCandidates_snoc _ _ _ Hc), elem_of_app, list_elem_of_singleton. intros [Hin| ->] Hbc.
    + destruct (isBalanced c); [apply elem_of_union_l|]; by apply Hheld.
    + rewrite Hbc. set_solver.
  - intros _ _. by destruct (proposals wk).
  - intros _ _. by destruct (proposals wk).
Qed.

Section sound.
Context (Hsim : sound_simulation) (Hcap : 1 <= SpotToSpotMinInstanceTypes opts).

Lemma within_budget_justified c st st' cmd :
  computeWithinCandidateBudget c st = Some (st', Some cmd) → Decision cmd ≠ NoOpDecision →
  justified (ConsolidationReplaceMinSavings opts) [c] cmd.
Proof.
  unfold SingleNode.computeWithinCandidateBudget. intros ([st1 result] & Hrun & Heq)%bind_Some Hd. injection Heq as _ Heq.
  destruct (_ && _); [done|]. destruct result as [|cmd']; [done|]. injection Heq as ->.
  destruct (computeConsolidation_sound _ _ _ _ _ _ _ _ Hsim Hcap Hrun) as [->|Hj]; [by contradict Hd|done].
Qed.

Definition commandLimit : Z := Z.max 1 (MaxConsolidationCommandsPerPass sopts).

(** The commands a pass that admits one command returns. *)
Definition returned_ok budget cands (cmds : list (Command Q)) : Prop :=
  MaxConsolidationCommandsPerPass sopts <= 1 ∧
  (cmds = [] ∨ ∃ cmd, cmds = [cmd] ∧ single_command cands cmd ∧ compatible_commands budget [cmd] ∧
    ∃ w w' cmd', Validate w cmd commandValidationDelay = (w', Validated cmd')).

(** The next state of the walk after a step that is not the last one. *)
Definition step_ok budget cands wk : Prop := walk_ok budget cands wk ∧ Z.of_nat (length (proposals wk)) < commandLimit.

Definition visit_result_ok budget cands (v : Visit) : Prop :=
  match v with
  | Continue wk => step_ok budget cands wk
  | Break wk => walk_ok budget cands wk ∧ Z.of_nat (length (proposals wk)) <= commandLimit ∧ 1 < MaxConsolidationCommandsPerPass sopts
  | Return wk result => walk_ok budget cands wk ∧ returned_ok budget cands result.1
  end.

Lemma step_ok_same budget cands wk wk' : step_ok budget cands wk → same_proposals wk wk' → step_ok budget cands wk'.
Proof. intros [Hok Hlen] Hsame. split; [by eapply walk_ok_same|]. destruct Hsame as [-> _]. done. Qed.

Lemma propose_ok budget cands wk c cmd :
  nonneg_budget budget → step_ok budget cands wk → c ∈ cands → CanPassThreshold evaluator c = true →
  cd_ProviderID c ∉ claimedProviderIDs wk → poolOf c ∉ balancedNodePoolsHeld wk → poolBudget (wk_budget wk) c ≠ 0 →
  justified (ConsolidationReplaceMinSavings opts) [c] cmd →
  visit_result_ok budget cands (propose sopts evaluator wk c cmd).
Proof.
  intros Hb [Hok Hlen] Hc Hpass Hid Hpool Hleft Hj. unfold propose. destruct (ApproveCommand evaluator cmd) eqn:Ha; cbn [negb]; [|done].
  pose proof (js_candidates _ _ _ Hj) as Hcmd.
  assert (single_command cands cmd) as Hs by (split; [by exists c|done]).
  destruct (MaxConsolidationCommandsPerPass sopts <=? 1) eqn:Hm; destruct_bools.
  - assert (proposals wk = []) as Hnil by (unfold commandLimit in Hlen; destruct (proposals wk); [done|cbn in Hlen; lia]).
    unfold validateOnly. destruct (Validate _ cmd _) as [w [e|cmd']] eqn:Hv; cbn.
    + split; [by eapply walk_ok_same|]. split; [done|by left].
    + split; [by eapply walk_ok_same|]. split; [done|]. right. exists cmd. split_and!; [done|done| |by eexists _, _, _].
      pose proof (hold_together budget cands wk c cmd Hb Hok Hcmd Hid Hpool Hleft) as Ht. by rewrite Hnil in Ht.
  - pose proof (hold_ok budget cands wk c cmd Hb Hok Hs Hcmd Hid Hpool Hleft) as Hheld.
    assert (length (proposals (walkHold wk c cmd)) = S (length (proposals wk))) as Hl by (cbn; rewrite length_app; cbn; lia).
    unfold commandLimit in Hlen. destruct (_ <=? Z.of_nat (length (proposals _))) eqn:Hfull; destruct_bools; cbn [visit_result_ok].
    + split; [done|]. rewrite Hl. unfold commandLimit. split; lia.
    + split; [done|]. unfold commandLimit. lia.
Qed.

Lemma evaluate_ok budget cands wk c fp v :
  nonneg_budget budget → step_ok budget cands wk → c ∈ cands → CanPassThreshold evaluator c = true →
  cd_ProviderID c ∉ claimedProviderIDs wk → poolOf c ∉ balancedNodePoolsHeld wk → poolBudget (wk_budget wk) c ≠ 0 →
  evaluate wk c fp = Some v → visit_result_ok budget cands v.
Proof.
  intros Hb Hok Hc Hpass Hid Hpool Hleft. unfold SingleNode.evaluate. intros ([st result] & Hrun & Heq)%bind_Some.
  apply (inj Some) in Heq as <-. destruct result as [cmd|]; [|by eapply step_ok_same]. case_bool_decide as Hd.
  - destruct (_ && _); by eapply step_ok_same.
  - apply propose_ok; [done|by eapply step_ok_same|done..|]. by eapply within_budget_justified.
Qed.

Lemma visit_ok budget cands wk c v :
  nonneg_budget budget → step_ok budget cands wk → c ∈ cands → visit wk c = Some v → visit_result_ok budget cands v.
Proof.
  intros Hb Hok Hc. unfold SingleNode.visit. case_bool_decide as Hid; [intros [= <-]; by eapply step_ok_same|].
  case_bool_decide as Hpool; [intros [= <-]; by eapply step_ok_same|].
  destruct (poolBudget _ c =? 0) eqn:Hz; [intros [= <-]; by eapply step_ok_same|]. destruct_bools.
  destruct (CanPassThreshold evaluator c) eqn:Hpass; cbn [negb]; [|intros [= <-]; by eapply step_ok_same].
  destruct (fingerprint _ _ _ _) as [fps fp]. destruct (if String.eqb fp "" then _ else _) as [cache unchanged].
  destruct (unchanged && _); [intros [= <-]; by eapply step_ok_same|].
  intros Hrun. eapply evaluate_ok; [done| |done|done| | | |exact Hrun]; [by eapply step_ok_same|done..].
Qed.

Lemma step_ok_end budget cands wk :
  step_ok budget cands wk →
  walk_ok budget cands wk ∧ Z.of_nat (length (proposals wk)) <= commandLimit ∧ (MaxConsolidationCommandsPerPass sopts <= 1 → proposals wk = []).
Proof.
  unfold step_ok, commandLimit. intros [Hok Hlen]. split_and!; [done|lia|]. intros Hm. destruct (proposals wk); [done|]. cbn in Hlen. lia.
Qed.

Lemma walk_sound budget cands timeout todo wk wk' ended :
  nonneg_budget budget → step_ok budget cands wk → (∀ c, c ∈ todo → c ∈ cands) → walk timeout todo wk = Some (wk', ended) →
  match ended with
  | Returned result => returned_ok budget cands result.1
  | _ => walk_ok budget cands wk' ∧ Z.of_nat (length (proposals wk')) <= commandLimit ∧
      (MaxConsolidationCommandsPerPass sopts <= 1 → proposals wk' = [])
  end.
Proof.
  intros Hb. revert wk. induction todo as [|c todo IH]; intros wk Hok Hsub; cbn [SingleNode.walk].
  { intros [= <- <-]. by apply step_ok_end. }
  destruct (timeout <? _); [intros [= <- <-]; by apply step_ok_end|].
  intros (v & Hv & Hrun)%bind_Some. apply (visit_ok budget cands) in Hv; [|done|done|set_solver].
  destruct v as [wk1|wk1|wk1 result]; cbn [visit_result_ok] in Hv.
  - apply (IH wk1); [done|set_solver|done].
  - injection Hrun as <- <-. destruct Hv as (? & ? & ?). split_and!; [done|done|lia].
  - injection Hrun as <- <-. apply Hv.
Qed.
End sound.

(** ** Candidates that leave nothing to do *)

(** The candidate cannot pass the threshold, or an evaluation of it was abandoned,
    found nothing to do or a command that was not approved. *)
Definition judged c : Prop :=
  CanPassThreshold evaluator c = false ∨
  ∃ st st' result, computeWithinCandidateBudget c st = Some (st', result) ∧
    ∀ cmd, result = Some cmd → Decision cmd = NoOpDecision ∨ ApproveCommand evaluator cmd = false.

(** A walk without a reason not to call the cluster consolidated. *)
Definition clear_walk wk : Prop := proposals wk = [] ∧ constrainedByBudgets wk = false ∧ skippedOnNegativeCache wk = false.

Definition next_walk (v : @Visit Q W NI) : option (@Walk Q W NI) := match v with Continue wk | Break wk => Some wk | Return _ _ => None end.

(** Nothing is held yet. *)
Definition untouched budget wk : Prop := wk_budget wk = budget ∧ claimedProviderIDs wk = ∅ ∧ balancedNodePoolsHeld wk = ∅.

Lemma evaluate_clear wk c fp v wk' :
  evaluate wk c fp = Some v → next_walk v = Some wk' → clear_walk wk' →
  v = Continue wk' ∧ clear_walk wk ∧ same_proposals wk wk' ∧ judged c.
Proof.
  unfold SingleNode.evaluate. intros ([st result] & Hrun & Heq)%bind_Some. apply (inj Some) in Heq as <-. intros Hn Hclear.
  assert ((∀ cmd, result = Some cmd → Decision cmd = NoOpDecision ∨ ApproveCommand evaluator cmd = false) → judged c) as Hj
    by (intros Hall; right; by exists (fresh_durability (wk_pass wk)), st, result).
  destruct result as [cmd|]; [|injection Hn as <-; by split_and!; [|..|apply Hj]]. case_bool_decide as Hd.
  { destruct (_ && _); injection Hn as <-; (split_and!; [done|done..|]); apply Hj; intros cmd' [= <-]; by left. }
  unfold propose in Hn |- *. destruct (ApproveCommand evaluator cmd) eqn:Ha; cbn [negb] in Hn |- *.
  2:{ injection Hn as <-. split_and!; [done..|]. apply Hj. intros cmd' [= <-]. by right. }
  exfalso. destruct (_ <=? 1); [unfold validateOnly in Hn; by destruct (Validate _ _ _) as [? []]|].
  destruct (_ <=? Z.of_nat _); injection Hn as <-; destruct Hclear as [Hp _]; cbn in Hp; by destruct (proposals wk).
Qed.

Lemma visit_clear budget wk c v wk' :
  untouched budget wk → visit wk c = Some v → next_walk v = Some wk' → clear_walk wk' →
  v = Continue wk' ∧ clear_walk wk ∧ untouched budget wk' ∧ poolBudget budget c ≠ 0 ∧ judged c.
Proof.
  intros (Hb & Hcl & Hba) Hrun Hn Hclear. unfold SingleNode.visit in Hrun. cbn [walkSeen claimedProviderIDs balancedNodePoolsHeld wk_budget] in Hrun.
  rewrite Hcl, Hba in Hrun. do 2 (rewrite bool_decide_eq_false_2 in Hrun by set_solver). rewrite Hb in Hrun.
  destruct (poolBudget budget c =? 0) eqn:Hz; [injection Hrun as <-; injection Hn as <-; by destruct Hclear as (_ & ? & _)|]. destruct_bools.
  destruct (CanPassThreshold evaluator c) eqn:Hpass; cbn [negb] in Hrun.
  2:{ injection Hrun as <-. injection Hn as <-. split_and!; [done..|by left]. }
  destruct (fingerprint _ _ _ _) as [fps fp]. destruct (if String.eqb fp "" then _ else _) as [cache unchanged].
  destruct (unchanged && _) eqn:Hskip.
  { injection Hrun as <-. injection Hn as <-. destruct Hclear as (_ & _ & Hs). cbn in Hs. by rewrite orb_true_r in Hs. }
  destruct (evaluate_clear _ _ _ _ _ Hrun Hn Hclear) as (-> & (Hp & Hc & Hs) & (_ & Hb' & Hcl' & Hba') & Hj).
  cbn in Hp, Hc, Hs, Hb', Hcl', Hba'. rewrite orb_false_r in Hs. unfold untouched. rewrite Hb', Hcl', Hba'. done.
Qed.

Lemma visit_mono wk c v wk' : visit wk c = Some v → next_walk v = Some wk' → clear_walk wk' → clear_walk wk.
Proof.
  intros Hrun Hn Hclear. unfold SingleNode.visit in Hrun. case_bool_decide; [injection Hrun as <-; by injection Hn as <-|].
  case_bool_decide; [injection Hrun as <-; by injection Hn as <-|].
  destruct (poolBudget _ c =? 0); [injection Hrun as <-; injection Hn as <-; by destruct Hclear as (_ & ? & _)|].
  destruct (negb _); [injection Hrun as <-; by injection Hn as <-|].
  destruct (fingerprint _ _ _ _) as [fps fp]. destruct (if String.eqb fp "" then _ else _) as [cache unchanged].
  destruct (unchanged && _) eqn:Hskip.
  { injection Hrun as <-. injection Hn as <-. destruct Hclear as (_ & _ & Hs). cbn in Hs. by rewrite orb_true_r in Hs. }
  destruct (evaluate_clear _ _ _ _ _ Hrun Hn Hclear) as (_ & (Hp & Hc & Hs) & _). cbn in Hp, Hc, Hs. by rewrite orb_false_r in Hs.
Qed.

Lemma walk_clear budget timeout todo wk wk' :
  untouched budget wk → walk timeout todo wk = Some (wk', Walked) → clear_walk wk' →
  clear_walk wk ∧ ∀ c, c ∈ todo → poolBudget budget c ≠ 0 ∧ judged c.
Proof.
  intros Hu Hrun Hclear.
  assert (∀ todo wk, walk timeout todo wk = Some (wk', Walked) → clear_walk wk) as Hmono.
  { clear -Hclear. induction todo as [|c todo IH]; intros wk Hrun; cbn [SingleNode.walk] in Hrun; [by injection Hrun as ->|].
    destruct (timeout <? _); [done|]. apply bind_Some in Hrun as (v & Hv & Hrun).
    destruct v as [wk1|wk1|]; [eapply visit_mono; [exact Hv|done|by apply IH]|injection Hrun as ->; by eapply visit_mono|done]. }
  split; [by eapply Hmono|]. revert wk Hu Hrun. induction todo as [|c todo IH]; intros wk Hu Hrun; [by intros c ?%not_elem_of_nil|].
  cbn [SingleNode.walk] in Hrun. destruct (timeout <? _); [done|]. apply bind_Some in Hrun as (v & Hv & Hrun).
  destruct v as [wk1|wk1|]; [|injection Hrun as ->; by destruct (visit_clear budget wk c (Break wk') wk' Hu Hv eq_refl Hclear)|done].
  destruct (visit_clear budget wk c (Continue wk1) wk1 Hu Hv eq_refl (Hmono _ _ Hrun)) as (_ & _ & Hu1 & Hleft & Hj).
  intros c' [->|Hin]%elem_of_cons; [done|]. by apply (IH wk1).
Qed.

(** ** Admission *)

(** Commands are validated and started one after the other: each is validated in
    the world that the commands started before it left behind. *)
Inductive admission : W → list (Command Q) → W → Prop :=
  | admission_end w : admission w [] w
  | admission_rejected w cmd delay w1 isValidationError cmds w2 :
      Validate w cmd delay = (w1, NotValidated isValidationError) → admission w1 cmds w2 → admission w cmds w2
  | admission_not_started w cmd delay w1 cmd' w2 :
      Validate w cmd delay = (w1, Validated cmd') → startCommand w1 cmd = (w2, false) → admission w [] w2
  | admission_started w cmd delay w1 cmd' w2 cmds w3 :
      Validate w cmd delay = (w1, Validated cmd') → startCommand w1 cmd = (w2, true) → admission w2 cmds w3 → admission w (cmd :: cmds) w3.

Lemma admit_sound deadline delay attempted st ps st' cmds err :
  admitNext deadline delay attempted st ps = (st', (cmds, err)) → cmds `sublist_of` ps ∧ admission (cs_world st) cmds (cs_world st').
Proof.
  revert delay attempted st st' cmds err. induction ps as [|cmd ps IH]; intros delay attempted st st' cmds err; cbn [admitNext].
  { intros [= <- <- <-]. split; [done|constructor]. }
  destruct (attempted && _); [intros [Hsub Hadm]%IH; split; [by constructor|done]|].
  destruct (Validate _ cmd delay) as [w [[]|cmd']] eqn:Hv.
  - intros [Hsub Hadm]%IH. split; [by constructor|]. by eapply admission_rejected.
  - intros [= <- <- <-]. split; [apply sublist_nil_l|]. eapply admission_rejected; [exact Hv|constructor].
  - destruct (startCommand w cmd) as [w1 []] eqn:Hstart.
    + destruct (admitNext _ _ _ _ _) as [st1 [admitted err1]] eqn:Hrun. intros [= <- <- <-]. apply IH in Hrun as [Hsub Hadm].
      split; [by constructor|]. by eapply admission_started.
    + intros [= <- <- <-]. split; [apply sublist_nil_l|]. by eapply admission_not_started.
Qed.

Lemma sublist_concat {A B} (f : A → list B) (l l' : list A) : l `sublist_of` l' → concat (f <$> l) `sublist_of` concat (f <$> l').
Proof. induction 1; [done| |]; rewrite ?fmap_cons; cbn [concat]; [by apply sublist_app|by apply sublist_inserts_l]. Qed.

Lemma sublist_List_filter {A} (f : A → bool) (l l' : list A) : l `sublist_of` l' → List.filter f l `sublist_of` List.filter f l'.
Proof. induction 1 as [|x|x]; [done| |]; cbn [List.filter]; destruct (f x); [by constructor|done|by constructor|done]. Qed.

Lemma sublist_fmap' {A B} (f : A → B) (l l' : list A) : l `sublist_of` l' → (f <$> l) `sublist_of` (f <$> l').
Proof. induction 1; [done| |]; rewrite ?fmap_cons; by constructor. Qed.

Lemma poolCount_sublist cands cands' pool : cands `sublist_of` cands' → poolCount cands pool <= poolCount cands' pool.
Proof.
  intros Hsub. unfold poolCount, with_key. apply (sublist_List_filter (λ c, bool_decide (cp_Name (cd_NodePool c) = pool))), sublist_length in Hsub. lia.
Qed.

Lemma compatible_sublist budget cmds ps : compatible_commands budget ps → cmds `sublist_of` ps → compatible_commands budget cmds.
Proof.
  intros [Hd Hb Hbal] Hsub. apply (sublist_concat cmd_Candidates) in Hsub. fold (heldCandidates cmds) (heldCandidates ps) in Hsub. split.
  - eapply sublist_NoDup; [exact Hd|]. by apply sublist_fmap'.
  - intros pool. etransitivity; [by apply poolCount_sublist|apply Hb].
  - intros pool. etransitivity; [by apply poolCount_sublist, sublist_List_filter|apply Hbal].
Qed.

Lemma Forall_sublist' {A} (P : A → Prop) (l l' : list A) : Forall P l' → l `sublist_of` l' → Forall P l.
Proof. rewrite !Forall_forall. intros Hall Hsub x Hx. apply Hall. by eapply elem_of_sublist. Qed.

Lemma compatible_nil budget : nonneg_budget budget → compatible_commands budget [].
Proof. intros Hb. split; [constructor|intros pool; apply Hb|intros pool; change (poolCount (List.filter isBalanced (heldCandidates [])) pool) with 0; lia]. Qed.

(** ** A pass *)

(** How a walk that did not return ends the pass. *)
Definition pass_end ss ss' (result : SingleCommands) wk (ended : @WalkEnd Q NI) : Prop :=
  match ended, proposals wk with
  | Returned r, _ => result = r ∧ lastConsolidationState (ss_method ss') = lastConsolidationState (ss_method ss)
  | _, [] => result = ([], false) ∧
      (lastConsolidationState (ss_method ss') ≠ lastConsolidationState (ss_method ss) → ended = Walked ∧ clear_walk wk)
  | _, ps => (∃ st, admitProposals (wk_pass wk) ps = (st, result)) ∧
      lastConsolidationState (ss_method ss') = lastConsolidationState (ss_method ss)
  end.

Lemma walk_of_run budget cands ss ss' result :
  nonneg_budget budget → ComputeSingleCommands overrideKey rand opts sopts advisor evaluator budget cands ss = Some (ss', result) →
  result = ([], false) ∧ lastConsolidationState (ss_method ss') = lastConsolidationState (ss_method ss) ∨
  ∃ sorted timeout wk wk' ended, sorted ≡ₚ cands ∧ step_ok budget cands wk ∧ untouched budget wk ∧
    walk timeout sorted wk = Some (wk', ended) ∧ pass_end ss ss' result wk' ended.
Proof.
  intros Hb. unfold ComputeSingleCommands, IsConsolidated. destruct (ConsolidationStateOf _) as [w now].
  destruct (_ =? now); [intros [= <- <-]; by left|]. pose proof (SortCandidates_perm ss cands) as Hperm.
  destruct (SortCandidates ss cands) as [evaluated sorted]. cbn [snd] in Hperm. intros ([wk' ended] & Hwalk & Hres)%bind_Some.
  right. eexists sorted, _, _, wk', ended. split_and!; [done| |..|exact Hwalk|].
  - split; [|unfold commandLimit; cbn [proposals length]; lia]. split; cbn [proposals wk_budget claimedProviderIDs balancedNodePoolsHeld]; [constructor|by apply compatible_nil| |set_solver|set_solver|set_solver|set_solver].
    intros pool. change (poolCount (heldCandidates []) pool) with 0. lia.
  - done.
  - unfold pass_end, clear_walk. apply (inj Some) in Hres. destruct ended as [| |r]; [| |by injection Hres as <- <-]; destruct (proposals wk') as [|p ps].
    + injection Hres as <- <-. split; [done|]. destruct (constrainedByBudgets wk'), (skippedOnNegativeCache wk'); done.
    + destruct (admitProposals _ _) as [st [admitted err]]. injection Hres as <- <-. split; [by exists st|]. done.
    + by injection Hres as <- <-.
    + destruct (admitProposals _ _) as [st [admitted err]]. injection Hres as <- <-. split; [by exists st|]. done.
Qed.

(** C15. What single-node consolidation does is justified.  Every command of a pass
    removes one candidate; a simulation placed the pods of it with replacements
    that cost less, and the command is approved.  The commands of a pass remove
    distinct nodes, of each pool no more than the budget allows, and at most one
    of each balanced pool; there are no more of them than configured.  A single
    command was validated after the delay, several were validated and started
    one after the other, each in the world the ones before left behind. *)
Theorem single_commands_sound budget cands ss ss' cmds err (Hb : nonneg_budget budget)
    (Hsim : sound_simulation) (Hcap : 1 <= SpotToSpotMinInstanceTypes opts)
    (Hrun : ComputeSingleCommands overrideKey rand opts sopts advisor evaluator budget cands ss = Some (ss', (cmds, err))) :
  Forall (single_command cands) cmds ∧ compatible_commands budget cmds ∧ Z.of_nat (length cmds) <= commandLimit ∧
  (MaxConsolidationCommandsPerPass sopts <= 1 → ∀ cmd, cmd ∈ cmds → ∃ w w' cmd', Validate w cmd commandValidationDelay = (w', Validated cmd')) ∧
  (1 < MaxConsolidationCommandsPerPass sopts → ∃ w w', admission w cmds w').
Proof.
  assert (cmds = [] → Forall (single_command cands) cmds ∧ compatible_commands budget cmds ∧ Z.of_nat (length cmds) <= commandLimit ∧
    (MaxConsolidationCommandsPerPass sopts <= 1 → ∀ cmd, cmd ∈ cmds → ∃ w w' cmd', Validate w cmd commandValidationDelay = (w', Validated cmd')) ∧
    (1 < MaxConsolidationCommandsPerPass sopts → ∃ w w', admission w cmds w')) as Hnone.
  { intros ->. split_and!; [constructor|by apply compatible_nil|unfold commandLimit; cbn [length]; lia|by intros _ cmd ?%not_elem_of_nil|].
    intros _. eexists (cs_world (ms_pass (ss_method ss))), _. constructor. }
  destruct (walk_of_run _ _ _ _ _ Hb Hrun) as [[Hres _]|(sorted & timeout & wk & wk' & ended & Hperm & Hok & _ & Hwalk & Hres)].
  { injection Hres as -> _. by apply Hnone. }
  apply (walk_sound Hsim Hcap budget cands) in Hwalk; [|done|done|intros c; by rewrite Hperm]. unfold pass_end in Hres.
  destruct ended as [| |result].
  3:{ destruct Hres as [<- _]. cbn [fst] in Hwalk. destruct Hwalk as [Hm [->|(cmd & -> & Hs & Hc & Hv)]]; [by apply Hnone|].
      split_and!; [by constructor|done|unfold commandLimit; cbn [length]; lia| |lia]. intros _ cmd' ->%list_elem_of_singleton. done. }
  all: destruct Hwalk as ([Heach Htog _ _ _ _ _] & Hlen & Hone); destruct (proposals wk') as [|p ps] eqn:Hps;
    [destruct Hres as [[= -> _] _]; by apply Hnone|].
  all: destruct Hres as [[st Hadm] _]; apply admit_sound in Hadm as [Hsub Hadm]; split_and!;
    [by eapply Forall_sublist'|by eapply compatible_sublist|apply sublist_length in Hsub; lia|intros Hm; by specialize (Hone Hm)|by eexists _, _].
Qed.

(** When a pass calls the cluster consolidated.  A pass remembers the state of
    the cluster as consolidated only when it returns neither a command nor an
    error, no candidate was kept out by a budget or skipped because of a cached
    result, and every candidate was judged: it cannot reach the threshold of its
    pool, or its evaluation was abandoned or ended without an approved command. *)
Theorem single_marks_consolidated budget cands ss ss' cmds err (Hb : nonneg_budget budget)
    (Hrun : ComputeSingleCommands overrideKey rand opts sopts advisor evaluator budget cands ss = Some (ss', (cmds, err)))
    (Hmarked : lastConsolidationState (ss_method ss') ≠ lastConsolidationState (ss_method ss)) :
  cmds = [] ∧ err = false ∧ ∀ c, c ∈ cands → poolBudget budget c ≠ 0 ∧ judged c.
Proof.
  destruct (walk_of_run _ _ _ _ _ Hb Hrun) as [[_ Hlast]|(sorted & timeout & wk & wk' & ended & Hperm & _ & Hu & Hwalk & Hres)]; [done|].
  unfold pass_end in Hres. destruct ended as [| |r]; [| |by destruct Hres]; destruct (proposals wk') eqn:Hps; [|by destruct Hres| |by destruct Hres];
    destruct Hres as [[= -> ->] Hlast]; destruct (Hlast Hmarked) as [Hend Hclear]; [|done].
  split_and!; [done|done|]. destruct (walk_clear budget timeout sorted wk wk' Hu Hwalk Hclear) as [_ Hall]. intros c Hc. apply Hall. by rewrite Hperm.
Qed.
End walk_theory.

(** * Witnesses *)

Section witnesses.
#[local] Existing Instance karpenterLabels.
#[local] Existing Instance karpenterLabels_ok.
#[local] Existing Instance stable_GoSort.
#[local] Existing Instance map_to_list_GoRange.
#[local] Existing Instance exampleProvider.
#[local] Existing Instance textIP.
#[local] Existing Instance plainNumbers.
#[local] Existing Instance threeFit.
#[local] Existing Instance trusting.

(** A world without other commands in which evaluations are in time. *)
#[local] Instance quiet : SingleWorld Z Z := {|
  versionsOf _ := versionsA [];
  revisionProviderOf _ := sevens;
  listManaged _ := Some [poolA];
  candidateExpired _ := false;
  completedCommandCount _ := 0;
  startCommand w _ := (w, true);
|}.

Definition threeCommands : SingleOptions := mkSingleOptions 3 true 300 10 0.

Definition freshState : SingleState Z := mkSingleState (mkMethodState (mkConsolidationState 20 None false) 0) ∅ ∅ ∅ 0.

Definition singleRun : SingleState Z * SingleCommands :=
  default (freshState, ([], true)) (ComputeSingleCommands noOverride (λ _, 0) plainOptions threeCommands None None poolOfTwo fiveNodes freshState).

Lemma single_commands_sound_witness :
  outline singleRun.2.1 = [(["a"], ["small"; "large"]); (["b"], ["small"; "large"])]%string ∧
  compatible_commands poolOfTwo singleRun.2.1 ∧ ∃ w w', admission w singleRun.2.1 w'.
Proof.
  split; [vm_compute; reflexivity|].
  destruct (@single_commands_sound _ _ _ exampleLabels _ _ _ _ _ _ _ _ _ _ noOverride (λ _, 0) plainOptions threeCommands None None
    poolOfTwo fiveNodes freshState singleRun.1 singleRun.2.1 singleRun.2.2) as (_ & Hc & _ & _ & Hadm).
  - apply poolOfTwo_nonneg.
  - apply threeFit_sound.
  - vm_compute. discriminate.
  - vm_compute. reflexivity.
  - split; [exact Hc|]. apply Hadm. vm_compute. reflexivity.
Defined.

(** A world in which the time of every evaluation runs out. *)
Definition hurried : SingleWorld Z Z := {|
  versionsOf _ := versionsA [];
  revisionProviderOf _ := sevens;
  listManaged _ := Some [poolA];
  candidateExpired _ := true;
  completedCommandCount _ := 0;
  startCommand w _ := (w, true);
|}.

Definition hurriedRun : SingleState Z * SingleCommands :=
  default (freshState, ([], true)) (ComputeSingleCommands (SW := hurried) noOverride (λ _, 0) plainOptions threeCommands None None poolOfTwo fiveNodes freshState).

(** A pass that abandoned every evaluation remembers the cluster as consolidated. *)
Lemma abandoned_is_consolidated :
  lastConsolidationState (ss_method hurriedRun.1) = 7 ∧ hurriedRun.2 = ([], false) ∧ outline singleRun.2.1 ≠ [].
Proof. vm_compute. done. Qed.

Lemma single_marks_consolidated_witness :
  lastConsolidationState (ss_method hurriedRun.1) = 7 ∧ hurriedRun.2.1 = [] ∧
  ∀ c, c ∈ fiveNodes → judged (SW := hurried) noOverride (λ _, 0) plainOptions threeCommands None None c.
Proof.
  split; [vm_compute; reflexivity|].
  destruct (@single_marks_consolidated _ _ _ exampleLabels _ _ _ _ _ _ _ _ _ hurried noOverride (λ _, 0) plainOptions threeCommands None None
    poolOfTwo fiveNodes freshState hurriedRun.1 hurriedRun.2.1 hurriedRun.2.2) as (Hcmds & _ & Hall).
  - apply poolOfTwo_nonneg.
  - vm_compute. reflexivity.
  - vm_compute. discriminate.
  - split; [exact Hcmds|]. intros c Hc. apply (Hall c Hc).
Defined.

Definition resumedState : SingleState Z :=
  mkSingleState (mkMethodState (mkConsolidationState 20 None false) 0) ∅ {["a"; "c"; "gone"]}%string ∅ 0.

Lemma SortCandidates_resumes_witness :
  cd_Name <$> (SortCandidates resumedState fiveNodes).2 = ["b"; "d"; "e"; "a"; "c"]%string ∧
  (SortCandidates resumedState fiveNodes).2 ≡ₚ fiveNodes ∧ (SortCandidates resumedState fiveNodes).1 = {["a"; "c"]}%string.
Proof.
  split; [vm_compute; reflexivity|].
  destruct (SortCandidates_resumes resumedState fiveNodes (SortCandidates resumedState fiveNodes).1 (SortCandidates resumedState fiveNodes).2)
    as (Hperm & _ & _ & Hset).
  - apply (bool_decide_unpack _). vm_compute. exact I.
  - vm_compute. reflexivity.
  - split; [exact Hperm|]. rewrite (Hset (largeNode "b")); [vm_compute; reflexivity| |].
    + do 1 right. left.
    + apply (bool_decide_unpack _). vm_compute. exact I.
Defined.
End witnesses.
