(* ===== verification/Pdb.v ===== *)
(** * Pod disruption budgets

    Model of [pkg/utils/pdb/pdb.go] and of the checks on the pods of a node in
    [pkg/controllers/state/statenode.go] and [pkg/utils/node/node.go].  The
    conversion of a label selector is that of the Kubernetes library, a class;
    selectors are written as strings.  Lists read from the API server are
    arguments, [None] an error. *)

From S2P Require Import Prelude Float64 Requirement Kube Taints HostPorts Volumes PodUtils StateNode.

Class SelectorLib := {
  LabelSelectorAsSelector : string → option (gmap string string → bool);    (* metav1.LabelSelectorAsSelector, then Matches *)
}.

Inductive IntOrString := IntVal (value : Z) | StrVal (value : string).

#[export] Instance IntOrString_eq_dec : EqDecision IntOrString.
Proof. solve_decision. Defined.

(** The fields of a [policyv1.PodDisruptionBudget] that are read. *)
Record PodDisruptionBudget := mkPodDisruptionBudget {
  pdb_Namespace : string;
  pdb_Name : string;
  pdb_Selector : string;
  pdb_MaxUnavailable : option IntOrString;
  pdb_MinAvailable : option IntOrString;
  pdb_UnhealthyPodEvictionPolicy : option string;
  pdb_DisruptionsAllowed : Z;
}.

Record pdbItem := mkPdbItem {
  pi_key : NamespacedName;
  pi_selector : gmap string string → bool;
  disruptionsAllowed : Z;
  isFullyBlocking : bool;
  canAlwaysEvictUnhealthyPods : bool;
}.

Inductive evictionBlocker := zeroDisruptions | fullyBlockingPDBs.

Section pdb.
Context {TL : TaintLib} {PS : Parsers} {SL : SelectorLib}.
Implicit Types (pod : Pod) (now : Z) (item : pdbItem) (l : list pdbItem).

Definition newPdb (pdb : PodDisruptionBudget) : option pdbItem :=
  selector ← LabelSelectorAsSelector (pdb_Selector pdb);
  Some (mkPdbItem (pdb_Namespace pdb, pdb_Name pdb) selector (pdb_DisruptionsAllowed pdb)
    (bool_decide (pdb_MaxUnavailable pdb = Some (IntVal 0)) || bool_decide (pdb_MaxUnavailable pdb = Some (StrVal "0%")) ||
     bool_decide (pdb_MinAvailable pdb = Some (StrVal "100%")))
    (bool_decide (pdb_UnhealthyPodEvictionPolicy pdb = Some "AlwaysAllow"%string))).

(** [NewLimits] of the listed budgets *)
Definition NewLimits (listed : option (list PodDisruptionBudget)) : option (list pdbItem) := pdbs ← listed; mapM newPdb pdbs.

Definition matchesPod pod item : bool := String.eqb (pi_key item).1 (pod_Namespace pod) && pi_selector item (pod_Labels pod).

Definition notReady pod : bool :=
  existsb (λ c, String.eqb (pc_Type c) "Ready" && String.eqb (pc_Status c) "False") (pod_Conditions pod).

Fixpoint allowedBy (blocker : evictionBlocker) pod l : list NamespacedName * bool :=
  match l with
  | [] => ([], true)
  | item :: l =>
      if canAlwaysEvictUnhealthyPods item && notReady pod then ([], true)
      else if (match blocker with zeroDisruptions => disruptionsAllowed item =? 0 | fullyBlockingPDBs => isFullyBlocking item end)
      then ([pi_key item], false)
      else allowedBy blocker pod l
  end.

(** The budgets in the way, if any, and whether the pod is evictable. *)
Definition isEvictable l pod now (blocker : evictionBlocker) : list NamespacedName * bool :=
  if negb (IsEvictable pod now) then ([], true)
  else
    let matchingPDBs := List.filter (matchesPod pod) l in
    if (1 <? length matchingPDBs)%nat then (pi_key <$> matchingPDBs, false)
    else allowedBy blocker pod matchingPDBs.

Fixpoint CanEvictPods l (pods : list Pod) now : list NamespacedName * bool :=
  match pods with
  | [] => ([], true)
  | pod :: pods =>
      match isEvictable l pod now zeroDisruptions with
      | (pdbs, false) => (pdbs, false)
      | _ => CanEvictPods l pods now
      end
  end.

Definition isFullyBlocked l pod now : list NamespacedName * bool :=
  match isEvictable l pod now fullyBlockingPDBs with
  | (pdbs, false) => (pdbs, true)
  | _ => ([], false)
  end.

Definition IsCurrentlyReschedulable l pod now : bool :=
  IsReschedulable pod && IsDisruptable pod now && negb (isFullyBlocked l pod now).2.

(** ** The pods of a node *)

Inductive PodsError := PodsNotRead | PodBlocksEviction.

Section nodes.
(** The pods bound to the node of this name. *)
Context {Q : Type} {NI : NetIP} (podsOn : string → option (list Pod)).
Implicit Types (n : StateNode Q).

(** [StateNode.Pods] *)
Definition Pods n : option (list Pod) :=
  match sn_Node n with None => Some [] | Some node => podsOn (n_Name node) end.

(** [ValidatePodsDisruptable]: the pods, and the error if there is one. *)
Definition ValidatePodsDisruptable n l now : list Pod * option PodsError :=
  match Pods n with
  | None => ([], Some PodsNotRead)
  | Some pods =>
      if negb (forallb (λ po, IsDisruptable po now) pods) then (pods, Some PodBlocksEviction)
      else if negb (CanEvictPods l pods now).2 then (pods, Some PodBlocksEviction)
      else (pods, None)
  end.

(** [StateNode.CurrentlyReschedulablePods], which lists the budgets itself *)
Definition CurrentlyReschedulablePods n (listed : option (list PodDisruptionBudget)) now : option (list Pod) :=
  match sn_Node n with
  | None => Some []
  | Some node =>
      pods ← podsOn (n_Name node);
      l ← NewLimits listed;
      Some (List.filter (λ p, IsCurrentlyReschedulable l p now) pods)
  end.

(** [StateNodes.CurrentlyReschedulablePods] *)
Definition nodesReschedulablePods (ns : list (StateNode Q)) (listed : option (list PodDisruptionBudget)) now : option (list Pod) :=
  @concat Pod <$> mapM (λ n, CurrentlyReschedulablePods n listed now) ns.
End nodes.
End pdb.

(** * Theory *)

Section pdb_theory.
Context {TL : TaintLib} {PS : Parsers} {SL : SelectorLib}.
Implicit Types (pod : Pod) (now : Z) (item : pdbItem) (l : list pdbItem).

(** No budget keeps the pod from being evicted now. *)
Definition unhindered (blocks : pdbItem → bool) l pod now : Prop :=
  IsEvictable pod now = true →
  (length (List.filter (matchesPod pod) l) <= 1)%nat ∧
  ∀ item, item ∈ l → matchesPod pod item = true → canAlwaysEvictUnhealthyPods item = true ∧ notReady pod = true ∨ blocks item = false.

Definition blocksNow (blocker : evictionBlocker) item : bool :=
  match blocker with zeroDisruptions => disruptionsAllowed item =? 0 | fullyBlockingPDBs => isFullyBlocking item end.

Lemma isEvictable_exact l pod now blocker : (isEvictable l pod now blocker).2 = true ↔ unhindered (blocksNow blocker) l pod now.
Proof.
  unfold isEvictable, unhindered. destruct (IsEvictable pod now); cbn [negb]; [|done].
  assert (∀ item, item ∈ List.filter (matchesPod pod) l ↔ item ∈ l ∧ matchesPod pod item = true) as Hin
    by (intros item; by rewrite !list_elem_of_In, filter_In).
  destruct (List.filter (matchesPod pod) l) as [|item [|item' rest]]; cbn [length Nat.ltb Nat.leb allowedBy snd].
  - split; [intros _ _|done]. split; [lia|]. intros item Hi Hm. destruct (not_elem_of_nil item (proj2 (Hin item) (conj Hi Hm))).
  - fold (blocksNow blocker item). assert (item ∈ l ∧ matchesPod pod item = true) as [Hi Hm] by (apply Hin; left).
    assert (∀ x, x ∈ l → matchesPod pod x = true → x = item) as Honly
      by (intros x Hx Hmx; assert (x ∈ [item]) as Hx' by (by apply Hin); by apply list_elem_of_singleton in Hx').
    destruct (canAlwaysEvictUnhealthyPods item && notReady pod) eqn:Hun; cbn [snd].
    + apply andb_true_iff in Hun. split; [|done]. intros _ _. split; [lia|]. intros x Hx Hmx. left. by rewrite (Honly x Hx Hmx).
    + destruct (blocksNow blocker item) eqn:Hb; cbn [snd].
      * split; [done|]. intros Hall. destruct (Hall eq_refl) as [_ Hall']. destruct (Hall' item Hi Hm) as [[Hc Hr]|Hno]; [by rewrite Hc, Hr in Hun|congruence].
      * split; [|done]. intros _ _. split; [lia|]. intros x Hx Hmx. right. by rewrite (Honly x Hx Hmx).
  - split; [done|]. intros Hall. destruct (Hall eq_refl) as [Hone _]. lia.
Qed.

Lemma CanEvictPods_exact l pods now :
  (CanEvictPods l pods now).2 = true ↔ ∀ pod, pod ∈ pods → unhindered (blocksNow zeroDisruptions) l pod now.
Proof.
  induction pods as [|pod pods IH]; cbn [CanEvictPods]; [split; [by intros _ pod ?%not_elem_of_nil|done]|].
  pose proof (isEvictable_exact l pod now zeroDisruptions) as Hp. destruct (isEvictable l pod now zeroDisruptions) as [pdbs []]; cbn [snd] in *.
  - rewrite IH. split; [intros Hall p [->|Hin]%elem_of_cons; [by apply Hp|by apply Hall]|intros Hall p Hin; apply Hall; by right].
  - split; [done|]. intros Hall. exfalso. assert (false = true) as Hf; [|done]. apply Hp, Hall. left.
Qed.

(** A pod is given new capacity when its node goes exactly when it will be
    evicted: it is reschedulable, no active annotation protects it, and no
    budget of its namespace that selects it forbids all disruptions for good (an
    unready pod may be evicted whatever the budget when that is its policy, and
    two budgets on one pod always block it). *)
Theorem IsCurrentlyReschedulable_exact l pod now :
  IsCurrentlyReschedulable l pod now = true ↔
  IsReschedulable pod = true ∧ IsDisruptable pod now = true ∧ unhindered isFullyBlocking l pod now.
Proof.
  unfold IsCurrentlyReschedulable, isFullyBlocked. rewrite !andb_true_iff, negb_true_iff.
  pose proof (isEvictable_exact l pod now fullyBlockingPDBs) as Hp. change (blocksNow fullyBlockingPDBs) with isFullyBlocking in Hp.
  destruct (isEvictable l pod now fullyBlockingPDBs) as [pdbs []]; cbn [snd] in *; [tauto|].
  split; [by intros [_ ?]|]. intros (_ & _ & Hu). apply Hp in Hu. done.
Qed.

Lemma ValidatePodsDisruptable_exact {Q} {NI : NetIP} (podsOn : string → option (list Pod)) (n : StateNode Q) l now pods :
  ValidatePodsDisruptable podsOn n l now = (pods, None) ↔
  Pods podsOn n = Some pods ∧ ∀ pod, pod ∈ pods → IsDisruptable pod now = true ∧ unhindered (blocksNow zeroDisruptions) l pod now.
Proof.
  unfold ValidatePodsDisruptable. destruct (Pods podsOn n) as [ps|]; [|split; [done|by intros [? _]]].
  assert (forallb (λ po, IsDisruptable po now) ps = true ↔ ∀ pod, pod ∈ ps → IsDisruptable pod now = true) as Hd.
  { rewrite forallb_forall. by setoid_rewrite list_elem_of_In. }
  pose proof (CanEvictPods_exact l ps now) as He.
  destruct (forallb _ ps); cbn [negb]; [|split; [done|]; intros [[= <-] Hall]; assert (false = true) as Hf; [|done]; apply Hd; intros pod Hin; by apply Hall].
  destruct (CanEvictPods l ps now) as [keys []]; cbn [negb snd] in *.
  - split; [intros [= <-]|intros [[= <-] _]; done]. split; [done|]. intros pod Hin. split; [by apply Hd|by apply He].
  - split; [done|]. intros [[= <-] Hall]. assert (false = true) as Hf; [|done]. apply He. intros pod Hin. by apply Hall.
Qed.
End pdb_theory.
