(* ===== verification/Candidates.v ===== *)
(** * The candidates of disruption

    Model of [NewCandidate] in [pkg/controllers/disruption/types.go] and of
    [GetCandidatesWithTotals] and [BuildNodePoolMap] in
    [pkg/controllers/disruption/helpers.go]: which cached nodes may be disrupted.
    Reads of the API server and the cloud provider are arguments.  [None] is a
    panic. *)

From Stdlib Require Import SpecFloat.
From S2P Require Import Prelude Float64 Requirement Kube Taints HostPorts Volumes Requirements Resources InstanceTypes PodUtils StateNode NodeClaim Packing Replacements Consolidation Cost Balanced NodePoolState Cluster ClusterInv DisruptionQueue Pdb.

Inductive DisruptionClass := GracefulDisruptionClass | EventualDisruptionClass.

#[export] Instance DisruptionClass_eq_dec : EqDecision DisruptionClass.
Proof. solve_decision. Defined.

Inductive CandidateError := AlreadyDisrupted | NodeBlocked (block : DisruptionBlock) | NodePoolNotFound | PodsBlocked (err : PodsError).

Definition ConditionTypeConsolidatable : string := "Consolidatable".

Section candidates.
Context {LT : LabelTables} {PL : ProviderLabels} {GR : GoRange} {TL : TaintLib} {PS : Parsers} {SL : SelectorLib} {Q : Type} `{Quantity Q} {NI : NetIP}
  (rand : Z → Z) (podsOn : string → option (list Pod)).
Implicit Types (c : Candidate Q) (n : StateNode Q) (l : list pdbItem) (now : Z) (np : CandidatePool) (q : Queue).

(** ** The node pools *)

Definition indexTypes (its : list (InstanceType Q)) : gmap string (InstanceType Q) := foldl (λ m it, <[it_Name it := it]> m) ∅ its.

(** [BuildNodePoolMap]: pools whose instance types cannot be listed or are none
    have no instance types. *)
Definition BuildNodePoolMap (nodePools : option (list CandidatePool)) (GetInstanceTypes : CandidatePool → option (list (InstanceType Q)))
    : option (gmap string CandidatePool * gmap string (gmap string (InstanceType Q))) :=
  nps ← nodePools;
  Some (foldl (λ maps np,
    (<[cp_Name np := np]> maps.1,
     match GetInstanceTypes np with
     | None | Some [] => maps.2
     | Some its => <[cp_Name np := indexTypes its]> maps.2
     end)) (∅, ∅) nps).

(** ** One node *)

(** Whether this outcome of the check of the pods keeps the node from being a
    candidate. *)
Definition podsBlock (claim : NodeClaim Q) (class : DisruptionClass) (err : option PodsError) : option PodsError :=
  match err with
  | None => None
  | Some PodsNotRead => Some PodsNotRead
  | Some PodBlocksEviction =>
      if bool_decide (is_Some (nc_TerminationGracePeriod claim)) && bool_decide (class = EventualDisruptionClass) then None
      else Some PodBlocksEviction
  end.

Definition NewCandidate now n l (nodePoolMap : gmap string CandidatePool) (types : gmap string (gmap string (InstanceType Q))) q
    (class : DisruptionClass) : option (CandidateError + Candidate Q) :=
  id ← ProviderID n;
  if HasAny q [id] then Some (inl AlreadyDisrupted)
  else
    match ValidateNodeDisruptable n now with
    | Some block => Some (inl (NodeBlocked block))
    | None =>
        labels ← Labels n;
        claim ← sn_NodeClaim n;
        name ← Name n;
        let label key := default ""%string (labels !! key) in
        match nodePoolMap !! label NodePoolLabelKey, types !! label NodePoolLabelKey with
        | Some nodePool, Some instanceTypeMap =>
            let instanceType := instanceTypeMap !! label LabelInstanceTypeStable in
            let '(pods, err) := ValidatePodsDisruptable podsOn n l now in
            match podsBlock claim class err with
            | Some err => Some (inl (PodsBlocked err))
            | None =>
                let reschedulable := List.filter IsReschedulable pods in
                price ← resolveNodePrice rand labels instanceType;
                Some (inr (mkCandidate name id labels instanceType nodePool (label CapacityTypeLabelKey) (nc_CreationTimestamp claim)
                  (conditionTrue (nc_Conditions claim) ConditionTypeConsolidatable) reschedulable price
                  (computeRescheduleDisruptionCost reschedulable)))
            end
        | _, _ => Some (inl NodePoolNotFound)
        end
    end.

(** ** All nodes *)

(** [DeepCopyNodes] *)
Definition DeepCopyNodes (cl : Cluster Q) : list (StateNode Q) := (gorange (nodes cl)).*2.

Definition accepted (r : CandidateError + Candidate Q) : option (Candidate Q) := match r with inl _ => None | inr c => Some c end.

(** [inl] is an error of a read. *)
Definition GetCandidatesWithTotals now (cl : Cluster Q) (shouldDisrupt : Candidate Q → bool) (class : DisruptionClass) q
    (clusterCost : option ClusterCost) (nodePools : option (list CandidatePool)) (GetInstanceTypes : CandidatePool → option (list (InstanceType Q)))
    (pdbs : option (list PodDisruptionBudget)) : option (() + (list (Candidate Q) * gmap string NodePoolTotals)) :=
  match BuildNodePoolMap nodePools GetInstanceTypes, NewLimits pdbs with
  | Some (nodePoolMap, types), Some l =>
      let allNodes := DeepCopyNodes cl in
      results ← mapM (λ n, NewCandidate now n l nodePoolMap types q class) allNodes;
      let allCandidates := omap accepted results in
      totals ← computeNodePoolTotals allCandidates allNodes clusterCost;
      Some (inr (List.filter shouldDisrupt allCandidates, totals))
  | _, _ => Some (inl ())
  end.
End candidates.

(** * Theory *)

Section candidates_theory.
Context {LT : LabelTables} {PL : ProviderLabels} {GR : GoRange} {TL : TaintLib} {PS : Parsers} {SL : SelectorLib} {Q : Type} `{Quantity Q} {NI : NetIP}
  (rand : Z → Z) (podsOn : string → option (list Pod)).
Implicit Types (c : Candidate Q) (n : StateNode Q) (l : list pdbItem) (now : Z) (q : Queue) (class : DisruptionClass).
#[local] Abbreviation NewCandidate := (NewCandidate rand podsOn).

(** The node may be disrupted: it is in no command, its state allows it, its pool
    is known, and its pods can be evicted, unless the class and the grace period
    of its NodeClaim bound how long they can hold it. *)
Definition may_be_candidate now n l (pools : gmap string CandidatePool) (types : gmap string (gmap string (InstanceType Q))) q class : Prop :=
  ∃ id labels claim pods, ProviderID n = Some id ∧ HasAny q [id] = false ∧ ValidateNodeDisruptable n now = None ∧
    Labels n = Some labels ∧ sn_NodeClaim n = Some claim ∧
    is_Some (pools !! default ""%string (labels !! NodePoolLabelKey)) ∧ is_Some (types !! default ""%string (labels !! NodePoolLabelKey)) ∧
    Pods podsOn n = Some pods ∧
    ((∀ pod, pod ∈ pods → IsDisruptable pod now = true ∧ unhindered (blocksNow zeroDisruptions) l pod now) ∨
     is_Some (nc_TerminationGracePeriod claim) ∧ class = EventualDisruptionClass).

Lemma ValidatePods_pods n l now pods : Pods podsOn n = Some pods → (ValidatePodsDisruptable podsOn n l now).1 = pods.
Proof. unfold ValidatePodsDisruptable. intros ->. destruct (negb _); [done|]. by destruct (negb _). Qed.

Lemma ValidatePods_spec n l now (claim : NodeClaim Q) class :
  podsBlock claim class (ValidatePodsDisruptable podsOn n l now).2 = None ↔
  Pods podsOn n = Some (ValidatePodsDisruptable podsOn n l now).1 ∧
  ((∀ pod, pod ∈ (ValidatePodsDisruptable podsOn n l now).1 → IsDisruptable pod now = true ∧ unhindered (blocksNow zeroDisruptions) l pod now) ∨
   is_Some (nc_TerminationGracePeriod claim) ∧ class = EventualDisruptionClass).
Proof.
  pose proof (ValidatePodsDisruptable_exact podsOn n l now) as Hex.
  destruct (ValidatePodsDisruptable podsOn n l now) as [pods err] eqn:Hv. cbn [fst snd].
  assert (err ≠ Some PodsNotRead → Pods podsOn n = Some pods) as Hread.
  { unfold ValidatePodsDisruptable in Hv. destruct (Pods podsOn n) as [ps|]; [|by injection Hv as <- <-].
    intros _. destruct (negb _); [by injection Hv as <- <-|]. destruct (negb _); by injection Hv as <- <-. }
  assert (err = Some PodsNotRead → Pods podsOn n = None) as Hunread.
  { intros ->. unfold ValidatePodsDisruptable in Hv. destruct (Pods podsOn n) as [ps|]; [|done].
    destruct (negb _); [done|]. destruct (negb _); done. }
  destruct err as [[]|]; cbn [podsBlock].
  - split; [done|]. intros [Hp _]. rewrite Hunread in Hp; done.
  - specialize (Hread ltac:(done)). case_bool_decide as Ht; [case_bool_decide as Hc|]; cbn [andb].
    { split; [split; [done|by right]|done]. }
    all: split; [done|]; intros [_ [Hall|[? ?]]]; [|done]; destruct (Hex pods) as [_ Hback]; specialize (Hback (conj Hread Hall)); congruence.
  - split; [|done]. intros _. split; [by apply Hread|]. left. by apply Hex.
Qed.

Lemma NewCandidate_eligible now n l pools types q class r :
  NewCandidate now n l pools types q class = Some r → (∃ c, r = inr c) ↔ may_be_candidate now n l pools types q class.
Proof.
  unfold Candidates.NewCandidate, may_be_candidate. intros (id & Hid & Hrun)%bind_Some. destruct (HasAny q [id]) eqn:Hq.
  { injection Hrun as <-. split; [by intros []|]. intros (id' & _ & _ & _ & Hid' & Hq' & _). congruence. }
  destruct (ValidateNodeDisruptable n now) as [block|] eqn:Hv.
  { injection Hrun as <-. split; [by intros []|]. by intros (? & ? & ? & ? & _ & _ & ? & _). }
  apply bind_Some in Hrun as (labels & Hlabels & Hrun). apply bind_Some in Hrun as (claim & Hclaim & Hrun). apply bind_Some in Hrun as (name & Hname & Hrun).
  pose proof (ValidatePods_spec n l now claim class) as Hspec. pose proof (ValidatePods_pods n l now) as Hsame.
  destruct (pools !! _) as [pool|] eqn:Hpool.
  2:{ injection Hrun as <-. split; [by intros []|]. intros (? & labels' & ? & ? & _ & _ & _ & Hl & _ & [? Hp] & _). congruence. }
  destruct (types !! _) as [its|] eqn:Htypes.
  2:{ injection Hrun as <-. split; [by intros []|]. intros (? & labels' & ? & ? & _ & _ & _ & Hl & _ & _ & [? Hp] & _). congruence. }
  destruct (ValidatePodsDisruptable podsOn n l now) as [pods err]. cbn [fst snd] in Hspec, Hsame. destruct (podsBlock claim class err) as [e|].
  - injection Hrun as <-. split; [by intros []|]. intros (? & ? & claim' & pods' & _ & _ & _ & _ & Hc & _ & _ & Hp & Hor).
    assert (claim' = claim) as -> by congruence.
    assert (Some e = None) as Hno; [|done]. apply Hspec. rewrite (Hsame pods' Hp). done.
  - apply bind_Some in Hrun as (price & _ & Hrun). injection Hrun as <-. split; [intros _|by eexists].
    destruct (proj1 Hspec eq_refl) as [Hp Hor]. exists id, labels, claim, pods. rewrite Hpool, Htypes. split_and!; done.
Qed.

Lemma NewCandidate_fields now n l pools types q class c :
  NewCandidate now n l pools types q class = Some (inr c) →
  ProviderID n = Some (cd_ProviderID c) ∧ Name n = Some (cd_Name c) ∧ Labels n = Some (cd_Labels c) ∧
  ∃ pods, Pods podsOn n = Some pods ∧ cd_reschedulablePods c = List.filter IsReschedulable pods.
Proof.
  unfold Candidates.NewCandidate. intros (id & Hid & Hrun)%bind_Some. destruct (HasAny q [id]); [done|].
  destruct (ValidateNodeDisruptable n now); [done|].
  apply bind_Some in Hrun as (labels & Hlabels & Hrun). apply bind_Some in Hrun as (claim & Hclaim & Hrun). apply bind_Some in Hrun as (name & Hname & Hrun).
  destruct (pools !! _) as [pool|]; [|done]. destruct (types !! _) as [its|]; [|done].
  pose proof (ValidatePods_spec n l now claim class) as Hspec. destruct (ValidatePodsDisruptable podsOn n l now) as [pods err]. cbn [fst snd] in Hspec.
  destruct (podsBlock claim class err) as [e|]; [done|]. apply bind_Some in Hrun as (price & _ & Hrun). injection Hrun as <-.
  cbn [cd_ProviderID cd_Name cd_Labels cd_reschedulablePods]. split_and!; [done..|]. exists pods. split; [by apply Hspec|done].
Qed.

Lemma candidates_spec now cl (shouldDisrupt : Candidate Q → bool) class q cost nodePools GetInstanceTypes pdbs cands totals
    (Hrun : GetCandidatesWithTotals rand podsOn now cl shouldDisrupt class q cost nodePools GetInstanceTypes pdbs = Some (inr (cands, totals))) :
  ∃ pools types l, BuildNodePoolMap nodePools GetInstanceTypes = Some (pools, types) ∧ NewLimits pdbs = Some l ∧
  (∀ c, c ∈ cands → shouldDisrupt c = true ∧ ∃ key n, nodes cl !! key = Some n ∧ may_be_candidate now n l pools types q class ∧
     ProviderID n = Some (cd_ProviderID c) ∧ Name n = Some (cd_Name c) ∧ Labels n = Some (cd_Labels c) ∧
     ∃ pods, Pods podsOn n = Some pods ∧ cd_reschedulablePods c = List.filter IsReschedulable pods) ∧
  ∀ key n, nodes cl !! key = Some n → may_be_candidate now n l pools types q class →
    ∃ c, NewCandidate now n l pools types q class = Some (inr c) ∧ (shouldDisrupt c = true → c ∈ cands).
Proof.
  unfold GetCandidatesWithTotals in Hrun. destruct (BuildNodePoolMap nodePools GetInstanceTypes) as [[pools types]|]; [|done].
  destruct (NewLimits pdbs) as [l|]; [|done]. apply bind_Some in Hrun as (results & Hall & Hrun). apply bind_Some in Hrun as (t & _ & Hrun).
  injection Hrun as <- <-. exists pools, types, l. split_and!; [done|done| |]; apply mapM_Some in Hall.
  - intros c. rewrite list_elem_of_In, filter_In, <- list_elem_of_In, list_elem_of_omap. intros [(r & Hr & Hacc) Hs]. split; [done|].
    destruct r as [e|c']; [done|]. injection Hacc as ->. apply list_elem_of_lookup in Hr as (i & Hi).
    destruct (Forall2_lookup_r _ _ _ _ _ Hall Hi) as (n & Hn & Hnew). apply list_elem_of_lookup_2 in Hn.
    unfold DeepCopyNodes in Hn. apply list_elem_of_fmap in Hn as ([key n'] & -> & Hn). apply elem_of_gorange in Hn.
    exists key, n'. split; [done|]. split; [by apply (NewCandidate_eligible _ _ _ _ _ _ _ _ Hnew); eexists|]. by eapply NewCandidate_fields.
  - intros key n Hn He. assert (n ∈ DeepCopyNodes cl) as Hin.
    { unfold DeepCopyNodes. apply list_elem_of_fmap. exists (key, n). split; [done|]. by apply elem_of_gorange. }
    apply list_elem_of_lookup in Hin as (i & Hi). destruct (Forall2_lookup_l _ _ _ _ _ Hall Hi) as (r & Hr & Hnew).
    destruct (proj2 (NewCandidate_eligible _ _ _ _ _ _ _ _ Hnew) He) as [c ->]. exists c. split; [done|]. intros Hs.
    rewrite list_elem_of_In, filter_In, <- list_elem_of_In, list_elem_of_omap. split; [|done]. exists (inr c). split; [by eapply list_elem_of_lookup_2|done].
Qed.

(** C13. The candidates are exactly the nodes that may be disrupted.  Each candidate
    is a cached node, and one the method asks for, that no command in flight
    holds, that is managed, initialised, not being deleted, not nominated for a
    pod and not protected, whose pool and instance types are known, and none of
    whose pods is protected or held by a budget, unless disruption is eventual
    and its NodeClaim has a grace period; and every such node that the method
    asks for is a candidate. *)
Theorem candidates_exact now cl (shouldDisrupt : Candidate Q → bool) class q cost nodePools GetInstanceTypes pdbs cands totals
    (Hrun : GetCandidatesWithTotals rand podsOn now cl shouldDisrupt class q cost nodePools GetInstanceTypes pdbs = Some (inr (cands, totals))) :
  ∃ pools types l, BuildNodePoolMap nodePools GetInstanceTypes = Some (pools, types) ∧ NewLimits pdbs = Some l ∧
  (∀ c, c ∈ cands → shouldDisrupt c = true ∧ ∃ key n, nodes cl !! key = Some n ∧ may_be_candidate now n l pools types q class ∧
     ProviderID n = Some (cd_ProviderID c) ∧ Name n = Some (cd_Name c) ∧ Labels n = Some (cd_Labels c) ∧
     ∃ pods, Pods podsOn n = Some pods ∧ cd_reschedulablePods c = List.filter IsReschedulable pods) ∧
  ∀ key n, nodes cl !! key = Some n → may_be_candidate now n l pools types q class →
    ∃ c, NewCandidate now n l pools types q class = Some (inr c) ∧ (shouldDisrupt c = true → c ∈ cands).
Proof. by eapply candidates_spec. Qed.
End candidates_theory.

(** * Witnesses *)

Section witnesses.
#[local] Existing Instance karpenterLabels.
#[local] Existing Instance exampleProvider.
#[local] Existing Instance map_to_list_GoRange.
#[local] Existing Instance textIP.
#[local] Existing Instance plainNumbers.
#[local] Existing Instance keyTaintLib.

(** Every selector selects everything. *)
#[local] Instance selectAll : SelectorLib := {| LabelSelectorAsSelector _ := Some (λ _, true) |}.

Definition budgetOf (allowed : Z) : PodDisruptionBudget := mkPodDisruptionBudget "default" "pdb" "" None None None allowed.

Definition onePod (name : string) : option (list Pod) := Some [podA].

(** The candidates of a cluster of one node with one pod under such a budget. *)
Definition found (allowed : Z) (class : DisruptionClass) : option (() + (list (Candidate Z) * gmap string NodePoolTotals)) :=
  GetCandidatesWithTotals (λ _, 0) onePod 100000000000 occupied (λ _, true) class NewDisruptionQueue None (Some [plainPool]) (λ _, Some [small]) (Some [budgetOf allowed]).

Definition foundCandidates (allowed : Z) : list (Candidate Z) := match found allowed GracefulDisruptionClass with Some (inr (cands, _)) => cands | _ => [] end.
Definition foundTotals (allowed : Z) : gmap string NodePoolTotals := match found allowed GracefulDisruptionClass with Some (inr (_, t)) => t | _ => ∅ end.

Lemma candidates_exact_witness :
  cd_ProviderID <$> foundCandidates 1 = ["p1"%string] ∧ foundCandidates 0 = [] ∧
  ∃ c, c ∈ foundCandidates 1 ∧ ∃ key n, nodes occupied !! key = Some n ∧ ProviderID n = Some (cd_ProviderID c).
Proof.
  split; [vm_compute; reflexivity|]. split; [vm_compute; reflexivity|].
  destruct (candidates_exact (λ _, 0) onePod 100000000000 occupied (λ _, true) GracefulDisruptionClass NewDisruptionQueue None (Some [plainPool]) (λ _, Some [small])
    (Some [budgetOf 1]) (foundCandidates 1) (foundTotals 1)) as (pools & types & l & _ & _ & Hc & _).
  - vm_compute. reflexivity.
  - destruct (foundCandidates 1) as [|c cs] eqn:Hf; [vm_compute in Hf; discriminate|]. exists c. split; [left|].
    destruct (Hc c) as (_ & key & n & Hn & _ & Hid & _); [left|]. exists key, n. split; [exact Hn|exact Hid].
Defined.
End witnesses.
