(* ===== verification/Simulate.v ===== *)
(** * Simulating a disruption

    Model of [SimulateScheduling] in [pkg/controllers/disruption/helpers.go] with
    [unprovisionablepods.go]: which pods are scheduled on which nodes when the
    candidates are gone, which of the new NodeClaims count as replacements, and
    when the simulation counts as a success, with [Results.TruncateInstanceTypes] of
    [scheduler.go].  Building the scheduler and its [Solve] are one parameter;
    what is used of them is that every pod ends up in the results. *)

From Stdlib Require Import SpecFloat.
From S2P Require Import Prelude Float64 Requirement Kube Taints HostPorts Volumes Requirements Resources InstanceTypes PodUtils StateNode NodeClaim Packing Replacements Consolidation NodePoolState Cluster ClusterInv DisruptionQueue Cost Balanced Pdb Candidates.

(** What a scheduling pass returns: the new NodeClaims, the nodes with the pods
    it put there, and the pods with an error. *)
Record SolveResults (Q : Type) `{NetIP} := mkSolveResults {
  sr_NewNodeClaims : list (InflightClaim Q);
  sr_ExistingNodes : list (StateNode Q * list Pod);
  sr_PodErrors : list Pod;
}.
Arguments mkSolveResults {Q _}.
Arguments sr_NewNodeClaims {Q _}.
Arguments sr_ExistingNodes {Q _}.
Arguments sr_PodErrors {Q _}.

(** The reads of a simulation. *)
Record SimReads := mkSimReads {
  pendingPods : option (list Pod);                       (* pendingPodsForPass *)
  listedPdbs : option (list PodDisruptionBudget);
  podsOnNode : string → option (list Pod);
}.

(** [scheduling.MaxInstanceTypes] *)
Definition MaxInstanceTypes : Z := 600.

Section simulate.
Context {LT : LabelTables} {PL : ProviderLabels} {GS : GoSort} {GR : GoRange} {TL : TaintLib} {PS : Parsers} {SL : SelectorLib} {Q : Type} `{Quantity Q} {NI : NetIP}
  (attributeReplacements : bool) (unprovisionablePodTTL : Z)
  (strict : bool)                     (* the policy for minimum values is not best effort *)
  (* [NewScheduler] and [Solve]: the pods, the nodes and the pods that leave their
     nodes; [inl] is an error, and whether it is the deadline *)
  (solve : list Pod → list (StateNode Q) → gset string → bool + SolveResults Q).
Implicit Types (c : Candidate Q) (cands : list (Candidate Q)) (n : StateNode Q) (now : Z) (p : Pod) (nc : InflightClaim Q).

(** [partitionUnprovisionablePods], the pods to simulate: the zero time is no
    verdict *)
Definition simulatedPods (cl : Cluster Q) now (pods : list Pod) : list Pod :=
  if unprovisionablePodTTL <=? 0 then pods
  else List.filter (λ p,
    let verdict := PodUnprovisionableTime (podTimes cl) (ObjectKeyFromObject p) in
    (verdict =? 0) || (unprovisionablePodTTL <=? timeSub now verdict)) pods.

Definition candidatePodsWithheld cands (candidatePods : list Pod) : bool :=
  match candidatePods with [] => existsb (λ c, match cd_reschedulablePods c with [] => false | _ => true end) cands | _ => false end.

Definition replacementsAttributableToDisruption (newNodeClaims : list (InflightClaim Q)) (disruptedPodUIDs : gset string) (podsWithheld : bool)
    : list (InflightClaim Q) :=
  if podsWithheld then newNodeClaims
  else List.filter (λ nc, existsb (λ p, bool_decide (pod_UID p ∈ disruptedPodUIDs)) (ic_Pods nc)) newNodeClaims.

(** The pods put on nodes that are not initialised, but for those on nodes being
    deleted. *)
Definition uninitializedErrors (existing : list (StateNode Q * list Pod)) (deletingNodePodKeys : gset NamespacedName) : list Pod :=
  concat ((λ e, if Initialized e.1 then [] else List.filter (λ p, bool_decide (ObjectKeyFromObject p ∉ deletingNodePodKeys)) e.2) <$> existing).

(** [Results.AllNonPendingPodsScheduled] *)
Definition AllNonPendingPodsScheduled (podErrors : list Pod) : bool := forallb IsProvisionable podErrors.

(** The NodeClaim with the instance types that are sent, if they satisfy its minimum
    values. *)
Definition truncated nc : option (InflightClaim Q) :=
  match Truncate strict (ic_InstanceTypeOptions nc) (ic_Requirements nc) (Z.to_nat MaxInstanceTypes) with
  | inl _ => None
  | inr its => Some (withOptions nc its)
  end.

(** [Results.TruncateInstanceTypes] *)
Definition TruncateInstanceTypes (results : SolveResults Q) : SolveResults Q :=
  mkSolveResults (omap truncated (sr_NewNodeClaims results)) (sr_ExistingNodes results)
    (sr_PodErrors results ++ concat ((λ nc, match truncated nc with Some _ => [] | None => ic_Pods nc end) <$> sr_NewNodeClaims results)).

Definition named (names : gset string) n : bool := match Name n with Some name => bool_decide (name ∈ names) | None => false end.

Definition simulateScheduling (cl : Cluster Q) (reads : SimReads) now cands : Cluster Q * SimulationOutcome Q :=
  let candidateNames : gset string := list_to_set (cd_Name <$> cands) in
  let '(cl, ns) := SimulationCopyNodes cl in
  let deletingNodes := StateNode.Deleting ns in
  let stateNodes := List.filter (λ n, negb (named candidateNames n)) (StateNode.Active ns) in
  (cl,
   if existsb (named candidateNames) deletingNodes then CandidateDeleting
   else
     match pendingPods reads, NewLimits (listedPdbs reads), nodesReschedulablePods (podsOnNode reads) deletingNodes (listedPdbs reads) now with
     | Some pending, Some l, Some deletingNodePods =>
         let candidatePods := concat ((λ c, List.filter (λ p, IsCurrentlyReschedulable l p now) (cd_reschedulablePods c)) <$> cands) in
         let disrupted : gset string := list_to_set (pod_UID <$> candidatePods ++ deletingNodePods) in
         match solve (simulatedPods cl now pending ++ candidatePods ++ deletingNodePods) stateNodes disrupted with
         | inl deadline => SimulationError deadline
         | inr solved =>
             let results := TruncateInstanceTypes solved in
             let newNodeClaims :=
               if attributeReplacements
               then replacementsAttributableToDisruption (sr_NewNodeClaims results) disrupted (candidatePodsWithheld cands candidatePods)
               else sr_NewNodeClaims results in
             let podErrors := sr_PodErrors results ++
               uninitializedErrors (sr_ExistingNodes results) (list_to_set (ObjectKeyFromObject <$> deletingNodePods)) in
             SimulationResults (AllNonPendingPodsScheduled podErrors) newNodeClaims
         end
     | _, _, _ => SimulationError false
     end).
End simulate.

(** * Theory *)

Section simulate_theory.
Context {LT : LabelTables} {PL : ProviderLabels} {GS : GoSort} {GR : GoRange} {TL : TaintLib} {PS : Parsers} {SL : SelectorLib} {Q : Type} `{Quantity Q} {NI : NetIP}
  (attributeReplacements : bool) (unprovisionablePodTTL : Z) (strict : bool) (solve : list Pod → list (StateNode Q) → gset string → bool + SolveResults Q).
Implicit Types (c : Candidate Q) (cands : list (Candidate Q)) (n : StateNode Q) (now : Z) (p : Pod) (nc : InflightClaim Q) (cl : Cluster Q).

(** Every pod of a pass is put on a node it was given, on a new NodeClaim, or has an
    error. *)
Definition accounts_for (results : SolveResults Q) p : Prop :=
  p ∈ sr_PodErrors results ∨ (∃ e, e ∈ sr_ExistingNodes results ∧ p ∈ e.2) ∨ ∃ nc, nc ∈ sr_NewNodeClaims results ∧ p ∈ ic_Pods nc.

Definition solve_accounts : Prop := ∀ pods ns uids results, solve pods ns uids = inr results →
  (∀ e, e ∈ sr_ExistingNodes results → e.1 ∈ ns) ∧ ∀ p, p ∈ pods → accounts_for results p.

(** Truncation loses no pod. *)
Lemma truncate_accounts results p : accounts_for results p → accounts_for (TruncateInstanceTypes strict results) p.
Proof.
  unfold accounts_for, TruncateInstanceTypes. cbn [sr_PodErrors sr_ExistingNodes sr_NewNodeClaims]. intros [He|[He|(nc & Hnc & Hp)]]; [left; set_solver|by right; left|].
  destruct (truncated strict nc) as [nc'|] eqn:Ht.
  - right. right. exists nc'. split; [apply list_elem_of_omap; by exists nc|]. unfold truncated in Ht. destruct (Truncate _ _ _ _); [done|]. by injection Ht as <-.
  - left. apply elem_of_app. right. apply list_elem_of_In, in_concat. eexists. split; [apply list_elem_of_In, list_elem_of_fmap; by exists nc|].
    rewrite Ht. by apply list_elem_of_In.
Qed.

(** What is sent of a NodeClaim: not too many of its instance types, and enough for
    its minimum values where those are binding. *)
Definition launchable nc : Prop :=
  Z.of_nat (length (ic_InstanceTypeOptions nc)) <= MaxInstanceTypes ∧
  (strict = true → HasMinValues (ic_Requirements nc) = true → (SatisfiesMinValues (ic_InstanceTypeOptions nc) (ic_Requirements nc)).2 = ∅).

Lemma truncated_launchable results nc : nc ∈ sr_NewNodeClaims (TruncateInstanceTypes strict results) → launchable nc.
Proof.
  cbn [TruncateInstanceTypes sr_NewNodeClaims]. intros (nc0 & _ & Ht)%list_elem_of_omap. unfold truncated, Truncate in Ht. cbv zeta in Ht.
  destruct (_ && _) eqn:Hm; [done|]. injection Ht as <-. split; cbn [withOptions ic_InstanceTypeOptions ic_Requirements].
  - rewrite length_take. unfold MaxInstanceTypes. lia.
  - intros -> Hmin. rewrite Hmin in Hm. cbn [andb] in Hm. by apply negb_false_iff, bool_decide_eq_true in Hm.
Qed.

(** The node may receive pods: a copy of a cached node that is initialised, is not
    going away and is not one of the candidates. *)
Definition receives cl cands n : Prop :=
  (∃ key cached, nodes (SimulationCopyNodes cl).1 !! key = Some cached ∧ n = SimulationCopy cached) ∧
  Initialized n = true ∧ MarkedForDeletion n = false ∧ ∀ name, Name n = Some name → name ∉ cd_Name <$> cands.

Lemma existing_receives cl cands n :
  n ∈ List.filter (λ n, negb (named (list_to_set (cd_Name <$> cands)) n)) (StateNode.Active (SimulationCopyNodes cl).2) →
  Initialized n = true → receives cl cands n.
Proof.
  rewrite list_elem_of_In, filter_In, <- list_elem_of_In. intros [Hact Hname] Hinit. unfold StateNode.Active in Hact.
  rewrite list_elem_of_In, filter_In, <- list_elem_of_In in Hact. destruct Hact as [Hin Hmark]. split_and!; [|done|by apply negb_true_iff|].
  - unfold SimulationCopyNodes in Hin |- *. cbn [fst snd] in *. apply list_elem_of_fmap in Hin as ([key cached] & -> & Hin).
    apply elem_of_gorange in Hin. by exists key, cached.
  - intros name Hn Hc. apply negb_true_iff in Hname. unfold named in Hname. rewrite Hn in Hname. apply bool_decide_eq_false in Hname.
    apply Hname. by apply elem_of_list_to_set.
Qed.

Lemma kept_claims (claims : list (InflightClaim Q)) (uids : gset string) (withheld : bool) nc p :
  nc ∈ claims → p ∈ ic_Pods nc → pod_UID p ∈ uids → nc ∈ replacementsAttributableToDisruption claims uids withheld.
Proof.
  intros Hnc Hp Hu. unfold replacementsAttributableToDisruption. destruct withheld; [done|].
  rewrite list_elem_of_In, filter_In, <- list_elem_of_In. split; [done|]. apply existsb_exists. exists p. split; [by apply list_elem_of_In|].
  by apply bool_decide_eq_true.
Qed.

Lemma nodesReschedulable_elem podsOn (ns : list (StateNode Q)) listed now pods p :
  nodesReschedulablePods podsOn ns listed now = Some pods → p ∈ pods →
  ∃ n node ps, n ∈ ns ∧ sn_Node n = Some node ∧ podsOn (n_Name node) = Some ps ∧ p ∈ ps.
Proof.
  unfold nodesReschedulablePods. intros (lists & Hall & ->)%fmap_Some Hp. apply list_elem_of_In, in_concat in Hp as (ps & Hps & Hp).
  apply list_elem_of_In, list_elem_of_lookup in Hps as (i & Hi). apply mapM_Some in Hall.
  destruct (Forall2_lookup_r _ _ _ _ _ Hall Hi) as (n & Hn & Hread). unfold CurrentlyReschedulablePods in Hread.
  destruct (sn_Node n) as [node|] eqn:Hnode; [|injection Hread as <-; done].
  apply bind_Some in Hread as (ps' & Hps' & Hread). apply bind_Some in Hread as (l & _ & Hread). injection Hread as <-.
  apply filter_In in Hp as [Hp _]. exists n, node, ps'. split_and!; [by eapply list_elem_of_lookup_2|done|done|by apply list_elem_of_In].
Qed.

Lemma no_errors_scheduled (podErrors : list Pod) p : AllNonPendingPodsScheduled podErrors = true → IsProvisionable p = false → p ∉ podErrors.
Proof. unfold AllNonPendingPodsScheduled. rewrite forallb_forall. intros Hall Hp Hin. apply list_elem_of_In, Hall in Hin. congruence. Qed.

Lemma initialized_without_error (existing : list (StateNode Q * list Pod)) (keys : gset NamespacedName) e p :
  e ∈ existing → p ∈ e.2 → ObjectKeyFromObject p ∉ keys → p ∉ uninitializedErrors existing keys → Initialized e.1 = true.
Proof.
  intros He Hp Hk Hno. destruct (Initialized e.1) eqn:Hi; [done|]. exfalso. apply Hno. unfold uninitializedErrors.
  apply list_elem_of_In, in_concat. eexists. split; [apply list_elem_of_In, list_elem_of_fmap; by exists e|].
  rewrite Hi. apply filter_In. split; [by apply list_elem_of_In|]. by apply bool_decide_eq_true.
Qed.

(** C14. A simulation that succeeds has a place for every pod of the candidates.  No
    candidate is being deleted, and each pod that leaves a candidate and is not
    pending was put either on a cached node that is initialised, not going away
    and not a candidate, or on a NodeClaim that is among the replacements, also
    when those opened only for other pods are left out.  Every replacement can be
    launched: it has no more instance types than may be sent and still satisfies
    its minimum values. *)
Theorem simulation_places cl reads now cands cl' ncs l (Hsolve : solve_accounts) (Hl : NewLimits (listedPdbs reads) = Some l)
    (Hapart : ∀ c p n node ps q, c ∈ cands → p ∈ cd_reschedulablePods c → n ∈ (SimulationCopyNodes cl).2 → MarkedForDeletion n = true →
       sn_Node n = Some node → podsOnNode reads (n_Name node) = Some ps → q ∈ ps → ObjectKeyFromObject p ≠ ObjectKeyFromObject q)
    (Hrun : simulateScheduling attributeReplacements unprovisionablePodTTL strict solve cl reads now cands = (cl', SimulationResults true ncs)) :
  (∀ n name, n ∈ (SimulationCopyNodes cl).2 → MarkedForDeletion n = true → Name n = Some name → name ∉ cd_Name <$> cands) ∧
  (∀ nc, nc ∈ ncs → launchable nc) ∧
  ∃ pods ns uids results, solve pods ns uids = inr results ∧ sublist ncs (sr_NewNodeClaims (TruncateInstanceTypes strict results)) ∧
    ∀ c p, c ∈ cands → p ∈ cd_reschedulablePods c → IsCurrentlyReschedulable l p now = true → IsProvisionable p = false →
      (∃ e, e ∈ sr_ExistingNodes results ∧ p ∈ e.2 ∧ receives cl cands e.1) ∨ ∃ nc, nc ∈ ncs ∧ p ∈ ic_Pods nc.
Proof.
  unfold simulateScheduling in Hrun. pose proof (existing_receives cl cands) as Hrec.
  destruct (SimulationCopyNodes cl) as [cl1 copies]. cbn [fst snd] in Hrec, Hapart. injection Hrun as _ Hrun.
  destruct (existsb _ _) eqn:Hdel; [done|]. split.
  { intros n name Hn Hmark Hname Hin. rewrite <- not_true_iff_false in Hdel. apply Hdel. apply existsb_exists. exists n. split.
    - apply filter_In. split; [by apply list_elem_of_In|done].
    - unfold named. rewrite Hname. apply bool_decide_eq_true. by apply elem_of_list_to_set. }
  destruct (pendingPods reads) as [pending|]; [|done]. rewrite Hl in Hrun.
  destruct (nodesReschedulablePods _ _ _ _) as [deletingNodePods|] eqn:Hdeleting; [|done].
  set (candidatePods := concat _) in Hrun. set (uids := list_to_set (pod_UID <$> _)) in Hrun.
  destruct (solve _ _ uids) as [deadline|results] eqn:Hs; [done|]. injection Hrun as Hok Hncs.
  assert (sublist ncs (sr_NewNodeClaims (TruncateInstanceTypes strict results))) as Hsub.
  { subst ncs. destruct attributeReplacements; [|done]. unfold replacementsAttributableToDisruption. destruct (candidatePodsWithheld _ _); [done|].
    apply filter_sublist_self. }
  split. { intros nc Hnc. apply (truncated_launchable results). eapply sublist_subseteq; [exact Hsub|exact Hnc]. }
  eexists _, _, _, results. split; [exact Hs|]. split; [exact Hsub|]. destruct (Hsolve _ _ _ _ Hs) as [Hgiven Hall].
  intros c p Hc Hp Hre Hpend.
  assert (p ∈ candidatePods) as Hcp.
  { apply list_elem_of_In, in_concat. eexists. split; [apply list_elem_of_In, list_elem_of_fmap; by exists c|]. apply filter_In.
    split; [by apply list_elem_of_In|done]. }
  pose proof (no_errors_scheduled _ p Hok Hpend) as Hno. apply not_elem_of_app in Hno as [Hno Hno'].
  destruct (truncate_accounts results p) as [He|[(e & He & Hpe)|(nc & Hnc & Hpn)]]; [apply Hall; set_solver|done| |].
  - left. exists e. split_and!; [done|done|]. apply Hrec; [by apply Hgiven|]. eapply initialized_without_error; [done|done| |exact Hno'].
    rewrite elem_of_list_to_set. intros (q & Hkey & Hq)%list_elem_of_fmap.
    destruct (nodesReschedulable_elem _ _ _ _ _ _ Hdeleting Hq) as (n & node & ps & Hn & Hnode & Hps & Hqps).
    unfold StateNode.Deleting in Hn. rewrite list_elem_of_In, filter_In, <- list_elem_of_In in Hn. destruct Hn as [Hn Hmark]. by eapply Hapart.
  - right. exists nc. split; [|done]. subst ncs. destruct attributeReplacements; [|done]. eapply kept_claims; [done|done|].
    apply elem_of_list_to_set, list_elem_of_fmap. exists p. split; [done|]. set_solver.
Qed.
End simulate_theory.

(** * Witnesses *)

Section witnesses.
#[local] Existing Instance karpenterLabels.
#[local] Existing Instance exampleProvider.
#[local] Existing Instance map_to_list_GoRange.
#[local] Existing Instance stable_GoSort.
#[local] Existing Instance textIP.
#[local] Existing Instance plainNumbers.
#[local] Existing Instance keyTaintLib.
#[local] Existing Instance selectAll.

(** A new NodeClaim for these pods. *)
Definition claimFor (pods : list Pod) : InflightClaim Z :=
  mkClaim "pool" (ic_PackingPolicy flexibleClaim) [] (ic_Annotations flexibleClaim) [small] (ic_Requirements flexibleClaim) ∅ pods [] "host" [] false None.

(** One NodeClaim for the pods that leave their nodes and one for the others. *)
Definition twoClaims (pods : list Pod) (ns : list (StateNode Z)) (uids : gset string) : bool + SolveResults Z :=
  let leaving p := bool_decide (pod_UID p ∈ uids) in
  inr (mkSolveResults [claimFor (List.filter leaving pods); claimFor (List.filter (λ p, negb (leaving p)) pods)] [] []).

Lemma twoClaims_accounts : solve_accounts twoClaims.
Proof.
  intros pods ns uids results [= <-]. cbn [sr_ExistingNodes sr_PodErrors sr_NewNodeClaims]. split; [set_solver|]. intros p Hp. right. right.
  assert (∀ f : Pod → bool, f p = true → p ∈ List.filter f pods) as Hf.
  { intros f Hfp. apply list_elem_of_In, filter_In. split; [by apply list_elem_of_In|done]. }
  destruct (bool_decide (pod_UID p ∈ uids)) eqn:Hu; eexists; split.
  - left.
  - by apply Hf.
  - right. left.
  - apply Hf. cbn. by rewrite Hu.
Qed.

Definition candidateWithPod : Candidate Z :=
  mkCandidate "node-b" "p2" ∅ None plainPool CapacityTypeSpot 0 true [podA] (fofint 1) (fofint 1).

Definition backlog : SimReads := mkSimReads (Some [barePod "default" "waiting" "w"]) (Some []) (λ _, Some []).

Definition simulatedOutcome : Cluster Z * SimulationOutcome Z := simulateScheduling true 0 true twoClaims occupied backlog 50 [candidateWithPod].

Definition outcomeClaims (o : SimulationOutcome Z) : list (InflightClaim Z) := match o with SimulationResults true ncs => ncs | _ => [] end.

(** Only the NodeClaim of the candidate's pod is a replacement. *)
Lemma simulation_places_witness :
  (λ nc, pod_Name <$> ic_Pods nc) <$> outcomeClaims simulatedOutcome.2 = [["a"%string]] ∧
  ∃ pods ns uids results, twoClaims pods ns uids = inr results ∧ sublist (outcomeClaims simulatedOutcome.2) (sr_NewNodeClaims (TruncateInstanceTypes true results)).
Proof.
  split; [vm_compute; reflexivity|].
  destruct (simulation_places true 0 true twoClaims occupied backlog 50 [candidateWithPod] simulatedOutcome.1 (outcomeClaims simulatedOutcome.2) [])
    as (_ & _ & pods & ns & uids & results & Hs & Hsub & _).
  - exact twoClaims_accounts.
  - reflexivity.
  - intros c p n node ps q _ _ _ _ _ [= <-] Hq. by apply not_elem_of_nil in Hq.
  - vm_compute. reflexivity.
  - exists pods, ns, uids, results. split; [exact Hs|exact Hsub].
Defined.
End witnesses.
