(* ===== verification/Drift.v ===== *)
(** * Drifted nodes

    Model of [pkg/controllers/disruption/drift.go] and
    [pkg/controllers/disruption/staticdrift.go]: the order in which drifted nodes
    are taken, the pinning of the replacements of on-demand leases to spot, and
    the commands of static pools under the node limits of [NodePoolState.v]. *)

From Stdlib Require Import SpecFloat.
From S2P Require Import Prelude Float64 Requirement Kube Taints HostPorts Volumes Requirements Resources InstanceTypes PodUtils StateNode NodeClaim ExistingNode Packing Replacements Consolidation Cost Balanced NodePoolState Validation SingleNode.

Definition DriftReasonOnDemandLeaseExpired : string := "OnDemandLeaseExpired".

(** What the methods read: the Drifted condition of the NodeClaim a candidate
    holds, the simulation with the default options, and for static pools the
    limit of nodes and the NodeClaim of the pool's template. *)
Class DriftWorld (W Q : Type) `{NetIP} := {
  driftedOf : Candidate Q → option Condition;
  simulateDrift : W → Candidate Q → W * SimulationOutcome Q;
  nodeLimitOf : CandidatePool → option Z;
  templateClaim : CandidatePool → InflightClaim Q;
}.

Section drift.
Context {LT : LabelTables} {PL : ProviderLabels} {GS : GoSort} {GR : GoRange} {PS : Parsers} {Q W : Type} `{Quantity Q} {NI : NetIP} {DW : DriftWorld W Q}.
Implicit Types (c : Candidate Q) (cands : list (Candidate Q)) (cmd : Command Q) (nc : InflightClaim Q) (ncs : list (InflightClaim Q))
  (budget : gmap string Z) (w : W).

(** ** Which nodes, in which order *)

Definition isDrifted c : bool := match driftedOf c with Some cond => String.eqb (cd_Status cond) "True" | None => false end.

Definition ShouldDisruptDrift c : bool := negb (OwnedByStaticNodePool c) && isDrifted c.
Definition ShouldDisruptStaticDrift c : bool := OwnedByStaticNodePool c && isDrifted c.

Definition isLeaseReclaim (drifted : option Condition) : bool :=
  match drifted with None => false | Some cond => String.eqb (cd_Reason cond) DriftReasonOnDemandLeaseExpired end.

Definition driftedSince c : Z := match driftedOf c with Some cond => cd_LastTransitionTime cond | None => 0 end.

(** Leases first, then the oldest drift.  ([driftedSince] is only asked of
    candidates that hold the condition; the code reads through the pointer.) *)
Definition driftLess (a b : Candidate Q) : bool :=
  let la := isLeaseReclaim (driftedOf a) in
  let lb := isLeaseReclaim (driftedOf b) in
  if negb (Bool.eqb la lb) then la else driftedSince a <? driftedSince b.

Definition hasNoPods c : bool := match cd_reschedulablePods c with [] => true | _ => false end.

(** The empty candidates, then the others. *)
Definition driftOrder cands : list (Candidate Q) :=
  let sorted := gosort driftLess cands in
  List.filter hasNoPods sorted ++ List.filter (λ c, negb (hasNoPods c)) sorted.

(** ** Replacements of leases *)

Definition canPinToSpot nc : bool :=
  Has (Get (ic_Requirements nc) CapacityTypeLabelKey) CapacityTypeSpot && satisfiesMinValues (Get (ic_Requirements nc) CapacityTypeLabelKey) 1.

(** [None] when one of them cannot be pinned *)
Definition pinReplacementsToSpot ncs : option (list (InflightClaim Q)) :=
  if forallb canPinToSpot ncs then Some ((λ nc, pin nc CapacityTypeLabelKey [CapacityTypeSpot]) <$> ncs) else None.

(** ** The commands *)

(** What the simulation of one candidate leads to: [inl] an error, else the
    replacements, if it can be heldCandidates. *)
Definition tryDrift c (outcome : SimulationOutcome Q) : () + option (list (InflightClaim Q)) :=
  match outcome with
  | SimulationError _ => inl ()
  | CandidateDeleting | SimulationResults false _ => inr None
  | SimulationResults true ncs => inr (if isLeaseReclaim (driftedOf c) then pinReplacementsToSpot ncs else Some ncs)
  end.

Fixpoint driftLoop budget cands w : W * (() + list (Command Q)) :=
  match cands with
  | [] => (w, inr [])
  | c :: cands =>
      if poolBudget budget c =? 0 then driftLoop budget cands w
      else
        let '(w, outcome) := simulateDrift w c in
        match tryDrift c outcome with
        | inl e => (w, inl e)
        | inr None => driftLoop budget cands w
        | inr (Some ncs) => (w, inr [mkCommand [c] ncs (computePoolDisruptionCosts [c]) (fofint 0)])
        end
  end.

(** [Drift.ComputeCommands] *)
Definition ComputeDriftCommands budget cands w : W * (() + list (Command Q)) := driftLoop budget (driftOrder cands) w.

(** The commands of one static pool. *)
Definition staticPoolCommands budget (state : NodePoolState) (npName : string) (npCandidates : list (Candidate Q)) : NodePoolState * list (Command Q) :=
  match npCandidates with
  | [] => (state, [])
  | c :: _ =>
      let np := cd_NodePool c in
      let '(state, allowed) := staticDrift state npName (nodeLimitOf np) (default 0 (cp_Replicas np)) (default 0 (budget !! npName)) (Z.of_nat (length npCandidates)) in
      (state, (λ c, mkCommand [c] [templateClaim np] (computePoolDisruptionCosts [c]) (fofint 0)) <$> take (Z.to_nat allowed) npCandidates)
  end.

Definition staticStep budget (acc : NodePoolState * list (Command Q)) (group : string * list (Candidate Q)) : NodePoolState * list (Command Q) :=
  let '(state, cmds) := staticPoolCommands budget acc.1 group.1 group.2 in (state, acc.2 ++ cmds).

(** [StaticDrift.ComputeCommands] *)
Definition ComputeStaticDriftCommands budget (state : NodePoolState) cands : NodePoolState * list (Command Q) :=
  foldl (staticStep budget) (state, []) (gorange (groupByPool cands)).
End drift.

(** * Theory *)

Section order.
Context {GS : GoSort} {Q W : Type} `{Quantity Q} {NI : NetIP} {DW : DriftWorld W Q}.
Implicit Types (c : Candidate Q) (cands : list (Candidate Q)).

(** [a] may be taken before [b]: empty nodes go first, and among the empty and
    among the others nothing goes before a lease or an older drift. *)
Definition mayPrecede (a b : Candidate Q) : Prop :=
  (hasNoPods b = true → hasNoPods a = true) ∧ (hasNoPods a = hasNoPods b → driftLess b a = false).

Lemma driftLess_order cands : StronglySorted (λ a b, driftLess b a = false) (gosort driftLess cands).
Proof.
  apply gosort_sorted; unfold driftLess.
  - intros a b _ _. destruct (isLeaseReclaim (driftedOf a)), (isLeaseReclaim (driftedOf b)); cbn; try done; rewrite Z.ltb_lt, Z.ltb_ge; lia.
  - intros a b c _ _ _. destruct (isLeaseReclaim (driftedOf a)), (isLeaseReclaim (driftedOf b)), (isLeaseReclaim (driftedOf c)); cbn; try done;
      rewrite !Z.ltb_ge; lia.
Qed.

Lemma filter_StronglySorted {A} (R : A → A → Prop) (f : A → bool) l : StronglySorted R l → StronglySorted R (List.filter f l).
Proof.
  induction 1 as [|x l Hl IH Hx]; cbn [List.filter]; [constructor|]. destruct (f x); [|done]. constructor; [done|].
  rewrite Forall_forall in *. intros y [? _]%elem_of_filter_list. auto.
Qed.

Lemma StronglySorted_weaken {A} (R S : A → A → Prop) l : (∀ x y, x ∈ l → y ∈ l → R x y → S x y) → StronglySorted R l → StronglySorted S l.
Proof.
  intros Himp Hl. induction Hl as [|x l Hl IH Hx]; constructor.
  - apply IH. intros y z Hy Hz. apply Himp; set_solver.
  - rewrite Forall_forall in *. intros y Hy. apply Himp; [set_solver..|auto].
Qed.

Lemma StronglySorted_append {A} (R : A → A → Prop) l k :
  StronglySorted R l → StronglySorted R k → (∀ x y, x ∈ l → y ∈ k → R x y) → StronglySorted R (l ++ k).
Proof.
  intros Hl Hk Hlk. induction Hl as [|x l Hl IH Hx]; [done|]. cbn. constructor; [apply IH; intros; apply Hlk; set_solver|].
  apply Forall_app. split; [done|]. apply Forall_forall. intros y Hy. apply Hlk; set_solver.
Qed.

Lemma driftOrder_sorted cands : StronglySorted mayPrecede (driftOrder cands).
Proof.
  unfold driftOrder. cbv zeta. pose proof (driftLess_order cands) as Hs. apply StronglySorted_append.
  - eapply StronglySorted_weaken; [|by apply filter_StronglySorted]. intros a b [_ Ha]%elem_of_filter_list [_ Hb]%elem_of_filter_list Hr. by split.
  - eapply StronglySorted_weaken; [|by apply filter_StronglySorted]. intros a b [_ Ha]%elem_of_filter_list [_ Hb]%elem_of_filter_list Hr.
    split; [|done]. intros He. by rewrite He in Hb.
  - intros a b [_ Ha]%elem_of_filter_list [_ Hb]%elem_of_filter_list. split; [done|]. intros He. rewrite <- He, Ha in Hb. done.
Qed.

Lemma driftOrder_perm cands : driftOrder cands ≡ₚ cands.
Proof. unfold driftOrder. cbv zeta. rewrite partition_perm. apply gosort_perm. Qed.
End order.

Section pinning.
Context {LT : LabelTables} {LTok : LabelTablesOk} {PL : ProviderLabels} {OL : OfferingLabels} {GS : GoSort} {Q W : Type} `{Quantity Q} {NI : NetIP} {DW : DriftWorld W Q}.
Implicit Types (c : Candidate Q) (cands : list (Candidate Q)) (nc : InflightClaim Q) (ncs : list (InflightClaim Q)) (w : W) (budget : gmap string Z).

Definition onlySpot nc : Prop := pinned (ic_Requirements nc) CapacityTypeLabelKey CapacityTypeSpot.

Lemma Get_allows reqs k v : Has (Get reqs k) v = allows reqs k v ∨ reqs !! k = None.
Proof. unfold Get, allows. destruct (reqs !! k); [by left|by right]. Qed.

Lemma pin_onlySpot nc : canPinToSpot nc = true → onlySpot (pin nc CapacityTypeLabelKey [CapacityTypeSpot]).
Proof.
  intros [Hspot _]%andb_true_iff. unfold onlySpot, pinned. cbn [pin withRequirements ic_Requirements]. split.
  - cbn [Add foldl]. rewrite Add1_lookup by apply NewRequirementWithFlexibility_addable. rewrite NewRequirement_In by apply ol_type. cbn [Key].
    rewrite decide_True by done. eauto.
  - assert (Forall addable [NewRequirement CapacityTypeLabelKey OpIn [CapacityTypeSpot]]) as Ha
      by (constructor; [apply NewRequirementWithFlexibility_addable|constructor]).
    intros v. rewrite Add_allows by done. cbn [forallb]. rewrite andb_true_r, NewRequirement_In by apply ol_type. cbn [Key].
    rewrite bool_decide_eq_true_2 by done. cbn [negb orb]. rewrite andb_true_iff. split.
    + intros [_ [Hv _]%Has_spec]. by apply elem_of_list_to_set, list_elem_of_singleton in Hv.
    + intros ->. split.
      * destruct (Get_allows (ic_Requirements nc) CapacityTypeLabelKey CapacityTypeSpot) as [<-|Hnone]; [done|]. unfold allows. by rewrite Hnone.
      * apply Has_spec. split; [by apply elem_of_list_to_set, list_elem_of_singleton|done].
Qed.

(** What became of a candidate that was passed over. *)
Definition passedOver c (outcome : SimulationOutcome Q) : Prop :=
  outcome = CandidateDeleting ∨ (∃ ncs, outcome = SimulationResults false ncs) ∨
  ∃ ncs nc, outcome = SimulationResults true ncs ∧ isLeaseReclaim (driftedOf c) = true ∧ nc ∈ ncs ∧ canPinToSpot nc = false.

(** The candidates of a list are all passed over, one after the other. *)
Inductive skips budget : W → list (Candidate Q) → W → Prop :=
  | skips_nil w : skips budget w [] w
  | skips_budget w c cands w' : poolBudget budget c = 0 → skips budget w cands w' → skips budget w (c :: cands) w'
  | skips_simulated w c outcome w1 cands w' :
      poolBudget budget c ≠ 0 → simulateDrift w c = (w1, outcome) → passedOver c outcome → skips budget w1 cands w' → skips budget w (c :: cands) w'.

Lemma pinReplacements_spec ncs :
  match pinReplacementsToSpot ncs with
  | Some ncs' => Forall2 narrowed ncs ncs' ∧ Forall onlySpot ncs'
  | None => ∃ nc, nc ∈ ncs ∧ canPinToSpot nc = false
  end.
Proof.
  unfold pinReplacementsToSpot. destruct (forallb canPinToSpot ncs) eqn:Hall.
  - rewrite forallb_forall in Hall. split.
    + apply Forall2_fmap_r, Forall2_same_length_lookup. split; [done|]. intros i x y Hx Hy. assert (x = y) as <- by congruence. apply pin_narrowed.
    + apply Forall_fmap, Forall_forall. intros nc Hnc. apply pin_onlySpot, Hall, list_elem_of_In, Hnc.
  - assert (Exists (λ nc, canPinToSpot nc = false) ncs) as Hex.
    { apply not_true_iff_false in Hall. rewrite forallb_forall in Hall. destruct (decide (Exists (λ nc, canPinToSpot nc = false) ncs)) as [|Hn]; [done|].
      exfalso. apply Hall. intros nc Hnc%list_elem_of_In. destruct (canPinToSpot nc) eqn:Hc; [done|]. exfalso. apply Hn, Exists_exists. eauto. }
    apply Exists_exists in Hex as (nc & Hnc & Hc). eauto.
Qed.

Lemma tryDrift_spec c outcome :
  match tryDrift c outcome with
  | inl _ => ∃ deadline, outcome = SimulationError deadline
  | inr None => passedOver c outcome
  | inr (Some ncs') => ∃ ncs, outcome = SimulationResults true ncs ∧ Forall2 narrowed ncs ncs' ∧ (isLeaseReclaim (driftedOf c) = true → Forall onlySpot ncs')
  end.
Proof.
  unfold tryDrift, passedOver. destruct outcome as [deadline| |[] ncs]; [eauto..| |eauto].
  destruct (isLeaseReclaim (driftedOf c)).
  - pose proof (pinReplacements_spec ncs) as Hp. destruct (pinReplacementsToSpot ncs) as [ncs'|]; [naive_solver|]. destruct Hp as (nc & Hnc & Hc). naive_solver.
  - exists ncs. split_and!; [done| |done]. apply Forall2_same_length_lookup. split; [done|]. intros i x y Hx Hy. by assert (x = y) as <- by congruence.
Qed.

(** What a command of drift rests on, given the world in which its candidate was
    simulated. *)
Definition drift_backed budget c w w' (cmd : Command Q) : Prop :=
  poolBudget budget c ≠ 0 ∧ cmd_Candidates cmd = [c] ∧
  ∃ ncs, simulateDrift w c = (w', SimulationResults true ncs) ∧ Forall2 narrowed ncs (cmd_Replacements cmd) ∧
    (isLeaseReclaim (driftedOf c) = true → Forall onlySpot (cmd_Replacements cmd)).

Lemma driftLoop_spec budget cands w w' result :
  driftLoop budget cands w = (w', result) →
  ∃ before after w1, cands = before ++ after ∧ skips budget w before w1 ∧
    match result with
    | inl _ => ∃ c rest deadline, after = c :: rest ∧ poolBudget budget c ≠ 0 ∧ simulateDrift w1 c = (w', SimulationError deadline)
    | inr [] => after = [] ∧ w' = w1
    | inr [cmd] => ∃ c rest, after = c :: rest ∧ drift_backed budget c w1 w' cmd
    | inr _ => False
    end.
Proof.
  revert w. induction cands as [|c cands IH]; intros w; cbn [driftLoop].
  { intros [= <- <-]. exists [], [], w. split_and!; [done|constructor|done|done]. }
  destruct (poolBudget budget c =? 0) eqn:Hb; destruct_bools.
  { intros (before & after & w1 & -> & Hsk & Hr)%IH. exists (c :: before), after, w1. split_and!; [done|by constructor|done]. }
  destruct (simulateDrift w c) as [w2 outcome] eqn:Hsim. pose proof (tryDrift_spec c outcome) as Ht.
  destruct (tryDrift c outcome) as [[]|[ncs'|]].
  - intros [= <- <-]. destruct Ht as [deadline ->]. exists [], (c :: cands), w. split_and!; [done|constructor|]. by exists c, cands, deadline.
  - intros [= <- <-]. destruct Ht as (ncs & -> & Hn & Hl). exists [], (c :: cands), w. split_and!; [done|constructor|]. exists c, cands.
    split; [done|]. split_and!; [done|done|]. by exists ncs.
  - intros (before & after & w1 & -> & Hsk & Hr)%IH. exists (c :: before), after, w1. split_and!; [done|by eapply skips_simulated|done].
Qed.

(** Drift disrupts at most one node, the first that can be.  The drifted
    candidates are taken in an order with the empty nodes first and in each part
    the expired leases, then the oldest drift.  A command is for one candidate
    whose pool has budget left, its simulation placed every pod, its replacements
    are those of the simulation, for a lease all restricted to spot, and every
    candidate before it was passed over for a reason: no budget, being deleted,
    pods without a place, or a lease with a replacement that cannot be spot.  There
    is no command only when all were passed over, and an error only from the
    simulation of a candidate. *)
Theorem drift_takes_first budget cands w w' result (Hrun : ComputeDriftCommands budget cands w = (w', result)) :
  ∃ order before after w1, order ≡ₚ cands ∧ StronglySorted mayPrecede order ∧ order = before ++ after ∧ skips budget w before w1 ∧
    match result with
    | inl _ => ∃ c rest deadline, after = c :: rest ∧ poolBudget budget c ≠ 0 ∧ simulateDrift w1 c = (w', SimulationError deadline)
    | inr [] => after = [] ∧ w' = w1
    | inr [cmd] => ∃ c rest, after = c :: rest ∧ drift_backed budget c w1 w' cmd
    | inr _ => False
    end.
Proof.
  destruct (driftLoop_spec _ _ _ _ _ Hrun) as (before & after & w1 & Hord & Hsk & Hr). exists (driftOrder cands), before, after, w1.
  split_and!; [apply driftOrder_perm|apply driftOrder_sorted|done|done|done].
Qed.
End pinning.

(** ** Static pools *)

Section held.
Context {GR : GoRange} {Q W : Type} `{Quantity Q} {NI : NetIP} {DW : DriftWorld W Q}.
Implicit Types (cands : list (Candidate Q)) (cmds : list (Command Q)).

Lemma held_static cands (np : CandidatePool) (k : nat) :
  heldCandidates ((λ c, mkCommand [c] [templateClaim np] (computePoolDisruptionCosts [c]) (fofint 0)) <$> take k cands) = take k cands.
Proof. unfold heldCandidates. induction (take k cands) as [|c l IH]; [done|]. rewrite !fmap_cons. cbn [concat cmd_Candidates app]. by rewrite IH. Qed.

Lemma held_app cmds cmds' : heldCandidates (cmds ++ cmds') = heldCandidates cmds ++ heldCandidates cmds'.
Proof. unfold heldCandidates. by rewrite fmap_app, concat_app. Qed.

Lemma heldPool_app cmds cmds' p : poolCount (heldCandidates (cmds ++ cmds')) p = poolCount (heldCandidates cmds) p + poolCount (heldCandidates cmds') p.
Proof. by rewrite held_app, poolCount_app. Qed.

Lemma groupByPool_groups cands :
  (gorange (groupByPool cands)).*2 = with_key poolOf cands <$> (gorange (groupByPool cands)).*1.
Proof.
  assert (∀ p l, (p, l) ∈ gorange (groupByPool cands) → l = with_key poolOf cands p) as Hall.
  { intros p l Hl%elem_of_gorange. by rewrite <- groupByPool_lookup, Hl. }
  induction (gorange (groupByPool cands)) as [|[p l] groups IH]; [done|]. rewrite !fmap_cons. cbn [fst snd]. f_equal; [apply Hall; set_solver|].
  apply IH. intros; apply Hall; set_solver.
Qed.

Lemma groupByPool_concat cands : concat (gorange (groupByPool cands)).*2 ≡ₚ cands.
Proof.
  rewrite groupByPool_groups. apply concat_with_key; [apply gorange_keys_NoDup|]. intros c Hc.
  destruct (groupByPool_key cands c Hc) as [l Hl]. apply elem_of_gorange in Hl. by apply (list_elem_of_fmap_2 fst) in Hl.
Qed.
End held.

Section static.
Context {GR : GoRange} {Q W : Type} `{Quantity Q} {NI : NetIP} {DW : DriftWorld W Q} (limitOf : string → Z).
Implicit Types (c : Candidate Q) (cands : list (Candidate Q)) (cmd : Command Q) (cmds : list (Command Q)) (state : NodePoolState) (budget : gmap string Z).

(** Candidates of named pools, all candidates of a pool with the limit of the
    pool. *)
Definition pools_agree cands : Prop := ∀ c, c ∈ cands → poolOf c ≠ ""%string ∧ nodeLimit (nodeLimitOf (cd_NodePool c)) = limitOf (poolOf c).

(** Counts that stay in the machine's integers. *)
Record countable state : Prop := {
  ct_wf : nps_wf state;
  ct_limit : ∀ p, 0 <= limitOf p <= MaxInt64;
  ct_reserved : ∀ p, 0 <= reservedCount state p;
  ct_live : ∀ p, live state p <= MaxInt64;
  ct_sum : ∀ p, live state p + reservedCount state p <= limitOf p + MaxInt64;
}.

(** What the commands of one pool do to the counts. *)
Record pool_reserved budget state state' p (n : Z) : Prop := {
  pr_budget : n <= default 0 (budget !! p);
  pr_reserved : reservedCount state' p = reservedCount state p + n;
  pr_limit : 0 < n → live state' p + reservedCount state' p <= limitOf p;
}.

Definition one_for_one cmd : Prop := ∃ c np, cmd_Candidates cmd = [c] ∧ cmd_Replacements cmd = [templateClaim np] ∧ cp_Name np = poolOf c.

(** How many nodes of one pool are replaced. *)
Lemma staticDrift_spec budget state state' p limit replicas (candidates allowed : Z) :
  staticDrift state p limit replicas (default 0 (budget !! p)) candidates = (state', allowed) →
  p ≠ ""%string → 0 <= candidates → 0 <= default 0 (budget !! p) → countable state → nodeLimit limit = limitOf p →
  countable state' ∧ 0 <= allowed <= candidates ∧ pool_reserved budget state state' p allowed ∧
  (∀ q, live state' q = live state q) ∧ ∀ q, q ≠ p → reservedCount state' q = reservedCount state q.
Proof.
  intros Hrun Hp Hcand Hb [Hwf Hlim Hres Hlv Hsum] Hl. unfold staticDrift in Hrun.
  destruct (_ =? 0) eqn:Hz; destruct_bools.
  { injection Hrun as <- <-. split_and!; [by split|lia|lia|split; lia|done|done]. }
  destruct (GetNodeCount state p) as [[running deleting] pending]. destruct (replicas <? _).
  { injection Hrun as <- <-. split_and!; [by split|lia|lia|split; lia|done|done]. }
  rewrite Hl in Hrun. apply ReserveNodeCount_spec in Hrun as (Hwf' & Hmap & Hrc & Hg); [|done|done|lia|done..].
  assert (∀ q, live state' q = live state q) as Hlive by (intros; by apply live_mapping). split_and!.
  - split; [done|done| | |]; intros q; rewrite ?Hrc, ?Hlive; specialize (Hres q); specialize (Hlim q); specialize (Hlv q); specialize (Hsum q);
      try case_decide; subst; lia.
  - lia.
  - lia.
  - split; [lia|rewrite Hrc, decide_True by done; done|]. rewrite Hrc, Hlive, decide_True by done. lia.
  - done.
  - intros q Hq. rewrite Hrc, decide_False by done. lia.
Qed.

Lemma staticPool_spec budget state state' p cands cmds :
  staticPoolCommands budget state p cands = (state', cmds) → (∀ c, c ∈ cands → poolOf c = p) → pools_agree cands →
  0 <= default 0 (budget !! p) → countable state →
  countable state' ∧ Forall one_for_one cmds ∧ (∃ rest, heldCandidates cmds ++ rest = cands) ∧
  pool_reserved budget state state' p (Z.of_nat (length (heldCandidates cmds))) ∧
  (∀ q, live state' q = live state q) ∧ ∀ q, q ≠ p → reservedCount state' q = reservedCount state q.
Proof.
  intros Hrun Hof Hag Hb Hc. unfold staticPoolCommands in Hrun. destruct cands as [|c cands].
  { injection Hrun as <- <-. split_and!; [done|constructor|by exists []|split; cbn; lia|done|done]. }
  destruct (staticDrift _ _ _ _ _ _) as [state1 allowed] eqn:Hd. injection Hrun as <- <-.
  destruct (Hag c) as [Hne Hlim]; [set_solver|]. rewrite (Hof c) in Hne, Hlim by set_solver.
  apply staticDrift_spec in Hd as (Hc' & Hal & Hpr & Hlive & Hother); [|done|lia|done|done|done].
  assert (Z.of_nat (length (take (Z.to_nat allowed) (c :: cands))) = allowed) as Hlen by (rewrite length_take; lia).
  rewrite (held_static (DW := DW)). split_and!; [done| |eexists; apply take_drop|by rewrite Hlen|done|done].
  apply Forall_fmap, Forall_forall. intros c' Hin. exists c', (cd_NodePool c). split_and!; [done|done|]. fold (poolOf c).
  rewrite (Hof c) by set_solver. rewrite (Hof c'); [done|]. eapply elem_of_sublist; [exact Hin|apply sublist_take].
Qed.

Lemma heldPool_own cmds p : (∀ c, c ∈ heldCandidates cmds → poolOf c = p) →
  ∀ q, poolCount (heldCandidates cmds) q = if decide (q = p) then Z.of_nat (length (heldCandidates cmds)) else 0.
Proof.
  induction (heldCandidates cmds) as [|c l IH]; intros Hall q; [by case_decide|].
  specialize (IH (λ c Hc, Hall c (list_elem_of_further _ _ _ Hc)) q). rewrite poolCount_cons, IH. fold (poolOf c). rewrite (Hall c) by set_solver.
  cbn [length]. repeat case_decide; subst; try done; lia.
Qed.

Lemma static_groups budget groups : ∀ state acc state' all,
  foldl (staticStep budget) (state, acc) groups = (state', all) → NoDup groups.*1 →
  (∀ p l, (p, l) ∈ groups → pools_agree l ∧ ∀ c, c ∈ l → poolOf c = p) → (∀ p, 0 <= default 0 (budget !! p)) → countable state →
  ∃ cmds, all = acc ++ cmds ∧ Forall one_for_one cmds ∧ (∃ rest, heldCandidates cmds ++ rest ≡ₚ concat groups.*2) ∧
    (∀ p, p ∉ groups.*1 → poolCount (heldCandidates cmds) p = 0) ∧
    ∀ p, pool_reserved budget state state' p (poolCount (heldCandidates cmds) p) ∧ live state' p = live state p.
Proof.
  induction groups as [|[p l] groups IH]; intros state acc state' all; cbn [foldl].
  { intros [= <- <-] _ _ Hb _. exists []. rewrite app_nil_r. split_and!; [done|constructor|by exists []|done|]. intros p. split; [|done].
    specialize (Hb p). split; unfold poolCount, with_key; cbn; lia. }
  unfold staticStep at 2. cbn [fst snd]. destruct (staticPoolCommands budget state p l) as [state1 cmds1] eqn:Hs.
  intros Hrun [Hp Hnd]%NoDup_cons Hgr Hb Hc. destruct (Hgr p l) as [Hag Hof]; [set_solver|].
  apply staticPool_spec in Hs as (Hc1 & Hone1 & (rest1 & Hrest1) & Hpr1 & Hlive1 & Hother1); [|done|done|done|done].
  apply IH in Hrun as (cmds & -> & Hone & (rest & Hrest) & Hnone & Hpr); [|done|intros; apply Hgr; set_solver|done|done].
  assert (∀ q, poolCount (heldCandidates cmds1) q = if decide (q = p) then Z.of_nat (length (heldCandidates cmds1)) else 0) as Hown.
  { apply heldPool_own. intros c Hin. apply Hof. set_solver. }
  exists (cmds1 ++ cmds). split_and!; [by rewrite app_assoc|by apply Forall_app| | |].
  - exists (rest1 ++ rest). rewrite held_app. cbn [fmap list_fmap concat snd]. rewrite <- Hrest1, <- Hrest. solve_Permutation.
  - intros q Hq. cbn in Hq. rewrite heldPool_app, Hown, Hnone, decide_False by set_solver. done.
  - intros q. destruct (Hpr q) as [[H1 H2 H3] Hlive]. rewrite heldPool_app, Hown. split; [|by rewrite Hlive].
    case_decide as Hq.
    + subst q. rewrite Hnone in * by done. destruct Hpr1 as [K1 K2 K3]. rewrite Hlive1 in *. split; lia.
    + rewrite Hother1 in * by done. split; lia.
Qed.

(** C18. Drift of static pools stays within budgets and limits, whatever the order in
    which the pools are taken.  Every command replaces one candidate, none twice,
    by one NodeClaim of a pool of that name; each pool loses no more nodes than its
    budget allows, exactly as many places are reserved as nodes are replaced, and
    where there are any the pool's nodes with all reservations fit its limit. *)
Theorem static_drift_bounded budget state cands state' cmds (Hag : pools_agree cands) (Hb : ∀ p, 0 <= default 0 (budget !! p)) (Hc : countable state)
    (Hrun : ComputeStaticDriftCommands budget state cands = (state', cmds)) :
  Forall one_for_one cmds ∧ (∃ rest, heldCandidates cmds ++ rest ≡ₚ cands) ∧
  ∀ p, pool_reserved budget state state' p (poolCount (heldCandidates cmds) p) ∧ live state' p = live state p.
Proof.
  destruct (static_groups budget (gorange (groupByPool cands)) state [] state' cmds) as (cmds' & -> & Hone & (rest & Hrest) & _ & Hpr);
    [exact Hrun|apply gorange_keys_NoDup| |done|done|].
  - intros p l Hl%elem_of_gorange. assert (l = with_key poolOf cands p) as -> by (by rewrite <- groupByPool_lookup, Hl).
    split; [intros c|intros c]; rewrite elem_of_with_key; [intros [Hin _]; by apply Hag|by intros [_ ?]].
  - split_and!; [done| |done]. exists rest. by rewrite Hrest, groupByPool_concat.
Qed.
End static.

(** * Witnesses *)

Section witnesses.
#[local] Existing Instance karpenterLabels.
#[local] Existing Instance exampleProvider.
#[local] Existing Instance karpenterLabels_ok.
#[local] Existing Instance map_to_list_GoRange.
#[local] Existing Instance stable_GoSort.
#[local] Existing Instance textIP.

Definition driftPool (replicas : option Z) : CandidatePool := mkPool "pool" ∅ WhenEmptyOrUnderutilized (Some 0) replicas.

Definition driftNode (replicas : option Z) (name : string) (pods : list Pod) : Candidate Z :=
  mkCandidate name name ∅ None (driftPool replicas) CapacityTypeOnDemand 0 false pods (fofint 1) (fofint 1).

(** The node named lease has an expired lease, the one named stuck pods without a
    place; the nodes of the example are drifted since one, two and three. *)
#[local] Instance driftExample : DriftWorld Z Z := {|
  driftedOf c :=
    if String.eqb (cd_Name c) "lease" then Some (mkCondition "True" DriftReasonOnDemandLeaseExpired 3)
    else Some (mkCondition "True" "NodePoolDrifted" (if String.eqb (cd_Name c) "stuck" then 2 else 1));
  simulateDrift w c := (w + 1, if String.eqb (cd_Name c) "stuck" then SimulationResults false [] else SimulationResults true [flexibleClaim]);
  nodeLimitOf _ := Some 4;
  templateClaim _ := flexibleClaim;
|}.

Definition threeDrifted : list (Candidate Z) := [driftNode None "old" [barePod "default" "a" "a"]; driftNode None "stuck" []; driftNode None "lease" [barePod "default" "b" "b"]].

Definition driftRun : Z * (() + list (Command Z)) := ComputeDriftCommands {["pool"%string := 1]} threeDrifted 0.

(** The empty node goes first and is passed over, then the lease goes. *)
Lemma drift_takes_first_witness :
  driftRun.1 = 2 ∧ (cd_Name <$> driftOrder threeDrifted) = ["stuck"; "lease"; "old"]%string ∧
  ∃ order before after w1, order ≡ₚ threeDrifted ∧ StronglySorted mayPrecede order ∧ order = before ++ after ∧ skips {["pool"%string := 1]} 0 before w1.
Proof.
  split; [vm_compute; reflexivity|]. split; [vm_compute; reflexivity|].
  destruct (drift_takes_first (OL := exampleLabels) {["pool"%string := 1]} threeDrifted 0 driftRun.1 driftRun.2) as (order & before & after & w1 & H1 & H2 & H3 & H4 & _).
  - apply surjective_pairing.
  - by exists order, before, after, w1.
Defined.

Definition staticNodes : list (Candidate Z) := [driftNode (Some 2) "a" []; driftNode (Some 2) "c" []; driftNode (Some 2) "d" []].

Definition staticRun : NodePoolState * list (Command Z) := ComputeStaticDriftCommands {["pool"%string := 5]} busyPool staticNodes.

Lemma busyPool_countable : countable (λ _, 4) busyPool.
Proof.
  assert (∀ p, live busyPool p <= 2) as Hlive.
  { intros p. unfold live. etransitivity; [apply Nat2Z.inj_le, map_subseteq_size, map_filter_subseteq|]. vm_compute. discriminate. }
  assert (∀ p, reservedCount busyPool p = 0) as Hres.
  { intros p. unfold reservedCount. destruct (decide (p = "pool"%string)) as [->|Hp]; [vm_compute; reflexivity|].
    change (nodePoolNameToNodePoolLimit busyPool) with ({["pool"%string := 0]} : gmap string Z). by rewrite lookup_singleton_ne. }
  split; [apply busyPool_wf|..]; intros p; rewrite ?Hres; try specialize (Hlive p); unfold MaxInt64; lia.
Qed.

(** Three nodes drifted and there is budget for five, but the limit leaves room for
    two more. *)
Lemma static_drift_bounded_witness :
  (cd_Name <$> heldCandidates staticRun.2) = ["a"; "c"]%string ∧ Forall one_for_one staticRun.2 ∧
  live staticRun.1 "pool" + reservedCount staticRun.1 "pool" <= 4.
Proof.
  split; [vm_compute; reflexivity|].
  destruct (static_drift_bounded (λ _, 4) {["pool"%string := 5]} busyPool staticNodes staticRun.1 staticRun.2) as (Hone & _ & Hp).
  - intros c Hc. unfold staticNodes in Hc. rewrite !elem_of_cons, elem_of_nil in Hc. destruct Hc as [->|[->|[->|[]]]]; done.
  - intros p. destruct (decide (p = "pool"%string)) as [->|Hp]; [vm_compute; discriminate|]. by rewrite lookup_singleton_ne.
  - apply busyPool_countable.
  - apply surjective_pairing.
  - split; [exact Hone|]. apply (pr_limit _ _ _ _ _ _ (proj1 (Hp "pool"%string))). vm_compute. reflexivity.
Defined.
End witnesses.
