(* ===== verification/Controller.v ===== *)
(** * The disruption controller

    Model of [pkg/controllers/disruption/controller.go] and of
    [RequireNoScheduleTaint] and [ClearNodeClaimsCondition] in
    [pkg/controllers/state/statenode.go]: leftovers of interrupted commands are
    removed, then the methods are tried in turn until one acts.  A method is a
    record of its operations, its state part of the world, with the laws the
    controller relies on in a class.  The commands of a method are started in
    parallel: each start is a check and an effect, and a list of picks says whose
    turn it is.  [None] is a panic. *)

From Stdlib Require Import SpecFloat.
From S2P Require Import Prelude Float64 Requirement Kube Taints HostPorts Volumes Requirements Resources InstanceTypes PodUtils StateNode Budgets NodeClaim Packing Replacements Consolidation Cost Balanced NodePoolState Validation MultiNode Cluster ClusterInv DisruptionQueue SingleNode Pdb Candidates Simulate Drift.

(** What [errors.IsConflict] sees of an error: nothing, when it does not come from
    the API server. *)
Inductive ApiError := ConflictStatus | OtherStatus | NoStatus.

#[export] Instance ApiError_eq_dec : EqDecision ApiError.
Proof. solve_decision. Defined.

Definition hasStatus (e : ApiError) : bool := bool_decide (e ≠ NoStatus).

(** [multierr.Combine], as far as [errors.IsConflict] looks into it: the first
    error with a status counts. *)
Definition combineErrors (errs : list ApiError) : option ApiError :=
  match errs with [] => None | _ => Some (default NoStatus (List.find hasStatus errs)) end.

Definition IsConflict (e : ApiError) : bool := bool_decide (e = ConflictStatus).

(** How the last attempt at an object went: it is gone, a call failed, or it was
    read and whether the patch, if one is needed, succeeded. *)
Inductive Attempt (A : Type) := Gone | AttemptFailed (e : ApiError) | AttemptRead (object : A) (patch : option ApiError).
Arguments Gone {A}.
Arguments AttemptFailed {A}.
Arguments AttemptRead {A}.

Section cleanup.
Context {Q : Type} {NI : NetIP} {TL : TaintLib}.
Implicit Types (n : StateNode Q) (taints : list Taint).

Definition isDisruptedTaint (t : Taint) : bool := MatchTaint t DisruptedNoScheduleTaint.

(** The taints to patch a node with, if it changes. *)
Definition requiredTaints (addTaint : bool) taints (deleting : bool) : option (list Taint) :=
  let hasTaint := existsb isDisruptedTaint taints in
  if hasTaint && deleting then None
  else
    let others := List.filter (λ t, negb (isDisruptedTaint t)) taints in
    let taints' := if negb addTaint then others else if negb hasTaint then others ++ [DisruptedNoScheduleTaint] else taints in
    if bool_decide (taints' = taints) then None else Some taints'.

(** What one object adds to the trace and to the errors. *)
Definition RequireNoScheduleTaint1 (addTaint : bool) (attempt : StateNode Q → Attempt (list Taint * bool)) n : list Effect * list ApiError :=
  match sn_Node n, sn_NodeClaim n with
  | Some node, Some _ =>
      match attempt n with
      | Gone => ([], [])
      | AttemptFailed e => ([], [e])
      | AttemptRead (taints, deleting) patch =>
          match requiredTaints addTaint taints deleting, patch with
          | None, _ => ([], [])
          | Some _, None => ([(if addTaint then ETaint else EUntaint) (n_ProviderID node)], [])
          | Some _, Some e => ([], [e])
          end
      end
  | _, _ => ([], [])
  end.

(** The NodeClaim read: whether it has the condition. *)
Definition ClearNodeClaimsCondition1 (attempt : StateNode Q → Attempt bool) n : list Effect * list ApiError :=
  match sn_NodeClaim n with
  | Some claim =>
      if negb (Initialized n) then ([], [])
      else
        match attempt n with
        | Gone | AttemptRead false _ => ([], [])
        | AttemptFailed e | AttemptRead true (Some e) => ([], [e])
        | AttemptRead true None => ([EClearCondition (nc_Name claim)], [])
        end
  | None => ([], [])
  end.

Definition forNodes (f : StateNode Q → list Effect * list ApiError) (ns : list (StateNode Q)) : list Effect * option ApiError :=
  (concat ((λ n, (f n).1) <$> ns), combineErrors (concat ((λ n, (f n).2) <$> ns))).

Definition RequireNoScheduleTaint (addTaint : bool) attempt (ns : list (StateNode Q)) := forNodes (RequireNoScheduleTaint1 addTaint attempt) ns.
Definition ClearNodeClaimsCondition attempt (ns : list (StateNode Q)) := forNodes (ClearNodeClaimsCondition1 attempt) ns.
End cleanup.

(** ** Methods *)

Record Method (Q : Type) `{NetIP} := mkMethod {
  m_Reason : string;
  m_Class : DisruptionClass;
  m_ShouldDisrupt : QueueWorld Q → Candidate Q → bool;
  (** the commands, each with whether it is admitted, or an error *)
  m_ComputeCommands : QueueWorld Q → gmap string NodePoolTotals → gmap string Z → list (Candidate Q) →
    option (QueueWorld Q * (ApiError + list (Command Q * bool)));
}.
Arguments mkMethod {Q _}.
Arguments m_Reason {Q _}.
Arguments m_Class {Q _}.
Arguments m_ShouldDisrupt {Q _}.
Arguments m_ComputeCommands {Q _}.

(** The answers to the start of one command. *)
Record StartAnswers := mkStartAnswers {
  sa_mark : QCandidate → MarkAnswer;
  sa_created : list string * bool;
  sa_nominated : list string;
  sa_error : ApiError;                       (* of the call that fails, if one does *)
}.

(** What is read for one method. *)
Record MethodReads (Q : Type) := mkMethodReads {
  mr_now : Z;
  mr_podsOn : string → option (list Pod);
  mr_nodePools : option (list CandidatePool);
  mr_instanceTypes : CandidatePool → option (list (InstanceType Q));
  mr_pdbs : option (list PodDisruptionBudget);
  mr_budgetPools : option (list NodePool);
  mr_error : ApiError;                       (* of the read that fails, if one does *)
  mr_picks : list nat;                       (* the order of the starts *)
  mr_starts : nat → StartAnswers;
}.
Arguments mkMethodReads {Q}.
Arguments mr_now {Q}.
Arguments mr_podsOn {Q}.
Arguments mr_nodePools {Q}.
Arguments mr_instanceTypes {Q}.
Arguments mr_pdbs {Q}.
Arguments mr_budgetPools {Q}.
Arguments mr_error {Q}.
Arguments mr_picks {Q}.
Arguments mr_starts {Q}.

Inductive ReconcileResult := RequeueAfter (d : Z) | Requeue | RequeueImmediately | ReconcileFailed (e : ApiError).

Definition pollingPeriod : Z := 10 * Second.

(** How far the start of a command got. *)
Inductive Phase := Fresh | Passed | Ended (result : StartResult).

Section controller.
Context {LT : LabelTables} {PL : ProviderLabels} {GR : GoRange} {TL : TaintLib} {PS : Parsers} {SL : SelectorLib} {CR : Cron} {IS : IntStr}
  {Q : Type} `{Quantity Q} {NI : NetIP} (rand : Z → Z) (clusterCost : option ClusterCost) (batchMaxDuration : Z)
  (claimNameOf : Candidate Q → string).    (* the NodeClaim a candidate holds *)
Implicit Types (w : QueueWorld Q) (m : Method Q) (ms : list (Method Q)) (reads : MethodReads Q) (n : StateNode Q) (threads : list (QCommand * Phase)).

(** ** Starting commands in parallel *)

(** A command as the queue keeps it. *)
Definition queueCommand (now : Z) (cmd : Command Q) : QCommand :=
  mkQCommand ((λ c, mkQCandidate (cd_ProviderID c) (claimNameOf c) (poolOf c) (OwnedByStaticNodePool c)) <$> cmd_Candidates cmd)
    ((λ _, mkQReplacement "" false) <$> cmd_Replacements cmd) now false.

Definition advance (starts : nat → StartAnswers) (now : Z) (st : QueueWorld Q * list (QCommand * Phase)) (i : nat)
    : option (QueueWorld Q * list (QCommand * Phase)) :=
  let '(w, threads) := st in
  match threads !! i with
  | Some (cmd, Fresh) =>
      let phase := if HasAny (qw_queue w) (providerIDs (qcmd_Candidates cmd)) then Ended CandidateBusy else Passed in
      Some (w, <[i := (cmd, phase)]> threads)
  | Some (cmd, Passed) =>
      let a := starts i in
      '(w, result) ← startChecked w cmd (sa_mark a) (sa_created a) (sa_nominated a) batchMaxDuration now;
      Some (w, <[i := (cmd, Ended result)]> threads)
  | _ => Some st
  end.

Fixpoint advanceAll (starts : nat → StartAnswers) (now : Z) (picks : list nat) (st : QueueWorld Q * list (QCommand * Phase))
    : option (QueueWorld Q * list (QCommand * Phase)) :=
  match picks with [] => Some st | i :: picks => st ← advance starts now st i; advanceAll starts now picks st end.

Definition startError (starts : nat → StartAnswers) (i : nat) (thread : QCommand * Phase) : option ApiError :=
  match thread.2 with
  | Ended Started => None
  | Ended CandidateBusy => Some NoStatus
  | _ => Some (sa_error (starts i))
  end.

(** [workqueue.ParallelizeUntil]: after the picks whoever is left goes on in turn *)
Definition startAll w (cmds : list QCommand) (picks : list nat) (starts : nat → StartAnswers) (now : Z) : option (QueueWorld Q * option ApiError) :=
  let turns := seq 0 (length cmds) in
  '(w, threads) ← advanceAll starts now (picks ++ turns ++ turns) (w, (λ cmd, (cmd, Fresh)) <$> cmds);
  Some (w, combineErrors (omap id (imap (startError starts) threads))).

(** ** One method *)

Definition isNoOp (cmd : Command Q) : bool := bool_decide (Decision cmd = NoOpDecision).

(** The commands of a method that are left to start, [None] if it has none at all. *)
Definition pendingCommands (cmds : list (Command Q * bool)) : option (list (Command Q)) :=
  match List.filter (λ cmd, negb (isNoOp cmd.1)) cmds with
  | [] => None
  | cmds => Some (List.filter (λ cmd, negb cmd.2) cmds).*1
  end.

Definition disrupt w m reads : option (QueueWorld Q * (ApiError + bool)) :=
  r ← GetCandidatesWithTotals rand (mr_podsOn reads) (mr_now reads) (qw_cluster w) (m_ShouldDisrupt m w) (m_Class m) (qw_queue w) clusterCost
        (mr_nodePools reads) (mr_instanceTypes reads) (mr_pdbs reads);
  match r with
  | inl _ => Some (w, inl (mr_error reads))
  | inr ([], _) => Some (w, inr false)
  | inr (candidates, totals) =>
      match mr_budgetPools reads with
      | None => Some (w, inl (mr_error reads))
      | Some nps =>
          let mapping := BuildDisruptionBudgetMapping (DeepCopyNodes (qw_cluster w)) nps (mr_now reads) (m_Reason m) in
          '(w, result) ← m_ComputeCommands m w totals mapping candidates;
          match result with
          | inl e => Some (w, inl e)
          | inr cmds =>
              match pendingCommands cmds with
              | None => Some (w, inr false)
              | Some pending =>
                  '(w, err) ← startAll w (queueCommand (mr_now reads) <$> pending) (mr_picks reads) (mr_starts reads) (mr_now reads);
                  Some (w, match err with Some e => inl e | None => inr true end)
              end
          end
      end
  end.

Fixpoint tryMethods w (steps : list (Method Q * MethodReads Q)) : option (QueueWorld Q * ReconcileResult) :=
  match steps with
  | [] => Some (w, RequeueAfter pollingPeriod)
  | (m, reads) :: steps =>
      '(w, result) ← disrupt w m reads;
      match result with
      | inl e => Some (w, if IsConflict e then Requeue else ReconcileFailed e)
      | inr true => Some (w, RequeueImmediately)
      | inr false => tryMethods w steps
      end
  end.

(** ** Reconciling *)

Definition isOutdated (q : Queue) n : option bool :=
  id ← ProviderID n; Some (negb (HasAny q [id] || MarkedForDeletion n)).

Definition outdatedNodes w : option (list (StateNode Q)) :=
  flags ← mapM (λ n, outdated ← isOutdated (qw_queue w) n; Some (n, outdated : bool)) (DeepCopyNodes (qw_cluster w));
  Some (List.filter snd flags).*1.

Definition addEffects w (es : list Effect) : QueueWorld Q := mkQueueWorld (qw_queue w) (qw_cluster w) (es ++ qw_trace w).

(** [Controller.Reconcile]; each method comes with what is read for it. *)
Definition ReconcileDisruption w (apiNames : option (gset string * gset string)) (taintAttempt : StateNode Q → Attempt (list Taint * bool))
    (conditionAttempt : StateNode Q → Attempt bool) (steps : list (Method Q * MethodReads Q)) : option (QueueWorld Q * ReconcileResult) :=
  let '(cl, synced) := Synced (qw_cluster w) apiNames in
  let w := mkQueueWorld (qw_queue w) cl (qw_trace w) in
  if negb synced then Some (w, RequeueAfter Second)
  else
    outdated ← outdatedNodes w;
    let failed e := if IsConflict e then Requeue else ReconcileFailed e in
    let '(es, err) := RequireNoScheduleTaint false taintAttempt outdated in
    let w := addEffects w es in
    match err with
    | Some e => Some (w, failed e)
    | None =>
        let '(es, err) := ClearNodeClaimsCondition conditionAttempt outdated in
        let w := addEffects w es in
        match err with
        | Some e => Some (w, failed e)
        | None => tryMethods w steps
        end
    end.
End controller.

(** * Theory *)

Section start_theory.
Context {Q : Type} `{QuantityLaws Q} {NI : NetIP} {TL : TaintLib} {PS : Parsers} {SA : StorageAPI} {PR : PodResources Q} {GR : GoRange}
  (batchMaxDuration : Z).
Implicit Types (w : QueueWorld Q) (starting : list QCommand) (threads : list (QCommand * Phase)).

Lemma ForallOrdPairs_perm starting starting' : starting ≡ₚ starting' → ForallOrdPairs apart starting → ForallOrdPairs apart starting'.
Proof.
  induction 1 as [|cmd l k Hp IH|a b l|]; [done| | |auto].
  - inversion 1 as [|? ? Hall Hrest]; subst. constructor; [|auto]. rewrite List.Forall_forall in *. intros x Hx. apply Hall.
    rewrite <- list_elem_of_In in *. by rewrite Hp.
  - inversion 1 as [|? ? Ha Hrest]; subst. inversion Hrest as [|? ? Hb Hrest']; subst. inversion Ha as [|? ? Hab Ha']; subst.
    constructor; [constructor; [by apply apart_sym|done]|]. by constructor.
Qed.

Lemma queue_inv_perm w starting starting' : starting ≡ₚ starting' → queue_inv (w, starting) → queue_inv (w, starting').
Proof.
  intros Hp [Hknown Hwhole Hfree Happ Hun Hinit Hdel Hcl]. split; cbn [fst snd] in *; try done.
  - intros cmd id Hc. rewrite <- Hp in Hc. by apply (Hfree cmd).
  - by eapply ForallOrdPairs_perm.
  - rewrite List.Forall_forall in *. intros cmd Hc. apply Hun. rewrite <- list_elem_of_In in *. by rewrite Hp.
Qed.

(** The commands that have passed the check and are not yet added. *)
Definition isPassed (thread : QCommand * Phase) : bool := match thread.2 with Passed => true | _ => false end.
Definition inFlight threads : list QCommand := (List.filter isPassed threads).*1.

Lemma inFlight_middle before thread after :
  inFlight (before ++ thread :: after) = inFlight before ++ (if isPassed thread then [thread.1] else []) ++ inFlight after.
Proof. unfold inFlight. rewrite List.filter_app, fmap_app. cbn [List.filter]. by destruct (isPassed thread). Qed.

Lemma inFlight_fresh cmds : inFlight ((λ cmd, (cmd, Fresh)) <$> cmds) = [].
Proof. unfold inFlight. by induction cmds. Qed.

Lemma fresh_commands cmds : ((λ cmd : QCommand, (cmd, Fresh)) <$> cmds).*1 = cmds.
Proof. rewrite <- list_fmap_compose. apply list_fmap_id. Qed.

Lemma insert_middle_thread threads i thread thread' :
  threads !! i = Some thread → ∃ before after, threads = before ++ thread :: after ∧ <[i := thread']> threads = before ++ thread' :: after.
Proof.
  intros Hi. exists (take i threads), (drop (S i) threads). split; [by rewrite take_drop_middle|].
  rewrite <- (take_drop_middle threads i thread Hi) at 1. apply lookup_lt_Some in Hi.
  replace i with (length (take i threads) + 0)%nat at 1 by (rewrite length_take; lia). by rewrite insert_app_r.
Qed.

Record threads_inv w threads : Prop := {
  ti_queue : queue_inv (w, inFlight threads);
  ti_apart : ForallOrdPairs apart threads.*1;
  ti_unstarted : Forall unstarted threads.*1;
}.

Lemma fresh_threads w cmds :
  queue_inv (w, []) → ForallOrdPairs apart cmds → Forall unstarted cmds → threads_inv w ((λ cmd, (cmd, Fresh)) <$> cmds).
Proof. intros Hq Hap Hun. split; rewrite ?fresh_commands; [by rewrite inFlight_fresh|done|done]. Qed.

Lemma inFlight_elem threads cmd : cmd ∈ inFlight threads → cmd ∈ threads.*1.
Proof. unfold inFlight. intros (t & -> & [Ht _]%elem_of_filter_list)%list_elem_of_fmap. by apply list_elem_of_fmap_2. Qed.

Lemma advance_inv starts now w threads i w' threads' :
  advance batchMaxDuration starts now (w, threads) i = Some (w', threads') → threads_inv w threads → threads_inv w' threads' ∧ threads'.*1 = threads.*1.
Proof.
  intros Hrun [Hq Hap Hun]. unfold advance in Hrun. destruct (threads !! i) as [[cmd phase]|] eqn:Hi; [|by injection Hrun as <- <-].
  assert (∀ phase', (<[i := (cmd, phase')]> threads).*1 = threads.*1) as Hsame.
  { intros phase'. rewrite list_fmap_insert. cbn [fst]. apply list_insert_id. by rewrite list_lookup_fmap, Hi. }
  destruct phase as [| |result]; [| |by injection Hrun as <- <-].
  - injection Hrun as <- <-. split; [|apply Hsame]. split; rewrite ?Hsame; [|done..].
    destruct (insert_middle_thread threads i (cmd, Fresh) (cmd, if HasAny (qw_queue w) (providerIDs (qcmd_Candidates cmd)) then Ended CandidateBusy else Passed) Hi)
      as (before & after & -> & ->).
    rewrite inFlight_middle in *. cbn [isPassed snd fst] in *. destruct (HasAny _ _) eqn:Hany; [done|]. cbn [app] in *.
    apply (queue_inv_perm _ (cmd :: inFlight before ++ inFlight after)); [apply Permutation_middle|].
    rewrite fmap_app, fmap_cons in Hap, Hun. cbn [fst] in Hap, Hun. apply apart_middle in Hap as [Hap _]. rewrite List.Forall_forall in Hap, Hun.
    apply check_inv; [done|apply Hun, in_elt|done|].
    apply List.Forall_forall. intros c Hc. apply Hap. rewrite <- list_elem_of_In, !elem_of_app in *. destruct Hc as [Hc|Hc]; [left|right]; by apply inFlight_elem.
  - apply bind_Some in Hrun as ([w1 result] & Hstart & Hrun). injection Hrun as <- <-. split; [|apply Hsame]. split; rewrite ?Hsame; [|done..].
    destruct (insert_middle_thread threads i (cmd, Passed) (cmd, Ended result) Hi) as (before & after & -> & ->).
    rewrite inFlight_middle in *. cbn [isPassed snd fst app] in *. by eapply start_inv.
Qed.

(** How many turns a thread still needs. *)
Definition turnsLeft threads (i : nat) : nat :=
  match threads !! i with Some (_, Fresh) => 2 | Some (_, Passed) => 1 | _ => 0 end.

Lemma turnsLeft_max threads i : (turnsLeft threads i <= 2)%nat.
Proof. unfold turnsLeft. destruct (threads !! i) as [[cmd []]|]; lia. Qed.

Lemma advance_turns starts now w threads i w' threads' j :
  advance batchMaxDuration starts now (w, threads) i = Some (w', threads') →
  (turnsLeft threads' j <= turnsLeft threads j - if decide (i = j) then 1 else 0)%nat.
Proof.
  intros Hrun. unfold advance in Hrun. destruct (threads !! i) as [[cmd phase]|] eqn:Hi.
  2:{ injection Hrun as <- <-. case_decide; [|lia]. subst j. unfold turnsLeft. rewrite Hi. lia. }
  assert (∀ phase', threads' = <[i := (cmd, phase')]> threads → (match phase' with Fresh => 2 | Passed => 1 | Ended _ => 0 end <= turnsLeft threads i - 1)%nat →
    (turnsLeft threads' j <= turnsLeft threads j - if decide (i = j) then 1 else 0)%nat) as Hstep.
  { intros phase' -> Hle. unfold turnsLeft at 1. case_decide as Hij.
    - subst j. rewrite list_lookup_insert_eq by by eapply lookup_lt_Some. by destruct phase'.
    - rewrite list_lookup_insert_ne by done. unfold turnsLeft. lia. }
  assert (turnsLeft threads i = match phase with Fresh => 2 | Passed => 1 | Ended _ => 0 end)%nat as Hleft by (unfold turnsLeft; rewrite Hi; by destruct phase).
  destruct phase as [| |result].
  - injection Hrun as <- <-. eapply Hstep; [reflexivity|]. rewrite Hleft. destruct (HasAny _ _); lia.
  - apply bind_Some in Hrun as ([w1 result] & _ & Hrun). injection Hrun as <- <-. eapply Hstep; [reflexivity|]. rewrite Hleft. lia.
  - injection Hrun as <- <-. case_decide; subst; lia.
Qed.

Lemma advanceAll_inv starts now picks : ∀ w threads w' threads',
  advanceAll batchMaxDuration starts now picks (w, threads) = Some (w', threads') → threads_inv w threads →
  threads_inv w' threads' ∧ threads'.*1 = threads.*1 ∧
  ∀ j, (turnsLeft threads' j <= turnsLeft threads j - length (List.filter (λ i, bool_decide (i = j)) picks))%nat.
Proof.
  induction picks as [|i picks IH]; intros w threads w' threads'; cbn [advanceAll].
  { intros [= <- <-] Hinv. split_and!; [done|done|]. intros j. cbn. lia. }
  intros ([w1 threads1] & Hadv & Hrun)%bind_Some Hinv. pose proof (λ j, advance_turns _ _ _ _ _ _ _ j Hadv) as Hturn.
  apply advance_inv in Hadv as [Hinv1 Hsame1]; [|done]. destruct (IH _ _ _ _ Hrun Hinv1) as (Hinv' & Hsame & Hleft).
  split_and!; [done|congruence|]. intros j. specialize (Hturn j). specialize (Hleft j). cbn [List.filter].
  repeat case_decide; case_bool_decide; cbn [length]; try done; lia.
Qed.

Lemma count_seq (n j : nat) : (j < n)%nat → (1 <= length (List.filter (λ i, bool_decide (i = j)) (seq 0 n)))%nat.
Proof.
  intros Hj. assert (j ∈ List.filter (λ i, bool_decide (i = j)) (seq 0 n)) as Hin.
  { apply elem_of_filter_list. split; [apply elem_of_seq; lia|by apply bool_decide_eq_true]. }
  destruct (List.filter _ _); [by apply not_elem_of_nil in Hin|cbn; lia].
Qed.

(** Whatever the order of their steps, starting commands that share no node leaves
    the queue as a run of the queue does, and all of them come to an end. *)
Lemma startAll_inv w cmds picks starts now w' err :
  startAll batchMaxDuration w cmds picks starts now = Some (w', err) →
  queue_inv (w, []) → ForallOrdPairs apart cmds → Forall unstarted cmds → queue_inv (w', []).
Proof.
  intros ([w1 threads] & Hrun & Heq)%bind_Some Hq Hap Hun. injection Heq as <- <-.
  destruct (advanceAll_inv _ _ _ _ _ _ _ Hrun) as (Hinv & Hsame & Hleft); [by apply fresh_threads|].
  apply ti_queue in Hinv. replace (inFlight threads) with (@nil QCommand) in Hinv; [done|]. symmetry.
  assert (∀ t, t ∈ threads → isPassed t = false) as Hnone; [|unfold inFlight; clear -Hnone; induction threads as [|t threads IH]; [done|]; cbn [List.filter];
    rewrite Hnone by set_solver; apply IH; intros; apply Hnone; set_solver].
  intros t (j & Hj)%list_elem_of_lookup. specialize (Hleft j). rewrite !List.filter_app, !length_app in Hleft.
  assert (j < length cmds)%nat as Hlt. { rewrite <- (fresh_commands cmds), <- Hsame, length_fmap. by eapply lookup_lt_Some. }
  pose proof (count_seq _ _ Hlt). assert (turnsLeft threads j = 0)%nat as Hzero by (pose proof (turnsLeft_max ((λ cmd : QCommand, (cmd, Fresh)) <$> cmds) j); lia).
  unfold turnsLeft in Hzero. rewrite Hj in Hzero. by destruct t as [? []].
Qed.
End start_theory.

(** ** What the controller relies on *)

Section laws.
Context {Q : Type} `{QuantityLaws Q} {NI : NetIP} {TL : TaintLib} {PS : Parsers} {SA : StorageAPI} {PR : PodResources Q} {GR : GoRange}.
Implicit Types (w : QueueWorld Q) (m : Method Q).

Definition inQueue w (id : string) : Prop := is_Some (ProviderIDToCommand (qw_queue w) !! id).

(** Nothing is being started, and nodes are cached under their provider IDs. *)
Record world_ok w : Prop := {
  wo_queue : queue_inv (w, []);
  wo_keyed : ∀ id n, nodes (qw_cluster w) !! id = Some n → ProviderID n = Some id;
}.

(** What a method promises: it leaves the world in order, what it puts in the
    queue itself are candidates it was given, nothing if it returns no command, and of
    distinct candidates the commands it leaves to be started share none. *)
Class MethodOk m : Prop := {
  mo_world : ∀ w totals budget cands w' r, world_ok w → m_ComputeCommands m w totals budget cands = Some (w', r) → world_ok w';
  mo_new : ∀ w totals budget cands w' r id, world_ok w → m_ComputeCommands m w totals budget cands = Some (w', r) →
    inQueue w' id → inQueue w id ∨ id ∈ cd_ProviderID <$> cands;
  mo_idle : ∀ w totals budget cands w' cmds id, world_ok w → m_ComputeCommands m w totals budget cands = Some (w', inr cmds) →
    pendingCommands cmds = None → inQueue w' id → inQueue w id;
  mo_pending : ∀ w totals budget cands w' cmds pending, world_ok w → NoDup (cd_ProviderID <$> cands) →
    m_ComputeCommands m w totals budget cands = Some (w', inr cmds) → pendingCommands cmds = Some pending →
    NoDup (cd_ProviderID <$> heldCandidates pending) ∧ ∀ c, c ∈ heldCandidates pending → cd_ProviderID c ∈ cd_ProviderID <$> cands;
}.
End laws.

Section new_ids.
Context {Q : Type} `{QuantityLaws Q} {NI : NetIP} {TL : TaintLib} {PS : Parsers} {SA : StorageAPI} {PR : PodResources Q} {GR : GoRange}
  (batchMaxDuration : Z).
Implicit Types (w : QueueWorld Q) (threads : list (QCommand * Phase)).

Lemma startChecked_new w cmd answer created nominated now w' result id :
  startChecked w cmd answer created nominated batchMaxDuration now = Some (w', result) → cluster_wf settled (qw_cluster w) →
  inQueue w' id → inQueue w id ∨ id ∈ providerIDs (qcmd_Candidates cmd).
Proof.
  intros Hrun Hwf. destruct (startChecked_cases _ _ _ _ _ _ _ _ _ Hrun Hwf) as (_ & _ & [Hq|(marked & names & Hm & _ & _ & Hmap)]); unfold inQueue.
  - rewrite Hq. by left.
  - rewrite Hmap, insert_all_lookup. case_decide as Hin; [|by left]. intros _. right. apply list_elem_of_fmap in Hin as (c & -> & Hc).
    by apply list_elem_of_fmap_2, Hm.
Qed.

Lemma advanceAll_new starts now picks id : ∀ w threads w' threads',
  advanceAll batchMaxDuration starts now picks (w, threads) = Some (w', threads') → threads_inv w threads →
  inQueue w' id → inQueue w id ∨ ∃ cmd, cmd ∈ threads.*1 ∧ id ∈ providerIDs (qcmd_Candidates cmd).
Proof.
  induction picks as [|i picks IH]; intros w threads w' threads'; cbn [advanceAll].
  { intros [= <- <-] _. by left. }
  intros ([w1 threads1] & Hadv & Hrun)%bind_Some Hinv Hid. destruct (advance_inv _ _ _ _ _ _ _ _ Hadv Hinv) as [Hinv1 Hsame].
  destruct (IH _ _ _ _ Hrun Hinv1 Hid) as [Hw1|Hc]; [|rewrite Hsame in Hc; by right].
  unfold advance in Hadv. destruct (threads !! i) as [[cmd phase]|] eqn:Hi; [|injection Hadv as <- <-; by left].
  destruct phase as [| |result]; [injection Hadv as <- <-; by left| |injection Hadv as <- <-; by left].
  apply bind_Some in Hadv as ([w2 result] & Hstart & Hadv). injection Hadv as <- <-.
  destruct (startChecked_new _ _ _ _ _ _ _ _ id Hstart (qi_cluster _ (ti_queue _ _ Hinv)) Hw1) as [Hw|Hc]; [by left|right].
  exists cmd. split; [|done]. apply list_elem_of_lookup_2 in Hi. by apply (list_elem_of_fmap_2 fst) in Hi.
Qed.

Lemma startAll_new w cmds picks starts now w' err id :
  startAll batchMaxDuration w cmds picks starts now = Some (w', err) → queue_inv (w, []) → ForallOrdPairs apart cmds → Forall unstarted cmds →
  inQueue w' id → inQueue w id ∨ ∃ cmd, cmd ∈ cmds ∧ id ∈ providerIDs (qcmd_Candidates cmd).
Proof.
  intros ([w1 threads] & Hrun & Heq)%bind_Some Hq Hap Hun Hid. injection Heq as <- <-.
  rewrite <- (fresh_commands cmds). eapply advanceAll_new; [exact Hrun|by apply fresh_threads|done].
Qed.
End new_ids.

Section controller_theory.
Context {LT : LabelTables} {PL : ProviderLabels} {GR : GoRange} {TL : TaintLib} {PS : Parsers} {SL : SelectorLib} {CR : Cron} {IS : IntStr}
  {Q : Type} `{QuantityLaws Q} {NI : NetIP} {SA : StorageAPI} {PR : PodResources Q}
  (rand : Z → Z) (clusterCost : option ClusterCost) (batchMaxDuration : Z) (claimNameOf : Candidate Q → string).
Implicit Types (w : QueueWorld Q) (m : Method Q) (reads : MethodReads Q) (n : StateNode Q) (steps : list (Method Q * MethodReads Q)).
#[local] Abbreviation disrupt := (disrupt rand clusterCost batchMaxDuration claimNameOf).
#[local] Abbreviation tryMethods := (tryMethods rand clusterCost batchMaxDuration claimNameOf).
#[local] Abbreviation queueCommand := (queueCommand claimNameOf).

Lemma queueCommand_ids now (cmd : Command Q) : providerIDs (qcmd_Candidates (queueCommand now cmd)) = cd_ProviderID <$> cmd_Candidates cmd.
Proof. unfold providerIDs. cbn. by rewrite <- list_fmap_compose. Qed.

Lemma queueCommands_unstarted now (cmds : list (Command Q)) : Forall unstarted (queueCommand now <$> cmds).
Proof.
  apply List.Forall_forall. intros c Hc. apply list_elem_of_In, list_elem_of_fmap in Hc as (cmd & -> & _). split; [done|].
  intros r (x & -> & _)%list_elem_of_fmap. done.
Qed.

Lemma queueCommands_apart now (cmds : list (Command Q)) :
  NoDup (cd_ProviderID <$> heldCandidates cmds) → ForallOrdPairs apart (queueCommand now <$> cmds).
Proof.
  induction cmds as [|cmd cmds IH]; [constructor|]. unfold heldCandidates. rewrite !fmap_cons. cbn [concat]. rewrite fmap_app.
  intros (_ & Hdis & Hrest)%NoDup_app. constructor; [|by apply IH]. apply List.Forall_forall. intros c Hc.
  apply list_elem_of_In, list_elem_of_fmap in Hc as (cmd' & -> & Hc). intros id. rewrite !queueCommand_ids. intros Hid Hid'. apply (Hdis id Hid).
  apply list_elem_of_fmap in Hid' as (x & -> & Hx). apply list_elem_of_fmap_2. apply list_elem_of_In, in_concat.
  eexists. split; [apply list_elem_of_In, list_elem_of_fmap_2, Hc|by apply list_elem_of_In].
Qed.

(** Distinct cached nodes are distinct candidates. *)
Lemma candidates_distinct podsOn now (cl : Cluster Q) should class q nodePools types pdbs cands totals :
  (∀ id n, nodes cl !! id = Some n → ProviderID n = Some id) →
  GetCandidatesWithTotals rand podsOn now cl should class q clusterCost nodePools types pdbs = Some (inr (cands, totals)) →
  NoDup (cd_ProviderID <$> cands).
Proof.
  intros Hkey Hrun. unfold GetCandidatesWithTotals in Hrun. destruct (BuildNodePoolMap nodePools types) as [[pools its]|]; [|done].
  destruct (NewLimits pdbs) as [l|]; [|done]. apply bind_Some in Hrun as (results & Hall & Hrun). apply bind_Some in Hrun as (t & _ & Hrun).
  injection Hrun as <- <-. apply mapM_Some in Hall. unfold DeepCopyNodes in Hall.
  assert (∀ key n, (key, n) ∈ gorange (nodes cl) → ProviderID n = Some key) as Hkeys by (intros key n Hin%elem_of_gorange; by apply Hkey).
  assert (NoDup (cd_ProviderID <$> omap accepted results) ∧ ∀ id, id ∈ cd_ProviderID <$> omap accepted results → id ∈ (gorange (nodes cl)).*1) as [Hnd _].
  { pose proof (gorange_keys_NoDup (nodes cl)) as Hnd. revert results Hall Hkeys Hnd. induction (gorange (nodes cl)) as [|[key n] ns IH]; intros results Hall Hkeys Hnd.
    { inversion Hall; subst. split; [constructor|set_solver]. }
    rewrite fmap_cons in Hall. inversion Hall as [|? r ? rs Hnew Hall']; subst. rewrite fmap_cons in Hnd. apply NoDup_cons in Hnd as [Hnotin Hnd].
    destruct (IH rs Hall') as [IH1 IH2]; [intros; apply Hkeys; set_solver|done|]. destruct r as [e|c]; cbn [omap list_omap accepted].
    - split; [done|]. intros id Hid. rewrite fmap_cons. right. by apply IH2.
    - apply NewCandidate_fields in Hnew as (Hid & _). cbn [snd] in Hid. rewrite (Hkeys key n) in Hid by set_solver. injection Hid as ->.
      rewrite !fmap_cons. cbn [fst]. split; [constructor; [by intros Hin%IH2|done]|].
      intros id [->|Hin]%elem_of_cons; [by left|right]. by apply IH2. }
  clear -Hnd. induction (omap accepted results) as [|c l IH]; [constructor|]. rewrite fmap_cons in Hnd. apply NoDup_cons in Hnd as [Hn Hnd]. cbn [List.filter].
  destruct (should c); [|by apply IH]. rewrite fmap_cons. constructor; [|by apply IH]. intros (x & Hx & [Hin _]%elem_of_filter_list)%list_elem_of_fmap.
  apply Hn. rewrite Hx. by apply list_elem_of_fmap_2.
Qed.

(** The node with this provider ID may be disrupted by the method, as the cluster
    was when it gathered its candidates. *)
Definition eligible_for w m reads (id : string) : Prop :=
  ∃ key n pools types l, nodes (qw_cluster w) !! key = Some n ∧ ProviderID n = Some id ∧
    BuildNodePoolMap (mr_nodePools reads) (mr_instanceTypes reads) = Some (pools, types) ∧ NewLimits (mr_pdbs reads) = Some l ∧
    may_be_candidate (mr_podsOn reads) (mr_now reads) n l pools types (qw_queue w) (m_Class m) ∧
    ∃ c, cd_ProviderID c = id ∧ Name n = Some (cd_Name c) ∧ m_ShouldDisrupt m w c = true.

Lemma disrupt_spec w m reads w' r :
  disrupt w m reads = Some (w', r) → world_ok w → MethodOk m →
  queue_inv (w', []) ∧ (r = inr false → world_ok w' ∧ ∀ id, inQueue w' id → inQueue w id) ∧ ∀ id, inQueue w' id → inQueue w id ∨ eligible_for w m reads id.
Proof.
  intros (cr & Hcands & Hrun)%bind_Some Hok Hm.
  assert (∀ r', Some (w, r') = Some (w', r) → queue_inv (w', []) ∧ (r = inr false → world_ok w' ∧ ∀ id, inQueue w' id → inQueue w id) ∧
    ∀ id, inQueue w' id → inQueue w id ∨ eligible_for w m reads id) as Hstay.
  { intros r' [= <- <-]. split_and!; [apply wo_queue, Hok|done|by left]. }
  destruct cr as [e|[cands totals]]; [by eapply Hstay|].
  pose proof (candidates_distinct _ _ _ _ _ _ _ _ _ _ _ (wo_keyed _ Hok) Hcands) as Hnd.
  assert (∀ id, id ∈ cd_ProviderID <$> cands → eligible_for w m reads id) as Hel.
  { intros id (c & -> & Hc)%list_elem_of_fmap. apply candidates_spec in Hcands as (pools & types & l & Hp & Hl & Hall & _).
    destruct (Hall c Hc) as (Hs & key & n & Hn & He & Hid & Hname & _). exists key, n, pools, types, l. split_and!; try done. by exists c. }
  destruct cands as [|c0 cands0]; [by eapply Hstay|]. set (cands := c0 :: cands0) in *. destruct (mr_budgetPools reads) as [nps|]; [|by eapply Hstay].
  apply bind_Some in Hrun as ([w1 result] & Hcomp & Hrun). pose proof (mo_world _ _ _ _ _ _ Hok Hcomp) as Hok1.
  assert (∀ id, inQueue w1 id → inQueue w id ∨ eligible_for w m reads id) as Hnew.
  { intros id Hid. destruct (mo_new _ _ _ _ _ _ id Hok Hcomp Hid); auto. }
  destruct result as [e|cmds]; [injection Hrun as <- <-; split_and!; [apply wo_queue, Hok1|done|done]|].
  destruct (pendingCommands cmds) as [pending|] eqn:Hpend.
  2:{ injection Hrun as <- <-. split_and!; [apply wo_queue, Hok1|intros _; split; [done|]; intros id; by eapply mo_idle|done]. }
  apply bind_Some in Hrun as ([w2 err] & Hstart & Hrun). injection Hrun as <- <-. destruct (mo_pending _ _ _ _ _ _ _ Hok Hnd Hcomp Hpend) as [Hnd' Hsub].
  pose proof (queueCommands_apart (mr_now reads) _ Hnd') as Hap. pose proof (queueCommands_unstarted (mr_now reads) pending) as Hun. split_and!.
  - eapply startAll_inv; [exact Hstart|apply wo_queue, Hok1|done|done].
  - by destruct err.
  - intros id Hid. destruct (startAll_new _ _ _ _ _ _ _ _ id Hstart (wo_queue _ Hok1) Hap Hun Hid) as [?|(qc & Hqc & Hin)]; [by apply Hnew|right].
    apply list_elem_of_fmap in Hqc as (cmd & -> & Hcmd). rewrite queueCommand_ids in Hin. apply Hel. apply list_elem_of_fmap in Hin as (c & -> & Hc).
    apply Hsub. apply list_elem_of_In, in_concat. eexists. split; [apply list_elem_of_In, list_elem_of_fmap_2, Hcmd|by apply list_elem_of_In].
Qed.

(** Every method of these has nothing to do. *)
Inductive declined : QueueWorld Q → list (Method Q * MethodReads Q) → QueueWorld Q → Prop :=
  | declined_nil w : declined w [] w
  | declined_cons w m reads w1 steps w' : disrupt w m reads = Some (w1, inr false) → declined w1 steps w' → declined w ((m, reads) :: steps) w'.

Definition failure (e : ApiError) : ReconcileResult := if IsConflict e then Requeue else ReconcileFailed e.

Lemma declined_ok w steps w' : declined w steps w' → world_ok w → (∀ m reads, (m, reads) ∈ steps → MethodOk m) →
  world_ok w' ∧ ∀ id, inQueue w' id → inQueue w id.
Proof.
  induction 1 as [w|w m reads w1 steps w' Hd _ IH]; intros Hok Hms; [done|].
  destruct (disrupt_spec _ _ _ _ _ Hd Hok) as (_ & Hno & _); [eapply Hms; by left|]. destruct (Hno eq_refl) as [Hok1 Hq1].
  destruct (IH Hok1) as [Hok' Hq']; [intros m' reads' Hin; eapply Hms; by right|]. split; [done|]. intros id Hid. by apply Hq1, Hq'.
Qed.

(** One method acts or fails, and only after those before it declined, which queued
    nothing; what it queued it could disrupt in the world they left. *)
Definition one_acts w steps w' r : Prop :=
  ∃ before after w1, steps = before ++ after ∧ declined w before w1 ∧ (∀ id, inQueue w1 id → inQueue w id) ∧
    match after with
    | [] => w' = w1 ∧ r = RequeueAfter pollingPeriod
    | (m, reads) :: _ =>
        (disrupt w1 m reads = Some (w', inr true) ∧ r = RequeueImmediately ∨ ∃ e, disrupt w1 m reads = Some (w', inl e) ∧ r = failure e) ∧
        ∀ id, inQueue w' id → inQueue w1 id ∨ eligible_for w1 m reads id
    end.

Lemma tryMethods_acts steps : ∀ w w' r, tryMethods w steps = Some (w', r) → world_ok w → (∀ m reads, (m, reads) ∈ steps → MethodOk m) →
  queue_inv (w', []) ∧ one_acts w steps w' r.
Proof.
  induction steps as [|[m reads] steps IH]; intros w w' r; cbn [Controller.tryMethods].
  { intros [= <- <-] Hok _. split; [apply wo_queue, Hok|]. exists [], [], w. split_and!; [done|constructor|done|done|done]. }
  intros ([w1 result] & Hd & Hrun)%bind_Some Hok Hms. destruct (disrupt_spec _ _ _ _ _ Hd Hok) as (Hq & Hno & Hnew); [eapply Hms; by left|].
  destruct result as [e|[]].
  - injection Hrun as <- <-. split; [done|]. exists [], ((m, reads) :: steps), w. split_and!; [done|constructor|done|right; by exists e|done].
  - injection Hrun as <- <-. split; [done|]. exists [], ((m, reads) :: steps), w. split_and!; [done|constructor|done|by left|done].
  - destruct (Hno eq_refl) as [Hok1 Hq1].
    destruct (IH _ _ _ Hrun Hok1) as (Hq' & before & after & w2 & -> & Hdec & Hsame & Hres); [intros m' reads' Hin; eapply Hms; by right|].
    split; [done|]. exists ((m, reads) :: before), after, w2. split_and!; [done|by econstructor| |done]. intros id Hid. by apply Hq1, Hsame.
Qed.

(** ** Leftovers *)

(** The effect is on a node that is in no command and not marked for deletion. *)
Definition leftover w (e : Effect) : Prop :=
  ∃ n id claim, n ∈ DeepCopyNodes (qw_cluster w) ∧ MarkedForDeletion n = false ∧ ProviderID n = Some id ∧ ~ inQueue w id ∧
    sn_NodeClaim n = Some claim ∧ (e = EUntaint id ∨ e = EClearCondition (nc_Name claim)).

Lemma outdated_spec w ns n :
  outdatedNodes w = Some ns → n ∈ ns →
  n ∈ DeepCopyNodes (qw_cluster w) ∧ MarkedForDeletion n = false ∧ ∃ id, ProviderID n = Some id ∧ ~ inQueue w id.
Proof.
  intros (flags & Hall & Heq)%bind_Some Hn. injection Heq as <-. apply list_elem_of_fmap in Hn as ([n' b] & -> & [Hin Hb]%elem_of_filter_list).
  cbn [fst snd] in *. subst b. apply mapM_Some in Hall. apply list_elem_of_lookup in Hin as (i & Hi).
  destruct (Forall2_lookup_r _ _ _ _ _ Hall Hi) as (x & Hx & Hflag). apply bind_Some in Hflag as (b & Hb & Heq). injection Heq as -> ->.
  apply bind_Some in Hb as (id & Hid & Heq). injection Heq as Hf. apply negb_true_iff in Hf.
  apply orb_false_iff in Hf as [Hq Hmark]. split_and!; [by eapply list_elem_of_lookup_2|done|]. exists id. split; [done|]. intros Hin.
  cbn in Hq. rewrite orb_false_r in Hq. by apply bool_decide_eq_false in Hq.
Qed.

Lemma forNodes_spec w ns (f : StateNode Q → list Effect * list ApiError) :
  outdatedNodes w = Some ns →
  (∀ n e, e ∈ (f n).1 → ∃ claim, sn_NodeClaim n = Some claim ∧ ((∃ id, ProviderID n = Some id ∧ e = EUntaint id) ∨ e = EClearCondition (nc_Name claim))) →
  ∀ e, e ∈ (forNodes f ns).1 → leftover w e.
Proof.
  intros Hout Hf e He. cbn [forNodes fst] in He. apply list_elem_of_In, in_concat in He as (es & Hes & He).
  apply list_elem_of_In, list_elem_of_fmap in Hes as (n & -> & Hn). apply list_elem_of_In in He.
  destruct (outdated_spec _ _ _ Hout Hn) as (Hin & Hmark & id & Hid & Hq). destruct (Hf n e He) as (claim & Hclaim & Hor).
  exists n, id, claim. split_and!; [done..|]. destruct Hor as [(id' & Hid' & ->)| ->]; [left; congruence|by right].
Qed.

Lemma untaint_effects attempt n e : e ∈ (RequireNoScheduleTaint1 false attempt n).1 →
  ∃ claim, sn_NodeClaim n = Some claim ∧ ((∃ id, ProviderID n = Some id ∧ e = EUntaint id) ∨ e = EClearCondition (nc_Name claim)).
Proof.
  unfold RequireNoScheduleTaint1, ProviderID. destruct (sn_Node n) as [node|], (sn_NodeClaim n) as [claim|]; try by intros ?%not_elem_of_nil.
  destruct (attempt n) as [|err|[taints deleting] patch]; [by intros ?%not_elem_of_nil..|].
  destruct (requiredTaints _ _ _), patch; cbn [fst]; intros He; try (by apply not_elem_of_nil in He). apply list_elem_of_singleton in He as ->.
  exists claim. split; [done|]. left. by eexists.
Qed.

Lemma clear_effects attempt n e : e ∈ (ClearNodeClaimsCondition1 attempt n).1 →
  ∃ claim, sn_NodeClaim n = Some claim ∧ ((∃ id, ProviderID n = Some id ∧ e = EUntaint id) ∨ e = EClearCondition (nc_Name claim)).
Proof.
  unfold ClearNodeClaimsCondition1. destruct (sn_NodeClaim n) as [claim|]; [|by intros ?%not_elem_of_nil].
  destruct (negb (Initialized n)); [by intros ?%not_elem_of_nil|].
  destruct (attempt n) as [|err|[] [err|]]; cbn [fst]; intros He; try (by apply not_elem_of_nil in He). apply list_elem_of_singleton in He as ->.
  exists claim. split; [done|by right].
Qed.

Lemma leftover_no_delete w e : leftover w e → no_delete e.
Proof. by intros (? & ? & ? & _ & _ & _ & _ & _ & [-> | ->]). Qed.

Lemma addEffects_ok w es : world_ok w → (∀ e, e ∈ es → no_delete e) → world_ok (addEffects w es).
Proof.
  intros [Hq Hk] Hes. split; [|done]. apply add_effects_inv; [done|]. apply List.Forall_forall. intros e He. by apply Hes, list_elem_of_In.
Qed.

Lemma Synced_nodes (cl : Cluster Q) names : (Synced cl names).1 = cl ∨ (Synced cl names).1 = SetSynced cl true.
Proof.
  unfold Synced. destruct (hasSynced cl); [by left|]. destruct names as [[claims ns]|]; [|by left].
  destruct (negb _); [by left|]. destruct (_ && _); [by right|by left].
Qed.

Lemma Synced_world w names : world_ok w → world_ok (mkQueueWorld (qw_queue w) (Synced (qw_cluster w) names).1 (qw_trace w)) ∧
  nodes (Synced (qw_cluster w) names).1 = nodes (qw_cluster w).
Proof.
  intros [[Hknown Hwhole Hfree Happ Hun Hinit Hdel Hcl] Hkey]. destruct (Synced_nodes (qw_cluster w) names) as [-> | ->].
  - split; [|done]. by split.
  - split; [|done]. split; [|done]. split; try done. cbn [fst snd qw_cluster] in *. by eapply wf_same; [..|exact Hcl].
Qed.

(** C12. A pass of the disruption controller keeps the queue in order and disrupts only
    what may be disrupted, for all methods that keep their promises and however
    the starts of their commands interleave.  Taints and conditions are removed
    only from nodes in no command and not marked for deletion, and nothing else has
    changed in the queue and the cached nodes before the first method.  The methods
    are tried in order and at most one of them acts or fails: those before it had
    nothing to do and put nothing in the queue, and every node that it put there was
    a cached node which the method asks for and which may be disrupted, in the world
    those before it left behind and in which it gathered its candidates. *)
Theorem controller_disrupts_eligible w apiNames taintAttempt conditionAttempt steps w' r
    (Hok : world_ok w) (Hms : ∀ m reads, (m, reads) ∈ steps → MethodOk m)
    (Hrun : ReconcileDisruption rand clusterCost batchMaxDuration claimNameOf w apiNames taintAttempt conditionAttempt steps = Some (w', r)) :
  queue_inv (w', []) ∧
  ∃ es w0, qw_trace w0 = es ++ qw_trace w ∧ (∀ e, e ∈ es → leftover w e) ∧ qw_queue w0 = qw_queue w ∧ nodes (qw_cluster w0) = nodes (qw_cluster w) ∧
    (w' = w0 ∧ (r = RequeueAfter Second ∨ ∃ e, r = failure e) ∨
     ∃ before after w1, steps = before ++ after ∧ declined w0 before w1 ∧ (∀ id, inQueue w1 id → inQueue w0 id) ∧
       match after with
       | [] => w' = w1 ∧ r = RequeueAfter pollingPeriod
       | (m, reads) :: _ =>
           (disrupt w1 m reads = Some (w', inr true) ∧ r = RequeueImmediately ∨ ∃ e, disrupt w1 m reads = Some (w', inl e) ∧ r = failure e) ∧
           ∀ id, inQueue w' id → inQueue w1 id ∨ eligible_for w1 m reads id
       end).
Proof.
  unfold ReconcileDisruption in Hrun. destruct (Synced_world w apiNames Hok) as [Hok1 Hnodes].
  destruct (Synced (qw_cluster w) apiNames) as [cl synced]. cbn [fst] in Hok1, Hnodes. set (w1 := mkQueueWorld _ _ _) in *.
  assert (∀ e, leftover w1 e → leftover w e) as Hleft.
  { intros e (n & id & claim & Hn & Hrest). exists n, id, claim. split; [|done]. unfold DeepCopyNodes in *. cbn [w1 qw_cluster] in Hn. by rewrite Hnodes in Hn. }
  destruct synced; cbn [negb] in Hrun.
  2:{ injection Hrun as <- <-. split; [apply wo_queue, Hok1|]. exists [], w1. split_and!; [done|by intros e ?%not_elem_of_nil|done|done|]. left. split; [done|by left]. }
  apply bind_Some in Hrun as (outdated & Hout & Hrun).
  pose proof (forNodes_spec _ _ _ Hout (untaint_effects taintAttempt)) as Ht. pose proof (forNodes_spec _ _ _ Hout (clear_effects conditionAttempt)) as Hc.
  unfold RequireNoScheduleTaint, ClearNodeClaimsCondition in Hrun.
  destruct (forNodes (RequireNoScheduleTaint1 false taintAttempt) outdated) as [es err]. cbn [fst] in Ht.
  assert (world_ok (addEffects w1 es)) as Hok2 by (apply addEffects_ok; [done|]; intros e He; by eapply leftover_no_delete, Ht).
  destruct err as [e|].
  { injection Hrun as <- <-. split; [apply wo_queue, Hok2|]. exists es, (addEffects w1 es). split_and!; [done|auto|done|done|]. left. split; [done|]. right. by exists e. }
  destruct (forNodes (ClearNodeClaimsCondition1 conditionAttempt) outdated) as [es' err]. cbn [fst] in Hc.
  assert (world_ok (addEffects (addEffects w1 es) es')) as Hok3 by (apply addEffects_ok; [done|]; intros e He; by eapply leftover_no_delete, Hc).
  assert (∀ e, e ∈ es' ++ es → leftover w e) as Hall by (intros e [?|?]%elem_of_app; auto).
  destruct err as [e|].
  { injection Hrun as <- <-. split; [apply wo_queue, Hok3|]. exists (es' ++ es), (addEffects (addEffects w1 es) es').
    split_and!; [by cbn; rewrite <- app_assoc|done|done|done|]. left. split; [done|]. right. by exists e. }
  destruct (tryMethods_acts _ _ _ _ Hrun Hok3 Hms) as [Hq Hacts]. split; [done|].
  exists (es' ++ es), (addEffects (addEffects w1 es) es'). split_and!; [by cbn; rewrite <- app_assoc|done|done|done|by right].
Qed.
End controller_theory.

(** ** Drift keeps its promises *)

(** The methods of [Drift.v] as the controller runs them. *)
Section drift_methods.
Context {LT : LabelTables} {PL : ProviderLabels} {GS : GoSort} {GR : GoRange} {TL : TaintLib} {PS : Parsers}
  {Q : Type} `{Quantity Q} {NI : NetIP} {DW : DriftWorld (QueueWorld Q) Q} (simulationError : ApiError).

Definition DisruptionReasonDrifted : string := "Drifted".

Definition NewDrift : Method Q := mkMethod DisruptionReasonDrifted EventualDisruptionClass (λ _, ShouldDisruptDrift) (λ w _ budget cands,
  let '(w, result) := ComputeDriftCommands budget cands w in
  Some (w, match result with inl _ => inl simulationError | inr cmds => inr ((λ cmd, (cmd, false)) <$> cmds) end)).

Definition NewStaticDrift : Method Q := mkMethod DisruptionReasonDrifted EventualDisruptionClass (λ _, ShouldDisruptStaticDrift) (λ w _ budget cands,
  let '(state, cmds) := ComputeStaticDriftCommands budget (cl_NodePoolState (qw_cluster w)) cands in
  Some (mkQueueWorld (qw_queue w) (withPoolState (qw_cluster w) state) (qw_trace w), inr ((λ cmd, (cmd, false)) <$> cmds))).
End drift_methods.

Section drift_methods_theory.
Context {LT : LabelTables} {LTok : LabelTablesOk} {PL : ProviderLabels} {OL : OfferingLabels} {GS : GoSort} {GR : GoRange} {TL : TaintLib} {PS : Parsers}
  {Q : Type} `{QuantityLaws Q} {NI : NetIP} {SA : StorageAPI} {PR : PodResources Q} {DW : DriftWorld (QueueWorld Q) Q} (simulationError : ApiError).
Implicit Types (w : QueueWorld Q) (c : Candidate Q) (cands : list (Candidate Q)) (cmds : list (Command Q)).

(** A simulation leaves the queue alone and the world in order. *)
Definition simulation_keeps : Prop :=
  ∀ w c, world_ok w → world_ok (simulateDrift w c).1 ∧ qw_queue (simulateDrift w c).1 = qw_queue w.

Lemma pendingCommands_held cmds pending :
  pendingCommands ((λ cmd, (cmd, false)) <$> cmds) = Some pending → sublist (heldCandidates pending) (heldCandidates cmds).
Proof.
  unfold pendingCommands. destruct (List.filter _ _) as [|x l] eqn:Hf; [done|]. rewrite <- Hf. intros [= <-]. clear Hf x l.
  induction cmds as [|cmd cmds IH]; [done|]. rewrite fmap_cons. cbn [List.filter fst]. unfold heldCandidates in *. rewrite fmap_cons. cbn [concat].
  destruct (isNoOp cmd); cbn [negb]; [by apply sublist_inserts_l|]. cbn [List.filter snd negb]. rewrite !fmap_cons. cbn [concat fst]. by apply sublist_app.
Qed.

Lemma pendingCommands_distinct cmds pending cands :
  pendingCommands ((λ cmd, (cmd, false)) <$> cmds) = Some pending → NoDup (cd_ProviderID <$> cands) → (∃ rest, heldCandidates cmds ++ rest ≡ₚ cands) →
  NoDup (cd_ProviderID <$> heldCandidates pending) ∧ ∀ c, c ∈ heldCandidates pending → cd_ProviderID c ∈ cd_ProviderID <$> cands.
Proof.
  intros Hsub%pendingCommands_held Hnd (rest & Hperm). split.
  - rewrite <- Hperm, fmap_app in Hnd. apply NoDup_app in Hnd as [Hnd _]. eapply sublist_NoDup; [exact Hnd|]. clear -Hsub.
    induction Hsub; cbn; [constructor|by constructor..].
  - intros c Hc. apply list_elem_of_fmap_2. rewrite <- Hperm. apply elem_of_app. left. by eapply elem_of_sublist.
Qed.

Lemma skips_keeps budget w cands w' : simulation_keeps → skips budget w cands w' → world_ok w → world_ok w' ∧ qw_queue w' = qw_queue w.
Proof.
  intros Hsim. induction 1 as [w|w c cands w' _ _ IH|w c outcome w1 cands w' _ Hs _ _ IH]; intros Hok; [done|by apply IH|].
  destruct (Hsim w c Hok) as [Hok1 Hq1]. rewrite Hs in Hok1, Hq1. cbn [fst] in *. destruct (IH Hok1) as [Hok' Hq']. split; [done|congruence].
Qed.

Lemma drift_run budget cands w w' result : simulation_keeps → ComputeDriftCommands budget cands w = (w', result) → world_ok w →
  world_ok w' ∧ qw_queue w' = qw_queue w ∧ match result with inl _ => True | inr cmds => ∃ rest, heldCandidates cmds ++ rest ≡ₚ cands end.
Proof.
  intros Hsim Hrun Hok. destruct (driftLoop_spec _ _ _ _ _ Hrun) as (before & after & w1 & Hord & Hsk & Hres).
  destruct (skips_keeps _ _ _ _ Hsim Hsk Hok) as [Hok1 Hq1]. pose proof (driftOrder_perm cands) as Hperm. rewrite Hord in Hperm.
  destruct result as [e|[|cmd []]]; [| | |done].
  - destruct Hres as (c & rest & deadline & -> & _ & Hs). destruct (Hsim w1 c Hok1) as [Hok' Hq']. rewrite Hs in Hok', Hq'.
    split_and!; [done|cbn in Hq'; congruence|done].
  - destruct Hres as [-> ->]. split_and!; [done|done|]. by exists cands.
  - destruct Hres as (c & rest & -> & _ & Hc & ncs & Hs & _). destruct (Hsim w1 c Hok1) as [Hok' Hq']. rewrite Hs in Hok', Hq'.
    split_and!; [done|cbn in Hq'; congruence|]. exists (before ++ rest). unfold heldCandidates. cbn. rewrite Hc. cbn. by rewrite <- Hperm, Permutation_middle.
Qed.

Lemma NewDrift_ok : simulation_keeps → MethodOk (NewDrift simulationError).
Proof.
  intros Hsim. split; cbn [NewDrift m_ComputeCommands].
  - intros w totals budget cands w' r Hok Hrun. destruct (ComputeDriftCommands budget cands w) as [w1 result] eqn:Hd. injection Hrun as <- _.
    by apply (drift_run _ _ _ _ _ Hsim Hd).
  - intros w totals budget cands w' r id Hok Hrun. destruct (ComputeDriftCommands budget cands w) as [w1 result] eqn:Hd. injection Hrun as <- _.
    destruct (drift_run _ _ _ _ _ Hsim Hd Hok) as (_ & Hq & _). unfold inQueue. rewrite Hq. by left.
  - intros w totals budget cands w' cmds id Hok Hrun _. destruct (ComputeDriftCommands budget cands w) as [w1 result] eqn:Hd. injection Hrun as <- _.
    destruct (drift_run _ _ _ _ _ Hsim Hd Hok) as (_ & Hq & _). unfold inQueue. by rewrite Hq.
  - intros w totals budget cands w' cmds pending Hok Hnd Hrun Hpend. destruct (ComputeDriftCommands budget cands w) as [w1 result] eqn:Hd.
    destruct (drift_run _ _ _ _ _ Hsim Hd Hok) as (_ & _ & Hheld). destruct result as [e|cmds']; [done|]. injection Hrun as <- <-.
    by eapply pendingCommands_distinct.
Qed.

Lemma static_held budget groups : ∀ state acc, ∃ rest,
  heldCandidates (foldl (staticStep budget) (state, acc) groups).2 ++ rest ≡ₚ heldCandidates acc ++ concat groups.*2.
Proof.
  induction groups as [|[p l] groups IH]; intros state acc; cbn [foldl]; [by exists []|].
  unfold staticStep at 2. cbn [fst snd]. destruct (staticPoolCommands budget state p l) as [state1 cmds1] eqn:Hs.
  destruct (IH state1 (acc ++ cmds1)) as (rest & Hrest).
  assert (∃ k, heldCandidates cmds1 ++ k = l) as (k & Hk).
  { unfold staticPoolCommands in Hs. destruct l as [|c l]; [injection Hs as <- <-; by exists []|].
    destruct (staticDrift _ _ _ _ _ _) as [state2 allowed]. injection Hs as <- <-. rewrite (held_static (DW := DW)). eexists. apply take_drop. }
  exists (rest ++ k). rewrite app_assoc, Hrest, held_app, fmap_cons. cbn [concat snd]. rewrite <- Hk. solve_Permutation.
Qed.

Lemma NewStaticDrift_ok : MethodOk (NewStaticDrift (DW := DW)).
Proof.
  split; cbn [NewStaticDrift m_ComputeCommands].
  - intros w totals budget cands w' r [[Hknown Hwhole Hfree Happ Hun Hinit Hdel Hcl] Hkey] Hrun. destruct (ComputeStaticDriftCommands _ _ _) as [state cmds].
    injection Hrun as <- _. split; [|done]. split; try done. cbn [fst snd qw_cluster] in *. by eapply wf_same; [..|exact Hcl].
  - intros w totals budget cands w' r id Hok Hrun. destruct (ComputeStaticDriftCommands _ _ _) as [state cmds]. injection Hrun as <- _. by left.
  - intros w totals budget cands w' cmds id Hok Hrun _. destruct (ComputeStaticDriftCommands _ _ _) as [state cmds']. by injection Hrun as <- _.
  - intros w totals budget cands w' cmds pending Hok Hnd Hrun Hpend. unfold ComputeStaticDriftCommands in Hrun.
    destruct (static_held budget (gorange (groupByPool cands)) (cl_NodePoolState (qw_cluster w)) []) as (rest & Hrest).
    destruct (foldl _ _ _) as [state cmds']. injection Hrun as <- <-. eapply pendingCommands_distinct; [done|done|]. exists rest. cbn [snd] in Hrest.
    rewrite Hrest. apply groupByPool_concat.
Qed.
End drift_methods_theory.

(** ** Emptiness and multi-node consolidation keep their promises *)

(** The methods of [MultiNode.v] as the controller runs them: [last] is the change of the
    cluster a method remembers, [err] the error it returns if it does. *)
Section consolidation_methods.
Context {LT : LabelTables} {PL : ProviderLabels} {GS : GoSort} {GR : GoRange} {PS : Parsers} {Q : Type} `{Quantity Q} {NI : NetIP}
  {SIM : Simulation (QueueWorld Q) Q} {MW : MethodWorld (QueueWorld Q) Q} (overrideKey : Offering Q → string * string) (rand : Z → Z)
  (opts : ConsolidationOptions) (advisor : option (string → InstanceType Q → Offering Q → bool)) (last : Z) (err : ApiError).

Definition DisruptionReasonEmpty : string := "Empty".
Definition DisruptionReasonUnderutilized : string := "Underutilized".

(** The state of a method that runs in this world, outside of a split pass. *)
Definition passIn (w : QueueWorld Q) : MethodState (QueueWorld Q) := mkMethodState (mkConsolidationState w None false) last.

Definition methodCommands (result : Commands) : ApiError + list (Command Q * bool) :=
  match result with inl _ => inl err | inr cmds => inr ((λ cmd, (cmd, false)) <$> cmds) end.

Definition NewEmptiness : Method Q := mkMethod DisruptionReasonEmpty GracefulDisruptionClass ShouldDisruptEmpty (λ w _ budget cands,
  let '(ms, result) := ComputeEmptyCommands budget cands (passIn w) in Some (world_of ms, methodCommands result)).

(** [SetNodePoolTotals] gives the evaluator its totals. *)
Definition NewMultiNodeConsolidation : Method Q := mkMethod DisruptionReasonUnderutilized GracefulDisruptionClass (λ _, ShouldDisrupt) (λ w totals budget cands,
  '(ms, result) ← ComputeMultiCommands overrideKey rand opts advisor (Some totals) budget cands (passIn w);
  Some (world_of ms, methodCommands result)).
End consolidation_methods.

Section consolidation_methods_theory.
Context {LT : LabelTables} {LTok : LabelTablesOk} {PL : ProviderLabels} {OL : OfferingLabels} {GS : GoSort} {GR : GoRange} {TL : TaintLib} {PS : Parsers}
  {Q : Type} `{QuantityLaws Q} {NI : NetIP} {SA : StorageAPI} {PR : PodResources Q}
  {SIM : Simulation (QueueWorld Q) Q} {MW : MethodWorld (QueueWorld Q) Q} (overrideKey : Offering Q → string * string) (rand : Z → Z)
  (opts : ConsolidationOptions) (advisor : option (string → InstanceType Q → Offering Q → bool)) (last : Z) (err : ApiError).
Implicit Types (w : QueueWorld Q) (cmd : Command Q) (cands : list (Candidate Q)).

(** What may happen to the world while a method computes: it stays in order, and nothing
    is added to the queue. *)
Definition keeps w w' : Prop := world_ok w → world_ok w' ∧ ∀ id, inQueue w' id → inQueue w id.

#[local] Instance keeps_preorder : PreOrder keeps.
Proof.
  split; [by intros w|]. intros w1 w2 w3 H12 H23 Hok. destruct (H12 Hok) as [Hok2 Hq2]. destruct (H23 Hok2) as [Hok3 Hq3].
  split; [done|]. intros id Hid. by apply Hq2, Hq3.
Qed.

(** Reading, simulating and waiting add nothing to the queue, and a validated command is
    on nodes of the proposed one: consolidation returns that command, emptiness those
    of its nodes, by name, that are still candidates. *)
Record consolidation_keeps : Prop := {
  ck_simulate : ∀ w price cands, keeps w (SimulateScheduling w price cands).1;
  ck_state : ∀ w, keeps w (ConsolidationStateOf w).1;
  ck_validate : ∀ w cmd delay, keeps w (Validate w cmd delay).1;
  ck_nodes : ∀ w cmd delay w' cmd', Validate w cmd delay = (w', Validated cmd') →
    cd_ProviderID <$> cmd_Candidates cmd' ⊆+ cd_ProviderID <$> cmd_Candidates cmd;
}.

(** The contract of a method from what [MultiNode.v] proves of its run. *)
Lemma method_from_run m : consolidation_keeps →
  (∀ w totals budget cands w' r, m_ComputeCommands m w totals budget cands = Some (w', r) →
     ∃ result, r = methodCommands err result ∧ keeps w w' ∧ validated_from (λ cs, ∃ rest, cs ++ rest ≡ₚ cands) result) →
  MethodOk m.
Proof.
  intros Hck Hm. split.
  - intros w totals budget cands w' r Hok Hrun. destruct (Hm _ _ _ _ _ _ Hrun) as (result & _ & Hk & _). by apply Hk.
  - intros w totals budget cands w' r id Hok Hrun Hid. destruct (Hm _ _ _ _ _ _ Hrun) as (result & _ & Hk & _). left. by apply Hk.
  - intros w totals budget cands w' cmds id Hok Hrun _ Hid. destruct (Hm _ _ _ _ _ _ Hrun) as (result & _ & Hk & _). by apply Hk.
  - intros w totals budget cands w' cmds pending Hok Hnd Hrun Hpend. destruct (Hm _ _ _ _ _ _ Hrun) as (result & Hr & _ & Hfrom).
    destruct result as [e|cmds']; [done|]. injection Hr as ->. apply pendingCommands_held in Hpend.
    destruct cmds' as [|cmd cmds']; [apply sublist_nil_r in Hpend as ->; split; [constructor|by intros c ?%not_elem_of_nil]|].
    destruct Hfrom as (-> & w1 & w2 & proposed & Hv & rest & Hperm). unfold heldCandidates in Hpend at 2. cbn [fmap list_fmap concat] in Hpend. rewrite app_nil_r in Hpend.
    assert (cd_ProviderID <$> heldCandidates pending ⊆+ cd_ProviderID <$> cands) as Hsub.
    { etransitivity; [apply sublist_submseteq, fmap_sublist, Hpend|]. etransitivity; [by eapply ck_nodes|].
      rewrite <- Hperm, fmap_app. apply submseteq_inserts_r. done. }
    split; [|intros c Hc; eapply elem_of_submseteq; [by apply list_elem_of_fmap_2|done]].
    apply submseteq_Permutation in Hsub as (k & Hk). rewrite Hk in Hnd. by apply NoDup_app in Hnd as [? _].
Qed.

Lemma NewEmptiness_ok : consolidation_keeps → MethodOk (NewEmptiness last err).
Proof.
  intros Hck. apply method_from_run; [done|]. intros w totals budget cands w' r Hrun. cbn [NewEmptiness m_ComputeCommands] in Hrun.
  destruct (ComputeEmptyCommands budget cands (passIn last w)) as [ms result] eqn:He. injection Hrun as <- <-. exists result. split; [done|].
  by apply (empty_stays keeps (ck_state Hck) (ck_validate Hck) budget cands (passIn last w)).
Qed.

Lemma NewMultiNodeConsolidation_ok : consolidation_keeps → MethodOk (NewMultiNodeConsolidation overrideKey rand opts advisor last err).
Proof.
  intros Hck. apply method_from_run; [done|]. intros w totals budget cands w' r Hrun. cbn [NewMultiNodeConsolidation m_ComputeCommands] in Hrun.
  apply bind_Some in Hrun as ([ms result] & Hc & Hrun). injection Hrun as <- <-. exists result. split; [done|].
  by eapply (multi_stays overrideKey rand opts advisor (Some totals) keeps (ck_simulate Hck) (ck_state Hck) (ck_validate Hck) budget cands (passIn last w)).
Qed.
End consolidation_methods_theory.

(** ** The simulation in the world of the controller *)

Section simulated.
Context {LT : LabelTables} {PL : ProviderLabels} {GS : GoSort} {GR : GoRange} {TL : TaintLib} {PS : Parsers} {SL : SelectorLib} {Q : Type} `{QuantityLaws Q} {NI : NetIP} {SA : StorageAPI} {PR : PodResources Q}.
Implicit Types (w : QueueWorld Q).

(** [SimulateScheduling] on the cluster the queue shares. *)
Definition simulateInWorld (attributeReplacements : bool) (unprovisionablePodTTL : Z) (strict : bool) (solve : list Pod → list (StateNode Q) → gset string → bool + SolveResults Q)
    (reads : QueueWorld Q → SimReads) (now : QueueWorld Q → Z) w (c : Candidate Q) : QueueWorld Q * SimulationOutcome Q :=
  let '(cl, outcome) := simulateScheduling attributeReplacements unprovisionablePodTTL strict solve (qw_cluster w) (reads w) (now w) [c] in
  (mkQueueWorld (qw_queue w) cl (qw_trace w), outcome).

Lemma simulateInWorld_keeps attribute ttl strict solve reads now w c :
  world_ok w → let w' := (simulateInWorld attribute ttl strict solve reads now w c).1 in world_ok w' ∧ qw_queue w' = qw_queue w.
Proof.
  intros [[Hknown Hwhole Hfree Happ Hun Hinit Hdel Hcl] Hkey]. unfold simulateInWorld, simulateScheduling, SimulationCopyNodes. cbn [fst qw_queue]. split; [|done].
  split.
  - split; try done. cbn [fst snd qw_cluster] in *. destruct (applyEvent_ok _ SimulationStarted Hcl I) as (cl' & [= <-] & Hcl'). exact Hcl'.
  - cbn [qw_cluster]. intros id n. cbn. rewrite lookup_fmap_Some. intros (n0 & <- & Hn). apply (Hkey id n0 Hn).
Qed.
End simulated.

(** * Witnesses *)

Section witnesses.
#[local] Existing Instance karpenterLabels.
#[local] Existing Instance karpenterLabels_ok.
#[local] Existing Instance exampleProvider.
#[local] Existing Instance map_to_list_GoRange.
#[local] Existing Instance stable_GoSort.
#[local] Existing Instance textIP.
#[local] Existing Instance plainNumbers.
#[local] Existing Instance keyTaintLib.
#[local] Existing Instance selectAll.
#[local] Existing Instance everyCron.
#[local] Existing Instance simpleIntStr.
#[local] Existing Instance emptyStorage.
#[local] Existing Instance twoCPU.

(** The node of the cluster is drifted, and its pod finds a new NodeClaim. *)
#[local] Instance driftedCluster : DriftWorld (QueueWorld Z) Z := {|
  driftedOf _ := Some (mkCondition "True" "NodePoolDrifted" 1);
  simulateDrift := simulateInWorld true 0 true twoClaims (λ _, mkSimReads (Some []) (Some []) (λ _, Some [])) (λ _, 50);
  nodeLimitOf _ := None;
  templateClaim _ := flexibleClaim;
|}.

Definition driftReads : MethodReads Z :=
  mkMethodReads 100000000000 onePod (Some [plainPool]) (λ _, Some [small]) (Some []) (Some [mkNodePool "pool" [mkBudget None "2" None None]]) NoStatus []
    (λ _, mkStartAnswers (λ _, MarkDone) (["claim-r"%string], false) [] OtherStatus).

Definition startWorld : QueueWorld Z := mkQueueWorld NewDisruptionQueue occupied [].

(** Commands are valid as they are proposed. *)
#[local] Instance steadyWorld : MethodWorld (QueueWorld Z) Z := {|
  ConsolidationStateOf w := (w, 7);
  MultiNode.HasBufferPods _ _ := false;
  Validate w cmd _ := (w, Validated cmd);
|}.

#[local] Instance noRoom : Simulation (QueueWorld Z) Z := {|
  SimulateScheduling w _ _ := (w, SimulationResults false []);
  clockNow _ := 0;
|}.

Lemma steadyWorld_keeps : consolidation_keeps (Q := Z).
Proof. split; try (by intros; intros Hok). intros w cmd delay w' cmd' [= _ <-]. done. Qed.

(** The methods in the order of the controller; consolidation of several nodes comes too
    late to be tried. *)
Definition driftSteps : list (Method Z * MethodReads Z) :=
  [(NewEmptiness 0 OtherStatus, driftReads); (NewStaticDrift, driftReads); (NewDrift OtherStatus, driftReads);
   (NewMultiNodeConsolidation (λ _, ("k", "k")%string) (λ _, 0) plainOptions None 0 OtherStatus, driftReads)].

Definition driftPass : option (QueueWorld Z * ReconcileResult) :=
  ReconcileDisruption (λ _, 0) None (10 * Second) (λ _, "claim-a"%string) startWorld (Some (∅, ∅)) (λ _, AttemptRead ([DisruptedNoScheduleTaint], false) None)
    (λ _, AttemptRead false None) driftSteps.

Definition passedWorld : QueueWorld Z := (default (startWorld, Requeue) driftPass).1.

Lemma startWorld_ok : world_ok startWorld.
Proof.
  split; [apply idle_inv, occupied_reached|]. intros id n Hn.
  assert (map_Forall (λ id n, ProviderID n = Some id) (nodes occupied)) as Hall by (apply (bool_decide_unpack _); vm_compute; exact I).
  by apply (Hall id n).
Qed.

(** The taint left on the node is removed; then its drift is acted on. *)
Lemma controller_disrupts_eligible_witness :
  qw_trace passedWorld = [ECreate "claim-r"; ESetCondition "claim-a"; ETaint "p1"; EUntaint "p1"]%string ∧ inQueue passedWorld "p1" ∧
  queue_inv (passedWorld, []) ∧ ∃ before m reads after w0 w1, driftSteps = before ++ (m, reads) :: after ∧
    nodes (qw_cluster w0) = nodes (qw_cluster startWorld) ∧
    declined (λ _, 0) None (10 * Second) (λ _, "claim-a"%string) w0 before w1 ∧ eligible_for w1 m reads "p1".
Proof.
  split; [vm_compute; reflexivity|]. split; [vm_compute; by eexists|].
  destruct (controller_disrupts_eligible (λ _, 0) None (10 * Second) (λ _, "claim-a"%string) startWorld (Some (∅, ∅))
    (λ _, AttemptRead ([DisruptedNoScheduleTaint], false) None) (λ _, AttemptRead false None) driftSteps passedWorld RequeueImmediately)
    as (Hq & es & w0 & _ & _ & Hqueue & Hnodes & Hend).
  - exact startWorld_ok.
  - intros m reads Hin. unfold driftSteps in Hin. rewrite !elem_of_cons, elem_of_nil in Hin.
    destruct Hin as [[= -> ->]|[[= -> ->]|[[= -> ->]|[[= -> ->]|[]]]]].
    + apply NewEmptiness_ok, steadyWorld_keeps.
    + apply NewStaticDrift_ok.
    + apply (NewDrift_ok (OL := exampleLabels)). intros w c Hw. by apply simulateInWorld_keeps.
    + apply NewMultiNodeConsolidation_ok, steadyWorld_keeps.
  - vm_compute. reflexivity.
  - split; [exact Hq|]. destruct Hend as [[_ [Hr|(e & Hr)]]|(before & [|[m reads] after] & w1 & Hsteps & Hdec & Hsame & Hact)].
    + discriminate Hr.
    + unfold failure in Hr. destruct (IsConflict e); discriminate Hr.
    + destruct Hact as [_ Hr]. discriminate Hr.
    + exists before, m, reads, after, w0, w1. split_and!; [exact Hsteps|exact Hnodes|exact Hdec|]. destruct Hact as [_ Hnew].
      destruct (Hnew "p1"%string) as [Hw|Hel]; [vm_compute; by eexists| |exact Hel].
      exfalso. apply Hsame in Hw. unfold inQueue in Hw. rewrite Hqueue in Hw. destruct Hw as [a Ha]. vm_compute in Ha. discriminate Ha.
Defined.

(** A taint with the key but another effect is not removed when the taint is added,
    as the comment says. *)
Lemma other_effect_stays (t := mkTaint (tn_Key DisruptedNoScheduleTaint) "" NoExecute) :
  requiredTaints true [t] false = Some [t; DisruptedNoScheduleTaint].
Proof. vm_compute. reflexivity. Qed.
End witnesses.
