(* ===== verification/Termination.v ===== *)
(** * Terminating nodes

    Model of [pkg/controllers/node/termination]: the eviction queue, the drain of
    a node ([terminator/terminator.go], [terminator/eviction.go]) and the
    finalizer of a node ([controller.go]).  What is read and how calls are
    answered are arguments; what is done to the API server and the cloud provider
    is recorded, oldest first. *)

From Stdlib Require Import SpecFloat.
From S2P Require Import Prelude Float64 Kube Conditions Taints HostPorts Volumes PodUtils StateNode Replacements Controller.

(** [int64(d.Seconds())] *)
Definition durationSeconds (d : Z) : float64 :=
  fadd (fofint (Z.quot d Second)) (fdiv (fofint (Z.rem d Second)) (fofint Second)).

Definition ftrunc (f : float64) : Z :=
  match f with
  | S754_finite sign m e => let n := if 0 <=? e then Z.pos m * 2 ^ e else Z.pos m / 2 ^ (- e) in if sign then - n else n
  | _ => 0
  end.

(** ** The eviction queue *)

Record QueueKey := mkQueueKey { qk_Name : NamespacedName; qk_UID : string }.

#[export] Instance QueueKey_eq_dec : EqDecision QueueKey.
Proof. solve_decision. Defined.

#[export] Instance QueueKey_countable : Countable QueueKey.
Proof. refine (inj_countable' (λ k, (qk_Name k, qk_UID k)) (λ p, mkQueueKey p.1 p.2) _). by intros []. Defined.

Definition NewQueueKey (pod : Pod) : QueueKey := mkQueueKey (ObjectKeyFromObject pod) (pod_UID pod).

Record EvictionQueue := mkEvictionQueue {
  eq_set : gset QueueKey;
  eq_source : list Pod;
}.

Definition NewEvictionQueue : EvictionQueue := mkEvictionQueue ∅ [].

Definition EnqueuePod (q : EvictionQueue) (pod : Pod) : EvictionQueue :=
  let qk := NewQueueKey pod in
  if bool_decide (qk ∈ eq_set q) then q else mkEvictionQueue ({[qk]} ∪ eq_set q) (eq_source q ++ [pod]).

Definition EnqueuePods (q : EvictionQueue) (pods : list Pod) : EvictionQueue := foldl EnqueuePod q pods.

Definition HasPod (q : EvictionQueue) (pod : Pod) : bool := bool_decide (NewQueueKey pod ∈ eq_set q).

(** How the eviction was answered: done, the pod is gone, it is another pod, a
    budget is in the way, or another error. *)
Inductive EvictionAnswer := PodEvicted | PodGone | PodReplaced | BudgetInWay | EvictionError.

Inductive EvictionResult := EvictionDone | EvictionRequeue | EvictionFailed.

(** [Queue.Reconcile]: [evicted] tells whether the eviction was called, [nodeRead]
    whether the node of the pod could be read. *)
Definition ReconcileEviction (q : EvictionQueue) (pod : Pod) (answer : EvictionAnswer) (nodeRead : bool)
    : EvictionQueue * bool * EvictionResult :=
  if negb (HasPod q pod) then (q, false, EvictionDone)
  else
    match answer with
    | PodGone | PodReplaced => (q, true, EvictionDone)
    | BudgetInWay => (q, true, if nodeRead then EvictionRequeue else EvictionFailed)
    | EvictionError => (q, true, EvictionFailed)
    | PodEvicted => (mkEvictionQueue (eq_set q ∖ {[NewQueueKey pod]}) (eq_source q), true, EvictionDone)
    end.

(** ** Draining a node *)

(** What is done. *)
Inductive TermEffect :=
  | TDeleteClaim (name : string)
  | TTaintNode (taints : list Taint) (labels : gmap string string)
  | TDeletePod (pod : Pod) (gracePeriodSeconds : Z)
  | TDeleteInstance (name : string)
  | TPatchClaim (conds : gmap string Condition)
  | TRemoveFinalizer.

Inductive DrainResult := Drained | PodsWaiting (count : nat) | DrainFailed.

Section terminator.
Context {TL : TaintLib} {PS : Parsers}.
Implicit Types (pod : Pod) (pods : list Pod) (now : Z) (expiration : option Z) (taints : list Taint).

(** The taints of [Terminator.Taint]. *)
Definition drainTaints taints (taint : Taint) : list Taint :=
  if existsb (λ t, MatchTaint t taint) taints then taints
  else List.filter (λ t, negb (String.eqb (tn_Key t) (tn_Key taint))) taints ++ [taint].

Definition isCritical pod : bool :=
  String.eqb (pod_PriorityClassName pod) "system-cluster-critical" || String.eqb (pod_PriorityClassName pod) "system-node-critical".

Definition groupPodsByPriority pods : list (list Pod) :=
  let group critical daemon := List.filter (λ p, Bool.eqb (isCritical p) critical && Bool.eqb (IsOwnedByDaemonSet p) daemon) pods in
  [group false false; group false true; group true false; group true true].

Definition podDeleteTimeWithGracePeriod expiration pod : option Z :=
  e ← expiration;
  grace ← pod_TerminationGracePeriodSeconds pod;
  Some (e + wrap64 (- wrap64 (grace * Second))).

(** [None] when a call fails, after what was done before. *)
Fixpoint DeleteExpiringPods (deletePod : Pod → bool) now pods expiration : list TermEffect * bool :=
  match pods with
  | [] => ([], true)
  | pod :: pods =>
      match expiration, podDeleteTimeWithGracePeriod expiration pod with
      | Some e, Some deleteTime =>
          if deleteTime <? now then
            let gracePeriodSeconds := Z.max (ftrunc (durationSeconds (timeSub e now))) 1 in
            if deletePod pod then
              let '(effects, ok) := DeleteExpiringPods deletePod now pods expiration in (TDeletePod pod gracePeriodSeconds :: effects, ok)
            else ([], false)
          else DeleteExpiringPods deletePod now pods expiration
      | _, _ => DeleteExpiringPods deletePod now pods expiration
      end
  end.

Definition podsToDelete now expiration pods : list Pod :=
  List.filter (λ p, IsWaitingEviction p now && (negb (IsTerminating p) || IsPodEligibleForForcedEviction p expiration)) pods.

(** The first group that is not empty. *)
Definition firstGroup (groups : list (list Pod)) : option (list Pod) := List.find (λ g, match g with [] => false | _ => true end) groups.

Definition Drain (deletePod : Pod → bool) (q : EvictionQueue) (listed : option (list Pod)) now expiration
    : EvictionQueue * list TermEffect * DrainResult :=
  match listed with
  | None => (q, [], DrainFailed)
  | Some pods =>
      let '(effects, ok) := DeleteExpiringPods deletePod now (podsToDelete now expiration pods) expiration in
      if negb ok then (q, effects, DrainFailed)
      else
        let groups := groupPodsByPriority (List.filter (λ p, IsWaitingEviction p now) pods) in
        match firstGroup groups with
        | Some group => (EnqueuePods q (List.filter (λ p, IsEvictable p now) group), effects, PodsWaiting (sum_list (length <$> groups)))
        | None => (q, effects, Drained)
        end
  end.
End terminator.

(** ** The finalizer of a node *)

Definition NodeClaimTerminationTimestampAnnotationKey : string := "karpenter.sh/nodeclaim-termination-timestamp".
Definition LabelNodeExcludeBalancers : string := "node.kubernetes.io/exclude-from-external-load-balancers".
Definition MinDrainTime : Z := 5 * Second.

(** [time.Parse(time.RFC3339, _)] *)
Class TimeParser := { parseRFC3339 : string → option Z }.

(** What the cloud provider says of an instance when asked, and when told to delete
    it. *)
Inductive InstanceAnswer := InstanceFound | InstanceGone | InstanceError.

(** The reads and answers of one reconcile. *)
Record FinalizeReads (Q : Type) := mkFinalizeReads {
  fr_now : Z;
  fr_hasFinalizer : bool;
  fr_managed : bool;
  fr_claims : option (list (NodeClaim Q));              (* with the provider ID of the node *)
  fr_deleteClaim : bool;
  fr_getInstance : InstanceAnswer;
  fr_taintPatch : option ApiError;
  fr_drainPods : option (list Pod);
  fr_deletePod : Pod → bool;
  fr_attachments : option (list (option string));       (* the persistent volume of each *)
  fr_volumePods : option (list Pod);
  fr_deleteInstance : InstanceAnswer;
  fr_patchClaim : option ApiError;
  fr_removeFinalizer : bool;
}.
Arguments mkFinalizeReads {Q}.
Arguments fr_now {Q}.
Arguments fr_hasFinalizer {Q}.
Arguments fr_managed {Q}.
Arguments fr_claims {Q}.
Arguments fr_deleteClaim {Q}.
Arguments fr_getInstance {Q}.
Arguments fr_taintPatch {Q}.
Arguments fr_drainPods {Q}.
Arguments fr_deletePod {Q}.
Arguments fr_attachments {Q}.
Arguments fr_volumePods {Q}.
Arguments fr_deleteInstance {Q}.
Arguments fr_patchClaim {Q}.
Arguments fr_removeFinalizer {Q}.

Inductive TermResult := TermDone | TermRequeueAfter (d : Z) | TermRequeue | TermFailed.

#[export] Instance TermResult_eq_dec : EqDecision TermResult.
Proof. solve_decision. Defined.

Section termination.
Context {TL : TaintLib} {PS : Parsers} {SA : StorageAPI} {CL : ConditionLib} {TP : TimeParser} {Q : Type}.
Implicit Types (node : Node Q) (claim : NodeClaim Q) (reads : FinalizeReads Q) (conds : gmap string Condition) (now : Z) (expiration : option Z).

(** [NodeClaimForNode] with the errors [finalize] ignores: [None] an error,
    [Some None] no NodeClaim or several. *)
Definition claimForNode node (listed : option (list (NodeClaim Q))) : option (option (NodeClaim Q)) :=
  if String.eqb (n_ProviderID node) "" then Some None
  else match listed with None => None | Some [claim] => Some (Some claim) | Some _ => Some None end.

Definition nodeTerminationTime (claim : option (NodeClaim Q)) : option (option Z) :=
  match claim ≫= (λ c, nc_Annotations c !! NodeClaimTerminationTimestampAnnotationKey) with
  | None => Some None
  | Some text => Some <$> parseRFC3339 text
  end.

Definition hasTerminationGracePeriodElapsed now expiration : bool := match expiration with None => false | Some e => e <? now end.

(** The volumes of pods that cannot be drained; [None] an error. *)
Fixpoint undrainableVolumes (volumes : list (Pod * PodVolume)) : option (list string) :=
  match volumes with
  | [] => Some []
  | (p, v) :: volumes =>
      match GetPersistentVolumeClaim p v with
      | GetError => None
      | NotFound | Found None => undrainableVolumes volumes
      | Found (Some pvc) => cons (pvc_VolumeName pvc) <$> undrainableVolumes volumes
      end
  end.

Definition filterVolumeAttachments now (attachments : list (option string)) (listed : option (list Pod)) : option (list (option string)) :=
  match attachments with
  | [] => Some []
  | _ =>
      pods ← listed;
      let unDrainablePods := List.filter (λ p, negb (IsDrainable p now)) pods in
      names ← undrainableVolumes (concat ((λ p, (λ v, (p, v)) <$> pod_Volumes p) <$> unDrainablePods));
      Some (List.filter (λ v, match v with None => false | Some name => bool_decide (name ∉ names) end) attachments)
  end.

(** *** The steps

    Each takes the conditions of the NodeClaim, if there is one, and returns
    them with what it did; [TermDone] goes on to the next step. *)

Definition awaitDrain (q : EvictionQueue) reads (conds : option (gmap string Condition)) expiration
    : EvictionQueue * list TermEffect * option (gmap string Condition) * TermResult :=
  let now := fr_now reads in
  let conds := (λ m, match m !! ConditionTypeDrained with
    | None => SetUnknownWithReason m ConditionTypeDrained "Draining" now | Some _ => m end) <$> conds in
  let '(q, effects, result) := Drain (fr_deletePod reads) q (fr_drainPods reads) now expiration in
  match result with
  | DrainFailed => (q, effects, conds, TermFailed)
  | PodsWaiting _ => (q, effects, conds, TermRequeueAfter Second)
  | Drained =>
      match conds with
      | None => (q, effects, None, TermDone)
      | Some m =>
          match m !! ConditionTypeDrained with
          | None => (q, effects, Some m, TermRequeueAfter Second)
          | Some cond =>
              if String.eqb (cd_Status cond) ConditionUnknown && (timeSub now (cd_LastTransitionTime cond) <? MinDrainTime)
              then (q, effects, Some m, TermRequeueAfter Second)
              else (q, effects, Some (SetTrue m ConditionTypeDrained now), TermDone)
          end
      end
  end.

Definition awaitVolumeDetachment reads (conds : option (gmap string Condition)) expiration : option (gmap string Condition) * TermResult :=
  let now := fr_now reads in
  match attachments ← fr_attachments reads; filterVolumeAttachments now attachments (fr_volumePods reads) with
  | None => (conds, TermFailed)
  | Some [] => ((λ m, SetTrue m ConditionTypeVolumesDetached now) <$> conds, TermDone)
  | Some _ =>
      if negb (hasTerminationGracePeriodElapsed now expiration)
      then ((λ m, SetUnknownWithReason m ConditionTypeVolumesDetached "AwaitingVolumeDetachment" now) <$> conds, TermRequeueAfter Second)
      else ((λ m, SetFalse m ConditionTypeVolumesDetached "TerminationGracePeriodElapsed" now) <$> conds, TermDone)
  end.

Definition awaitInstanceTermination reads (claim : option (NodeClaim Q)) (conds : option (gmap string Condition))
    : list TermEffect * option (gmap string Condition) * TermResult :=
  match claim, conds with
  | Some c, Some m =>
      let m' := SetTrue m ConditionTypeInstanceTerminating (fr_now reads) in
      match fr_deleteInstance reads with
      | InstanceError => ([], Some m, TermFailed)
      | InstanceFound => ([TDeleteInstance (nc_Name c)], Some m', TermRequeueAfter (5 * Second))
      | InstanceGone => ([TDeleteInstance (nc_Name c)], Some m', TermDone)
      end
  | _, _ => ([], conds, TermDone)
  end.

(** The three steps until one does not go on. *)
Definition terminate (q : EvictionQueue) reads (claim : option (NodeClaim Q)) expiration
    : EvictionQueue * list TermEffect * option (gmap string Condition) * TermResult :=
  let '(q, effects, conds, result) := awaitDrain q reads (nc_Conditions <$> claim) expiration in
  match result with
  | TermDone =>
      let '(conds, result) := awaitVolumeDetachment reads conds expiration in
      match result with
      | TermDone =>
          let '(effects', conds, result) := awaitInstanceTermination reads claim conds in (q, effects ++ effects', conds, result)
      | _ => (q, effects, conds, result)
      end
  | _ => (q, effects, conds, result)
  end.

Definition removeFinalizer reads : list TermEffect * TermResult :=
  if fr_removeFinalizer reads then ([TRemoveFinalizer], TermDone) else ([], TermFailed).

(** The status of the NodeClaim is patched when it changed: [None] goes on. *)
Definition patchClaim reads (claim : option (NodeClaim Q)) (conds : option (gmap string Condition)) : list TermEffect * option TermResult :=
  match claim, conds with
  | Some c, Some m =>
      if bool_decide (m = nc_Conditions c) then ([], None)
      else
        match fr_patchClaim reads with
        | Some e => ([], Some (if IsConflict e then TermRequeue else TermFailed))
        | None => ([TPatchClaim m], None)
        end
  | _, _ => ([], None)
  end.

(** The taint and the label of a node that is drained. *)
Definition taintForDrain node reads : list TermEffect * option TermResult :=
  let taints := drainTaints (n_Taints node) DisruptedNoScheduleTaint in
  let labels := <[LabelNodeExcludeBalancers := "karpenter"%string]> (n_Labels node) in
  if bool_decide (taints = n_Taints node) && bool_decide (labels = n_Labels node) then ([], None)
  else
    match fr_taintPatch reads with
    | Some e => ([], Some (if IsConflict e then TermRequeue else TermFailed))
    | None => ([TTaintNode taints labels], None)
    end.

(** [finalize] once the instance is known to be there. *)
Definition terminateNode (q : EvictionQueue) reads node (claim : option (NodeClaim Q)) : EvictionQueue * list TermEffect * TermResult :=
  match nodeTerminationTime claim with
  | None => (q, [], TermFailed)
  | Some expiration =>
      match taintForDrain node reads with
      | (effects, Some result) => (q, effects, result)
      | (tainted, None) =>
          let '(q, effects, conds, result) := terminate q reads claim expiration in
          let effects := tainted ++ effects in
          match patchClaim reads claim conds with
          | (patched, Some result) => (q, effects ++ patched, result)
          | (patched, None) =>
              match result with
              | TermDone => let '(removed, result) := removeFinalizer reads in (q, effects ++ patched ++ removed, result)
              | _ => (q, effects ++ patched, result)
              end
          end
      end
  end.

Definition finalize (q : EvictionQueue) reads node : EvictionQueue * list TermEffect * TermResult :=
  if negb (fr_hasFinalizer reads) || negb (fr_managed reads) then (q, [], TermDone)
  else
    match claimForNode node (fr_claims reads) with
    | None => (q, [], TermFailed)
    | Some claim =>
        let toDelete := match claim with Some c => bool_decide (nc_DeletionTimestamp c = None) | None => false end in
        if toDelete && negb (fr_deleteClaim reads) then (q, [], TermFailed)
        else
          let deleted := match claim with Some c => if toDelete then [TDeleteClaim (nc_Name c)] else [] | None => [] end in
          let asked := if conditionTrue (n_Conditions node) "Ready" then InstanceFound else fr_getInstance reads in
          match asked with
          | InstanceGone => let '(removed, result) := removeFinalizer reads in (q, deleted ++ removed, result)
          | InstanceError => (q, deleted, TermFailed)
          | InstanceFound => let '(q, effects, result) := terminateNode q reads node claim in (q, deleted ++ effects, result)
          end
    end.

(** [Controller.Reconcile] *)
Definition ReconcileNode (q : EvictionQueue) reads node : EvictionQueue * list TermEffect * TermResult :=
  match n_DeletionTimestamp node with
  | None => (q, [], TermDone)
  | Some _ => finalize q reads node
  end.
End termination.

(** * Theory *)

(** ** Draining *)

Section drain_theory.
Context {TL : TaintLib} {PS : Parsers}.
Implicit Types (pod : Pod) (pods : list Pod) (now : Z) (expiration : option Z) (q : EvictionQueue).

(** Lower ranks leave first. *)
Definition evictionRank pod : Z := (if isCritical pod then 2 else 0) + (if IsOwnedByDaemonSet pod then 1 else 0).

Lemma eq_set_AddPods pods q : eq_set (EnqueuePods q pods) = eq_set q ∪ list_to_set (NewQueueKey <$> pods).
Proof.
  unfold EnqueuePods. revert q. induction pods as [|pod pods IH]; intros q; cbn [foldl]; [set_solver|]. rewrite IH. unfold EnqueuePod.
  case_bool_decide; cbn [eq_set fmap list_fmap list_to_set]; set_solver.
Qed.

Lemma groups_spec pods i g pod : groupPodsByPriority pods !! i = Some g → pod ∈ g ↔ pod ∈ pods ∧ evictionRank pod = Z.of_nat i.
Proof.
  unfold groupPodsByPriority, evictionRank. intros Hg.
  destruct i as [|[|[|[|i]]]]; [..|done]; injection Hg as <-; rewrite elem_of_filter_list, andb_true_iff, !eqb_true_iff;
    destruct (isCritical pod), (IsOwnedByDaemonSet pod); intuition (try done; try lia).
Qed.

Lemma firstGroup_spec groups g : firstGroup groups = Some g →
  g ≠ [] ∧ ∃ i, groups !! i = Some g ∧ ∀ j, (j < i)%nat → groups !! j = Some [].
Proof.
  unfold firstGroup. induction groups as [|h groups IH]; cbn [List.find]; [done|]. destruct h as [|x h].
  - intros (Hne & i & Hi & Hlt)%IH. split; [done|]. exists (S i). split; [done|]. intros [|j] Hj; [done|]. apply Hlt. lia.
  - intros [= <-]. split; [done|]. exists 0%nat. split; [done|]. lia.
Qed.

Lemma firstGroup_None groups : firstGroup groups = None → ∀ i g, groups !! i = Some g → g = [].
Proof.
  unfold firstGroup. intros Hf i g Hg%list_elem_of_lookup_2%list_elem_of_In. pose proof (find_none _ _ Hf g Hg) as Hn. by destruct g.
Qed.

Lemma rank_group pods pod : pod ∈ pods → ∃ i g, groupPodsByPriority pods !! i = Some g ∧ pod ∈ g ∧ evictionRank pod = Z.of_nat i.
Proof.
  intros Hp. unfold evictionRank.
  set (i := ((if isCritical pod then 2 else 0) + (if IsOwnedByDaemonSet pod then 1 else 0))%nat).
  destruct (groupPodsByPriority pods !! i) as [g|] eqn:Hg; [|by destruct (isCritical pod), (IsOwnedByDaemonSet pod)].
  exists i, g. assert (evictionRank pod = Z.of_nat i) as Hr by (unfold evictionRank, i; destruct (isCritical pod), (IsOwnedByDaemonSet pod); lia).
  split_and!; [done| |exact Hr]. by apply (groups_spec pods i g).
Qed.

Lemma group_counts pods : sum_list (length <$> groupPodsByPriority pods) = length pods.
Proof.
  unfold groupPodsByPriority. cbn [fmap list_fmap sum_list]. induction pods as [|pod pods IH]; [done|]. cbn [List.filter length].
  destruct (isCritical pod), (IsOwnedByDaemonSet pod); unfold id in *; cbn [Bool.eqb andb length] in *; lia.
Qed.

Definition inExpiry now expiration pod : Prop := ∃ t, podDeleteTimeWithGracePeriod expiration pod = Some t ∧ t < now.

Lemma DeleteExpiringPods_spec deletePod now pods expiration effects ok :
  DeleteExpiringPods deletePod now pods expiration = (effects, ok) →
  (∀ e, e ∈ effects → ∃ pod grace, e = TDeletePod pod grace ∧ pod ∈ pods ∧ inExpiry now expiration pod ∧ 1 <= grace) ∧
  (ok = true → ∀ pod, pod ∈ pods → inExpiry now expiration pod → ∃ grace, TDeletePod pod grace ∈ effects).
Proof.
  revert effects ok. induction pods as [|pod pods IH]; intros effects ok; cbn [DeleteExpiringPods].
  { intros [= <- <-]. split; [by intros e ?%not_elem_of_nil|by intros _ p ?%not_elem_of_nil]. }
  assert (∀ effects ok, DeleteExpiringPods deletePod now pods expiration = (effects, ok) → ¬ inExpiry now expiration pod →
    (∀ e, e ∈ effects → ∃ p grace, e = TDeletePod p grace ∧ p ∈ pod :: pods ∧ inExpiry now expiration p ∧ 1 <= grace) ∧
    (ok = true → ∀ p, p ∈ pod :: pods → inExpiry now expiration p → ∃ grace, TDeletePod p grace ∈ effects)) as Hskip.
  { intros es b [H1 H2]%IH Hno. split.
    - intros e (p & grace & ? & Hin & ? & ?)%H1. exists p, grace. split_and!; [done|by right|done|done].
    - intros Hok p [->|Hin]%elem_of_cons Hp; [done|]. by apply H2. }
  unfold inExpiry in *. destruct expiration as [e|]; [|intros Hrun; apply Hskip; [done|by intros (t & ? & _)]].
  destruct (podDeleteTimeWithGracePeriod (Some e) pod) as [t|] eqn:Ht; [|intros Hrun; apply Hskip; [done|by intros (? & ? & _)]].
  destruct (t <? now) eqn:Hlt; destruct_bools; [|intros Hrun; apply Hskip; [done|intros (t' & [= <-] & ?); lia]].
  destruct (deletePod pod); [|intros [= <- <-]; split; [by intros ? ?%not_elem_of_nil|done]].
  destruct (DeleteExpiringPods _ _ _ _) as [es b] eqn:Hrun. intros [= <- <-]. destruct (IH _ _ eq_refl) as [H1 H2]. split.
  - intros x [->|Hx]%elem_of_cons.
    + eexists pod, _. split_and!; [done|by left|by exists t|lia].
    + destruct (H1 x Hx) as (p & grace & ? & Hin & ? & ?). exists p, grace. split_and!; [done|by right|done|done].
  - intros Hb p [->|Hin]%elem_of_cons Hp; [eexists; by left|]. destruct (H2 Hb p Hin Hp) as [grace Hg]. exists grace. by right.
Qed.

Lemma elem_of_waiting now pods pod : pod ∈ List.filter (λ p, IsWaitingEviction p now) pods ↔ pod ∈ pods ∧ IsWaitingEviction pod now = true.
Proof. by rewrite elem_of_filter_list. Qed.

Lemma Drain_drained deletePod q listed now expiration q' effects :
  Drain deletePod q listed now expiration = (q', effects, Drained) →
  ∃ pods, listed = Some pods ∧ ∀ pod, pod ∈ pods → IsWaitingEviction pod now = false.
Proof.
  unfold Drain. destruct listed as [pods|]; [|done]. destruct (DeleteExpiringPods _ _ _ _) as [es ok]. destruct (negb ok); [done|].
  destruct (firstGroup _) as [g|] eqn:Hf; [done|]. intros _. exists pods. split; [done|]. intros pod Hp.
  destruct (IsWaitingEviction pod now) eqn:Hw; [|done]. destruct (rank_group (List.filter (λ p, IsWaitingEviction p now) pods) pod) as (i & g & Hg & Hin & _).
  { by apply elem_of_waiting. }
  rewrite (firstGroup_None _ Hf i g Hg) in Hin. by apply not_elem_of_nil in Hin.
Qed.

(** C24. Draining a node.  It is drained only when no pod on it waits for eviction, and
    otherwise says how many do.  Pods enter the eviction queue only if they wait and
    may be evicted, and only while none that waits has a lower rank: plain pods
    first, then those of daemon sets, then critical pods and last critical pods of
    daemon sets.  Pods are deleted, with a grace period of at least a second, exactly
    if they wait, are not already on their way out in time, and their own grace
    period no longer fits before the node is terminated. *)
Theorem drain_in_order deletePod q pods now expiration q' effects result
    (Hrun : Drain deletePod q (Some pods) now expiration = (q', effects, result)) (Hok : result ≠ DrainFailed) :
  let waiting := List.filter (λ p, IsWaitingEviction p now) pods in
  result = (if decide (length waiting = 0%nat) then Drained else PodsWaiting (length waiting)) ∧
  (∀ key, key ∈ eq_set q' → key ∈ eq_set q ∨ ∃ pod, pod ∈ waiting ∧ key = NewQueueKey pod ∧ IsEvictable pod now = true ∧
     ∀ other, other ∈ waiting → evictionRank pod <= evictionRank other) ∧
  (∀ e, e ∈ effects → ∃ pod grace, e = TDeletePod pod grace ∧ 1 <= grace) ∧
  ∀ pod, (∃ grace, TDeletePod pod grace ∈ effects) ↔
    pod ∈ waiting ∧ (IsTerminating pod = false ∨ IsPodEligibleForForcedEviction pod expiration = true) ∧ inExpiry now expiration pod.
Proof.
  intros waiting. unfold Drain in Hrun. destruct (DeleteExpiringPods _ _ _ _) as [es ok] eqn:Hdel.
  apply DeleteExpiringPods_spec in Hdel as [Hes Hall]. destruct ok; [|by injection Hrun as <- <- <-]. cbn [negb] in Hrun. specialize (Hall eq_refl).
  assert (∀ pod, pod ∈ podsToDelete now expiration pods ↔
    pod ∈ waiting ∧ (IsTerminating pod = false ∨ IsPodEligibleForForcedEviction pod expiration = true)) as Hto.
  { intros pod. unfold podsToDelete, waiting. rewrite elem_of_waiting, elem_of_filter_list, andb_true_iff, orb_true_iff, negb_true_iff. tauto. }
  assert ((∀ e, e ∈ es → ∃ pod grace, e = TDeletePod pod grace ∧ 1 <= grace) ∧ ∀ pod, (∃ grace, TDeletePod pod grace ∈ es) ↔
    pod ∈ waiting ∧ (IsTerminating pod = false ∨ IsPodEligibleForForcedEviction pod expiration = true) ∧ inExpiry now expiration pod) as [Hgrace Hdeleted].
  { split; [intros e (pod & grace & ? & _ & _ & ?)%Hes; by exists pod, grace|]. intros pod. split.
    - intros (grace & (p & g & [= <- <-] & Hin & Hexp & _)%Hes). apply Hto in Hin as [? ?]. done.
    - intros (Hw & Ht & Hexp). apply Hall; [by apply Hto|done]. }
  fold waiting in Hrun. destruct (firstGroup (groupPodsByPriority waiting)) as [g|] eqn:Hf.
  - rewrite group_counts in Hrun. injection Hrun as <- <- <-. destruct (firstGroup_spec _ _ Hf) as (Hne & i & Hi & Hlt). split_and!; [|..|done|exact Hdeleted].
    + rewrite decide_False; [done|]. intros H0. apply nil_length_inv in H0. destruct g as [|x g]; [done|].
      assert (x ∈ waiting) as Hx by (by apply (groups_spec waiting i (x :: g) x Hi); left). rewrite H0 in Hx. by apply not_elem_of_nil in Hx.
    + intros key. rewrite eq_set_AddPods, elem_of_union, elem_of_list_to_set, list_elem_of_fmap. intros [?|(pod & -> & [Hin Hev]%elem_of_filter_list)]; [by left|right].
      apply (groups_spec waiting i g pod Hi) in Hin as [Hw Hrank]. exists pod. split_and!; [done|done|done|]. intros other Ho.
      destruct (rank_group waiting other Ho) as (j & h & Hj & Hin & ->). rewrite Hrank. destruct (decide (j < i)%nat) as [Hji|]; [|lia].
      rewrite (Hlt j Hji) in Hj. injection Hj as <-. by apply not_elem_of_nil in Hin.
  - injection Hrun as <- <- <-. split_and!; [|by left|done|exact Hdeleted]. rewrite decide_True; [done|].
    destruct waiting as [|x l] eqn:Hw; [done|]. destruct (rank_group (x :: l) x) as (j & h & Hj & Hin & _); [by left|].
    rewrite (firstGroup_None _ Hf j h Hj) in Hin. by apply not_elem_of_nil in Hin.
Qed.
End drain_theory.

(** ** The eviction queue *)

Section eviction_theory.
Context {TL : TaintLib} {PS : Parsers}.

(** The queue as nodes are drained and pods reconciled, with the pods that were
    queued as evictable and those whose eviction was called. *)
Inductive eviction_step : EvictionQueue * list Pod * list Pod → EvictionQueue * list Pod * list Pod → Prop :=
  | eviction_drain q queued evicted deletePod listed now expiration q' effects result :
      Drain deletePod q listed now expiration = (q', effects, result) →
      eviction_step (q, queued, evicted) (q', List.filter (λ p, IsEvictable p now) (default [] listed) ++ queued, evicted)
  | eviction_reconcile q queued evicted pod answer nodeRead q' called result :
      ReconcileEviction q pod answer nodeRead = (q', called, result) →
      eviction_step (q, queued, evicted) (q', queued, if called then pod :: evicted else evicted).

Definition eviction_inv (x : EvictionQueue * list Pod * list Pod) : Prop :=
  eq_set x.1.1 ⊆ list_to_set (NewQueueKey <$> x.1.2) ∧ ∀ pod, pod ∈ x.2 → NewQueueKey pod ∈ NewQueueKey <$> x.1.2.

Lemma Drain_queues deletePod q listed now expiration q' effects result key :
  Drain deletePod q listed now expiration = (q', effects, result) → key ∈ eq_set q' →
  key ∈ eq_set q ∨ key ∈ NewQueueKey <$> List.filter (λ p, IsEvictable p now) (default [] listed).
Proof.
  unfold Drain. destruct listed as [pods|]; [|intros [= <- <- <-]; by left]. destruct (DeleteExpiringPods _ _ _ _) as [es ok].
  destruct (negb ok); [intros [= <- <- <-]; by left|]. destruct (firstGroup _) as [g|] eqn:Hf; [|intros [= <- <- <-]; by left].
  intros [= <- <- <-]. rewrite eq_set_AddPods, elem_of_union, elem_of_list_to_set. intros [?|(pod & -> & [Hin Hev]%elem_of_filter_list)%list_elem_of_fmap]; [by left|right].
  apply list_elem_of_fmap_2, elem_of_filter_list. split; [|done]. destruct (firstGroup_spec _ _ Hf) as (_ & i & Hi & _).
  apply (groups_spec _ i g pod Hi) in Hin as [Hin _]. apply elem_of_waiting in Hin. apply Hin.
Qed.

Lemma eviction_step_inv x y : eviction_step x y → eviction_inv x → eviction_inv y.
Proof.
  intros Hstep [Hset Hev]. destruct Hstep as [q queued evicted deletePod listed now expiration q' effects result Hrun|q queued evicted pod answer nodeRead q' called result Hrun];
    cbn [fst snd] in *; split; cbn [fst snd].
  - intros key Hk. rewrite elem_of_list_to_set, fmap_app, elem_of_app. destruct (Drain_queues _ _ _ _ _ _ _ _ key Hrun Hk) as [Hq|?]; [right|by left].
    apply Hset in Hq. by apply elem_of_list_to_set in Hq.
  - intros pod Hp%Hev. rewrite fmap_app, elem_of_app. by right.
  - unfold ReconcileEviction in Hrun. destruct (negb (HasPod q pod)); [by injection Hrun as <- <- <-|]. destruct answer; injection Hrun as <- <- <-; try done.
    cbn [eq_set]. set_solver.
  - unfold ReconcileEviction in Hrun. destruct (HasPod q pod) eqn:Hhas; cbn [negb] in Hrun; [|by injection Hrun as <- <- <-].
    unfold HasPod in Hhas. apply bool_decide_eq_true, Hset, elem_of_list_to_set in Hhas.
    assert (called = true) as -> by (destruct answer; by injection Hrun). intros p [->|Hp]%elem_of_cons; [done|by apply Hev].
Qed.

(** Only pods that were queued are evicted.  However drains and evictions
    interleave, and whatever the answers, an eviction is called only for a pod that
    some drain found on its node and evictable, the same pod and not one that took
    over its name. *)
Theorem evicts_only_queued q queued evicted pod (Hrun : rtc eviction_step (NewEvictionQueue, [], []) (q, queued, evicted)) (Hpod : pod ∈ evicted) :
  ∃ p, p ∈ queued ∧ ObjectKeyFromObject p = ObjectKeyFromObject pod ∧ pod_UID p = pod_UID pod.
Proof.
  assert (eviction_inv (q, queued, evicted)) as [_ Hev].
  { apply (rtc_ind_r (λ x, eviction_inv x) (NewEvictionQueue, [], [])) in Hrun; [done| |].
    - split; cbn; [set_solver|by intros ? ?%not_elem_of_nil].
    - intros x y _ Hstep Hx. by apply (eviction_step_inv x). }
  apply Hev, list_elem_of_fmap in Hpod as (p & Hkey & Hp). injection Hkey as Hname Huid. exists p. split_and!; [done|by unfold ObjectKeyFromObject; congruence|done].
Qed.

(** A pod that was gone, or replaced, when its turn came stays in the set. *)
Lemma gone_pod_stays q pod answer nodeRead : answer = PodGone ∨ answer = PodReplaced → HasPod q pod = true →
  HasPod (ReconcileEviction q pod answer nodeRead).1.1 pod = true.
Proof. intros [-> | ->] Hh; unfold ReconcileEviction; by rewrite Hh. Qed.
End eviction_theory.

(** ** The finalizer *)

Section finalizer_theory.
Context {TL : TaintLib} {PS : Parsers} {SA : StorageAPI} {CL : ConditionLib} {CLaws : ConditionLaws} {TP : TimeParser} {Q : Type}.
Implicit Types (node : Node Q) (claim : option (NodeClaim Q)) (reads : FinalizeReads Q) (now : Z) (expiration : option Z) (q : EvictionQueue).

(** No pod on the node waits for eviction, and the NodeClaim has been seen in that
    state, or draining, for long enough. *)
Definition drained_ok reads claim : Prop :=
  (∃ pods, fr_drainPods reads = Some pods ∧ ∀ pod, pod ∈ pods → IsWaitingEviction pod (fr_now reads) = false) ∧
  ∀ c, claim = Some c → ∃ cond, nc_Conditions c !! ConditionTypeDrained = Some cond ∧
    (cd_Status cond ≠ ConditionUnknown ∨ MinDrainTime <= timeSub (fr_now reads) (cd_LastTransitionTime cond)).

(** The volumes of pods that could be drained are detached, or the time of the node
    is up. *)
Definition detached_ok reads expiration : Prop :=
  ∃ attachments pending, fr_attachments reads = Some attachments ∧
    filterVolumeAttachments (fr_now reads) attachments (fr_volumePods reads) = Some pending ∧
    (pending = [] ∨ ∃ e, expiration = Some e ∧ e < fr_now reads).

Lemma MinDrainTime_waits now : timeSub now now < MinDrainTime.
Proof. unfold timeSub. rewrite Z.sub_diag. reflexivity. Qed.

Lemma awaitDrain_done q reads claim expiration q' effects conds :
  awaitDrain q reads (nc_Conditions <$> claim) expiration = (q', effects, conds, TermDone) →
  drained_ok reads claim ∧ (is_Some conds ↔ is_Some claim).
Proof.
  unfold awaitDrain. destruct (Drain _ _ _ _ _) as [[q1 es] result] eqn:Hd. destruct result as [|n|]; [|done|done].
  apply Drain_drained in Hd as (pods & Hpods & Hnone). intros Hrun. destruct claim as [c|]; cbn in Hrun.
  2:{ injection Hrun as <- <- <-. split; [|split; by intros []]. split; [by exists pods|done]. }
  set (m := match nc_Conditions c !! ConditionTypeDrained with None => _ | Some _ => _ end) in Hrun.
  destruct (m !! ConditionTypeDrained) as [cond|] eqn:Hc; [|done].
  destruct (_ && _) eqn:Hwait; [done|]. injection Hrun as <- <- <-. split; [|split; by eexists]. split; [by exists pods|].
  intros ? [= <-]. unfold m in Hc. destruct (nc_Conditions c !! ConditionTypeDrained) as [old|] eqn:Hold.
  - rewrite Hold in Hc. injection Hc as ->. exists cond. split; [done|]. apply andb_false_iff in Hwait as [Hu|Ht].
    + left. by apply String.eqb_neq.
    + right. apply Z.ltb_ge, Ht.
  - unfold SetUnknownWithReason in Hc. rewrite set_time in Hc by (vm_compute; set_solver). injection Hc as <-. cbn [cd_Status cd_LastTransitionTime] in Hwait.
    unfold transitionTime in Hwait. rewrite Hold in Hwait. apply andb_false_iff in Hwait as [Hu|Ht]; [done|].
    apply Z.ltb_ge in Ht. pose proof (MinDrainTime_waits (fr_now reads)). lia.
Qed.

Lemma awaitVolumeDetachment_done reads conds expiration conds' :
  awaitVolumeDetachment reads conds expiration = (conds', TermDone) → detached_ok reads expiration ∧ (is_Some conds' ↔ is_Some conds).
Proof.
  unfold awaitVolumeDetachment, detached_ok. destruct (fr_attachments reads) as [attachments|]; [|done]. cbn [mbind option_bind].
  destruct (filterVolumeAttachments _ _ _) as [pending|] eqn:Hf; [|done]. destruct pending as [|x pending].
  - intros [= <-]. split; [eauto 6|]. by rewrite fmap_is_Some.
  - destruct (hasTerminationGracePeriodElapsed _ _) eqn:He; cbn [negb]; [|done]. intros [= <-]. split; [|by rewrite fmap_is_Some].
    exists attachments, (x :: pending). split_and!; [done|done|]. right. unfold hasTerminationGracePeriodElapsed in He. destruct expiration as [e|]; [|done].
    exists e. split; [done|]. by apply Z.ltb_lt.
Qed.

(** The steps reach the instance only after the others. *)
Lemma terminate_spec q reads claim expiration q' effects conds result :
  terminate q reads claim expiration = (q', effects, conds, result) →
  (∀ e, e ∈ effects → (∃ pod grace, e = TDeletePod pod grace) ∨ ∃ name, e = TDeleteInstance name ∧ drained_ok reads claim ∧ detached_ok reads expiration) ∧
  (result = TermDone → drained_ok reads claim ∧ detached_ok reads expiration ∧ (claim = None ∨ fr_deleteInstance reads = InstanceGone)).
Proof.
  unfold terminate. destruct (awaitDrain _ _ _ _) as [[[q1 es] conds1] r1] eqn:Hd.
  assert (∀ e, e ∈ es → ∃ pod grace, e = TDeletePod pod grace) as Hes.
  { unfold awaitDrain in Hd. destruct (Drain _ _ _ _ _) as [[q2 es2] result2] eqn:Hdr. assert (es2 = es) as ->.
    { destruct result2; [|by injection Hd|by injection Hd]. destruct claim as [c|]; cbn in Hd; [|by injection Hd].
      destruct (_ !! ConditionTypeDrained) as [cond|]; [|by injection Hd]. destruct (_ && _); by injection Hd. }
    unfold Drain in Hdr. destruct (fr_drainPods reads) as [pods|]; [|by injection Hdr as <- <- <-; intros e ?%not_elem_of_nil].
    destruct (DeleteExpiringPods _ _ _ _) as [es3 ok] eqn:Hdel. apply DeleteExpiringPods_spec in Hdel as [Hdel _].
    assert (es3 = es) as -> by (destruct (negb ok); [by injection Hdr|]; destruct (firstGroup _); by injection Hdr).
    intros e (pod & grace & -> & _)%Hdel. by eexists _, _. }
  destruct r1; try (intros [= <- <- <- <-]; split; [intros e ?; left; by apply Hes|done]).
  apply awaitDrain_done in Hd as [Hdrained Hsome1]. destruct (awaitVolumeDetachment _ _ _) as [conds2 r2] eqn:Hv.
  destruct r2; try (intros [= <- <- <- <-]; split; [intros e ?; left; by apply Hes|done]).
  apply awaitVolumeDetachment_done in Hv as [Hdet Hsome2]. destruct (awaitInstanceTermination _ _ _) as [[es' conds3] r3] eqn:Hi.
  intros [= <- <- <- <-]. unfold awaitInstanceTermination in Hi. destruct claim as [c|].
  - destruct conds2 as [m|]; [|destruct Hsome1 as [_ Hs1], Hsome2 as [_ Hs2]; by destruct (Hs2 (Hs1 ltac:(by eexists)))].
    split.
    + intros e [?|Hin]%elem_of_app; [left; by apply Hes|]. destruct (fr_deleteInstance reads); injection Hi as <- <- <-;
        [apply list_elem_of_singleton in Hin as ->; right; by eexists..|by apply not_elem_of_nil in Hin].
    + intros ->. split_and!; [done|done|]. right. by destruct (fr_deleteInstance reads).
  - injection Hi as <- <- <-. rewrite app_nil_r. split; [intros e ?; left; by apply Hes|]. intros _. split_and!; [done|done|by left].
Qed.

Lemma removeFinalizer_effects reads effects result e : removeFinalizer reads = (effects, result) → e ∈ effects → e = TRemoveFinalizer.
Proof.
  unfold removeFinalizer. destruct (fr_removeFinalizer reads); intros [= <- <-]; [by intros ->%list_elem_of_singleton|by intros ?%not_elem_of_nil].
Qed.

(** An effect that ends the life of the node or of its instance. *)
Definition final (e : TermEffect) : Prop := match e with TRemoveFinalizer | TDeleteInstance _ => True | _ => False end.

Lemma patchClaim_effects reads claim conds effects r e : patchClaim reads claim conds = (effects, r) → e ∈ effects → ¬ final e.
Proof.
  unfold patchClaim. destruct claim as [c|], conds as [m|]; try (by intros [= <- <-] ?%not_elem_of_nil).
  case_bool_decide; [by intros [= <- <-] ?%not_elem_of_nil|]. destruct (fr_patchClaim reads); intros [= <- <-]; [by intros ?%not_elem_of_nil|].
  intros ->%list_elem_of_singleton [].
Qed.

Lemma taintForDrain_effects node reads effects r e : taintForDrain node reads = (effects, r) → e ∈ effects → ¬ final e.
Proof.
  unfold taintForDrain. destruct (_ && _); [by intros [= <- <-] ?%not_elem_of_nil|].
  destruct (fr_taintPatch reads); intros [= <- <-]; [by intros ?%not_elem_of_nil|]. intros ->%list_elem_of_singleton [].
Qed.

Lemma terminateNode_spec q reads node claim q' effects result e :
  terminateNode q reads node claim = (q', effects, result) → e ∈ effects → final e →
  ∃ expiration, nodeTerminationTime claim = Some expiration ∧ drained_ok reads claim ∧ detached_ok reads expiration ∧
    (e = TRemoveFinalizer → claim = None ∨ fr_deleteInstance reads = InstanceGone).
Proof.
  unfold terminateNode. destruct (nodeTerminationTime claim) as [expiration|]; [|by intros [= <- <- <-] ?%not_elem_of_nil].
  destruct (taintForDrain node reads) as [tainted [r|]] eqn:Ht.
  { intros [= <- <- <-] He Hf. by destruct (taintForDrain_effects _ _ _ _ _ Ht He). }
  destruct (terminate q reads claim expiration) as [[[q1 es] conds] r] eqn:Hterm. apply terminate_spec in Hterm as [Hes Hdone].
  destruct (patchClaim reads claim conds) as [patched pr] eqn:Hp. intros Hrun He Hf. exists expiration. split; [done|].
  assert (e ∈ tainted ++ es ++ patched → ∃ name, e = TDeleteInstance name ∧ drained_ok reads claim ∧ detached_ok reads expiration) as Hearly.
  { intros [Hin|[Hin|Hin]%elem_of_app]%elem_of_app.
    - by destruct (taintForDrain_effects _ _ _ _ _ Ht Hin).
    - destruct (Hes e Hin) as [(pod & grace & ->)|?]; [done|done].
    - by destruct (patchClaim_effects _ _ _ _ _ _ Hp Hin). }
  assert (e ∈ tainted ++ es ++ patched → drained_ok reads claim ∧ detached_ok reads expiration ∧
    (e = TRemoveFinalizer → claim = None ∨ fr_deleteInstance reads = InstanceGone)) as Hgoal.
  { intros (name & -> & ? & ?)%Hearly. done. }
  destruct pr as [pr|]; [injection Hrun as <- <- <-; rewrite <- app_assoc in He; by apply Hgoal|].
  destruct r; try (injection Hrun as <- <- <-; rewrite <- app_assoc in He; by apply Hgoal).
  destruct (removeFinalizer reads) as [removed fin]. injection Hrun as <- <- <-. rewrite !app_assoc, <- (app_assoc tainted) in He.
  apply elem_of_app in He as [He|He]; [by apply Hgoal|]. destruct (Hdone eq_refl) as (? & ? & ?). done.
Qed.

(** C23. A node outlives its pods and its instance outlives neither.  The instance is told
    to go, or the finalizer of the node removed, only of a managed node that is being
    deleted, and only when the provider says the instance of an unready node does not
    exist, or else when no pod on the node waits for eviction, its NodeClaim has been
    draining for the minimal time, and the volumes of the drained pods are detached or
    the time of the node is up.  The finalizer goes, further, only after the provider
    says the instance is gone, unless no NodeClaim is known for the node. *)
Theorem finalized_after_drain q reads node q' effects result e
    (Hrun : ReconcileNode q reads node = (q', effects, result)) (He : e ∈ effects) (Hfinal : final e) :
  is_Some (n_DeletionTimestamp node) ∧ fr_managed reads = true ∧
  ∃ claim, claimForNode node (fr_claims reads) = Some claim ∧
    (conditionTrue (n_Conditions node) "Ready" = false ∧ fr_getInstance reads = InstanceGone ∧ e = TRemoveFinalizer ∨
     ∃ expiration, nodeTerminationTime claim = Some expiration ∧ drained_ok reads claim ∧ detached_ok reads expiration ∧
       (e = TRemoveFinalizer → claim = None ∨ fr_deleteInstance reads = InstanceGone)).
Proof.
  unfold ReconcileNode in Hrun. destruct (n_DeletionTimestamp node) as [t|]; [|injection Hrun as <- <- <-; by apply not_elem_of_nil in He].
  unfold finalize in Hrun. destruct (fr_hasFinalizer reads), (fr_managed reads); cbn [negb orb] in Hrun; try (injection Hrun as <- <- <-; by apply not_elem_of_nil in He).
  split_and!; [by eexists|done|]. destruct (claimForNode node (fr_claims reads)) as [claim|]; [|injection Hrun as <- <- <-; by apply not_elem_of_nil in He].
  exists claim. split; [done|]. set (toDelete := match claim with Some _ => _ | None => _ end) in Hrun.
  destruct (toDelete && _); [injection Hrun as <- <- <-; by apply not_elem_of_nil in He|].
  set (deleted := match claim with Some _ => _ | None => _ end) in Hrun.
  assert (e ∉ deleted) as Hnd.
  { unfold deleted. destruct claim as [c|]; [|apply not_elem_of_nil]. destruct toDelete; [|apply not_elem_of_nil]. by intros ->%list_elem_of_singleton. }
  assert (∀ l, e ∈ deleted ++ l → e ∈ l) as Hrest by (intros l [?|?]%elem_of_app; done).
  destruct (conditionTrue (n_Conditions node) "Ready").
  { destruct (terminateNode q reads node claim) as [[q1 es] r] eqn:Ht. injection Hrun as <- <- <-. right. eapply terminateNode_spec; [exact Ht|by apply Hrest|done]. }
  destruct (fr_getInstance reads).
  - destruct (terminateNode q reads node claim) as [[q1 es] r] eqn:Ht. injection Hrun as <- <- <-. right. eapply terminateNode_spec; [exact Ht|by apply Hrest|done].
  - destruct (removeFinalizer reads) as [removed r] eqn:Hr. injection Hrun as <- <- <-. left. split_and!; [done|done|].
    eapply removeFinalizer_effects; [exact Hr|by apply Hrest].
  - injection Hrun as <- <- <-. done.
Qed.
End finalizer_theory.

(** * Witnesses *)

Section witnesses.
#[local] Existing Instance keyTaintLib.
#[local] Existing Instance noParsers.
#[local] Existing Instance emptyStorage.
#[local] Existing Instance plainConditions.
#[local] Existing Instance plainConditions_laws.

(** The only time that can be read is a hundred seconds. *)
#[local] Instance hundredSeconds : TimeParser := {| parseRFC3339 s := if String.eqb s "100s" then Some (100 * Second) else None |}.

Definition withPriorityClass (p : Pod) (class : string) : Pod :=
  mkPod (pod_Namespace p) (pod_Name p) (pod_UID p) (pod_CreationTimestamp p) (pod_DeletionTimestamp p) (pod_Labels p) (pod_Annotations p)
    (pod_OwnerReferences p) (pod_NodeSelector p) (pod_Affinity p) (pod_Tolerations p) (pod_TopologySpreadConstraints p) (pod_Containers p)
    (pod_Volumes p) (pod_NodeName p) (pod_SchedulerName p) (pod_Priority p) (pod_Phase p) (pod_Conditions p) (pod_NominatedNodeName p)
    (pod_StartTime p) (pod_ResourceClaims p) (pod_InitContainerClaims p) (pod_ContainerClaims p) (pod_ResourceClaimStatuses p) class
    (pod_TerminationGracePeriodSeconds p).

Definition plainPod : Pod := barePod "default" "plain" "1".
Definition criticalPod : Pod := withPriorityClass (barePod "kube-system" "dns" "2") "system-cluster-critical".

(** Ten seconds are left of the time of the node, twenty less than the pods want. *)
Definition drainRun : EvictionQueue * list TermEffect * DrainResult :=
  Drain (λ _, true) NewEvictionQueue (Some [criticalPod; plainPod]) (90 * Second) (Some (100 * Second)).

Lemma drain_in_order_witness :
  drainRun.1.2 = [TDeletePod criticalPod 10; TDeletePod plainPod 10] ∧ drainRun.2 = PodsWaiting 2 ∧ eq_set drainRun.1.1 = {[NewQueueKey plainPod]} ∧
  (∃ grace, TDeletePod plainPod grace ∈ drainRun.1.2).
Proof.
  split; [vm_compute; reflexivity|]. split; [vm_compute; reflexivity|]. split; [vm_compute; reflexivity|].
  destruct (drain_in_order (λ _, true) NewEvictionQueue [criticalPod; plainPod] (90 * Second) (Some (100 * Second)) drainRun.1.1 drainRun.1.2 drainRun.2)
    as (_ & _ & _ & Hdel).
  - vm_compute. reflexivity.
  - vm_compute. discriminate.
  - apply Hdel. split; [vm_compute; right; left|]. split; [left; vm_compute; reflexivity|]. exists (70 * Second). split; vm_compute; reflexivity.
Defined.

Lemma evicts_only_queued_witness :
  ∃ p, p ∈ [criticalPod; plainPod] ∧ ObjectKeyFromObject p = ObjectKeyFromObject plainPod ∧ pod_UID p = pod_UID plainPod.
Proof.
  refine (evicts_only_queued (mkEvictionQueue ∅ [plainPod]) [criticalPod; plainPod] [plainPod] plainPod _ _); [|left].
  eapply rtc_l.
  - apply (eviction_drain NewEvictionQueue [] [] (λ _, true) (Some [criticalPod; plainPod]) (90 * Second) None (mkEvictionQueue {[NewQueueKey plainPod]} [plainPod]) [] (PodsWaiting 2)).
    vm_compute. reflexivity.
  - apply rtc_once. apply (eviction_reconcile _ _ _ plainPod PodEvicted true _ true EvictionDone). vm_compute. reflexivity.
Defined.

Definition dyingNode : Node Z := mkNode "node-a" "p1" ∅ ∅ [] (Some 1) ∅ ∅ {["Ready"%string := mkCondition "True" "KubeletReady" 0]}.

Definition drainedClaim : NodeClaim Z :=
  mkNodeClaim "claim-a" "p1" ∅ {[NodeClaimTerminationTimestampAnnotationKey := "100s"%string]} [] [] None 0 (Some 1) ∅ ∅
    {[ConditionTypeDrained := mkCondition ConditionUnknown "Draining" (80 * Second)]} None None.

(** No pods are left, a volume of the node still is; the instance is gone. *)
Definition lastReads (now : Z) : FinalizeReads Z :=
  mkFinalizeReads now true true (Some [drainedClaim]) true InstanceFound None (Some []) (λ _, true) (Some [Some "pv"%string]) (Some []) InstanceGone None true.

Definition lastPass (now : Z) : EvictionQueue * list TermEffect * TermResult := ReconcileNode NewEvictionQueue (lastReads now) dyingNode.

Lemma finalized_after_drain_witness :
  (lastPass (90 * Second)).2 = TermRequeueAfter Second ∧ (lastPass (101 * Second)).2 = TermDone ∧
  TRemoveFinalizer ∈ (lastPass (101 * Second)).1.2 ∧ detached_ok (lastReads (101 * Second)) (Some (100 * Second)).
Proof.
  split; [vm_compute; reflexivity|]. split; [vm_compute; reflexivity|].
  assert (TRemoveFinalizer ∈ (lastPass (101 * Second)).1.2) as Hin by (vm_compute; do 3 right; left). split; [exact Hin|].
  destruct (finalized_after_drain NewEvictionQueue (lastReads (101 * Second)) dyingNode (lastPass (101 * Second)).1.1 (lastPass (101 * Second)).1.2
    (lastPass (101 * Second)).2 TRemoveFinalizer) as (_ & _ & claim & Hc & [(Hr & _)|(expiration & Hexp & _ & Hdet & _)]).
  - vm_compute. reflexivity.
  - exact Hin.
  - exact I.
  - vm_compute in Hr. discriminate.
  - assert (claim = Some drainedClaim) as -> by (vm_compute in Hc; injection Hc as <-; reflexivity).
    assert (expiration = Some (100 * Second)) as -> by (vm_compute in Hexp; injection Hexp as <-; reflexivity). exact Hdet.
Defined.
End witnesses.
