(* ===== verification/Lifecycle.v ===== *)
(** * The life of a NodeClaim

    Model of [pkg/controllers/nodeclaim/lifecycle]: launching the instance
    ([launch.go]), registering its node ([registration.go]), initialising it
    ([initialization.go]), giving up on it ([liveness.go]), and the reconcile that
    runs these in turn or finalizes a deleted NodeClaim ([controller.go]).  Each
    works on the NodeClaim in memory and returns it with what it did, oldest
    first; what is read and how calls are answered are arguments.  The status
    library fills in missing conditions and their generation; neither matters
    here. *)

From Stdlib Require Import SpecFloat.
From S2P Require Import Prelude Float64 Kube Conditions Taints HostPorts Volumes Resources PodUtils StateNode Health Replacements Cluster ClusterInv DisruptionQueue Controller Termination.

(** How a call was answered. *)
Inductive CallAnswer := CallOk | CallNotFound | CallConflict | CallError.

#[export] Instance CallAnswer_eq_dec : EqDecision CallAnswer.
Proof. solve_decision. Defined.

(** A NodeClaim with the fields the lifecycle reads besides those of
    [Kube.NodeClaim]. *)
Record ManagedClaim (Q : Type) := mkManagedClaim {
  mc_UID : string;
  mc_claim : NodeClaim Q;
  mc_Requests : gmap string Q;
  mc_ImageID : string;
  mc_NodeName : string;
  mc_Owners : list (string * string);          (* kind and UID *)
  mc_Finalizer : bool;                         (* the termination finalizer *)
}.
Arguments mkManagedClaim {Q}.
Arguments mc_UID {Q}.
Arguments mc_claim {Q}.
Arguments mc_Requests {Q}.
Arguments mc_ImageID {Q}.
Arguments mc_NodeName {Q}.
Arguments mc_Owners {Q}.
Arguments mc_Finalizer {Q}.

(** A node with the finalizer and the NodeClaims that own it. *)
Record RegNode (Q : Type) := mkRegNode {
  rn_node : Node Q;
  rn_Finalizer : bool;
  rn_Owners : list string;                     (* UIDs of NodeClaims *)
}.
Arguments mkRegNode {Q}.
Arguments rn_node {Q}.
Arguments rn_Finalizer {Q}.
Arguments rn_Owners {Q}.

(** [reconcile.Result] *)
Record Result := mkResult { rs_Requeue : bool; rs_RequeueAfter : Z }.

#[export] Instance Result_eq_dec : EqDecision Result.
Proof. solve_decision. Defined.

Definition noResult : Result := mkResult false 0.
Definition requeue : Result := mkResult true 0.
Definition requeueAfter (d : Z) : Result := mkResult false d.
Definition isEmptyResult (r : Result) : bool := bool_decide (r = noResult).

(** [result.Min] *)
Definition minResult (results : list Result) : Result :=
  (foldl (λ (acc : Z * Result) r,
    if isEmptyResult r then acc
    else if rs_RequeueAfter r <? acc.1 then (rs_RequeueAfter r, mkResult true (rs_RequeueAfter r)) else acc)
    (MaxInt64, noResult) results).2.

(** What the lifecycle does to the API server and the cloud provider. *)
Inductive LifeEffect (Q : Type) :=
  | LCreateInstance
  | LDeleteInstance
  | LDeleteClaim
  | LAddFinalizer
  | LRemoveFinalizer
  | LPatchClaim (claim : ManagedClaim Q)
  | LAnnotate (time : string)
  | LPatchStatus (claim : ManagedClaim Q)
  | LPatchNode (node : RegNode Q)
  | LDeleteNode (name : string)
  | LPatchPool (healthy : bool).
Arguments LCreateInstance {Q}.
Arguments LDeleteInstance {Q}.
Arguments LDeleteClaim {Q}.
Arguments LAddFinalizer {Q}.
Arguments LRemoveFinalizer {Q}.
Arguments LPatchClaim {Q}.
Arguments LAnnotate {Q}.
Arguments LPatchStatus {Q}.
Arguments LPatchNode {Q}.
Arguments LDeleteNode {Q}.
Arguments LPatchPool {Q}.

Definition NodeDoNotSyncTaintsLabelKey : string := "karpenter.sh/do-not-sync-taints".
Definition NodePoolRegistrationTimeoutAnnotationKey : string := "karpenter.sh/nodeclaim-registration-timeout".
Definition DRADriversAnnotationKey : string := "karpenter.sh/requested-dra-drivers".
Definition ConditionTypeNodeRegistrationHealthy : string := "NodeRegistrationHealthy".

Definition launchCacheTTL : Z := Hour.
Definition registrationTimeout : Z := 15 * Minute.
Definition LaunchTimeout : Z := 5 * Minute.

(** ** Text: [strings.TrimSpace] of ASCII text and [strings.Split] at commas *)

Definition isSpace (a : Ascii.ascii) : bool := let n := Ascii.N_of_ascii a in (N.leb 9 n && N.leb n 13) || N.eqb n 32.

Fixpoint trimLeft (s : string) : string :=
  match s with String a s' => if isSpace a then trimLeft s' else s | EmptyString => EmptyString end.

Fixpoint trimRight (s : string) : string :=
  match s with
  | EmptyString => EmptyString
  | String a s' => match trimRight s' with EmptyString => if isSpace a then EmptyString else String a EmptyString | t => String a t end
  end.

Definition TrimSpace (s : string) : string := trimRight (trimLeft s).

Fixpoint splitComma (s : string) : list string :=
  match s with
  | EmptyString => [EmptyString]
  | String a s' =>
      match splitComma s' with
      | [] => []
      | w :: ws => if N.eqb (Ascii.N_of_ascii a) 44 then EmptyString :: w :: ws else String a w :: ws
      end
  end.

(** ** Launching *)

(** What [cloudProvider.Create] answers. *)
Inductive CreateAnswer (Q : Type) :=
  | Created (claim : NodeClaim Q) (imageID : string)
  | InsufficientCapacity
  | NodeClassNotReady
  | LaunchDeferred (reason : string) (retryAfter : Z)
  | CreateFailed (reason : option string).       (* of a CreateError *)
Arguments Created {Q}.
Arguments InsufficientCapacity {Q}.
Arguments NodeClassNotReady {Q}.
Arguments LaunchDeferred {Q}.
Arguments CreateFailed {Q}.

Section lifecycle.
Context {TL : TaintLib} {PS : Parsers} {CL : ConditionLib} {GR : GoRange} {Q : Type} `{Quantity Q}.
Implicit Types (mc : ManagedClaim Q) (now : Z) (node : RegNode Q) (effects : list (LifeEffect Q)).

(** The NodeClaim created for a UID, and until when it is remembered. *)
Abbreviation LaunchCache := (gmap string (NodeClaim Q * string * Z)).
Implicit Types (cache : LaunchCache).

Definition withClaim mc (claim : NodeClaim Q) : ManagedClaim Q :=
  mkManagedClaim (mc_UID mc) claim (mc_Requests mc) (mc_ImageID mc) (mc_NodeName mc) (mc_Owners mc) (mc_Finalizer mc).

Definition withConditions mc (conds : gmap string Condition) : ManagedClaim Q :=
  let c := mc_claim mc in
  withClaim mc (mkNodeClaim (nc_Name c) (nc_ProviderID c) (nc_Labels c) (nc_Annotations c) (nc_Taints c) (nc_StartupTaints c) (nc_ExpireAfter c)
    (nc_CreationTimestamp c) (nc_DeletionTimestamp c) (nc_Capacity c) (nc_Allocatable c) conds (nc_LastPodEventTime c) (nc_TerminationGracePeriod c)).

Definition conditionsOf mc : gmap string Condition := nc_Conditions (mc_claim mc).
Definition setStage mc (type status reason : string) now : ManagedClaim Q := withConditions mc (setCondition (conditionsOf mc) type status reason now).
Definition isUnknown mc (type : string) : bool := conditionUnknown (conditionsOf mc) type.
Definition isTrue mc (type : string) : bool := conditionTrue (conditionsOf mc) type.

Definition PopulateNodeClaimDetails mc (retrieved : NodeClaim Q) (imageID : string) : ManagedClaim Q :=
  let c := mc_claim mc in
  mkManagedClaim (mc_UID mc)
    (mkNodeClaim (nc_Name c) (nc_ProviderID retrieved) (nc_Labels c ∪ nc_Labels retrieved) (nc_Annotations retrieved ∪ nc_Annotations c) (nc_Taints c)
      (nc_StartupTaints c) (nc_ExpireAfter c) (nc_CreationTimestamp c) (nc_DeletionTimestamp c) (nc_Capacity retrieved) (nc_Allocatable retrieved)
      (nc_Conditions c) (nc_LastPodEventTime c) (nc_TerminationGracePeriod c))
    (mc_Requests mc) imageID (mc_NodeName mc) (mc_Owners mc) (mc_Finalizer mc).

(** What one of the steps leaves: the NodeClaim, what it did, its result, and
    whether there is an error. *)
Record Step := mkStep { st_claim : ManagedClaim Q; st_effects : list (LifeEffect Q); st_result : Result; st_error : bool }.

(** [launchNodeClaim]: [inr] what was created *)
Definition launchNodeClaim mc now (answer : CreateAnswer Q) (delete : CallAnswer) : Step + NodeClaim Q * string :=
  let deleted := mkStep mc (LCreateInstance :: match delete with CallOk => [LDeleteClaim] | _ => [] end) noResult
    (match delete with CallOk | CallNotFound => false | _ => true end) in
  match answer with
  | Created claim imageID => inr (claim, imageID)
  | InsufficientCapacity | NodeClassNotReady => inl deleted
  | LaunchDeferred reason retryAfter => inl (mkStep (setStage mc ConditionTypeLaunched ConditionUnknown reason now) [LCreateInstance] (requeueAfter retryAfter) false)
  | CreateFailed reason =>
      inl (mkStep (setStage mc ConditionTypeLaunched ConditionUnknown (default "LaunchFailed"%string reason) now) [LCreateInstance] noResult true)
  end.

Definition cachedLaunch cache now (uid : string) : option (NodeClaim Q * string) :=
  '(claim, imageID, expires) ← cache !! uid; if expires <? now then None else Some (claim, imageID).

(** [Launch.Reconcile] *)
Definition Launch cache mc now (answer : CreateAnswer Q) (delete : CallAnswer) : LaunchCache * Step :=
  if negb (isUnknown mc ConditionTypeLaunched) then
    (if isTrue mc ConditionTypeLaunched then base.delete (mc_UID mc) cache else cache, mkStep mc [] noResult false)
  else
    let launched := match cachedLaunch cache now (mc_UID mc) with
      | Some created => inr (created, [])
      | None => match launchNodeClaim mc now answer delete with inl st => inl st | inr created => inr (created, [LCreateInstance]) end
      end in
    match launched with
    | inl st => (cache, st)
    | inr ((claim, imageID), effects) =>
        (<[mc_UID mc := (claim, imageID, now + launchCacheTTL)]> cache,
         mkStep (setStage (PopulateNodeClaimDetails mc claim imageID) ConditionTypeLaunched ConditionTrue ConditionTypeLaunched now) effects noResult false)
    end.

(** ** The node of a NodeClaim *)

Inductive NodeAnswer := OneNode (node : RegNode Q) | NodeNotFound | DuplicateNode | NodeReadError.

(** [AllNodesForNodeClaim] of the nodes listed with the provider ID *)
Definition AllNodesForNodeClaim mc (listed : option (list (RegNode Q))) : option (list (RegNode Q)) :=
  if String.eqb (nc_ProviderID (mc_claim mc)) "" then Some [] else listed.

Definition NodeForNodeClaim mc (listed : option (list (RegNode Q))) : NodeAnswer :=
  match AllNodesForNodeClaim mc listed with
  | None => NodeReadError
  | Some [] => NodeNotFound
  | Some [node] => OneNode node
  | Some _ => DuplicateNode
  end.

(** ** Registering *)

(** What a hook answers. *)
Inductive HookAnswer := HookResult (r : Result) | HookError.

Definition withNode (n : Node Q) (taints : list Taint) (labels annotations : gmap string string) : Node Q :=
  mkNode (n_Name n) (n_ProviderID n) labels annotations taints (n_DeletionTimestamp n) (n_Capacity n) (n_Allocatable n) (n_Conditions n).

Definition syncNode mc node : RegNode Q :=
  let n := rn_node node in
  let c := mc_claim mc in
  let taints := if bool_decide (n_Labels n !! NodeDoNotSyncTaintsLabelKey = Some "true"%string) then n_Taints n
                else MergeTaints (MergeTaints (n_Taints n) (nc_Taints c)) (nc_StartupTaints c) in
  mkRegNode (withNode n taints (nc_Labels c ∪ n_Labels n) (nc_Annotations c ∪ n_Annotations n)) true
    (if bool_decide (mc_UID mc ∈ rn_Owners node) then rn_Owners node else rn_Owners node ++ [mc_UID mc]).

(** The node once the hooks are done. *)
Definition completeNode node : RegNode Q :=
  let n := rn_node node in
  mkRegNode (withNode n (List.filter (λ t, negb (MatchTaint t UnregisteredNoExecuteTaint)) (n_Taints n))
    (<[NodeRegisteredLabelKey := "true"%string]> (n_Labels n)) (n_Annotations n)) (rn_Finalizer node) (rn_Owners node).

Definition isPending (h : HookAnswer) : bool := match h with HookError => true | HookResult r => negb (isEmptyResult r) end.

Definition mergeResult (merged r : Result) : Result :=
  mkResult (rs_Requeue merged || rs_Requeue r)
    (if (rs_RequeueAfter merged =? 0) || ((0 <? rs_RequeueAfter r) && (rs_RequeueAfter r <? rs_RequeueAfter merged)) then rs_RequeueAfter r else rs_RequeueAfter merged).

Definition mergedResult (hooks : list HookAnswer) : Result :=
  foldl (λ merged h, match h with HookResult r => if isEmptyResult r then merged else mergeResult merged r | HookError => merged end) noResult hooks.

(** [checkRegistrationHooks]; hooks may also change the NodeClaim, which is
    [afterHooks]. *)
Definition checkRegistrationHooks mc (afterHooks : ManagedClaim Q → ManagedClaim Q) now (hooks : list HookAnswer) : ManagedClaim Q * Result * bool :=
  match hooks with
  | [] => (mc, noResult, false)
  | _ =>
      let mc := afterHooks mc in
      if existsb isPending hooks
      then (setStage mc ConditionTypeRegistered ConditionUnknown "RegistrationHookPending" now, mergedResult hooks,
            existsb (λ h, match h with HookError => true | _ => false end) hooks)
      else (mc, noResult, false)
  end.

(** A node pool as it is read for the registration health. *)
Record PoolRead := mkPoolRead {
  pr_UID : string;
  pr_Annotations : gmap string string;
  pr_Conditions : gmap string Condition;
  pr_SetTrueChanges : bool;                    (* whether the status library changes anything to make it healthy *)
}.

Definition ownedByPool mc (pool : PoolRead) : bool :=
  existsb (λ o, String.eqb o.1 "NodePool" && String.eqb o.2 (pr_UID pool)) (mc_Owners mc).

Definition poolName mc : string := default ""%string (nc_Labels (mc_claim mc) !! NodePoolLabelKey).

(** [updateNodePoolRegistrationHealth] of the registration and of liveness:
    [needsPatch] of the status after the outcome and the conditions of the pool.
    [None] is a panic. *)
Definition updateHealth (success : bool) (needsPatch : Status → PoolRead → bool) (health : HealthState) mc (pool : GetResult PoolRead)
    (patch : CallAnswer) : option (HealthState * list (LifeEffect Q) * CallAnswer) :=
  if String.eqb (poolName mc) "" then Some (health, [], CallOk)
  else
    match pool with
    | NotFound => Some (health, [], CallNotFound)
    | GetError => Some (health, [], CallError)
    | Found pool =>
        if negb (ownedByPool mc pool) then Some (health, [], CallOk)
        else
          '(health, tracker) ← DryRun health (pr_UID pool) success;
          if needsPatch (TrackerStatus tracker) pool then
            match patch with
            | CallOk | CallNotFound => health ← HealthUpdate health (pr_UID pool) success; Some (health, [LPatchPool success], CallOk)
            | _ => Some (health, [], patch)
            end
          else health ← HealthUpdate health (pr_UID pool) success; Some (health, [], CallOk)
    end.

Definition healthyPatch (s : Status) (pool : PoolRead) : bool := bool_decide (s = StatusHealthy) && pr_SetTrueChanges pool.

Definition unhealthyPatch (s : Status) (pool : PoolRead) : bool :=
  bool_decide (s = StatusUnhealthy) &&
  negb (match pr_Conditions pool !! ConditionTypeNodeRegistrationHealthy with Some c => String.eqb (cd_Status c) ConditionFalse | None => false end).

Definition sameNode node node' : bool :=
  let n := rn_node node in
  let n' := rn_node node' in
  bool_decide (n_Taints n = n_Taints n') && bool_decide (n_Labels n = n_Labels n') && bool_decide (n_Annotations n = n_Annotations n') &&
  Bool.eqb (rn_Finalizer node) (rn_Finalizer node') && bool_decide (rn_Owners node = rn_Owners node').

(** The reads and answers of registration. *)
Record RegReads := mkRegReads {
  rr_nodes : option (list (RegNode Q));
  rr_hooks : list HookAnswer;
  rr_afterHooks : ManagedClaim Q → ManagedClaim Q;
  rr_patchNode : CallAnswer;
  rr_pool : GetResult PoolRead;
  rr_patchPool : CallAnswer;
}.

(** The part of registration after the node was patched. *)
Definition completeRegistration (health : HealthState) mc node now (reads : RegReads) effects : option (HealthState * Step) :=
  let mc := setStage mc ConditionTypeRegistered ConditionTrue ConditionTypeRegistered now in
  let mc := mkManagedClaim (mc_UID mc) (mc_claim mc) (mc_Requests mc) (mc_ImageID mc) (n_Name (rn_node node)) (mc_Owners mc) (mc_Finalizer mc) in
  '(health, es, answer) ← updateHealth true healthyPatch health mc (rr_pool reads) (rr_patchPool reads);
  Some (health, mkStep mc (effects ++ es) (match answer with CallConflict => requeue | _ => noResult end) (bool_decide (answer = CallError))).

(** [Registration.Reconcile] *)
Definition Registration (health : HealthState) mc now (reads : RegReads) : option (HealthState * Step) :=
  if negb (isUnknown mc ConditionTypeRegistered) then Some (health, mkStep mc [] noResult false)
  else
    match NodeForNodeClaim mc (rr_nodes reads) with
    | NodeNotFound => Some (health, mkStep (setStage mc ConditionTypeRegistered ConditionUnknown "NodeNotFound" now) [] noResult false)
    | DuplicateNode => Some (health, mkStep (setStage mc ConditionTypeRegistered ConditionFalse "MultipleNodesFound" now) [] noResult false)
    | NodeReadError => Some (health, mkStep mc [] noResult true)
    | OneNode stored =>
        let node := syncNode mc stored in
        let '(mc, hooksResult, hookErrors) := checkRegistrationHooks mc (rr_afterHooks reads) now (rr_hooks reads) in
        let hooksDone := isEmptyResult hooksResult && negb hookErrors in
        let node := if hooksDone then completeNode (syncNode mc node) else node in
        let '(effects, patched) := if sameNode stored node then ([], CallOk) else
          (match rr_patchNode reads with CallOk => [LPatchNode node] | _ => [] end, rr_patchNode reads) in
        match patched with
        | CallConflict => Some (health, mkStep mc [] requeue false)
        | CallNotFound | CallError => Some (health, mkStep mc [] noResult true)
        | CallOk =>
            if negb hooksDone then Some (health, mkStep mc effects hooksResult hookErrors)
            else completeRegistration health mc node now reads effects
        end
    end.

(** ** Initialising *)

(** A ResourceSlice as it is read: its node, its owners of kind Node, and its pool. *)
Record Slice := mkSlice {
  sl_NodeName : string;
  sl_NodeOwners : list string;
  sl_Driver : string;
  sl_Pool : string;
  sl_Generation : Z;
  sl_ResourceSliceCount : Z;
}.

Definition sliceBelongsToNode (s : Slice) (nodeName : string) : bool :=
  String.eqb (sl_NodeName s) nodeName || existsb (String.eqb nodeName) (sl_NodeOwners s).

Record poolObservation := mkObservation { po_generation : Z; po_resourceSliceCount : Z; po_observed : Z }.

Definition observeSlice (pools : gmap (string * string) poolObservation) (s : Slice) : gmap (string * string) poolObservation :=
  let key := (sl_Driver s, sl_Pool s) in
  let first := mkObservation (sl_Generation s) (sl_ResourceSliceCount s) 1 in
  match pools !! key with
  | None => <[key := first]> pools
  | Some obs =>
      if po_generation obs <? sl_Generation s then <[key := first]> pools
      else if sl_Generation s =? po_generation obs
      then <[key := mkObservation (po_generation obs) (po_resourceSliceCount obs) (po_observed obs + 1)]> pools
      else pools
  end.

Definition isComplete (obs : poolObservation) : bool := (0 <? po_resourceSliceCount obs) && (po_observed obs =? po_resourceSliceCount obs).

Definition completePoolDrivers (slices : list Slice) : gset string :=
  list_to_set ((λ kv, kv.1.1) <$> List.filter (λ kv, isComplete kv.2) (gorange (foldl observeSlice ∅ slices))).

(** The first driver without a complete pool. *)
Definition DRADriversPublished mc (slices : list Slice) : option string :=
  let annotation := TrimSpace (default ""%string (nc_Annotations (mc_claim mc) !! DRADriversAnnotationKey)) in
  if String.eqb annotation "" then None
  else List.find (λ driver, negb (String.eqb driver "") && bool_decide (driver ∉ completePoolDrivers slices)) (TrimSpace <$> splitComma annotation).

(** [draDriverPoolsPublished]: [None] an error of the read. *)
Definition draDriverPoolsPublished (ignoreDRA : bool) mc node (listed : option (list Slice)) : option (option string) :=
  if ignoreDRA then Some None
  else
    match nc_Annotations (mc_claim mc) !! DRADriversAnnotationKey with
    | None => Some None
    | Some _ => slices ← listed; Some (DRADriversPublished mc (List.filter (λ s, sliceBelongsToNode s (n_Name (rn_node node))) slices))
    end.

Definition StartupTaintsRemoved mc node : bool :=
  negb (existsb (λ t, existsb (λ t', MatchTaint t t') (n_Taints (rn_node node))) (nc_StartupTaints (mc_claim mc))).

Definition KnownEphemeralTaintsRemoved node : bool := negb (existsb (λ t, IsKnownEphemeralTaint (Some t)) (n_Taints (rn_node node))).

Definition RequestedResourcesRegistered mc node : bool :=
  forallb (λ kv, IsZero kv.2 || negb (IsZero (default qzero (n_Allocatable (rn_node node) !! kv.1)))) (gorange (mc_Requests mc)).

(** Why the node is not initialised yet: an error or a reason, or the node
    that is. *)
Definition notInitialized (ignoreDRA : bool) mc (listed : option (list (RegNode Q))) (slices : option (list Slice)) : () + string + RegNode Q :=
  match NodeForNodeClaim mc listed with
  | OneNode node =>
      if negb (conditionTrue (n_Conditions (rn_node node)) "Ready") then inl (inr "NodeNotReady"%string)
      else if negb (StartupTaintsRemoved mc node) then inl (inr "StartupTaintsExist"%string)
      else if negb (KnownEphemeralTaintsRemoved node) then inl (inr "KnownEphemeralTaintsExist"%string)
      else if negb (RequestedResourcesRegistered mc node) then inl (inr "ResourceNotRegistered"%string)
      else
        match draDriverPoolsPublished ignoreDRA mc node slices with
        | None => inl (inl ())
        | Some (Some _) => inl (inr "DRADriverPoolsNotPublished"%string)
        | Some None => inr node
        end
  | _ => inl (inr "NodeNotFound"%string)
  end.

Definition labelInitialized node : RegNode Q :=
  let n := rn_node node in
  mkRegNode (withNode n (n_Taints n) (<[NodeInitializedLabelKey := "true"%string]> (n_Labels n)) (n_Annotations n)) (rn_Finalizer node) (rn_Owners node).

(** [Initialization.Reconcile] *)
Definition Initialization (ignoreDRA : bool) mc now (listed : option (list (RegNode Q))) (slices : option (list Slice)) (patchNode : CallAnswer) : Step :=
  if negb (isUnknown mc ConditionTypeInitialized) then mkStep mc [] noResult false
  else if negb (isTrue mc ConditionTypeRegistered) then mkStep mc [] noResult false
  else
    match notInitialized ignoreDRA mc listed slices with
    | inl (inl _) => mkStep mc [] noResult true
    | inl (inr reason) => mkStep (setStage mc ConditionTypeInitialized ConditionUnknown reason now) [] noResult false
    | inr stored =>
        let node := labelInitialized stored in
        let initialized := setStage mc ConditionTypeInitialized ConditionTrue ConditionTypeInitialized now in
        if sameNode stored node then mkStep initialized [] noResult false
        else match patchNode with
             | CallOk => mkStep initialized [LPatchNode node] noResult false
             | _ => mkStep mc [] noResult true
             end
    end.

(** ** Giving up *)

(** [RegistrationTimeoutForNodePool], without the error it also reports *)
Definition RegistrationTimeoutForNodePool (pool : PoolRead) : Z :=
  let value := default ""%string (pr_Annotations pool !! NodePoolRegistrationTimeoutAnnotationKey) in
  if String.eqb value "" then registrationTimeout
  else match ParseDuration value with None => registrationTimeout | Some timeout => if timeout <=? 0 then registrationTimeout else timeout end.

(** [None] an error *)
Definition registrationTimeoutFor mc (pool : GetResult PoolRead) : option Z :=
  match nc_Labels (mc_claim mc) !! NodePoolLabelKey with
  | None => Some registrationTimeout
  | Some _ => match pool with NotFound => Some registrationTimeout | GetError => None | Found pool => Some (RegistrationTimeoutForNodePool pool) end
  end.

(** The reads and answers of liveness: the pool is read for the health of a failed
    launch, for the timeout and for the health of a failed registration. *)
Record LiveReads := mkLiveReads {
  lr_initializationTimeout : Z;
  lr_shadow : bool;
  lr_launchPool : GetResult PoolRead;
  lr_timeoutPool : GetResult PoolRead;
  lr_registrationPool : GetResult PoolRead;
  lr_patchPool : CallAnswer;
  lr_delete : CallAnswer;
}.

Definition timeLeft (timeout : Z) now (since : Z) : Z := wrap64 (timeout - timeSub now since).

(** Records the failure and deletes the NodeClaim; [inl] ends the step. *)
Definition failLaunch (health : HealthState) mc (pool : GetResult PoolRead) (reads : LiveReads)
    : option (HealthState * list (LifeEffect Q) * (Result * bool + ())) :=
  '(health, es, answer) ← updateHealth false unhealthyPatch health mc pool (lr_patchPool reads);
  match answer with
  | CallConflict => Some (health, es, inl (requeue, false))
  | CallError => Some (health, es, inl (noResult, true))
  | CallOk | CallNotFound =>
      match lr_delete reads with
      | CallOk => Some (health, es ++ [LDeleteClaim], inr ())
      | CallNotFound => Some (health, es, inl (noResult, false))
      | _ => Some (health, es, inl (noResult, true))
      end
  end.

Definition reconcileInitializationTimeout mc now (registered : Condition) (reads : LiveReads) : Step :=
  let timeout := lr_initializationTimeout reads in
  if timeout <=? 0 then mkStep mc [] noResult false
  else if isTrue mc ConditionTypeInitialized then mkStep mc [] noResult false
  else if cd_LastTransitionTime registered =? 0 then mkStep mc [] requeue false
  else
    let left := timeLeft timeout now (cd_LastTransitionTime registered) in
    if 0 <? left then mkStep mc [] (requeueAfter left) false
    else if lr_shadow reads then mkStep mc [] (requeueAfter timeout) false
    else match lr_delete reads with
         | CallOk => mkStep mc [LDeleteClaim] noResult false
         | CallNotFound => mkStep mc [] noResult false
         | _ => mkStep mc [] noResult true
         end.

(** The part of liveness about the registration. *)
Definition livenessRegistration (health : HealthState) mc now (registered : option Condition) (reads : LiveReads) effects : option (HealthState * Step) :=
  match registered with
  | None => Some (health, mkStep mc effects requeue false)
  | Some registered =>
      match registrationTimeoutFor mc (lr_timeoutPool reads) with
      | None => Some (health, mkStep mc effects noResult true)
      | Some timeout =>
          let left := timeLeft timeout now (cd_LastTransitionTime registered) in
          if 0 <? left then Some (health, mkStep mc effects (requeueAfter left) false)
          else
            '(health, es, ended) ← failLaunch health mc (lr_registrationPool reads) reads;
            let '(result, err) := match ended with inl re => re | inr _ => (noResult, false) end in
            Some (health, mkStep mc (effects ++ es) result err)
      end
  end.

Definition livenessUnregistered (health : HealthState) mc now (registered : option Condition) (reads : LiveReads) : option (HealthState * Step) :=
  match conditionsOf mc !! ConditionTypeLaunched with
  | None => Some (health, mkStep mc [] requeue false)
  | Some launched =>
      if String.eqb (cd_Status launched) ConditionTrue then livenessRegistration health mc now registered reads []
      else
        let left := timeLeft LaunchTimeout now (cd_LastTransitionTime launched) in
        if 0 <? left then Some (health, mkStep mc [] (requeueAfter left) false)
        else
          '(health, es, ended) ← failLaunch health mc (lr_launchPool reads) reads;
          match ended with
          | inl (result, err) => Some (health, mkStep mc es result err)
          | inr _ => livenessRegistration health mc now registered reads es
          end
  end.

(** [Liveness.Reconcile] *)
Definition Liveness (health : HealthState) mc now (reads : LiveReads) : option (HealthState * Step) :=
  match conditionsOf mc !! ConditionTypeRegistered with
  | Some registered as found =>
      if String.eqb (cd_Status registered) ConditionTrue then Some (health, reconcileInitializationTimeout mc now registered reads)
      else livenessUnregistered health mc now found reads
  | None => livenessUnregistered health mc now None reads
  end.

(** ** Finalizing *)

(** [Time.Format(time.RFC3339)] is [formatRFC3339]. *)
Context (formatRFC3339 : Z → string).

Record FinalReads := mkFinalReads {
  lf_annotate : CallAnswer;
  lf_nodes : option (list (RegNode Q));
  lf_deleteNode : string → bool;                 (* deleted or not found *)
  lf_deleteInstance : InstanceAnswer;
  lf_patchStatus : CallAnswer;
  lf_nodesLeft : option (list (RegNode Q));      (* after the instance is gone *)
  lf_removeFinalizer : CallAnswer;
}.

(** The time the NodeClaim is terminated at the latest, if it is to be noted. *)
Definition terminationTime mc : option string :=
  let c := mc_claim mc in
  match nc_Annotations c !! NodeClaimTerminationTimestampAnnotationKey, nc_TerminationGracePeriod c, nc_DeletionTimestamp c with
  | None, Some grace, Some deleted => Some (formatRFC3339 (deleted + grace))
  | _, _, _ => None
  end.

(** Deletes the nodes not yet being deleted, until a call fails. *)
Fixpoint deleteNodes (deleted : string → bool) (nodes : list (RegNode Q)) : list (LifeEffect Q) * bool :=
  match nodes with
  | [] => ([], true)
  | node :: nodes =>
      match n_DeletionTimestamp (rn_node node) with
      | Some _ => deleteNodes deleted nodes
      | None =>
          if deleted (n_Name (rn_node node))
          then let '(effects, ok) := deleteNodes deleted nodes in (LDeleteNode (n_Name (rn_node node)) :: effects, ok)
          else ([], false)
      end
  end.

(** The end of a reconcile: a result, or an error. *)
Definition Outcome : Type := Result + ().

Definition removeClaimFinalizer (reads : FinalReads) : list (LifeEffect Q) * Outcome :=
  match lf_removeFinalizer reads with
  | CallOk => ([LRemoveFinalizer], inl noResult)
  | CallConflict => ([], inl requeue)
  | CallNotFound => ([], inl noResult)
  | CallError => ([], inr ())
  end.

(** The instance is told to go and the status says so; once it is gone the nodes that
    never registered are deleted. *)
Definition finalizeInstance mc now (reads : FinalReads) : list (LifeEffect Q) * Outcome :=
  match lf_deleteInstance reads with
  | InstanceError => ([], inr ())
  | answer =>
      let conds := SetTrue (conditionsOf mc) ConditionTypeInstanceTerminating now in
      let changed := negb (bool_decide (conds = conditionsOf mc)) in
      match changed, lf_patchStatus reads with
      | true, CallNotFound => ([LDeleteInstance], inl noResult)
      | true, CallConflict => ([LDeleteInstance], inl requeue)
      | true, CallError => ([LDeleteInstance], inr ())
      | _, _ =>
          let effects := LDeleteInstance :: (if changed then [LPatchStatus (withConditions mc conds)] else []) in
          match answer with
          | InstanceFound => (effects, inl (requeueAfter (5 * Second)))
          | _ =>
              match AllNodesForNodeClaim mc (lf_nodesLeft reads) with
              | None => (effects, inr ())
              | Some nodes =>
                  let '(deleted, ok) := deleteNodes (lf_deleteNode reads) nodes in
                  if negb ok then (effects ++ deleted, inr ())
                  else let '(removed, outcome) := removeClaimFinalizer reads in (effects ++ deleted ++ removed, outcome)
              end
          end
      end
  end.

(** [Controller.finalize] after the annotation *)
Definition finalizeNodes mc now (reads : FinalReads) : list (LifeEffect Q) * Outcome :=
  let instance :=
    if String.eqb (nc_ProviderID (mc_claim mc)) "" then removeClaimFinalizer reads else finalizeInstance mc now reads in
  if negb (isTrue mc ConditionTypeRegistered) then instance
  else
    match AllNodesForNodeClaim mc (lf_nodes reads) with
    | None => ([], inr ())
    | Some nodes =>
        let '(effects, ok) := deleteNodes (lf_deleteNode reads) nodes in
        if negb ok then (effects, inr ())
        else match nodes with [] => instance | _ => (effects, inl noResult) end
    end.

Definition finalizeClaim mc now (reads : FinalReads) : list (LifeEffect Q) * Outcome :=
  if negb (mc_Finalizer mc) then ([], inl noResult)
  else
    match terminationTime mc, lf_annotate reads with
    | Some _, CallConflict => ([], inl requeue)
    | Some _, CallError => ([], inr ())
    | Some time, answer =>
        let '(effects, outcome) := finalizeNodes mc now reads in
        ((match answer with CallOk => [LAnnotate time] | _ => [] end) ++ effects, outcome)
    | None, _ => finalizeNodes mc now reads
    end.

(** ** Reconciling *)

Record LifeReads := mkLifeReads {
  le_now : Z;
  le_managed : bool;
  le_addFinalizer : CallAnswer;
  le_create : CreateAnswer Q;
  le_deleteFailed : CallAnswer;
  le_registration : RegReads;
  le_ignoreDRA : bool;
  le_initNodes : option (list (RegNode Q));
  le_slices : option (list Slice);
  le_patchInitialized : CallAnswer;
  le_liveness : LiveReads;
  le_patchClaim : CallAnswer;
  le_patchStatus : CallAnswer;
  le_countsAsNotFound : bool;                    (* the errors so far combined with one that is not found *)
  le_final : FinalReads;
}.

Definition LifeState : Type := LaunchCache * HealthState.

(** The four steps in turn, none of which keeps the others from running. *)
Definition runSteps (st : LifeState) mc (reads : LifeReads) : option (LifeState * ManagedClaim Q * list (LifeEffect Q) * list Result * bool) :=
  let now := le_now reads in
  let '(cache, s1) := Launch st.1 mc now (le_create reads) (le_deleteFailed reads) in
  '(health, s2) ← Registration st.2 (st_claim s1) now (le_registration reads);
  let s3 := Initialization (le_ignoreDRA reads) (st_claim s2) now (le_initNodes reads) (le_slices reads) (le_patchInitialized reads) in
  '(health, s4) ← Liveness health (st_claim s3) now (le_liveness reads);
  Some ((cache, health), st_claim s4, st_effects s1 ++ st_effects s2 ++ st_effects s3 ++ st_effects s4,
        [st_result s1; st_result s2; st_result s3; st_result s4], st_error s1 || st_error s2 || st_error s3 || st_error s4).

Definition withFinalizer mc : ManagedClaim Q :=
  mkManagedClaim (mc_UID mc) (mc_claim mc) (mc_Requests mc) (mc_ImageID mc) (mc_NodeName mc) (mc_Owners mc) true.

(** [Controller.Reconcile]; [changed] tells whether the steps changed the NodeClaim. *)
Definition ReconcileClaim (changed : ManagedClaim Q → ManagedClaim Q → bool) (st : LifeState) mc (reads : LifeReads)
    : option (LifeState * list (LifeEffect Q) * Outcome) :=
  if negb (le_managed reads) then Some (st, [], inl noResult)
  else
    match nc_DeletionTimestamp (mc_claim mc) with
    | Some _ => let '(effects, outcome) := finalizeClaim mc (le_now reads) (le_final reads) in Some (st, effects, outcome)
    | None =>
        match mc_Finalizer mc, le_addFinalizer reads with
        | false, CallConflict => Some (st, [], inl requeue)
        | false, CallNotFound => Some (st, [], inl noResult)
        | false, CallError => Some (st, [], inr ())
        | had, _ =>
            let added := if had then [] else [LAddFinalizer] in
            let mc := withFinalizer mc in
            '(st, mc', effects, results, err) ← runSteps st mc reads;
            let effects := added ++ effects in
            let finish := if err : bool then inr () else inl (minResult results) in
            if negb (changed mc mc') then Some (st, effects, finish)
            else
              match le_patchClaim reads, le_patchStatus reads with
              | CallOk, CallOk => Some (st, effects ++ [LPatchClaim mc'; LPatchStatus mc'], finish)
              | CallOk, CallNotFound => Some (st, effects ++ [LPatchClaim mc'], if err && negb (le_countsAsNotFound reads) then inr () else inl noResult)
              | CallOk, _ => Some (st, effects ++ [LPatchClaim mc'], inr ())
              | CallNotFound, _ => Some (st, effects, if err && negb (le_countsAsNotFound reads) then inr () else inl noResult)
              | _, _ => Some (st, effects, inr ())
              end
        end
    end.
End lifecycle.

(** * Theory *)

(** ** Conditions *)

Section stage_theory.
Context {TL : TaintLib} {PS : Parsers} {CL : ConditionLib} {CLaws : ConditionLaws} {GR : GoRange} {Q : Type} `{Quantity Q}.
Implicit Types (mc : ManagedClaim Q) (now : Z) (node : RegNode Q).

Definition stageTypes : list string := [ConditionTypeLaunched; ConditionTypeRegistered; ConditionTypeInitialized].

Lemma stage_not_ready type : type ∈ stageTypes → type ≠ ConditionReady.
Proof. unfold stageTypes. rewrite !elem_of_cons, elem_of_nil. by intros [->|[->|[->|[]]]]. Qed.

Lemma setStage_same mc type status reason now : type ∈ stageTypes →
  ∃ c, conditionsOf (setStage mc type status reason now) !! type = Some c ∧ cd_Status c = status.
Proof. intros Ht. destruct (set_status (conditionsOf mc) type status reason now (stage_not_ready _ Ht)) as (c & Hc & Hs & _). by exists c. Qed.

Lemma setStage_other mc type status reason now type' : type' ∈ stageTypes → type' ≠ type →
  conditionsOf (setStage mc type status reason now) !! type' = conditionsOf mc !! type'.
Proof. intros Ht Hne. apply set_other; [done|by apply stage_not_ready]. Qed.

Lemma setStage_true mc type status reason now : type ∈ stageTypes → isTrue (setStage mc type status reason now) type = String.eqb status ConditionTrue.
Proof. intros Ht. unfold isTrue, conditionTrue. destruct (setStage_same mc type status reason now Ht) as (c & -> & ->). done. Qed.

Lemma setStage_true_other mc type status reason now type' : type' ∈ stageTypes → type' ≠ type →
  isTrue (setStage mc type status reason now) type' = isTrue mc type'.
Proof. intros. unfold isTrue, conditionTrue. by rewrite setStage_other. Qed.

(** One condition may have changed, and only if it was unknown. *)
Definition only_stage (type : string) mc mc' : Prop :=
  ∀ t, t ∈ stageTypes → t ≠ type ∨ isUnknown mc t = false → conditionsOf mc' !! t = conditionsOf mc !! t.

Lemma only_stage_refl type mc : only_stage type mc mc.
Proof. done. Qed.

Lemma setStage_only type mc mc' status reason now : conditionsOf mc' = conditionsOf mc → isUnknown mc type = true → type ∈ stageTypes →
  only_stage type mc (setStage mc' type status reason now).
Proof.
  intros Hc Hu Ht t Hin Hor. rewrite setStage_other; [by rewrite Hc|done|]. intros ->. destruct Hor as [?|?]; [done|congruence].
Qed.

(** The stages follow one another. *)
Record stages mc : Prop := {
  sg_registered : isTrue mc ConditionTypeRegistered = true → nc_ProviderID (mc_claim mc) ≠ ""%string;
  sg_initialized : isTrue mc ConditionTypeInitialized = true → isTrue mc ConditionTypeRegistered = true;
}.

(** *** Launching *)

Lemma Launch_spec cache mc now answer delete cache' s :
  Launch cache mc now answer delete = (cache', s) → stages mc →
  (∀ claim imageID, answer = Created claim imageID → nc_ProviderID claim ≠ ""%string) →
  (∀ uid claim imageID expires, cache !! uid = Some (claim, imageID, expires) → nc_ProviderID claim ≠ ""%string) →
  stages (st_claim s) ∧ only_stage ConditionTypeLaunched mc (st_claim s).
Proof.
  assert (ConditionTypeLaunched ∈ stageTypes) as Hin by (unfold stageTypes; set_solver).
  assert (∀ mc' status reason, conditionsOf mc' = conditionsOf mc → (isTrue mc ConditionTypeRegistered = true → nc_ProviderID (mc_claim mc') ≠ ""%string) → stages mc →
    stages (setStage mc' ConditionTypeLaunched status reason now)) as Hset.
  { intros mc' status reason Hc Hid [Hr Hi].
    assert (∀ t, t ∈ stageTypes → t ≠ ConditionTypeLaunched → isTrue (setStage mc' ConditionTypeLaunched status reason now) t = isTrue mc t) as Heq.
    { intros t Ht Hne. rewrite setStage_true_other by done. unfold isTrue. by rewrite Hc. }
    split; rewrite !Heq by (unfold stageTypes; set_solver || done); [apply Hid|apply Hi]. }
  unfold Launch. intros Hrun Hst Hans Hcache. destruct (isUnknown mc ConditionTypeLaunched) eqn:Hu; cbn [negb] in Hrun.
  2:{ by injection Hrun as <- <-. }
  assert (∀ claim imageID, nc_ProviderID claim ≠ ""%string →
    stages (setStage (PopulateNodeClaimDetails mc claim imageID) ConditionTypeLaunched ConditionTrue ConditionTypeLaunched now) ∧
    only_stage ConditionTypeLaunched mc (setStage (PopulateNodeClaimDetails mc claim imageID) ConditionTypeLaunched ConditionTrue ConditionTypeLaunched now)) as Hpop.
  { intros claim imageID Hid. split; [by apply Hset|by apply setStage_only]. }
  destruct (cachedLaunch cache now (mc_UID mc)) as [[claim imageID]|] eqn:Hget.
  { injection Hrun as <- <-. apply Hpop. unfold cachedLaunch in Hget. apply bind_Some in Hget as ([[c i] e] & Hl & Hget).
    destruct (e <? now); [done|]. injection Hget as <- <-. by eapply Hcache. }
  unfold launchNodeClaim in Hrun. destruct answer as [claim imageID| | |reason retryAfter|reason]; injection Hrun as <- <-; cbn [st_claim].
  - apply Hpop. by eapply Hans.
  - done.
  - done.
  - split; [apply Hset; [done|apply Hst|done]|by apply setStage_only].
  - split; [apply Hset; [done|apply Hst|done]|by apply setStage_only].
Qed.

(** *** Registering *)

(** Hooks may change labels and annotations of the NodeClaim, not its stage. *)
Definition hooks_keep (f : ManagedClaim Q → ManagedClaim Q) : Prop :=
  ∀ mc, conditionsOf (f mc) = conditionsOf mc ∧ nc_ProviderID (mc_claim (f mc)) = nc_ProviderID (mc_claim mc) ∧ mc_UID (f mc) = mc_UID mc.

(** The node as registration leaves it: it has the finalizer, belongs to the
    NodeClaim and is labelled, and the taint that kept pods away is gone. *)
Record registered_node mc node : Prop := {
  rg_finalizer : rn_Finalizer node = true;
  rg_owned : mc_UID mc ∈ rn_Owners node;
  rg_label : n_Labels (rn_node node) !! NodeRegisteredLabelKey = Some "true"%string;
  rg_taint : ∀ t, t ∈ n_Taints (rn_node node) → MatchTaint t UnregisteredNoExecuteTaint = false;
}.

Lemma completeNode_registered mc node : registered_node mc (completeNode (syncNode mc node)).
Proof.
  split; cbn; [done| |apply lookup_insert_eq|].
  - case_bool_decide; [done|]. apply elem_of_app. right. by left.
  - intros t [_ Ht]%elem_of_filter_list. by apply negb_true_iff.
Qed.

(** The only node of the NodeClaim is as registration leaves it. *)
Definition node_registered mc (listed : option (list (RegNode Q))) (effects : list (LifeEffect Q)) : Prop :=
  ∃ stored node, AllNodesForNodeClaim mc listed = Some [stored] ∧ registered_node mc node ∧ (LPatchNode node ∈ effects ∨ sameNode stored node = true).

Lemma hooks_spec mc f now hooks mc' r err :
  checkRegistrationHooks mc f now hooks = (mc', r, err) → hooks_keep f → isUnknown mc ConditionTypeRegistered = true →
  nc_ProviderID (mc_claim mc') = nc_ProviderID (mc_claim mc) ∧ mc_UID mc' = mc_UID mc ∧ only_stage ConditionTypeRegistered mc mc' ∧
  isTrue mc' ConditionTypeRegistered = false.
Proof.
  intros Hrun Hf Hu. assert (isTrue mc ConditionTypeRegistered = false) as Hnt.
  { unfold isTrue, conditionTrue, isUnknown, conditionUnknown in *. destruct (conditionsOf mc !! ConditionTypeRegistered) as [c|]; [|done].
    apply String.eqb_eq in Hu. by rewrite Hu. }
  unfold checkRegistrationHooks in Hrun. destruct hooks as [|h hooks]; [by injection Hrun as <- <- <-|]. destruct (Hf mc) as (Hc & Hid & Huid).
  destruct (existsb isPending (h :: hooks)); injection Hrun as <- <- <-.
  - split_and!; [done|done|by apply setStage_only; [| |unfold stageTypes; set_solver]|]. by rewrite setStage_true by (unfold stageTypes; set_solver).
  - split_and!; [done|done| |]; [intros t _ _; by rewrite Hc|]. unfold isTrue. by rewrite Hc.
Qed.

Lemma only_stage_trans type mc mc' mc'' : only_stage type mc mc' → only_stage type mc' mc'' → (isUnknown mc type = true → isUnknown mc' type = true) → only_stage type mc mc''.
Proof.
  intros H1 H2 Hk t Ht Hor. rewrite H2; [by apply H1|done|]. destruct (decide (t = type)) as [->|Hne]; [|by left]. right. destruct Hor as [?|Hu]; [done|].
  unfold isUnknown, conditionUnknown in *. rewrite H1; [done|done|by right].
Qed.

Lemma stages_registered mc mc' : stages mc → only_stage ConditionTypeRegistered mc mc' → isUnknown mc ConditionTypeRegistered = true →
  (isTrue mc' ConditionTypeRegistered = true → nc_ProviderID (mc_claim mc') ≠ ""%string) → stages mc'.
Proof.
  intros [Hr Hi] Honly Hu Hid. split; [done|]. intros Hinit.
  assert (isTrue mc ConditionTypeInitialized = true) as Hinit'.
  { unfold isTrue, conditionTrue in *. rewrite Honly in Hinit; [done|unfold stageTypes; set_solver|by left]. }
  apply Hi in Hinit'. exfalso. unfold isTrue, conditionTrue, isUnknown, conditionUnknown in *. destruct (conditionsOf mc !! ConditionTypeRegistered) as [c|]; [|done].
  apply String.eqb_eq in Hu. by rewrite Hu in Hinit'.
Qed.

Lemma completeRegistration_spec health mc node now reads effects health' s :
  completeRegistration health mc node now reads effects = Some (health', s) →
  conditionsOf (st_claim s) = conditionsOf (setStage mc ConditionTypeRegistered ConditionTrue ConditionTypeRegistered now) ∧
  nc_ProviderID (mc_claim (st_claim s)) = nc_ProviderID (mc_claim mc) ∧ ∃ es, st_effects s = effects ++ es.
Proof. intros ([[h es] answer] & _ & Heq)%bind_Some. injection Heq as <- <-. split_and!; [done|done|by eexists]. Qed.

Lemma Registration_spec health mc now reads health' s :
  Registration health mc now reads = Some (health', s) → stages mc → hooks_keep (rr_afterHooks reads) →
  stages (st_claim s) ∧ only_stage ConditionTypeRegistered mc (st_claim s) ∧
  (isTrue mc ConditionTypeRegistered = false → isTrue (st_claim s) ConditionTypeRegistered = true → node_registered mc (rr_nodes reads) (st_effects s)).
Proof.
  assert (ConditionTypeRegistered ∈ stageTypes) as Hin by (unfold stageTypes; set_solver).
  unfold Registration. intros Hrun Hst Hf. destruct (isUnknown mc ConditionTypeRegistered) eqn:Hu; cbn [negb] in Hrun.
  2:{ injection Hrun as <- <-. split_and!; [done|done|]. cbn [st_claim]. congruence. }
  assert (∀ status reason, String.eqb status ConditionTrue = false → let s := setStage mc ConditionTypeRegistered status reason now in
    stages s ∧ only_stage ConditionTypeRegistered mc s ∧ isTrue s ConditionTypeRegistered = false) as Hset.
  { intros status reason Hs sc. assert (isTrue sc ConditionTypeRegistered = false) as Hf' by (unfold sc; by rewrite setStage_true).
    assert (only_stage ConditionTypeRegistered mc sc) as Ho by by apply setStage_only. split_and!; [|done|done].
    eapply stages_registered; [done|done|done|congruence]. }
  unfold NodeForNodeClaim in Hrun. destruct (AllNodesForNodeClaim mc (rr_nodes reads)) as [[|stored [|? ?]]|] eqn:Hlist.
  - injection Hrun as <- <-. destruct (Hset ConditionUnknown "NodeNotFound"%string eq_refl) as (? & ? & Hf'). split_and!; [done|done|]. cbn [st_claim]. congruence.
  - destruct (checkRegistrationHooks mc (rr_afterHooks reads) now (rr_hooks reads)) as [[mc1 hr] he] eqn:Hh.
    destruct (hooks_spec _ _ _ _ _ _ _ Hh Hf Hu) as (Hid & Huid & Honly & Hnt).
    assert (stages mc1) as Hst1 by (eapply stages_registered; [done|done|done|congruence]).
    set (node := if isEmptyResult hr && negb he then _ else _) in Hrun.
    assert (∀ s', st_claim s' = mc1 → Some (health, s') = Some (health', s) → stages (st_claim s) ∧ only_stage ConditionTypeRegistered mc (st_claim s) ∧
      (isTrue mc ConditionTypeRegistered = false → isTrue (st_claim s) ConditionTypeRegistered = true → node_registered mc (rr_nodes reads) (st_effects s))) as Hstay.
    { intros s' Hs' [= <- <-]. rewrite Hs'. split_and!; [done|done|congruence]. }
    destruct (if sameNode stored node then _ else _) as [effects patched] eqn:Hpatch.
    destruct patched; try (by eapply Hstay; [|exact Hrun]).
    destruct (isEmptyResult hr && negb he); cbn [negb] in Hrun; [|by eapply Hstay; [|exact Hrun]].
    apply completeRegistration_spec in Hrun as (Hc & Hid' & es & Hes).
    assert (only_stage ConditionTypeRegistered mc (st_claim s)) as Ho.
    { intros t Ht Hor. rewrite Hc. rewrite setStage_other; [by apply Honly|done|]. intros ->. destruct Hor as [?|?]; [done|congruence]. }
    split_and!; [|done|].
    + apply (stages_registered mc); [done|done|done|]. intros _. rewrite Hid', Hid. intros Hempty. unfold AllNodesForNodeClaim in Hlist. by rewrite Hempty in Hlist.
    + intros _ _. exists stored, node. split_and!; [done| |].
      * pose proof (completeNode_registered mc1 (syncNode mc stored)) as [H1 H2 H3 H4]. rewrite Huid in H2. by split.
      * destruct (sameNode stored node); [by right|left]. rewrite Hes. injection Hpatch as <- Hok. rewrite Hok. apply elem_of_app. left. by left.
  - injection Hrun as <- <-. destruct (Hset ConditionFalse "MultipleNodesFound"%string eq_refl) as (? & ? & Hf'). split_and!; [done|done|]. cbn [st_claim]. congruence.
  - injection Hrun as <- <-. split_and!; [done|done|]. cbn [st_claim]. congruence.
Qed.

(** *** Initialising *)

(** The drivers the NodeClaim names each have a pool all of whose slices are there, among
    the slices of the node. *)
Definition drivers_published mc node (slices : list Slice) : Prop :=
  ∀ annotation driver, nc_Annotations (mc_claim mc) !! DRADriversAnnotationKey = Some annotation →
    driver ∈ TrimSpace <$> splitComma (TrimSpace annotation) → driver ≠ ""%string →
    driver ∈ completePoolDrivers (List.filter (λ s, sliceBelongsToNode s (n_Name (rn_node node))) slices).

(** The only node of the NodeClaim is ready, none of its startup and temporary taints
    are left, it has all resources that were asked for, and all drivers have
    published their pools. *)
Definition node_initialized (ignoreDRA : bool) mc (listed : option (list (RegNode Q))) (slices : option (list Slice)) : Prop :=
  ∃ node, AllNodesForNodeClaim mc listed = Some [node] ∧ conditionTrue (n_Conditions (rn_node node)) "Ready" = true ∧
    (∀ t, t ∈ n_Taints (rn_node node) → IsKnownEphemeralTaint (Some t) = false ∧ ∀ s, s ∈ nc_StartupTaints (mc_claim mc) → MatchTaint s t = false) ∧
    (∀ k q, mc_Requests mc !! k = Some q → IsZero q = false → IsZero (default qzero (n_Allocatable (rn_node node) !! k)) = false) ∧
    (ignoreDRA = true ∨ nc_Annotations (mc_claim mc) !! DRADriversAnnotationKey = None ∨ ∃ l, slices = Some l ∧ drivers_published mc node l).

Lemma existsb_none {A} (f : A → bool) l : existsb f l = false ↔ ∀ x, x ∈ l → f x = false.
Proof.
  rewrite <- not_true_iff_false, existsb_exists. setoid_rewrite <- list_elem_of_In. split.
  - intros Hno x Hx. destruct (f x) eqn:Hf; [|done]. destruct Hno. by exists x.
  - intros Hall (x & Hx & Hf). by rewrite Hall in Hf.
Qed.

Lemma draDriverPoolsPublished_spec ignoreDRA mc node slices : draDriverPoolsPublished ignoreDRA mc node slices = Some None →
  ignoreDRA = true ∨ nc_Annotations (mc_claim mc) !! DRADriversAnnotationKey = None ∨ ∃ l, slices = Some l ∧ drivers_published mc node l.
Proof.
  unfold draDriverPoolsPublished, DRADriversPublished, drivers_published. destruct ignoreDRA; [by left|]. intros Hrun. right.
  destruct (nc_Annotations (mc_claim mc) !! DRADriversAnnotationKey) as [a|] eqn:Ha; [right|by left]. apply bind_Some in Hrun as (l & -> & Hrun). exists l.
  split; [done|]. intros annotation driver [= <-] Hin Hne. rewrite ?Ha in Hrun. cbn [default from_option id] in Hrun. injection Hrun as Hrun.
  destruct (String.eqb_spec (TrimSpace a) "") as [Hempty|_].
  { rewrite Hempty in Hin. vm_compute in Hin. apply list_elem_of_singleton in Hin. done. }
  apply find_none with (x := driver) in Hrun; [|by apply list_elem_of_In]. apply String.eqb_neq in Hne. rewrite Hne in Hrun. cbn [negb andb] in Hrun.
  apply bool_decide_eq_false in Hrun. destruct (decide (driver ∈ completePoolDrivers (List.filter (λ s, sliceBelongsToNode s (n_Name (rn_node node))) l))); done.
Qed.

Lemma notInitialized_spec ignoreDRA mc listed slices node :
  notInitialized ignoreDRA mc listed slices = inr node → node_initialized ignoreDRA mc listed slices.
Proof.
  unfold notInitialized, NodeForNodeClaim, node_initialized. destruct (AllNodesForNodeClaim mc listed) as [[|n [|? ?]]|]; try done.
  destruct (conditionTrue _ "Ready") eqn:Hready; cbn [negb]; [|done]. destruct (StartupTaintsRemoved mc n) eqn:Hs; cbn [negb]; [|done].
  destruct (KnownEphemeralTaintsRemoved n) eqn:He; cbn [negb]; [|done]. destruct (RequestedResourcesRegistered mc n) eqn:Hr; cbn [negb]; [|done].
  destruct (draDriverPoolsPublished ignoreDRA mc n slices) as [[driver|]|] eqn:Hd; [done| |done]. intros _. exists n.
  split_and!; [done|done| |  |by apply draDriverPoolsPublished_spec].
  - unfold StartupTaintsRemoved, KnownEphemeralTaintsRemoved in *. apply negb_true_iff in Hs, He. rewrite existsb_none in Hs, He. intros t Ht. split; [by apply He|].
    intros st Hst. specialize (Hs st Hst). rewrite existsb_none in Hs. by apply Hs.
  - intros k q Hk Hz. unfold RequestedResourcesRegistered in Hr. rewrite forallb_forall in Hr. specialize (Hr (k, q)).
    rewrite <- list_elem_of_In, elem_of_gorange in Hr. specialize (Hr Hk). cbn [fst snd] in Hr. rewrite Hz in Hr. by apply negb_true_iff.
Qed.

Lemma Initialization_spec ignoreDRA mc now listed slices patch :
  let s := Initialization ignoreDRA mc now listed slices patch in stages mc →
  stages (st_claim s) ∧ only_stage ConditionTypeInitialized mc (st_claim s) ∧
  (isTrue mc ConditionTypeInitialized = false → isTrue (st_claim s) ConditionTypeInitialized = true → node_initialized ignoreDRA (st_claim s) listed slices).
Proof.
  assert (ConditionTypeInitialized ∈ stageTypes) as Hin by (unfold stageTypes; set_solver). assert (ConditionTypeRegistered ∈ stageTypes) as Hin' by (unfold stageTypes; set_solver).
  intros s Hst. unfold s, Initialization. clear s. destruct (isUnknown mc ConditionTypeInitialized) eqn:Hu; cbn [negb].
  2:{ cbn [st_claim]. split_and!; [done|done|congruence]. }
  destruct (isTrue mc ConditionTypeRegistered) eqn:Hreg; cbn [negb]; [|cbn [st_claim]; split_and!; [done|done|congruence]].
  assert (∀ status reason, stages (setStage mc ConditionTypeInitialized status reason now) ∧ only_stage ConditionTypeInitialized mc (setStage mc ConditionTypeInitialized status reason now)) as Hset.
  { intros status reason. split; [|by apply setStage_only]. destruct Hst as [Hr Hi]. split; rewrite !(setStage_true_other _ _ _ _ _ ConditionTypeRegistered) by done; [exact Hr|done]. }
  destruct (notInitialized ignoreDRA mc listed slices) as [[e|reason]|stored] eqn:Hn.
  - cbn [st_claim]. split_and!; [done|done|congruence].
  - cbn [st_claim]. destruct (Hset ConditionUnknown reason). split_and!; [done|done|]. rewrite setStage_true by done. done.
  - apply notInitialized_spec in Hn. destruct (Hset ConditionTrue ConditionTypeInitialized). destruct (sameNode stored _); [by split_and!|].
    destruct patch; cbn [st_claim]; split_and!; (done || congruence).
Qed.

(** *** Giving up *)

Lemma livenessRegistration_claim health mc now registered reads effects health' s :
  livenessRegistration health mc now registered reads effects = Some (health', s) → st_claim s = mc.
Proof.
  unfold livenessRegistration. destruct registered as [c|]; [|by intros [= <- <-]]. destruct (registrationTimeoutFor _ _) as [timeout|]; [|by intros [= <- <-]].
  cbv zeta. destruct (0 <? _); [by intros [= <- <-]|]. intros ([[h es] ended] & _ & Heq)%bind_Some. destruct ended as [[? ?]|]; by injection Heq as <- <-.
Qed.

Lemma Liveness_claim health mc now reads health' s : Liveness health mc now reads = Some (health', s) → st_claim s = mc.
Proof.
  assert (∀ registered, livenessUnregistered health mc now registered reads = Some (health', s) → st_claim s = mc) as Hun.
  { intros registered. unfold livenessUnregistered. destruct (conditionsOf mc !! ConditionTypeLaunched) as [launched|]; [|by intros [= <- <-]].
    destruct (String.eqb _ _); [apply livenessRegistration_claim|]. cbv zeta. destruct (0 <? _); [by intros [= <- <-]|].
    intros ([[h es] [[? ?]|]] & _ & Heq)%bind_Some; [by injection Heq as <- <-|by eapply livenessRegistration_claim]. }
  unfold Liveness. destruct (conditionsOf mc !! ConditionTypeRegistered) as [registered|]; [|apply Hun]. destruct (String.eqb _ _); [|apply Hun].
  intros [= <- <-]. unfold reconcileInitializationTimeout. cbv zeta. destruct (_ <=? 0); [done|]. destruct (isTrue _ _); [done|]. destruct (_ =? 0); [done|].
  destruct (0 <? _); [done|]. destruct (lr_shadow reads); [done|]. by destruct (lr_delete reads).
Qed.

(** C25. A NodeClaim goes through its stages in order.  In every reconcile, whatever is
    read and answered, a stage that was decided stays as it is, only a NodeClaim with
    an instance is registered, and only a registered one initialised.  It is registered
    only when the one node of its instance carries the finalizer, belongs to it and has
    lost the taint that kept pods away.  It is initialised only when the one node of
    the NodeClaim the reconcile writes is ready, without the startup taints of that
    NodeClaim and without temporary ones, with all resources the NodeClaim requests,
    and with a complete pool for each driver it names. *)
Theorem lifecycle_stages (st : LifeState) mc reads st' mc' effects results err (Hrun : runSteps st mc reads = Some (st', mc', effects, results, err))
    (Hst : stages mc) (Hhooks : hooks_keep (rr_afterHooks (le_registration reads)))
    (Hcreate : ∀ claim imageID, le_create reads = Created claim imageID → nc_ProviderID claim ≠ ""%string)
    (Hcache : ∀ uid claim imageID expires, st.1 !! uid = Some (claim, imageID, expires) → nc_ProviderID claim ≠ ""%string) :
  stages mc' ∧ (∀ t, t ∈ stageTypes → isUnknown mc t = false → conditionsOf mc' !! t = conditionsOf mc !! t) ∧
  (isTrue mc ConditionTypeRegistered = false → isTrue mc' ConditionTypeRegistered = true →
     let mc1 := st_claim (Launch st.1 mc (le_now reads) (le_create reads) (le_deleteFailed reads)).2 in
     mc_UID mc1 = mc_UID mc ∧ node_registered mc1 (rr_nodes (le_registration reads)) effects) ∧
  (isTrue mc ConditionTypeInitialized = false → isTrue mc' ConditionTypeInitialized = true →
     isTrue mc' ConditionTypeRegistered = true ∧ node_initialized (le_ignoreDRA reads) mc' (le_initNodes reads) (le_slices reads)).
Proof.
  unfold runSteps in Hrun. cbv zeta in Hrun. destruct (Launch _ _ _ _ _) as [cache s1] eqn:H1.
  apply bind_Some in Hrun as ([health s2] & H2 & Hrun). set (s3 := Initialization _ _ _ _ _ _) in Hrun.
  apply bind_Some in Hrun as ([health' s4] & H4 & Hrun). injection Hrun as <- <- <- <- <-.
  destruct (Launch_spec _ _ _ _ _ _ _ H1 Hst Hcreate Hcache) as [Hst1 Ho1]. destruct (Registration_spec _ _ _ _ _ _ H2 Hst1 Hhooks) as (Hst2 & Ho2 & Hreg).
  destruct (Initialization_spec (le_ignoreDRA reads) (st_claim s2) (le_now reads) (le_initNodes reads) (le_slices reads) (le_patchInitialized reads) Hst2) as (Hst3 & Ho3 & Hinit).
  fold s3 in Hst3, Ho3, Hinit. rewrite (Liveness_claim _ _ _ _ _ _ H4).
  assert (ConditionTypeRegistered ∈ stageTypes) as Hir by (unfold stageTypes; set_solver). assert (ConditionTypeInitialized ∈ stageTypes) as Hii by (unfold stageTypes; set_solver).
  assert (∀ (a b : ManagedClaim Q) t, conditionsOf a !! t = conditionsOf b !! t → isTrue a t = isTrue b t ∧ isUnknown a t = isUnknown b t) as Hsame.
  { intros a b t Heq. unfold isTrue, conditionTrue, isUnknown, conditionUnknown. by rewrite Heq. }
  split_and!; [done| | |].
  - intros t Ht Hu. assert (conditionsOf (st_claim s1) !! t = conditionsOf mc !! t) as E1 by (apply Ho1; [done|by right]).
    assert (conditionsOf (st_claim s2) !! t = conditionsOf mc !! t) as E2.
    { rewrite <- E1. apply Ho2; [done|right]. by rewrite (proj2 (Hsame _ _ _ E1)). }
    rewrite <- E2. apply Ho3; [done|right]. by rewrite (proj2 (Hsame _ _ _ E2)).
  - intros Hf Ht. cbn [fst snd]. split.
    + unfold Launch in H1. destruct (negb _); [by injection H1 as <- <-|]. destruct (cachedLaunch _ _ _) as [[? ?]|]; [by injection H1 as <- <-|].
      unfold launchNodeClaim in H1. destruct (le_create reads); by injection H1 as <- <-.
    + assert (node_registered (st_claim s1) (rr_nodes (le_registration reads)) (st_effects s2)) as (stored & node & Hl & Hn & Hor).
      { apply Hreg.
        - rewrite <- Hf. apply Hsame. apply Ho1; [done|by left].
        - rewrite <- Ht. symmetry. apply Hsame. apply Ho3; [done|by left]. }
      exists stored, node. split_and!; [done|done|]. destruct Hor as [Hin|?]; [left|by right]. rewrite !elem_of_app. tauto.
  - intros Hf Ht. split; [by apply Hst3|]. apply Hinit; [|done]. rewrite <- Hf. apply Hsame.
    rewrite Ho2; [apply Ho1; [done|by left]|done|by left].
Qed.

(** ** One instance per NodeClaim *)

(** The launch cache, the NodeClaim as stored, whether a reconcile has seen it
    launched, and how many instances were created for it. *)
Record LaunchRun := mkLaunchRun {
  lw_cache : gmap string (NodeClaim Q * string * Z);
  lw_stored : ManagedClaim Q;
  lw_seen : bool;
  lw_created : nat;
}.

(** How many instances a step created: the calls it made to create one, when the
    provider answers with an instance. *)
Definition isCreate (e : LifeEffect Q) : bool := match e with LCreateInstance => true | _ => false end.

Definition createsInstance (answer : CreateAnswer Q) (s : @Step Q) : nat :=
  match answer with Created _ _ => length (List.filter isCreate (st_effects s)) | _ => 0 end.

(** A reconcile reads what is stored or, as long as none has seen the NodeClaim
    launched, an old version of it; its patch may fail.  It comes before the cache
    forgets.  Others may change the NodeClaim, not this condition. *)
Inductive launch_step : LaunchRun → LaunchRun → Prop :=
  | launch_reconcile w mc now answer delete cache' s patched :
      mc_UID mc = mc_UID (lw_stored w) →
      (mc = lw_stored w ∨ lw_seen w = false ∧ isUnknown mc ConditionTypeLaunched = true) →
      (∀ e, lw_cache w !! mc_UID mc = Some e → now <= e.2) →
      Launch (lw_cache w) mc now answer delete = (cache', s) →
      launch_step w (mkLaunchRun cache' (if patched : bool then st_claim s else lw_stored w) (lw_seen w || isTrue mc ConditionTypeLaunched)
        (lw_created w + createsInstance answer s))
  | launch_touch w mc :
      mc_UID mc = mc_UID (lw_stored w) → conditionsOf mc !! ConditionTypeLaunched = conditionsOf (lw_stored w) !! ConditionTypeLaunched →
      launch_step w (mkLaunchRun (lw_cache w) mc (lw_seen w) (lw_created w)).

Record launch_inv (w : LaunchRun) : Prop := {
  li_once : (lw_created w <= 1)%nat;
  li_remembered : lw_created w = 1%nat → is_Some (lw_cache w !! mc_UID (lw_stored w)) ∨ lw_seen w = true;
  li_seen : lw_seen w = true → isTrue (lw_stored w) ConditionTypeLaunched = true;
}.

Lemma true_not_unknown mc type : isTrue mc type = true → isUnknown mc type = false.
Proof.
  unfold isTrue, conditionTrue, isUnknown, conditionUnknown. destruct (conditionsOf mc !! type) as [c|]; [|done]. intros ->%String.eqb_eq. done.
Qed.

Lemma Launch_uid cache mc now answer delete cache' s : Launch cache mc now answer delete = (cache', s) → mc_UID (st_claim s) = mc_UID mc.
Proof.
  unfold Launch. destruct (negb _); [by intros [= <- <-]|]. destruct (cachedLaunch _ _ _) as [[? ?]|]; [by intros [= <- <-]|].
  unfold launchNodeClaim. destruct answer; by intros [= <- <-].
Qed.

(** What a launch of a NodeClaim not yet launched does to the cache. *)
Lemma Launch_unknown cache mc now answer delete cache' s : Launch cache mc now answer delete = (cache', s) → isUnknown mc ConditionTypeLaunched = true →
  (∀ e, cache !! mc_UID mc = Some e → now <= e.2) →
  (∀ e, cache !! mc_UID mc = Some e → createsInstance answer s = 0%nat) ∧ (is_Some (cache !! mc_UID mc) → is_Some (cache' !! mc_UID mc)) ∧
  (createsInstance answer s = 1%nat → is_Some (cache' !! mc_UID mc)) ∧ (createsInstance answer s <= 1)%nat.
Proof.
  intros Hrun Hu Hfresh. unfold Launch in Hrun. rewrite Hu in Hrun. cbn [negb] in Hrun. destruct (cachedLaunch cache now (mc_UID mc)) as [[claim imageID]|] eqn:Hget.
  - injection Hrun as <- <-. assert (∀ (x : ManagedClaim Q), createsInstance answer (mkStep x [] noResult false) = 0%nat) as H0 by (intros x; by destruct answer).
    rewrite H0. split_and!; [done|rewrite lookup_insert_eq; by eexists|done|lia].
  - assert (cache !! mc_UID mc = None) as Hnone.
    { destruct (cache !! mc_UID mc) as [[[c i] e]|] eqn:Hl; [|done]. specialize (Hfresh _ eq_refl). cbn in Hfresh. unfold cachedLaunch in Hget. rewrite Hl in Hget. cbn in Hget.
      destruct (e <? now) eqn:Hlt; [apply Z.ltb_lt in Hlt; lia|done]. }
    rewrite Hnone. split_and!; [done|by intros []| |]; unfold launchNodeClaim in Hrun; destruct answer as [claim imageID| | |reason retryAfter|reason]; injection Hrun as <- <-; cbn; try done; try lia.
    rewrite lookup_insert_eq. by eexists.
Qed.

Lemma launch_step_inv w w' : launch_step w w' → launch_inv w → launch_inv w'.
Proof.
  intros Hstep [Hone Hrem Hseen]. destruct Hstep as [w mc now answer delete cache' s patched Huid Hread Hfresh Hrun|w mc Huid Hc].
  2:{ split; cbn [lw_created lw_cache lw_stored lw_seen]; [done|by rewrite Huid|]. intros Hs%Hseen. unfold isTrue, conditionTrue in *. by rewrite Hc. }
  assert (mc_UID (if patched then st_claim s else lw_stored w) = mc_UID mc) as Huid' by (destruct patched; [by eapply Launch_uid|done]).
  destruct (isUnknown mc ConditionTypeLaunched) eqn:Hu.
  - assert (isTrue mc ConditionTypeLaunched = false) as Hnt by (destruct (isTrue mc ConditionTypeLaunched) eqn:Ht; [by rewrite (true_not_unknown _ _ Ht) in Hu|done]).
    assert (lw_seen w = false) as Hns.
    { destruct Hread as [->|[? _]]; [|done]. destruct (lw_seen w); [|done]. specialize (Hseen eq_refl). congruence. }
    destruct (Launch_unknown _ _ _ _ _ _ _ Hrun Hu Hfresh) as (Hcached & Hkeep & Hnew & Hle).
    rewrite Hns in *. split; cbn [lw_created lw_cache lw_stored lw_seen]; rewrite ?Hnt; [| |done].
    + destruct (decide (lw_created w = 1%nat)) as [H1|H1]; [|lia]. destruct (Hrem H1) as [[e He]|?]; [|done]. rewrite <- Huid in He. rewrite (Hcached e He). lia.
    + intros Hsum. left. rewrite Huid'. destruct (decide (lw_created w = 1%nat)) as [H1|H1].
      * destruct (Hrem H1) as [He|?]; [|done]. rewrite <- Huid in He. by apply Hkeep.
      * apply Hnew. lia.
  - assert (mc = lw_stored w) as -> by (destruct Hread as [?|[_ ?]]; [done|congruence]). unfold Launch in Hrun. rewrite Hu in Hrun. cbn [negb] in Hrun.
    injection Hrun as <- <-. assert (createsInstance answer (mkStep (lw_stored w) [] noResult false) = 0%nat) as H0 by (by destruct answer).
    cbn [st_claim] in *. split; cbn [lw_created lw_cache lw_stored lw_seen]; rewrite ?H0, ?Nat.add_0_r.
    + done.
    + intros H1. destruct (isTrue (lw_stored w) ConditionTypeLaunched) eqn:Ht; [right; by rewrite orb_true_r|]. rewrite Huid', orb_false_r. by apply Hrem.
    + intros Hor. assert ((if patched then lw_stored w else lw_stored w) = lw_stored w) as -> by by destruct patched.
      apply orb_true_iff in Hor as [?|?]; [by apply Hseen|done].
Qed.

(** C26. At most one call to the provider creates an instance for a NodeClaim, however
    often it is reconciled: also when the status could not be written, and when an old
    version of the NodeClaim is read.  This is as long as each reconcile comes before
    the launch cache forgets, an hour after the last one that used it, and old
    versions are no longer read once a reconcile has seen the NodeClaim launched. *)
Theorem instance_created_once mc w (Hrun : rtc launch_step (mkLaunchRun ∅ mc false 0) w) : (lw_created w <= 1)%nat.
Proof.
  assert (launch_inv w) as [H1 _ _]; [|done]. apply (rtc_ind_r launch_inv (mkLaunchRun ∅ mc false 0)) in Hrun; [done| |].
  - split; cbn; [lia|done|done].
  - intros x y _ Hstep Hx. by apply (launch_step_inv x).
Qed.

(** ** Giving up *)

(** The time is over, as the clock measures it. *)
Definition timedOut (timeout now since : Z) : Prop := timeLeft timeout now since <= 0.

(** Unless the clock is set back, that is when the timeout has passed. *)
Lemma timedOut_elapsed timeout now since : 0 <= timeout <= MaxInt64 → since <= now → timedOut timeout now since ↔ timeout <= Z.min MaxInt64 (now - since).
Proof.
  intros Ht Hs. unfold timedOut, timeLeft, timeSub. unfold MaxInt64, MinInt64 in *. rewrite wrap64_id; [lia|]. unfold in_int64, MinInt64, MaxInt64. lia.
Qed.

Definition never_launched mc now : Prop :=
  ∃ launched, conditionsOf mc !! ConditionTypeLaunched = Some launched ∧ cd_Status launched ≠ ConditionTrue ∧
    timedOut LaunchTimeout now (cd_LastTransitionTime launched).

Definition never_registered mc now (reads : LiveReads) : Prop :=
  ∃ registered timeout, conditionsOf mc !! ConditionTypeRegistered = Some registered ∧ registrationTimeoutFor mc (lr_timeoutPool reads) = Some timeout ∧
    timedOut timeout now (cd_LastTransitionTime registered).

Definition never_initialized mc now (reads : LiveReads) : Prop :=
  isTrue mc ConditionTypeInitialized = false ∧ 0 < lr_initializationTimeout reads ∧ lr_shadow reads = false ∧
  ∃ registered, conditionsOf mc !! ConditionTypeRegistered = Some registered ∧ timedOut (lr_initializationTimeout reads) now (cd_LastTransitionTime registered).

Lemma updateHealth_no_delete success needsPatch health mc pool patch health' es answer :
  updateHealth success needsPatch health mc pool patch = Some (health', es, answer) → LDeleteClaim ∉ es.
Proof.
  unfold updateHealth. destruct (String.eqb _ _); [intros [= <- <- <-]; apply not_elem_of_nil|]. destruct pool as [pool| |]; try (intros [= <- <- <-]; apply not_elem_of_nil).
  destruct (negb _); [intros [= <- <- <-]; apply not_elem_of_nil|]. intros ([h t] & _ & Hrun)%bind_Some. destruct (needsPatch _ _).
  - destruct patch; try (injection Hrun as <- <- <-; apply not_elem_of_nil); apply bind_Some in Hrun as (h' & _ & Heq); injection Heq as <- <- <-; by intros ?%list_elem_of_singleton.
  - apply bind_Some in Hrun as (h' & _ & Heq). injection Heq as <- <- <-. apply not_elem_of_nil.
Qed.

Lemma livenessRegistration_deletes health mc now registered reads effects health' s :
  livenessRegistration health mc now registered reads effects = Some (health', s) → conditionsOf mc !! ConditionTypeRegistered = registered →
  LDeleteClaim ∈ st_effects s → LDeleteClaim ∈ effects ∨ never_registered mc now reads.
Proof.
  unfold livenessRegistration. destruct registered as [c|]; [|intros [= <- <-]; by left]. destruct (registrationTimeoutFor _ _) as [timeout|] eqn:Ht; [|intros [= <- <-]; by left].
  cbv zeta. destruct (0 <? timeLeft timeout now (cd_LastTransitionTime c)) eqn:Hl; [intros [= <- <-]; by left|]. intros _ Hc _. right.
  exists c, timeout. split_and!; [done|done|]. by apply Z.ltb_ge in Hl.
Qed.

(** C28. A NodeClaim is given up only when a timeout has passed: it was not launched
    within five minutes, or not registered within the time its pool gives, or, where
    that is enabled and not only tried, registered but not initialised in time; and a
    registered one only for the last reason. *)
Theorem gives_up_on_timeout (health : HealthState) mc now reads health' s
    (Hrun : Liveness health mc now reads = Some (health', s)) (Hdel : LDeleteClaim ∈ st_effects s) :
  (isTrue mc ConditionTypeRegistered = true → never_initialized mc now reads) ∧
  (isTrue mc ConditionTypeRegistered = false → never_launched mc now ∨ never_registered mc now reads).
Proof.
  assert (∀ registered, conditionsOf mc !! ConditionTypeRegistered = registered → livenessUnregistered health mc now registered reads = Some (health', s) →
    never_launched mc now ∨ never_registered mc now reads) as Hun.
  { intros registered Hreg. unfold livenessUnregistered. destruct (conditionsOf mc !! ConditionTypeLaunched) as [launched|] eqn:Hlaunched.
    2:{ intros [= <- <-]. by apply not_elem_of_nil in Hdel. }
    destruct (String.eqb_spec (cd_Status launched) ConditionTrue) as [He|Hne].
    { intros Hr. destruct (livenessRegistration_deletes _ _ _ _ _ _ _ _ Hr Hreg Hdel) as [Hin|?]; [by apply not_elem_of_nil in Hin|by right]. }
    cbv zeta. destruct (0 <? timeLeft LaunchTimeout now (cd_LastTransitionTime launched)) eqn:Hl; [intros [= <- <-]; by apply not_elem_of_nil in Hdel|].
    intros _. left. exists launched. split_and!; [done|done|]. by apply Z.ltb_ge in Hl. }
  revert Hrun. unfold Liveness. unfold isTrue, conditionTrue. destruct (conditionsOf mc !! ConditionTypeRegistered) as [registered|] eqn:Hreg; intros Hrun.
  2:{ split; [done|]. intros _. exact (Hun _ eq_refl Hrun). }
  change "True"%string with ConditionTrue. destruct (String.eqb (cd_Status registered) ConditionTrue); [|split; [done|]; intros _; exact (Hun _ eq_refl Hrun)].
  split; [|done]. intros _. injection Hrun as <- <-. unfold reconcileInitializationTimeout in Hdel. cbv zeta in Hdel. unfold never_initialized.
  destruct (lr_initializationTimeout reads <=? 0) eqn:H0; [by apply not_elem_of_nil in Hdel|]. destruct (isTrue mc ConditionTypeInitialized) eqn:Hi; [by apply not_elem_of_nil in Hdel|].
  destruct (_ =? 0); [by apply not_elem_of_nil in Hdel|]. destruct (0 <? timeLeft _ _ _) eqn:Hl; [by apply not_elem_of_nil in Hdel|].
  destruct (lr_shadow reads); [by apply not_elem_of_nil in Hdel|]. apply Z.leb_gt in H0. apply Z.ltb_ge in Hl. split_and!; [done|done|done|]. by exists registered.
Qed.

(** ** Finalizing *)

Section finalize_theory.
Context (formatRFC3339 : Z → string).

Lemma deleteNodes_effects deleted (nodes : list (RegNode Q)) e : e ∈ (deleteNodes deleted nodes).1 → ∃ name, e = LDeleteNode name.
Proof.
  induction nodes as [|node nodes IH]; cbn [deleteNodes]; [by intros ?%not_elem_of_nil|]. destruct (n_DeletionTimestamp _); [exact IH|].
  destruct (deleted _); [|by intros ?%not_elem_of_nil]. destruct (deleteNodes deleted nodes) as [es ok]. cbn [fst] in *. intros [->|Hin]%elem_of_cons; [by eexists|auto].
Qed.

Lemma finalizeInstance_removes mc now reads : LRemoveFinalizer ∈ (finalizeInstance mc now reads).1 → lf_deleteInstance reads = InstanceGone.
Proof.
  unfold finalizeInstance. destruct (lf_deleteInstance reads); [|done|by intros ?%not_elem_of_nil]. intros Hin. exfalso. revert Hin.
  set (changed := negb _). destruct changed, (lf_patchStatus reads); cbn [fst]; rewrite ?elem_of_cons, ?elem_of_nil; intuition discriminate.
Qed.

(** What is done while a NodeClaim is not being deleted. *)
Definition runs (e : LifeEffect Q) : Prop := match e with LRemoveFinalizer | LDeleteInstance | LDeleteNode _ | LAnnotate _ => False | _ => True end.

Ltac runs_effects := repeat first [apply Forall_nil; exact I | apply Forall_cons; split; [exact I|] | apply Forall_app_2 | assumption | exact I].

Lemma updateHealth_runs success needsPatch health mc pool patch health' es answer :
  updateHealth success needsPatch health mc pool patch = Some (health', es, answer) → Forall runs es.
Proof.
  unfold updateHealth. destruct (String.eqb _ _); [intros [= <- <- <-]; runs_effects|]. destruct pool as [pool| |]; try (intros [= <- <- <-]; runs_effects).
  destruct (negb _); [intros [= <- <- <-]; runs_effects|]. intros ([h t] & _ & Hrun)%bind_Some. destruct (needsPatch _ _).
  - destruct patch; try (injection Hrun as <- <- <-; runs_effects); apply bind_Some in Hrun as (h' & _ & Heq); injection Heq as <- <- <-; runs_effects.
  - apply bind_Some in Hrun as (h' & _ & Heq). injection Heq as <- <- <-. runs_effects.
Qed.

Lemma failLaunch_runs health mc pool reads health' es ended : failLaunch health mc pool reads = Some (health', es, ended) → Forall runs es.
Proof.
  intros ([[h e] answer] & Hu & Heq)%bind_Some. apply updateHealth_runs in Hu. destruct answer; try (by injection Heq as <- <- <-);
    destruct (lr_delete reads); injection Heq as <- <- <-; runs_effects.
Qed.

Lemma Launch_runs cache mc now answer delete : Forall runs (st_effects (Launch cache mc now answer delete).2).
Proof.
  unfold Launch. destruct (negb _); [runs_effects|]. destruct (cachedLaunch _ _ _) as [[? ?]|]; [runs_effects|]. unfold launchNodeClaim. destruct answer, delete; runs_effects.
Qed.

Lemma Registration_runs health mc now reads health' s : Registration health mc now reads = Some (health', s) → Forall runs (st_effects s).
Proof.
  unfold Registration. destruct (negb _); [intros [= <- <-]; runs_effects|]. destruct (NodeForNodeClaim _ _) as [stored| | |]; try (intros [= <- <-]; runs_effects).
  destruct (checkRegistrationHooks _ _ _ _) as [[mc1 hr] he]. cbv zeta. destruct (if sameNode _ _ then _ else _) as [es patched] eqn:Hp.
  assert (Forall runs es) as Hes by (destruct (sameNode _ _); [injection Hp as <- <-; runs_effects|]; destruct (rr_patchNode reads); injection Hp as <- <-; runs_effects).
  destruct patched; try (intros [= <- <-]; runs_effects). destruct (negb (isEmptyResult hr && negb he)); [by intros [= <- <-]|].
  intros ([[h e] answer] & Hu & Heq)%bind_Some. injection Heq as <- <-. apply updateHealth_runs in Hu. cbn [st_effects]. runs_effects.
Qed.

Lemma Initialization_runs ignoreDRA mc now listed slices patch : Forall runs (st_effects (Initialization ignoreDRA mc now listed slices patch)).
Proof.
  unfold Initialization. destruct (negb _); [runs_effects|]. destruct (negb _); [runs_effects|]. destruct (notInitialized _ _ _ _) as [[|]|]; [runs_effects..|].
  cbv zeta. destruct (sameNode _ _); [runs_effects|]. destruct patch; runs_effects.
Qed.

Lemma livenessRegistration_runs health mc now registered reads effects health' s :
  livenessRegistration health mc now registered reads effects = Some (health', s) → Forall runs effects → Forall runs (st_effects s).
Proof.
  unfold livenessRegistration. destruct registered; [|by intros [= <- <-]]. destruct (registrationTimeoutFor _ _); [|by intros [= <- <-]]. cbv zeta.
  destruct (0 <? _); [by intros [= <- <-]|]. intros ([[h es] ended] & Hf & Heq)%bind_Some Hes. apply failLaunch_runs in Hf. destruct ended as [[? ?]|]; injection Heq as <- <-; cbn [st_effects]; runs_effects.
Qed.

Lemma Liveness_runs health mc now reads health' s : Liveness health mc now reads = Some (health', s) → Forall runs (st_effects s).
Proof.
  assert (∀ registered, livenessUnregistered health mc now registered reads = Some (health', s) → Forall runs (st_effects s)) as Hun.
  { intros registered. unfold livenessUnregistered. destruct (conditionsOf mc !! ConditionTypeLaunched) as [launched|]; [|intros [= <- <-]; runs_effects].
    destruct (String.eqb _ _); [intros Hr; eapply livenessRegistration_runs; [exact Hr|runs_effects]|]. cbv zeta. destruct (0 <? _); [intros [= <- <-]; runs_effects|].
    intros ([[h es] [[? ?]|]] & Hf & Heq)%bind_Some; apply failLaunch_runs in Hf; [by injection Heq as <- <-|by eapply livenessRegistration_runs]. }
  unfold Liveness. destruct (conditionsOf mc !! ConditionTypeRegistered) as [registered|]; [|apply Hun]. destruct (String.eqb _ _); [|apply Hun].
  intros [= <- <-]. unfold reconcileInitializationTimeout. cbv zeta. destruct (_ <=? 0); [runs_effects|]. destruct (isTrue _ _); [runs_effects|]. destruct (_ =? 0); [runs_effects|].
  destruct (0 <? _); [runs_effects|]. destruct (lr_shadow reads); [runs_effects|]. destruct (lr_delete reads); runs_effects.
Qed.

Lemma runSteps_runs (st : LifeState) mc reads st' mc' effects results err : runSteps st mc reads = Some (st', mc', effects, results, err) → Forall runs effects.
Proof.
  unfold runSteps. cbv zeta. pose proof (Launch_runs st.1 mc (le_now reads) (le_create reads) (le_deleteFailed reads)) as H1.
  destruct (Launch _ _ _ _ _) as [cache s1]. intros ([health s2] & H2 & Hrun)%bind_Some. apply Registration_runs in H2.
  apply bind_Some in Hrun as ([health' s4] & H4 & Hrun). apply Liveness_runs in H4. injection Hrun as <- <- <- <- <-.
  pose proof (Initialization_runs (le_ignoreDRA reads) (st_claim s2) (le_now reads) (le_initNodes reads) (le_slices reads) (le_patchInitialized reads)). runs_effects.
Qed.

(** C27. A NodeClaim is let go only after its nodes and its instance.  Its finalizer is
    removed only while it is being deleted; if it had registered, when no node of its
    instance is left; and if it ever got an instance, when the provider says that the
    instance is gone. *)
Theorem claim_outlives_instance changed (st : LifeState) mc reads st' effects outcome
    (Hrun : ReconcileClaim formatRFC3339 changed st mc reads = Some (st', effects, outcome)) (Hin : LRemoveFinalizer ∈ effects) :
  is_Some (nc_DeletionTimestamp (mc_claim mc)) ∧
  (isTrue mc ConditionTypeRegistered = true → AllNodesForNodeClaim mc (lf_nodes (le_final reads)) = Some []) ∧
  (nc_ProviderID (mc_claim mc) ≠ ""%string → lf_deleteInstance (le_final reads) = InstanceGone).
Proof.
  unfold ReconcileClaim in Hrun. destruct (negb (le_managed reads)); [injection Hrun as <- <- <-; by apply not_elem_of_nil in Hin|].
  destruct (nc_DeletionTimestamp (mc_claim mc)) as [t|].
  2:{ assert (Forall runs effects) as Hall; [|rewrite Forall_forall in Hall; by apply Hall in Hin].
      destruct (mc_Finalizer mc), (le_addFinalizer reads); try (injection Hrun as <- <- <-; runs_effects);
        apply bind_Some in Hrun as ([[[[s0 mc0] es] rs] err] & Hsteps & Hrun); apply runSteps_runs in Hsteps;
        (destruct (negb (changed _ _)); [injection Hrun as <- <- <-; runs_effects|]);
        destruct (le_patchClaim reads), (le_patchStatus reads); injection Hrun as <- <- <-; runs_effects. }
  split; [by eexists|]. destruct (finalizeClaim formatRFC3339 mc (le_now reads) (le_final reads)) as [es o] eqn:Hf. injection Hrun as <- <- <-.
  assert (LRemoveFinalizer ∈ (finalizeNodes mc (le_now reads) (le_final reads)).1) as Hnodes.
  { unfold finalizeClaim in Hf. destruct (negb (mc_Finalizer mc)); [injection Hf as <- <-; by apply not_elem_of_nil in Hin|].
    destruct (finalizeNodes mc (le_now reads) (le_final reads)) as [es' o']. cbn [fst].
    destruct (terminationTime formatRFC3339 mc); [|by injection Hf as <- <-].
    destruct (lf_annotate (le_final reads)); injection Hf as <- <-; cbn [app] in Hin; rewrite ?elem_of_cons in Hin; try (by apply not_elem_of_nil in Hin); [by destruct Hin|done]. }
  unfold finalizeNodes in Hnodes. destruct (isTrue mc ConditionTypeRegistered); cbn [negb] in Hnodes.
  - destruct (AllNodesForNodeClaim mc (lf_nodes (le_final reads))) as [nodes|]; [|by apply not_elem_of_nil in Hnodes].
    pose proof (deleteNodes_effects (lf_deleteNode (le_final reads)) nodes LRemoveFinalizer) as Hdel.
    destruct (deleteNodes _ nodes) as [des ok]. cbn [fst] in Hdel. destruct (negb ok); [by destruct (Hdel Hnodes)|].
    destruct nodes; [|by destruct (Hdel Hnodes)]. split; [done|]. intros Hid. apply String.eqb_neq in Hid. rewrite Hid in Hnodes. by eapply finalizeInstance_removes.
  - split; [done|]. intros Hid. apply String.eqb_neq in Hid. rewrite Hid in Hnodes. by eapply finalizeInstance_removes.
Qed.
End finalize_theory.
End stage_theory.

(** * Witnesses *)

Section witnesses.
#[local] Existing Instance keyTaintLib.
#[local] Existing Instance noParsers.
#[local] Existing Instance plainConditions.
#[local] Existing Instance plainConditions_laws.
#[local] Existing Instance map_to_list_GoRange.

Definition unknownStages : gmap string Condition :=
  list_to_map ((λ type, (type, mkCondition ConditionUnknown "AwaitingReconciliation" 0)) <$> stageTypes).

Definition newManaged (providerID : string) (deleted : option Z) (labels : gmap string string) (conds : gmap string Condition) : ManagedClaim Z :=
  mkManagedClaim "uid-a" (mkNodeClaim "claim-a" providerID labels ∅ [] [] None 0 deleted ∅ ∅ conds None None) {["cpu"%string := 2]} "" "" [("NodePool", "pool-uid")%string] true.

Definition newClaim : ManagedClaim Z := newManaged "" None ∅ unknownStages.
Definition launchedAs : NodeClaim Z := mkNodeClaim "claim-a" "p1" ∅ ∅ [] [] None 0 None ∅ ∅ ∅ None None.

(** The kubelet's node, which still has the taint it registers with. *)
Definition bootedNode (taints : list Taint) : RegNode Z :=
  mkRegNode (mkNode "node-a" "p1" ∅ ∅ taints None ∅ {["cpu"%string := 4]} {["Ready"%string := mkCondition "True" "KubeletReady" 0]}) false [].

Definition noLiveness : LiveReads := mkLiveReads 0 false NotFound NotFound NotFound CallOk CallOk.

Definition finalReads : FinalReads (Q := Z) := mkFinalReads CallOk (Some []) (λ _, true) InstanceGone CallOk (Some [bootedNode []]) CallOk.

Definition firstReads : LifeReads (Q := Z) :=
  mkLifeReads Second true CallOk (Created launchedAs "image") CallOk
    (mkRegReads (Some [bootedNode [UnregisteredNoExecuteTaint]]) [] id CallOk NotFound CallOk)
    true (Some [bootedNode []]) (Some []) CallOk noLiveness CallOk CallOk false finalReads.

(** The NodeClaim goes through all stages at once, as its node is there already. *)
Definition firstRun := runSteps (∅, ∅) newClaim firstReads.

Lemma lifecycle_stages_witness : ∃ st' mc' effects results err,
  firstRun = Some (st', mc', effects, results, err) ∧ isTrue mc' ConditionTypeInitialized = true ∧ stages mc' ∧
  isTrue mc' ConditionTypeRegistered = true ∧ node_initialized true mc' (Some [bootedNode []]) (Some []).
Proof.
  destruct firstRun as [[[[[st' mc'] effects] results] err]|] eqn:Hrun; [|vm_compute in Hrun; discriminate Hrun].
  exists st', mc', effects, results, err. split; [reflexivity|].
  assert (isTrue mc' ConditionTypeInitialized = true) as Hi by (vm_compute in Hrun; injection Hrun as <- <- <- <- <-; vm_compute; reflexivity).
  split; [exact Hi|]. destruct (lifecycle_stages (∅, ∅) newClaim firstReads st' mc' effects results err Hrun) as (Hst & _ & _ & Hinit).
  - split; vm_compute; discriminate.
  - intros mc. split_and!; reflexivity.
  - intros claim imageID [= <- <-]. discriminate.
  - intros uid claim imageID expires. cbn [fst]. rewrite lookup_empty. discriminate.
  - split; [exact Hst|]. apply Hinit; [vm_compute; reflexivity|exact Hi].
Defined.

(** The status is not written after the first launch; the second finds it in the
    cache. *)
Definition launchOnce := Launch (CL := plainConditions) (Q := Z) ∅ newClaim Second (Created launchedAs "image") CallOk.
Definition launchTwice := Launch launchOnce.1 newClaim (2 * Second) (Created launchedAs "image") CallOk.

Definition relaunched : LaunchRun (Q := Z) :=
  mkLaunchRun launchTwice.1 (st_claim launchTwice.2) (false || isTrue newClaim ConditionTypeLaunched || isTrue newClaim ConditionTypeLaunched)
    (0 + createsInstance (Created launchedAs "image") launchOnce.2 + createsInstance (Created launchedAs "image") launchTwice.2).

Lemma instance_created_once_witness : lw_created relaunched = 1%nat ∧ (lw_created relaunched <= 1)%nat.
Proof.
  split; [vm_compute; reflexivity|]. apply (instance_created_once newClaim). eapply rtc_l; [|apply rtc_once].
  - apply (launch_reconcile (mkLaunchRun ∅ newClaim false 0) newClaim Second (Created launchedAs "image") CallOk launchOnce.1 launchOnce.2 false);
      [reflexivity|left; reflexivity| |apply surjective_pairing].
    intros e. cbn [lw_cache]. rewrite lookup_empty. discriminate.
  - apply (launch_reconcile (mkLaunchRun launchOnce.1 newClaim _ _) newClaim (2 * Second) (Created launchedAs "image") CallOk launchTwice.1 launchTwice.2 true);
      [reflexivity|left; reflexivity| |apply surjective_pairing].
    intros e He. vm_compute in He. injection He as <-. vm_compute. discriminate.
Defined.

(** Nothing was launched for twenty minutes, more than a launch and more than a
    registration may take. *)
Definition stalePool : PoolRead := mkPoolRead "pool-uid" ∅ ∅ true.
Definition staleClaim : ManagedClaim Z := newManaged "" None {[NodePoolLabelKey := "pool-a"%string]} unknownStages.
Definition staleReads : LiveReads := mkLiveReads 0 false (Found stalePool) (Found stalePool) (Found stalePool) CallOk CallOk.
Definition staleRun := Liveness ∅ staleClaim (20 * Minute) staleReads.

Lemma gives_up_on_timeout_witness : ∃ health' s, staleRun = Some (health', s) ∧ (never_launched staleClaim (20 * Minute) ∨ never_registered staleClaim (20 * Minute) staleReads).
Proof.
  destruct staleRun as [[health' s]|] eqn:Hrun; [|vm_compute in Hrun; discriminate Hrun]. exists health', s. split; [reflexivity|].
  apply (gives_up_on_timeout ∅ staleClaim (20 * Minute) staleReads health' s Hrun); [|vm_compute; reflexivity].
  vm_compute in Hrun. injection Hrun as <- <-. vm_compute. left.
Defined.

(** [Liveness.Reconcile] goes on after it gave up on the launch, so one NodeClaim past
    both timeouts is deleted twice and counts as two failures, which are enough to
    make a pool unhealthy that has not launched anything yet. *)
Lemma one_claim_fails_twice : ∃ health' s,
  staleRun = Some (health', s) ∧ List.filter (λ e, match e with LDeleteClaim => true | _ => false end) (st_effects s) = [LDeleteClaim; LDeleteClaim] ∧
  TrackerStatus <$> HealthUpdate ∅ "pool-uid" false ≫= (.!! "pool-uid"%string) = Some StatusHealthy ∧
  TrackerStatus <$> health' !! "pool-uid"%string = Some StatusUnhealthy.
Proof.
  destruct staleRun as [[health' s]|] eqn:Hrun; [|vm_compute in Hrun; discriminate Hrun]. exists health', s. split; [reflexivity|].
  vm_compute in Hrun. injection Hrun as <- <-. vm_compute. repeat split.
Qed.

(** Deleted after it had registered; no node is left and the instance is gone. *)
Definition doneClaim : ManagedClaim Z := newManaged "p1" (Some 1) ∅ {[ConditionTypeRegistered := mkCondition ConditionTrue "Registered" 0]}.
Definition doneRun := ReconcileClaim (λ _, "") (λ _ _, true) (∅, ∅) doneClaim firstReads.

Lemma claim_outlives_instance_witness : ∃ st' effects outcome,
  doneRun = Some (st', effects, outcome) ∧ AllNodesForNodeClaim doneClaim (lf_nodes finalReads) = Some [] ∧ lf_deleteInstance finalReads = InstanceGone.
Proof.
  destruct doneRun as [[[st' effects] outcome]|] eqn:Hrun; [|vm_compute in Hrun; discriminate Hrun]. exists st', effects, outcome. split; [reflexivity|].
  destruct (claim_outlives_instance (λ _, "") (λ _ _, true) (∅, ∅) doneClaim firstReads st' effects outcome Hrun) as (_ & Hnodes & Hgone).
  - vm_compute in Hrun. injection Hrun as <- <- <-. vm_compute. do 3 right. left.
  - split; [apply Hnodes; vm_compute; reflexivity|apply Hgone; discriminate].
Defined.
End witnesses.
