(* ===== verification/TopologyBuild.v ===== *)
(** * Building the topology of a pass

    Model of the rest of [pkg/controllers/provisioning/scheduling/topology.go]
    with [inverseaffinitycache.go]: the domains the node pools can supply, the
    groups the pods to schedule ask for, the inverse groups of the anti-affinity
    of pods that run, and the count of the pods already in each domain.  The
    caches of a pass, which only save reads, are not modelled.  The labels
    library of Kubernetes and the hash of a group are parameters; what is read
    from the API server is an argument. *)

From S2P Require Import Prelude Strconv Requirement Kube Taints Requirements Resources HostPorts Volumes PodUtils StateNode InstanceTypes TopologyGroup Topology NodePoolState Cluster.

(** [metav1.LabelSelectorAsSelector] and [labels.NewRequirement], each followed by
    [Matches]; [None] is an error. *)
Class SelectorOps := {
  asSelector : option LabelSelector → option (gmap string string → bool);
  newLabelRequirement : string → string → list string → option (gmap string string → bool);
}.

(** ** Selectors *)

Definition mapOperator (operator : string) : string :=
  if String.eqb operator "In" then "in"
  else if String.eqb operator "NotIn" then "notin"
  else if String.eqb operator "Exists" then "exists"
  else if String.eqb operator "DoesNotExist" then "!"
  else "".

Section selectors.
Context {SO : SelectorOps} {GR : GoRange}.

Definition labelRequirements (s : LabelSelector) : option (list (gmap string string → bool)) :=
  ls ← mapM (λ kv, newLabelRequirement kv.1 "=" [kv.2]) (gorange (ls_MatchLabels s));
  es ← mapM (λ e, newLabelRequirement (lr_Key e) (mapOperator (lr_Operator e)) (lr_Values e)) (ls_MatchExpressions s);
  Some (ls ++ es).

(** The label selector of [TopologyListOptions]: a missing one selects all pods, one
    that cannot be read none. *)
Definition TopologyListOptions (s : option LabelSelector) : gmap string string → bool :=
  match s with
  | None => λ _, true
  | Some s => match labelRequirements s with Some rs => λ labels, forallb (λ r, r labels) rs | None => λ _, false end
  end.
End selectors.

Definition char (n : nat) : string := String (Ascii.ascii_of_nat n) "".

Definition canonicalLabelSelector `{GoRange} (selector : option LabelSelector) : string :=
  match selector with
  | None => "<nil>"
  | Some s =>
      let labelPairs := merge_sort String.le ((λ kv, kv.1 +:+ "=" +:+ kv.2) <$> gorange (ls_MatchLabels s)) in
      let expressions : gset string := list_to_set
        ((λ e, String.concat (char 2) (lr_Key e :: lr_Operator e :: merge_sort String.le (lr_Values e))) <$> ls_MatchExpressions s) in
      String.concat (char 1) labelPairs +:+ char 0 +:+ String.concat (char 1) (sets_List expressions)
  end.

Definition inverseTopologyGroupKey `{GoRange} (topologyKey : string) (namespaces : gset string) (selector : option LabelSelector) : string :=
  String.concat (char 0) [topologyKey; String.concat (char 1) (sets_List namespaces); canonicalLabelSelector selector].

Definition IgnoredForTopology (p : Pod) : bool := negb (IsScheduled p) || IsTerminal p || IsTerminating p.

(** ** The domains of node pools *)

(** What is read of a node pool: its name and its template, with the group, kind and
    name of its node class. *)
Record PoolTemplate := mkPoolTemplate {
  pl_Name : string;
  pl_Requirements : list NodeSelectorRequirementWithMinValues;
  pl_Labels : gmap string string;
  pl_Taints : list Taint;
  pl_NodeClassRef : option (string * string * string);
}.

(** [strings.ToLower] of ASCII text *)
Fixpoint ToLower (s : string) : string :=
  match s with
  | EmptyString => EmptyString
  | String a s =>
      let n := Ascii.N_of_ascii a in
      String (if N.leb 65 n && N.leb n 90 then Ascii.ascii_of_N (n + 32) else a) (ToLower s)
  end.

Definition NodeClassLabelKey (group kind : string) : string := group +:+ "/" +:+ ToLower kind.

Section domain_groups.
Context {LT : LabelTables} {GR : GoRange} {Q : Type}.
Implicit Types (np : PoolTemplate) (g : gmap string TopologyDomainGroup).

(** The requirements and labels of the template; [None] is the panic of a comparison
    without an operand. *)
Definition templateRequirements np : option Requirements :=
  requirements ← NewNodeSelectorRequirementsWithMinValues (pl_Requirements np);
  Some (Add requirements (ReqValues (NewLabelRequirements (pl_Labels np)))).

Definition nodeClaimLabels np : gmap string string :=
  let labels : gmap string string := {[NodePoolLabelKey := pl_Name np]} in
  match pl_NodeClassRef np with
  | Some (group, kind, name) => <[NodeClassLabelKey group kind := name]> labels
  | None => labels
  end.

Definition nodePoolDomainRequirements np : option Requirements :=
  requirements ← templateRequirements np;
  Some (Add requirements (ReqValues (NewLabelRequirements (nodeClaimLabels np)))).

(** The values of a requirement become domains of its key. *)
Definition insertDomains (pool : string) (taints : list Taint) (reqs : Requirements) g (kr : string * Requirement) : gmap string TopologyDomainGroup :=
  <[kr.1 := foldl (λ group domain, InsertDomain group domain pool taints reqs) (default ∅ (g !! kr.1)) (Values kr.2)]> g.

Definition poolDomains g (pool : string) np (its : list (InstanceType Q)) : option (gmap string TopologyDomainGroup) :=
  nodePoolRequirements ← nodePoolDomainRequirements np;
  requirements ← templateRequirements np;
  let insert := insertDomains pool (pl_Taints np) nodePoolRequirements in
  let g := foldl (λ g it, foldl insert g (gorange (Add requirements (ReqValues (it_Requirements it))))) g its in
  Some (foldl (λ g kr, if bool_decide (Operator kr.2 = OpIn) then insert g kr else g) g (gorange requirements)).

(** [nodePoolIndex], the last of a name *)
Definition poolIndex (nodePools : list PoolTemplate) : gmap string PoolTemplate := foldl (λ m np, <[pl_Name np := np]> m) ∅ nodePools.

(** A node pool that is not listed is a nil pointer. *)
Definition buildDomainGroups (nodePools : list PoolTemplate) (instanceTypes : gmap string (list (InstanceType Q)))
    : option (gmap string TopologyDomainGroup) :=
  foldl (λ acc pi, g ← acc; np ← poolIndex nodePools !! pi.1; poolDomains g pi.1 np pi.2) (Some ∅) (gorange instanceTypes).
End domain_groups.

(** ** The topology *)

(** Goes on after an error, from where it was, and reports it at the end. *)
Definition keepGoing {E A B} (m : outcome E A) (otherwise : A) (k : A → outcome E B) : outcome E B :=
  match m with
  | Panic => Panic
  | Done a => k a
  | Fail e => match k otherwise with Panic => Panic | _ => Fail e end
  end.

Inductive PreferencePolicy := PreferencePolicyIgnore | PreferencePolicyRespect.

#[export] Instance PreferencePolicy_eq_dec : EqDecision PreferencePolicy.
Proof. solve_decision. Defined.

#[export] Instance TopologyType_countable : Countable TopologyType.
Proof.
  refine (inj_countable' (λ t, match t with TopologyTypeSpread => 0%nat | TopologyTypePodAffinity => 1%nat | TopologyTypePodAntiAffinity => 2%nat end)
    (λ n, match n with 0%nat => TopologyTypeSpread | 1%nat => TopologyTypePodAffinity | _ => TopologyTypePodAntiAffinity end) _). by intros [].
Defined.

(** What is read from the API server: the pods of a namespace that a selector
    matches, a node, and the namespaces a selector matches. *)
Record TopologyReads (Q : Type) := mkTopologyReads {
  tr_pods : string → (gmap string string → bool) → option (list Pod);
  tr_node : string → GetResult (Node Q);
  tr_namespaces : (gmap string string → bool) → option (list string);
}.
Arguments mkTopologyReads {Q}.
Arguments tr_pods {Q}.
Arguments tr_node {Q}.
Arguments tr_namespaces {Q}.

Section build.
Context {LT : LabelTables} {TL : TaintLib} {SO : SelectorOps} {GR : GoRange} {GS : GoSort} {NI : NetIP} {Q : Type}
  (* [TopologyGroup.Hash]: of the key, the type, the namespaces, the skew, the node
     filter and the selector *)
  (Hash : string * TopologyType * gset string * Z * TopologyNodeFilter * option LabelSelector → Z)
  (policy : PreferencePolicy) (domainGroups : gmap string TopologyDomainGroup) (reads : TopologyReads Q)
  (stateNodes : list (StateNode Q)) (excludedPods : gset string).
Implicit Types (t : Topology) (p : Pod) (tg : TopologyGroup) (raw : option LabelSelector).

Abbreviation build := (outcome ()).

Definition hashOf tg raw : Z := Hash (tg_Key tg, tg_Type tg, namespaces tg, maxSkew tg, nodeFilter tg, raw).

Definition buildNamespaceList (namespace : string) (listed : list string) (selector : option LabelSelector) : build (gset string) :=
  match selector with
  | None => Done (match listed with [] => {[namespace]} | _ => list_to_set listed end)
  | Some _ =>
      match s ← asSelector selector; tr_namespaces reads s with
      | Some selected => Done (list_to_set selected ∪ list_to_set listed)
      | None => Fail ()
      end
  end.

(** *** Counting pods *)

Definition domainOfNode (key : string) (node : Node Q) : option string :=
  match n_Labels node !! key with
  | Some domain => Some domain
  | None => if String.eqb key LabelHostname then Some (n_Name node) else None
  end.

Definition podBefore (p q : Pod) : bool :=
  if negb (String.eqb (pod_NodeName p) (pod_NodeName q)) then String.ltb (pod_NodeName p) (pod_NodeName q)
  else if negb (String.eqb (pod_Namespace p) (pod_Namespace q)) then String.ltb (pod_Namespace p) (pod_Namespace q)
  else String.ltb (pod_Name p) (pod_Name q).

(** The node of the pod with its requirements, which may be that of the pod before;
    [None] an error. *)
Definition nodeOfPod (previous : option (Node Q * Requirements)) p : option (option (Node Q * Requirements)) :=
  let read :=
    match tr_node reads (pod_NodeName p) with
    | Found node => Some (Some (node, NewLabelRequirements (n_Labels node)))
    | NotFound => Some None
    | GetError => None
    end in
  match previous with
  | Some (node, _) => if String.eqb (n_Name node) (pod_NodeName p) then Some previous else read
  | None => read
  end.

Fixpoint scanPods tg (previous : option (Node Q * Requirements)) (pods : list Pod) : option (list (string * string)) :=
  match pods with
  | [] => Some []
  | p :: pods =>
      if IgnoredForTopology p then scanPods tg previous pods
      else
        match nodeOfPod previous p with
        | None => None
        | Some None => scanPods tg previous pods
        | Some (Some (node, requirements)) =>
            let counted :=
              match domainOfNode (tg_Key tg) node with
              | Some domain => if Matches (nodeFilter tg) (n_Taints node) requirements ∅ then [(pod_UID p, domain)] else []
              | None => []
              end in
            app counted <$> scanPods tg (Some (node, requirements)) pods
        end
  end.

Definition scanTopologyPodDomains tg raw : build (list (string * string)) :=
  match lists ← mapM (λ ns, tr_pods reads ns (TopologyListOptions raw)) (sets_List (namespaces tg)); scanPods tg None (gosort podBefore (concat lists)) with
  | Some records => Done records
  | None => Fail ()
  end.

(** An empty domain of a node that is there. *)
Definition registerNode tg (n : StateNode Q) : TopologyGroup :=
  match sn_Node n with
  | None => tg
  | Some node =>
      if negb (Matches (nodeFilter tg) (n_Taints node) (NewLabelRequirements (n_Labels node)) ∅) then tg
      else match Labels n ≫= lookup (tg_Key tg) with Some domain => Register1 tg domain | None => tg end
  end.

Definition replay tg (record : string * string) : TopologyGroup :=
  if bool_decide (record.1 ∈ excludedPods) then tg else Record1 tg record.2.

Definition countDomains tg raw : build TopologyGroup :=
  let tg := foldl registerNode tg stateNodes in
  records ← scanTopologyPodDomains tg raw;
  Done (foldl replay tg records).

(** *** The groups of a pod *)

Definition domainGroupOf (key : string) : TopologyDomainGroup := default ∅ (domainGroups !! key).

(** The selector with the labels of the pod that it is to match. *)
Definition foldedSelector p (tsc : TopologySpreadConstraint) : option LabelSelector :=
  match ts_LabelSelector tsc with
  | None => None
  | Some s =>
      Some (mkLabelSelector (ls_MatchLabels s) (ls_MatchExpressions s ++
        omap (λ key, value ← pod_Labels p !! key; Some (mkLabelSelectorRequirement key "In" [value])) (ts_MatchLabelKeys tsc)))
  end.

Definition spreadGroup p (tsc : TopologySpreadConstraint) : build (TopologyGroup * option LabelSelector) :=
  let raw := foldedSelector p tsc in
  tg ← orPanic (NewTopologyGroup TopologyTypeSpread (ts_TopologyKey tsc) p {[pod_Namespace p]} (asSelector raw) (ts_MaxSkew tsc) (ts_MinDomains tsc)
    (ts_NodeTaintsPolicy tsc) (ts_NodeAffinityPolicy tsc) (domainGroupOf (ts_TopologyKey tsc)));
  Done (tg, raw).

Fixpoint mapO {A B} (f : A → build B) (l : list A) : build (list B) :=
  match l with
  | [] => Done []
  | x :: l => y ← f x; ys ← mapO f l; Done (y :: ys)
  end.

Definition newForTopologies p : build (list (TopologyGroup * option LabelSelector)) :=
  mapO (spreadGroup p) (List.filter (λ tsc,
    negb (bool_decide (policy = PreferencePolicyIgnore) && negb (bool_decide (ts_WhenUnsatisfiable tsc = DoNotSchedule)))) (pod_TopologySpreadConstraints p)).

Definition termsOf (affinity : PodAffinity) : list PodAffinityTerm :=
  paff_Required affinity ++ (if bool_decide (policy = PreferencePolicyRespect) then wp_Term <$> paff_Preferred affinity else []).

Definition affinityTerms p : gmap TopologyType (list PodAffinityTerm) :=
  match pod_Affinity p with
  | None => ∅
  | Some affinity =>
      let m := match af_PodAffinity affinity with Some a => {[TopologyTypePodAffinity := termsOf a]} | None => ∅ end in
      match af_PodAntiAffinity affinity with Some a => <[TopologyTypePodAntiAffinity := termsOf a]> m | None => m end
  end.

(** A group of a pod's affinity or anti-affinity term. *)
Definition affinityGroup p (type : TopologyType) (term : PodAffinityTerm) (namespaces : gset string) : option TopologyGroup :=
  NewTopologyGroup type (pa_TopologyKey term) p namespaces (asSelector (pa_LabelSelector term)) MaxInt32 None None None (domainGroupOf (pa_TopologyKey term)).

Definition termGroup p (type : TopologyType) (term : PodAffinityTerm) : build (TopologyGroup * option LabelSelector) :=
  namespaces ← buildNamespaceList (pod_Namespace p) (pa_Namespaces term) (pa_NamespaceSelector term);
  tg ← orPanic (affinityGroup p type term namespaces);
  Done (tg, pa_LabelSelector term).

Definition newForAffinities p : build (list (TopologyGroup * option LabelSelector)) :=
  groups ← mapO (λ tt, mapO (termGroup p tt.1) tt.2) (gorange (affinityTerms p));
  Done (concat groups).

(** *** Inverse anti-affinity *)

Definition requiredAntiAffinity p : list PodAffinityTerm :=
  match pod_Affinity p ≫= af_PodAntiAffinity with Some a => paff_Required a | None => [] end.

Definition inverseGroupKeyAndNamespaces p (term : PodAffinityTerm) : build (string * gset string) :=
  namespaces ← buildNamespaceList (pod_Namespace p) (pa_Namespaces term) (pa_NamespaceSelector term);
  Done (inverseTopologyGroupKey (pa_TopologyKey term) namespaces (pa_LabelSelector term), namespaces).

Fixpoint updateInverseAntiAffinity (groups : gmap string TopologyGroup) p (domains : gmap string string) (terms : list PodAffinityTerm)
    : build (gmap string TopologyGroup) :=
  match terms with
  | [] => Done groups
  | term :: terms =>
      '(groupKey, namespaces) ← inverseGroupKeyAndNamespaces p term;
      tg ← match groups !! groupKey with
           | Some tg => Done tg
           | None => orPanic (affinityGroup p TopologyTypePodAntiAffinity term namespaces)
           end;
      let tg := match domains !! tg_Key tg with Some domain => Record1 tg domain | None => tg end in
      updateInverseAntiAffinity (<[groupKey := AddOwner tg (pod_UID p)]> groups) p domains terms
  end.

(** The pods with anti-affinity and the nodes they run on. *)
Fixpoint updateInverseAffinities (groups : gmap string TopologyGroup) (tracked : list (Pod * Node Q)) : build (gmap string TopologyGroup) :=
  match tracked with
  | [] => Done groups
  | (p, node) :: tracked =>
      if bool_decide (pod_UID p ∈ excludedPods) then updateInverseAffinities groups tracked
      else
        keepGoing (updateInverseAntiAffinity groups p (n_Labels node) (requiredAntiAffinity p)) groups
          (λ groups, updateInverseAffinities groups tracked)
  end.

(** *** Tracking the pods to schedule *)

Fixpoint trackGroups (groups : gmap Z TopologyGroup) (uid : string) (l : list (TopologyGroup * option LabelSelector)) : build (gmap Z TopologyGroup) :=
  match l with
  | [] => Done groups
  | (tg, raw) :: l =>
      let hash := hashOf tg raw in
      tg ← match groups !! hash with Some existing => Done existing | None => countDomains tg raw end;
      trackGroups (<[hash := AddOwner tg uid]> groups) uid l
  end.

Definition tracksInverse p : bool :=
  match policy with PreferencePolicyIgnore => HasRequiredPodAntiAffinity p | PreferencePolicyRespect => HasPodAntiAffinity p end.

Definition groupsOf p : build (list (TopologyGroup * option LabelSelector)) :=
  topologies ← newForTopologies p;
  affinities ← newForAffinities p;
  Done (topologies ++ affinities).

Definition Update t p : build Topology :=
  let groups := (λ tg, RemoveOwner tg (pod_UID p)) <$> topologyGroups t in
  inverse ← (if tracksInverse p then updateInverseAntiAffinity (inverseTopologyGroups t) p ∅ (requiredAntiAffinity p) else Done (inverseTopologyGroups t));
  l ← groupsOf p;
  groups ← trackGroups groups (pod_UID p) l;
  Done (mkTopology groups inverse).

Fixpoint updateAll t (pods : list Pod) : build Topology :=
  match pods with
  | [] => Done t
  | p :: pods => keepGoing (Update t p) t (λ t, updateAll t pods)
  end.
End build.

Definition NewTopology {LT : LabelTables} {TL : TaintLib} {SO : SelectorOps} {GR : GoRange} {GS : GoSort} {NI : NetIP} {Q : Type}
    (Hash : string * TopologyType * gset string * Z * TopologyNodeFilter * option LabelSelector → Z)
    (policy : PreferencePolicy) (reads : TopologyReads Q) (cluster : Cluster Q) (stateNodes : list (StateNode Q))
    (nodePools : list PoolTemplate) (instanceTypes : gmap string (list (InstanceType Q))) (pods : list Pod) : outcome () Topology :=
  domainGroups ← orPanic (buildDomainGroups nodePools instanceTypes);
  let excludedPods : gset string := list_to_set (pod_UID <$> pods) in
  keepGoing (updateInverseAffinities domainGroups reads excludedPods ∅ (podsWithAntiAffinity cluster)) ∅
    (λ inverse, updateAll Hash policy domainGroups reads stateNodes excludedPods (mkTopology ∅ inverse) pods).

(** * Theory *)

Lemma keepGoing_Done {E A B} (m : outcome E A) otherwise (k : A → outcome E B) b :
  keepGoing m otherwise k = Done b ↔ ∃ a, m = Done a ∧ k a = Done b.
Proof.
  destruct m as [|e|a]; cbn [keepGoing]; split; [done|by intros (? & ? & _)| |by intros (? & ? & _)|by exists a|by intros (? & [= <-] & ?)].
  destruct (k otherwise); done.
Qed.

(** ** The domains of node pools *)

Section domain_theory.
Context {LT : LabelTables} {GR : GoRange} {Q : Type}.
Implicit Types (g : gmap string TopologyDomainGroup) (np : PoolTemplate) (src : TopologyDomainSource).

(** The source of a domain in a node pool. *)
Definition sourceOf g (key domain pool : string) : option TopologyDomainSource :=
  group ← g !! key; pools ← group !! domain; pools !! pool.

Lemma sourceOf_insert pool taints reqs g kr key domain pool' :
  sourceOf (insertDomains pool taints reqs g kr) key domain pool' =
    if bool_decide (key = kr.1 ∧ domain ∈ Values kr.2 ∧ pool' = pool) then Some (mkSource taints reqs) else sourceOf g key domain pool'.
Proof.
  assert (∀ ds (group : TopologyDomainGroup) d p,
    ((foldl (λ group domain, InsertDomain group domain pool taints reqs) group ds) !! d ≫= lookup p) =
      if bool_decide (d ∈ ds ∧ p = pool) then Some (mkSource taints reqs) else (group !! d ≫= lookup p)) as Hfold.
  { induction ds as [|x ds IH] using rev_ind; intros group d p; [by rewrite bool_decide_eq_false_2 by (intros [?%not_elem_of_nil _]; done)|].
    rewrite foldl_app. cbn [foldl]. unfold InsertDomain at 1. unfold TopologyDomainGroup in *. rewrite lookup_insert. destruct (decide (x = d)) as [->|Hne].
    - cbn [mbind option_bind]. rewrite lookup_insert. destruct (decide (pool = p)) as [->|Hp].
      + by rewrite bool_decide_eq_true_2 by set_solver.
      + rewrite bool_decide_eq_false_2 by (intros [_ ->]; done). specialize (IH group d p).
        rewrite bool_decide_eq_false_2 in IH by (intros [_ ->]; done). rewrite <- IH. destruct (foldl _ _ _ !! d); [done|]. cbn [default mbind option_bind]. apply lookup_empty.
    - rewrite IH. case_bool_decide as H1; case_bool_decide as H2; [done|set_solver|set_solver|done]. }
  unfold sourceOf, insertDomains. rewrite lookup_insert. destruct (decide (kr.1 = key)) as [<-|Hne].
  - cbn [mbind option_bind]. transitivity (foldl (λ group domain, InsertDomain group domain pool taints reqs) (default ∅ (g !! kr.1)) (Values kr.2) !! domain ≫= lookup pool').
    { by destruct (_ !! domain). }
    rewrite Hfold. case_bool_decide as H1; case_bool_decide as H2; [done|naive_solver|naive_solver|]. destruct (g !! kr.1); cbn; [by destruct (_ !! domain)|reflexivity].
  - rewrite bool_decide_eq_false_2 by (intros [? _]; done). done.
Qed.

(** The node pool of this name supplies exactly the pairs of key and domain of
    [offers], all from this source, and the sources of others stay. *)
Record adds_pool (pool : string) src (offers : string → string → Prop) g g' : Prop := {
  ap_only : ∀ key domain pool' s, sourceOf g' key domain pool' = Some s → (pool' = pool ∧ offers key domain ∧ s = src) ∨ sourceOf g key domain pool' = Some s;
  ap_all : ∀ key domain, offers key domain → sourceOf g' key domain pool = Some src;
  ap_keeps : ∀ key domain pool' s, sourceOf g key domain pool' = Some s →
    sourceOf g' key domain pool' = Some s ∨ (pool' = pool ∧ sourceOf g' key domain pool' = Some src);
}.

Lemma adds_nothing pool src g : adds_pool pool src (λ _ _, False) g g.
Proof. split; [by right|done|by left]. Qed.

Lemma adds_more pool src offers offers' offers'' g g' g'' :
  adds_pool pool src offers g g' → adds_pool pool src offers' g' g'' → (∀ key d, offers'' key d ↔ offers key d ∨ offers' key d) → adds_pool pool src offers'' g g''.
Proof.
  intros [Ho Ha Hk] [Ho' Ha' Hk'] Hor. split.
  - intros key d p s [(-> & ? & ->)|Hs]%Ho'; [left; split_and!; [done|by apply Hor; right|done]|].
    apply Ho in Hs as [(-> & ? & ->)|?]; [left; split_and!; [done|by apply Hor; left|done]|by right].
  - intros key d [H1|H1]%Hor; [|by apply Ha']. apply Ha in H1. by destruct (Hk' _ _ _ _ H1) as [?|[_ ?]].
  - intros key d p s Hs. destruct (Hk _ _ _ _ Hs) as [Hs'|[-> Hs']]; [by apply Hk'|]. right. split; [done|]. by destruct (Hk' _ _ _ _ Hs') as [?|[_ ?]].
Qed.

Lemma insertDomains_adds pool taints reqs g kr :
  adds_pool pool (mkSource taints reqs) (λ key d, key = kr.1 ∧ d ∈ Values kr.2) g (insertDomains pool taints reqs g kr).
Proof.
  split; intros key d.
  - intros p s. rewrite sourceOf_insert. case_bool_decide as Hc; [|by right]. destruct Hc as (-> & ? & ->). intros [= <-]. by left.
  - intros [-> Hd]. rewrite sourceOf_insert. by rewrite bool_decide_eq_true_2.
  - intros p s Hs. rewrite sourceOf_insert. case_bool_decide as Hc; [|by left]. right. by destruct Hc as (_ & _ & ->).
Qed.

(** A loop that adds what each element offers. *)
Lemma foldl_adds {A} pool src (f : gmap string TopologyDomainGroup → A → gmap string TopologyDomainGroup) (offers : A → string → string → Prop) l g :
  (∀ x g, x ∈ l → adds_pool pool src (offers x) g (f g x)) → adds_pool pool src (λ key d, ∃ x, x ∈ l ∧ offers x key d) g (foldl f g l).
Proof.
  revert g. induction l as [|x l IH]; intros g Hf; cbn [foldl].
  - split; [by right|by intros key d (x & ?%not_elem_of_nil & _)|by left].
  - eapply adds_more; [apply Hf; left|apply IH; intros; apply Hf; by right|]. intros key d. split.
    + intros (y & [->|Hy]%elem_of_cons & Ho); [by left|right; by exists y].
    + intros [Ho|(y & Hy & Ho)]; [exists x|exists y]; split; try done; [left|by right].
Qed.

(** The values of the requirement on a key. *)
Definition hasValue (requirements : Requirements) (key domain : string) : Prop := ∃ r, requirements !! key = Some r ∧ domain ∈ Values r.

(** What a node pool offers: the values of its requirements with those of one of its
    instance types, and of its requirements alone where they list values. *)
Definition poolOffers np (its : list (InstanceType Q)) (requirements : Requirements) (key domain : string) : Prop :=
  (∃ it, it ∈ its ∧ hasValue (Add requirements (ReqValues (it_Requirements it))) key domain) ∨
  (∃ r, requirements !! key = Some r ∧ Operator r = OpIn ∧ domain ∈ Values r).

Lemma ranged_adds pool taints reqs g (requirements : Requirements) :
  adds_pool pool (mkSource taints reqs) (hasValue requirements) g (foldl (insertDomains pool taints reqs) g (gorange requirements)).
Proof.
  eapply adds_more; [apply adds_nothing|apply foldl_adds; intros; apply insertDomains_adds|]. intros key d. split.
  - intros (r & Hr & Hd). right. exists (key, r). split; [by apply elem_of_gorange|done].
  - intros [[]|([k r] & Hr & -> & Hd)]. apply elem_of_gorange in Hr. by exists r.
Qed.

Lemma poolDomains_adds g pool np its g' :
  poolDomains g pool np its = Some g' → ∃ reqs requirements, nodePoolDomainRequirements np = Some reqs ∧ templateRequirements np = Some requirements ∧
    adds_pool pool (mkSource (pl_Taints np) reqs) (poolOffers np its requirements) g g'.
Proof.
  intros (reqs & Hreqs & Hrun)%bind_Some. apply bind_Some in Hrun as (requirements & Htemplate & Hrun). injection Hrun as <-.
  exists reqs, requirements. split_and!; [done|done|]. eapply (adds_more _ _ (λ key d, ∃ it, it ∈ its ∧ hasValue (Add requirements (ReqValues (it_Requirements it))) key d)).
  2:{ apply (foldl_adds _ _ _ (λ kr key d, Operator kr.2 = OpIn ∧ key = kr.1 ∧ d ∈ Values kr.2)). intros kr g0 _. case_bool_decide as Hin.
    - eapply adds_more; [apply adds_nothing|apply insertDomains_adds|]. naive_solver.
    - eapply adds_more; [apply adds_nothing|apply adds_nothing|]. naive_solver. }
  - apply (foldl_adds _ _ _ (λ it, hasValue (Add requirements (ReqValues (it_Requirements it))))). intros it g0 _. apply ranged_adds.
  - intros key d. unfold poolOffers. apply or_iff_compat_l. split.
    + intros (r & Hr & Hin & Hd). exists (key, r). split; [by apply elem_of_gorange|done].
    + intros ([k r] & Hr & Hin & -> & Hd). apply elem_of_gorange in Hr. by exists r.
Qed.

(** The domains known before any node is looked at are exactly those that node pools
    offer: a node pool is a source of a domain when one of its instance types, or
    its template, has the value, and the source carries the taints of the pool and
    the requirements every node of it meets. *)
Theorem domain_groups_exact nodePools (instanceTypes : gmap string (list (InstanceType Q))) g
    (Hrun : buildDomainGroups nodePools instanceTypes = Some g) key domain pool src :
  sourceOf g key domain pool = Some src ↔
  ∃ its np reqs requirements, instanceTypes !! pool = Some its ∧ poolIndex nodePools !! pool = Some np ∧
    nodePoolDomainRequirements np = Some reqs ∧ templateRequirements np = Some requirements ∧
    src = mkSource (pl_Taints np) reqs ∧ poolOffers np its requirements key domain.
Proof.
  set (supplied (l : list (string * list (InstanceType Q))) pool key domain src := ∃ its np reqs requirements, (pool, its) ∈ l ∧ poolIndex nodePools !! pool = Some np ∧
    nodePoolDomainRequirements np = Some reqs ∧ templateRequirements np = Some requirements ∧ src = mkSource (pl_Taints np) reqs ∧ poolOffers np its requirements key domain).
  assert (∀ l g, NoDup l.*1 → foldl (λ acc pi, g ← acc; np ← poolIndex nodePools !! pi.1; poolDomains g pi.1 np pi.2) (Some ∅) l = Some g →
    ∀ key d pool src, sourceOf g key d pool = Some src ↔ supplied l pool key d src) as Hall.
  { induction l as [|[p its] l IH] using rev_ind.
    - intros g0 _ [= <-] k d p s. split; [done|]. by intros (? & ? & ? & ? & ?%not_elem_of_nil & _).
    - intros g0 Hnd. rewrite foldl_app. cbn [foldl]. intros (g1 & H1 & Hrun1)%bind_Some. apply bind_Some in Hrun1 as (np & Hnp & Hrun1). cbn [fst snd] in *.
      rewrite fmap_app in Hnd. apply NoDup_app in Hnd as (Hnd & Hfresh & _). specialize (IH _ Hnd H1).
      destruct (poolDomains_adds _ _ _ _ _ Hrun1) as (reqs & requirements & Hreqs & Htemplate & [Ho Ha Hk]). intros k d p' s. split.
      + intros [(-> & Hoff & ->)|Hs]%Ho.
        * exists its, np, reqs, requirements. split_and!; try done. set_solver.
        * apply IH in Hs as (its' & np' & r1 & r2 & Hin & ?). exists its', np', r1, r2. split; [set_solver|done].
      + intros (its' & np' & r1 & r2 & [Hin|Heq%list_elem_of_singleton]%elem_of_app & Hnp' & Hr1 & Hr2 & -> & Hoff).
        * assert (sourceOf g1 k d p' = Some (mkSource (pl_Taints np') r1)) as Hs by (apply IH; by exists its', np', r1, r2).
          destruct (Hk _ _ _ _ Hs) as [?|[-> _]]; [done|]. exfalso. apply (Hfresh p); [|set_solver]. apply list_elem_of_fmap. by exists (p, its').
        * injection Heq as -> ->. simplify_eq. by apply Ha. }
  assert (NoDup (gorange instanceTypes).*1) as Hnd by (rewrite gorange_perm; apply NoDup_fst_map_to_list).
  unfold buildDomainGroups in Hrun. rewrite (Hall _ _ Hnd Hrun). unfold supplied.
  split; intros (its & np & r1 & r2 & Hits & H2); exists its, np, r1, r2; (split; [by apply elem_of_gorange|done]).
Qed.
End domain_theory.

Lemma filter_none {A} (f : A → bool) (l : list A) : (∀ x, x ∈ l → f x = false) → List.filter f l = [].
Proof. induction l as [|x l IH]; intros Hf; [done|]. cbn [List.filter]. rewrite (Hf x) by left. apply IH. intros y Hy. apply Hf. by right. Qed.

(** ** Counting *)

Section counting.
Context {LT : LabelTables} {TL : TaintLib} {SO : SelectorOps} {GR : GoRange} {GS : GoSort} {NI : NetIP} {Q : Type}
  (reads : TopologyReads Q) (stateNodes : list (StateNode Q)) (excludedPods : gset string) (allPods : list Pod).
Implicit Types (tg : TopologyGroup) (raw : option LabelSelector) (p : Pod) (d : string).

(** The API server lists the pods of the cluster, and a node by its name. *)
Definition lists_pods : Prop := ∀ ns sel l, tr_pods reads ns sel = Some l →
  l ≡ₚ List.filter (λ p, String.eqb (pod_Namespace p) ns && sel (pod_Labels p)) allPods.
Definition names_nodes : Prop := ∀ name node, tr_node reads name = Found node → n_Name node = name.

(** The domain a pod counts in. *)
Definition recordOf tg p : option (string * string) :=
  if IgnoredForTopology p then None
  else match tr_node reads (pod_NodeName p) with
       | Found node => d ← domainOfNode (tg_Key tg) node;
           if Matches (nodeFilter tg) (n_Taints node) (NewLabelRequirements (n_Labels node)) ∅ then Some (pod_UID p, d) else None
       | _ => None
       end.

(** Looking the node up only when it changes makes no difference. *)
Lemma scanPods_spec tg previous pods records : names_nodes →
  (∀ node reqs, previous = Some (node, reqs) → tr_node reads (n_Name node) = Found node ∧ reqs = NewLabelRequirements (n_Labels node)) →
  scanPods reads tg previous pods = Some records → records = omap (recordOf tg) pods.
Proof.
  intros Hnames. revert previous records. induction pods as [|p pods IH]; intros previous records Hprev; cbn [scanPods]; [by intros [= <-]|].
  cbn [omap list_omap]. unfold recordOf at 1. destruct (IgnoredForTopology p); [by apply IH|].
  assert (∀ r, nodeOfPod reads previous p = Some r →
    match r with
    | Some (node, reqs) => tr_node reads (pod_NodeName p) = Found node ∧ reqs = NewLabelRequirements (n_Labels node)
    | None => tr_node reads (pod_NodeName p) = NotFound
    end) as Hnode.
  { intros r. unfold nodeOfPod. destruct previous as [[node reqs]|].
    - destruct (String.eqb_spec (n_Name node) (pod_NodeName p)) as [<-|_].
      + intros [= <-]. by apply Hprev.
      + destruct (tr_node reads (pod_NodeName p)) as [n| |]; [by intros [= <-]|by intros [= <-]|done].
    - destruct (tr_node reads (pod_NodeName p)) as [n| |]; [by intros [= <-]|by intros [= <-]|done]. }
  destruct (nodeOfPod reads previous p) as [[[node reqs]|]|]; [| |done]; specialize (Hnode _ eq_refl); cbn beta iota in Hnode.
  - destruct Hnode as [Hget ->]. intros (rest & Hrest & ->)%fmap_Some. rewrite Hget. apply IH in Hrest as ->.
    + destruct (domainOfNode (tg_Key tg) node) as [d|]; cbn [mbind option_bind]; [|done]. by destruct (Matches _ _ _ _).
    + intros n r [= <- <-]. split; [|done]. by rewrite (Hnames _ _ Hget).
  - rewrite Hnode. by apply IH.
Qed.

Lemma filter_split {A} (f g h : A → bool) (l : list A) :
  (∀ x, h x = f x || g x) → (∀ x, f x = true → g x = false) → List.filter h l ≡ₚ List.filter f l ++ List.filter g l.
Proof.
  intros Hh Hdis. induction l as [|x l IH]; [done|]. cbn [List.filter]. rewrite Hh. destruct (f x) eqn:Hf; cbn [orb].
  - rewrite (Hdis _ Hf). cbn [app]. by rewrite IH.
  - destruct (g x); [|done]. rewrite <- Permutation_middle. by rewrite IH.
Qed.

(** The pods of several namespaces. *)
Lemma listed_pods raw nss lists : lists_pods → NoDup nss → mapM (λ ns, tr_pods reads ns (TopologyListOptions raw)) nss = Some lists →
  concat lists ≡ₚ List.filter (λ p, bool_decide (pod_Namespace p ∈ nss) && TopologyListOptions raw (pod_Labels p)) allPods.
Proof.
  intros Hlists. revert lists. induction nss as [|ns nss IH]; intros lists Hnd.
  { intros [= <-]. cbn [concat]. induction allPods as [|p l IHl]; [done|]. cbn [List.filter]. by rewrite bool_decide_eq_false_2 by apply not_elem_of_nil. }
  apply NoDup_cons in Hnd as [Hns Hnd]. cbn [mapM]. intros (l & Hl & Hrest)%bind_Some. apply bind_Some in Hrest as (ls & Hls & Heq). injection Heq as <-.
  cbn [concat]. rewrite (IH _ Hnd Hls), (Hlists _ _ _ Hl). symmetry. apply filter_split.
  - intros p. rewrite <- andb_orb_distrib_l. f_equal. destruct (String.eqb_spec (pod_Namespace p) ns) as [->|Hne]; cbn [orb].
    + by rewrite bool_decide_eq_true_2 by left.
    + apply bool_decide_ext. rewrite elem_of_cons. naive_solver.
  - intros p [->%String.eqb_eq _]%andb_true_iff. by rewrite bool_decide_eq_false_2.
Qed.

(** What counting leaves of a group: all but the domains. *)
Definition counted_from tg tg' : Prop := tg' = with_domains tg (domains tg') (emptyDomains tg').

Lemma counted_refl tg : counted_from tg tg.
Proof. by destruct tg. Qed.

Lemma counted_trans tg tg' tg'' : counted_from tg tg' → counted_from tg' tg'' → counted_from tg tg''.
Proof. unfold counted_from. intros -> ->. done. Qed.

Lemma Register1_counted tg d : counted_from tg (Register1 tg d).
Proof. unfold Register1. destruct (domains tg !! d); [apply counted_refl|done]. Qed.

Lemma Register1_podsIn tg d d' : podsIn (Register1 tg d) d' = podsIn tg d'.
Proof.
  unfold Register1, podsIn. destruct (domains tg !! d) eqn:Hd; [done|]. cbn [domains with_domains]. rewrite lookup_insert.
  destruct (decide (d = d')) as [<-|]; [by rewrite Hd|done].
Qed.

Lemma registerNode_counted tg (n : StateNode Q) : counted_from tg (registerNode tg n).
Proof.
  unfold registerNode. destruct (sn_Node n); [|apply counted_refl]. destruct (negb _); [apply counted_refl|]. destruct (_ ≫= _); [apply Register1_counted|apply counted_refl].
Qed.

Lemma registerNodes_spec tg : counted_from tg (foldl registerNode tg stateNodes) ∧ (∀ d, podsIn (foldl registerNode tg stateNodes) d = podsIn tg d).
Proof.
  apply (foldl_inv (λ t, counted_from tg t ∧ ∀ d, podsIn t d = podsIn tg d)); [|split; [apply counted_refl|done]]. intros t n [Ht Hd]. split.
  - eapply counted_trans; [exact Ht|apply registerNode_counted].
  - intros d. rewrite <- Hd. unfold registerNode. destruct (sn_Node n); [|done]. destruct (negb _); [done|]. destruct (_ ≫= _); [apply Register1_podsIn|done].
Qed.

Definition counts_record d (r : string * string) : bool := negb (bool_decide (r.1 ∈ excludedPods)) && String.eqb r.2 d.

Lemma replay_spec records tg :
  (∀ d, 0 <= podsIn tg d) → (∀ d, podsIn tg d + Z.of_nat (length records) <= MaxInt32) →
  counted_from tg (foldl (replay excludedPods) tg records) ∧
  ∀ d, podsIn (foldl (replay excludedPods) tg records) d = podsIn tg d + Z.of_nat (length (List.filter (counts_record d) records)).
Proof.
  revert tg. induction records as [|r records IH]; intros tg Hpos Hmax; cbn [foldl List.filter]; [split; [apply counted_refl|intros; cbn; lia]|].
  unfold replay at 2 4. unfold counts_record at 1. destruct (bool_decide (r.1 ∈ excludedPods)); cbn [negb andb].
  { apply IH; [done|]. intros d. specialize (Hmax d). cbn [length] in Hmax. lia. }
  assert (∀ d, podsIn (Record1 tg r.2) d = podsIn tg d + if String.eqb r.2 d then 1 else 0) as Hrec.
  { intros d. unfold podsIn, Record1. cbn [domains with_domains]. rewrite lookup_insert. destruct (String.eqb_spec r.2 d) as [<-|Hne].
    - rewrite decide_True by done. cbn [default]. specialize (Hpos r.2). specialize (Hmax r.2). unfold podsIn in Hpos, Hmax. cbn [length] in Hmax.
      set (c := default 0 (domains tg !! r.2)) in *. change (wrap32 (c + 1) = c + 1). apply wrap32_id. int_lia.
    - rewrite decide_False by done. lia. }
  destruct (IH (Record1 tg r.2)) as [Hc Hd].
  - intros d. rewrite Hrec. specialize (Hpos d). destruct (String.eqb r.2 d); lia.
  - intros d. rewrite Hrec. specialize (Hmax d). cbn [length] in Hmax. destruct (String.eqb r.2 d); lia.
  - split; [exact Hc|]. intros d. rewrite Hd, Hrec. destruct (String.eqb r.2 d); cbn [length]; lia.
Qed.

Lemma replay_counted records tg : counted_from tg (foldl (replay excludedPods) tg records).
Proof.
  apply (foldl_inv (counted_from tg)); [|apply counted_refl]. intros t r Ht. eapply counted_trans; [exact Ht|]. unfold replay. case_bool_decide; [apply counted_refl|done].
Qed.

(** Counting leaves the owners. *)
Lemma count_owners tg raw tg' : countDomains reads stateNodes excludedPods tg raw = Done tg' → owners tg' = owners tg.
Proof.
  unfold countDomains. cbv zeta. intros (records & _ & [= <-])%outcome_bind_Done.
  rewrite (replay_counted records _). cbn [owners with_domains]. destruct (registerNodes_spec tg) as [-> _]. done.
Qed.

(** The pods of the cluster that count in a domain: those the namespaces and the
    selector name, that run, are not to be scheduled, and are on a node of the
    domain that the rule admits. *)
Definition countedIn tg raw d p : bool :=
  bool_decide (pod_Namespace p ∈ namespaces tg) && TopologyListOptions raw (pod_Labels p) &&
  match recordOf tg p with Some r => counts_record d r | None => false end.

Definition podsCounted tg raw d : Z := Z.of_nat (length (List.filter (countedIn tg raw d) allPods)).

Lemma length_filter_omap {A B} (f : A → option B) (g : B → bool) (l : list A) :
  length (List.filter g (omap f l)) = length (List.filter (λ x, match f x with Some y => g y | None => false end) l).
Proof. induction l as [|x l IH]; [done|]. cbn [omap list_omap List.filter]. destruct (f x) as [y|]; [|done]. cbn [List.filter]. destruct (g y); cbn [length]; by rewrite IH. Qed.

Lemma filter_filter {A} (f g : A → bool) (l : list A) : List.filter g (List.filter f l) = List.filter (λ x, f x && g x) l.
Proof. induction l as [|x l IH]; [done|]. cbn [List.filter]. destruct (f x); cbn [List.filter andb]; [|done]. by rewrite IH. Qed.

Lemma length_omap_le {A B} (f : A → option B) (l : list A) : (length (omap f l) <= length l)%nat.
Proof. induction l as [|x l IH]; [done|]. cbn [omap list_omap length]. destruct (f x); cbn [length]; lia. Qed.

Lemma countDomains_spec tg raw tg' : lists_pods → names_nodes → Z.of_nat (length allPods) <= MaxInt32 → (∀ d, podsIn tg d = 0) →
  countDomains reads stateNodes excludedPods tg raw = Done tg' →
  counted_from tg tg' ∧ ∀ d, podsIn tg' d = podsCounted tg raw d.
Proof.
  intros Hlists Hnames Hfew Hzero. unfold countDomains. cbv zeta. destruct (registerNodes_spec tg) as [Hreg Hregd].
  set (tg1 := foldl registerNode tg stateNodes) in *. intros (records & Hscan & Hrun)%outcome_bind_Done. injection Hrun as <-.
  assert (namespaces tg1 = namespaces tg ∧ ∀ p, recordOf tg1 p = recordOf tg p) as [Hns Hrec] by (rewrite Hreg; done).
  unfold scanTopologyPodDomains in Hscan. rewrite Hns in Hscan.
  destruct (lists ← _; _) as [rs|] eqn:Hs; [|done]. injection Hscan as ->. apply bind_Some in Hs as (lists & Hl & Hs).
  apply scanPods_spec in Hs as ->; [|done|done].
  assert (NoDup (sets_List (namespaces tg))) as Hnd by (unfold sets_List; rewrite merge_sort_Permutation; apply NoDup_elements).
  pose proof (listed_pods _ _ _ Hlists Hnd Hl) as Hall.
  assert (length (omap (recordOf tg1) (gosort podBefore (concat lists))) <= length allPods)%nat as Hlen.
  { etrans; [apply length_omap_le|]. rewrite (gosort_perm podBefore), Hall. apply List.filter_length_le. }
  destruct (replay_spec (omap (recordOf tg1) (gosort podBefore (concat lists))) tg1) as [Hc Hd].
  - intros d. rewrite Hregd, Hzero. done.
  - intros d. rewrite Hregd, Hzero. lia.
  - split; [by eapply counted_trans|]. intros d. rewrite Hd, Hregd, Hzero, Z.add_0_l. unfold podsCounted. f_equal. rewrite length_filter_omap.
    rewrite (filter_perm _ _ _ (gosort_perm podBefore _)), (filter_perm _ _ _ Hall), filter_filter. f_equal. apply filter_ext. intros p. unfold countedIn.
    rewrite Hrec. f_equal. f_equal. apply bool_decide_ext. unfold sets_List. rewrite merge_sort_Permutation. apply elem_of_elements.
Qed.
End counting.

(** ** Tracking *)

Section tracking.
Context {LT : LabelTables} {TL : TaintLib} {SO : SelectorOps} {GR : GoRange} {GS : GoSort} {NI : NetIP} {Q : Type}
  (Hash : string * TopologyType * gset string * Z * TopologyNodeFilter * option LabelSelector → Z)
  (policy : PreferencePolicy) (domainGroups : gmap string TopologyDomainGroup) (reads : TopologyReads Q)
  (stateNodes : list (StateNode Q)) (excludedPods : gset string).
Implicit Types (t : Topology) (p q : Pod) (tg g cg : TopologyGroup) (raw : option LabelSelector).

#[local] Abbreviation rule := (TopologyGroup * option LabelSelector)%type.
#[local] Abbreviation groupsOf := (groupsOf policy domainGroups reads).
#[local] Abbreviation count := (countDomains reads stateNodes excludedPods).
#[local] Abbreviation key_of := (λ r : rule, hashOf Hash r.1 r.2).
#[local] Abbreviation track := (trackGroups Hash reads stateNodes excludedPods).

(** The rule is one of the pod. *)
Definition has_rule p (r : rule) : Prop := ∃ l, groupsOf p = Done l ∧ r ∈ l.

Lemma mapO_elem {A B} (f : A → outcome () B) l ys y : mapO f l = Done ys → y ∈ ys → ∃ x, x ∈ l ∧ f x = Done y.
Proof.
  revert ys. induction l as [|x l IH]; intros ys; cbn [mapO]; [by intros [= <-] ?%not_elem_of_nil|].
  intros (y' & Hy' & Hrun)%outcome_bind_Done. apply outcome_bind_Done in Hrun as (ys' & Hys' & Heq). injection Heq as <-.
  intros [->|Hin]%elem_of_cons; [exists x; split; [left|done]|]. destruct (IH _ Hys' Hin) as (x' & ? & ?). exists x'. split; [by right|done].
Qed.

(** A new group counts nothing and belongs to nobody. *)
Lemma new_group_fresh ty key pod nss sel skew mind tp ap dg g :
  NewTopologyGroup ty key pod nss sel skew mind tp ap dg = Some g → (∀ d, podsIn g d = 0) ∧ owners g = ∅.
Proof.
  intros Hnew. split.
  - intros d. destruct (NewTopologyGroup_inv _ _ _ _ _ _ _ _ _ _ _ Hnew) as [_ Hc]. unfold podsIn. destruct (domains g !! d) as [c|] eqn:Hd; [|done].
    specialize (Hc _ _ Hd). cbn. lia.
  - unfold NewTopologyGroup in Hnew. apply bind_Some in Hnew as (nf & _ & Hnew). destruct (ForEachDomain _ _ _ _ _). by injection Hnew as <-.
Qed.

Lemma has_rule_fresh p g raw : has_rule p (g, raw) → (∀ d, podsIn g d = 0) ∧ owners g = ∅.
Proof.
  intros (l & Hl & Hin). apply outcome_bind_Done in Hl as (tops & Htops & Hl). apply outcome_bind_Done in Hl as (affs & Haffs & Heq). injection Heq as <-.
  apply elem_of_app in Hin as [Hin|Hin].
  - destruct (mapO_elem _ _ _ _ Htops Hin) as (tsc & _ & Hrun). apply outcome_bind_Done in Hrun as (g' & Hg & Heq). injection Heq as <- <-.
    apply orPanic_Done in Hg. by eapply new_group_fresh.
  - apply outcome_bind_Done in Haffs as (groups & Hgroups & Heq). injection Heq as <-. apply list_elem_of_In, in_concat in Hin as (gs & Hgs & Hin).
    destruct (mapO_elem _ _ _ _ Hgroups (proj2 (list_elem_of_In _ _) Hgs)) as (tt & _ & Hrun).
    destruct (mapO_elem _ _ _ _ Hrun (proj2 (list_elem_of_In _ _) Hin)) as (term & _ & Hterm).
    apply outcome_bind_Done in Hterm as (nss & _ & Hterm). apply outcome_bind_Done in Hterm as (g' & Hg & Heq). injection Heq as <- <-.
    apply orPanic_Done in Hg. by eapply new_group_fresh.
Qed.

(** The groups that are there were counted for a rule of one of these pods; they are
    owned by those of the pods with a rule of their hash. *)
Record tracks (ps : list Pod) (groups : gmap Z TopologyGroup) : Prop := {
  tk_counted : ∀ h tg, groups !! h = Some tg →
    ∃ q g raw cg, q ∈ ps ∧ has_rule q (g, raw) ∧ hashOf Hash g raw = h ∧ count g raw = Done cg ∧ tg = with_owners cg (owners tg);
  tk_owned : ∀ q r, q ∈ ps → has_rule q r → ∃ tg, groups !! key_of r = Some tg ∧ pod_UID q ∈ owners tg;
  tk_owners : ∀ h tg u, groups !! h = Some tg → u ∈ owners tg → ∃ q r, q ∈ ps ∧ pod_UID q = u ∧ has_rule q r ∧ key_of r = h;
}.

Lemma with_owners_twice tg o o' : with_owners (with_owners tg o) o' = with_owners tg o'.
Proof. done. Qed.

(** One pod's rules; [done] are those before. *)
Lemma track_spec ps p l groups groups' :
  (∀ h tg, groups !! h = Some tg →
    ∃ q g raw cg, q ∈ p :: ps ∧ has_rule q (g, raw) ∧ hashOf Hash g raw = h ∧ count g raw = Done cg ∧ tg = with_owners cg (owners tg)) →
  (∀ r, r ∈ l → has_rule p r) → track groups (pod_UID p) l = Done groups' →
  (∀ h tg, groups' !! h = Some tg →
    ∃ q g raw cg, q ∈ p :: ps ∧ has_rule q (g, raw) ∧ hashOf Hash g raw = h ∧ count g raw = Done cg ∧ tg = with_owners cg (owners tg)) ∧
  (∀ h tg, groups !! h = Some tg → ∃ tg', groups' !! h = Some tg' ∧ owners tg ⊆ owners tg') ∧
  (∀ r, r ∈ l → ∃ tg, groups' !! key_of r = Some tg ∧ pod_UID p ∈ owners tg) ∧
  (∀ h tg' u, groups' !! h = Some tg' → u ∈ owners tg' → (∃ tg, groups !! h = Some tg ∧ u ∈ owners tg) ∨ u = pod_UID p ∧ ∃ r, r ∈ l ∧ key_of r = h).
Proof.
  revert groups. induction l as [|[g raw] l IH]; intros groups Hinv Hl; cbn [trackGroups].
  { intros [= <-]. split_and!; [done|intros h tg Hh; by exists tg|by intros r ?%not_elem_of_nil|intros h tg u Hh Hu; left; by exists tg]. }
  intros (tg & Htg & Hrun)%outcome_bind_Done. assert (has_rule p (g, raw)) as Hrule by (apply Hl; left).
  assert (∃ q g0 raw0 cg, q ∈ p :: ps ∧ has_rule q (g0, raw0) ∧ hashOf Hash g0 raw0 = hashOf Hash g raw ∧ count g0 raw0 = Done cg ∧ tg = with_owners cg (owners tg)) as Hfrom.
  { destruct (groups !! hashOf Hash g raw) as [existing|] eqn:He; [injection Htg as <-; by apply Hinv|].
    exists p, g, raw, tg. split_and!; [left|done|done|done|by destruct tg]. }
  apply IH in Hrun as (H1 & H2 & H3 & H4).
  - split_and!; [done| | |].
    + intros h tg0 Hh. destruct (decide (hashOf Hash g raw = h)) as [<-|Hne].
      * rewrite Hh in Htg. injection Htg as <-. destruct (H2 (hashOf Hash g raw) (AddOwner tg0 (pod_UID p))) as (tg' & Hg & Hsub); [by rewrite lookup_insert_eq|].
        exists tg'. split; [done|]. cbn in Hsub. set_solver.
      * apply H2. by rewrite lookup_insert_ne.
    + intros r [->|Hr]%elem_of_cons; [|by apply H3]. destruct (H2 (hashOf Hash g raw) (AddOwner tg (pod_UID p))) as (tg' & Hg & Hsub); [by rewrite lookup_insert_eq|].
      exists tg'. split; [done|]. cbn in Hsub. set_solver.
    + intros h tg' u Hg Hu. destruct (H4 _ _ _ Hg Hu) as [(tg0 & Hg0 & Hu0)|(-> & r & Hr & Hk)]; [|right; split; [done|]; exists r; split; [by right|done]].
      rewrite lookup_insert in Hg0. destruct (decide (hashOf Hash g raw = h)) as [<-|Hne]; [|left; by exists tg0]. injection Hg0 as <-. cbn in Hu0.
      apply elem_of_union in Hu0 as [Hu0|Hu0]; [|apply elem_of_singleton in Hu0 as ->; right; split; [done|]; exists (g, raw); split; [left|done]].
      left. destruct (groups !! hashOf Hash g raw) as [existing|] eqn:He; [injection Htg as <-; by exists existing|].
      exfalso. revert Hu0. assert (owners tg = ∅) as ->; [|set_solver].
      destruct (has_rule_fresh _ _ _ Hrule) as [_ Ho]. rewrite <- Ho. by eapply count_owners.
  - intros h tg0. rewrite lookup_insert. destruct (decide (hashOf Hash g raw = h)) as [<-|Hne]; [|apply Hinv]. intros [= <-].
    destruct Hfrom as (q & g0 & raw0 & cg & Hq & Hr & Hh & Hc & Heq). exists q, g0, raw0, cg. split_and!; try done. unfold AddOwner. by rewrite Heq, !with_owners_twice.
  - intros r Hr. apply Hl. by right.
Qed.

Lemma Update_tracks ps t p t' : pod_UID p ∉ pod_UID <$> ps → tracks ps (topologyGroups t) →
  Update Hash policy domainGroups reads stateNodes excludedPods t p = Done t' →
  tracks (p :: ps) (topologyGroups t') ∧ ∃ l, groupsOf p = Done l.
Proof.
  intros Huid [Hc Ho Hw]. unfold Update. cbv zeta. intros (inverse & _ & Hrun)%outcome_bind_Done. apply outcome_bind_Done in Hrun as (l & Hl & Hrun).
  apply outcome_bind_Done in Hrun as (groups & Hgroups & Heq). injection Heq as <-. cbn [topologyGroups]. split; [|by exists l].
  apply (track_spec ps) in Hgroups as (H1 & H2 & H3 & H4).
  - split; [done| |].
    + intros q r [->|Hq]%elem_of_cons (l' & Hl' & Hr); [rewrite Hl in Hl'; injection Hl' as <-; by apply H3|].
      destruct (Ho q r Hq) as (tg & Htg & Hu); [by exists l'|]. destruct (H2 (key_of r) (RemoveOwner tg (pod_UID p))) as (tg' & Hg & Hsub); [by rewrite lookup_fmap, Htg|].
      exists tg'. split; [done|]. apply Hsub. cbn. apply elem_of_difference. split; [done|]. rewrite elem_of_singleton. intros Heq. apply Huid. rewrite <- Heq.
      by apply list_elem_of_fmap_2.
    + intros h tg u Htg Hu. destruct (H4 _ _ _ Htg Hu) as [(tg0 & Hg0 & Hu0)|(-> & r & Hr & Hk)].
      * rewrite lookup_fmap in Hg0. apply fmap_Some in Hg0 as (tg1 & Hg1 & ->). cbn in Hu0. destruct (Hw h tg1 u Hg1) as (q & r & ? & ? & ?); [set_solver|].
        exists q, r. split; [by right|done].
      * exists p, r. split_and!; [left|done|by exists l|done].
  - intros h tg. rewrite lookup_fmap. intros (tg0 & Hg0 & ->)%fmap_Some. destruct (Hc _ _ Hg0) as (q & g & raw & cg & Hq & Hr & Hk & Hcg & Heq).
    exists q, g, raw, cg. split_and!; [by right|done|done|done|]. unfold RemoveOwner. by rewrite Heq, !with_owners_twice.
  - intros r Hr. by exists l.
Qed.

Lemma updateAll_tracks ps t pods t' : NoDup (pod_UID <$> ps ++ pods) → tracks ps (topologyGroups t) →
  updateAll Hash policy domainGroups reads stateNodes excludedPods t pods = Done t' →
  (∃ ps', tracks ps' (topologyGroups t') ∧ ∀ q, q ∈ ps' ↔ q ∈ ps ++ pods) ∧ ∀ q, q ∈ pods → ∃ l, groupsOf q = Done l.
Proof.
  revert ps t. induction pods as [|p pods IH]; intros ps t Hnd Ht; cbn [updateAll].
  { intros [= <-]. split; [|by intros q ?%not_elem_of_nil]. exists ps. split; [done|]. by rewrite app_nil_r. }
  intros (t1 & H1 & Hrun)%keepGoing_Done.
  assert (pod_UID p ∉ pod_UID <$> ps) as Hp.
  { rewrite fmap_app in Hnd. apply NoDup_app in Hnd as (_ & Hdis & _). intros Hin. apply (Hdis _ Hin). rewrite fmap_cons. left. }
  destruct (Update_tracks _ _ _ _ Hp Ht H1) as [Ht1 Hl]. apply (IH (p :: ps)) in Hrun as [(ps' & Hps' & Hiff) Hall]; [| |done].
  - split; [|intros q [->|?]%elem_of_cons; [done|by apply Hall]]. exists ps'. split; [done|]. intros q. rewrite Hiff. set_solver.
  - eapply NoDup_Permutation_proper; [|exact Hnd]. apply fmap_Permutation. cbn [app]. apply Permutation_middle.
Qed.
End tracking.

(** ** The topology of a pass *)

Section results.
Context {LT : LabelTables} {TL : TaintLib} {SO : SelectorOps} {GR : GoRange} {GS : GoSort} {NI : NetIP} {Q : Type}
  (Hash : string * TopologyType * gset string * Z * TopologyNodeFilter * option LabelSelector → Z)
  (policy : PreferencePolicy) (reads : TopologyReads Q) (cluster : Cluster Q) (stateNodes : list (StateNode Q))
  (nodePools : list PoolTemplate) (instanceTypes : gmap string (list (InstanceType Q))) (pods : list Pod) (allPods : list Pod).
Implicit Types (tg g : TopologyGroup) (raw : option LabelSelector).

#[local] Abbreviation toSchedule := (list_to_set (pod_UID <$> pods) : gset string).

(** The rules count the same pods. *)
Definition same_counting g raw g' raw' : Prop :=
  tg_Key g = tg_Key g' ∧ tg_Type g = tg_Type g' ∧ namespaces g = namespaces g' ∧ maxSkew g = maxSkew g' ∧
  (∀ taints reqs, Matches (nodeFilter g) taints reqs ∅ = Matches (nodeFilter g') taints reqs ∅) ∧
  ∀ labels, TopologyListOptions raw labels = TopologyListOptions raw' labels.

(** Among the rules of the pods to schedule those with the same hash count the same
    pods: there are no collisions, but filters and selectors that match the same
    need not be told apart. *)
Definition separates domainGroups : Prop := ∀ p g raw p' g' raw', p ∈ pods → p' ∈ pods →
  has_rule policy domainGroups reads p (g, raw) → has_rule policy domainGroups reads p' (g', raw') →
  hashOf Hash g raw = hashOf Hash g' raw' → same_counting g raw g' raw'.

Lemma same_counting_counted g raw g' raw' d : same_counting g raw g' raw' →
  podsCounted reads toSchedule allPods g raw d = podsCounted reads toSchedule allPods g' raw' d.
Proof.
  intros (Hk & _ & Hns & _ & Hm & Hs). unfold podsCounted. do 2 f_equal. apply filter_ext. intros p. unfold countedIn, recordOf. rewrite Hns, Hs, Hk.
  f_equal. destruct (IgnoredForTopology p); [done|]. destruct (tr_node reads (pod_NodeName p)) as [node| |]; [|done|done].
  destruct (domainOfNode (tg_Key g') node) as [d'|]; [|done]. cbn [mbind option_bind]. by rewrite Hm.
Qed.

(** C9. The topology a pass starts from says where the pods of the cluster are.  Each
    pod to schedule owns one group for each of its spread constraints and affinity
    terms.  Where the constraint has a label selector, that group holds, for every
    domain, exactly the number of pods of the cluster that the constraint counts
    there: those its namespaces and selector name, that run, are not themselves to be
    scheduled, and are on a node of the domain which the constraint admits.  No other
    pod owns it.  (A term without a selector: [missing_selector_counts].) *)
Theorem topology_counts_pods t (Hrun : NewTopology Hash policy reads cluster stateNodes nodePools instanceTypes pods = Done t)
    (Hlists : lists_pods reads allPods) (Hnames : names_nodes reads)
    (Hsep : ∀ domainGroups, buildDomainGroups nodePools instanceTypes = Some domainGroups → separates domainGroups) (Hfew : Z.of_nat (length allPods) <= MaxInt32)
    (Hnd : NoDup (pod_UID <$> pods)) :
  ∃ domainGroups, buildDomainGroups nodePools instanceTypes = Some domainGroups ∧
  ∀ p, p ∈ pods → ∃ rules, groupsOf policy domainGroups reads p = Done rules ∧
    ∀ g raw, (g, raw) ∈ rules → ∃ tg, topologyGroups t !! hashOf Hash g raw = Some tg ∧ pod_UID p ∈ owners tg ∧
      tg_Key tg = tg_Key g ∧ tg_Type tg = tg_Type g ∧ maxSkew tg = maxSkew g ∧
      (is_Some raw → ∀ d, podsIn tg d = podsCounted reads toSchedule allPods g raw d) ∧
      ∀ u, u ∈ owners tg → ∃ q g' raw', q ∈ pods ∧ pod_UID q = u ∧ has_rule policy domainGroups reads q (g', raw') ∧ same_counting g' raw' g raw.
Proof.
  unfold NewTopology in Hrun. apply outcome_bind_Done in Hrun as (dg & Hdg & Hrun). apply orPanic_Done in Hdg. specialize (Hsep _ Hdg). cbv zeta in Hrun.
  apply keepGoing_Done in Hrun as (inverse & _ & Hrun). exists dg. split; [done|].
  apply (updateAll_tracks _ _ _ _ _ _ []) in Hrun as [(ps & [Hc Ho Hw] & Hps) Hall]; [|done|].
  2:{ split; cbn [topologyGroups]; [intros h tg|by intros q r ?%not_elem_of_nil|intros h tg u]; by rewrite lookup_empty. }
  cbn [app] in Hps. intros p Hp. destruct (Hall p Hp) as (rules & Hrules). exists rules. split; [done|]. intros g raw Hr.
  destruct (Ho p (g, raw)) as (tg & Htg & Hown); [by apply Hps|by exists rules|]. cbn [fst snd] in Htg. exists tg. split_and!; try done.
  all: destruct (Hc _ _ Htg) as (q & g0 & raw0 & cg & Hq & Hrule & Hk & Hcount & Heq); pose proof (Hsep _ _ _ _ _ _ (proj1 (Hps q) Hq) Hp Hrule (ex_intro _ rules (conj Hrules Hr)) Hk) as Hsame.
  all: destruct (countDomains_spec _ _ _ _ _ _ _ Hlists Hnames Hfew (proj1 (has_rule_fresh _ _ _ _ _ _ Hrule)) Hcount) as [Hcg Hd].
  1-3: rewrite Heq, Hcg; cbn; apply Hsame.
  - intros _ d. rewrite <- (same_counting_counted _ _ _ _ d Hsame), <- Hd. by rewrite Heq.
  - intros u Hu. destruct (Hw _ _ _ Htg Hu) as (q' & [g' raw'] & Hq' & Huid & Hrule' & Hk'). exists q', g', raw'. split_and!; [by apply Hps|done|done|].
    by apply (Hsep q' _ _ p); [apply Hps| |done|exists rules|].
Qed.
End results.

(** ** Inverse anti-affinity *)

Section inverse.
Context {LT : LabelTables} {TL : TaintLib} {SO : SelectorOps} {GR : GoRange} {Q : Type}
  (domainGroups : gmap string TopologyDomainGroup) (reads : TopologyReads Q).
Implicit Types (tg : TopologyGroup) (p : Pod) (d : string).

(** A term of a pod's anti-affinity, with the labels of the node the pod is on. *)
Definition Repelling : Type := Pod * gmap string string * PodAffinityTerm.
Implicit Types (x : Repelling) (xs : list Repelling).

Definition repellingKey x : option string :=
  match inverseGroupKeyAndNamespaces reads x.1.1 x.2 with Done (k, _) => Some k | _ => None end.

(** The term is kept under this key, and its pod is in this domain. *)
Definition repels (k key d : string) x : bool :=
  bool_decide (repellingKey x = Some k) && bool_decide (x.1.2 !! key = Some d).

(** Every term was put into the group of its key, which counts the pods and knows their
    owners. *)
Record repelled xs (groups : gmap string TopologyGroup) : Prop := {
  rp_counts : ∀ k tg d, groups !! k = Some tg → podsIn tg d = Z.of_nat (length (List.filter (repels k (tg_Key tg) d) xs));
  rp_owners : ∀ k tg u, groups !! k = Some tg → u ∈ owners tg ↔ ∃ x, x ∈ xs ∧ repellingKey x = Some k ∧ pod_UID x.1.1 = u;
  rp_kept : ∀ x, x ∈ xs → ∃ k tg, repellingKey x = Some k ∧ groups !! k = Some tg;
}.

Lemma repelled_nil : repelled [] ∅.
Proof. split; [intros k tg d; by rewrite lookup_empty|intros k tg u; by rewrite lookup_empty|by intros x ?%not_elem_of_nil]. Qed.

(** One term more. *)
Lemma repelled_step xs groups x k nss tg :
  repelled xs groups → Z.of_nat (length xs) < MaxInt32 → inverseGroupKeyAndNamespaces reads x.1.1 x.2 = Done (k, nss) →
  (groups !! k = Some tg ∨ groups !! k = None ∧ affinityGroup domainGroups x.1.1 TopologyTypePodAntiAffinity x.2 nss = Some tg) →
  repelled (xs ++ [x]) (<[k := AddOwner (match x.1.2 !! tg_Key tg with Some d => Record1 tg d | None => tg end) (pod_UID x.1.1)]> groups).
Proof.
  intros [Hc Ho Hk] Hfew Hx Htg. assert (repellingKey x = Some k) as Hkey by (unfold repellingKey; by rewrite Hx).
  assert ((∀ d, podsIn tg d = Z.of_nat (length (List.filter (repels k (tg_Key tg) d) xs))) ∧ ∀ u, u ∈ owners tg ↔ ∃ y, y ∈ xs ∧ repellingKey y = Some k ∧ pod_UID y.1.1 = u) as [Htc Hto].
  { destruct Htg as [Htg|[Hnone Hnew]]; [split; [intros d; by apply Hc|intros u; by apply Ho]|].
    assert (∀ y, y ∈ xs → repellingKey y ≠ Some k) as Hno by (intros y Hy Heq; destruct (Hk y Hy) as (k' & tg' & Hk' & Hg); congruence).
    unfold affinityGroup in Hnew. destruct (new_group_fresh _ _ _ _ _ _ _ _ _ _ _ Hnew) as [Hz Hown]. split.
    - intros d. rewrite Hz. destruct (List.filter (repels k (tg_Key tg) d) xs) as [|y ys] eqn:Hf; [done|]. exfalso.
      assert (In y (List.filter (repels k (tg_Key tg) d) xs)) as [Hy Hr]%filter_In by (rewrite Hf; by left).
      apply andb_true_iff in Hr as [Hr%bool_decide_eq_true _]. by apply (Hno y); [apply list_elem_of_In|].
    - intros u. rewrite Hown. split; [set_solver|]. intros (y & Hy & Heq & _). by apply Hno in Heq. }
  set (tg1 := match x.1.2 !! tg_Key tg with Some d => Record1 tg d | None => tg end).
  assert (tg_Key tg1 = tg_Key tg ∧ owners tg1 = owners tg) as [Hkey1 Hown1] by (unfold tg1; by destruct (x.1.2 !! _)).
  assert (∀ d, podsIn tg1 d = podsIn tg d + if repels k (tg_Key tg) d x then 1 else 0) as Hpods.
  { intros d. unfold tg1, repels. rewrite Hkey, bool_decide_eq_true_2 by done. cbn [andb]. destruct (x.1.2 !! tg_Key tg) as [d'|]; [|rewrite bool_decide_eq_false_2 by done; lia].
    case_bool_decide as Heq.
    - injection Heq as ->. unfold podsIn at 1, Record1. cbn [domains with_domains]. rewrite lookup_insert_eq. change (wrap32 (podsIn tg d + 1) = podsIn tg d + 1).
      assert (0 <= podsIn tg d < MaxInt32); [|apply wrap32_id; int_lia]. rewrite Htc. pose proof (List.filter_length_le (repels k (tg_Key tg) d) xs). lia.
    - unfold podsIn, Record1. cbn [domains with_domains]. rewrite lookup_insert_ne by (intros ->; done). lia. }
  split.
  - intros k' tg' d. rewrite List.filter_app, length_app. cbn [List.filter]. rewrite lookup_insert. destruct (decide (k = k')) as [<-|Hne].
    + intros [= <-]. cbn [tg_Key with_owners AddOwner]. rewrite Hkey1. change (podsIn (AddOwner tg1 (pod_UID x.1.1)) d) with (podsIn tg1 d). rewrite Hpods, Htc.
      destruct (repels k (tg_Key tg) d x); cbn [length]; lia.
    + intros Hg. rewrite (Hc _ _ d Hg). unfold repels at 3. rewrite Hkey, bool_decide_eq_false_2 by congruence. cbn [andb length]. lia.
  - intros k' tg' u. rewrite lookup_insert. destruct (decide (k = k')) as [<-|Hne].
    + intros [= <-]. cbn [owners with_owners AddOwner]. rewrite Hown1, elem_of_union, Hto, elem_of_singleton. setoid_rewrite elem_of_app. setoid_rewrite list_elem_of_singleton. naive_solver.
    + intros Hg. rewrite (Ho _ _ u Hg). setoid_rewrite elem_of_app. setoid_rewrite list_elem_of_singleton. naive_solver.
  - intros y [Hy|Hy]%elem_of_app; [|apply list_elem_of_singleton in Hy as ->].
    + destruct (Hk y Hy) as (k' & tg' & Hk' & Hg). exists k'. destruct (decide (k = k')) as [<-|Hne]; [rewrite lookup_insert_eq|rewrite lookup_insert_ne by done]; eauto.
    + exists k. rewrite lookup_insert_eq. eauto.
Qed.

Lemma terms_repelled xs groups p labels terms groups' :
  repelled xs groups → Z.of_nat (length xs + length terms) <= MaxInt32 →
  updateInverseAntiAffinity domainGroups reads groups p labels terms = Done groups' → repelled (xs ++ (((p, labels),.) <$> terms)) groups'.
Proof.
  revert xs groups. induction terms as [|term terms IH]; intros xs groups Hinv Hfew; cbn [updateInverseAntiAffinity].
  { intros [= <-]. by rewrite app_nil_r. }
  intros ([k nss] & Hkey & Hrun)%outcome_bind_Done. apply outcome_bind_Done in Hrun as (tg & Htg & Hrun). cbv zeta in Hrun. cbn [length] in Hfew.
  rewrite fmap_cons, cons_middle, app_assoc. eapply IH; [| |exact Hrun].
  - eapply (repelled_step _ _ ((p, labels), term) k nss); [done|lia|done|]. destruct (groups !! k) as [existing|]; [injection Htg as <-; by left|].
    right. split; [done|]. by apply orPanic_Done in Htg.
  - rewrite length_app. cbn [length]. lia.
Qed.

(** The terms of pods that run. *)
Definition running (excludedPods : gset string) (tracked : list (Pod * Node Q)) : list Repelling :=
  concat ((λ pn, (((pn.1, n_Labels pn.2),.) <$> requiredAntiAffinity pn.1)) <$> List.filter (λ pn, negb (bool_decide (pod_UID pn.1 ∈ excludedPods))) tracked).

Lemma running_repelled excludedPods xs groups tracked groups' :
  repelled xs groups → Z.of_nat (length xs + length (running excludedPods tracked)) <= MaxInt32 →
  updateInverseAffinities domainGroups reads excludedPods groups tracked = Done groups' → repelled (xs ++ running excludedPods tracked) groups'.
Proof.
  revert xs groups. induction tracked as [|[p node] tracked IH]; intros xs groups Hinv Hfew; cbn [updateInverseAffinities].
  { intros [= <-]. unfold running. cbn. by rewrite app_nil_r. }
  revert Hfew. unfold running. cbn [List.filter fst]. destruct (bool_decide (pod_UID p ∈ excludedPods)); cbn [negb]; intros Hfew; [by apply IH|].
  intros (groups1 & H1 & Hrun)%keepGoing_Done. rewrite fmap_cons in *. cbn [concat fst snd] in *. rewrite length_app, length_fmap in Hfew.
  rewrite app_assoc. eapply IH; [|rewrite length_app, length_fmap; unfold running; lia|exact Hrun]. eapply terms_repelled; [exact Hinv|lia|done].
Qed.
End inverse.

Section inverse_results.
Context {LT : LabelTables} {TL : TaintLib} {SO : SelectorOps} {GR : GoRange} {GS : GoSort} {NI : NetIP} {Q : Type}
  (Hash : string * TopologyType * gset string * Z * TopologyNodeFilter * option LabelSelector → Z)
  (policy : PreferencePolicy) (reads : TopologyReads Q).

(** The terms of pods to schedule, which are nowhere yet. *)
Definition scheduling (pods : list Pod) : list Repelling :=
  concat ((λ p, (((p, ∅ : gmap string string),.) <$> requiredAntiAffinity p)) <$> List.filter (tracksInverse policy) pods).

Lemma updateAll_repelled domainGroups (stateNodes : list (StateNode Q)) excludedPods xs t pods t' :
  repelled reads xs (inverseTopologyGroups t) → Z.of_nat (length xs + length (scheduling pods)) <= MaxInt32 →
  updateAll Hash policy domainGroups reads stateNodes excludedPods t pods = Done t' → repelled reads (xs ++ scheduling pods) (inverseTopologyGroups t').
Proof.
  revert xs t. induction pods as [|p pods IH]; intros xs t Hinv; cbn [updateAll].
  { intros _ [= <-]. unfold scheduling. cbn. by rewrite app_nil_r. }
  unfold scheduling. cbn [List.filter]. intros Hfew (t1 & H1 & Hrun)%keepGoing_Done. revert Hfew. unfold Update in H1. cbv zeta in H1.
  apply outcome_bind_Done in H1 as (inverse & Hi & H1). apply outcome_bind_Done in H1 as (l & _ & H1). apply outcome_bind_Done in H1 as (groups & _ & Heq).
  injection Heq as <-. destruct (tracksInverse policy p); intros Hfew.
  - rewrite fmap_cons in *. cbn [concat] in *. rewrite length_app, length_fmap in Hfew. rewrite app_assoc.
    eapply IH; [|rewrite length_app, length_fmap; unfold scheduling; lia|exact Hrun]. cbn [inverseTopologyGroups]. eapply terms_repelled; [exact Hinv|lia|done].
  - injection Hi as <-. eapply IH; [|exact Hfew|exact Hrun]. exact Hinv.
Qed.

(** Anti-affinity is tracked both ways.  The group of a required anti-affinity
    term counts, for every domain, exactly the pods with such a term that run
    there and are not to be scheduled; its owners are those pods and the pods to
    schedule that have the term; and no term of either is left out. *)
Theorem inverse_groups_exact (cluster : Cluster Q) stateNodes nodePools instanceTypes pods t
    (Hrun : NewTopology Hash policy reads cluster stateNodes nodePools instanceTypes pods = Done t) :
  let here := running (list_to_set (pod_UID <$> pods)) (podsWithAntiAffinity cluster) in
  Z.of_nat (length here + length (scheduling pods)) <= MaxInt32 →
  (∀ k tg, inverseTopologyGroups t !! k = Some tg →
     (∀ d, podsIn tg d = Z.of_nat (length (List.filter (repels reads k (tg_Key tg) d) here))) ∧
     (∀ u, u ∈ owners tg ↔ ∃ x, x ∈ here ++ scheduling pods ∧ repellingKey reads x = Some k ∧ pod_UID x.1.1 = u)) ∧
  (∀ x, x ∈ here ++ scheduling pods → ∃ k tg, repellingKey reads x = Some k ∧ inverseTopologyGroups t !! k = Some tg).
Proof.
  intros here Hfew. unfold NewTopology in Hrun. apply outcome_bind_Done in Hrun as (dg & _ & Hrun). cbv zeta in Hrun.
  apply keepGoing_Done in Hrun as (inverse & Hi & Hrun). fold here in Hi.
  assert (repelled reads here inverse) as Hhere by (apply (running_repelled _ _ _ [] _ _ _ (repelled_nil reads)) in Hi; [done|]; cbn [length]; unfold here in Hfew; lia).
  destruct (updateAll_repelled dg stateNodes _ here (mkTopology ∅ inverse) _ _ Hhere Hfew Hrun) as [Hc Ho Hk]. split; [|done]. intros k tg Hg. split; [|intros u; by apply Ho].
  intros d. rewrite (Hc _ _ _ Hg), List.filter_app, length_app. rewrite (filter_none _ (scheduling pods)); [cbn; lia|].
  intros x (ps & Hps & Hx)%list_elem_of_In%in_concat. apply in_map_iff in Hps as (p & <- & _). apply list_elem_of_In, list_elem_of_fmap in Hx as (term & -> & _).
  unfold repels. cbn [fst snd]. rewrite lookup_empty, (bool_decide_eq_false_2 (None = _)) by done. apply andb_false_r.
Qed.
End inverse_results.

(** * Witnesses *)

Section witnesses.
#[local] Existing Instance karpenterLabels.
#[local] Existing Instance exampleProvider.
#[local] Existing Instance map_to_list_GoRange.
#[local] Existing Instance stable_GoSort.
#[local] Existing Instance textIP.
#[local] Existing Instance keyTaintLib.

(** Selectors that only ask for a value. *)
Definition asksFor (key : string) (values : list string) (labels : gmap string string) : bool :=
  match labels !! key with Some v => existsb (String.eqb v) values | None => false end.

#[local] Instance valueSelectors : SelectorOps := {|
  asSelector s :=
    match s with
    | None => Some (λ _, false)
    | Some s => Some (λ labels, forallb (λ kv, asksFor kv.1 [kv.2] labels) (map_to_list (ls_MatchLabels s)) &&
        forallb (λ e, asksFor (lr_Key e) (lr_Values e) labels) (ls_MatchExpressions s))
    end;
  newLabelRequirement key operator values := if String.eqb operator "=" || String.eqb operator "in" then Some (asksFor key values) else None;
|}.

Definition topologyPod (name uid nodeName : string) (affinity : option Affinity) (spread : list TopologySpreadConstraint) : Pod :=
  let p := with_scheduling (barePod "default" name uid) affinity [] spread in
  mkPod (pod_Namespace p) (pod_Name p) (pod_UID p) (pod_CreationTimestamp p) (pod_DeletionTimestamp p) {["app"%string := "web"%string]} (pod_Annotations p)
    (pod_OwnerReferences p) (pod_NodeSelector p) (pod_Affinity p) (pod_Tolerations p) (pod_TopologySpreadConstraints p) (pod_Containers p)
    (pod_Volumes p) nodeName (pod_SchedulerName p) (pod_Priority p) "Running" (pod_Conditions p) (pod_NominatedNodeName p)
    (pod_StartTime p) (pod_ResourceClaims p) (pod_InitContainerClaims p) (pod_ContainerClaims p) (pod_ResourceClaimStatuses p) (pod_PriorityClassName p)
    (pod_TerminationGracePeriodSeconds p).

Definition webSelector : option LabelSelector := Some (mkLabelSelector {["app"%string := "web"%string]} []).
Definition overZones (minDomains : option Z) : TopologySpreadConstraint :=
  mkTSC 1 zoneKey DoNotSchedule webSelector [] minDomains None None.

(** One pod runs in zone-a; its replica is to be scheduled. *)
Definition runningWeb : Pod := topologyPod "web-1" "uid-1" "node-a" None [].
Definition newWeb (minDomains : option Z) (uid : string) : Pod := topologyPod "web-2" uid "" None [overZones minDomains].
Definition zoneNode : Node Z := mkNode "node-a" "p1" {[zoneKey := "zone-a"%string]} ∅ [] None ∅ ∅ ∅.

Definition webCluster : list Pod := [runningWeb; newWeb None "uid-2"].

Definition webReads : TopologyReads Z :=
  mkTopologyReads (λ ns sel, Some (List.filter (λ p, String.eqb (pod_Namespace p) ns && sel (pod_Labels p)) webCluster))
    (λ name, if String.eqb name "node-a" then Found zoneNode else NotFound) (λ _, Some []).

Definition zonePool : PoolTemplate := mkPoolTemplate "pool" [mkNSR zoneKey OpIn ["zone-a"; "zone-b"]%string None] ∅ [] None.
Definition poolTypes : gmap string (list (InstanceType Z)) := {["pool"%string := [small]]}.

Definition hashOfKey (x : string * TopologyType * gset string * Z * TopologyNodeFilter * option LabelSelector) : Z :=
  if String.eqb x.1.1.1.1.1 zoneKey then 1 else 0.

Definition webTopology (pods : list Pod) : outcome () Topology :=
  NewTopology hashOfKey PreferencePolicyRespect webReads (NewCluster (Q := Z)) [] [zonePool] poolTypes pods.

Definition webRules (p : Pod) : list (TopologyGroup * option LabelSelector) :=
  match groupsOf PreferencePolicyRespect (default ∅ (buildDomainGroups [zonePool] poolTypes)) webReads p with Done l => l | _ => [] end.

Lemma topology_counts_pods_witness : ∃ t tg, webTopology [newWeb None "uid-2"] = Done t ∧ topologyGroups t !! 1 = Some tg ∧
  domains tg = list_to_map [("zone-a", 1); ("zone-b", 0)]%string ∧ podsIn tg "zone-a" = podsCounted webReads {["uid-2"%string]} webCluster tg webSelector "zone-a".
Proof.
  destruct (webTopology [newWeb None "uid-2"]) as [| |t] eqn:Hrun; [vm_compute in Hrun; discriminate Hrun..|].
  destruct (topology_counts_pods hashOfKey PreferencePolicyRespect webReads NewCluster [] [zonePool] poolTypes [newWeb None "uid-2"] webCluster t Hrun)
    as (dg & Hdg & Hall).
  - intros ns sel l [= <-]. reflexivity.
  - intros name node. cbn. destruct (String.eqb_spec name "node-a") as [->|]; [|discriminate]. intros [= <-]. reflexivity.
  - intros dg Hdg p g raw p' g' raw' Hp Hp' (l & Hl & Hr) (l' & Hl' & Hr') _. apply list_elem_of_singleton in Hp as ->. apply list_elem_of_singleton in Hp' as ->.
    rewrite Hl in Hl'. injection Hl' as <-. assert (l = webRules (newWeb None "uid-2")) as Hw by (unfold webRules; rewrite Hdg; cbn [default from_option id]; by rewrite Hl).
    rewrite Hw in Hr, Hr'. assert (∃ r, webRules (newWeb None "uid-2") = [r]) as (r & Hone) by (eexists; vm_compute; reflexivity). rewrite Hone in Hr, Hr'.
    apply list_elem_of_singleton in Hr as <-. apply list_elem_of_singleton in Hr' as [= -> ->]. split_and!; reflexivity.
  - vm_compute. discriminate.
  - apply NoDup_singleton.
  - destruct (Hall (newWeb None "uid-2")) as (rules & Hrules & Hgroups); [left|].
    assert (rules = webRules (newWeb None "uid-2")) as Hw by (unfold webRules; rewrite Hdg; cbn [default from_option id]; by rewrite Hrules).
    assert (∃ g, webRules (newWeb None "uid-2") = [(g, webSelector)] ∧ hashOf hashOfKey g webSelector = 1) as (g & Hone & Hhash) by (eexists; split; vm_compute; reflexivity).
    destruct (Hgroups g webSelector) as (tg & Htg & _ & _ & _ & _ & Hd & _); [rewrite Hw, Hone; left|]. rewrite Hhash in Htg.
    exists t, tg. split; [reflexivity|]. split; [exact Htg|]. split.
    + vm_compute in Hrun. injection Hrun as <-. vm_compute in Htg. injection Htg as <-. vm_compute. reflexivity.
    + rewrite Hd by (eexists; reflexivity). vm_compute in Hrun. injection Hrun as <-. vm_compute in Htg. injection Htg as <-. vm_compute in Hone. injection Hone as <-. vm_compute. reflexivity.
Defined.

(** The hash of a rule leaves out its minimum of domains, so a pod that asks for three
    shares the group of one that asks for none, whose minimum is used. *)
Lemma minimum_domains_shared : ∃ t tg, webTopology [newWeb None "uid-2"; newWeb (Some 3) "uid-3"] = Done t ∧ topologyGroups t !! 1 = Some tg ∧
  owners tg = {["uid-2"; "uid-3"]}%string ∧ minDomains tg = None ∧ size (topologyGroups t) = 1%nat.
Proof. eexists _, _. vm_compute. repeat split. Qed.

(** A term without a selector selects no pod, but counts every pod of its namespaces. *)
Lemma missing_selector_counts : ∃ g,
  affinityGroup ∅ (newWeb None "uid-2") TopologyTypePodAntiAffinity (mkPodAffinityTerm zoneKey None [] None) {["default"%string]} = Some g ∧
  selects g runningWeb = false ∧ podsCounted webReads ∅ webCluster g None "zone-a" = 1.
Proof. eexists. split; [vm_compute; reflexivity|]. split; vm_compute; reflexivity. Qed.

(** A node pool that excludes a value of a label its instance types do not set supplies
    the excluded value as a domain, in which no node can ever be. *)
Definition teamPool : PoolTemplate := mkPoolTemplate "pool" [mkNSR "team" OpNotIn ["red"]%string None] ∅ [] None.

Lemma excluded_value_is_domain : ∃ g reqs, buildDomainGroups [teamPool] poolTypes = Some g ∧ is_Some (sourceOf g "team" "red" "pool") ∧
  templateRequirements teamPool = Some reqs ∧ (∃ r, reqs !! "team"%string = Some r ∧ Has r "red" = false).
Proof.
  eexists _, _. split; [vm_compute; reflexivity|]. split; [vm_compute; by eexists|]. split; [vm_compute; reflexivity|]. eexists. split; vm_compute; reflexivity.
Qed.

(** A pod in zone-a that wants no other web pod in its zone. *)
Definition apart : Affinity := mkAffinity None None (Some (mkPodAffinity [mkPodAffinityTerm zoneKey webSelector [] None] [])).
Definition lonelyPod : Pod := topologyPod "lonely" "uid-9" "node-a" (Some apart) [].

Definition lonelyCluster : Cluster Z :=
  let c := withAntiAffinityPods NewCluster {[ObjectKeyFromObject lonelyPod := lonelyPod]} in
  let c := withBindings c {[ObjectKeyFromObject lonelyPod := "node-a"%string]} in
  withNodeNames (withNodes c {["p1"%string := mkStateNode (Some zoneNode) None ∅ ∅ ∅ ∅ ∅ None None NewHostPortUsage NewVolumeUsage false 0]}) {["node-a"%string := "p1"%string]}.

Definition lonelyTopology : outcome () Topology :=
  NewTopology hashOfKey PreferencePolicyRespect webReads lonelyCluster [] [zonePool] poolTypes [newWeb None "uid-2"].

Lemma inverse_groups_exact_witness : ∃ t k tg, lonelyTopology = Done t ∧ inverseTopologyGroups t !! k = Some tg ∧ podsIn tg "zone-a" = 1 ∧ "uid-9"%string ∈ owners tg.
Proof.
  destruct lonelyTopology as [| |t] eqn:Hrun; [vm_compute in Hrun; discriminate Hrun..|].
  destruct (inverse_groups_exact hashOfKey PreferencePolicyRespect webReads lonelyCluster [] [zonePool] poolTypes [newWeb None "uid-2"] t Hrun) as [Hgroups Hkept];
    [vm_compute; discriminate|].
  set (x := ((lonelyPod, n_Labels zoneNode), mkPodAffinityTerm zoneKey webSelector [] None)).
  destruct (Hkept x) as (k & tg & Hk & Htg); [vm_compute; left|]. exists t, k, tg. split; [reflexivity|]. split; [exact Htg|].
  destruct (Hgroups k tg Htg) as [Hd Ho]. split; [|apply Ho; exists x; split; [vm_compute; left|split; [exact Hk|reflexivity]]].
  rewrite Hd. vm_compute in Hk. injection Hk as <-. vm_compute in Hrun. injection Hrun as <-. vm_compute in Htg. injection Htg as <-. vm_compute. reflexivity.
Defined.
End witnesses.
