(* ===== verification/Upkeep.v ===== *)
(** * Removing NodeClaims that went wrong

    Model of three controllers that delete NodeClaims on their own:
    [pkg/controllers/node/health] repairs nodes that stay unhealthy,
    [pkg/controllers/nodeclaim/garbagecollection] removes NodeClaims whose
    instance the provider no longer lists, [pkg/controllers/nodeclaim/expiration]
    those past their lifetime.  What is read and how calls are answered are
    arguments; the calls made are recorded, oldest first. *)

From S2P Require Import Prelude Strconv Kube Conditions Resources Budgets StateNode Cluster ClusterInv DisruptionQueue Controller Termination Lifecycle.

(** The calls to the API server. *)
Inductive UpkeepEffect :=
  | UAnnotate (name time : string)
  | UDelete (name : string).

#[export] Instance UpkeepEffect_eq_dec : EqDecision UpkeepEffect.
Proof. solve_decision. Defined.

(** The zero [time.Time], in nanoseconds of the Unix epoch. *)
Definition zeroTime : Z := - 62135596800 * Second.

Record RepairPolicy := mkRepairPolicy {
  rp_ConditionType : string;
  rp_ConditionStatus : string;
  rp_TolerationDuration : Z;
}.

Definition LaunchedGracePeriod : Z := 5 * Minute.

Section upkeep.
Context {TP : TimeParser} {IS : IntStr} {Q : Type}.
Context (formatRFC3339 : Z → string).
Implicit Types (node : Node Q) (claim : NodeClaim Q) (mc : ManagedClaim Q) (policies : list RepairPolicy) (now : Z).

(** ** Repairing nodes *)

(** A node without the condition has the zero one. *)
Definition GetCondition node (type : string) : Condition := default (mkCondition "" "" zeroTime) (n_Conditions node !! type).

Definition matchesPolicy node (policy : RepairPolicy) : bool :=
  String.eqb (cd_Status (GetCondition node (rp_ConditionType policy))) (rp_ConditionStatus policy).

Definition repairTime node (policy : RepairPolicy) : Z :=
  cd_LastTransitionTime (GetCondition node (rp_ConditionType policy)) + rp_TolerationDuration policy.

(** The condition found so far with its duration, and [requeueTime]. *)
Definition findStep node (acc : option (Condition * Z) * Z) (policy : RepairPolicy) : option (Condition * Z) * Z :=
  if matchesPolicy node policy then
    let terminationTime := repairTime node policy in
    if (acc.2 =? zeroTime) || (terminationTime <? acc.2)
    then (Some (GetCondition node (rp_ConditionType policy), rp_TolerationDuration policy), terminationTime)
    else acc
  else acc.

Definition findUnhealthyConditions policies node : option (Condition * Z) := (foldl (findStep node) (None, zeroTime) policies).1.

Definition isUnhealthy policies node : bool := match List.find (matchesPolicy node) policies with Some _ => true | None => false end.

Definition allowedUnhealthyPercent : IntOrString := FromString "20%".

(** [areNodesHealthy] of the nodes listed; [Panic] when the threshold cannot be
    computed, [Fail] tells whether the error is that nothing was found. *)
Definition areNodesHealthy policies (listed : GetResult (list (Node Q))) : outcome bool bool :=
  match listed with
  | NotFound => Fail true
  | GetError => Fail false
  | Found nodes =>
      let unhealthyNodeCount := Z.of_nat (length (List.filter (isUnhealthy policies) nodes)) in
      threshold ← orPanic (GetScaledValueFromIntOrPercent allowedUnhealthyPercent (Z.of_nat (length nodes)) true);
      Done (unhealthyNodeCount <=? threshold)
  end.

(** The reads and answers of a repair. [hr_nodes] lists the nodes of a pool, or
    all; [hr_pool] is the pool read for the event. *)
Record HealthReads := mkHealthReads {
  hr_now : Z;
  hr_policies : list RepairPolicy;
  hr_claims : option (list (NodeClaim Q));
  hr_nodes : option string → GetResult (list (Node Q));
  hr_pool : GetResult ();
  hr_annotate : CallAnswer;
  hr_delete : CallAnswer;
}.

(** [client.IgnoreNotFound] of a call's answer at the end of a reconcile *)
Definition ignoreNotFound (answer : CallAnswer) : Outcome := match answer with CallOk | CallNotFound => inl noResult | _ => inr () end.

(** The annotation [annotateTerminationGracePeriod] writes, if any. *)
Definition annotateTerminationGracePeriod now claim : option string :=
  let terminationTime := formatRFC3339 now in
  let current := nc_Annotations claim !! NodeClaimTerminationTimestampAnnotationKey in
  match current ≫= parseRFC3339 with
  | Some expirationTime => if expirationTime <? now then None else if bool_decide (current = Some terminationTime) then None else Some terminationTime
  | None => if bool_decide (current = Some terminationTime) then None else Some terminationTime
  end.

Definition deleteNodeClaim claim (answer : CallAnswer) : list UpkeepEffect * Outcome :=
  match nc_DeletionTimestamp claim with
  | Some _ => ([], inl noResult)
  | None => ([UDelete (nc_Name claim)], ignoreNotFound answer)
  end.

(** The end of [Reconcile], once the repair is decided. *)
Definition repair claim (reads : HealthReads) : list UpkeepEffect * Outcome :=
  match annotateTerminationGracePeriod (hr_now reads) claim with
  | None => deleteNodeClaim claim (hr_delete reads)
  | Some time =>
      match hr_annotate reads with
      | CallOk => let '(effects, out) := deleteNodeClaim claim (hr_delete reads) in (UAnnotate (nc_Name claim) time :: effects, out)
      | answer => ([UAnnotate (nc_Name claim) time], ignoreNotFound answer)
      end
  end.

(** What the nodes around it allow: [Some] ends the reconcile. *)
Definition repairAllowed claim (reads : HealthReads) : outcome bool (option Outcome) :=
  match nc_Labels claim !! NodePoolLabelKey with
  | Some pool =>
      match areNodesHealthy (hr_policies reads) (hr_nodes reads (Some pool)) with
      | Panic => Panic
      | Fail notFound => Done (Some (if notFound then inl noResult else inr ()))
      | Done true => Done None
      | Done false => Done (Some (match hr_pool reads with GetError => inr () | _ => inl (requeueAfter (5 * Minute)) end))
      end
  | None =>
      match areNodesHealthy (hr_policies reads) (hr_nodes reads None) with
      | Panic => Panic
      | Fail _ => Done (Some (inr ()))
      | Done true => Done None
      | Done false => Done (Some (inl (requeueAfter (5 * Minute))))
      end
  end.

(** [Reconcile] of [node/health/controller.go]; [None] is a panic. *)
Definition ReconcileHealth node (reads : HealthReads) : option (list UpkeepEffect * Outcome) :=
  match claimForNode node (hr_claims reads) with
  | None => Some ([], inr ())
  | Some None => Some ([], inl noResult)
  | Some (Some claim) =>
      match findUnhealthyConditions (hr_policies reads) node with
      | None => Some ([], inl noResult)
      | Some (condition, duration) =>
          let terminationTime := cd_LastTransitionTime condition + duration in
          if hr_now reads <? terminationTime then Some ([], inl (requeueAfter (timeSub terminationTime (hr_now reads))))
          else
            match repairAllowed claim reads with
            | Panic | Fail _ => None
            | Done (Some out) => Some ([], out)
            | Done None => Some (repair claim reads)
            end
      end
  end.

(** ** Garbage collection *)

(** The reads and answers: the NodeClaims, those the provider lists, the nodes with
    the provider ID of a NodeClaim. *)
Record CollectReads := mkCollectReads {
  cr_now : Z;
  cr_isManaged : ManagedClaim Q → bool;
  cr_claims : option (list (ManagedClaim Q));
  cr_provider : option (list (NodeClaim Q));
  cr_nodes : ManagedClaim Q → option (list (RegNode Q));
  cr_delete : ManagedClaim Q → CallAnswer;
}.

Definition isCollectable now mc : bool :=
  if isTrue mc ConditionTypeRegistered then true
  else
    match conditionsOf mc !! ConditionTypeLaunched with
    | Some launched => String.eqb (cd_Status launched) ConditionTrue && (LaunchedGracePeriod <=? timeSub now (cd_LastTransitionTime launched))
    | None => false
    end.

(** The worker of one NodeClaim: the calls made and whether it leaves an error. *)
Definition collect (reads : CollectReads) mc : list UpkeepEffect * bool :=
  let answer := NodeForNodeClaim mc (cr_nodes reads mc) in
  let err := match answer with NodeReadError => true | _ => false end in
  let ready := match answer with OneNode node => String.eqb (cd_Status (GetCondition (rn_node node) "Ready")) ConditionTrue | _ => false end in
  if ready then ([], err)
  else
    ([UDelete (nc_Name (mc_claim mc))],
     match cr_delete reads mc with CallOk => err | CallNotFound => false | _ => true end).

Definition listedIDs (listed : list (NodeClaim Q)) : gset string :=
  list_to_set (nc_ProviderID <$> List.filter (λ nc, bool_decide (nc_DeletionTimestamp nc = None)) listed).

Definition toCollect (reads : CollectReads) (claims : list (ManagedClaim Q)) (listed : list (NodeClaim Q)) : list (ManagedClaim Q) :=
  List.filter (λ mc, bool_decide (nc_DeletionTimestamp (mc_claim mc) = None) && bool_decide (nc_ProviderID (mc_claim mc) ∉ listedIDs listed) &&
    isCollectable (cr_now reads) mc) (List.filter (cr_isManaged reads) claims).

(** [Reconcile] of [garbagecollection/controller.go].  The workers share nothing, so
    running them in turn differs from running them together only in the order of
    the calls. *)
Definition ReconcileCollect (reads : CollectReads) : list UpkeepEffect * Outcome :=
  match cr_claims reads, cr_provider reads with
  | Some claims, Some listed =>
      let results := collect reads <$> toCollect reads claims listed in
      (concat results.*1, if existsb id results.*2 then inr () else inl (requeueAfter (2 * Minute)))
  | _, _ => ([], inr ())
  end.

(** ** Expiration *)

(** [Reconcile] of [expiration/controller.go] *)
Definition ReconcileExpiration (isManaged : NodeClaim Q → bool) claim now (answer : CallAnswer) : list UpkeepEffect * Outcome :=
  if negb (isManaged claim) then ([], inl noResult)
  else if bool_decide (nc_DeletionTimestamp claim ≠ None) then ([], inl noResult)
  else
    match nc_ExpireAfter claim with
    | None => ([], inl noResult)
    | Some expireAfter =>
        let expirationTime := nc_CreationTimestamp claim + expireAfter in
        if now <? expirationTime then ([], inl (requeueAfter (timeSub expirationTime now)))
        else ([UDelete (nc_Name claim)], ignoreNotFound answer)
    end.
End upkeep.

(** * Theory *)

Section upkeep_theory.
Context {TP : TimeParser} {IS : IntStr} {ISL : IntStrLaws} {Q : Type}.
Context (formatRFC3339 : Z → string).
Implicit Types (node : Node Q) (claim : NodeClaim Q) (mc : ManagedClaim Q) (policies : list RepairPolicy) (now : Z).

(** The conditions a policy names have a time. *)
Definition timed node policies : Prop := ∀ p, p ∈ policies → matchesPolicy node p = true → repairTime node p ≠ zeroTime.

(** What [findUnhealthyConditions] knows of the policies it has seen. *)
Definition found_inv node policies (acc : option (Condition * Z) * Z) : Prop :=
  match acc.1 with
  | None => acc.2 = zeroTime ∧ ∀ p, p ∈ policies → matchesPolicy node p = false
  | Some (c, d) =>
      (∃ p, p ∈ policies ∧ matchesPolicy node p = true ∧ c = GetCondition node (rp_ConditionType p) ∧ d = rp_TolerationDuration p ∧ acc.2 = repairTime node p) ∧
      (timed node policies → ∀ p, p ∈ policies → matchesPolicy node p = true → acc.2 <= repairTime node p)
  end.

Lemma timed_prefix node policies p : timed node (policies ++ [p]) → timed node policies.
Proof. intros Ht p' Hp'. apply Ht. apply elem_of_app. by left. Qed.

Lemma findStep_inv node policies acc p : found_inv node policies acc → found_inv node (policies ++ [p]) (findStep node acc p).
Proof.
  intros Hinv. unfold findStep. destruct (matchesPolicy node p) eqn:Hm.
  2:{ destruct acc as [[[c d]|] t]; unfold found_inv in *; cbn [fst snd] in *.
      - destruct Hinv as [(p' & Hp' & Hrest) Hmin]. split; [exists p'; split; [apply elem_of_app; by left|done]|].
        intros Ht p'' [?| ->%list_elem_of_singleton]%elem_of_app ?; [|congruence]. eapply Hmin; eauto using timed_prefix.
      - destruct Hinv as [? Hall]. split; [done|]. by intros p' [?| ->%list_elem_of_singleton]%elem_of_app; [apply Hall|]. }
  cbv zeta. destruct ((acc.2 =? zeroTime) || (repairTime node p <? acc.2)) eqn:Hb.
  - split; [exists p; split_and!; try done; apply elem_of_app; right; by apply list_elem_of_singleton|].
    cbn [fst snd]. intros Ht p' [Hp'| ->%list_elem_of_singleton]%elem_of_app Hm'; [|lia].
    destruct acc as [[[c d]|] t]; unfold found_inv in Hinv; cbn [fst snd] in *; [|destruct Hinv as [_ Hall]; rewrite Hall in Hm'; [discriminate|done]].
    destruct Hinv as [(p0 & Hp0 & Hm0 & _ & _ & Ht0) Hmin]. apply orb_true_iff in Hb as [Hz%Z.eqb_eq|Hlt%Z.ltb_lt].
    + exfalso. apply (Ht p0); [apply elem_of_app; by left|done|congruence].
    + specialize (Hmin (timed_prefix _ _ _ Ht) p' Hp' Hm'). lia.
  - apply orb_false_iff in Hb as [Hz%Z.eqb_neq Hge%Z.ltb_ge]. destruct acc as [[[c d]|] t]; unfold found_inv in *; cbn [fst snd] in *; [|by destruct Hinv].
    destruct Hinv as [(p' & Hp' & Hrest) Hmin]. split; [exists p'; split; [apply elem_of_app; by left|done]|].
    intros Ht p'' [?| ->%list_elem_of_singleton]%elem_of_app ?; [|done]. eapply Hmin; eauto using timed_prefix.
Qed.

Lemma find_inv node policies seen acc : found_inv node seen acc → found_inv node (seen ++ policies) (foldl (findStep node) acc policies).
Proof.
  revert seen acc. induction policies as [|p policies IH]; intros seen acc Hinv; [by rewrite app_nil_r|].
  rewrite cons_middle, app_assoc. apply IH. by apply findStep_inv.
Qed.

(** A policy whose time has come. *)
Definition due node policies now : Prop := ∃ p, p ∈ policies ∧ matchesPolicy node p = true ∧ repairTime node p <= now.

Lemma find_due node policies now : timed node policies →
  due node policies now ↔ ∃ c d, findUnhealthyConditions policies node = Some (c, d) ∧ cd_LastTransitionTime c + d <= now.
Proof.
  intros Ht. pose proof (find_inv node policies [] (None, zeroTime)) as Hinv. unfold findUnhealthyConditions, due. cbn [app] in Hinv.
  specialize (Hinv ltac:(split; [done|by intros p ?%not_elem_of_nil])). unfold found_inv in Hinv. destruct (foldl _ _ _).1 as [[c d]|].
  - destruct Hinv as [(p & Hp & Hm & -> & -> & ->) Hmin]. split.
    + intros (p' & Hp' & Hm' & Hle). eexists _, _. split; [done|]. specialize (Hmin Ht p' Hp' Hm'). unfold repairTime in *. lia.
    + intros (c & d & [= <- <-] & Hle). by exists p.
  - destruct Hinv as [_ Hall]. split; [|by intros (? & ? & ? & _)]. intros (p & Hp & Hm & _). rewrite Hall in Hm; [discriminate|done].
Qed.

(** The nodes a policy names. *)
Lemma isUnhealthy_spec policies node : isUnhealthy policies node = true ↔ ∃ p, p ∈ policies ∧ matchesPolicy node p = true.
Proof.
  unfold isUnhealthy. destruct (List.find _ _) as [p|] eqn:Hf.
  - apply List.find_some in Hf as [Hin Hm]. split; [|done]. intros _. exists p. split; [by apply list_elem_of_In|done].
  - split; [done|]. intros (p & Hp & Hm). eapply List.find_none in Hf; [|by apply list_elem_of_In]. congruence.
Qed.

(** At most a fifth of the nodes, rounded up, are unhealthy. *)
Definition mostly_healthy policies (nodes : list (Node Q)) : Prop :=
  5 * Z.of_nat (length (List.filter (isUnhealthy policies) nodes)) < Z.of_nat (length nodes) + 5.

Lemma areNodesHealthy_spec policies listed : areNodesHealthy policies listed ≠ Panic ∧
  (areNodesHealthy policies listed = Done true ↔ ∃ nodes, listed = Found nodes ∧ mostly_healthy policies nodes).
Proof.
  unfold areNodesHealthy. destruct listed as [nodes| |]; [|by split; [|split; [|intros (? & ? & _)]]..].
  change allowedUnhealthyPercent with (FromString (FormatInt 20 +:+ "%")). rewrite scaled_percent by lia. split; [done|]. cbn [orPanic mbind outcome_bind].
  pose proof (ceilPercent_spec 20 (Z.of_nat (length nodes)) ltac:(lia) ltac:(lia)). unfold mostly_healthy. split.
  - intros [= Hle%Z.leb_le]. exists nodes. split; [done|]. lia.
  - intros (? & [= <-] & Hlt). f_equal. apply Z.leb_le. lia.
Qed.

(** The nodes that have to be mostly healthy: those of its pool, or all. *)
Definition neighbours claim (reads : HealthReads (Q := Q)) : GetResult (list (Node Q)) := hr_nodes reads (nc_Labels claim !! NodePoolLabelKey).

Lemma repairAllowed_spec claim (reads : HealthReads (Q := Q)) : (∃ out, repairAllowed claim reads = Done out) ∧
  (repairAllowed claim reads = Done None ↔ ∃ nodes, neighbours claim reads = Found nodes ∧ mostly_healthy (hr_policies reads) nodes).
Proof.
  unfold repairAllowed, neighbours. destruct (nc_Labels claim !! NodePoolLabelKey) as [pool|].
  - destruct (areNodesHealthy_spec (hr_policies reads) (hr_nodes reads (Some pool))) as [Hp <-].
    destruct (areNodesHealthy _ _) as [|?|[]]; (split; [try done; by eexists|by split]).
  - destruct (areNodesHealthy_spec (hr_policies reads) (hr_nodes reads None)) as [Hp <-].
    destruct (areNodesHealthy _ _) as [|?|[]]; (split; [try done; by eexists|by split]).
Qed.

(** What terminates a node at once: a termination time in the past or, to the
    second, now. *)
Definition terminates_now now (annotation : option string) : Prop :=
  (∃ e, annotation ≫= parseRFC3339 = Some e ∧ e < now) ∨ annotation = Some (formatRFC3339 now).

Lemma annotate_spec now claim :
  match annotateTerminationGracePeriod formatRFC3339 now claim with
  | Some time => time = formatRFC3339 now
  | None => terminates_now now (nc_Annotations claim !! NodeClaimTerminationTimestampAnnotationKey)
  end.
Proof.
  unfold annotateTerminationGracePeriod, terminates_now. cbv zeta. destruct (_ ≫= parseRFC3339) as [e|] eqn:He.
  - destruct (e <? now) eqn:Hlt; [left; exists e; split; [done|by apply Z.ltb_lt]|]. case_bool_decide; [by right|done].
  - case_bool_decide; [by right|done].
Qed.

(** The NodeClaim of a node has its termination time in the past or the repair set
    it to now, and that call succeeded. *)
Definition annotated claim (reads : HealthReads (Q := Q)) (effects : list UpkeepEffect) : Prop :=
  terminates_now (hr_now reads) (nc_Annotations claim !! NodeClaimTerminationTimestampAnnotationKey) ∨
  (hr_annotate reads = CallOk ∧ ∃ rest, effects = UAnnotate (nc_Name claim) (formatRFC3339 (hr_now reads)) :: rest).

Lemma repair_deletes claim (reads : HealthReads (Q := Q)) name : let effects := (repair formatRFC3339 claim reads).1 in
  (UDelete name ∈ effects → name = nc_Name claim ∧ nc_DeletionTimestamp claim = None ∧ annotated claim reads effects) ∧
  (hr_annotate reads = CallOk → nc_DeletionTimestamp claim = None → UDelete (nc_Name claim) ∈ effects).
Proof.
  unfold repair, annotated, deleteNodeClaim. pose proof (annotate_spec (hr_now reads) claim) as Ha. destruct (annotateTerminationGracePeriod _ _ _) as [time|].
  - subst time. destruct (hr_annotate reads); cbn [fst]; try (split; [by intros [[=]|[]%not_elem_of_nil]%elem_of_cons|done]).
    destruct (nc_DeletionTimestamp claim); cbn [fst].
    + split; [by intros [[=]|[]%not_elem_of_nil]%elem_of_cons|done].
    + split; [|intros _ _; right; left]. intros [[=]|[= ->]%list_elem_of_singleton]%elem_of_cons. split_and!; [done..|]. right. split; [done|]. by eexists.
  - destruct (nc_DeletionTimestamp claim); cbn [fst]; [split; [by intros ?%not_elem_of_nil|done]|].
    split; [|intros _ _; left]. intros [= ->]%list_elem_of_singleton. split_and!; [done..|]. by left.
Qed.

(** C29. Repair never panics and deletes the NodeClaim of a node exactly when it is the
    only one of the node and not deleted yet, some condition of the node has been bad
    for as long as its policy tolerates, and at most a fifth of the nodes of its pool,
    or of the cluster, are bad; before that it makes the node terminate at once. *)
Theorem repair_exact node (reads : HealthReads (Q := Q)) name (Htimed : timed node (hr_policies reads)) : ∃ effects out,
  ReconcileHealth formatRFC3339 node reads = Some (effects, out) ∧
  (UDelete name ∈ effects → ∃ claim nodes,
    claimForNode node (hr_claims reads) = Some (Some claim) ∧ name = nc_Name claim ∧ nc_DeletionTimestamp claim = None ∧
    due node (hr_policies reads) (hr_now reads) ∧ neighbours claim reads = Found nodes ∧ mostly_healthy (hr_policies reads) nodes ∧ annotated claim reads effects) ∧
  (∀ claim nodes, claimForNode node (hr_claims reads) = Some (Some claim) → nc_DeletionTimestamp claim = None →
    due node (hr_policies reads) (hr_now reads) → neighbours claim reads = Found nodes → mostly_healthy (hr_policies reads) nodes →
    hr_annotate reads = CallOk → UDelete (nc_Name claim) ∈ effects).
Proof.
  unfold ReconcileHealth. destruct (claimForNode node (hr_claims reads)) as [[claim|]|].
  2-3: eexists _, _; split; [done|]; split; [by intros ?%not_elem_of_nil|done].
  pose proof (find_due node (hr_policies reads) (hr_now reads) Htimed) as Hdue. destruct (findUnhealthyConditions _ _) as [[c d]|].
  2:{ eexists _, _. split; [done|]. split; [by intros ?%not_elem_of_nil|]. intros ? ? [= <-] _ Hd. by apply Hdue in Hd as (? & ? & ? & _). }
  cbv zeta. destruct (hr_now reads <? _) eqn:Hlt.
  { apply Z.ltb_lt in Hlt. eexists _, _. split; [done|]. split; [by intros ?%not_elem_of_nil|]. intros ? ? [= <-] _ Hd.
    apply Hdue in Hd as (? & ? & [= <- <-] & ?). lia. }
  apply Z.ltb_ge in Hlt. assert (due node (hr_policies reads) (hr_now reads)) as Hd by (apply Hdue; by exists c, d).
  destruct (repairAllowed_spec claim reads) as [[out Hout] Hok]. rewrite Hout in *. destruct out as [out|].
  { eexists _, _. split; [done|]. split; [by intros ?%not_elem_of_nil|]. intros ? nodes [= <-] _ _ Hn Hm. destruct Hok as [_ Hok].
    discriminate Hok. by exists nodes. }
  destruct (repair_deletes claim reads name) as [Honly Hdel]. exists (repair formatRFC3339 claim reads).1, (repair formatRFC3339 claim reads).2.
  split; [by rewrite <- surjective_pairing|]. destruct Hok as [Hok _]. destruct (Hok eq_refl) as (nodes & Hn & Hm). split.
  - intros Hin. destruct (Honly Hin) as (-> & ? & ?). by exists claim, nodes.
  - intros ? ? [= <-] ? _ _ _ ?. by apply Hdel.
Qed.

(** ** Garbage collection and expiration *)

(** The provider was asked and does not have the instance. *)
Definition gone mc (listed : list (NodeClaim Q)) : Prop :=
  ∀ nc, nc ∈ listed → nc_ProviderID nc = nc_ProviderID (mc_claim mc) → nc_DeletionTimestamp nc ≠ None.

Lemma listedIDs_spec mc listed : nc_ProviderID (mc_claim mc) ∉ listedIDs listed ↔ gone mc listed.
Proof.
  unfold listedIDs, gone. rewrite elem_of_list_to_set, list_elem_of_fmap. split.
  - intros Hn nc Hin Hid Hd. apply Hn. exists nc. split; [done|]. apply list_elem_of_In, List.filter_In. split; [by apply list_elem_of_In|by apply bool_decide_eq_true].
  - intros Hall (nc & Hid & [Hin Hd%bool_decide_eq_true]%list_elem_of_In%List.filter_In). apply (Hall nc); [by apply list_elem_of_In|done|done].
Qed.

(** It had its time to show up. *)
Definition settled now mc : Prop :=
  isTrue mc ConditionTypeRegistered = true ∨
  ∃ c, conditionsOf mc !! ConditionTypeLaunched = Some c ∧ cd_Status c = ConditionTrue ∧ LaunchedGracePeriod <= now - cd_LastTransitionTime c.

Lemma timeSub_ge a b d : 0 <= d <= MaxInt64 → (d <= timeSub a b ↔ d <= a - b).
Proof. unfold timeSub. int_lia. Qed.

Lemma isCollectable_spec now mc : isCollectable now mc = true ↔ settled now mc.
Proof.
  unfold isCollectable, settled. destruct (isTrue mc ConditionTypeRegistered); [by split; [left|]|].
  destruct (conditionsOf mc !! ConditionTypeLaunched) as [c|]; [|by split; [|intros [?|(? & ? & _)]]].
  rewrite andb_true_iff, String.eqb_eq, Z.leb_le, timeSub_ge by (unfold LaunchedGracePeriod, Minute, Second; int_lia). split.
  - intros [? ?]. right. by exists c.
  - by intros [?|(? & [= <-] & ? & ?)].
Qed.

(** Its one node was read and is ready. *)
Definition seen_ready mc (listed : option (list (RegNode Q))) : Prop :=
  ∃ node : RegNode Q, NodeForNodeClaim mc listed = OneNode node ∧ conditionTrue (n_Conditions (rn_node node)) "Ready" = true.

Lemma collect_spec (reads : CollectReads (Q := Q)) mc e : e ∈ (collect reads mc).1 ↔ e = UDelete (nc_Name (mc_claim mc)) ∧ ¬ seen_ready mc (cr_nodes reads mc).
Proof.
  unfold collect, seen_ready, GetCondition, conditionTrue. cbv zeta. destruct (NodeForNodeClaim mc _) as [node| | |]; cbn [fst].
  - destruct (n_Conditions (rn_node node) !! "Ready"%string) as [c|] eqn:Hl; cbn [default from_option id cd_Status].
    + change "True"%string with ConditionTrue. destruct (String.eqb (cd_Status c) ConditionTrue) eqn:Hc; cbn [fst].
      * split; [by intros ?%not_elem_of_nil|]. intros [_ Hn]. destruct Hn. exists node. by rewrite Hl.
      * rewrite list_elem_of_singleton. split; [|by intros []]. intros ->. split; [done|]. intros (? & [= <-] & Hr). rewrite Hl in Hr. congruence.
    + change (String.eqb "" ConditionTrue) with false. cbn [fst]. rewrite list_elem_of_singleton. split; [|by intros []]. intros ->. split; [done|]. intros (? & [= <-] & Hr). by rewrite Hl in Hr.
  - rewrite list_elem_of_singleton. split; [intros ->; split; [done|]; by intros (? & ? & _)|by intros []].
  - rewrite list_elem_of_singleton. split; [intros ->; split; [done|]; by intros (? & ? & _)|by intros []].
  - rewrite list_elem_of_singleton. split; [intros ->; split; [done|]; by intros (? & ? & _)|by intros []].
Qed.

(** C30. Garbage collection deletes the NodeClaims whose instance is gone.  What it deletes
    is a NodeClaim of the provider, not deleted yet, whose instance is not among those
    the provider lists, that registered or launched at least five minutes ago, and whose
    one node was not seen ready; and it deletes every such NodeClaim whose nodes could
    be read.  When either list cannot be read it deletes nothing.  (Where the nodes
    could not be read: [unread_node_collected].) *)
Theorem collected_exact (reads : CollectReads (Q := Q)) e :
  (e ∈ (ReconcileCollect reads).1 →
   ∃ claims listed mc, cr_claims reads = Some claims ∧ cr_provider reads = Some listed ∧ mc ∈ claims ∧ e = UDelete (nc_Name (mc_claim mc)) ∧
     cr_isManaged reads mc = true ∧ nc_DeletionTimestamp (mc_claim mc) = None ∧ gone mc listed ∧ settled (cr_now reads) mc ∧ ¬ seen_ready mc (cr_nodes reads mc)) ∧
  (∀ claims listed mc, cr_claims reads = Some claims → cr_provider reads = Some listed → mc ∈ claims → e = UDelete (nc_Name (mc_claim mc)) →
     cr_isManaged reads mc = true → nc_DeletionTimestamp (mc_claim mc) = None → gone mc listed → settled (cr_now reads) mc →
     NodeForNodeClaim mc (cr_nodes reads mc) ≠ NodeReadError → ¬ seen_ready mc (cr_nodes reads mc) → e ∈ (ReconcileCollect reads).1).
Proof.
  unfold ReconcileCollect. split.
  - destruct (cr_claims reads) as [claims|]; [destruct (cr_provider reads) as [listed|]|]; [|by intros ?%not_elem_of_nil..].
    cbn [fst]. rewrite list_elem_of_In, in_concat.
    intros (es & Hes%list_elem_of_In & Hin%list_elem_of_In). apply list_elem_of_fmap in Hes as (r & -> & (mc & -> & Hmc)%list_elem_of_fmap).
    apply collect_spec in Hin as [-> Hnr]. unfold toCollect in Hmc. apply list_elem_of_In, List.filter_In in Hmc as [[Hmc Hman]%List.filter_In Hb].
    apply andb_true_iff in Hb as [[Hd%bool_decide_eq_true Hp%bool_decide_eq_true]%andb_true_iff Hc]. exists claims, listed, mc.
    split_and!; try done; [by apply list_elem_of_In|by apply listedIDs_spec|by apply isCollectable_spec].
  - intros claims listed mc -> -> Hmc -> Hman Hd Hg Hs _ Hnr. cbn [fst]. rewrite list_elem_of_In, in_concat. exists (collect reads mc).1. split.
    + apply list_elem_of_In, list_elem_of_fmap. exists (collect reads mc). split; [done|]. apply list_elem_of_fmap. exists mc. split; [done|].
      apply list_elem_of_In. unfold toCollect. apply List.filter_In. split; [apply List.filter_In; split; [by apply list_elem_of_In|done]|].
      apply andb_true_iff. split; [apply andb_true_iff; split; apply bool_decide_eq_true; [done|by apply listedIDs_spec]|by apply isCollectable_spec].
    + apply list_elem_of_In, collect_spec. done.
Qed.

(** A NodeClaim is expired exactly once its lifetime is over, and until then its
    next reconcile is due when it is. *)
Theorem expired_exact (isManaged : NodeClaim Q → bool) claim now answer lifetime
    (Hmanaged : isManaged claim = true) (Hlife : nc_ExpireAfter claim = Some lifetime) (Hlive : nc_DeletionTimestamp claim = None) :
  let run := ReconcileExpiration isManaged claim now answer in
  (UDelete (nc_Name claim) ∈ run.1 ↔ nc_CreationTimestamp claim + lifetime <= now) ∧
  (run.1 = [] → lifetime <= MaxInt64 → nc_CreationTimestamp claim <= now →
    ∃ d, run.2 = inl (requeueAfter d) ∧ now + d = nc_CreationTimestamp claim + lifetime).
Proof.
  unfold ReconcileExpiration. rewrite Hmanaged, Hlife, Hlive. rewrite bool_decide_eq_false_2 by (intros Hn; by apply Hn). cbn [negb]. cbv zeta.
  destruct (now <? _) eqn:Hlt; cbn [fst snd].
  - apply Z.ltb_lt in Hlt. split; [split; [by intros ?%not_elem_of_nil|lia]|]. intros _ Hm Hc. eexists. split; [done|]. unfold timeSub. int_lia.
  - apply Z.ltb_ge in Hlt. split; [|done]. split; [done|]. intros _. left.
Qed.
End upkeep_theory.

(** * Witnesses *)

Section upkeep_witnesses.
#[local] Existing Instance simpleIntStr.
#[local] Existing Instance simpleIntStrLaws.
#[local] Instance noTimes : TimeParser := {| parseRFC3339 _ := None |}.

(** One of two nodes of a pool has not been ready for an hour. *)
Definition poolNode (name ready : string) : Node Z :=
  mkNode name name {[NodePoolLabelKey := "pool-a"%string]} ∅ [] None ∅ ∅ {["Ready"%string := mkCondition ready "Kubelet" 0]}.

Definition poolClaim (name : string) (conds : gmap string Condition) : NodeClaim Z :=
  mkNodeClaim name name {[NodePoolLabelKey := "pool-a"%string]} ∅ [] [] (Some Hour) 0 None ∅ ∅ conds None None.

Definition healthReads : HealthReads (Q := Z) :=
  mkHealthReads Hour [mkRepairPolicy "Ready" "False" (30 * Minute)] (Some [poolClaim "a" ∅]) (λ _, Found [poolNode "a" "False"; poolNode "b" "True"]) (Found ()) CallOk CallOk.

Lemma repair_exact_witness : ∃ effects out, ReconcileHealth (λ _, "now"%string) (poolNode "a" "False") healthReads = Some (effects, out) ∧ UDelete "a" ∈ effects.
Proof.
  destruct (repair_exact (λ _, "now"%string) (poolNode "a" "False") healthReads "a") as (effects & out & Hrun & _ & Hdel).
  - intros p ->%list_elem_of_singleton _. vm_compute. discriminate.
  - exists effects, out. split; [exact Hrun|]. apply (Hdel (poolClaim "a" ∅) [poolNode "a" "False"; poolNode "b" "True"]); try reflexivity.
    exists (mkRepairPolicy "Ready" "False" (30 * Minute)). split; [left|]. split; [reflexivity|]. vm_compute. discriminate.
Defined.

Lemma expired_exact_witness : UDelete (nc_Name (poolClaim "a" ∅)) ∈ (ReconcileExpiration (λ _, true) (poolClaim "a" ∅) (2 * Hour) CallOk).1.
Proof.
  pose proof (expired_exact (λ _, true) (poolClaim "a" ∅) (2 * Hour) CallOk Hour eq_refl eq_refl eq_refl) as [Hiff _].
  apply Hiff. vm_compute. discriminate.
Defined.

(** The worker of garbage collection keeps the error of reading the node but goes on,
    so a registered NodeClaim is deleted although its node could not be read. *)
Definition unreadClaim : ManagedClaim Z :=
  mkManagedClaim "uid-a" (poolClaim "a" {[ConditionTypeRegistered := mkCondition ConditionTrue "Registered" 0]}) ∅ "" "node-a" [] true.

Lemma unread_node_collected :
  ReconcileCollect (mkCollectReads Hour (λ _, true) (Some [unreadClaim]) (Some []) (λ _, None) (λ _, CallOk)) = ([UDelete "a"], inr ()).
Proof. vm_compute. reflexivity. Qed.

(** The instance of this NodeClaim is gone, and so is its node. *)
Lemma collected_exact_witness :
  UDelete "a" ∈ (ReconcileCollect (mkCollectReads Hour (λ _, true) (Some [unreadClaim]) (Some []) (λ _, Some []) (λ _, CallOk))).1.
Proof.
  destruct (collected_exact (mkCollectReads Hour (λ _, true) (Some [unreadClaim]) (Some []) (λ _, Some []) (λ _, CallOk)) (UDelete "a")) as [_ Hdel].
  apply (Hdel [unreadClaim] [] unreadClaim); try reflexivity.
  - left.
  - intros nc Hin. by apply not_elem_of_nil in Hin.
  - left. vm_compute. reflexivity.
  - vm_compute. discriminate.
  - intros (node & Hn & _). vm_compute in Hn. discriminate Hn.
Defined.
End upkeep_witnesses.
